(* ===== verification/_CoqProject ===== *)
-Q . S2P
Prelude.v
Bytes.v
Arith.v
Checksum.v
Header.v
Validation.v
Config.v
Ewah.v
Ring.v
Sessions.v
Clock.v
Random.v
Timers.v
RepairBudget.v
Storage.v
Checkpoint.v
Superblock.v
SuperblockStore.v
SuperblockCrash.v
BlockAllocator.v
BlockStates.v
BlockReserve.v
BlockCheckpoints.v
BlockSafety.v
Wal.v
WalRecovery.v
WalSafety.v
WalDurability.v
Records.v
Reconfiguration.v
Replica.v
Release.v
ViewChange.v
ViewSelection.v
ViewReports.v
ViewJoins.v
ReplicaSample.v
ViewSafety.v
StateMachine.v
Normal.v
NormalSafety.v
Acknowledgements.v
Requests.v
ReplicaCheckpoint.v
Commit.v
CommitSafety.v
ReplicaSafety.v
TimerHandlers.v
Client.v
ClientSafety.v
