(* ===== verification/Prelude.v ===== *)
(** * A verification library for supervsr

    supervsr is a Go implementation of viewstamped replication (sources under
    [src/replication] and [src/replication/protocol]).  A group of replicas
    keeps one log of prepares.  The primary of a view makes a prepare of every
    client request, the replicas append it to their write-ahead logs and
    acknowledge it, and with a replication quorum the primary commits it: the
    state machine executes it and the reply is recorded in the session table.
    When the primary falls silent the replicas change view; the new primary
    chooses the log from the joins it collects.  Checkpoints let the log be
    reused; superblocks record where a replica stands.

    The library translates the code into executable definitions, one per
    function with the names of the source, and proves what makes them correct.
    Integers are [Z] with the wrap of their width written out; byte slices are
    [list byte]; errors are values of [result]; a function that can panic or run
    out of fuel returns [option].  Where the code takes a frame from the pool,
    submits an operation to the storage or asks for the time, the answers come
    from lists that are part of the state, so that every outcome is covered;
    messages and submissions are appended to lists of the state.

    ** The parts and their files

    Foundations.
    - [Prelude]: widths, results, tactics.  [Bytes]: slices, little-endian
      fields and records written field by field.  [Records]: updating records.
    - [Arith]: [checked.go] and the saturating helpers.
    - [Random]: [DeterministicRandom] of [timeout.go].

    Messages ([protocol/]).
    - [Checksum]: the AEGIS-128L hasher of [protocol/checksum.go].
    - [Header]: encoding, sealing and decoding frames, [protocol/header.go].
    - [Validation]: [protocol/validation.go].

    Components without a replica.
    - [Config]: [config.go], [membership.go].  [Reconfiguration]:
      [reconfiguration.go].
    - [Ewah]: the bit sets and their encoding, [ewah.go].
    - [Ring]: [ring.go] at the granularity of its atomic accesses, with any
      number of producers interleaved.
    - [Sessions]: [sessions.go].  [Clock]: [clock.go].
    - [Timers]: [timeout.go], [failure_detector.go], [replica_timers.go].
    - [RepairBudget]: [repair_budget.go].

    Durable state.
    - [Storage]: the interface and the file of [storage.go].
    - [Checkpoint], [Superblock]: the records and codecs of [checkpoint.go] and
      [superblock.go].  [SuperblockStore], [SuperblockCrash]: choosing, opening,
      repairing and persisting superblocks, [superblock_store.go], and what a
      crash between two physical operations leaves.
    - [BlockAllocator] with [BlockStates], [BlockReserve], [BlockCheckpoints]
      and [BlockSafety]: [block_allocator.go] and the states a block passes
      through.
    - [Wal], [WalRecovery] with [WalSafety] and [WalDurability]: [wal.go] and
      [wal_recovery.go].

    The replica.
    - [Replica]: the state of [replica.go] with [status.go].  [Release]:
      [release.go].
    - [ViewChange] with [ViewSelection], [ViewReports], [ViewJoins] and
      [ViewSafety]: [view_change.go].
    - [StateMachine]: the interface of [sm.go] as a type class.
    - [Normal] with [NormalSafety] and [Acknowledgements]: prepares and
      acknowledgements of [replica_normal.go].  [Requests]: requests, evictions
      and cached replies of the same file.
    - [ReplicaCheckpoint], [Commit] with [CommitSafety]: the commit of
      [replica_normal.go] and the stages of [replica_checkpoint.go].
    - [ReplicaSafety]: the handlers as steps of one replica.
    - [TimerHandlers]: [replica_timer_handlers.go].
    - [Client] with [ClientSafety]: [client.go], and a client with the session
      table of the group.
    - [ReplicaSample]: three replicas the examples evaluate.

    ** What the theorems show

    - Agreement: quorums intersect ([quorum_intersection]); a replica
      acknowledges only what it holds and will report ([acknowledgement_promise])
      and the primary counts the acknowledgement for that prepare
      ([acknowledgement_counted]) and commits with a quorum
      ([commit_has_quorum]); a join tells the new primary what its sender knows
      ([join_roundtrip]), and the suffix selected from the joins is a hash chain
      ([canonical_suffix]) that keeps what a quorum holds and the latest logs
      contain ([canonical_keeps_acknowledged]).
    - Commits: they follow one hash chain and reach the state machine in its
      order ([commit_in_order], [replicas_agree]) and each call returns
      ([commit_terminates]).
    - Clients: requests take effect once and in order ([session_exactly_once],
      [requests_exactly_once]); a reply answers its request
      ([reply_answers_request]).
    - Durability: the log never reports a prepare it cannot read
      ([wal_backed]), does not deny a durable one after a crash and damage
      ([durable_prepare_not_denied]) and recovers the longest chain
      ([recover_head]); blocks of the durable checkpoint are not reused
      ([durable_blocks_kept]) and the allocator's operations do what they say
      ([allocator_operations], [checkpoint_operations]); a persist ends
      ([persist_completes]) and an open finds a superblock a quorum holds
      ([select_sound]).
    - Crashes of a persist: with four copies it is survived at every point but
      a torn second copy ([persist_crash_safe_four],
      [torn_persist_unopenable]); with six or eight, and during a repair, there
      are points that leave a storage that does not open
      ([interrupted_persist_unopenable], [interrupted_repair_unopenable]).
    - Progress: a silent primary is left ([silent_primary_left],
      [failure_detector_bounds], [timeout_fires]); backups learn how far to
      commit ([commit_learned]); prepares are sent again ([prepare_resent]);
      repair requests expire ([repair_budget_live]); drawing a number ends
      ([uniform_returns]).
    - Codecs: frames, checkpoints, superblocks, session trailers and bit sets
      round trip; the streaming checksum is the one-shot one.
    - Concurrency: the ring is a queue and free of races ([ring_fifo],
      [ring_race_free], [ring_refusals]).

    ** Bounds and fuel

    Loops that the code bounds by a count carry that count ([PrepareCheckpoint]
    64 rounds, the clock's 64 halvings, the four phases of an append).  Loops it
    does not bound carry fuel, with a theorem that enough of it gives the
    result: rejection sampling ([uniform_returns], from the period of the
    generator), the selection of the suffix (one more than the headers it can
    hold), the nested calls of a commit (twice the pipeline), the encoder of bit
    sets, the search for the head of the log and the phases of a persist.  The
    ring's positions are bounded by 2^63 pushes, which no run reaches.

    ** Assumptions

    The storage and the state machine are arguments.  Hypotheses about them say
    that two different contents met in a proof do not have the same checksum
    ([collision_free], [distinguished]) or restate well-formedness that opening
    establishes.  [node_step] has the handlers of one replica between two
    installations of a view; [canonical_keeps_acknowledged] takes from the
    protocol that the logs of the latest log view contain what was acknowledged
    in it.

    ** Not modelled

    - Goroutines, channels and the event loop ([replica.go], [runtime.go],
      [open.go], [io_engine.go], [io_control.go]): each handler is a definition
      and their interleavings are sequences of steps.
    - Fetching from peers what a replica lacks: [replica_repair.go] and
      [replica_reply_repair.go] (but for what a commit and a view change call),
      [state_sync.go], [block_repair.go], [block_repair_budget.go], [scrub.go];
      and with it installing a view received from its primary ([handleView]).
    - The bytes of blocks and replies: [block_store.go], [block_open.go],
      [trailer_store.go], [checkpoint_blocks.go], [checkpoint_reachability.go],
      [reply_store.go].  The allocator and the session table, which decide what
      may be written where, are modelled; whether a block operation of a
      checkpoint succeeds is an answer of the state.
    - Writing a fresh or replacement storage ([format.go], [replacement.go]),
      the entropy source, the reference counts of frames ([frame_pool.go]), the
      platform files and assembly, the simulator ([sim/]) and [cmd/toykv].
    - Running out of memory. *)

From stdpp Require Export base tactics option list list_numbers numbers gmap.
From Stdlib Require Export ZArith Lia ZifyNat.
From coqutil Require Export Byte.

Global Open Scope Z_scope.

(** ** Scopes and automation *)

Declare Scope go_scope.
Delimit Scope go_scope with go.

Create HintDb go discriminated.

(** ** Fixed-width integers

    A Go integer of width [w] is a [Z]; every operation that can leave the
    range is followed by the wrap that Go's conversion rules prescribe. *)

Definition uwrap (w z : Z) : Z := z mod 2 ^ w.
Definition swrap (w z : Z) : Z := (z + 2 ^ (w - 1)) mod 2 ^ w - 2 ^ (w - 1).

Abbreviation u8 := (uwrap 8).
Abbreviation u16 := (uwrap 16).
Abbreviation u32 := (uwrap 32).
Abbreviation u64 := (uwrap 64).
Abbreviation i64 := (swrap 64).

Definition MaxUint8 : Z := 2 ^ 8 - 1.
Definition MaxUint16 : Z := 2 ^ 16 - 1.
Definition MaxUint32 : Z := 2 ^ 32 - 1.
Definition MaxUint64 : Z := 2 ^ 64 - 1.
Definition MaxInt32 : Z := 2 ^ 31 - 1.
Definition MaxInt64 : Z := 2 ^ 63 - 1.
Definition MinInt64 : Z := - 2 ^ 63.

Definition is_uint (w z : Z) : Prop := 0 <= z < 2 ^ w.
Definition is_sint (w z : Z) : Prop := - 2 ^ (w - 1) <= z < 2 ^ (w - 1).

Abbreviation is_u8 := (is_uint 8).
Abbreviation is_u16 := (is_uint 16).
Abbreviation is_u32 := (is_uint 32).
Abbreviation is_u64 := (is_uint 64).
Abbreviation is_i64 := (is_sint 64).

(** Turns the width predicates and constants into literals [lia] can use. *)
Ltac unfold_widths :=
  unfold MaxUint8, MaxUint16, MaxUint32, MaxUint64, MaxInt32, MaxInt64, MinInt64,
    is_uint, is_sint in *;
  repeat match goal with
  | H : context [2 ^ ?n] |- _ =>
      let v := eval vm_compute in (2 ^ n) in
      lazymatch v with Z.pos _ => change (2 ^ n) with v in H end
  | |- context [2 ^ ?n] =>
      let v := eval vm_compute in (2 ^ n) in
      lazymatch v with Z.pos _ => change (2 ^ n) with v end
  end.

Ltac width_lia := unfold_widths; lia.

(** [lia] with division and remainder turned into equations. *)
Ltac div_lia := zify; Z.to_euclidean_division_equations; lia.

Lemma uwrap_range w z : 0 <= w -> is_uint w (uwrap w z).
Proof. intros Hw. apply Z.mod_pos_bound. lia. Qed.

Lemma uwrap_small w z : is_uint w z -> uwrap w z = z.
Proof. intros Hz. by apply Z.mod_small. Qed.

Lemma uwrap_idem w z : 0 <= w -> uwrap w (uwrap w z) = uwrap w z.
Proof. intros Hw. by apply uwrap_small, uwrap_range. Qed.

Lemma swrap_small w z : 0 < w -> is_sint w z -> swrap w z = z.
Proof.
  intros Hw Hz. unfold swrap, is_sint in *.
  assert (2 ^ w = 2 * 2 ^ (w - 1)) as E.
  { rewrite <- Z.pow_succ_r by lia. f_equal. lia. }
  rewrite Z.mod_small; lia.
Qed.

Lemma swrap_zero_iff w z : 0 < w -> swrap w z = 0 <-> uwrap w z = 0.
Proof.
  intros Hw. unfold swrap, uwrap.
  assert (2 ^ w = 2 * 2 ^ (w - 1)) as E.
  { rewrite <- Z.pow_succ_r by lia. f_equal. lia. }
  assert (0 < 2 ^ (w - 1)) by lia.
  rewrite <- (Z.mod_small (2 ^ (w - 1)) (2 ^ w)) at 2 by lia.
  split; intros Hz.
  - assert ((z + 2 ^ (w - 1)) mod 2 ^ w = 2 ^ (w - 1) mod 2 ^ w) as Hm by lia.
    replace z with ((z + 2 ^ (w - 1)) - 2 ^ (w - 1)) by lia.
    rewrite Zminus_mod, Hm, Z.sub_diag. apply Z.mod_0_l. lia.
  - rewrite Zplus_mod, Hz, Z.add_0_l, Z.mod_mod by lia. lia.
Qed.

(** Reinterpreting an unsigned difference as signed is exact when the true
    difference is in the signed range. *)
Lemma swrap_uwrap_small w z : 0 < w -> is_sint w z -> swrap w (uwrap w z) = z.
Proof.
  intros Hw Hz. rewrite <- (swrap_small w z) at 2 by done. unfold swrap, uwrap.
  by rewrite Zplus_mod_idemp_l.
Qed.

#[export] Hint Resolve uwrap_range : go.
#[export] Hint Extern 1 (0 <= _)%Z => lia : go.

(** ** Results

    A Go function that returns [(T, error)] is a [result]; one that returns
    [(T, bool)] is an [option]. *)

Inductive result (E A : Type) : Type :=
| Ok (a : A)
| Err (e : E).
Arguments Ok {E A} a.
Arguments Err {E A} e.

#[export] Instance result_ret E : MRet (result E) := fun A a => Ok a.
#[export] Instance result_bind E : MBind (result E) := fun A B f m =>
  match m with Ok a => f a | Err e => Err e end.
#[export] Instance result_fmap E : FMap (result E) := fun A B f m =>
  match m with Ok a => Ok (f a) | Err e => Err e end.

Definition is_Ok {E A} (r : result E A) : bool :=
  match r with Ok _ => true | Err _ => false end.

Lemma result_bind_Ok {E A B} (f : A -> result E B) (m : result E A) b :
  m ≫= f = Ok b <-> exists a, m = Ok a /\ f a = Ok b.
Proof. destruct m; cbn; naive_solver. Qed.

Lemma result_bind_Err {E A B} (f : A -> result E B) (m : result E A) e :
  m ≫= f = Err e <-> m = Err e \/ exists a, m = Ok a /\ f a = Err e.
Proof. destruct m; cbn; naive_solver. Qed.

(** Splits the boolean tests of a goal or hypothesis, turning each into the
    proposition it decides. *)
Ltac split_bool :=
  repeat match goal with
  | H : _ && _ = true |- _ => apply andb_prop in H; destruct H
  | H : _ || _ = false |- _ => apply orb_false_iff in H; destruct H
  | H : negb _ = true |- _ => apply negb_true_iff in H
  | H : negb _ = false |- _ => apply negb_false_iff in H
  | H : bool_decide _ = true |- _ => apply bool_decide_eq_true in H
  | H : bool_decide _ = false |- _ => apply bool_decide_eq_false in H
  | H : (_ =? _)%Z = true |- _ => apply Z.eqb_eq in H
  | H : (_ =? _)%Z = false |- _ => apply Z.eqb_neq in H
  | H : (_ <? _)%Z = true |- _ => apply Z.ltb_lt in H
  | H : (_ <? _)%Z = false |- _ => apply Z.ltb_ge in H
  | H : (_ <=? _)%Z = true |- _ => apply Z.leb_le in H
  | H : (_ <=? _)%Z = false |- _ => apply Z.leb_gt in H
  end.

(** Walks down a chain of early returns: every [if] whose test must have been
    false for the conclusion to hold is discharged. *)
Ltac step_guards H :=
  repeat match type of H with
  | (if ?b then Err _ else _) = Ok _ =>
      let E := fresh "G" in destruct b eqn:E; [discriminate H|]
  | (if ?b then None else _) = Some _ =>
      let E := fresh "G" in destruct b eqn:E; [discriminate H|]
  end.

(** Evaluates the sums of literals, which [simpl] leaves alone. *)
Ltac literal_sums :=
  repeat match goal with
  | H : context [0 + Z.pos ?b] |- _ => change (0 + Z.pos b) with (Z.pos b) in H
  | H : context [Z.pos ?a + Z.pos ?b] |- _ =>
      let v := eval vm_compute in (Z.pos a + Z.pos b) in change (Z.pos a + Z.pos b) with v in H
  | |- context [Z.pos ?a + Z.pos ?b] =>
      let v := eval vm_compute in (Z.pos a + Z.pos b) in change (Z.pos a + Z.pos b) with v
  end.
