(* ===== verification/Bytes.v ===== *)
(** * Byte slices and little-endian fields

    Go's [[]byte] as [list byte], with the slicing, copying, clearing and
    [encoding/binary] operations the codecs use.  Offsets are [Z], as Go's
    [int] and [uint64] offsets are. *)

From S2P Require Import Prelude.
From coqutil Require Export Word.LittleEndianList.

#[export] Instance byte_eq_decision : EqDecision byte := Byte.byte_eq_dec.

(** ** Operations *)

Definition zlen {A} (l : list A) : Z := Z.of_nat (length l).

(** [l[a:b]] *)
Definition slice {A} (l : list A) (a b : Z) : list A :=
  take (Z.to_nat (b - a)) (drop (Z.to_nat a) l).

(** [copy(l[o:o+len(bs)], bs)], for a destination that is large enough *)
Definition put {A} (l : list A) (o : Z) (bs : list A) : list A :=
  take (Z.to_nat o) l ++ bs ++ drop (Z.to_nat (o + zlen bs)) l.

Definition zeros (n : Z) : list byte := replicate (Z.to_nat n) Byte.x00.

(** [allZero] and [allZeroBytes]: the loop ors every byte into an accumulator. *)
Definition allZero (input : list byte) : bool :=
  fold_left (fun accumulated value => Z.lor accumulated (byte.unsigned value)) input 0 =? 0.

(** [binary.LittleEndian.Uint16/32/64] of a slice of that many bytes, and
    the matching [Put]. *)
Definition getUint (source : list byte) : Z := le_combine source.
Definition putUint (size : nat) (value : Z) : list byte := le_split size value.

Abbreviation uint16At l a := (getUint (slice l a (a + 2))).
Abbreviation uint32At l a := (getUint (slice l a (a + 4))).
Abbreviation uint64At l a := (getUint (slice l a (a + 8))).

(** [l[i]] for an index in range *)
Definition byteAt (l : list byte) (i : Z) : Z :=
  match l !! Z.to_nat i with Some b => byte.unsigned b | None => 0 end.

(** ** Lengths *)

Lemma zlen_nonneg {A} (l : list A) : 0 <= zlen l.
Proof. unfold zlen. lia. Qed.

Lemma zlen_app {A} (l k : list A) : zlen (l ++ k) = zlen l + zlen k.
Proof. unfold zlen. rewrite length_app. lia. Qed.

Lemma zlen_cons {A} (x : A) l : zlen (x :: l) = 1 + zlen l.
Proof. unfold zlen. simpl. lia. Qed.

Lemma zlen_snoc {A} (l : list A) x : zlen (l ++ [x]) = zlen l + 1.
Proof. unfold zlen. rewrite length_app. simpl. lia. Qed.

Lemma zlen_nil {A} : zlen (@nil A) = 0.
Proof. done. Qed.

Lemma zlen_zeros n : 0 <= n -> zlen (zeros n) = n.
Proof. unfold zlen, zeros. rewrite length_replicate. lia. Qed.

Lemma zlen_slice {A} (l : list A) a b :
  0 <= a <= b -> b <= zlen l -> zlen (slice l a b) = b - a.
Proof. unfold zlen, slice. rewrite length_take, length_drop. lia. Qed.

Lemma zlen_put {A} (l : list A) o bs :
  0 <= o -> o + zlen bs <= zlen l -> zlen (put l o bs) = zlen l.
Proof.
  unfold put. intros. rewrite !zlen_app.
  unfold zlen in *. rewrite length_take, length_drop. lia.
Qed.

Lemma zlen_putUint n z : zlen (putUint n z) = Z.of_nat n.
Proof. unfold zlen, putUint. by rewrite length_le_split. Qed.

(** ** Slices of writes *)

Lemma slice_app_l {A} (l k : list A) a b :
  0 <= a -> b <= zlen l -> slice (l ++ k) a b = slice l a b.
Proof.
  unfold slice, zlen. intros Ha Hb.
  destruct (decide (b <= a)).
  { replace (Z.to_nat (b - a)) with 0%nat by lia. done. }
  rewrite drop_app_le by lia. rewrite take_app_le; [done|].
  rewrite length_drop. lia.
Qed.

Lemma slice_app_r {A} (l k : list A) a b :
  zlen l <= a -> slice (l ++ k) a b = slice k (a - zlen l) (b - zlen l).
Proof.
  unfold slice, zlen. intros Ha.
  rewrite drop_app_ge by lia. f_equal; [lia|]. f_equal. lia.
Qed.

Lemma slice_all {A} (l : list A) a b : a = 0 -> b = zlen l -> slice l a b = l.
Proof. unfold slice, zlen. intros -> ->. rewrite drop_0. apply take_ge. lia. Qed.

Lemma slice_take {A} (l : list A) n a b :
  0 <= a -> b <= n -> slice (take (Z.to_nat n) l) a b = slice l a b.
Proof.
  unfold slice. intros Ha Hb. destruct (decide (b <= a)).
  { by replace (Z.to_nat (b - a)) with 0%nat by lia. }
  rewrite skipn_firstn_comm, take_take. f_equal. lia.
Qed.

Lemma slice_drop {A} (l : list A) n a b :
  0 <= n -> 0 <= a -> slice (drop (Z.to_nat n) l) a b = slice l (n + a) (n + b).
Proof.
  unfold slice. intros Hn Ha. rewrite drop_drop. f_equal; [lia|]. f_equal. lia.
Qed.

Lemma slice_slice {A} (l : list A) a b c d :
  0 <= a -> 0 <= c -> d <= b - a ->
  slice (slice l a b) c d = slice l (a + c) (a + d).
Proof.
  intros. unfold slice at 2. rewrite slice_take by lia. by rewrite slice_drop by lia.
Qed.

Lemma slice_put_same {A} (l : list A) o bs a b :
  a = o -> b = o + zlen bs -> 0 <= o -> b <= zlen l -> slice (put l o bs) a b = bs.
Proof.
  intros -> -> Ho Hl. unfold put.
  assert (zlen (take (Z.to_nat o) l) = o) as E.
  { pose proof (zlen_nonneg bs). unfold zlen in *. rewrite length_take. lia. }
  rewrite slice_app_r by lia. rewrite E.
  rewrite slice_app_l by lia. apply slice_all; lia.
Qed.

Lemma slice_put_before {A} (l : list A) o bs a b :
  0 <= a -> b <= o -> o <= zlen l -> slice (put l o bs) a b = slice l a b.
Proof.
  intros Ha Hb Ho. unfold put. rewrite slice_app_l; [|done|].
  - by apply slice_take.
  - unfold zlen in *. rewrite length_take. lia.
Qed.

Lemma slice_put_after {A} (l : list A) o bs a b :
  0 <= o -> o + zlen bs <= a -> o + zlen bs <= zlen l ->
  slice (put l o bs) a b = slice l a b.
Proof.
  intros Ho Ha Hl. unfold put. pose proof (zlen_nonneg bs).
  assert (zlen (take (Z.to_nat o) l) = o) as E.
  { unfold zlen in *. rewrite length_take. lia. }
  rewrite slice_app_r by lia. rewrite E, slice_app_r by lia.
  rewrite slice_drop by lia. f_equal; lia.
Qed.

(** Two adjacent slices cover the slice between their outer ends. *)
Lemma slice_split {A} (l : list A) a b c :
  0 <= a <= b -> b <= c -> slice l a c = slice l a b ++ slice l b c.
Proof.
  intros. unfold slice.
  replace (Z.to_nat (c - a)) with (Z.to_nat (b - a) + Z.to_nat (c - b))%nat by lia.
  rewrite <- (take_drop (Z.to_nat (b - a)) (take _ (drop (Z.to_nat a) l))).
  rewrite take_take, Nat.min_l by lia. f_equal.
  rewrite skipn_firstn_comm, drop_drop. f_equal; [lia|]. f_equal. lia.
Qed.

Lemma take_slice {A} (l : list A) n a b :
  0 <= n <= b - a -> take (Z.to_nat n) (slice l a b) = slice l a (a + n).
Proof. intros. unfold slice. rewrite take_take. f_equal. lia. Qed.

Lemma drop_slice {A} (l : list A) n a b :
  0 <= n -> 0 <= a -> drop (Z.to_nat n) (slice l a b) = slice l (a + n) b.
Proof.
  intros. unfold slice. rewrite skipn_firstn_comm, drop_drop. f_equal; [lia|]. f_equal. lia.
Qed.

(** A write inside a wider slice is a write of that slice. *)
Lemma slice_put_inside {A} (l : list A) o bs a b :
  0 <= a <= o -> o + zlen bs <= b -> b <= zlen l ->
  slice (put l o bs) a b = put (slice l a b) (o - a) bs.
Proof.
  intros Ha Hb Hl. pose proof (zlen_nonneg bs).
  rewrite (slice_split _ a o b), (slice_split _ o (o + zlen bs) b) by lia.
  rewrite slice_put_before, slice_put_same, slice_put_after by lia.
  unfold put. rewrite take_slice, drop_slice by lia.
  f_equal; [f_equal; lia|]. f_equal. f_equal; lia.
Qed.

Lemma put_slice {A} (l : list A) a b :
  0 <= a <= b -> b <= zlen l -> put l a (slice l a b) = l.
Proof.
  intros. unfold put. rewrite zlen_slice by lia.
  replace (Z.to_nat (a + (b - a))) with (Z.to_nat a + Z.to_nat (b - a))%nat by lia.
  unfold slice. rewrite <- drop_drop, take_drop. apply take_drop.
Qed.

Lemma slice_ext {A} (l k : list A) n :
  zlen l = n -> zlen k = n -> slice l 0 n = slice k 0 n -> l = k.
Proof. intros Hl Hk E. by rewrite !slice_all in E by lia. Qed.

Lemma slice_zeros n a b : 0 <= a <= b -> b <= n -> slice (zeros n) a b = zeros (b - a).
Proof.
  intros. unfold slice, zeros. rewrite drop_replicate, take_replicate. f_equal. lia.
Qed.

(** ** Zero tests *)

Lemma foldl_lor_zero (input : list byte) acc :
  0 <= acc ->
  fold_left (fun a v => Z.lor a (byte.unsigned v)) input acc = 0 <->
  acc = 0 /\ Forall (fun b => b = Byte.x00) input.
Proof.
  revert acc. induction input as [|b bs IH]; intros acc Hacc; simpl.
  { naive_solver. }
  pose proof (byte.unsigned_range b).
  rewrite IH by (apply Z.lor_nonneg; lia). rewrite Z.lor_eq_0_iff, Forall_cons.
  assert (byte.unsigned b = 0 <-> b = Byte.x00) as ->; [|tauto].
  split; [|by intros ->]. intros E. by apply byte.unsigned_inj.
Qed.

Lemma allZero_true input : allZero input = true <-> input = zeros (zlen input).
Proof.
  unfold allZero. rewrite Z.eqb_eq, foldl_lor_zero by done.
  unfold zeros, zlen. rewrite Nat2Z.id. rewrite Forall_forall. split.
  - intros [_ H]. symmetry. by apply replicate_as_elem_of.
  - intros H. symmetry in H. split; [done|]. by apply replicate_as_elem_of in H as [_ H].
Qed.

Lemma allZero_zeros n : allZero (zeros n) = true.
Proof. apply allZero_true. unfold zeros, zlen. by rewrite length_replicate, Nat2Z.id. Qed.

Lemma allZero_slice_zeros l a b :
  0 <= a <= b -> b <= zlen l -> allZero (slice l a b) = true <-> slice l a b = zeros (b - a).
Proof. intros. rewrite allZero_true. by rewrite zlen_slice by lia. Qed.

(** ** Little-endian fields *)

Lemma getUint_putUint n z : is_uint (8 * Z.of_nat n) z -> getUint (putUint n z) = z.
Proof.
  intros Hz. unfold getUint, putUint. rewrite le_combine_split.
  apply Z.mod_small. by rewrite Z.mul_comm.
Qed.

Lemma putUint_getUint n bs : zlen bs = Z.of_nat n -> putUint n (getUint bs) = bs.
Proof. intros H. apply split_le_combine'. unfold zlen in H. lia. Qed.

Lemma getUint_range bs : 0 <= getUint bs < 2 ^ (8 * zlen bs).
Proof. apply le_combine_bound. Qed.

Lemma le_combine_cons b bs :
  le_combine (b :: bs) = Z.lor (byte.unsigned b) (Z.shiftl (le_combine bs) 8).
Proof. done. Qed.

Lemma getUint_zeros n : getUint (zeros n) = 0.
Proof.
  unfold getUint, zeros. generalize (Z.to_nat n). intros k.
  induction k as [|k IH]; [done|]. cbn [replicate]. by rewrite le_combine_cons, IH.
Qed.

Lemma byteAt_0 b bs : byteAt (b :: bs) 0 = byte.unsigned b.
Proof. done. Qed.

Lemma byteAt_S b bs i : 1 <= i -> byteAt (b :: bs) i = byteAt bs (i - 1).
Proof.
  intros. unfold byteAt. replace (Z.to_nat i) with (S (Z.to_nat (i - 1))) by lia. done.
Qed.

(** Bit [i] of a little-endian number is bit [i mod 8] of byte [i / 8]. *)
Lemma testbit_getUint bits i :
  0 <= i -> Z.testbit (getUint bits) i = Z.testbit (byteAt bits (i / 8)) (i mod 8).
Proof.
  intros Hi. revert i Hi. induction bits as [|b bits IH]; intros i Hi.
  - change (getUint []) with 0. change (byteAt [] (i / 8)) with 0. by rewrite !Z.bits_0.
  - unfold getUint in *. rewrite le_combine_cons, Z.lor_spec, Z.shiftl_spec by done.
    pose proof (byte.unsigned_range b) as Hb.
    destruct (decide (i < 8)).
    + rewrite Z.div_small, Z.mod_small, byteAt_0 by lia.
      by rewrite (Z.testbit_neg_r _ (i - 8)), orb_false_r by lia.
    + assert (1 <= i / 8) by (apply Z.div_le_lower_bound; lia).
      rewrite byteAt_S by done.
      replace (Z.testbit (byte.unsigned b) i) with false.
      2: { symmetry. apply (Z.bounded_iff_bits_nonneg 8 (byte.unsigned b)); lia. }
      rewrite orb_false_l, IH by lia.
      replace ((i - 8) / 8) with (i / 8 - 1) by div_lia.
      replace ((i - 8) mod 8) with (i mod 8) by div_lia. done.
Qed.

Lemma byteAt_range l i : 0 <= byteAt l i < 256.
Proof.
  unfold byteAt. destruct (l !! Z.to_nat i); [apply byte.unsigned_range | lia].
Qed.

Lemma slice_1 l i :
  0 <= i < zlen l -> slice l i (i + 1) = [byte.of_Z (byteAt l i)].
Proof.
  intros Hi. unfold slice, byteAt, zlen in *.
  replace (Z.to_nat (i + 1 - i)) with 1%nat by lia.
  destruct (lookup_lt_is_Some_2 l (Z.to_nat i)) as [b Hb]; [lia|].
  rewrite Hb, byte.of_Z_unsigned. rewrite (drop_S _ _ _ Hb). done.
Qed.

Lemma byteAt_slice l i : 0 <= i -> byteAt l i = getUint (slice l i (i + 1)).
Proof.
  intros Hi. unfold byteAt, slice, getUint.
  replace (Z.to_nat (i + 1 - i)) with 1%nat by lia.
  destruct (l !! Z.to_nat i) as [b|] eqn:Hb.
  - rewrite (drop_S _ _ _ Hb). cbn [firstn]. by rewrite le_combine_1.
  - rewrite drop_ge by (by apply lookup_ge_None). done.
Qed.

Lemma byteAt_lit l i j : 0 <= i -> j = i + 1 -> byteAt l i = getUint (slice l i j).
Proof. intros ? ->. by apply byteAt_slice. Qed.

Lemma byte_unsigned_of_Z z : is_u8 z -> byte.unsigned (byte.of_Z z) = z.
Proof. intros. rewrite byte.unsigned_of_Z. by apply Z.mod_small. Qed.

(** ** Automation

    [slices] evaluates slices of a chain of writes; every side condition is
    linear arithmetic on lengths, decided from [zlen] facts in the context. *)

Create HintDb zlen discriminated.
#[export] Hint Rewrite @zlen_app @zlen_cons @zlen_nil @zlen_putUint : zlen.

Ltac zlen_step :=
  first
  [ rewrite zlen_app | rewrite zlen_cons | rewrite zlen_nil | rewrite zlen_putUint
  | rewrite zlen_zeros by lia | rewrite zlen_put by zlen_solve
  | rewrite zlen_slice by zlen_solve ]
with zlen_solve := repeat zlen_step; simpl Z.of_nat; lia.

Ltac slice_step :=
  first
  [ rewrite slice_put_same by zlen_solve
  | rewrite slice_put_before by zlen_solve
  | rewrite slice_put_after by zlen_solve
  | rewrite slice_zeros by zlen_solve ].

Ltac slices := repeat slice_step.

(** ** Fixed layouts

    An encoder clears its destination and copies fields into it at fixed
    offsets.  [write_fields] is that sequence of copies; when the fields are in
    bounds and pairwise disjoint, which [layout_ok] decides from offsets and
    sizes alone, each field reads back and every gap reads as zeros. *)

Definition write_fields (d : list byte) (fields : list (Z * list byte)) : list byte :=
  fold_left (fun d '(o, bs) => put d o bs) fields d.

Definition field_sizes (fields : list (Z * list byte)) : list (Z * Z) :=
  (fun '(o, bs) => (o, zlen bs)) <$> fields.

Definition apart (a b : Z * Z) : bool :=
  (a.1 + a.2 <=? b.1) || (b.1 + b.2 <=? a.1).

Fixpoint layout_ok (n : Z) (layout : list (Z * Z)) : bool :=
  match layout with
  | [] => true
  | f :: rest =>
      (0 <=? f.1) && (0 <=? f.2) && (f.1 + f.2 <=? n) && forallb (apart f) rest
      && layout_ok n rest
  end.

(** [gap_ok]: the region starts and ends in bounds and meets no field. *)
Definition gap_ok (n : Z) (layout : list (Z * Z)) (gap : Z * Z) : bool :=
  (0 <=? gap.1) && (0 <=? gap.2) && (gap.1 + gap.2 <=? n)
  && forallb (apart gap) layout.

Lemma gap_ok_cons n f layout gap :
  gap_ok n (f :: layout) gap = true <-> apart gap f = true /\ gap_ok n layout gap = true.
Proof. unfold gap_ok. simpl. rewrite !andb_true_iff. tauto. Qed.

Lemma gap_ok_bounds n layout a s :
  gap_ok n layout (a, s) = true -> 0 <= a /\ 0 <= s /\ a + s <= n.
Proof. unfold gap_ok. simpl. intros. split_bool. lia. Qed.

Lemma zlen_write_fields n d fields :
  zlen d = n -> layout_ok n (field_sizes fields) = true -> zlen (write_fields d fields) = n.
Proof.
  revert d. induction fields as [|[o bs] fs IH]; intros d Hd Hok; [done|].
  simpl in Hok. split_bool. simpl. apply IH; [|done]. rewrite zlen_put; lia.
Qed.

Lemma write_fields_apart n d fields a s :
  zlen d = n -> layout_ok n (field_sizes fields) = true ->
  gap_ok n (field_sizes fields) (a, s) = true ->
  slice (write_fields d fields) a (a + s) = slice d a (a + s).
Proof.
  revert d. induction fields as [|[o bs] fs IH]; intros d Hd Hok Hgap; [done|].
  apply gap_ok_cons in Hgap as [Hapart Hgap].
  pose proof (gap_ok_bounds _ _ _ _ Hgap).
  simpl in Hok. split_bool. simpl. rewrite IH; [|rewrite zlen_put; lia|done..].
  unfold apart in Hapart. simpl in *. destruct (Z.leb_spec (a + s) o).
  - apply slice_put_before; lia.
  - apply slice_put_after; lia.
Qed.

Lemma write_fields_read n d fields :
  zlen d = n -> layout_ok n (field_sizes fields) = true ->
  Forall (fun '(o, bs) => slice (write_fields d fields) o (o + zlen bs) = bs) fields.
Proof.
  revert d. induction fields as [|[o bs] fs IH]; intros d Hd Hok; [constructor|].
  simpl in Hok. split_bool. constructor.
  - simpl. rewrite (write_fields_apart n); [apply slice_put_same; lia|rewrite zlen_put; lia|done|].
    unfold gap_ok. simpl. rewrite !andb_true_iff. repeat split; (done || apply Z.leb_le; lia).
  - simpl. apply IH; [|done]. rewrite zlen_put; lia.
Qed.

Lemma write_fields_gaps n fields gaps :
  layout_ok n (field_sizes fields) = true -> 0 <= n ->
  forallb (gap_ok n (field_sizes fields)) gaps = true ->
  Forall (fun '(a, s) => slice (write_fields (zeros n) fields) a (a + s) = zeros s) gaps.
Proof.
  intros Hok Hn Hg. apply Forall_forall. intros [a s] Hin.
  rewrite forallb_forall in Hg. specialize (Hg (a, s) ltac:(by apply list_elem_of_In)).
  rewrite (write_fields_apart n) by (done || by apply zlen_zeros).
  apply gap_ok_bounds in Hg. rewrite slice_zeros by lia. f_equal. lia.
Qed.

(** Two strings that agree on consecutive segments agree. *)
Fixpoint same_segments (l k : list byte) (from : Z) (cuts : list Z) : Prop :=
  match cuts with
  | [] => True
  | cut :: rest => slice l from cut = slice k from cut /\ same_segments l k cut rest
  end.

Fixpoint increasing (from : Z) (cuts : list Z) : bool :=
  match cuts with
  | [] => true
  | cut :: rest => (from <=? cut) && increasing cut rest
  end.

Fixpoint last_cut (from : Z) (cuts : list Z) : Z :=
  match cuts with [] => from | cut :: rest => last_cut cut rest end.

Lemma increasing_last from cuts : increasing from cuts = true -> from <= last_cut from cuts.
Proof.
  revert from. induction cuts as [|c cs IH]; intros from H; simpl in *; [lia|].
  split_bool. specialize (IH c ltac:(done)). lia.
Qed.

Lemma same_segments_slice l k from cuts :
  0 <= from -> increasing from cuts = true -> same_segments l k from cuts ->
  slice l from (last_cut from cuts) = slice k from (last_cut from cuts).
Proof.
  revert from. induction cuts as [|c cs IH]; intros from Hf Hi Hs; simpl.
  { unfold slice. by rewrite Z.sub_diag. }
  simpl in Hi. apply andb_prop in Hi as [Hc Hi]. split_bool. destruct Hs as [E Hs].
  pose proof (increasing_last _ _ Hi).
  rewrite (slice_split l from c), (slice_split k from c) by lia. rewrite E. f_equal. apply IH; auto; lia.
Qed.

Lemma segments_ext n l k cuts :
  zlen l = n -> zlen k = n -> increasing 0 cuts = true -> last_cut 0 cuts = n ->
  same_segments l k 0 cuts -> l = k.
Proof.
  intros Hl Hk Hi Hlast Hs. apply (slice_ext _ _ n); [done..|].
  rewrite <- Hlast. by apply same_segments_slice.
Qed.

(** ** Fixed layouts *)

(** The bytes of a source at each entry of a layout. *)
Definition read_fields (source : list byte) (layout : list (Z * Z)) : list (list byte) :=
  (fun '(o, s) => slice source o (o + s)) <$> layout.

(** Every field of an encoding reads back. *)
Lemma read_write_fields n d fields layout :
  zlen d = n -> field_sizes fields = layout -> layout_ok n layout = true ->
  read_fields (write_fields d fields) layout = snd <$> fields.
Proof.
  intros Hd <- Hok. pose proof (write_fields_read n d fields Hd Hok) as HF.
  unfold read_fields, field_sizes. rewrite <- list_fmap_compose.
  apply list_fmap_ext. intros i [o bs] Hi. by apply (Forall_lookup_1 _ _ _ _ HF Hi).
Qed.

(** [tiles]: each segment between consecutive cuts is one of the pieces. *)
Fixpoint tiles (from : Z) (cuts : list Z) (pieces : list (Z * Z)) : bool :=
  match cuts with
  | [] => true
  | cut :: rest =>
      existsb (fun p => (p.1 =? from) && (p.2 =? cut - from)) pieces && tiles cut rest pieces
  end.

Lemma tiles_same_segments l k from cuts pieces :
  tiles from cuts pieces = true ->
  Forall (fun '(o, s) => slice l o (o + s) = slice k o (o + s)) pieces ->
  same_segments l k from cuts.
Proof.
  intros Ht HF. revert from Ht. induction cuts as [|c cs IH]; intros from Ht; simpl in *; [done|].
  apply andb_prop in Ht as [([o s] & Hin & Hp)%existsb_exists Ht]. simpl in Hp. split_bool. subst.
  split; [|by apply IH]. rewrite Forall_forall in HF.
  specialize (HF (from, c - from) ltac:(by apply list_elem_of_In)). cbn in HF.
  by replace (from + (c - from)) with c in HF by lia.
Qed.

(** A source whose gaps are zero is the encoding of the fields it holds. *)
Lemma write_read_fields n source layout gaps cuts :
  zlen source = n -> 0 <= n -> layout_ok n layout = true ->
  forallb (gap_ok n layout) gaps = true ->
  Forall (fun '(a, s) => slice source a (a + s) = zeros s) gaps ->
  increasing 0 cuts = true -> last_cut 0 cuts = n -> tiles 0 cuts (layout ++ gaps) = true ->
  write_fields (zeros n) (zip layout.*1 (read_fields source layout)) = source.
Proof.
  intros Hl Hn Hok Hg HG Hi Hlast Ht. set (fields := zip _ _).
  assert (field_sizes fields = layout) as Es.
  { unfold field_sizes, fields, read_fields. clear Hg Ht HG.
    induction layout as [|[o s] rest IH]; [done|]. cbn [fmap list_fmap zip_with fst].
    simpl in Hok. split_bool. simpl. rewrite zlen_slice by lia. f_equal; [f_equal; lia|by apply IH]. }
  assert (zlen (zeros n) = n) as Hz by by apply zlen_zeros.
  apply (segments_ext n _ _ cuts); [|done..|].
  { apply zlen_write_fields; [done|]. by rewrite Es. }
  apply (tiles_same_segments _ _ _ _ _ Ht), Forall_app. split.
  - pose proof (read_write_fields n (zeros n) fields layout Hz Es Hok) as Hr.
    apply Forall_forall. intros [o s] Hin. apply list_elem_of_lookup in Hin as [i Hin].
    apply (f_equal (lookup i)) in Hr. unfold read_fields at 1 in Hr.
    rewrite !list_lookup_fmap, Hin in Hr. unfold fields at 2 in Hr. unfold read_fields in Hr.
    rewrite lookup_zip_with, !list_lookup_fmap, Hin in Hr. cbn in Hr. by injection Hr.
  - rewrite <- Es in Hg, Hok. pose proof (write_fields_gaps n fields gaps Hok Hn Hg) as Hz'.
    rewrite Forall_forall in HG, Hz'. apply Forall_forall. intros [a s] Hin.
    by rewrite (HG _ Hin), (Hz' _ Hin).
Qed.

(** Consecutive fields of one size, from an offset on. *)
Definition array_fields (o size : Z) (elements : list (list byte)) : list (Z * list byte) :=
  imap (fun i element => (o + Z.of_nat i * size, element)) elements.

Definition array_layout (o size : Z) (count : nat) : list (Z * Z) :=
  (fun i => (o + Z.of_nat i * size, size)) <$> seq 0 count.

Definition read_array (source : list byte) (o size : Z) (count : nat) : list (list byte) :=
  read_fields source (array_layout o size count).

Lemma array_fields_sizes o size elements :
  Forall (fun e => zlen e = size) elements ->
  field_sizes (array_fields o size elements) = array_layout o size (length elements).
Proof.
  intros HF. apply list_eq. intros i. unfold field_sizes, array_fields, array_layout.
  rewrite !list_lookup_fmap, list_lookup_imap.
  destruct (elements !! i) as [e|] eqn:E.
  - pose proof (lookup_lt_Some _ _ _ E). rewrite lookup_seq_lt by done.
    cbn. by rewrite (Forall_lookup_1 _ _ _ _ HF E).
  - apply lookup_ge_None in E. by rewrite lookup_seq_ge.
Qed.

Lemma array_fields_snd o size elements : (array_fields o size elements).*2 = elements.
Proof.
  apply list_eq. intros i. unfold array_fields. rewrite list_lookup_fmap, list_lookup_imap.
  by destruct (elements !! i).
Qed.

Lemma zip_array_layout o size (elements : list (list byte)) :
  zip (array_layout o size (length elements)).*1 elements = array_fields o size elements.
Proof.
  apply list_eq. intros i. unfold array_fields, array_layout.
  rewrite lookup_zip_with, !list_lookup_fmap, list_lookup_imap.
  destruct (elements !! i) as [e|] eqn:E.
  - pose proof (lookup_lt_Some _ _ _ E). by rewrite lookup_seq_lt.
  - apply lookup_ge_None in E. by rewrite lookup_seq_ge.
Qed.

Lemma length_read_array source o size count : length (read_array source o size count) = count.
Proof. unfold read_array, read_fields, array_layout. by rewrite !length_fmap, length_seq. Qed.

Lemma read_array_sizes source o size count :
  0 <= o -> 0 <= size -> o + Z.of_nat count * size <= zlen source ->
  Forall (fun e => zlen e = size) (read_array source o size count).
Proof.
  intros Ho Hs Hl. apply Forall_forall. intros e He. unfold read_array, read_fields, array_layout in He.
  rewrite <- list_fmap_compose in He. apply list_elem_of_fmap in He as (i & -> & Hi).
  apply elem_of_seq in Hi. cbn. rewrite zlen_slice; nia.
Qed.

(** One field of an encoding, and a run of fields of it, read back. *)
Lemma field_read n d fields o bs b :
  zlen d = n -> layout_ok n (field_sizes fields) = true -> (o, bs) ∈ fields ->
  b = o + zlen bs -> slice (write_fields d fields) o b = bs.
Proof.
  intros Hd Hok Hin ->. pose proof (write_fields_read n d fields Hd Hok) as HF.
  rewrite Forall_forall in HF. by apply (HF _ Hin).
Qed.

Lemma field_index n d fields k o bs b :
  zlen d = n -> layout_ok n (field_sizes fields) = true -> fields !! k = Some (o, bs) ->
  b = o + zlen bs -> slice (write_fields d fields) o b = bs.
Proof. intros Hd Hok Hk. eapply field_read; [done|done|]. by eapply list_elem_of_lookup_2. Qed.

Lemma array_read n d before elements after o size :
  let fields := before ++ array_fields o size elements ++ after in
  zlen d = n -> layout_ok n (field_sizes fields) = true ->
  Forall (fun e => zlen e = size) elements ->
  read_array (write_fields d fields) o size (length elements) = elements.
Proof.
  intros fields Hd Hok HF. unfold read_array. rewrite <- array_fields_sizes by done.
  rewrite <- (array_fields_snd o size elements) at 2. unfold read_fields, field_sizes.
  rewrite <- list_fmap_compose. apply list_fmap_ext. intros i [p bs] Hi. cbn.
  eapply field_read; [done..| |done]. apply list_elem_of_lookup_2 in Hi.
  unfold fields. set_solver.
Qed.

(** The tail of an encoding depends only on the tail of what it overwrites. *)
Lemma drop_put (l : list byte) o bs a :
  0 <= a <= o -> o + zlen bs <= zlen l ->
  drop (Z.to_nat a) (put l o bs) = put (drop (Z.to_nat a) l) (o - a) bs.
Proof.
  intros Ha Hl. unfold put. pose proof (zlen_nonneg bs).
  assert (length (take (Z.to_nat o) l) = Z.to_nat o) as Ht
    by (unfold zlen in *; rewrite length_take; lia).
  rewrite drop_app_le by lia. rewrite skipn_firstn_comm. f_equal; [f_equal; lia|].
  f_equal. rewrite drop_drop. f_equal. lia.
Qed.

Lemma write_fields_drop d d' fields a n :
  0 <= a -> zlen d = n -> zlen d' = n -> layout_ok n (field_sizes fields) = true ->
  forallb (fun f => a <=? f.1) fields = true ->
  drop (Z.to_nat a) d = drop (Z.to_nat a) d' ->
  drop (Z.to_nat a) (write_fields d fields) = drop (Z.to_nat a) (write_fields d' fields).
Proof.
  intros Ha. revert d d'. induction fields as [|[o bs] fs IH]; intros d d' Hd Hd' Hok Hf E; [done|].
  simpl in Hok, Hf. split_bool. cbn [write_fields fold_left].
  apply IH; try done; try (rewrite zlen_put; lia).
  rewrite !drop_put by lia. by rewrite E.
Qed.

Lemma slice_to_end {A} (l : list A) a : 0 <= a -> slice l a (zlen l) = drop (Z.to_nat a) l.
Proof. intros. unfold slice. apply take_ge. rewrite length_drop. unfold zlen. lia. Qed.

Lemma layout_ok_app_l n a b : layout_ok n (a ++ b) = true -> layout_ok n a = true.
Proof.
  induction a as [|f a IH]; [done|]. simpl. rewrite forallb_app. intros. split_bool.
  rewrite IH by done. rewrite !andb_true_iff. repeat split; try done; by apply Z.leb_le.
Qed.

Lemma write_fields_cons d o bs fields :
  write_fields d ((o, bs) :: fields) = write_fields (put d o bs) fields.
Proof. done. Qed.
