(* ===== verification/Arith.v ===== *)
(** * Checked and saturating arithmetic

    [src/replication/checked.go] and the saturating helpers of
    [src/replication/clock.go] and [src/replication/timeout.go], with their
    exact specifications over the unbounded integers. *)

From S2P Require Import Prelude.

(** ** checked.go *)

Definition checkedAdd (left right : Z) : option Z :=
  if MaxUint64 - left <? right then None else Some (u64 (left + right)).

Definition checkedMul (left right : Z) : option Z :=
  if negb (left =? 0) && (MaxUint64 / left <? right) then None
  else Some (u64 (left * right)).

Definition checkedAlignUp (value alignment : Z) : option Z :=
  if (alignment =? 0) || negb (Z.land alignment (u64 (alignment - 1)) =? 0) then None
  else
    added ← checkedAdd value (u64 (alignment - 1));
    Some (Z.ldiff added (u64 (alignment - 1))).

Definition checkedRoundUp (value multiple : Z) : option Z :=
  if multiple =? 0 then None
  else
    let remainder := value mod multiple in
    if remainder =? 0 then Some value
    else checkedAdd value (u64 (multiple - remainder)).

(** ** Saturating helpers *)

Definition saturatingAdd (left right : Z) : Z :=
  if MaxUint64 - left <? right then MaxUint64 else u64 (left + right).

Definition saturatingMultiply (left right : Z) : Z :=
  if negb (left =? 0) && (MaxUint64 / left <? right) then MaxUint64
  else u64 (left * right).

Definition saturatingShift (value exponent : Z) : Z :=
  if (64 <=? exponent) || (Z.shiftr MaxUint64 exponent <? value) then MaxUint64
  else u64 (Z.shiftl value exponent).

Definition saturatingAddInt64 (left right : Z) : Z :=
  if (0 <? right) && (i64 (MaxInt64 - right) <? left) then MaxInt64
  else if (right <? 0) && (left <? i64 (MinInt64 - right)) then MinInt64
  else i64 (left + right).

Definition saturatingSubtractInt64 (left right : Z) : Z :=
  if right =? MinInt64 then MaxInt64 else saturatingAddInt64 left (i64 (- right)).

(** The variadic loop: the running total is checked before every addition. *)
Fixpoint saturatingSigned_loop (total : Z) (values : list Z) : Z :=
  match values with
  | [] => if MaxInt64 <? total then MaxInt64 else i64 total
  | value :: rest =>
      if MaxUint64 - total <? value then MaxInt64
      else saturatingSigned_loop (u64 (total + value)) rest
  end.

Definition saturatingSigned (values : list Z) : Z := saturatingSigned_loop 0 values.

Definition signedDifference (left right : Z) : Z :=
  if right <=? left then
    let difference := u64 (left - right) in
    if MaxInt64 <? difference then MaxInt64 else i64 difference
  else
    let difference := u64 (right - left) in
    if MaxInt64 <? difference then MinInt64 else i64 (- i64 difference).

Definition signedWidth (lower upper : Z) : Z :=
  if upper <? lower then MaxUint64 else u64 (u64 upper - u64 lower).

Definition addSigned (value offset : Z) : Z :=
  if 0 <=? offset then saturatingAdd value (u64 offset)
  else
    let magnitude := u64 (u64 (i64 (- i64 (offset + 1))) + 1) in
    if value <? magnitude then 0 else u64 (value - magnitude).

(** ** Specifications *)

Definition clamp (lo hi z : Z) : Z := Z.max lo (Z.min hi z).

Ltac arith_widths :=
  repeat first
  [ rewrite uwrap_small by (unfold clamp in *; width_lia)
  | rewrite swrap_small by (unfold clamp in *; width_lia) ].

Lemma checkedAdd_spec left right :
  is_u64 left -> is_u64 right ->
  checkedAdd left right = if left + right <? 2 ^ 64 then Some (left + right) else None.
Proof.
  intros Hl Hr. unfold checkedAdd.
  destruct (Z.ltb_spec (MaxUint64 - left) right), (Z.ltb_spec (left + right) (2 ^ 64));
    try width_lia; [done|]. by arith_widths.
Qed.

Lemma checkedAdd_Some left right v :
  is_u64 left -> is_u64 right ->
  checkedAdd left right = Some v <-> v = left + right /\ left + right < 2 ^ 64.
Proof.
  intros Hl Hr. rewrite checkedAdd_spec by done.
  destruct (Z.ltb_spec (left + right) (2 ^ 64)); naive_solver lia.
Qed.

Lemma div_lt_mul left right :
  0 < left -> MaxUint64 / left < right <-> 2 ^ 64 <= left * right.
Proof.
  intros Hl. split; intros H.
  - pose proof (Z.mul_succ_div_gt MaxUint64 left Hl). unfold MaxUint64 in *. nia.
  - apply Z.div_lt_upper_bound; unfold MaxUint64; lia.
Qed.

Lemma checkedMul_spec left right :
  is_u64 left -> is_u64 right ->
  checkedMul left right = if left * right <? 2 ^ 64 then Some (left * right) else None.
Proof.
  intros Hl Hr. unfold checkedMul.
  destruct (Z.eqb_spec left 0) as [->|Hz]; [done|]. simpl.
  pose proof (div_lt_mul left right ltac:(width_lia)) as D.
  destruct (Z.ltb_spec (MaxUint64 / left) right), (Z.ltb_spec (left * right) (2 ^ 64));
    try lia; [done|].
  rewrite uwrap_small; [done|]. unfold is_uint in *. nia.
Qed.

Lemma checkedMul_Some left right v :
  is_u64 left -> is_u64 right ->
  checkedMul left right = Some v <-> v = left * right /\ left * right < 2 ^ 64.
Proof.
  intros Hl Hr. rewrite checkedMul_spec by done.
  destruct (Z.ltb_spec (left * right) (2 ^ 64)); naive_solver lia.
Qed.

(** The test [a & (a-1) == 0] recognises exactly the powers of two. *)
Lemma land_pred_power a :
  0 < a -> Z.land a (a - 1) = 0 <-> exists k, 0 <= k /\ a = 2 ^ k.
Proof.
  intros Ha. split.
  - intros H. exists (Z.log2 a). pose proof (Z.log2_nonneg a).
    pose proof (Z.log2_spec a Ha) as [Hlo Hhi]. split; [done|].
    destruct (decide (a = 2 ^ Z.log2 a)) as [|Hne]; [done|]. exfalso.
    assert (Z.testbit (Z.land a (a - 1)) (Z.log2 a) = true) as E.
    { rewrite Z.land_spec, Z.bit_log2 by lia. simpl.
      replace (Z.log2 a) with (Z.log2 (a - 1)) at 1; [apply Z.bit_log2; lia|].
      apply Z.log2_unique; lia. }
    rewrite H, Z.testbit_0_l in E. done.
  - intros (k & Hk & ->). apply Z.bits_inj'. intros i Hi.
    rewrite Z.land_spec, Z.pow2_bits_eqb, Z.testbit_0_l by done.
    destruct (Z.eqb_spec k i) as [->|]; [|done]. simpl.
    replace (2 ^ i - 1) with (Z.ones i) by (rewrite Z.ones_equiv; lia).
    apply Z.ones_spec_high. lia.
Qed.

Lemma ldiff_align v k :
  0 <= k -> Z.ldiff v (2 ^ k - 1) = v / 2 ^ k * 2 ^ k.
Proof.
  intros Hk. replace (2 ^ k - 1) with (Z.ones k) by (rewrite Z.ones_equiv; lia).
  rewrite Z.ldiff_ones_r, Z.shiftl_mul_pow2, Z.shiftr_div_pow2 by done. done.
Qed.

(** [round_up value a] is the least multiple of [a] that is at least [value]. *)
Definition round_up (value a : Z) : Z := (value + a - 1) / a * a.

Lemma round_up_spec value a :
  0 < a ->
  (a | round_up value a) /\ value <= round_up value a < value + a.
Proof.
  intros Ha. unfold round_up. split; [apply Z.divide_factor_r|].
  pose proof (Z.div_mod (value + a - 1) a ltac:(lia)) as E.
  pose proof (Z.mod_pos_bound (value + a - 1) a Ha). lia.
Qed.

Lemma round_up_least value a m :
  0 < a -> (a | m) -> value <= m -> round_up value a <= m.
Proof.
  intros Ha [c ->] Hm. destruct (round_up_spec value a Ha) as [[d E] [_ Hlt]].
  rewrite E in Hlt |- *. apply Z.mul_le_mono_nonneg_r; [lia|].
  assert (d < c + 1); [|lia]. apply (Z.mul_lt_mono_pos_r a); lia.
Qed.

Lemma round_up_unique value a m :
  0 < a -> (a | m) -> value <= m < value + a -> round_up value a = m.
Proof.
  intros Ha Hd Hm. apply Z.le_antisymm; [by apply round_up_least; try lia|].
  destruct Hd as [c ->], (round_up_spec value a Ha) as [[d E] [Hle _]].
  rewrite E in Hle |- *. apply Z.mul_le_mono_nonneg_r; [lia|].
  assert (c < d + 1); [|lia]. apply (Z.mul_lt_mono_pos_r a); lia.
Qed.

Lemma round_up_fits value k :
  0 <= k < 64 -> is_u64 value ->
  round_up value (2 ^ k) < 2 ^ 64 <-> value + (2 ^ k - 1) < 2 ^ 64.
Proof.
  intros Hk Hv. assert (0 < 2 ^ k) by lia.
  destruct (round_up_spec value (2 ^ k) ltac:(done)) as [[c E] [Hle Hlt]].
  assert (2 ^ 64 = 2 ^ (64 - k) * 2 ^ k) as E64.
  { rewrite <- Z.pow_add_r by lia. f_equal. lia. }
  split; intros H'; [|lia].
  rewrite E, E64 in H'. assert (c + 1 <= 2 ^ (64 - k)) by nia.
  assert ((c + 1) * 2 ^ k <= 2 ^ (64 - k) * 2 ^ k) by nia. lia.
Qed.

Lemma checkedAlignUp_power value k :
  0 <= k < 64 -> is_u64 value ->
  checkedAlignUp value (2 ^ k) =
    if round_up value (2 ^ k) <? 2 ^ 64 then Some (round_up value (2 ^ k)) else None.
Proof.
  intros Hk Hv. assert (0 < 2 ^ k) by lia.
  assert (2 ^ k < 2 ^ 64) by (apply Z.pow_lt_mono_r; lia).
  unfold checkedAlignUp. rewrite (uwrap_small 64 (2 ^ k - 1)) by (unfold is_uint; lia).
  destruct (Z.eqb_spec (2 ^ k) 0); [lia|].
  rewrite (proj2 (land_pred_power (2 ^ k) ltac:(lia))) by (exists k; lia). simpl.
  rewrite checkedAdd_spec by (try done; unfold is_uint; lia).
  pose proof (round_up_fits value k Hk Hv).
  destruct (Z.ltb_spec (value + (2 ^ k - 1)) (2 ^ 64)),
    (Z.ltb_spec (round_up value (2 ^ k)) (2 ^ 64)); try lia; [|done].
  simpl. rewrite ldiff_align by lia. unfold round_up. do 3 f_equal. lia.
Qed.

(** Aligning succeeds exactly for a power-of-two alignment whose least
    covering multiple fits in 64 bits, and returns that multiple. *)
Lemma checkedAlignUp_spec value alignment result :
  is_u64 value -> is_u64 alignment ->
  checkedAlignUp value alignment = Some result <->
  (exists k, 0 <= k /\ alignment = 2 ^ k) /\
  result = round_up value alignment /\ result < 2 ^ 64.
Proof.
  intros Hv Ha. split.
  - intros H. assert (exists k, 0 <= k /\ alignment = 2 ^ k) as (k & Hk & ->).
    { unfold checkedAlignUp in H. step_guards H. split_bool.
      assert (0 < alignment) as Hpos by (unfold is_uint in *; lia).
      apply (land_pred_power alignment Hpos).
      by rewrite (uwrap_small 64 (alignment - 1)) in * by (unfold is_uint in *; lia). }
    assert (k < 64) by (apply (Z.pow_lt_mono_r_iff 2); unfold is_uint in *; lia).
    split; [by exists k|]. rewrite checkedAlignUp_power in H by (try done; lia).
    destruct (Z.ltb_spec (round_up value (2 ^ k)) (2 ^ 64)); naive_solver.
  - intros ((k & Hk & ->) & -> & Hlt).
    assert (k < 64) by (apply (Z.pow_lt_mono_r_iff 2); unfold is_uint in *; lia).
    rewrite checkedAlignUp_power by (try done; lia).
    by destruct (Z.ltb_spec (round_up value (2 ^ k)) (2 ^ 64)); [|lia].
Qed.

Lemma checkedRoundUp_spec value multiple :
  is_u64 value -> is_u64 multiple -> 0 < multiple ->
  checkedRoundUp value multiple =
    if round_up value multiple <? 2 ^ 64 then Some (round_up value multiple) else None.
Proof.
  intros Hv Hm Hpos. unfold checkedRoundUp.
  destruct (Z.eqb_spec multiple 0); [lia|].
  pose proof (Z.mod_pos_bound value multiple Hpos) as Hr.
  pose proof (Z.div_mod value multiple ltac:(lia)) as E.
  destruct (Z.eqb_spec (value mod multiple) 0) as [Hz|Hz].
  - assert (round_up value multiple = value) as ->.
    { apply round_up_unique; [done| |lia]. by apply Z.mod_divide; [lia|]. }
    destruct (Z.ltb_spec value (2 ^ 64)); [done|]. unfold is_uint in *. lia.
  - assert (round_up value multiple = value + (multiple - value mod multiple)) as ->.
    { apply round_up_unique; [done| |lia]. exists (value / multiple + 1). lia. }
    rewrite uwrap_small by (unfold is_uint in *; lia).
    rewrite checkedAdd_spec by (unfold is_uint in *; lia). done.
Qed.

Lemma checkedRoundUp_Some value multiple r :
  is_u64 value -> is_u64 multiple ->
  checkedRoundUp value multiple = Some r <->
  0 < multiple /\ r = round_up value multiple /\ r < 2 ^ 64.
Proof.
  intros Hv Hm. destruct (decide (0 < multiple)) as [Hpos|Hpos].
  - rewrite checkedRoundUp_spec by done.
    destruct (Z.ltb_spec (round_up value multiple) (2 ^ 64)); naive_solver lia.
  - unfold checkedRoundUp. destruct (Z.eqb_spec multiple 0); [naive_solver|].
    unfold is_uint in Hm. lia.
Qed.

Lemma saturatingAdd_spec left right :
  is_u64 left -> is_u64 right -> saturatingAdd left right = Z.min MaxUint64 (left + right).
Proof.
  intros. unfold saturatingAdd. destruct (Z.ltb_spec (MaxUint64 - left) right);
    [|arith_widths]; width_lia.
Qed.

Lemma saturatingMultiply_spec left right :
  is_u64 left -> is_u64 right ->
  saturatingMultiply left right = Z.min MaxUint64 (left * right).
Proof.
  intros Hl Hr. unfold saturatingMultiply.
  destruct (Z.eqb_spec left 0) as [->|Hz]; [done|]. simpl.
  pose proof (div_lt_mul left right ltac:(width_lia)) as D.
  destruct (Z.ltb_spec (MaxUint64 / left) right) as [H|H].
  - apply D in H. unfold MaxUint64. lia.
  - assert (0 <= left * right < 2 ^ 64) by (unfold is_uint in *; nia).
    rewrite uwrap_small by done. unfold MaxUint64. lia.
Qed.

Lemma saturatingAddInt64_spec left right :
  is_i64 left -> is_i64 right ->
  saturatingAddInt64 left right = clamp MinInt64 MaxInt64 (left + right).
Proof.
  intros. unfold saturatingAddInt64, clamp.
  destruct (Z.ltb_spec 0 right); simpl.
  { rewrite (swrap_small 64 (MaxInt64 - right)) by width_lia.
    destruct (Z.ltb_spec (MaxInt64 - right) left); [width_lia|].
    destruct (Z.ltb_spec right 0); [lia|]. simpl. arith_widths. width_lia. }
  destruct (Z.ltb_spec right 0); simpl; [|arith_widths; width_lia].
  rewrite (swrap_small 64 (MinInt64 - right)) by width_lia.
  destruct (Z.ltb_spec left (MinInt64 - right)); [width_lia|]. arith_widths. width_lia.
Qed.

Lemma saturatingSubtractInt64_spec left right :
  is_i64 left -> is_i64 right -> right <> MinInt64 ->
  saturatingSubtractInt64 left right = clamp MinInt64 MaxInt64 (left - right).
Proof.
  intros. unfold saturatingSubtractInt64. destruct (Z.eqb_spec right MinInt64); [done|].
  rewrite (swrap_small 64 (- right)) by width_lia.
  by rewrite saturatingAddInt64_spec by width_lia.
Qed.

Lemma saturatingSigned_loop_spec total values :
  is_u64 total -> Forall is_u64 values ->
  saturatingSigned_loop total values = Z.min MaxInt64 (total + foldr Z.add 0 values).
Proof.
  intros Ht Hv. revert total Ht. induction Hv as [|v vs Hv Hvs IH]; intros total Ht; simpl.
  { destruct (Z.ltb_spec MaxInt64 total); [|arith_widths]; width_lia. }
  assert (0 <= foldr Z.add 0 vs) as Hpos.
  { clear IH. induction Hvs; simpl; [lia|]. unfold is_uint in *. lia. }
  destruct (Z.ltb_spec (MaxUint64 - total) v); [width_lia|].
  rewrite (uwrap_small 64 (total + v)) by width_lia. rewrite IH by width_lia. lia.
Qed.

Lemma saturatingSigned_spec values :
  Forall is_u64 values ->
  saturatingSigned values = Z.min MaxInt64 (foldr Z.add 0 values).
Proof. intros. unfold saturatingSigned. by rewrite saturatingSigned_loop_spec by (done || width_lia). Qed.

Lemma signedDifference_spec left right :
  is_u64 left -> is_u64 right ->
  signedDifference left right = clamp MinInt64 MaxInt64 (left - right).
Proof.
  intros. unfold signedDifference, clamp.
  destruct (Z.leb_spec right left).
  - rewrite (uwrap_small 64 (left - right)) by width_lia.
    destruct (Z.ltb_spec MaxInt64 (left - right)); [|arith_widths]; width_lia.
  - rewrite (uwrap_small 64 (right - left)) by width_lia.
    destruct (Z.ltb_spec MaxInt64 (right - left)); [width_lia|].
    rewrite (swrap_small 64 (right - left)) by width_lia. arith_widths. width_lia.
Qed.

Lemma signedWidth_spec lower upper :
  is_i64 lower -> is_i64 upper -> lower <= upper -> signedWidth lower upper = upper - lower.
Proof.
  intros. unfold signedWidth. destruct (Z.ltb_spec upper lower); [lia|].
  unfold uwrap. rewrite <- Zminus_mod. apply Z.mod_small. width_lia.
Qed.

Lemma addSigned_spec value offset :
  is_u64 value -> is_i64 offset ->
  addSigned value offset = clamp 0 MaxUint64 (value + offset).
Proof.
  intros. unfold addSigned, clamp. destruct (Z.leb_spec 0 offset).
  - rewrite (uwrap_small 64 offset), saturatingAdd_spec by width_lia. width_lia.
  - rewrite (swrap_small 64 (offset + 1)), (swrap_small 64 (- (offset + 1))) by width_lia.
    rewrite (uwrap_small 64 (- (offset + 1))), (uwrap_small 64 (- (offset + 1) + 1)) by width_lia.
    destruct (Z.ltb_spec value (- (offset + 1) + 1)); [|arith_widths]; width_lia.
Qed.

(** ** Chains of checked operations

    Each step of a chain yields its value together with the fact that it is a
    64-bit number, which is what the next step needs. *)

Lemma checkedAdd_step left right v :
  is_u64 left -> is_u64 right -> checkedAdd left right = Some v ->
  v = left + right /\ is_u64 v.
Proof.
  intros Hl Hr [-> H]%checkedAdd_Some; [|done..]. split; [done|]. unfold is_uint in *. lia.
Qed.

Lemma checkedMul_step left right v :
  is_u64 left -> is_u64 right -> checkedMul left right = Some v ->
  v = left * right /\ is_u64 v.
Proof.
  intros Hl Hr [-> H]%checkedMul_Some; [|done..]. split; [done|]. unfold is_uint in *. nia.
Qed.

Lemma checkedAlignUp_step value alignment v :
  is_u64 value -> is_u64 alignment -> checkedAlignUp value alignment = Some v ->
  v = round_up value alignment /\ is_u64 v /\ 0 < alignment.
Proof.
  intros Hv Ha ((k & Hk & ->) & -> & H)%checkedAlignUp_spec; [|done..].
  assert (0 < 2 ^ k) by lia. pose proof (round_up_spec value (2 ^ k) ltac:(done)) as [_ Hle].
  split; [done|]. split; [|done]. unfold is_uint in *. lia.
Qed.

(** Runs a chain of comma-ok bindings in [H : chain = Some _]. *)
Ltac checked_step H :=
  let v := fresh "v" in let E := fresh "E" in let T := fresh "T" in
  lazymatch type of H with
  | checkedAdd _ _ ≫= _ = Some _ =>
      apply bind_Some in H as (v & E & H); apply checkedAdd_step in E as [-> T]; [|done..]
  | checkedMul _ _ ≫= _ = Some _ =>
      apply bind_Some in H as (v & E & H); apply checkedMul_step in E as [-> T]; [|done..]
  | checkedAlignUp _ _ ≫= _ = Some _ =>
      apply bind_Some in H as (v & E & H);
      apply checkedAlignUp_step in E as (-> & T & _); [|done..]
  end.
