(* ===== verification/Checksum.v ===== *)
(** * The AEGIS-128L checksum

    [src/replication/protocol/checksum.go]: the streaming hasher, the
    portable AEGIS state update and the AES round it uses.  [aegisUpdate] is
    the portable routine; the assembly and SIMD back ends that replace it on
    amd64 and arm64 are not modelled. *)

From S2P Require Import Prelude Bytes.

Abbreviation block := (list byte) (only parsing).

Definition aesSBox : list Z :=
  [0x63; 0x7c; 0x77; 0x7b; 0xf2; 0x6b; 0x6f; 0xc5; 0x30; 0x01; 0x67; 0x2b; 0xfe; 0xd7; 0xab; 0x76;
   0xca; 0x82; 0xc9; 0x7d; 0xfa; 0x59; 0x47; 0xf0; 0xad; 0xd4; 0xa2; 0xaf; 0x9c; 0xa4; 0x72; 0xc0;
   0xb7; 0xfd; 0x93; 0x26; 0x36; 0x3f; 0xf7; 0xcc; 0x34; 0xa5; 0xe5; 0xf1; 0x71; 0xd8; 0x31; 0x15;
   0x04; 0xc7; 0x23; 0xc3; 0x18; 0x96; 0x05; 0x9a; 0x07; 0x12; 0x80; 0xe2; 0xeb; 0x27; 0xb2; 0x75;
   0x09; 0x83; 0x2c; 0x1a; 0x1b; 0x6e; 0x5a; 0xa0; 0x52; 0x3b; 0xd6; 0xb3; 0x29; 0xe3; 0x2f; 0x84;
   0x53; 0xd1; 0x00; 0xed; 0x20; 0xfc; 0xb1; 0x5b; 0x6a; 0xcb; 0xbe; 0x39; 0x4a; 0x4c; 0x58; 0xcf;
   0xd0; 0xef; 0xaa; 0xfb; 0x43; 0x4d; 0x33; 0x85; 0x45; 0xf9; 0x02; 0x7f; 0x50; 0x3c; 0x9f; 0xa8;
   0x51; 0xa3; 0x40; 0x8f; 0x92; 0x9d; 0x38; 0xf5; 0xbc; 0xb6; 0xda; 0x21; 0x10; 0xff; 0xf3; 0xd2;
   0xcd; 0x0c; 0x13; 0xec; 0x5f; 0x97; 0x44; 0x17; 0xc4; 0xa7; 0x7e; 0x3d; 0x64; 0x5d; 0x19; 0x73;
   0x60; 0x81; 0x4f; 0xdc; 0x22; 0x2a; 0x90; 0x88; 0x46; 0xee; 0xb8; 0x14; 0xde; 0x5e; 0x0b; 0xdb;
   0xe0; 0x32; 0x3a; 0x0a; 0x49; 0x06; 0x24; 0x5c; 0xc2; 0xd3; 0xac; 0x62; 0x91; 0x95; 0xe4; 0x79;
   0xe7; 0xc8; 0x37; 0x6d; 0x8d; 0xd5; 0x4e; 0xa9; 0x6c; 0x56; 0xf4; 0xea; 0x65; 0x7a; 0xae; 0x08;
   0xba; 0x78; 0x25; 0x2e; 0x1c; 0xa6; 0xb4; 0xc6; 0xe8; 0xdd; 0x74; 0x1f; 0x4b; 0xbd; 0x8b; 0x8a;
   0x70; 0x3e; 0xb5; 0x66; 0x48; 0x03; 0xf6; 0x0e; 0x61; 0x35; 0x57; 0xb9; 0x86; 0xc1; 0x1d; 0x9e;
   0xe1; 0xf8; 0x98; 0x11; 0x69; 0xd9; 0x8e; 0x94; 0x9b; 0x1e; 0x87; 0xe9; 0xce; 0x55; 0x28; 0xdf;
   0x8c; 0xa1; 0x89; 0x0d; 0xbf; 0xe6; 0x42; 0x68; 0x41; 0x99; 0x2d; 0x0f; 0xb0; 0x54; 0xbb; 0x16].

Definition sbox (value : byte) : byte :=
  byte.of_Z (nth (Z.to_nat (byte.unsigned value)) aesSBox 0).

Definition aegisConstant0 : list byte := byte.of_Z <$>
  [0xdb; 0x3d; 0x18; 0x55; 0x6d; 0xc2; 0x2f; 0xf1; 0x20; 0x11; 0x31; 0x42; 0x73; 0xb5; 0x28; 0xdd].
Definition aegisConstant1 : list byte := byte.of_Z <$>
  [0x00; 0x01; 0x01; 0x02; 0x03; 0x05; 0x08; 0x0d; 0x15; 0x22; 0x37; 0x59; 0x90; 0xe9; 0x79; 0x62].

Definition checksumInputBytesMax : Z := MaxUint64 / 8.

Record ChecksumHasher := mkHasher {
  state : list block;
  buffer : list byte;
  buffered : Z;
  length_ : Z;
}.

Inductive checksum_error := ErrChecksumLengthOverflow.

(** ** The AES round and the AEGIS update *)

Definition bxor (a b : byte) : byte := byte.xor a b.

(** [value<<1 ^ byte(int8(value)>>7)&0x1b] *)
Definition xtime (value : byte) : byte :=
  byte.of_Z (Z.lxor (u8 (Z.shiftl (byte.unsigned value) 1))
               (Z.land (u8 (Z.shiftr (swrap 8 (byte.unsigned value)) 7)) 0x1b)).

Definition xorBlock (left right : block) : block := zip_with bxor left right.

(** Positions of the state bytes after ShiftRows, in the order of the
    [shifted] array literal. *)
Definition shiftRows : list nat :=
  [0; 5; 10; 15; 4; 9; 14; 3; 8; 13; 2; 7; 12; 1; 6; 11]%nat.

(** One column of MixColumns followed by the round-key xor. *)
Definition mixColumn (a k : list byte) : list byte :=
  match a, k with
  | [a0; a1; a2; a3], [k0; k1; k2; k3] =>
      let xorAll := bxor (bxor (bxor a0 a1) a2) a3 in
      [ bxor (bxor (bxor a0 xorAll) (xtime (bxor a0 a1))) k0;
        bxor (bxor (bxor a1 xorAll) (xtime (bxor a1 a2))) k1;
        bxor (bxor (bxor a2 xorAll) (xtime (bxor a2 a3))) k2;
        bxor (bxor (bxor a3 xorAll) (xtime (bxor a3 a0))) k3 ]
  | _, _ => []
  end.

Definition aesRoundPortable (state roundKey : block) : block :=
  let shifted := (fun i => sbox (nth i state Byte.x00)) <$> shiftRows in
  flat_map
    (fun column => mixColumn (slice shifted (column * 4) (column * 4 + 4))
                             (slice roundKey (column * 4) (column * 4 + 4)))
    [0; 1; 2; 3].

Definition aegisUpdatePortable (old : list block) (input0 input1 : block) : list block :=
  match old with
  | [s0; s1; s2; s3; s4; s5; s6; s7] =>
      [ xorBlock (aesRoundPortable s7 s0) input0;
        aesRoundPortable s0 s1;
        aesRoundPortable s1 s2;
        aesRoundPortable s2 s3;
        xorBlock (aesRoundPortable s3 s4) input1;
        aesRoundPortable s4 s5;
        aesRoundPortable s5 s6;
        aesRoundPortable s6 s7 ]
  | _ => old
  end.

Definition aegisUpdate := aegisUpdatePortable.

(** ** The streaming hasher *)

Fixpoint repeat_update (count : nat) (s : list block) (input0 input1 : block) : list block :=
  match count with
  | O => s
  | S count => repeat_update count (aegisUpdate s input0 input1) input0 input1
  end.

Definition initial_lanes : list block :=
  [ zeros 16; aegisConstant0; aegisConstant1; aegisConstant0;
    zeros 16; aegisConstant1; aegisConstant0; aegisConstant1 ].

Definition Reset : ChecksumHasher :=
  mkHasher (repeat_update 10 initial_lanes (zeros 16) (zeros 16)) (zeros 32) 0 0.

Definition NewChecksumHasher : ChecksumHasher := Reset.

(** The loop [for len(input) >= 32], with the length of the input as fuel. *)
Fixpoint absorb_loop (fuel : nat) (s : list block) (input : list byte)
    : list block * list byte :=
  match fuel with
  | O => (s, input)
  | S fuel =>
      if 32 <=? zlen input
      then absorb_loop fuel (aegisUpdate s (slice input 0 16) (slice input 16 32)) (drop 32 input)
      else (s, input)
  end.

(** The part of [Write] after the buffered prefix has been dealt with. *)
Definition write_blocks (s : list block) (buf : list byte) (total : Z) (input : list byte)
    : ChecksumHasher :=
  let '(s', rest) := absorb_loop (length input) s input in
  if zlen rest =? 0 then mkHasher s' buf 0 total
  else mkHasher s' (put buf 0 rest) (u8 (zlen rest)) total.

Definition Write (hasher : ChecksumHasher) (input : list byte)
    : result checksum_error (ChecksumHasher * Z) :=
  if (checksumInputBytesMax <? length_ hasher)
     || (checksumInputBytesMax - length_ hasher <? zlen input)
  then Err ErrChecksumLengthOverflow
  else
    let inputLength := zlen input in
    let total := u64 (length_ hasher + inputLength) in
    if buffered hasher =? 0
    then Ok (write_blocks (state hasher) (buffer hasher) total input, inputLength)
    else
      let needed := 32 - buffered hasher in
      let copied := Z.min needed (zlen input) in
      let buf := put (buffer hasher) (buffered hasher) (take (Z.to_nat copied) input) in
      let rest := drop (Z.to_nat copied) input in
      if copied <? needed
      then Ok (mkHasher (state hasher) buf (u8 (buffered hasher + copied)) total, inputLength)
      else
        let s := aegisUpdate (state hasher) (slice buf 0 16) (slice buf 16 32) in
        Ok (write_blocks s buf total rest, inputLength).

(** The tail of [Sum]: seven updates with the length block, then the xor of
    the first seven lanes. *)
Definition finalize (s : list block) (total : Z) : list byte :=
  let lengths := put (zeros 16) 0 (putUint 8 (u64 (total * 8))) in
  let finalInput := xorBlock lengths (nth 2 s []) in
  let s := repeat_update 7 s finalInput finalInput in
  fold_left xorBlock (take 7 s) (zeros 16).

Definition Sum (hasher : ChecksumHasher) : list byte :=
  let s :=
    if buffered hasher =? 0 then state hasher
    else
      let buf := put (buffer hasher) (buffered hasher) (zeros (32 - buffered hasher)) in
      aegisUpdate (state hasher) (slice buf 0 16) (slice buf 16 32) in
  finalize s (length_ hasher).

(** [ChecksumBytes] panics when [Write] fails, which needs an input of more
    than [checksumInputBytesMax] bytes; [None] is that panic. *)
Definition ChecksumBytes_panic (input : list byte) : option (list byte) :=
  match Write NewChecksumHasher input with
  | Ok (hasher, _) => Some (Sum hasher)
  | Err _ => None
  end.

Definition ChecksumBytes (input : list byte) : list byte :=
  default (zeros 16) (ChecksumBytes_panic input).

Definition hex (s : list Z) : list byte := byte.of_Z <$> s.

(** The test vectors of [checksum_test.go]. *)
Example checksum_empty :
  ChecksumBytes [] = hex [0x83; 0xcc; 0x60; 0x0d; 0xc4; 0xe3; 0xe7; 0xe6;
                          0x2d; 0x40; 0x55; 0x82; 0x61; 0x74; 0xf1; 0x49].
Proof. vm_compute. reflexivity. Qed.

Example checksum_sixteen_zeros :
  ChecksumBytes (zeros 16) = hex [0xf7; 0x2a; 0xd4; 0x8d; 0xd0; 0x5d; 0xd1; 0x65;
                                  0x61; 0x33; 0x10; 0x1c; 0xd4; 0xbe; 0x3a; 0x26].
Proof. vm_compute. reflexivity. Qed.

(** ** Specification

    The one-shot reading of the hash: pad the input with zeros to a multiple
    of 32 bytes, absorb every 32-byte block, finalise with the bit length. *)

Fixpoint absorb (n : nat) (s : list block) (l : list byte) : list block :=
  match n with
  | O => s
  | S n => absorb n (aegisUpdate s (slice l 0 16) (slice l 16 32)) (drop 32 l)
  end.

Definition pad32 (l : list byte) : list byte := l ++ zeros ((32 - zlen l mod 32) mod 32).

Definition checksum_reference (l : list byte) : list byte :=
  finalize (absorb (length (pad32 l) / 32) (state Reset) (pad32 l)) (zlen l).

Fixpoint write_all (hasher : ChecksumHasher) (chunks : list (list byte))
    : result checksum_error ChecksumHasher :=
  match chunks with
  | [] => Ok hasher
  | chunk :: rest =>
      match Write hasher chunk with
      | Ok (hasher', _) => write_all hasher' rest
      | Err e => Err e
      end
  end.

(** ** Absorption of blocks *)

Lemma absorb_app n s l k :
  (32 * n <= length l)%nat -> absorb n s (l ++ k) = absorb n s l.
Proof.
  revert s l. induction n as [|n IH]; intros s l Hn; [done|]. simpl.
  rewrite !slice_app_l by (unfold zlen; lia).
  rewrite drop_app_le by lia. apply IH. rewrite length_drop. lia.
Qed.

Lemma absorb_add n m s l :
  absorb (n + m) s l = absorb m (absorb n s l) (drop (32 * n) l).
Proof.
  revert s l. induction n as [|n IH]; intros s l; [done|].
  cbn [absorb Nat.add]. rewrite IH, drop_drop. do 2 f_equal. lia.
Qed.

Lemma absorb_extend q n s l k :
  length l = (32 * q)%nat -> absorb n (absorb q s l) k = absorb (q + n) s (l ++ k).
Proof.
  intros Hl. rewrite absorb_add, absorb_app by lia.
  rewrite drop_app_ge by lia. by replace (32 * q - length l)%nat with 0%nat by lia.
Qed.

Lemma absorb_loop_spec fuel s l :
  (length l / 32 <= fuel)%nat ->
  absorb_loop fuel s l = (absorb (length l / 32) s l, drop (32 * (length l / 32)) l).
Proof.
  revert s l. induction fuel as [|fuel IH]; intros s l Hf; cbn [absorb_loop].
  { by replace (length l / 32)%nat with 0%nat by div_lia. }
  destruct (Z.leb_spec 32 (zlen l)) as [Hl|Hl]; unfold zlen in Hl.
  - assert (length l / 32 = S (length (drop 32 l) / 32))%nat as E
      by (rewrite length_drop; div_lia).
    rewrite IH; [|rewrite length_drop; div_lia]. rewrite E. cbn [absorb].
    rewrite drop_drop. f_equal. f_equal. div_lia.
  - by replace (length l / 32)%nat with 0%nat by div_lia.
Qed.

(** The hasher represents the bytes written to it so far. *)
Record repr (h : ChecksumHasher) (l : list byte) : Prop := {
  repr_state : state h = absorb (length l / 32) (state Reset) l;
  repr_buffered : buffered h = zlen l mod 32;
  repr_buflen : zlen (buffer h) = 32;
  repr_prefix : slice (buffer h) 0 (buffered h) = drop (32 * (length l / 32)) l;
  repr_length : length_ h = zlen l;
}.

Lemma repr_Reset : repr Reset [].
Proof. split; done. Qed.

Lemma write_blocks_repr l input buf total :
  zlen l mod 32 = 0 -> zlen buf = 32 -> total = zlen l + zlen input ->
  repr (write_blocks (absorb (length l / 32) (state Reset) l) buf total input) (l ++ input).
Proof.
  intros Hl Hbuf ->. unfold write_blocks.
  rewrite absorb_loop_spec by div_lia.
  set (q := (length l / 32)%nat). set (n := (length input / 32)%nat).
  assert (length l = 32 * q)%nat as Eq by (unfold zlen in *; div_lia).
  assert (length (l ++ input) / 32 = q + n)%nat as Ediv by (rewrite length_app; div_lia).
  assert (zlen (l ++ input) mod 32 = zlen input mod 32) as Emod.
  { rewrite zlen_app. rewrite Zplus_mod, Hl. unfold zlen. div_lia. }
  assert (drop (32 * (q + n)) (l ++ input) = drop (32 * n) input) as Edrop.
  { rewrite drop_app_ge by div_lia. f_equal. div_lia. }
  assert (zlen (drop (32 * n) input) = zlen input mod 32) as Hrest.
  { unfold zlen. rewrite length_drop. div_lia. }
  destruct (Z.eqb_spec (zlen (drop (32 * n) input)) 0) as [Hz|Hz];
    split; cbn [state buffer buffered length_];
    rewrite ?Ediv, ?Emod, ?Edrop, ?zlen_app; try done; try div_lia.
  - by rewrite absorb_extend.
  - symmetry. apply nil_length_inv. unfold zlen in Hz. div_lia.
  - by rewrite absorb_extend.
  - rewrite uwrap_small by width_lia. done.
  - rewrite zlen_put; div_lia.
  - rewrite uwrap_small by width_lia. apply slice_put_same; div_lia.
Qed.

Lemma Write_repr h l input :
  repr h l -> zlen l + zlen input <= checksumInputBytesMax ->
  exists h', Write h input = Ok (h', zlen input) /\ repr h' (l ++ input).
Proof.
  intros [Hs Hb Hbl Hp Hlen] Hmax.
  assert (0 <= zlen l /\ 0 <= zlen input) as [? ?] by (split; apply zlen_nonneg).
  assert (checksumInputBytesMax = 2 ^ 61 - 1) as Emax by done.
  unfold Write. rewrite Hlen, Hb, Hs.
  destruct (Z.ltb_spec checksumInputBytesMax (zlen l)); [div_lia|].
  destruct (Z.ltb_spec (checksumInputBytesMax - zlen l) (zlen input)); [div_lia|].
  simpl orb. cbn match. rewrite uwrap_small by width_lia.
  destruct (Z.eqb_spec (zlen l mod 32) 0) as [Hz|Hz].
  { eexists. split; [done|]. by apply write_blocks_repr. }
  set (r := zlen l mod 32) in *. set (q := (length l / 32)%nat) in *.
  assert (0 < r < 32) by (pose proof (Z.mod_pos_bound (zlen l) 32); lia).
  assert (zlen l = 32 * Z.of_nat q + r) as El by (clear; unfold r, q, zlen; div_lia).
  set (c := Z.min (32 - r) (zlen input)). set (i1 := take (Z.to_nat c) input).
  assert (zlen i1 = c) as Hi1 by (unfold i1, c, zlen; rewrite length_take; lia).
  assert (zlen (put (buffer h) r i1) = 32) as Hput by (rewrite zlen_put; div_lia).
  assert (slice (put (buffer h) r i1) 0 (r + c) = drop (32 * q) l ++ i1) as Hslice.
  { rewrite (slice_split _ 0 r) by div_lia. rewrite slice_put_before by div_lia.
    rewrite slice_put_same by div_lia. f_equal. rewrite <- Hp. by rewrite Hb. }
  destruct (Z.ltb_spec c (32 - r)) as [Hc|Hc].
  - assert (i1 = input) as E1 by (unfold i1; apply take_ge; unfold c, zlen in *; lia).
    rewrite E1 in *.
    assert (length (l ++ input) / 32 = q)%nat as Ediv
      by (rewrite length_app; unfold zlen in *; div_lia).
    eexists. split; [done|].
    split; cbn [state buffer buffered length_]; rewrite ?zlen_app, ?Ediv; try done.
    + rewrite absorb_app; [done|]. unfold zlen in *. div_lia.
    + rewrite uwrap_small by width_lia. rewrite El, Hi1.
      replace (32 * Z.of_nat q + r + c) with ((r + c) + Z.of_nat q * 32) by div_lia.
      rewrite Z_mod_plus_full, Z.mod_small; div_lia.
    + rewrite uwrap_small by width_lia. rewrite Hslice.
      rewrite drop_app_le; [done|]. unfold zlen in *. div_lia.
  - assert (c = 32 - r) as Ec by (unfold c in *; lia).
    assert (length (l ++ i1) = 32 * S q)%nat as El1
      by (rewrite length_app; unfold zlen in *; div_lia).
    rewrite slice_all in Hslice by div_lia.
    eexists. split; [done|].
    replace (l ++ input) with ((l ++ i1) ++ drop (Z.to_nat c) input)
      by (unfold i1; by rewrite <- app_assoc, take_drop).
    assert (aegisUpdate (absorb q (state Reset) l) (slice (put (buffer h) r i1) 0 16)
              (slice (put (buffer h) r i1) 16 32)
            = absorb (length (l ++ i1) / 32) (state Reset) (l ++ i1)) as ->.
    { replace (length (l ++ i1) / 32)%nat with (q + 1)%nat by div_lia.
      rewrite absorb_add, absorb_app by (unfold zlen in *; div_lia).
      rewrite drop_app_le by (unfold zlen in *; div_lia).
      cbn [absorb]. by rewrite Hslice. }
    apply write_blocks_repr; [unfold zlen; div_lia|done|].
    unfold zlen in *. rewrite length_app, length_drop. div_lia.
Qed.

Lemma Sum_repr h l : repr h l -> Sum h = checksum_reference l.
Proof.
  intros [Hs Hb Hbl Hp Hlen]. unfold Sum, checksum_reference. rewrite Hlen, Hb. f_equal.
  set (r := zlen l mod 32) in *.
  assert (0 <= r < 32) by (apply Z.mod_pos_bound; div_lia).
  assert (r = Z.of_nat (length l mod 32)) as Er by (unfold r, zlen; div_lia).
  destruct (Z.eqb_spec r 0) as [Hz|Hz].
  - unfold pad32. fold r. rewrite Hz. by rewrite app_nil_r.
  - set (q := (length l / 32)%nat) in *.
    assert (zlen (zeros (32 - r)) = 32 - r) as Hzl by (apply zlen_zeros; div_lia).
    assert (pad32 l = l ++ zeros (32 - r)) as ->.
    { unfold pad32. fold r. by rewrite Z.mod_small by div_lia. }
    assert (length (l ++ zeros (32 - r)) = 32 * (q + 1))%nat as El
      by (rewrite length_app; unfold zlen in Hzl; div_lia).
    replace (length (l ++ zeros (32 - r)) / 32)%nat with (q + 1)%nat by div_lia.
    rewrite absorb_add, absorb_app by div_lia. rewrite drop_app_le by div_lia.
    cbn [absorb]. rewrite <- Hs.
    assert (put (buffer h) r (zeros (32 - r)) = drop (32 * q) l ++ zeros (32 - r)) as ->;
      [|done].
    rewrite <- Hp, Hb. fold r.
    rewrite <- (slice_all (put _ _ _) 0 32) by (rewrite ?zlen_put; div_lia).
    rewrite (slice_split _ 0 r) by div_lia.
    by rewrite slice_put_before, slice_put_same by div_lia.
Qed.

Lemma write_all_repr h l chunks :
  repr h l -> zlen (l ++ concat chunks) <= checksumInputBytesMax ->
  exists h', write_all h chunks = Ok h' /\ repr h' (l ++ concat chunks).
Proof.
  revert h l. induction chunks as [|c cs IH]; intros h l Hr Hmax; simpl.
  { exists h. by rewrite app_nil_r. }
  simpl in Hmax. rewrite app_assoc, zlen_app in Hmax.
  pose proof (zlen_nonneg (concat cs)). rewrite zlen_app in Hmax.
  destruct (Write_repr h l c Hr) as (h' & -> & Hr'); [div_lia|].
  destruct (IH h' (l ++ c) Hr') as (h'' & -> & Hr''); [rewrite !zlen_app; div_lia|].
  exists h''. by rewrite app_assoc.
Qed.

(** ** Widths *)

Definition wf_lanes (s : list block) : Prop :=
  length s = 8%nat /\ Forall (fun lane => zlen lane = 16) s.

Lemma zlen_xorBlock left right :
  zlen left = 16 -> zlen right = 16 -> zlen (xorBlock left right) = 16.
Proof. unfold zlen, xorBlock. rewrite length_zip_with. lia. Qed.

Lemma zlen_mixColumn a k : zlen a = 4 -> zlen k = 4 -> zlen (mixColumn a k) = 4.
Proof.
  unfold zlen. intros Ha Hk.
  destruct a as [|a0 [|a1 [|a2 [|a3 [|]]]]]; try (simpl in Ha; lia).
  by destruct k as [|k0 [|k1 [|k2 [|k3 [|]]]]]; try (simpl in Hk; lia).
Qed.

Lemma zlen_aesRound s key : zlen key = 16 -> zlen (aesRoundPortable s key) = 16.
Proof.
  intros Hk. unfold aesRoundPortable. set (shifted := _ <$> shiftRows).
  assert (zlen shifted = 16) as Hs by done.
  cbn [flat_map]. rewrite !zlen_app.
  by rewrite !zlen_mixColumn by (rewrite zlen_slice; lia).
Qed.

Lemma wf_aegisUpdate s i0 i1 :
  wf_lanes s -> zlen i0 = 16 -> zlen i1 = 16 -> wf_lanes (aegisUpdate s i0 i1).
Proof.
  intros [Hl Hs] H0 H1.
  destruct s as [|s0 [|s1 [|s2 [|s3 [|s4 [|s5 [|s6 [|s7 [|]]]]]]]]]; simpl in Hl; try lia.
  rewrite !Forall_cons in Hs. destruct_and! Hs.
  split; [done|]. unfold aegisUpdate, aegisUpdatePortable.
  repeat (apply Forall_cons; split);
    eauto using zlen_xorBlock, zlen_aesRound, Forall_nil_2.
Qed.

Lemma wf_repeat_update n s i0 i1 :
  wf_lanes s -> zlen i0 = 16 -> zlen i1 = 16 -> wf_lanes (repeat_update n s i0 i1).
Proof. revert s. induction n; intros; simpl; eauto using wf_aegisUpdate. Qed.

Lemma wf_absorb n s l :
  wf_lanes s -> (32 * n <= length l)%nat -> wf_lanes (absorb n s l).
Proof.
  revert s l. induction n as [|n IH]; intros s l Hs Hl; [done|]. cbn [absorb].
  apply IH; [|rewrite length_drop; lia].
  apply wf_aegisUpdate; [done|rewrite zlen_slice..]; unfold zlen; lia.
Qed.

Lemma zlen_finalize s total : wf_lanes s -> zlen (finalize s total) = 16.
Proof.
  intros Hs. unfold finalize.
  assert (zlen (nth 2 s []) = 16) as H2.
  { destruct Hs as [Hl Hs]. rewrite Forall_forall in Hs. apply Hs.
    apply list_elem_of_In, nth_In. lia. }
  set (f := xorBlock _ _). assert (zlen f = 16) as Hf by by apply zlen_xorBlock.
  assert (Forall (fun lane => zlen lane = 16) (take 7 (repeat_update 7 s f f))) as HF.
  { apply Forall_take. apply wf_repeat_update; done. }
  assert (zlen (zeros 16) = 16) as Hz by done. revert Hz. generalize (zeros 16).
  induction HF as [|lane lanes Hlane HF IH]; intros acc Hacc; simpl; [done|].
  by apply IH, zlen_xorBlock.
Qed.

Lemma wf_Reset : wf_lanes (state Reset).
Proof. apply wf_repeat_update; [|done..]. split; [done|]. by repeat constructor. Qed.

Lemma zlen_checksum_reference l : zlen (checksum_reference l) = 16.
Proof.
  apply zlen_finalize, wf_absorb; [apply wf_Reset|]. div_lia.
Qed.

(** A hash of at most [checksumInputBytesMax] bytes never panics and is the
    reference hash. *)
Lemma ChecksumBytes_reference l :
  zlen l <= checksumInputBytesMax -> ChecksumBytes_panic l = Some (checksum_reference l).
Proof.
  intros Hl. destruct (Write_repr Reset [] l repr_Reset) as (h & Hw & Hr); [done|].
  unfold ChecksumBytes_panic, NewChecksumHasher. rewrite Hw. f_equal. by apply Sum_repr.
Qed.

Lemma zlen_ChecksumBytes l : zlen (ChecksumBytes l) = 16.
Proof.
  unfold ChecksumBytes. destruct (decide (zlen l <= checksumInputBytesMax)) as [Hl|Hl].
  - rewrite ChecksumBytes_reference by done. apply zlen_checksum_reference.
  - unfold ChecksumBytes_panic, Write. cbn [length_ NewChecksumHasher Reset].
    destruct (Z.ltb_spec (checksumInputBytesMax - 0) (zlen l)); [|lia].
    by rewrite orb_true_r.
Qed.

(** C22: however the input is cut into [Write] calls, the streaming hasher
    accepts every chunk, [Sum] returns the one-shot AEGIS-128L checksum of the
    concatenation, which is also what [ChecksumBytes] returns without
    panicking, and it is 16 bytes long.  The hypothesis bounds the total by
    the length limit [Write] enforces. *)
Theorem streaming_checksum chunks :
  zlen (concat chunks) <= checksumInputBytesMax ->
  exists hasher,
    write_all NewChecksumHasher chunks = Ok hasher /\
    Sum hasher = checksum_reference (concat chunks) /\
    ChecksumBytes_panic (concat chunks) = Some (Sum hasher) /\
    zlen (Sum hasher) = 16.
Proof.
  intros Hl. destruct (write_all_repr Reset [] chunks repr_Reset) as (h & Hw & Hr); [done|].
  exists h. rewrite (Sum_repr _ _ Hr). repeat split; [done| |].
  - by apply ChecksumBytes_reference.
  - apply zlen_checksum_reference.
Qed.

Lemma streaming_checksum_witness :
  exists hasher,
    write_all NewChecksumHasher [zeros 5; zeros 40; []; zeros 3] = Ok hasher /\
    Sum hasher = checksum_reference (zeros 48).
Proof.
  destruct (streaming_checksum [zeros 5; zeros 40; []; zeros 3]) as (h & Hw & Hs & _).
  - vm_compute. discriminate.
  - exists h. exact (conj Hw Hs).
Defined.

Global Opaque ChecksumBytes.
