(* ===== verification/Header.v ===== *)
(** * Frame headers

    [src/replication/protocol/types.go] and
    [src/replication/protocol/header.go]: the 256-byte frame header, its
    encoder and decoder, frame sealing and frame decoding. *)

From S2P Require Import Prelude Bytes Checksum.

(** ** Constants *)

Definition ProtocolVersion : Z := 0.
Definition FormatVersion : Z := 1.
Definition MaxView : Z := MaxUint32.

Definition HeaderSize : Z := 256.
Definition CommandFieldsSize : Z := 128.
Definition HeaderChecksumFrom : Z := 16.

Definition CommandReserved : Z := 0.
Definition CommandPing : Z := 1.
Definition CommandPong : Z := 2.
Definition CommandClientPing : Z := 3.
Definition CommandClientPong : Z := 4.
Definition CommandRequest : Z := 5.
Definition CommandPrepare : Z := 6.
Definition CommandPrepareOK : Z := 7.
Definition CommandReply : Z := 8.
Definition CommandCommit : Z := 9.
Definition CommandExitView : Z := 10.
Definition CommandJoinView : Z := 11.
Definition CommandRetired12 : Z := 12.
Definition CommandGetView : Z := 13.
Definition CommandGetHeaders : Z := 14.
Definition CommandGetPrepare : Z := 15.
Definition CommandGetReply : Z := 16.
Definition CommandHeaders : Z := 17.
Definition CommandEviction : Z := 18.
Definition CommandGetBlocks : Z := 19.
Definition CommandBlock : Z := 20.
Definition CommandRetired21 : Z := 21.
Definition CommandRetired22 : Z := 22.
Definition CommandRetired23 : Z := 23.
Definition CommandView : Z := 24.

Definition OperationReserved : Z := 0.
Definition OperationRoot : Z := 1.
Definition OperationRegister : Z := 2.
Definition OperationReconfigure : Z := 3.
Definition OperationPulse : Z := 4.
Definition OperationUpgrade : Z := 5.
Definition OperationNoop : Z := 6.
Definition OperationApplicationMin : Z := 128.

Definition EvictionReserved : Z := 0.
Definition EvictionNoSession : Z := 1.
Definition EvictionClientReleaseTooLow : Z := 2.
Definition EvictionClientReleaseTooHigh : Z := 3.
Definition EvictionInvalidOperation : Z := 4.
Definition EvictionInvalidBody : Z := 5.
Definition EvictionInvalidBodySize : Z := 6.
Definition EvictionSessionTooLow : Z := 7.
Definition EvictionSessionReleaseMismatch : Z := 8.

Definition BlockReserved : Z := 0.
Definition BlockFreeSet : Z := 1.
Definition BlockClientSessions : Z := 2.
Definition BlockManifest : Z := 3.
Definition BlockIndex : Z := 4.
Definition BlockValue : Z := 5.

Inductive RejectReason :=
| RejectNone
| RejectHeaderLength
| RejectHeaderChecksum
| RejectChecksumExtension
| RejectBodyChecksumExtension
| RejectReservedNonce
| RejectWrongGroup
| RejectSize
| RejectProtocol
| RejectEpoch
| RejectCommand
| RejectAuthor
| RejectAuthentication
| RejectFrameReservation
| RejectBodyLength
| RejectBodyChecksum
| RejectCommandFields
| RejectBodyShape.

#[export] Instance RejectReason_eq_dec : EqDecision RejectReason.
Proof. solve_decision. Defined.

Inductive frame_error := ErrFrameEncoding.

(** ** The header record *)

Record Header := mkHeader {
  HeaderChecksum : list byte;
  BodyChecksum : list byte;
  Group : list byte;
  Size : Z;
  Epoch : Z;
  View : Z;
  Release : Z;
  Protocol : Z;
  Command : Z;
  Author : Z;
  Fields : list byte;
}.

#[export] Instance Header_eq_dec : EqDecision Header.
Proof. solve_decision. Defined.

(** Go's [Header{}] *)
Definition zeroHeader : Header :=
  mkHeader (zeros 16) (zeros 16) (zeros 16) 0 0 0 0 0 0 0 (zeros 128).

Definition with_checksum (h : Header) (checksum : list byte) : Header :=
  mkHeader checksum (BodyChecksum h) (Group h) (Size h) (Epoch h) (View h)
    (Release h) (Protocol h) (Command h) (Author h) (Fields h).

Definition with_body (h : Header) (size : Z) (checksum : list byte) : Header :=
  mkHeader (HeaderChecksum h) checksum (Group h) size (Epoch h) (View h)
    (Release h) (Protocol h) (Command h) (Author h) (Fields h).

(** The Go types bound every field: arrays by their length, integers by
    their width. *)
Record wf_header (h : Header) : Prop := {
  wf_HeaderChecksum : zlen (HeaderChecksum h) = 16;
  wf_BodyChecksum : zlen (BodyChecksum h) = 16;
  wf_Group : zlen (Group h) = 16;
  wf_Size : is_u32 (Size h);
  wf_Epoch : is_u32 (Epoch h);
  wf_View : is_u32 (View h);
  wf_Release : is_u32 (Release h);
  wf_Protocol : is_u16 (Protocol h);
  wf_Command : is_u8 (Command h);
  wf_Author : is_u8 (Author h);
  wf_Fields : zlen (Fields h) = 128;
}.

(** ** header.go *)

Definition IsDefined (command : Z) : bool :=
  (CommandPing <=? command) && (command <=? CommandView)
  && negb (command =? CommandRetired12) && negb (command =? CommandRetired21)
  && negb (command =? CommandRetired22) && negb (command =? CommandRetired23).

(** The copies of [EncodeHeader], in the order of the source, before it
    computes the checksum. *)
Definition header_fields (header : Header) : list (Z * list byte) :=
  [ (32, BodyChecksum header);
    (80, Group header);
    (96, putUint 4 (Size header));
    (100, putUint 4 (Epoch header));
    (104, putUint 4 (View header));
    (108, putUint 4 (Release header));
    (112, putUint 2 (Protocol header));
    (114, putUint 1 (Command header));
    (115, putUint 1 (Author header));
    (128, Fields header) ].

Definition encode_unsealed (header : Header) : list byte :=
  write_fields (zeros HeaderSize) (header_fields header).

(** [EncodeHeader] overwrites its destination, of which only the length
    matters, and stores the checksum in the header it is given. *)
Definition EncodeHeader (destination : Z) (header : Header)
    : result frame_error (list byte * Header) :=
  if negb (destination =? HeaderSize) || (Size header <? HeaderSize)
     || negb (Protocol header =? ProtocolVersion) || negb (Epoch header =? 0)
     || negb (IsDefined (Command header))
  then Err ErrFrameEncoding
  else
    let d := encode_unsealed header in
    let checksum := ChecksumBytes (slice d HeaderChecksumFrom HeaderSize) in
    Ok (put d 0 checksum, with_checksum header checksum).

Definition DecodeHeader (source expectedGroup : list byte) (messageSizeMax memberCount : Z)
    : Header * RejectReason :=
  if negb (zlen source =? HeaderSize) then (zeroHeader, RejectHeaderLength) else
  let expectedChecksum := slice source 0 16 in
  if negb (bool_decide (ChecksumBytes (slice source HeaderChecksumFrom HeaderSize) = expectedChecksum))
  then (zeroHeader, RejectHeaderChecksum) else
  if negb (allZero (slice source 16 32)) then (zeroHeader, RejectChecksumExtension) else
  if negb (allZero (slice source 48 64)) then (zeroHeader, RejectBodyChecksumExtension) else
  if negb (allZero (slice source 64 80)) then (zeroHeader, RejectReservedNonce) else
  let header := mkHeader expectedChecksum (slice source 32 48) (slice source 80 96)
    (getUint (slice source 96 100)) (getUint (slice source 100 104))
    (getUint (slice source 104 108)) (getUint (slice source 108 112))
    (getUint (slice source 112 114)) (byteAt source 114) (byteAt source 115)
    (zeros 128) in
  if negb (bool_decide (Group header = expectedGroup)) then (zeroHeader, RejectWrongGroup) else
  if (Size header <? HeaderSize) || (messageSizeMax <? Size header)
  then (zeroHeader, RejectSize) else
  if negb (Protocol header =? ProtocolVersion)
     && negb ((Command header =? CommandBlock) && (Protocol header <? ProtocolVersion))
  then (zeroHeader, RejectProtocol) else
  if negb (Epoch header =? 0) then (zeroHeader, RejectEpoch) else
  if negb (IsDefined (Command header)) then (header, RejectCommand) else
  if (memberCount =? 0) || (memberCount <=? Author header) then (zeroHeader, RejectAuthor) else
  if negb (allZero (slice source 116 128)) then (zeroHeader, RejectFrameReservation) else
  (mkHeader (HeaderChecksum header) (BodyChecksum header) (Group header) (Size header)
     (Epoch header) (View header) (Release header) (Protocol header) (Command header)
     (Author header) (slice source 128 256), RejectNone).

Definition ValidateBody (header : Header) (body : list byte) : RejectReason :=
  if negb (zlen body + HeaderSize =? Size header) then RejectBodyLength else
  if negb (bool_decide (ChecksumBytes body = BodyChecksum header)) then RejectBodyChecksum
  else RejectNone.

Definition DecodeFrame (frame expectedGroup : list byte) (messageSizeMax memberCount : Z)
    : Header * list byte * RejectReason :=
  if zlen frame <? HeaderSize then (zeroHeader, [], RejectHeaderLength) else
  match DecodeHeader (slice frame 0 HeaderSize) expectedGroup messageSizeMax memberCount with
  | (header, RejectNone) =>
      if negb (zlen frame =? Size header) then (zeroHeader, [], RejectBodyLength) else
      let body := slice frame HeaderSize (Size header) in
      match ValidateBody header body with
      | RejectNone => (header, body, RejectNone)
      | reason => (zeroHeader, [], reason)
      end
  | (_, reason) => (zeroHeader, [], reason)
  end.

(** [SealFrame] writes the header into the first 256 bytes of the frame. *)
Definition SealFrame (frame : list byte) (header : Header)
    : result frame_error (list byte * Header) :=
  if (zlen frame <? HeaderSize) || (MaxUint32 <? zlen frame) then Err ErrFrameEncoding else
  let header := with_body header (u32 (zlen frame))
    (ChecksumBytes (slice frame HeaderSize (zlen frame))) in
  '(encoded, header) ← EncodeHeader HeaderSize header;
  Ok (put frame 0 encoded, header).

(** ** Layout of an encoded header *)

Definition header_layout : list (Z * Z) :=
  [(32, 16); (80, 16); (96, 4); (100, 4); (104, 4); (108, 4); (112, 2); (114, 1);
   (115, 1); (128, 128); (0, 16)].

(** The sealed header as one sequence of writes. *)
Definition sealed_fields (h : Header) (cs : list byte) : list (Z * list byte) :=
  header_fields h ++ [(0, cs)].

Lemma sealed_sizes h cs :
  wf_header h -> zlen cs = 16 -> field_sizes (sealed_fields h cs) = header_layout.
Proof.
  intros [] Hcs. unfold field_sizes, sealed_fields, header_fields. cbn.
  by rewrite !zlen_putUint, wf_BodyChecksum0, wf_Group0, wf_Fields0, Hcs.
Qed.

Lemma sealed_eq h cs :
  put (encode_unsealed h) 0 cs = write_fields (zeros 256) (sealed_fields h cs).
Proof. unfold write_fields, sealed_fields. by rewrite fold_left_app. Qed.

Lemma zlen_encode_unsealed h : wf_header h -> zlen (encode_unsealed h) = 256.
Proof.
  intros []. apply zlen_write_fields; [done|].
  unfold field_sizes, header_fields. cbn -[layout_ok].
  by rewrite !zlen_putUint, wf_BodyChecksum0, wf_Group0, wf_Fields0.
Qed.

Lemma zlen_sealed h cs :
  wf_header h -> zlen cs = 16 -> zlen (put (encode_unsealed h) 0 cs) = 256.
Proof. intros H Hcs. pose proof (zlen_encode_unsealed h H). rewrite zlen_put; lia. Qed.

(** The cut points of the header, fields and reserved ranges alike. *)
Definition header_cuts : list Z :=
  [16; 32; 48; 64; 80; 96; 100; 104; 108; 112; 114; 115; 116; 128; 256].

(** What [EncodeHeader] produces when it accepts. *)
Lemma EncodeHeader_Ok h :
  HeaderSize <= Size h -> Protocol h = ProtocolVersion -> Epoch h = 0 ->
  IsDefined (Command h) = true ->
  EncodeHeader HeaderSize h =
    let cs := ChecksumBytes (slice (encode_unsealed h) 16 256) in
    Ok (put (encode_unsealed h) 0 cs, with_checksum h cs).
Proof.
  intros Hs Hp He Hc. unfold EncodeHeader. rewrite Hp, He, Hc, !Z.eqb_refl. simpl.
  destruct (Z.ltb_spec (Size h) HeaderSize); [lia|done].
Qed.

Lemma EncodeHeader_inv n h bytes h' :
  EncodeHeader n h = Ok (bytes, h') ->
  n = HeaderSize /\ HeaderSize <= Size h /\ Protocol h = ProtocolVersion /\ Epoch h = 0 /\
  IsDefined (Command h) = true /\
  bytes = put (encode_unsealed h) 0 (HeaderChecksum h') /\
  h' = with_checksum h (ChecksumBytes (slice (encode_unsealed h) 16 256)).
Proof.
  unfold EncodeHeader. intros H. step_guards H. split_bool.
  injection H as <- <-. done.
Qed.

Lemma wf_with_checksum h cs : wf_header h -> zlen cs = 16 -> wf_header (with_checksum h cs).
Proof. intros [] ?. by split. Qed.

Lemma encode_unsealed_with_checksum h cs :
  encode_unsealed (with_checksum h cs) = encode_unsealed h.
Proof. done. Qed.

Lemma EncodeHeader_wf n h bytes h' :
  wf_header h -> EncodeHeader n h = Ok (bytes, h') -> wf_header h' /\ zlen bytes = 256.
Proof.
  intros Hwf (_ & _ & _ & _ & _ & -> & ->)%EncodeHeader_inv. split.
  - apply wf_with_checksum; [done|]. apply zlen_ChecksumBytes.
  - cbn [HeaderChecksum with_checksum].
    pose proof (zlen_encode_unsealed h Hwf).
    rewrite zlen_put; rewrite ?zlen_ChecksumBytes; lia.
Qed.

(** The header a 256-byte source denotes, before any of the checks. *)
Definition parse_header (source : list byte) : Header :=
  mkHeader (slice source 0 16) (slice source 32 48) (slice source 80 96)
    (getUint (slice source 96 100)) (getUint (slice source 100 104))
    (getUint (slice source 104 108)) (getUint (slice source 108 112))
    (getUint (slice source 112 114)) (byteAt source 114) (byteAt source 115)
    (slice source 128 256).

(** Acceptance as one condition: every check of [DecodeHeader] passes. *)
Record accepts (source g : list byte) (messageSizeMax memberCount : Z) : Prop := {
  acc_length : zlen source = 256;
  acc_checksum : ChecksumBytes (slice source 16 256) = slice source 0 16;
  acc_extension : slice source 16 32 = zeros 16;
  acc_body_extension : slice source 48 64 = zeros 16;
  acc_nonce : slice source 64 80 = zeros 16;
  acc_group : slice source 80 96 = g;
  acc_size : 256 <= Size (parse_header source) <= messageSizeMax;
  acc_protocol : Protocol (parse_header source) = 0;
  acc_epoch : Epoch (parse_header source) = 0;
  acc_command : IsDefined (Command (parse_header source)) = true;
  acc_author : Author (parse_header source) < memberCount;
  acc_reserved : slice source 116 128 = zeros 12;
}.

Lemma DecodeHeader_accepts source g messageSizeMax memberCount h :
  DecodeHeader source g messageSizeMax memberCount = (h, RejectNone) <->
  accepts source g messageSizeMax memberCount /\ h = parse_header source.
Proof.
  unfold DecodeHeader, HeaderChecksumFrom, HeaderSize, ProtocolVersion.
  cbn [Group Size Protocol Command Epoch Author HeaderChecksum BodyChecksum View Release].
  pose proof (byteAt_range source 115) as Hauthor.
  assert (0 <= getUint (slice source 112 114)) as Hproto by apply getUint_range.
  split.
  - intros H.
    repeat match type of H with
    | (if ?b then _ else _) = _ => destruct b eqn:?; [discriminate H|]
    end.
    injection H as <-. split_bool. split; [|done].
    assert (forall a b, 0 <= a <= b -> b <= 256 -> allZero (slice source a b) = true ->
      slice source a b = zeros (b - a)) as Hz.
    { intros a b ???. by apply allZero_slice_zeros; [|lia|]. }
    split; try (by apply Hz); try (by symmetry; eassumption); try eassumption; cbn; lia.
  - intros [[Hl Hcs He Hbe Hn Hg Hs Hp Hep Hc Ha Hr] ->]. cbn in Hs, Hp, Hep, Hc, Ha.
    rewrite Hl, Hcs, He, Hbe, Hn, Hg, Hr, Hp, Hep, Hc, !allZero_zeros.
    rewrite !bool_decide_true by done. simpl.
    destruct (Z.ltb_spec (getUint (slice source 96 100)) 256); [lia|].
    destruct (Z.ltb_spec messageSizeMax (getUint (slice source 96 100))); [lia|]. simpl.
    destruct (Z.eqb_spec memberCount 0); [lia|].
    destruct (Z.leb_spec memberCount (byteAt source 115)); [lia|]. simpl.
    unfold parse_header. by rewrite Hg, Hp, Hep.
Qed.

(** ** Round trips *)

(** Every field of a sealed header reads back, every reserved range is zero. *)
Lemma sealed_read h cs :
  wf_header h -> zlen cs = 16 ->
  let e := put (encode_unsealed h) 0 cs in
  (slice e 32 48 = BodyChecksum h /\ slice e 80 96 = Group h /\
   slice e 96 100 = putUint 4 (Size h) /\ slice e 100 104 = putUint 4 (Epoch h) /\
   slice e 104 108 = putUint 4 (View h) /\ slice e 108 112 = putUint 4 (Release h) /\
   slice e 112 114 = putUint 2 (Protocol h) /\ slice e 114 115 = putUint 1 (Command h) /\
   slice e 115 116 = putUint 1 (Author h) /\ slice e 128 256 = Fields h /\
   slice e 0 16 = cs) /\
  (slice e 16 32 = zeros 16 /\ slice e 48 64 = zeros 16 /\
   slice e 64 80 = zeros 16 /\ slice e 116 128 = zeros 12).
Proof.
  intros Hwf Hcs e. unfold e. rewrite sealed_eq.
  assert (layout_ok 256 (field_sizes (sealed_fields h cs)) = true) as Hok
    by by rewrite sealed_sizes.
  pose proof (write_fields_read 256 (zeros 256) _ eq_refl Hok) as HF.
  assert (forallb (gap_ok 256 (field_sizes (sealed_fields h cs)))
            [(16, 16); (48, 16); (64, 16); (116, 12)] = true) as Hg by by rewrite sealed_sizes.
  pose proof (write_fields_gaps 256 _ _ Hok ltac:(lia) Hg) as HG.
  remember (write_fields (zeros 256) (sealed_fields h cs)) as w eqn:Ew. clear Ew Hok Hg e.
  unfold sealed_fields, header_fields in HF. cbn [app] in HF.
  destruct Hwf. rewrite !Forall_cons in HF. rewrite !Forall_cons in HG.
  rewrite !zlen_putUint, wf_BodyChecksum0, wf_Group0, wf_Fields0, Hcs in HF.
  simpl in HF, HG. tauto.
Qed.

Lemma sealed_tail h cs :
  wf_header h -> zlen cs = 16 ->
  slice (put (encode_unsealed h) 0 cs) 16 256 = slice (encode_unsealed h) 16 256.
Proof. intros Hwf ?. pose proof (zlen_encode_unsealed h Hwf). by rewrite slice_put_after by lia. Qed.

Lemma parse_sealed h cs :
  wf_header h -> zlen cs = 16 ->
  parse_header (put (encode_unsealed h) 0 cs) = with_checksum h cs.
Proof.
  intros Hwf Hcs. destruct (sealed_read h cs Hwf Hcs) as [HF _]. destruct_and! HF.
  unfold parse_header. rewrite (byteAt_lit _ 114 115), (byteAt_lit _ 115 116) by lia. set (e := put _ _ _) in *.
  repeat match goal with E : slice e _ _ = _ |- _ => rewrite E; clear E end.
  destruct Hwf. by rewrite !getUint_putUint by assumption.
Qed.

Lemma wf_parse_header source : zlen source = 256 -> wf_header (parse_header source).
Proof.
  intros Hl.
  assert (forall a b n, 0 <= a <= b -> b <= 256 -> n = 8 * (b - a) ->
    is_uint n (getUint (slice source a b))) as Hu.
  { intros a b n ?? ->. rewrite <- (zlen_slice source a b) by lia. apply getUint_range. }
  split; unfold parse_header; cbn;
    try (rewrite zlen_slice; lia); try (apply Hu; lia); apply byteAt_range.
Qed.

(** The encoder inverts the parser on a source whose reserved ranges are zero. *)
Lemma encode_parse source :
  zlen source = 256 ->
  slice source 16 32 = zeros 16 -> slice source 48 64 = zeros 16 ->
  slice source 64 80 = zeros 16 -> slice source 116 128 = zeros 12 ->
  put (encode_unsealed (parse_header source)) 0 (slice source 0 16) = source.
Proof.
  intros Hl Z1 Z2 Z3 Z4. set (h := parse_header source).
  assert (wf_header h) as Hwf by by apply wf_parse_header.
  assert (zlen (slice source 0 16) = 16) as Hcs by (rewrite zlen_slice; lia).
  destruct (sealed_read h _ Hwf Hcs) as [HF HG]. destruct_and! HF. destruct_and! HG.
  apply (segments_ext 256 _ _ header_cuts); [by apply zlen_sealed|done..|].
  set (e := put _ _ _) in *. cbn [header_cuts same_segments].
  repeat match goal with E : slice e ?a ?b = _ |- _ => rewrite E; clear E end.
  unfold h, parse_header. cbn [Size Epoch View Release Protocol Command Author
    BodyChecksum Group Fields].
  rewrite (byteAt_lit _ 114 115), (byteAt_lit _ 115 116) by lia.
  rewrite !putUint_getUint by (rewrite zlen_slice; lia).
  by repeat split.
Qed.

(** Decoding is canonical: the only encoding of an accepted header is the
    source it was decoded from. *)
Lemma encode_decode_header source g messageSizeMax memberCount h :
  DecodeHeader source g messageSizeMax memberCount = (h, RejectNone) ->
  wf_header h /\ EncodeHeader HeaderSize h = Ok (source, h).
Proof.
  intros [[] ->]%DecodeHeader_accepts.
  pose proof (wf_parse_header source acc_length0) as Hwf. split; [done|].
  rewrite EncodeHeader_Ok by (done || unfold HeaderSize; lia).
  pose proof (encode_parse source acc_length0 acc_extension0 acc_body_extension0
    acc_nonce0 acc_reserved0) as He.
  assert (slice (encode_unsealed (parse_header source)) 16 256 = slice source 16 256) as ->.
  { rewrite <- He at 2. rewrite sealed_tail; [done..|]. rewrite zlen_slice; lia. }
  rewrite acc_checksum0. cbn zeta. by rewrite He.
Qed.

Lemma decode_encode_header h messageSizeMax memberCount bytes h' :
  wf_header h ->
  EncodeHeader HeaderSize h = Ok (bytes, h') ->
  Size h <= messageSizeMax -> Author h < memberCount ->
  DecodeHeader bytes (Group h) messageSizeMax memberCount = (h', RejectNone).
Proof.
  intros Hwf (_ & Hs & Hp & He & Hc & -> & ->)%EncodeHeader_inv Hmax Ha.
  cbn [HeaderChecksum with_checksum].
  set (cs := ChecksumBytes _).
  assert (zlen cs = 16) as Hcs by apply zlen_ChecksumBytes.
  pose proof (parse_sealed h cs Hwf Hcs) as Hparse.
  apply DecodeHeader_accepts. rewrite Hparse. split; [|done].
  destruct (sealed_read h cs Hwf Hcs) as [_ (Z1 & Z2 & Z3 & Z4)].
  split; rewrite ?Hparse; try assumption.
  - by apply zlen_sealed.
  - rewrite sealed_tail by done. fold cs. symmetry. exact (f_equal HeaderChecksum Hparse).
  - exact (f_equal Group Hparse).
  - split; assumption.
Qed.

(** The header codec is a bijection on what it accepts.  A header that
    [EncodeHeader] accepts, and that fits the receiver's group, size limit and
    member count, decodes to itself with the checksum the encoder stored; and a
    source that [DecodeHeader] accepts is the encoding of what it decoded to,
    byte for byte, checksum included. *)
Theorem header_roundtrip h messageSizeMax memberCount :
  wf_header h ->
  (forall bytes h',
    EncodeHeader HeaderSize h = Ok (bytes, h') ->
    Size h <= messageSizeMax -> Author h < memberCount ->
    DecodeHeader bytes (Group h) messageSizeMax memberCount = (h', RejectNone)) /\
  (forall source g,
    DecodeHeader source g messageSizeMax memberCount = (h, RejectNone) ->
    EncodeHeader HeaderSize h = Ok (source, h)).
Proof.
  intros Hwf. split.
  - intros. by eapply decode_encode_header.
  - intros source g H. by apply encode_decode_header in H as [_ H].
Qed.

Definition sample_header : Header :=
  mkHeader (zeros 16) (zeros 16) (zeros 16) 256 0 3 1 0 CommandPing 2 (zeros 128).

Lemma wf_sample_header : wf_header sample_header.
Proof. split; vm_compute; (reflexivity || (split; [discriminate|reflexivity])). Qed.

Lemma header_roundtrip_witness :
  exists bytes h',
    EncodeHeader HeaderSize sample_header = Ok (bytes, h') /\
    DecodeHeader bytes (zeros 16) 1024 3 = (h', RejectNone).
Proof.
  eexists _, _. split; [vm_compute; reflexivity|].
  apply (proj1 (header_roundtrip sample_header 1024 3 wf_sample_header));
    vm_compute; (reflexivity || discriminate).
Defined.

(** ** Frames *)

Lemma slice_put_head (frame encoded : list byte) a b :
  zlen encoded = 256 -> 256 <= a -> 256 <= zlen frame ->
  slice (put frame 0 encoded) a b = slice frame a b.
Proof. intros. apply slice_put_after; lia. Qed.

Lemma SealFrame_inv frame h sealed h' :
  wf_header h -> SealFrame frame h = Ok (sealed, h') ->
  exists encoded,
    256 <= zlen frame < 2 ^ 32 /\ zlen encoded = 256 /\ sealed = put frame 0 encoded /\
    wf_header h' /\ Size h' = zlen frame /\
    BodyChecksum h' = ChecksumBytes (slice frame 256 (zlen frame)) /\
    EncodeHeader HeaderSize
      (with_body h (zlen frame) (ChecksumBytes (slice frame 256 (zlen frame)))) = Ok (encoded, h') /\
    wf_header (with_body h (zlen frame) (ChecksumBytes (slice frame 256 (zlen frame)))).
Proof.
  intros Hwf H. unfold SealFrame in H. step_guards H. unfold HeaderSize, MaxUint32 in G.
  split_bool. rewrite uwrap_small in H by (unfold is_uint; pose proof (zlen_nonneg frame); lia).
  set (h1 := with_body _ _ _) in *.
  assert (wf_header h1) as Hwf1.
  { destruct Hwf. split; unfold h1; cbn; try done; [apply zlen_ChecksumBytes|].
    unfold is_uint. lia. }
  apply result_bind_Ok in H as ([encoded h2] & He & E). injection E as <- <-.
  exists encoded. pose proof (EncodeHeader_wf _ _ _ _ Hwf1 He) as [Hwf2 Hlen].
  apply EncodeHeader_inv in He as He'. destruct He' as (_ & _ & _ & _ & _ & _ & ->).
  split; [lia|]. split; [exact Hlen|]. split; [reflexivity|]. split; [exact Hwf2|].
  split; [reflexivity|]. split; [reflexivity|]. split; [exact He|exact Hwf1].
Qed.

Lemma decode_sealed_frame frame h messageSizeMax memberCount sealed h' :
  wf_header h -> SealFrame frame h = Ok (sealed, h') -> zlen frame <= messageSizeMax -> Author h < memberCount ->
  DecodeFrame sealed (Group h) messageSizeMax memberCount = (h', slice frame HeaderSize (zlen frame), RejectNone).
Proof.
  intros Hwf Hs Hl Ha.
  destruct (SealFrame_inv _ _ _ _ Hwf Hs)
    as (encoded & Hf & Henc & -> & Hwf' & Hsize & Hbody & He & Hwf1).
  unfold DecodeFrame, HeaderSize. rewrite zlen_put by lia.
  destruct (Z.ltb_spec (zlen frame) 256); [lia|].
  rewrite slice_put_same by lia.
  pose proof (decode_encode_header _ messageSizeMax memberCount _ _ Hwf1 He Hl Ha) as Hd.
  cbn [Group with_body] in Hd. rewrite Hd.
  rewrite Hsize, Z.eqb_refl. simpl negb. cbn match.
  rewrite slice_put_head by lia. unfold ValidateBody, HeaderSize.
  rewrite zlen_slice by lia. rewrite Hsize, Hbody.
  replace (zlen frame - 256 + 256) with (zlen frame) by lia. rewrite Z.eqb_refl.
  by rewrite bool_decide_true.
Qed.

Lemma seal_decoded_frame frame g messageSizeMax memberCount decoded body :
  messageSizeMax < 2 ^ 32 -> DecodeFrame frame g messageSizeMax memberCount = (decoded, body, RejectNone) ->
  SealFrame frame decoded = Ok (frame, decoded).
Proof.
  intros Hmax Hd. unfold DecodeFrame, HeaderSize in Hd.
  destruct (Z.ltb_spec (zlen frame) 256); [discriminate|].
  destruct (DecodeHeader _ _ _ _) as [hd []] eqn:Eh; try discriminate.
  destruct (Z.eqb_spec (zlen frame) (Size hd)) as [El|]; [|discriminate]. simpl in Hd.
  destruct (ValidateBody _ _) eqn:Ev; try discriminate. injection Hd as <- <-.
  unfold ValidateBody in Ev. destruct (negb _); [discriminate|].
  destruct (bool_decide _) eqn:Eb; [|discriminate]. split_bool.
  apply DecodeHeader_accepts in Eh as Hacc. destruct Hacc as [[] Eq].
  destruct (encode_decode_header _ _ _ _ _ Eh) as [Hwfd Henc].
  unfold SealFrame, HeaderSize, MaxUint32.
  destruct (Z.ltb_spec (zlen frame) 256); [lia|].
  assert (zlen frame <= messageSizeMax) by (rewrite El, Eq; lia).
  destruct (Z.ltb_spec (2 ^ 32 - 1) (zlen frame)); [lia|]. cbn [orb].
  rewrite uwrap_small by (unfold is_uint; lia). rewrite El, Eb.
  assert (with_body hd (Size hd) (BodyChecksum hd) = hd) as -> by by destruct hd.
  unfold HeaderSize in Henc. rewrite Henc. cbn [mbind result_bind]. by rewrite put_slice by lia.
Qed.

(** C20: sealing and decoding frames are inverse.  A sealed frame decodes to
    the sealed header and the body it was built from, for every receiver whose
    group, size limit and member count it fits; and a frame that decodes is
    what sealing its header over it yields, byte for byte. *)
Theorem frame_roundtrip frame h messageSizeMax memberCount :
  wf_header h -> messageSizeMax < 2 ^ 32 ->
  (forall sealed h',
    SealFrame frame h = Ok (sealed, h') ->
    zlen frame <= messageSizeMax -> Author h < memberCount ->
    DecodeFrame sealed (Group h) messageSizeMax memberCount
      = (h', slice frame HeaderSize (zlen frame), RejectNone)) /\
  (forall g decoded body,
    DecodeFrame frame g messageSizeMax memberCount = (decoded, body, RejectNone) ->
    SealFrame frame decoded = Ok (frame, decoded)).
Proof.
  intros Hwf Hmax. split.
  - intros sealed h' Hs Hl Ha. by apply decode_sealed_frame.
  - intros g decoded body Hd. by eapply seal_decoded_frame.
Qed.

Lemma frame_roundtrip_witness :
  exists sealed h',
    SealFrame (zeros 260) sample_header = Ok (sealed, h') /\
    DecodeFrame sealed (zeros 16) 1024 3 = (h', zeros 4, RejectNone).
Proof.
  eexists _, _. split; [vm_compute; reflexivity|].
  apply (proj1 (frame_roundtrip (zeros 260) sample_header 1024 3 wf_sample_header eq_refl));
    vm_compute; (reflexivity || discriminate).
Defined.
