(* ===== verification/Validation.v ===== *)
(** * Semantic validation of messages

    [src/replication/protocol/validation.go]: what a replica demands of a
    decoded message beyond its framing, command by command, and what an
    accepted message guarantees to the handlers behind it. *)

From S2P Require Import Prelude Bytes Checksum Header.

Module ValidationContext.
Record t := mk {
  Authenticated : bool;
  ReplicaSource : bool;
  Sender : Z;
  ActiveCount : Z;
  MemberCount : Z;
  PipelineMax : Z;
  ReleaseHistoryMax : Z;
  ApplicationBatchSizeMax : Z;
  ApplicationReplySizeMax : Z;
  RepairRequestsMax : Z;
  CurrentRelease : Z;
  ClientReleaseMin : Z;
  Group : list byte;
  MessageSizeMax : Z;
}.
End ValidationContext.
Import ValidationContext (mk).
Abbreviation ValidationContext := ValidationContext.t.

(** A Go [case a, b, c:] arm *)
Definition oneOf (value : Z) (arms : list Z) : bool := existsb (Z.eqb value) arms.

(** The values of [offset] in [for offset := 0; offset < n; offset += step] *)
Definition offsets (step n : Z) : list Z :=
  (fun i => i * step) <$> seqZ 0 ((n + step - 1) / step).

Definition isZero16 (input : list byte) : bool := (zlen input =? 16) && allZero input.

Definition validAuthor (command author sender : Z) (replicaSource : bool) (primary : Z) : bool :=
  if oneOf command [CommandRequest; CommandClientPing; CommandBlock] then author =? 0
  else if oneOf command [CommandPrepare; CommandReply; CommandCommit; CommandView]
  then author =? primary
  else if oneOf command [CommandPing; CommandPong; CommandClientPong; CommandPrepareOK;
    CommandExitView; CommandJoinView; CommandGetView; CommandGetHeaders; CommandGetPrepare;
    CommandGetReply; CommandHeaders; CommandEviction; CommandGetBlocks]
  then replicaSource && (author =? sender)
  else false.

Definition requiresRelease (header : Header) : bool :=
  if oneOf (Command header) [CommandRequest; CommandReply; CommandPing; CommandPong;
    CommandClientPing; CommandClientPong; CommandEviction; CommandBlock]
  then true
  else if Command header =? CommandPrepare then
    let operation := byteAt (Fields header) 124 in
    negb (operation =? OperationRoot) && negb (operation =? OperationReserved)
  else false.

Definition validRelease (header : Header) (context : ValidationContext) : bool :=
  if requiresRelease header
  then negb (Release header =? 0)
       && (Release header <=? ValidationContext.CurrentRelease context)
  else Release header =? 0.

Definition bitsWithin (bits : list byte) (count : Z) : bool :=
  forallb (fun bit => Z.land (byteAt bits (bit / 8)) (Z.shiftl 1 (bit mod 8)) =? 0)
    (seqZ count (zlen bits * 8 - count)).

Definition validClientOperation (operation : Z) : bool :=
  (operation =? OperationReconfigure) || (operation =? OperationNoop)
  || (OperationApplicationMin <=? operation).

Definition validPreparedOperation (operation : Z) : bool :=
  (operation =? OperationRegister) || (operation =? OperationReconfigure)
  || (operation =? OperationPulse) || (operation =? OperationUpgrade)
  || (operation =? OperationNoop) || (OperationApplicationMin <=? operation).

Definition validateOperationBody (operation : Z) (body : list byte) (maximum : Z)
    (prepared : bool) : RejectReason :=
  if maximum <? u32 (zlen body) then RejectBodyShape else
  if oneOf operation [OperationNoop; OperationPulse] then
    if negb (zlen body =? 0) then RejectBodyShape else RejectNone
  else if operation =? OperationUpgrade then
    if negb (zlen body =? 16) || (uint32At body 0 =? 0) || negb (allZero (slice body 4 (zlen body)))
    then RejectBodyShape else RejectNone
  else if operation =? OperationReconfigure then
    if negb (zlen body =? 256) then RejectBodyShape else
    if negb prepared && negb (uint32At body 252 =? 0) then RejectBodyShape else RejectNone
  else if operation <? OperationApplicationMin then RejectCommandFields else RejectNone.

(** The loop of [validatePing]: [n] iterations from [index]. *)
Fixpoint validatePing_loop (body : list byte) (headerRelease count : Z) (n : nat)
    (index previous : Z) (containsHeaderRelease : bool) : RejectReason :=
  match n with
  | O => if negb containsHeaderRelease then RejectBodyShape else RejectNone
  | S n =>
      let release := uint32At body (index * 4) in
      if index <? count then
        if (release =? 0) || (release <=? previous) then RejectBodyShape
        else validatePing_loop body headerRelease count n (index + 1) release
               (containsHeaderRelease || (release =? headerRelease))
      else if negb (release =? 0) then RejectBodyShape
      else validatePing_loop body headerRelease count n (index + 1) previous
             containsHeaderRelease
  end.

Definition validatePing (header : Header) (body : list byte) (context : ValidationContext)
    : RejectReason :=
  let fields := Fields header in
  let count := getUint (slice fields 32 34) in
  let historyMax := ValidationContext.ReleaseHistoryMax context in
  if (getUint (slice fields 24 32) =? 0) || (count =? 0) || (historyMax <? count)
     || negb (allZero (slice fields 34 128)) || negb (zlen body =? historyMax * 4)
  then RejectCommandFields
  else validatePing_loop body (Release header) count (Z.to_nat historyMax) 0 0 false.

Definition validateRequest (header : Header) (body : list byte) (context : ValidationContext)
    : RejectReason :=
  let fields := Fields header in
  if negb (allZero (slice fields 16 32)) || negb (allZero (slice fields 69 72))
     || negb (allZero (slice fields 76 128))
  then RejectCommandFields else
  let session := getUint (slice fields 48 56) in
  let request := getUint (slice fields 64 68) in
  let operation := byteAt fields 68 in
  if operation =? OperationRegister then
    let invalidIdentity := negb (isZero16 (slice fields 0 16)) || negb (session =? 0)
      || negb (request =? 0) in
    let invalidBodyLength := negb (zlen body =? 0) && negb (zlen body =? 256) in
    if invalidIdentity || invalidBodyLength then RejectCommandFields else
    if (zlen body =? 256) && negb (allZero body) then RejectBodyShape else RejectNone
  else if (session =? 0) || (request =? 0) || negb (validClientOperation operation)
  then RejectCommandFields
  else validateOperationBody operation body
         (ValidationContext.ApplicationBatchSizeMax context) false.

Definition validRootPrepare (fields body : list byte) (op commit timestamp : Z) : bool :=
  let validProgress := (op =? 0) && (commit =? 0) && (timestamp =? 0) in
  let validIdentity := isZero16 (slice fields 0 16) && isZero16 (slice fields 32 48)
    && isZero16 (slice fields 64 96) in
  validProgress && validIdentity && allZero (slice fields 120 124) && (zlen body =? 0).

Definition validatePrepare (header : Header) (body : list byte) (context : ValidationContext)
    : RejectReason :=
  let fields := Fields header in
  if negb (allZero (slice fields 16 32)) || negb (allZero (slice fields 48 64))
     || negb (allZero (slice fields 125 128))
  then RejectCommandFields else
  let op := getUint (slice fields 96 104) in
  let commit := getUint (slice fields 104 112) in
  let timestamp := getUint (slice fields 112 120) in
  let operation := byteAt fields 124 in
  if (operation =? OperationRoot) || (operation =? OperationReserved) then
    if negb (validRootPrepare fields body op commit timestamp) then RejectCommandFields
    else RejectNone
  else if (op =? 0) || (op <=? commit) || (timestamp =? 0)
          || negb (validPreparedOperation operation)
  then RejectCommandFields
  else if operation =? OperationRegister then
    if negb (getUint (slice fields 120 124) =? 0) || isZero16 (slice fields 80 96)
       || negb (zlen body =? 256)
       || negb (uint32At body 0 =? ValidationContext.ApplicationBatchSizeMax context)
       || negb (allZero (slice body 4 (zlen body)))
    then RejectBodyShape else RejectNone
  else validateOperationBody operation body
         (ValidationContext.ApplicationBatchSizeMax context) true.

Definition validatePrepareOK (header : Header) (body : list byte) : RejectReason :=
  let fields := Fields header in
  let op := getUint (slice fields 96 104) in
  let commitMin := getUint (slice fields 104 112) in
  let invalidIdentity := negb (allZero (slice fields 16 32))
    || negb (allZero (slice fields 48 64)) in
  let invalidProgress := (op =? 0) || (op <=? commitMin)
    || (getUint (slice fields 112 120) =? 0) in
  let invalidOperation := byteAt fields 124 <=? OperationRoot in
  if invalidIdentity || invalidProgress || invalidOperation
     || negb (allZero (slice fields 125 128)) || negb (zlen body =? 0)
  then RejectCommandFields else RejectNone.

Definition validateReply (header : Header) (body : list byte) (context : ValidationContext)
    : RejectReason :=
  let fields := Fields header in
  let op := getUint (slice fields 80 88) in
  let commit := getUint (slice fields 88 96) in
  let invalidIdentity := negb (allZero (slice fields 16 32))
    || negb (allZero (slice fields 48 64)) || isZero16 (slice fields 64 80) in
  let invalidProgress := (op =? 0) || negb (op =? commit)
    || (getUint (slice fields 96 104) =? 0) in
  let invalidOperation := negb (validPreparedOperation (byteAt fields 108)) in
  let invalidBody := negb (allZero (slice fields 109 128))
    || (ValidationContext.ApplicationReplySizeMax context <? u32 (zlen body)) in
  if invalidIdentity || invalidProgress || invalidOperation || invalidBody
  then RejectCommandFields else RejectNone.

Definition validateEmbeddedPrepareHeaders (body : list byte) (context : ValidationContext)
    (allowBlank : bool) : RejectReason :=
  if forallb (fun offset =>
       let encoded := slice body offset (offset + HeaderSize) in
       (allowBlank && allZero encoded) ||
       let '(header, reason) := DecodeHeader encoded (ValidationContext.Group context)
         (ValidationContext.MessageSizeMax context)
         (ValidationContext.MemberCount context) in
       bool_decide (reason = RejectNone) && (Command header =? CommandPrepare))
     (offsets HeaderSize (zlen body))
  then RejectNone else RejectBodyShape.

Definition validateJoinView (header : Header) (body : list byte) (context : ValidationContext)
    : RejectReason :=
  let fields := Fields header in
  let head := getUint (slice fields 32 40) in
  let commit := getUint (slice fields 40 48) in
  let checkpoint := getUint (slice fields 48 56) in
  let entryCount := zlen body / HeaderSize in
  let invalidProgress := (head <? commit) || (commit <? checkpoint) in
  let invalidBody := (zlen body =? 0) || negb (zlen body mod HeaderSize =? 0)
    || (ValidationContext.PipelineMax context + 1 <? entryCount) in
  if invalidProgress || invalidBody || negb (allZero (slice fields 60 128))
  then RejectBodyShape else
  if negb (bitsWithin (slice fields 0 16) entryCount)
     || negb (bitsWithin (slice fields 16 32) entryCount)
  then RejectCommandFields
  else validateEmbeddedPrepareHeaders body context true.

Definition validateView (header : Header) (body : list byte) (context : ValidationContext)
    : RejectReason :=
  let fields := Fields header in
  let head := getUint (slice fields 16 24) in
  let commit := getUint (slice fields 24 32) in
  let checkpoint := getUint (slice fields 32 40) in
  if (head <? commit) || (commit <? checkpoint) || negb (allZero (slice fields 40 128))
  then RejectCommandFields else
  if (zlen body <? 1024) || negb ((zlen body - 1024) mod HeaderSize =? 0)
     || (ValidationContext.PipelineMax context + 1 <? (zlen body - 1024) / HeaderSize)
  then RejectBodyShape else
  if zlen body =? 1024 then RejectNone
  else validateEmbeddedPrepareHeaders (slice body 1024 (zlen body)) context true.

Definition validateGetBlocks (fields body : list byte) (context : ValidationContext)
    : RejectReason :=
  if negb (allZero fields) || (zlen body =? 0) || negb (zlen body mod 32 =? 0)
     || (ValidationContext.RepairRequestsMax context <? u32 (zlen body / 32))
  then RejectBodyShape
  else if forallb (fun offset =>
      negb (getUint (slice body (offset + 16) (offset + 24)) =? 0)
      && allZero (slice body (offset + 24) (offset + 32)))
    (offsets 32 (zlen body))
  then RejectNone else RejectBodyShape.

Definition validGetReply (fields body : list byte) : bool :=
  let validIdentity := negb (isZero16 (slice fields 0 16)) && allZero (slice fields 16 32)
    && negb (isZero16 (slice fields 32 48)) in
  let validOperation := negb (getUint (slice fields 48 56) =? 0)
    && allZero (slice fields 56 128) in
  validIdentity && validOperation && (zlen body =? 0).

(** [if bad { return reason }] followed by the final [return RejectNone] *)
Definition rejectIf (bad : bool) (reason : RejectReason) : RejectReason :=
  if bad then reason else RejectNone.

Definition validateCommand (header : Header) (body : list byte) (context : ValidationContext)
    : RejectReason :=
  let fields := Fields header in
  let command := Command header in
  let hasBody := negb (zlen body =? 0) in
  if command =? CommandPing then validatePing header body context
  else if command =? CommandPong then
    rejectIf (negb (allZero (slice fields 16 128)) || hasBody
              || (getUint (slice fields 0 8) =? 0)) RejectCommandFields
  else if command =? CommandClientPing then
    rejectIf (isZero16 (slice fields 0 16) || (getUint (slice fields 16 24) =? 0)
              || negb (allZero (slice fields 32 128)) || hasBody) RejectCommandFields
  else if command =? CommandClientPong then
    rejectIf ((getUint (slice fields 0 8) =? 0) || negb (allZero (slice fields 8 128))
              || hasBody) RejectCommandFields
  else if command =? CommandRequest then validateRequest header body context
  else if command =? CommandPrepare then validatePrepare header body context
  else if command =? CommandPrepareOK then validatePrepareOK header body
  else if command =? CommandReply then validateReply header body context
  else if command =? CommandCommit then
    let checkpointOp := getUint (slice fields 48 56) in
    let commit := getUint (slice fields 56 64) in
    rejectIf ((commit <? checkpointOp) || (getUint (slice fields 64 72) =? 0)
              || negb (allZero (slice fields 72 128)) || hasBody) RejectCommandFields
  else if command =? CommandExitView then
    rejectIf (negb (allZero fields) || hasBody) RejectCommandFields
  else if command =? CommandJoinView then validateJoinView header body context
  else if command =? CommandView then validateView header body context
  else if command =? CommandGetView then
    rejectIf (isZero16 (slice fields 0 16) || negb (allZero (slice fields 16 128)) || hasBody)
      RejectCommandFields
  else if command =? CommandGetHeaders then
    rejectIf ((getUint (slice fields 8 16) <? getUint (slice fields 0 8))
              || negb (allZero (slice fields 16 128)) || hasBody) RejectCommandFields
  else if command =? CommandHeaders then
    if negb (allZero fields) || (zlen body =? 0) || negb (zlen body mod HeaderSize =? 0)
       || (64 <? zlen body / HeaderSize)
    then RejectBodyShape
    else validateEmbeddedPrepareHeaders body context false
  else if command =? CommandGetPrepare then
    let checksumZero := isZero16 (slice fields 0 16) in
    rejectIf (negb (allZero (slice fields 16 32)) || negb (allZero (slice fields 40 128))
              || hasBody || Bool.eqb (View header =? 0) checksumZero) RejectCommandFields
  else if command =? CommandGetReply then
    rejectIf (negb (validGetReply fields body)) RejectCommandFields
  else if command =? CommandEviction then
    let reason := byteAt fields 127 in
    rejectIf (isZero16 (slice fields 0 16) || negb (allZero (slice fields 16 127))
              || (reason <? EvictionNoSession) || (EvictionSessionReleaseMismatch <? reason)
              || hasBody) RejectCommandFields
  else if command =? CommandGetBlocks then validateGetBlocks fields body context
  else if command =? CommandBlock then
    let blockType := byteAt fields 112 in
    rejectIf ((getUint (slice fields 96 104) =? 0) || (blockType <? BlockFreeSet)
              || (BlockValue <? blockType) || negb (allZero (slice fields 113 128))
              || (zlen body =? 0)) RejectCommandFields
  else RejectCommand.

Definition ValidateSemantics (header : Header) (body : list byte) (context : ValidationContext)
    : RejectReason :=
  if negb (ValidationContext.Authenticated context) then RejectAuthentication else
  if (ValidationContext.ActiveCount context =? 0)
     || (ValidationContext.MemberCount context <? ValidationContext.ActiveCount context)
  then RejectAuthor else
  if ValidationContext.ReplicaSource context
     && (ValidationContext.MemberCount context <=? ValidationContext.Sender context)
  then RejectAuthor else
  if negb (ValidationContext.ReplicaSource context)
     && negb (Command header =? CommandRequest) && negb (Command header =? CommandClientPing)
  then RejectAuthentication else
  let primary := u8 (View header mod ValidationContext.ActiveCount context) in
  if negb (validAuthor (Command header) (Author header) (ValidationContext.Sender context)
             (ValidationContext.ReplicaSource context) primary)
  then RejectAuthor else
  if negb (validRelease header context) then RejectCommandFields else
  validateCommand header body context.

(** ** Loops *)

Lemma bitsWithin_spec bits count :
  0 <= count -> bitsWithin bits count = true <-> getUint bits < 2 ^ count.
Proof.
  intros Hc. pose proof (getUint_range bits) as Hr. pose proof (zlen_nonneg bits) as Hl.
  unfold bitsWithin.
  rewrite forallb_forall. transitivity (forall i, count <= i -> Z.testbit (getUint bits) i = false).
  - split.
    + intros H i Hi. destruct (decide (i < zlen bits * 8)).
      * rewrite testbit_getUint by lia.
        specialize (H i). rewrite <- list_elem_of_In, elem_of_seqZ in H.
        specialize (H ltac:(lia)). apply Z.eqb_eq in H.
        apply (f_equal (fun z => Z.testbit z (i mod 8))) in H.
        rewrite Z.land_spec, Z.shiftl_spec, Z.sub_diag, andb_true_r, Z.bits_0 in H by div_lia.
        done.
      * apply (proj1 (Z.bounded_iff_bits_nonneg (8 * zlen bits) (getUint bits) ltac:(lia) ltac:(lia)));
          lia.
    + intros H i Hi%list_elem_of_In%elem_of_seqZ. apply Z.eqb_eq.
      specialize (H i ltac:(lia)). rewrite testbit_getUint in H by lia.
      apply Z.bits_inj_0. intros j. rewrite Z.land_spec, Z.shiftl_1_l.
      destruct (decide (j = i mod 8)) as [->|]; [by rewrite H|].
      rewrite Z.pow2_bits_false by done. apply andb_false_r.
  - symmetry. apply Z.bounded_iff_bits_nonneg; lia.
Qed.

Lemma offsets_multiple step n i :
  0 < step -> n mod step = 0 -> i ∈ offsets step n <->
  exists k, 0 <= k < n / step /\ i = k * step.
Proof.
  intros Hs Hn. unfold offsets. rewrite list_elem_of_fmap.
  replace ((n + step - 1) / step) with (n / step).
  - split; intros (k & A & B); exists k; rewrite elem_of_seqZ in *; naive_solver lia.
  - rewrite (Z.div_mod n step) at 2 by lia. rewrite Hn.
    replace (step * (n / step) + 0 + step - 1) with (n / step * step + (step - 1)) by lia.
    rewrite Z.div_add_l, (Z.div_small (step - 1)) by lia. lia.
Qed.

(** The [i]th release of a ping body. *)
Definition pingRelease (body : list byte) (i : Z) : Z := uint32At body (i * 4).

Lemma pingRelease_nonneg body i : 0 <= pingRelease body i.
Proof. apply getUint_range. Qed.

Lemma validatePing_loop_spec body R count n index previous contains :
  0 <= previous ->
  validatePing_loop body R count n index previous contains = RejectNone <->
  (forall i, index <= i < index + Z.of_nat n ->
     if i <? count
     then (if i =? index then previous else pingRelease body (i - 1)) < pingRelease body i
     else pingRelease body i = 0) /\
  (contains = true \/
   exists i, index <= i < index + Z.of_nat n /\ i < count /\ pingRelease body i = R).
Proof.
  revert index previous contains. induction n as [|n IH]; intros index previous contains Hp.
  - cbn [validatePing_loop]. destruct contains; simpl.
    + split; [|done]. intros _. split; [intros; lia|by left].
    + split; [done|]. intros [_ [?|(i & ? & _)]]; [done|lia].
  - cbn [validatePing_loop]. fold (pingRelease body index).
    pose proof (pingRelease_nonneg body index) as Hr.
    assert (forall P : Z -> Prop,
      (forall i, index <= i < index + Z.of_nat (S n) -> P i) <->
      P index /\ forall i, index + 1 <= i < index + 1 + Z.of_nat n -> P i) as Hsplit.
    { intros P. split; [intros H; split; [|intros i ?]; apply H; lia|].
      intros [H0 H] i Hi. destruct (decide (i = index)) as [->|]; [done|apply H; lia]. }
    rewrite Hsplit, Z.eqb_refl. clear Hsplit.
    destruct (Z.ltb_spec index count).
    + destruct ((_ =? 0) || (_ <=? previous)) eqn:E.
      { split; [done|]. intros [[Hlt _] _]. apply orb_true_iff in E.
        destruct E as [E|E]; split_bool; lia. }
      split_bool. rewrite IH by lia. f_equiv.
      * split; [intros H'; split; [lia|]|intros [_ H']]; intros i Hi; specialize (H' i Hi);
          destruct (Z.eqb_spec i index); destruct (Z.eqb_spec i (index + 1));
          subst; rewrite ?Z.add_simpl_r in *; done || lia.
      * rewrite orb_true_iff, Z.eqb_eq. split.
        -- intros [[?|?]|(i & ? & ? & ?)]; [by left|right; exists index|right; exists i]; lia.
        -- intros [?|(i & ? & ? & ?)]; [by left; left|].
           destruct (decide (i = index)) as [->|]; [by left; right|right; exists i; lia].
    + destruct (Z.eqb_spec (pingRelease body index) 0) as [E|E]; simpl.
      2: { split; [done|]. intros [[? _] _]. done. }
      rewrite IH by lia. f_equiv.
      * split; [intros H'; split; [done|]|intros [_ H']]; intros i Hi; specialize (H' i Hi);
          destruct (Z.ltb_spec i count); lia || done.
      * split; (intros [?|(i & ? & ? & ?)]; [by left|right; exists i; lia]).
Qed.

(** ** What an accepted message guarantees *)

Ltac dispatch Hc := unfold validateCommand; rewrite Hc; reflexivity.

Lemma validateCommand_Ping h body c :
  Command h = CommandPing -> validateCommand h body c = validatePing h body c.
Proof. intros Hc. dispatch Hc. Qed.

Lemma validateCommand_Prepare h body c :
  Command h = CommandPrepare -> validateCommand h body c = validatePrepare h body c.
Proof. intros Hc. dispatch Hc. Qed.

Lemma validateCommand_JoinView h body c :
  Command h = CommandJoinView -> validateCommand h body c = validateJoinView h body c.
Proof. intros Hc. dispatch Hc. Qed.

Lemma ValidateSemantics_inv h body c :
  ValidateSemantics h body c = RejectNone ->
  ValidationContext.Authenticated c = true /\
  (ValidationContext.ActiveCount c <> 0 /\
   ValidationContext.ActiveCount c <= ValidationContext.MemberCount c) /\
  (if ValidationContext.ReplicaSource c
   then ValidationContext.Sender c < ValidationContext.MemberCount c
   else Command h = CommandRequest \/ Command h = CommandClientPing) /\
  validAuthor (Command h) (Author h) (ValidationContext.Sender c)
    (ValidationContext.ReplicaSource c)
    (u8 (View h mod ValidationContext.ActiveCount c)) = true /\
  validRelease h c = true /\
  validateCommand h body c = RejectNone.
Proof.
  unfold ValidateSemantics. intros H.
  repeat match type of H with
  | (if ?b then _ else _) = _ => destruct b eqn:?; [discriminate H|]
  end.
  split_bool. repeat split; try done; try lia.
  destruct (ValidationContext.ReplicaSource c); simpl in *; split_bool; [lia|].
  destruct (Z.eqb_spec (Command h) CommandRequest); [by left|].
  destruct (Z.eqb_spec (Command h) CommandClientPing); [by right|done].
Qed.

Lemma oneOf_true value arms : oneOf value arms = true <-> value ∈ arms.
Proof.
  unfold oneOf. rewrite existsb_exists. setoid_rewrite Z.eqb_eq.
  setoid_rewrite <- list_elem_of_In. naive_solver.
Qed.

Lemma oneOf_apart value arms others :
  value ∈ arms -> value ∈ others ->
  forallb (fun arm => negb (oneOf arm others)) arms = true -> False.
Proof.
  rewrite forallb_forall. intros Hv%list_elem_of_In Ho%oneOf_true H.
  specialize (H _ Hv). rewrite Ho in H. discriminate H.
Qed.

(** C21: an accepted message comes from where it says it comes from.  The
    channel is authenticated; a client can only inject requests and client
    pings; a message only the primary of a view may send carries that
    primary's index; every message a replica sends in its own name carries the
    index of the replica behind the channel, which is a member; and a
    non-zero release is never newer than the receiver's. *)
Theorem accepted_provenance h body c :
  is_u8 (ValidationContext.ActiveCount c) -> wf_header h ->
  ValidateSemantics h body c = RejectNone ->
  ValidationContext.Authenticated c = true /\
  (ValidationContext.ReplicaSource c = false ->
     (Command h = CommandRequest \/ Command h = CommandClientPing) /\ Author h = 0) /\
  (Command h ∈ [CommandPrepare; CommandReply; CommandCommit; CommandView] ->
     Author h = View h mod ValidationContext.ActiveCount c) /\
  (Command h ∉ [CommandPrepare; CommandReply; CommandCommit; CommandView;
     CommandRequest; CommandClientPing; CommandBlock] ->
     Author h = ValidationContext.Sender c /\
     Author h < ValidationContext.MemberCount c) /\
  Release h <= Z.max 0 (ValidationContext.CurrentRelease c).
Proof.
  intros Ha Hwf (Hau & Hac & Hsrc & Hva & Hvr & _)%ValidateSemantics_inv.
  assert (u8 (View h mod ValidationContext.ActiveCount c)
          = View h mod ValidationContext.ActiveCount c) as Hp.
  { apply uwrap_small. unfold is_uint in *.
    pose proof (Z.mod_pos_bound (View h) (ValidationContext.ActiveCount c)). lia. }
  rewrite Hp in Hva. unfold validAuthor in Hva. split; [done|].
  destruct (oneOf _ [CommandRequest; _; _]) eqn:E1.
  { apply oneOf_true in E1. split_bool. split; [|split; [|split]].
    - intros Hf. rewrite Hf in Hsrc. done.
    - intros Hin. destruct (oneOf_apart _ _ _ E1 Hin eq_refl).
    - intros Hn. exfalso. set_solver.
    - unfold validRelease in Hvr. destruct (requiresRelease h); split_bool; lia. }
  assert (ValidationContext.ReplicaSource c = true) as Hs.
  { destruct (ValidationContext.ReplicaSource c); [done|].
    destruct Hsrc as [Hc|Hc]; rewrite Hc in E1; discriminate E1. }
  rewrite Hs in *. split; [done|].
  assert (Release h <= Z.max 0 (ValidationContext.CurrentRelease c)).
  { unfold validRelease in Hvr. destruct (requiresRelease h); split_bool; lia. }
  destruct (oneOf _ [CommandPrepare; _; _; _]) eqn:E2.
  { apply oneOf_true in E2. split_bool. split; [done|]. split; [|done].
    intros Hn. exfalso. set_solver. }
  split; [by intros Hin%oneOf_true; rewrite Hin in E2|]. split; [|done]. intros _.
  destruct (oneOf _ _) in Hva; [|done]. simpl in Hva. split_bool. lia.
Qed.

Definition sample_context : ValidationContext :=
  ValidationContext.mk true true 2 3 3 8 4 1024 1024 16 5 1 (zeros 16) 4096.

Lemma accepted_provenance_witness :
  let h := mkHeader (zeros 16) (zeros 16) (zeros 16) 256 0 7 0 0 CommandExitView 2 (zeros 128) in
  ValidateSemantics h [] sample_context = RejectNone /\ Author h = 2.
Proof.
  intros h.
  assert (ValidateSemantics h [] sample_context = RejectNone) as H by reflexivity.
  split; [exact H|].
  refine (proj1 (proj1 (proj2 (proj2 (proj2 (accepted_provenance h [] sample_context _ _ H)))) _)).
  - split; [discriminate|reflexivity].
  - split; vm_compute; (reflexivity || (split; [discriminate|reflexivity])).
  - apply (bool_decide_unpack _). vm_compute. exact I.
Defined.

(** The release list of a ping: a strictly increasing, non-empty history that
    contains the sender's release, padded with zeros. *)
Definition ping_history (h : Header) (body : list byte) (historyMax : Z) : Prop :=
  let count := getUint (slice (Fields h) 32 34) in
  0 < count <= historyMax /\
  0 < pingRelease body 0 /\
  (forall i j, 0 <= i < j -> j < count -> pingRelease body i < pingRelease body j) /\
  (forall i, count <= i < historyMax -> pingRelease body i = 0) /\
  (exists i, 0 <= i < count /\ pingRelease body i = Release h).

Lemma increasing_releases body count :
  (forall i, 0 < i < count -> pingRelease body (i - 1) < pingRelease body i) ->
  forall i j, 0 <= i < j -> j < count -> pingRelease body i < pingRelease body j.
Proof.
  intros H i j Hij Hj. remember (Z.to_nat (j - i - 1)) as k eqn:Ek.
  revert j Hij Hj Ek. induction k as [|k IH]; intros j Hij Hj Ek.
  - specialize (H j ltac:(lia)). by replace (j - 1) with i in H by lia.
  - specialize (H j ltac:(lia)). specialize (IH (j - 1) ltac:(lia) ltac:(lia) ltac:(lia)). lia.
Qed.

(** [validatePing] accepts exactly the pings whose nonce is set, whose
    reserved fields are zero and whose body is a release history. *)
Theorem validatePing_spec h body c :
  validatePing h body c = RejectNone <->
  getUint (slice (Fields h) 24 32) <> 0 /\
  allZero (slice (Fields h) 34 128) = true /\
  zlen body = ValidationContext.ReleaseHistoryMax c * 4 /\
  ping_history h body (ValidationContext.ReleaseHistoryMax c).
Proof.
  unfold validatePing, ping_history. set (count := getUint (slice (Fields h) 32 34)).
  set (m := ValidationContext.ReleaseHistoryMax c).
  assert (0 <= count) as Hc by apply getUint_range.
  split.
  - intros H. destruct (_ || _) eqn:E; [discriminate|]. split_bool.
    apply validatePing_loop_spec in H as [Hl [Hf|(i & Hi & Hic & HR)]]; [discriminate Hf| |lia].
    rewrite Z.add_0_l, Z2Nat.id in * by lia.
    assert (forall i, 0 < i < count -> pingRelease body (i - 1) < pingRelease body i) as Hinc.
    { intros j Hj. specialize (Hl j ltac:(lia)).
      destruct (Z.ltb_spec j count); [|lia]. destruct (Z.eqb_spec j 0); [lia|done]. }
    repeat split; try done; try lia.
    + specialize (Hl 0 ltac:(lia)). destruct (Z.ltb_spec 0 count); [done|lia].
    + by apply increasing_releases.
    + intros j Hj. specialize (Hl j ltac:(lia)). destruct (Z.ltb_spec j count); [lia|done].
    + exists i. by split; [lia|].
  - intros (Hn & Hz & Hb & Hcnt & H0 & Hinc & Hpad & i & Hi & HR).
    rewrite Hz, Hb, Z.eqb_refl. simpl.
    destruct (Z.eqb_spec (getUint (slice (Fields h) 24 32)) 0); [done|].
    destruct (Z.eqb_spec count 0); [lia|]. destruct (Z.ltb_spec m count); [lia|]. simpl.
    apply validatePing_loop_spec; [done|]. rewrite Z.add_0_l, Z2Nat.id by lia. split.
    + intros j Hj. destruct (Z.ltb_spec j count); [|apply Hpad; lia].
      destruct (Z.eqb_spec j 0) as [->|]; [done|]. apply Hinc; lia.
    + right. exists i. split; [lia|]. by split; [lia|].
Qed.

(** The entries of a view-change body: each is blank, or the encoding of a
    prepare header of the group. *)
Definition prepare_entry (c : ValidationContext) (encoded : list byte) : Prop :=
  encoded = zeros HeaderSize \/
  exists h, EncodeHeader HeaderSize h = Ok (encoded, h) /\ wf_header h /\
    Command h = CommandPrepare /\ Group h = ValidationContext.Group c.

Lemma embedded_entries body c allowBlank :
  zlen body mod HeaderSize = 0 ->
  validateEmbeddedPrepareHeaders body c allowBlank = RejectNone ->
  forall k, 0 <= k < zlen body / HeaderSize ->
    prepare_entry c (slice body (k * HeaderSize) (k * HeaderSize + HeaderSize)).
Proof.
  unfold validateEmbeddedPrepareHeaders. intros Hm H k Hk.
  destruct (forallb _ _) eqn:E; [clear H|discriminate].
  rewrite forallb_forall in E. specialize (E (k * HeaderSize)).
  rewrite <- list_elem_of_In, offsets_multiple in E by done.
  specialize (E ltac:(by exists k)). cbv zeta in E.
  assert (k * HeaderSize + HeaderSize <= zlen body) as Hle.
  { unfold HeaderSize in *. div_lia. }
  set (encoded := slice _ _ _) in *.
  assert (zlen encoded = HeaderSize) as Hlen.
  { subst encoded. rewrite zlen_slice; unfold HeaderSize in *; lia. }
  apply orb_true_iff in E as [E|E].
  - left. split_bool. rewrite <- Hlen. by apply allZero_true.
  - right. destruct (DecodeHeader _ _ _ _) as [h r] eqn:Ed. split_bool. subst r.
    exists h. pose proof Ed as Ed'. apply encode_decode_header in Ed as [Hwf He].
    apply DecodeHeader_accepts in Ed' as [[] ->]. done.
Qed.

(** A join-view message that passes validation has ordered progress
    fields, between one and pipeline + 1 entries, presence and nack bitsets
    with no bit at or beyond the number of entries, and only blank or
    well-sealed prepare entries of the receiver's group. *)
Theorem accepted_join_view h body c :
  Command h = CommandJoinView ->
  ValidateSemantics h body c = RejectNone ->
  let entries := zlen body / HeaderSize in
  getUint (slice (Fields h) 48 56) <= getUint (slice (Fields h) 40 48)
    <= getUint (slice (Fields h) 32 40) /\
  1 <= entries <= ValidationContext.PipelineMax c + 1 /\
  getUint (slice (Fields h) 0 16) < 2 ^ entries /\
  getUint (slice (Fields h) 16 32) < 2 ^ entries /\
  forall k, 0 <= k < entries ->
    prepare_entry c (slice body (k * HeaderSize) (k * HeaderSize + HeaderSize)).
Proof.
  intros Hc (_ & _ & _ & _ & _ & H)%ValidateSemantics_inv.
  rewrite validateCommand_JoinView in H by done. unfold validateJoinView in H.
  repeat match type of H with
  | (if ?b then _ else _) = _ => destruct b eqn:?; [discriminate H|]
  end.
  split_bool. pose proof (zlen_nonneg body) as Hn.
  assert (0 <= zlen body / HeaderSize) by (apply Z.div_pos; unfold HeaderSize; lia).
  assert (zlen body / HeaderSize <> 0) by (unfold HeaderSize in *; div_lia).
  intros entries. subst entries. split; [lia|]. split; [lia|].
  rewrite <- !bitsWithin_spec by done. split; [done|]. split; [done|].
  by apply embedded_entries with (allowBlank := true).
Qed.

Lemma accepted_join_view_witness :
  let h := mkHeader (zeros 16) (zeros 16) (zeros 16) 512 0 7 0 0 CommandJoinView 2
    (put (zeros 128) 0 [Byte.x01]) in
  ValidateSemantics h (zeros 256) sample_context = RejectNone /\
  getUint (slice (Fields h) 0 16) < 2 ^ (zlen (zeros 256) / HeaderSize).
Proof.
  intros h.
  assert (ValidateSemantics h (zeros 256) sample_context = RejectNone) as H
    by (vm_compute; reflexivity).
  split; [exact H|].
  exact (proj1 (proj2 (proj2 (accepted_join_view h (zeros 256) sample_context eq_refl H)))).
Defined.

(** C40: no root prepare is ever accepted.  [validRootPrepare] tests the
    32 bytes of the client and parent identities with a predicate that only
    holds of 16-byte slices, so a prepare whose operation is root or reserved
    is rejected whatever its fields are. *)
Theorem root_prepare_rejected h body c :
  wf_header h -> Command h = CommandPrepare ->
  byteAt (Fields h) 124 = OperationRoot \/ byteAt (Fields h) 124 = OperationReserved ->
  ValidateSemantics h body c <> RejectNone.
Proof.
  intros Hwf Hc Ho (_ & _ & _ & _ & _ & H)%ValidateSemantics_inv.
  rewrite validateCommand_Prepare in H by done. unfold validatePrepare in H.
  destruct (_ || _); [discriminate|].
  assert ((byteAt (Fields h) 124 =? OperationRoot)
          || (byteAt (Fields h) 124 =? OperationReserved) = true) as E.
  { rewrite orb_true_iff, !Z.eqb_eq. done. }
  rewrite E in H. unfold validRootPrepare, isZero16 in H.
  rewrite (zlen_slice _ 64 96) in H by (destruct Hwf; lia).
  change (96 - 64 =? 16) with false in H. rewrite !andb_false_r in H. discriminate H.
Qed.

(** The root prepare of a formatted group: every field zero but the operation. *)
Lemma root_prepare_rejected_witness :
  let h := mkHeader (zeros 16) (ChecksumBytes []) (zeros 16) 256 0 0 0 0 CommandPrepare 0
    (put (zeros 128) 124 [Byte.x01]) in
  ValidateSemantics h [] sample_context <> RejectNone.
Proof.
  intros h. apply root_prepare_rejected.
  - split; try (vm_compute; reflexivity); vm_compute; split; discriminate || reflexivity.
  - reflexivity.
  - left. reflexivity.
Defined.
