(* ===== verification/Config.v ===== *)
(** * Configuration and membership

    [src/replication/config.go] and [src/replication/membership.go]: the
    cluster and process configuration with their validation, the derived
    storage layout and checkpoint interval, the quorum sizes, and the immutable
    membership. *)

From stdpp Require Import strings.
From S2P Require Import Prelude Bytes Arith Checksum Header.

Definition ActiveMax : Z := 6.
Definition StandbyMax : Z := 6.
Definition MembersMax : Z := ActiveMax + StandbyMax.
Definition CacheLineSize : Z := 64.
Definition SectorSize : Z := Z.shiftl 4 10.
Definition SuperblockBytes : Z := Z.shiftl 8 10.
Definition HeaderBytes : Z := 256.

Inductive config_error :=
| ErrInvalidConfiguration
| ErrInvalidMembership
| ConfigError (Field Reason : string).

Definition invalid {A} (field reason : string) : result config_error A :=
  Err (ConfigError field reason).

Module ClusterConfig.
Record t := mk {
  CacheLineSize : Z;
  ClientsMax : Z;
  PipelineMax : Z;
  ViewChangeHeadersSuffixMax : Z;
  ReplicationQuorumMax : Z;
  JournalSlots : Z;
  MessageSizeMax : Z;
  ApplicationBatchSizeMax : Z;
  ApplicationReplySizeMax : Z;
  SuperblockCopies : Z;
  BlockSize : Z;
  StorageLevels : Z;
  StorageGrowthFactor : Z;
  CompactionOps : Z;
  StorageSnapshotsMax : Z;
  ManifestCompactExtraBlocks : Z;
  TableCoalescingThresholdPercent : Z;
  ReleaseHistoryMax : Z;
  StorageScansMax : Z;
}.

(** Every field is a [uint64]. *)
Definition values (cfg : t) : list Z :=
  [ CacheLineSize cfg; ClientsMax cfg; PipelineMax cfg; ViewChangeHeadersSuffixMax cfg;
    ReplicationQuorumMax cfg; JournalSlots cfg; MessageSizeMax cfg;
    ApplicationBatchSizeMax cfg; ApplicationReplySizeMax cfg; SuperblockCopies cfg;
    BlockSize cfg; StorageLevels cfg; StorageGrowthFactor cfg; CompactionOps cfg;
    StorageSnapshotsMax cfg; ManifestCompactExtraBlocks cfg;
    TableCoalescingThresholdPercent cfg; ReleaseHistoryMax cfg; StorageScansMax cfg ].

Definition typed (cfg : t) : Prop := Forall is_u64 (values cfg).
End ClusterConfig.
Abbreviation ClusterConfig := ClusterConfig.t.

Definition DefaultClusterConfig : ClusterConfig :=
  let messageSize := Z.shiftl 1 20 in
  ClusterConfig.mk CacheLineSize 64 8 9 3 1024 messageSize (messageSize - HeaderBytes)
    (messageSize - HeaderBytes) 4 (Z.shiftl 512 10) 7 8 32 32 1 50 64 6.

Module Quorums.
Record t := mk {
  Replication : Z;
  ViewChange : Z;
  Negative : Z;
  Majority : Z;
  Upgrade : Z;
}.
End Quorums.
Abbreviation Quorums := Quorums.t.

Definition QuorumsFor (activeCount replicationQuorumMax : Z) : option Quorums :=
  if (activeCount =? 0) || (ActiveMax <? activeCount) || (replicationQuorumMax =? 0) then None
  else
    let replication := Z.min replicationQuorumMax (u8 (activeCount + 1) / 2) in
    let replication := if activeCount =? 2 then 2 else replication in
    let viewChange := u8 (activeCount - replication + 1) in
    let viewChange := if activeCount =? 2 then 2 else viewChange in
    Some (Quorums.mk replication viewChange (u8 (activeCount - replication + 1))
            (u8 (activeCount / 2 + 1)) activeCount).

Definition CheckpointInterval (cfg : ClusterConfig) : option Z :=
  twicePipeline ← checkedMul 2 (ClusterConfig.PipelineMax cfg);
  rounded ← checkedRoundUp twicePipeline (ClusterConfig.CompactionOps cfg);
  subtrahend ← checkedAdd (ClusterConfig.CompactionOps cfg) rounded;
  if ClusterConfig.JournalSlots cfg <=? subtrahend then None
  else Some (ClusterConfig.JournalSlots cfg - subtrahend).

Definition BlockBase (cfg : ClusterConfig) : option Z :=
  superblockSize ← checkedMul (ClusterConfig.SuperblockCopies cfg) SuperblockBytes;
  headerBytes ← checkedMul (ClusterConfig.JournalSlots cfg) HeaderBytes;
  headerSize ← checkedAlignUp headerBytes SectorSize;
  prepareBase ← checkedAdd superblockSize headerSize;
  prepareStride ← checkedAlignUp (ClusterConfig.MessageSizeMax cfg) SectorSize;
  prepareSize ← checkedMul (ClusterConfig.JournalSlots cfg) prepareStride;
  replyBase ← checkedAdd prepareBase prepareSize;
  replySize ← checkedMul (ClusterConfig.ClientsMax cfg) prepareStride;
  end_ ← checkedAdd replyBase replySize;
  checkedAlignUp end_ (ClusterConfig.BlockSize cfg).

Definition BlockOffset (cfg : ClusterConfig) (address : Z) : option Z :=
  if (address =? 0) || (ClusterConfig.BlockSize cfg =? 0) then None else
  base ← BlockBase cfg;
  delta ← checkedMul (address - 1) (ClusterConfig.BlockSize cfg);
  checkedAdd base delta.

Definition minimumMessageSize (cfg : ClusterConfig) : option Z :=
  size ← checkedMul (u64 (ClusterConfig.PipelineMax cfg + 1)) HeaderBytes;
  checkedAdd size (HeaderBytes + 1024).

(** [!ok || pred(value)] on a comma-ok result *)
Definition notOkOr {A} (r : option A) (bad : A -> bool) : bool :=
  match r with Some v => bad v | None => true end.

Module ClusterValidate.
Import ClusterConfig.

Definition Validate (cfg : ClusterConfig) (activeCount standbyCount : Z)
    : result config_error unit :=
  if (activeCount =? 0) || (ActiveMax <? activeCount)
  then invalid "ActiveCount" "must be between 1 and 6" else
  if (StandbyMax <? standbyCount) || (MembersMax <? activeCount + standbyCount)
  then invalid "StandbyCount" "active and standby members exceed 12" else
  if negb (CacheLineSize cfg =? Config.CacheLineSize)
  then invalid "CacheLineSize" "format 1 requires 64" else
  if ClientsMax cfg =? 0 then invalid "ClientsMax" "must be positive" else
  if (PipelineMax cfg =? 0) || (15 <? PipelineMax cfg)
  then invalid "PipelineMax" "must be between 1 and 15" else
  if negb (ViewChangeHeadersSuffixMax cfg =? u64 (PipelineMax cfg + 1))
  then invalid "ViewChangeHeadersSuffixMax" "must equal PipelineMax+1" else
  if ReplicationQuorumMax cfg =? 0
  then invalid "ReplicationQuorumMax" "must be positive" else
  if JournalSlots cfg <=? PipelineMax cfg
  then invalid "JournalSlots" "must exceed PipelineMax" else
  if notOkOr (checkedMul (JournalSlots cfg) HeaderBytes)
       (fun headerSize => headerSize <? 2 * SectorSize)
  then invalid "JournalSlots" "header ring must span at least two sectors" else
  if negb (MessageSizeMax cfg mod SectorSize =? 0)
  then invalid "MessageSizeMax" "must be a sector multiple" else
  if notOkOr (minimumMessageSize cfg) (fun minimum => MessageSizeMax cfg <? minimum)
  then invalid "MessageSizeMax" "cannot hold a view and checkpoint" else
  let maximumBody := u64 (MessageSizeMax cfg - HeaderBytes) in
  if (ApplicationBatchSizeMax cfg =? 0) || (maximumBody <? ApplicationBatchSizeMax cfg)
  then invalid "ApplicationBatchSizeMax" "must fit a frame body" else
  if (ApplicationReplySizeMax cfg <? 64) || (maximumBody <? ApplicationReplySizeMax cfg)
  then invalid "ApplicationReplySizeMax" "must be between 64 and the maximum frame body" else
  if negb (SuperblockCopies cfg =? 4) && negb (SuperblockCopies cfg =? 6)
     && negb (SuperblockCopies cfg =? 8)
  then invalid "SuperblockCopies" "must be 4, 6, or 8" else
  if (BlockSize cfg =? 0) || negb (BlockSize cfg mod SectorSize =? 0)
     || (MessageSizeMax cfg <? BlockSize cfg)
  then invalid "BlockSize" "must be a sector multiple no larger than MessageSizeMax" else
  if (StorageLevels cfg =? 0) || (64 <? StorageLevels cfg)
  then invalid "StorageLevels" "must be between 1 and 64" else
  if StorageGrowthFactor cfg <? 2
  then invalid "StorageGrowthFactor" "must be at least 2" else
  if (CompactionOps cfg =? 0)
     || negb (Z.land (CompactionOps cfg) (u64 (CompactionOps cfg - 1)) =? 0)
  then invalid "CompactionOps" "must be a power of two" else
  if StorageSnapshotsMax cfg =? 0
  then invalid "StorageSnapshotsMax" "must be positive" else
  if ManifestCompactExtraBlocks cfg =? 0
  then invalid "ManifestCompactExtraBlocks" "must be positive" else
  if (TableCoalescingThresholdPercent cfg =? 0) || (100 <? TableCoalescingThresholdPercent cfg)
  then invalid "TableCoalescingThresholdPercent" "must be between 1 and 100" else
  if (ReleaseHistoryMax cfg =? 0) || (MaxUint16 <? ReleaseHistoryMax cfg)
     || (maximumBody <? u64 (ReleaseHistoryMax cfg * 4))
  then invalid "ReleaseHistoryMax" "must fit the Ping body and uint16 count" else
  if StorageScansMax cfg =? 0 then invalid "StorageScansMax" "must be positive" else
  if notOkOr (CheckpointInterval cfg)
       (fun interval => (interval =? 0) || negb (interval mod CompactionOps cfg =? 0))
  then invalid "JournalSlots" "derived checkpoint interval is invalid" else
  if notOkOr (QuorumsFor activeCount (Z.min (ReplicationQuorumMax cfg) MaxUint8))
       (fun quorums =>
          (Quorums.Replication quorums + Quorums.ViewChange quorums <=? activeCount)
          || (Quorums.Replication quorums + Quorums.Negative quorums <=? activeCount))
  then invalid "ReplicationQuorumMax" "derived quorums do not intersect" else
  match BlockBase cfg with
  | None => invalid "storage layout" "derived offsets overflow"
  | Some _ => Ok tt
  end.
End ClusterValidate.

(** The fields of the fingerprint, in the order of the source: the
    application's batch and reply sizes are not among them. *)
Definition fingerprint_values (cfg : ClusterConfig) : list Z :=
  let '(ClusterConfig.mk cacheLine clients pipeline suffix quorum slots message _ _ copies
    block levels growth compaction snapshots manifest coalescing history scans) := cfg in
  [cacheLine; clients; pipeline; suffix; quorum; slots; message; copies; block; levels;
   growth; compaction; snapshots; manifest; coalescing; history; scans].

Definition FingerprintEncoding (cfg : ClusterConfig) : list byte :=
  concat (putUint 8 <$> fingerprint_values cfg).

Definition Fingerprint (cfg : ClusterConfig) : list byte :=
  ChecksumBytes (FingerprintEncoding cfg).

(** ** Process configuration *)

(** [time.Duration] counts nanoseconds. *)
Definition Millisecond : Z := 1000000.
Definition Second : Z := 1000 * Millisecond.
Definition Hour : Z := 3600 * Second.

Module ProcessConfig.
Record t := mk {
  Tick : Z;
  InitialRTT : Z;
  MaximumRTT : Z;
  RTTMultiplier : Z;
  BackoffMin : Z;
  BackoffMax : Z;
  PrimaryRequestQueueMax : Z;
  JournalReadConcurrency : Z;
  JournalWriteConcurrency : Z;
  ReplyReadConcurrency : Z;
  ReplyWriteConcurrency : Z;
  BlockReadConcurrency : Z;
  BlockWriteConcurrency : Z;
  StorageSizeLimit : Z;
  RepairRequestsMax : Z;
  RepairReadsMax : Z;
  ScrubReadConcurrency : Z;
  ScrubWriteConcurrency : Z;
  ScrubCycle : Z;
  ScrubIntervalMin : Z;
  ScrubIntervalMax : Z;
  ClockOffsetToleranceMax : Z;
  ClockEpochMax : Z;
  ClockWindowMin : Z;
  ClockWindowMax : Z;
}.

Definition concurrencyPositive (cfg : t) : bool :=
  forallb (fun value => 0 <? value)
    [PrimaryRequestQueueMax cfg; JournalReadConcurrency cfg; JournalWriteConcurrency cfg;
     ReplyReadConcurrency cfg; ReplyWriteConcurrency cfg; BlockReadConcurrency cfg;
     BlockWriteConcurrency cfg; RepairRequestsMax cfg; RepairReadsMax cfg;
     ScrubReadConcurrency cfg; ScrubWriteConcurrency cfg].

Definition Validate (cfg : t) (cluster : ClusterConfig) : result config_error unit :=
  if (Tick cfg <=? 0) || (InitialRTT cfg <? Tick cfg) || (MaximumRTT cfg <? InitialRTT cfg)
  then invalid "RTT" "require 0 < Tick <= InitialRTT <= MaximumRTT" else
  if 50 * Millisecond <=? Tick cfg
  then invalid "Tick" "must be less than half the 100ms failure-detector minimum" else
  if RTTMultiplier cfg =? 0 then invalid "RTTMultiplier" "must be positive" else
  if (BackoffMin cfg <=? 0) || (BackoffMax cfg <? BackoffMin cfg)
  then invalid "Backoff" "require 0 < BackoffMin <= BackoffMax" else
  if negb (concurrencyPositive cfg)
  then invalid "concurrency" "queue and concurrency values must be positive" else
  if (ScrubIntervalMin cfg <=? 0) || (ScrubIntervalMax cfg <? ScrubIntervalMin cfg)
     || (ScrubCycle cfg <? ScrubIntervalMax cfg)
  then invalid "ScrubInterval" "require 0 < minimum <= maximum <= cycle" else
  if (ClockWindowMin cfg <=? 0) || (ClockWindowMax cfg <? ClockWindowMin cfg)
     || (ClockEpochMax cfg <? ClockWindowMax cfg)
  then invalid "ClockWindow" "require 0 < minimum <= maximum <= epoch" else
  if notOkOr (BlockBase cluster) (fun blockBase =>
       (StorageSizeLimit cfg <? blockBase)
       || negb (u64 (StorageSizeLimit cfg - blockBase) mod ClusterConfig.BlockSize cluster =? 0))
  then invalid "StorageSizeLimit" "must cover BlockBase in whole block extents"
  else Ok tt.
End ProcessConfig.
Abbreviation ProcessConfig := ProcessConfig.t.

Definition DefaultProcessConfig : ProcessConfig :=
  ProcessConfig.mk (10 * Millisecond) (300 * Millisecond) (60 * Second) 2 (10 * Millisecond)
    (10 * Second) 2 8 32 1 2 32 32 (Z.shiftl 16 40) 4 4 1 1 (180 * 24 * Hour)
    (50 * Millisecond) (10 * Second) (10 * Second) (60 * Second) (2 * Second) (20 * Second).

(** ** Membership *)

Module Membership.
Record t := mk {
  Members : list (list byte);
  ActiveCount : Z;
  StandbyCount : Z;
  LocalMember : list byte;
}.

Definition zeroID : list byte := zeros 16.
Definition IsZero (id : list byte) : bool := bool_decide (id = zeroID).
Definition member (m : t) (i : nat) : list byte := default zeroID (Members m !! i).

(** The loop of [Validate] from [index] on, [n] iterations to go: [None] is an
    early return, [Some localMatches] the count it ends with. *)
Fixpoint Validate_loop (m : t) (total : Z) (n index : nat) (localMatches : Z) : option Z :=
  match n with
  | O => Some localMatches
  | S n =>
      let current := member m index in
      if Z.of_nat index <? total then
        if IsZero current then None else
        let localMatches :=
          if bool_decide (current = LocalMember m) then localMatches + 1 else localMatches in
        if existsb (fun previous => bool_decide (current = member m previous)) (seq 0 index)
        then None
        else Validate_loop m total n (S index) localMatches
      else if negb (IsZero current) then None
      else Validate_loop m total n (S index) localMatches
  end.

Definition Validate (m : t) : result config_error unit :=
  let total := ActiveCount m + StandbyCount m in
  if (ActiveCount m =? 0) || (ActiveMax <? ActiveCount m) || (StandbyMax <? StandbyCount m)
     || (MembersMax <? total)
  then Err ErrInvalidMembership else
  match Validate_loop m total (Z.to_nat MembersMax) 0 0 with
  | None => Err ErrInvalidMembership
  | Some localMatches =>
      if IsZero (LocalMember m) || negb (localMatches =? 1) then Err ErrInvalidMembership
      else Ok tt
  end.

Definition LocalIndex (m : t) : option Z :=
  '(index, _) ← list_find (fun member => member = LocalMember m) (Members m);
  Some (Z.of_nat index).

(** [None] is the panic on an empty membership. *)
Definition Primary (m : t) (view : Z) : option Z :=
  if ActiveCount m =? 0 then None else Some (u8 (view mod ActiveCount m)).
End Membership.
Abbreviation Membership := Membership.t.

Module Config.
Record t := mk {
  Group : list byte;
  Membership : Membership.t;
  Cluster : ClusterConfig;
  Process : ProcessConfig;
  CurrentRelease : Z;
  ClientReleaseMin : Z;
}.

Definition Validate (cfg : t) : result config_error unit :=
  if Membership.IsZero (Group cfg) then invalid "Group" "must be nonzero" else
  _ ← Membership.Validate (Membership cfg);
  _ ← ClusterValidate.Validate (Cluster cfg) (Membership.ActiveCount (Membership cfg))
        (Membership.StandbyCount (Membership cfg));
  _ ← ProcessConfig.Validate (Process cfg) (Cluster cfg);
  if (ClientReleaseMin cfg =? 0) || (CurrentRelease cfg <? ClientReleaseMin cfg)
  then invalid "release" "require 0 < ClientReleaseMin <= CurrentRelease"
  else Ok tt.
End Config.

(** ** Quorums *)

Lemma QuorumsFor_spec n r q :
  is_u8 n -> is_u8 r -> QuorumsFor n r = Some q ->
  1 <= n <= 6 /\ 1 <= r /\
  Quorums.Replication q = (if n =? 2 then 2 else Z.min r ((n + 1) / 2)) /\
  Quorums.ViewChange q = (if n =? 2 then 2 else n - Quorums.Replication q + 1) /\
  Quorums.Negative q = n - Quorums.Replication q + 1 /\
  Quorums.Majority q = n / 2 + 1 /\ Quorums.Upgrade q = n.
Proof.
  unfold QuorumsFor, ActiveMax. intros Hn Hr H. step_guards H. split_bool.
  injection H as <-. cbn. unfold is_uint in *.
  assert ((n + 1) / 2 <= n) by div_lia. assert (1 <= (n + 1) / 2) by div_lia.
  assert (0 <= n / 2 <= n) by div_lia.
  destruct (Z.eqb_spec n 2); subst; rewrite ?(uwrap_small 8 (n + 1)) by (unfold is_uint; lia);
    rewrite !uwrap_small by (unfold is_uint; lia); lia.
Qed.

(** A replica set: indices of active members. *)
Definition replicas (n : Z) (s : gset Z) : Prop := forall i, i ∈ s -> 0 <= i < n.

Lemma replicas_size n s : 0 <= n -> replicas n s -> Z.of_nat (size s) <= n.
Proof.
  intros Hn Hs.
  assert (s ⊆ list_to_set (seqZ 0 n)) as Hsub.
  { intros i Hi%Hs. apply elem_of_list_to_set, elem_of_seqZ. lia. }
  apply subseteq_size in Hsub. rewrite size_list_to_set, length_seqZ in Hsub; [lia|].
  apply NoDup_seqZ.
Qed.

Lemma sets_intersect n (x y : gset Z) :
  0 <= n -> replicas n x -> replicas n y ->
  n < Z.of_nat (size x) + Z.of_nat (size y) -> exists i, i ∈ x /\ i ∈ y.
Proof.
  intros Hn Hx Hy Hlt. destruct (decide (x ## y)) as [Hd|Hd].
  - assert (Z.of_nat (size (x ∪ y)) <= n) as Hu.
    { apply replicas_size; [done|]. intros i [?%Hx|?%Hy]%elem_of_union; done. }
    rewrite size_union in Hu by done. lia.
  - destruct (set_choose_or_empty (x ∩ y)) as [[i Hi]|He].
    + exists i. by apply elem_of_intersection in Hi.
    + exfalso. apply Hd. by apply disjoint_intersection.
Qed.

(** C11: the quorums of every group size intersect as the protocol needs.  A
    replication quorum meets every view-change quorum, so a committed operation
    is seen by the next primary; it meets every negative quorum, so a committed
    operation is never nacked away; two view-change quorums and two majorities
    meet; and each quorum can be assembled from the active members. *)
Theorem quorum_intersection n r q x y :
  is_u8 n -> is_u8 r -> QuorumsFor n r = Some q ->
  replicas n x -> replicas n y ->
  (Quorums.Replication q <= Z.of_nat (size x) ->
     Quorums.ViewChange q <= Z.of_nat (size y) -> exists i, i ∈ x /\ i ∈ y) /\
  (Quorums.Replication q <= Z.of_nat (size x) ->
     Quorums.Negative q <= Z.of_nat (size y) -> exists i, i ∈ x /\ i ∈ y) /\
  (Quorums.ViewChange q <= Z.of_nat (size x) ->
     Quorums.ViewChange q <= Z.of_nat (size y) -> exists i, i ∈ x /\ i ∈ y) /\
  (Quorums.Majority q <= Z.of_nat (size x) ->
     Quorums.Majority q <= Z.of_nat (size y) -> exists i, i ∈ x /\ i ∈ y) /\
  Forall (fun size => 1 <= size <= n)
    [Quorums.Replication q; Quorums.ViewChange q; Quorums.Negative q; Quorums.Majority q;
     Quorums.Upgrade q].
Proof.
  intros Hn Hr Hq Hx Hy.
  destruct (QuorumsFor_spec _ _ _ Hn Hr Hq) as (Hr1 & Hr2 & Er & Ev & En & Em & Eu).
  assert ((n + 1) / 2 + n / 2 = n) by div_lia. assert (1 <= (n + 1) / 2) by div_lia.
  assert (0 <= n / 2 <= (n + 1) / 2) by div_lia.
  repeat split; try (intros; apply (sets_intersect n); try assumption;
    destruct (Z.eqb_spec n 2); lia).
  repeat (apply Forall_cons; split); [..|apply Forall_nil; done];
    destruct (Z.eqb_spec n 2); subst; lia.
Qed.

Lemma quorum_intersection_witness :
  exists q, QuorumsFor 5 3 = Some q /\
    exists i, i ∈ ({[0; 1; 2]} : gset Z) /\ i ∈ ({[2; 3; 4]} : gset Z).
Proof.
  eexists. split; [reflexivity|].
  eapply (proj1 (quorum_intersection 5 3 _ {[0; 1; 2]} {[2; 3; 4]}
    ltac:(split; [discriminate|reflexivity]) ltac:(split; [discriminate|reflexivity])
    eq_refl _ _)); vm_compute; discriminate.
  Unshelve.
  - intros i Hi. set_unfold. lia.
  - intros i Hi. set_unfold. lia.
Defined.

(** ** A validated cluster configuration *)

Lemma ClusterConfig_typed cfg i z :
  ClusterConfig.typed cfg -> ClusterConfig.values cfg !! i = Some z -> is_u64 z.
Proof. intros H Hz. exact (Forall_lookup_1 _ _ _ _ H Hz). Qed.

(** What the rest of the system relies on once [Validate] accepts. *)
Record valid_cluster (cfg : ClusterConfig) (activeCount standbyCount : Z) : Prop := {
  vc_active : 1 <= activeCount <= 6;
  vc_members : activeCount + standbyCount <= 12;
  vc_clients : 0 < ClusterConfig.ClientsMax cfg;
  vc_pipeline : 1 <= ClusterConfig.PipelineMax cfg <= 15;
  vc_suffix : ClusterConfig.ViewChangeHeadersSuffixMax cfg = ClusterConfig.PipelineMax cfg + 1;
  vc_slots : ClusterConfig.PipelineMax cfg < ClusterConfig.JournalSlots cfg;
  vc_ring : 2 * SectorSize <= ClusterConfig.JournalSlots cfg * HeaderBytes < 2 ^ 64;
  vc_message : exists k, ClusterConfig.MessageSizeMax cfg = k * SectorSize;
  vc_view : HeaderBytes + 1024 + (ClusterConfig.PipelineMax cfg + 1) * HeaderBytes
    <= ClusterConfig.MessageSizeMax cfg;
  vc_batch : 0 < ClusterConfig.ApplicationBatchSizeMax cfg
    <= ClusterConfig.MessageSizeMax cfg - HeaderBytes;
  vc_reply : 64 <= ClusterConfig.ApplicationReplySizeMax cfg
    <= ClusterConfig.MessageSizeMax cfg - HeaderBytes;
  vc_copies : ClusterConfig.SuperblockCopies cfg ∈ [4; 6; 8];
  vc_block : 0 < ClusterConfig.BlockSize cfg <= ClusterConfig.MessageSizeMax cfg /\
    exists k, ClusterConfig.BlockSize cfg = k * SectorSize;
  vc_history : 0 < ClusterConfig.ReleaseHistoryMax cfg <= MaxUint16 /\
    ClusterConfig.ReleaseHistoryMax cfg * 4 <= ClusterConfig.MessageSizeMax cfg - HeaderBytes;
  vc_compaction : exists k, 0 <= k /\ ClusterConfig.CompactionOps cfg = 2 ^ k;
  vc_interval : exists interval, CheckpointInterval cfg = Some interval /\ 0 < interval /\
    interval mod ClusterConfig.CompactionOps cfg = 0 /\
    interval + ClusterConfig.CompactionOps cfg + 2 * ClusterConfig.PipelineMax cfg
      <= ClusterConfig.JournalSlots cfg;
  vc_quorums : exists q,
    QuorumsFor activeCount (Z.min (ClusterConfig.ReplicationQuorumMax cfg) MaxUint8) = Some q;
  vc_base : exists base, BlockBase cfg = Some base;
}.

Lemma CheckpointInterval_Some cfg interval :
  ClusterConfig.typed cfg -> CheckpointInterval cfg = Some interval ->
  0 < interval /\ 0 < ClusterConfig.CompactionOps cfg /\
  interval = ClusterConfig.JournalSlots cfg - (ClusterConfig.CompactionOps cfg
    + round_up (2 * ClusterConfig.PipelineMax cfg) (ClusterConfig.CompactionOps cfg)).
Proof.
  intros Ht H. unfold CheckpointInterval in H.
  pose proof (ClusterConfig_typed cfg 2 _ Ht eq_refl) as Hp.
  pose proof (ClusterConfig_typed cfg 13 _ Ht eq_refl) as Hc.
  apply bind_Some in H as (twice & E1 & H). apply checkedMul_Some in E1 as [-> H1];
    [|unfold is_uint; lia|done].
  apply bind_Some in H as (rounded & E2 & H).
  apply checkedRoundUp_Some in E2 as (Hpos & -> & H2); [|unfold is_uint in *; lia|done].
  destruct (round_up_spec (2 * ClusterConfig.PipelineMax cfg) (ClusterConfig.CompactionOps cfg))
    as [_ Hle]; [done|].
  apply bind_Some in H as (sub & E3 & H).
  apply checkedAdd_Some in E3 as [-> H3]; [|done|unfold is_uint in *; lia].
  step_guards H. injection H as <-. split_bool. lia.
Qed.

Lemma notOkOr_false {A} (r : option A) bad :
  notOkOr r bad = false <-> exists v, r = Some v /\ bad v = false.
Proof. destruct r; simpl; naive_solver. Qed.

Lemma minimumMessageSize_small cfg :
  1 <= ClusterConfig.PipelineMax cfg <= 15 ->
  minimumMessageSize cfg =
    Some ((ClusterConfig.PipelineMax cfg + 1) * HeaderBytes + (HeaderBytes + 1024)).
Proof.
  intros Hp. unfold minimumMessageSize, HeaderBytes.
  rewrite uwrap_small by width_lia.
  rewrite checkedMul_spec by width_lia. destruct (Z.ltb_spec ((ClusterConfig.PipelineMax cfg + 1) * 256) (2 ^ 64)).
  - simpl. rewrite checkedAdd_spec by width_lia.
    destruct (Z.ltb_spec ((ClusterConfig.PipelineMax cfg + 1) * 256 + (256 + 1024)) (2 ^ 64));
      [done|width_lia].
  - width_lia.
Qed.

Lemma sector_multiple z : z mod SectorSize = 0 -> exists k, z = k * SectorSize.
Proof.
  intros Hz. exists (z / SectorSize).
  pose proof (Z.div_mod z SectorSize ltac:(done)) as E. lia.
Qed.

Lemma power_of_two_test z :
  is_u64 z -> (z =? 0) || negb (Z.land z (u64 (z - 1)) =? 0) = false ->
  exists k, 0 <= k /\ z = 2 ^ k.
Proof.
  intros Hz H. split_bool. apply land_pred_power; [unfold is_uint in *; lia|].
  by rewrite uwrap_small in * by (unfold is_uint in *; lia).
Qed.

Lemma cluster_Validate_sound cfg activeCount standbyCount :
  ClusterConfig.typed cfg -> is_u8 activeCount -> is_u8 standbyCount ->
  ClusterValidate.Validate cfg activeCount standbyCount = Ok tt ->
  valid_cluster cfg activeCount standbyCount.
Proof.
  intros Ht Ha Hs H.
  pose proof (ClusterConfig_typed cfg 1 _ Ht eq_refl) as Tl.
  pose proof (ClusterConfig_typed cfg 2 _ Ht eq_refl) as Tp.
  pose proof (ClusterConfig_typed cfg 5 _ Ht eq_refl) as Tj.
  pose proof (ClusterConfig_typed cfg 6 _ Ht eq_refl) as Tm.
  pose proof (ClusterConfig_typed cfg 7 _ Ht eq_refl) as Tb.
  pose proof (ClusterConfig_typed cfg 10 _ Ht eq_refl) as Tz.
  pose proof (ClusterConfig_typed cfg 13 _ Ht eq_refl) as Tc.
  pose proof (ClusterConfig_typed cfg 17 _ Ht eq_refl) as Tr.
  unfold ClusterValidate.Validate, invalid in H. cbv zeta in H. step_guards H.
  destruct (BlockBase cfg) as [base|] eqn:Eb; [clear H|discriminate].
  unfold ActiveMax, StandbyMax, MembersMax in *.
  apply notOkOr_false in G7 as (ring & E7 & G7).
  apply checkedMul_Some in E7 as [-> E7]; [|done|by split].
  apply notOkOr_false in G22 as (interval & E22 & G22).
  apply notOkOr_false in G23 as (q & E23 & _).
  destruct (CheckpointInterval_Some cfg interval Ht E22) as (Hi1 & Hi2 & Hi3).
  destruct (round_up_spec (2 * ClusterConfig.PipelineMax cfg) (ClusterConfig.CompactionOps cfg) Hi2)
    as [_ Hround].
  assert (1 <= ClusterConfig.PipelineMax cfg <= 15) as Hp
    by (clear - G3 Tp; split_bool; width_lia).
  rewrite minimumMessageSize_small in G9 by done. simpl notOkOr in G9.
  rewrite (uwrap_small 64 (ClusterConfig.PipelineMax cfg + 1)) in G4
    by (clear - Hp; width_lia).
  rewrite (uwrap_small 64 (ClusterConfig.ReleaseHistoryMax cfg * 4)) in G20
    by (clear - G20 Tr; split_bool; width_lia).
  rewrite (uwrap_small 64 (ClusterConfig.MessageSizeMax cfg - HeaderBytes)) in G10, G11, G20
    by (clear - G9 Tm Hp; split_bool; unfold HeaderBytes in *; width_lia).
  pose proof (power_of_two_test _ Tc G16) as Hpow.
  assert (ClusterConfig.SuperblockCopies cfg ∈ [4; 6; 8]) as Hcopies.
  { clear - G12. rewrite !andb_false_iff, !negb_false_iff, !Z.eqb_eq in G12. set_solver. }
  clear G16. split_bool. clear G5 H6 G17 G18 H4 G21 H G12.
  split; try assumption.
  - clear - H19 H20 Ha. width_lia.
  - clear - G2 Tl. width_lia.
  - split; assumption.
  - exact (sector_multiple _ G8).
  - clear - G9. lia.
  - clear - H13 H14 Tb. width_lia.
  - split; assumption.
  - split; [clear - H8 H9 Tz; width_lia|exact (sector_multiple _ H10)].
  - split; [clear - H1 H3 Tr; width_lia|exact H2].
  - exists interval. repeat split; try assumption. clear - Hi3 Hround. lia.
  - by exists q.
  - by exists base.
Qed.

(** The regions below the block area: superblock copies, the ring of redundant
    headers, the ring of prepares, one reply per client. *)
Definition region_sizes (cfg : ClusterConfig) : Z :=
  ClusterConfig.SuperblockCopies cfg * SuperblockBytes
  + round_up (ClusterConfig.JournalSlots cfg * HeaderBytes) SectorSize
  + ClusterConfig.JournalSlots cfg * round_up (ClusterConfig.MessageSizeMax cfg) SectorSize
  + ClusterConfig.ClientsMax cfg * round_up (ClusterConfig.MessageSizeMax cfg) SectorSize.

Lemma BlockBase_Some cfg base :
  ClusterConfig.typed cfg -> BlockBase cfg = Some base ->
  base = round_up (region_sizes cfg) (ClusterConfig.BlockSize cfg) /\ is_u64 base /\
  0 < ClusterConfig.BlockSize cfg.
Proof.
  intros Ht H. unfold BlockBase in H.
  pose proof (ClusterConfig_typed cfg 1 _ Ht eq_refl) as Tl.
  pose proof (ClusterConfig_typed cfg 5 _ Ht eq_refl) as Tj.
  pose proof (ClusterConfig_typed cfg 6 _ Ht eq_refl) as Tm.
  pose proof (ClusterConfig_typed cfg 9 _ Ht eq_refl) as Tc.
  pose proof (ClusterConfig_typed cfg 10 _ Ht eq_refl) as Tb.
  assert (is_u64 SuperblockBytes) as T1 by done. assert (is_u64 HeaderBytes) as T2 by done.
  assert (is_u64 SectorSize) as T3 by done.
  repeat checked_step H. by apply checkedAlignUp_step in H.
Qed.

(** ** A validated membership *)

Record valid_membership (m : Membership) : Prop := {
  vm_active : 1 <= Membership.ActiveCount m <= 6;
  vm_standby : Membership.StandbyCount m <= 6;
  vm_nonzero : forall i, Z.of_nat i < Membership.ActiveCount m + Membership.StandbyCount m ->
    Membership.member m i <> Membership.zeroID;
  vm_distinct : forall i j, (j < i)%nat ->
    Z.of_nat i < Membership.ActiveCount m + Membership.StandbyCount m ->
    Membership.member m i <> Membership.member m j;
  vm_padding : forall i, (i < 12)%nat ->
    Membership.ActiveCount m + Membership.StandbyCount m <= Z.of_nat i ->
    Membership.member m i = Membership.zeroID;
  vm_local_nonzero : Membership.LocalMember m <> Membership.zeroID;
  vm_local : exists i, Z.of_nat i < Membership.ActiveCount m + Membership.StandbyCount m /\
    Membership.member m i = Membership.LocalMember m;
}.

Lemma Validate_loop_Some m total n index localMatches c :
  Membership.Validate_loop m total n index localMatches = Some c ->
  (forall i, (index <= i < index + n)%nat ->
    (Z.of_nat i < total -> Membership.member m i <> Membership.zeroID /\
       forall j, (j < i)%nat -> Membership.member m i <> Membership.member m j) /\
    (total <= Z.of_nat i -> Membership.member m i = Membership.zeroID)) /\
  (c <> localMatches ->
   exists i, (index <= i < index + n)%nat /\ Z.of_nat i < total /\
     Membership.member m i = Membership.LocalMember m).
Proof.
  revert index localMatches. induction n as [|n IH]; intros index localMatches H; simpl in H.
  - injection H as <-. split; [intros; lia|done].
  - assert (forall P : nat -> Prop, P index -> (forall i, (S index <= i < S index + n)%nat -> P i) ->
      forall i, (index <= i < index + S n)%nat -> P i) as Hcase.
    { intros P H0 HS i Hi. destruct (decide (i = index)) as [->|]; [done|apply HS; lia]. }
    destruct (Z.ltb_spec (Z.of_nat index) total).
    + destruct (Membership.IsZero _) eqn:Ez; [done|].
      destruct (existsb _ _) eqn:Ee; [done|]. apply IH in H as [Hall Hloc]. split.
      * apply Hcase; [|done]. split; [|lia]. intros _.
        apply bool_decide_eq_false in Ez. split; [done|]. intros j Hj E.
        apply not_true_iff_false in Ee. apply Ee, existsb_exists. exists j.
        split; [apply in_seq; lia|]. by apply bool_decide_eq_true.
      * intros Hc. case_bool_decide as El; [by exists index; split; [lia|]|].
        destruct (Hloc Hc) as (i & Hi & ?). exists i. split; [lia|done].
    + destruct (Membership.IsZero _) eqn:Ez; simpl in H; [|done].
      apply bool_decide_eq_true in Ez. apply IH in H as [Hall Hloc]. split.
      * apply Hcase; [|done]. split; [lia|done].
      * intros Hc. destruct (Hloc Hc) as (i & Hi & ?). exists i. split; [lia|done].
Qed.

Lemma membership_Validate_sound m :
  is_u8 (Membership.ActiveCount m) ->
  Membership.Validate m = Ok tt -> valid_membership m.
Proof.
  intros Ha H. unfold Membership.Validate in H. step_guards H.
  unfold ActiveMax, StandbyMax, MembersMax in *.
  destruct (Membership.Validate_loop _ _ _ _ _) as [c|] eqn:El; [|discriminate].
  step_guards H. unfold Membership.IsZero in G0. split_bool. apply Validate_loop_Some in El as [Hall Hloc].
  change (0 + Z.to_nat (ActiveMax + StandbyMax))%nat with 12%nat in *.
  split; try (unfold is_uint in *; lia).
  - intros i Hi. apply Hall; [unfold ActiveMax, StandbyMax in *; lia|done].
  - intros i j Hij Hi. apply Hall; [unfold ActiveMax, StandbyMax in *; lia|done|done].
  - intros i Hi. by apply Hall; lia.
  - assumption.
  - destruct Hloc as (i & _ & Hi); [lia|]. by exists i.
Qed.

Lemma LocalIndex_valid m :
  valid_membership m -> length (Membership.Members m) = 12%nat ->
  exists k, Membership.LocalIndex m = Some (Z.of_nat k) /\
    Z.of_nat k < Membership.ActiveCount m + Membership.StandbyCount m /\
    Membership.member m k = Membership.LocalMember m /\
    forall i, Z.of_nat i < Membership.ActiveCount m + Membership.StandbyCount m ->
      Membership.member m i = Membership.LocalMember m -> i = k.
Proof.
  intros [Ha Hs Hnz Hd Hpad Hz (k & Hk & El)] Hlen. unfold Membership.LocalIndex.
  assert (forall i x, Membership.Members m !! i = Some x -> Membership.member m i = x) as Hm.
  { intros i x E. unfold Membership.member. by rewrite E. }
  assert (forall i, Z.of_nat i < Membership.ActiveCount m + Membership.StandbyCount m ->
    Membership.member m i = Membership.LocalMember m -> i = k) as Huniq.
  { intros i Hi Ei. destruct (lt_eq_lt_dec i k) as [[Hlt|Heq]|Hlt]; [|exact Heq|].
    - destruct (Hd k i Hlt Hk). congruence.
    - destruct (Hd i k Hlt Hi). congruence. }
  exists k. split; [|by split; [|split]].
  assert (k < length (Membership.Members m))%nat as [x Ex]%lookup_lt_is_Some_2 by lia.
  destruct (list_find_elem_of (fun member => member = Membership.LocalMember m)
    (Membership.Members m) x) as [[j y] Ej].
  { by eapply list_elem_of_lookup_2. }
  { by rewrite <- (Hm _ _ Ex). }
  rewrite Ej. simpl. do 2 f_equal. apply list_find_Some in Ej as (Ey & Hy & _).
  apply Hm in Ey as Ey'. apply lookup_lt_Some in Ey. apply Huniq; [|congruence].
  destruct (decide (Z.of_nat j < Membership.ActiveCount m + Membership.StandbyCount m));
    [done|]. destruct Hz. rewrite <- Hy, <- Ey'. apply Hpad; lia.
Qed.

(** An accepted configuration is one the replica can run with: the
    cluster parameters satisfy every derived constraint, the members are
    non-zero and pairwise distinct, the local member has exactly one index,
    storage holds a whole number of blocks above the block base, and the
    releases are ordered. *)
Theorem config_Validate_sound cfg :
  ClusterConfig.typed (Config.Cluster cfg) ->
  is_u64 (ProcessConfig.StorageSizeLimit (Config.Process cfg)) ->
  is_u8 (Membership.ActiveCount (Config.Membership cfg)) ->
  is_u8 (Membership.StandbyCount (Config.Membership cfg)) ->
  length (Membership.Members (Config.Membership cfg)) = 12%nat ->
  Config.Validate cfg = Ok tt ->
  let m := Config.Membership cfg in
  valid_cluster (Config.Cluster cfg) (Membership.ActiveCount m) (Membership.StandbyCount m) /\
  valid_membership m /\
  (exists k, Membership.LocalIndex m = Some (Z.of_nat k) /\
    Z.of_nat k < Membership.ActiveCount m + Membership.StandbyCount m /\
    Membership.member m k = Membership.LocalMember m /\
    forall i, Z.of_nat i < Membership.ActiveCount m + Membership.StandbyCount m ->
      Membership.member m i = Membership.LocalMember m -> i = k) /\
  (exists base blocks, BlockBase (Config.Cluster cfg) = Some base /\ 0 <= blocks /\
    ProcessConfig.StorageSizeLimit (Config.Process cfg)
      = base + blocks * ClusterConfig.BlockSize (Config.Cluster cfg)) /\
  Config.ClientReleaseMin cfg <> 0 /\
  Config.ClientReleaseMin cfg <= Config.CurrentRelease cfg.
Proof.
  intros Ht Hlimit Ha Hs Hlen H m. unfold Config.Validate, invalid in H. step_guards H.
  apply result_bind_Ok in H as ([] & Hm & H). apply result_bind_Ok in H as ([] & Hc & H).
  apply result_bind_Ok in H as ([] & Hp & H). step_guards H. split_bool.
  pose proof (cluster_Validate_sound _ _ _ Ht Ha Hs Hc) as Hvc.
  pose proof (membership_Validate_sound _ Ha Hm) as Hvm.
  split; [done|]. split; [done|]. split; [|split; [|done]].
  - by apply LocalIndex_valid.
  - unfold ProcessConfig.Validate, invalid in Hp. step_guards Hp.
    match goal with Hb : notOkOr _ _ = false |- _ =>
      apply notOkOr_false in Hb as (base & Eb & Hb) end.
    split_bool.
    set (limit := ProcessConfig.StorageSizeLimit _) in *.
    set (block := ClusterConfig.BlockSize _) in *.
    assert (0 < block) as Hblock by apply Hvc.
    destruct (BlockBase_Some _ _ Ht Eb) as (_ & [Hbase _] & _).
    exists base, ((limit - base) / block). split; [done|].
    rewrite uwrap_small in * by (unfold is_uint in *; lia).
    split; [apply Z.div_pos; lia|].
    pose proof (Z.div_mod (limit - base) block ltac:(lia)). lia.
Qed.

Definition sample_membership : Membership :=
  Membership.mk
    ((fun i => byte.of_Z i :: zeros 15) <$> [1; 2; 3; 0; 0; 0; 0; 0; 0; 0; 0; 0]) 3 0
    (Byte.x02 :: zeros 15).

Definition sample_config : Config.t :=
  Config.mk (Byte.x01 :: zeros 15) sample_membership DefaultClusterConfig DefaultProcessConfig
    1 1.

Lemma DefaultClusterConfig_typed : ClusterConfig.typed DefaultClusterConfig.
Proof. repeat (apply Forall_cons; split; [split; [discriminate|reflexivity]|]). apply Forall_nil_2. Qed.

Lemma config_Validate_sound_witness :
  Config.Validate sample_config = Ok tt /\
  exists k, Membership.LocalIndex sample_membership = Some (Z.of_nat k).
Proof.
  assert (Config.Validate sample_config = Ok tt) as H by (vm_compute; reflexivity).
  split; [exact H|].
  destruct (config_Validate_sound sample_config DefaultClusterConfig_typed
    ltac:(split; [discriminate|reflexivity]) ltac:(split; [discriminate|reflexivity])
    ltac:(split; [discriminate|reflexivity]) eq_refl H) as (_ & _ & (k & Hk & _) & _).
  exists k. exact Hk.
Defined.

(** The defaults are valid for every group the code supports. *)
Example defaults_valid :
  forallb (fun a => forallb (fun s =>
    is_Ok (ClusterValidate.Validate DefaultClusterConfig a s)) (seqZ 0 7)) (seqZ 1 6) = true
  /\ ProcessConfig.Validate DefaultProcessConfig DefaultClusterConfig = Ok tt.
Proof. vm_compute. done. Qed.

(** ** Fingerprint *)

Lemma concat_putUint_inj (xs ys : list Z) :
  Forall is_u64 xs -> Forall is_u64 ys -> length xs = length ys ->
  concat (putUint 8 <$> xs) = concat (putUint 8 <$> ys) -> xs = ys.
Proof.
  intros Hx. revert ys. induction Hx as [|x xs Hx _ IH]; intros [|y ys] Hy Hl E; try done.
  apply Forall_cons in Hy as [Hy Hys].
  rewrite !fmap_cons in E. cbn [concat] in E.
  apply app_inj_1 in E as [E1 E2].
  - f_equal; [|apply IH; [done|simpl in Hl; lia|done]].
    rewrite <- (getUint_putUint 8 x), <- (getUint_putUint 8 y) by done. by rewrite E1.
  - pose proof (zlen_putUint 8 x). pose proof (zlen_putUint 8 y). unfold zlen in *. lia.
Qed.

Lemma fingerprint_typed cfg : ClusterConfig.typed cfg -> Forall is_u64 (fingerprint_values cfg).
Proof.
  destruct cfg. unfold ClusterConfig.typed, ClusterConfig.values. cbn.
  rewrite !Forall_cons. tauto.
Qed.

(** The fingerprint encoding determines every parameter of the cluster
    that shapes the on-disk format, and nothing else: two configurations have
    the same encoding exactly when they agree on all fields but the
    application's batch and reply sizes. *)
Theorem fingerprint_encoding_injective a b :
  ClusterConfig.typed a -> ClusterConfig.typed b ->
  FingerprintEncoding a = FingerprintEncoding b <->
  exists batch reply, b = ClusterConfig.mk (ClusterConfig.CacheLineSize a)
    (ClusterConfig.ClientsMax a) (ClusterConfig.PipelineMax a)
    (ClusterConfig.ViewChangeHeadersSuffixMax a) (ClusterConfig.ReplicationQuorumMax a)
    (ClusterConfig.JournalSlots a) (ClusterConfig.MessageSizeMax a) batch reply
    (ClusterConfig.SuperblockCopies a) (ClusterConfig.BlockSize a)
    (ClusterConfig.StorageLevels a) (ClusterConfig.StorageGrowthFactor a)
    (ClusterConfig.CompactionOps a) (ClusterConfig.StorageSnapshotsMax a)
    (ClusterConfig.ManifestCompactExtraBlocks a)
    (ClusterConfig.TableCoalescingThresholdPercent a) (ClusterConfig.ReleaseHistoryMax a)
    (ClusterConfig.StorageScansMax a).
Proof.
  intros Ha Hb. split.
  - intros E. apply concat_putUint_inj in E; [|by apply fingerprint_typed..|].
    + destruct a, b. cbn in E. cbn. injection E as -> -> -> -> -> -> -> -> -> -> -> -> -> -> -> -> ->.
      by eexists _, _.
    + by destruct a, b.
  - intros (batch & reply & ->). by destruct a.
Qed.

Lemma fingerprint_encoding_injective_witness :
  FingerprintEncoding DefaultClusterConfig = FingerprintEncoding DefaultClusterConfig.
Proof.
  apply (proj2 (fingerprint_encoding_injective _ _ DefaultClusterConfig_typed
    DefaultClusterConfig_typed)).
  eexists _, _. reflexivity.
Defined.

(** ** Message sizes beyond 32 bits *)

Definition oversized_cluster : ClusterConfig :=
  ClusterConfig.mk 64 64 8 9 3 1024 (2 ^ 32) 1024 1024 4 (Z.shiftl 512 10) 7 8 32 32 1 50 64 6.

(** [Validate] accepts a maximum message size that does not fit the
    32-bit size field of a frame.  Every user of the limit converts it with
    [uint32], so with a limit of 2^32 bytes no header is ever accepted. *)
Theorem oversized_message_limit :
  ClusterConfig.typed oversized_cluster /\
  ClusterValidate.Validate oversized_cluster 3 0 = Ok tt /\
  forall source group memberCount header,
    DecodeHeader source group (u32 (ClusterConfig.MessageSizeMax oversized_cluster)) memberCount
      <> (header, RejectNone).
Proof.
  split; [|split].
  - repeat (apply Forall_cons; split; [split; [discriminate|reflexivity]|]). apply Forall_nil_2.
  - vm_compute. reflexivity.
  - intros source group memberCount header [[] _]%DecodeHeader_accepts.
    change (u32 (ClusterConfig.MessageSizeMax oversized_cluster)) with 0 in acc_size. lia.
Qed.
