(* ===== verification/Ewah.v ===== *)
(** * Bit sets and their EWAH encoding

    [src/replication/ewah.go]: the fixed-length bit set of the block
    allocator, its word-aligned run-length encoding, and the branch-free
    population count. *)

From S2P Require Import Prelude Bytes Config.

Definition ewahFillMax : Z := Z.shiftl 1 31 - 1.
Definition ewahLiteralMax : Z := MaxUint32.

Inductive ewah_error := ErrInvalidEWAH.

Definition populationCount (value : Z) : Z :=
  let value := u64 (value - Z.land (Z.shiftr value 1) 0x5555555555555555) in
  let value := u64 (Z.land value 0x3333333333333333
                    + Z.land (Z.shiftr value 2) 0x3333333333333333) in
  let value := Z.land (u64 (value + Z.shiftr value 4)) 0x0f0f0f0f0f0f0f0f in
  u8 (Z.shiftr (u64 (value * 0x0101010101010101)) 56).

Module FixedBitSet.
Record t := mk {
  words : list Z;
  length : Z;
}.

Definition wordAt (ws : list Z) (i : Z) : Z := default 0 (ws !! Z.to_nat i).

Definition wordCount (length : Z) : Z := u64 (length + 63) / 64.

Definition NewFixedBitSet (length : Z) : result config_error t :=
  if MaxUint64 - 63 <? length then Err ErrInvalidConfiguration else
  if MaxInt64 <? wordCount length then Err ErrInvalidConfiguration else
  Ok (mk (replicate (Z.to_nat (wordCount length)) 0) length).

Definition grow (set : t) (newLength : Z) : result config_error t :=
  if newLength <=? length set then Ok set else
  if MaxUint64 - 63 <? newLength then Err ErrInvalidConfiguration else
  if MaxInt64 <? wordCount newLength then Err ErrInvalidConfiguration else
  Ok (mk (put (replicate (Z.to_nat (wordCount newLength)) 0) 0 (words set)) newLength).

Definition Len (set : t) : Z := length set.

Definition Test (set : t) (index : Z) : bool :=
  (index <? length set)
  && negb (Z.land (wordAt (words set) (index / 64)) (u64 (Z.shiftl 1 (index mod 64))) =? 0).

Definition update (ws : list Z) (i : Z) (f : Z -> Z) : list Z :=
  <[Z.to_nat i := f (wordAt ws i)]> ws.

Definition Set_ (set : t) (index : Z) : t * bool :=
  if length set <=? index then (set, false)
  else (mk (update (words set) (index / 64)
              (fun word => Z.lor word (u64 (Z.shiftl 1 (index mod 64))))) (length set), true).

Definition Clear (set : t) (index : Z) : t * bool :=
  if length set <=? index then (set, false)
  else (mk (update (words set) (index / 64)
              (fun word => Z.ldiff word (u64 (Z.shiftl 1 (index mod 64))))) (length set), true).

Definition Count (set : t) : Z :=
  fold_left (fun count word => u64 (count + populationCount word)) (words set) 0.

Definition validTail (set : t) : bool :=
  if (length set =? 0) || (length set mod 64 =? 0) then true
  else
    let mask := u64 (Z.shiftl 1 (length set mod 64) - 1) in
    Z.ldiff (wordAt (words set) (zlen (words set) - 1)) mask =? 0.

(** ** Encoding

    The cursor of the source is the suffix [rest] of words it still has to
    visit. *)

Definition isFill (word : Z) : bool := (word =? 0) || (word =? MaxUint64).

Fixpoint take_fill (fillWord fill : Z) (rest : list Z) : Z * list Z :=
  match rest with
  | word :: rest' =>
      if (word =? fillWord) && (fill <? ewahFillMax)
      then take_fill fillWord (fill + 1) rest'
      else (fill, rest)
  | [] => (fill, [])
  end.

Fixpoint take_literals (count : Z) (rest : list Z) : list Z * list Z :=
  match rest with
  | word :: rest' =>
      if count <? ewahLiteralMax then
        if isFill word then ([], rest)
        else let '(literals, rest'') := take_literals (count + 1) rest' in
             (word :: literals, rest'')
      else ([], rest)
  | [] => ([], [])
  end.

Definition marker_of (fill fillWord literals : Z) : Z :=
  let marker := u64 (Z.shiftl fill 1) in
  let marker := if fillWord =? MaxUint64 then Z.lor marker 1 else marker in
  Z.lor marker (u64 (Z.shiftl literals 32)).

(** [None]: the loop has not finished within [fuel] iterations. *)
Fixpoint encode_loop (fuel : nat) (capacity : Z) (rest : list Z) (written : list Z)
    : option (result ewah_error (list Z)) :=
  match rest, fuel with
  | [], _ => Some (Ok written)
  | _, O => None
  | word :: _, S fuel =>
      let fillWord := if isFill word then word else 0 in
      let '(fill, rest) := if isFill word then take_fill fillWord 0 rest else (0, rest) in
      let '(literals, rest) := take_literals 0 rest in
      let count := zlen literals in
      if (fill =? 0) && (count =? 0) then encode_loop fuel capacity rest written else
      if (capacity <=? zlen written) || (capacity - zlen written - 1 <? count)
      then Some (Err ErrInvalidEWAH)
      else encode_loop fuel capacity rest
             (written ++ marker_of fill fillWord count :: literals)
  end.

(** [EncodeEWAH] into a destination of [capacity] words; the words written. *)
Definition EncodeEWAH (set : t) (capacity : Z) : option (result ewah_error (list Z)) :=
  if negb (validTail set) then Some (Err ErrInvalidEWAH)
  else encode_loop (List.length (words set)) capacity (words set) [].

(** ** Decoding *)

(** [for range fill { set.words[cursor] = fillWord; cursor++ }] *)
Fixpoint fill_loop (n : nat) (ws : list Z) (cursor : nat) (fillWord : Z) : list Z :=
  match n with
  | O => ws
  | S n => fill_loop n (<[cursor := fillWord]> ws) (S cursor) fillWord
  end.

(** The literal loop; [false] is the early error return. *)
Fixpoint literal_loop (literals : list Z) (ws : list Z) (cursor : nat) : list Z * bool :=
  match literals with
  | [] => (ws, true)
  | literal :: literals =>
      if isFill literal then (ws, false)
      else literal_loop literals (<[cursor := literal]> ws) (S cursor)
  end.

(** The loop over the encoded words, from the suffix [encoded] on.  The result
    is the words and the cursor it ends with, [false] an error return. *)
Fixpoint decode_loop (fuel : nat) (encoded : list Z) (ws : list Z) (cursor : nat)
    : option (list Z * nat * bool) :=
  match encoded, fuel with
  | [], _ => Some (ws, cursor, true)
  | _, O => None
  | marker :: encoded, S fuel =>
      let fill := Z.land (Z.shiftr marker 1) ewahFillMax in
      let literals := Z.shiftr marker 32 in
      if (fill =? 0) && (literals =? 0) then Some (ws, cursor, false) else
      if (zlen encoded <? literals) || (zlen ws - Z.of_nat cursor <? fill)
      then Some (ws, cursor, false) else
      let fillWord := if negb (Z.land marker 1 =? 0) then MaxUint64 else 0 in
      let ws := fill_loop (Z.to_nat fill) ws cursor fillWord in
      let cursor := (cursor + Z.to_nat fill)%nat in
      if zlen ws - Z.of_nat cursor <? literals then Some (ws, cursor, false) else
      let '(ws, ok) := literal_loop (take (Z.to_nat literals) encoded) ws cursor in
      if negb ok then Some (ws, cursor, false)
      else decode_loop fuel (drop (Z.to_nat literals) encoded) ws
             (cursor + Z.to_nat literals)%nat
  end.

(** The set after the call and whether it returned [nil]. *)
Definition DecodeEWAH (set : t) (encoded : list Z) : option (t * result ewah_error unit) :=
  let cleared := replicate (List.length (words set)) 0 in
  '(ws, cursor, ok) ← decode_loop (List.length encoded) encoded cleared 0;
  let set := mk ws (length set) in
  Some (set,
    if negb ok || negb (cursor =? List.length ws)%nat || negb (validTail set)
    then Err ErrInvalidEWAH else Ok tt).
End FixedBitSet.
Abbreviation FixedBitSet := FixedBitSet.t.

(** ** The population count

    A number as a list of [k]-bit digits, least significant first; each round
    of the branch-free count adds adjacent digits into digits of twice the
    width. *)

Fixpoint digits_value (k : Z) (ds : list Z) : Z :=
  match ds with [] => 0 | d :: ds => d + 2 ^ k * digits_value k ds end.

Fixpoint evens (l : list Z) : list Z :=
  match l with a :: _ :: l => a :: evens l | _ => l end.

Definition odds (l : list Z) : list Z := evens (tail l).

Fixpoint pair_sums (l : list Z) : list Z :=
  match l with a :: b :: l => a + b :: pair_sums l | _ => l end.

Fixpoint bits (n : nat) (v : Z) : list Z :=
  match n with O => [] | S n => v mod 2 :: bits n (v / 2) end.

Definition zsum (l : list Z) : Z := foldr Z.add 0 l.

(** Induction two elements at a time. *)
Lemma pair_ind {A} (P : list A -> Prop) :
  P [] -> (forall a, P [a]) -> (forall a b l, P l -> P (a :: b :: l)) -> forall l, P l.
Proof.
  intros H0 H1 H2 l. assert (P l /\ forall a, P (a :: l)) as [H _]; [|done].
  induction l as [|b l [IH1 IH2]]; split; auto.
Qed.

Definition below (bound : Z) (l : list Z) : Prop := Forall (fun d => 0 <= d <= bound) l.

Lemma land_low_digit k a x b y :
  0 <= k -> 0 <= a < 2 ^ k -> 0 <= b < 2 ^ k ->
  Z.land (a + 2 ^ k * x) (b + 2 ^ k * y) = Z.land a b + 2 ^ k * Z.land x y.
Proof.
  intros Hk Ha Hb. set (r := Z.land (a + _) _).
  rewrite (Z.div_mod r (2 ^ k)) by lia.
  assert (forall c z, 0 <= c < 2 ^ k -> (c + 2 ^ k * z) / 2 ^ k = z) as Hd.
  { intros c z Hc. rewrite Z.mul_comm, Z.div_add, Z.div_small by lia. lia. }
  assert (forall c z, 0 <= c < 2 ^ k -> (c + 2 ^ k * z) mod 2 ^ k = c) as Hm.
  { intros c z Hc. rewrite Z.mul_comm, Z_mod_plus_full, Z.mod_small by lia. done. }
  assert (r / 2 ^ k = Z.land x y) as ->.
  { unfold r. rewrite <- Z.shiftr_div_pow2, Z.shiftr_land, !Z.shiftr_div_pow2, !Hd by done. done. }
  assert (r mod 2 ^ k = Z.land a b) as ->; [|lia].
  unfold r. rewrite <- Z.land_ones, <- (Z.land_diag (Z.ones k)) by done.
  rewrite Z.land_assoc, (Z.land_comm (a + _)), <- (Z.land_assoc (b + _)).
  rewrite (Z.land_ones (a + _)), Hm by done.
  rewrite (Z.land_comm (b + _)), <- Z.land_assoc, (Z.land_ones (b + _)), Hm by done. done.
Qed.

Lemma land_evens k n l :
  0 <= k -> below (2 ^ k - 1) l -> (length l <= 2 * n)%nat ->
  Z.land (digits_value k l) (digits_value (2 * k) (replicate n (2 ^ k - 1)))
  = digits_value (2 * k) (evens l).
Proof.
  intros Hk. assert (2 ^ (2 * k) = 2 ^ k * 2 ^ k) as Hp.
  { rewrite <- Z.pow_add_r by lia. f_equal. lia. }
  revert l. induction n as [|n IH]; intros l Hl Hn.
  { destruct l; [|simpl in Hn; lia]. done. }
  assert (forall a, 0 <= a <= 2 ^ k - 1 -> Z.land a (2 ^ k - 1) = a) as Hmask.
  { intros a Ha. replace (2 ^ k - 1) with (Z.ones k) by (rewrite Z.ones_equiv; lia).
    rewrite Z.land_ones by done. apply Z.mod_small. lia. }
  destruct l as [|a [|b l]]; cbn [digits_value evens replicate].
  - done.
  - apply Forall_cons in Hl as [Ha _].
    replace (a + 2 ^ k * 0) with (a + 2 ^ (2 * k) * 0) by lia.
    rewrite land_low_digit, Hmask by (try done; nia). done.
  - apply Forall_cons in Hl as [Ha Hl]. apply Forall_cons in Hl as [Hb Hl].
    replace (a + 2 ^ k * (b + 2 ^ k * digits_value k l))
      with (a + 2 ^ k * b + 2 ^ (2 * k) * digits_value k l) by lia.
    rewrite land_low_digit by nia. rewrite IH by (try done; simpl in Hn; lia). f_equal.
    replace (2 ^ k - 1) with (2 ^ k - 1 + 2 ^ k * 0) by lia.
    rewrite land_low_digit, Hmask, Z.land_0_r by lia. lia.
Qed.

Lemma digits_shift k l :
  0 <= k -> below (2 ^ k - 1) l -> Z.shiftr (digits_value k l) k = digits_value k (tail l).
Proof.
  intros Hk Hl. rewrite Z.shiftr_div_pow2 by done. destruct l as [|d l]; [done|].
  apply Forall_cons in Hl as [Hd _]. cbn [digits_value tail].
  rewrite Z.mul_comm, Z.div_add, Z.div_small by lia. lia.
Qed.

Lemma digits_split k l :
  0 <= k ->
  digits_value k l = digits_value (2 * k) (evens l) + 2 ^ k * digits_value (2 * k) (odds l) /\
  digits_value (2 * k) (pair_sums l)
  = digits_value (2 * k) (evens l) + digits_value (2 * k) (odds l).
Proof.
  intros Hk. assert (2 ^ (2 * k) = 2 ^ k * 2 ^ k) as Hp.
  { rewrite <- Z.pow_add_r by lia. f_equal. lia. }
  assert (forall b l, digits_value (2 * k) (evens (b :: l))
            = b + 2 ^ (2 * k) * digits_value (2 * k) (odds l)) as Hcons by by intros ? [].
  induction l as [|a|a b l [IH1 IH2]] using pair_ind.
  - split; cbn; lia.
  - split; cbn; lia.
  - assert (odds (a :: b :: l) = evens (b :: l)) as -> by done. rewrite !Hcons.
    change (odds (b :: l)) with (evens l). cbn [digits_value pair_sums].
    rewrite IH1, IH2, Hp. split; ring.
Qed.

Lemma below_evens bound l : below bound l -> below bound (evens l).
Proof.
  unfold below. induction l as [|a|a b l IH] using pair_ind; [done..|].
  rewrite !Forall_cons. cbn [evens]. rewrite Forall_cons. naive_solver.
Qed.

Lemma below_tail bound l : below bound l -> below bound (tail l).
Proof. destruct l; [done|]. by intros [_ ?]%Forall_cons. Qed.

Lemma below_pair_sums bound l : below bound l -> below (2 * bound) (pair_sums l).
Proof.
  unfold below. induction l as [|a|a b l IH] using pair_ind; cbn [pair_sums].
  - done.
  - rewrite !Forall_cons. intros [? ?]. split; [lia|done].
  - rewrite !Forall_cons. intros (? & ? & ?). split; [lia|auto].
Qed.

Lemma below_weaken b1 b2 l : b1 <= b2 -> below b1 l -> below b2 l.
Proof. intros ? H. eapply Forall_impl; [exact H|]. simpl. intros; lia. Qed.

(** One round on digits that stay below half of the doubled width. *)
Lemma length_pair_sums l : length (pair_sums l) = ((length l + 1) / 2)%nat.
Proof.
  induction l as [|a|a b l IH] using pair_ind; [done..|]. cbn [pair_sums length].
  rewrite IH. replace (S (S (length l)) + 1)%nat with ((length l + 1) + 1 * 2)%nat by lia.
  rewrite Nat.div_add by lia. lia.
Qed.

Lemma zsum_pair_sums l : zsum (pair_sums l) = zsum l.
Proof.
  induction l as [|a|a b l IH] using pair_ind; [done..|]. cbn. unfold zsum in IH.
  rewrite IH. lia.
Qed.

Fixpoint adjacent_sums (l : list Z) : list Z :=
  match l with
  | a :: ((b :: _) as l') => a + b :: adjacent_sums l'
  | _ => l
  end.

Lemma adjacent_sums_spec k bound l :
  below bound l ->
  digits_value k (adjacent_sums l) = digits_value k l + digits_value k (tail l) /\
  below (2 * bound) (adjacent_sums l) /\
  length (adjacent_sums l) = length l.
Proof.
  unfold below. induction l as [|a l IH]; [by split; [cbn; lia|]|].
  intros [Ha Hl]%Forall_cons. specialize (IH Hl) as (E & B & L). destruct l as [|b l].
  - split; [cbn; lia|]. split; [|done]. apply Forall_cons. split; [lia|done].
  - apply Forall_cons in Hl as [Hb Hl].
    change (adjacent_sums (a :: b :: l)) with (a + b :: adjacent_sums (b :: l)).
    split; [|split].
    + cbn [digits_value]. rewrite E. cbn [tail digits_value]. ring.
    + apply Forall_cons. split; [lia|done].
    + cbn [length]. by rewrite L.
Qed.

Lemma evens_adjacent l : Nat.Even (length l) -> evens (adjacent_sums l) = pair_sums l.
Proof.
  induction l as [|a|a b l IH] using pair_ind; intros He; [done| |].
  - by destruct He as [[|?] ?].
  - assert (Nat.Even (length l)) as Hl
      by (apply Nat.Even_succ_succ; exact He).
    destruct l as [|c l]; [done|].
    change (evens (adjacent_sums (a :: b :: c :: l))) with (a + b :: evens (adjacent_sums (c :: l))).
    cbn [pair_sums]. by rewrite IH.
Qed.

Lemma digits_bound k n l :
  0 <= k -> below (2 ^ k - 1) l -> (length l <= n)%nat ->
  0 <= digits_value k l < 2 ^ (k * Z.of_nat n).
Proof.
  intros Hk. revert n. induction l as [|d l IH]; intros n Hl Hn.
  - cbn. lia.
  - apply Forall_cons in Hl as [Hd Hl]. destruct n as [|n]; [cbn in Hn; lia|].
    specialize (IH n Hl ltac:(cbn in Hn; lia)). cbn [digits_value].
    replace (k * Z.of_nat (S n)) with (k + k * Z.of_nat n) by lia.
    rewrite Z.pow_add_r by lia. nia.
Qed.

Lemma bits_spec n v :
  0 <= v < 2 ^ Z.of_nat n ->
  digits_value 1 (bits n v) = v /\ below 1 (bits n v) /\ length (bits n v) = n.
Proof.
  revert v. induction n as [|n IH]; intros v Hv.
  { split; [cbn in *; lia|]. split; [apply Forall_nil_2|done]. }
  destruct (IH (v / 2)) as (E & B & L).
  { rewrite Nat2Z.inj_succ, Z.pow_succ_r in Hv by lia.
    split; [apply Z.div_pos; lia|apply Z.div_lt_upper_bound; lia]. }
  cbn [bits digits_value length]. rewrite E, L. split; [|split; [|done]].
  - pose proof (Z.div_mod v 2). lia.
  - apply Forall_cons. split; [|done]. pose proof (Z.mod_pos_bound v 2). lia.
Qed.

(** The last round: multiplying by 0x0101... adds eight byte-sized counts into
    the top byte. *)
Lemma byte_sum l :
  length l = 8%nat -> below 8 l ->
  u8 (Z.shiftr (u64 (digits_value 8 l * 0x0101010101010101)) 56) = zsum l.
Proof.
  intros Hl Hb.
  destruct l as [|a [|b [|c [|d [|e [|f [|g [|h [|? ?]]]]]]]]]; try discriminate.
  unfold below in Hb. rewrite !Forall_cons in Hb. destruct_and! Hb.
  cbn [digits_value zsum foldr]. change (2 ^ 8) with 256.
  set (low := a + 256 * (a + b) + 256 ^ 2 * (a + b + c) + 256 ^ 3 * (a + b + c + d)
    + 256 ^ 4 * (a + b + c + d + e) + 256 ^ 5 * (a + b + c + d + e + f)
    + 256 ^ 6 * (a + b + c + d + e + f + g)).
  set (high := b + 257 * c + 65793 * d + 16843009 * e + 4311810305 * f
    + 1103823438081 * g + 282578800148737 * h).
  set (total := a + (b + (c + (d + (e + (f + (g + (h + 0)))))))).
  assert (0 <= low < 2 ^ 56) by (subst low; lia). assert (0 <= total <= 64) by (subst total; lia).
  match goal with |- context [u64 ?p] =>
    replace p with (low + 2 ^ 56 * total + high * 2 ^ 64) by (subst low high total; ring) end.
  unfold uwrap. rewrite Z_mod_plus_full, (Z.mod_small _ (2 ^ 64)) by lia.
  rewrite Z.shiftr_div_pow2 by done. rewrite (Z.mul_comm (2 ^ 56)), Z.div_add, Z.div_small by lia.
  apply Z.mod_small. lia.
Qed.

Lemma below_zsum_nonneg bound l : below bound l -> 0 <= zsum l.
Proof.
  unfold below. induction l as [|d l IH]; [done|]. intros [? ?%IH]%Forall_cons. cbn.
  unfold zsum in *. lia.
Qed.

Lemma land_odds k n l :
  0 <= k -> below (2 ^ k - 1) l -> (length l <= 2 * n)%nat ->
  Z.land (Z.shiftr (digits_value k l) k) (digits_value (2 * k) (replicate n (2 ^ k - 1)))
  = digits_value (2 * k) (odds l).
Proof.
  intros Hk Hl Hn. rewrite digits_shift by done. apply land_evens; [done|by apply below_tail|].
  destruct l; cbn in *; lia.
Qed.

Lemma uwrap_digits k n l :
  0 <= k -> below (2 ^ k - 1) l -> length l = n -> k * Z.of_nat n = 64 ->
  u64 (digits_value k l) = digits_value k l.
Proof.
  intros Hk B L Hn. apply uwrap_small. unfold is_uint. rewrite <- Hn.
  apply digits_bound; [done..|lia].
Qed.

(** The branch-free population count of a 64-bit word is the number of its bits
    that are set. *)
Lemma populationCount_spec v :
  is_u64 v -> populationCount v = zsum (bits 64 v).
Proof.
  intros Hv. destruct (bits_spec 64 v Hv) as (Ev & B0 & L0).
  set (l0 := bits 64 v) in *. set (l1 := pair_sums l0). set (l2 := pair_sums l1).
  set (l3 := pair_sums l2).
  assert (below 2 l1) as B1 by by apply (below_pair_sums 1).
  assert (below 4 l2) as B2 by by apply (below_pair_sums 2).
  assert (below 8 l3) as B3 by by apply (below_pair_sums 4).
  assert (length l1 = 32)%nat as L1 by (unfold l1; by rewrite length_pair_sums, L0).
  assert (length l2 = 16)%nat as L2 by (unfold l2; by rewrite length_pair_sums, L1).
  assert (length l3 = 8)%nat as L3 by (unfold l3; by rewrite length_pair_sums, L2).
  assert (below (2 ^ 2 - 1) l1) as B1' by by eapply below_weaken; [|done].
  assert (below (2 ^ 4 - 1) l2) as B2' by by eapply below_weaken; [|done].
  unfold populationCount. rewrite <- Ev.
  change 0x5555555555555555 with (digits_value (2 * 1) (replicate 32 (2 ^ 1 - 1))).
  rewrite land_odds by (try done; lia). destruct (digits_split 1 l0) as [E1 S1]; [done|].
  change (2 * 1) with 2 in *. replace (digits_value 1 l0 - digits_value 2 (odds l0)) with (digits_value 2 l1)
    by (unfold l1; lia).
  rewrite (uwrap_digits 2 32) by done. cbv zeta.
  change 0x3333333333333333 with (digits_value (2 * 2) (replicate 16 (2 ^ 2 - 1))).
  rewrite land_evens, land_odds by (try done; lia).
  rewrite <- (proj2 (digits_split 2 l1 ltac:(done))).
  change (digits_value (2 * 2) (pair_sums l1)) with (digits_value 4 l2).
  rewrite (uwrap_digits 4 16), digits_shift by done.
  destruct (adjacent_sums_spec 4 4 l2 B2) as (E3 & B3' & L3'). rewrite <- E3.
  assert (below (2 ^ 4 - 1) (adjacent_sums l2)) as B3'' by by eapply below_weaken; [|done].
  rewrite (uwrap_digits 4 16) by (try done; congruence).
  change 0x0f0f0f0f0f0f0f0f with (digits_value (2 * 4) (replicate 8 (2 ^ 4 - 1))).
  rewrite land_evens by (try done; lia).
  rewrite evens_adjacent by (rewrite L2; by exists 8%nat).
  fold l3. change (2 * 4) with 8. rewrite byte_sum by done.
  unfold l3, l2, l1. by rewrite !zsum_pair_sums.
Qed.

(** ** The set a bit set denotes *)

Import FixedBitSet (mk, words, wordAt, wordCount, NewFixedBitSet, grow, Test, update, Set_,
  Clear, Count, validTail, isFill, take_fill, take_literals, marker_of, encode_loop,
  EncodeEWAH, fill_loop, literal_loop, decode_loop, DecodeEWAH).

Record wf_set (s : FixedBitSet) : Prop := {
  wf_length : 0 <= FixedBitSet.length s <= MaxUint64 - 63;
  wf_words : zlen (words s) = (FixedBitSet.length s + 63) / 64;
  wf_word : Forall is_u64 (words s);
  wf_tail : validTail s = true;
}.

(** Bit [i] of an array of words *)
Definition bitAt (ws : list Z) (i : Z) : bool := Z.testbit (wordAt ws (i / 64)) (i mod 64).

Definition members (s : FixedBitSet) : gset Z :=
  list_to_set (filter (fun i => Test s i = true) (seqZ 0 (FixedBitSet.length s))).

Lemma single_bit j : 0 <= j < 64 -> u64 (Z.shiftl 1 j) = 2 ^ j.
Proof.
  intros Hj. rewrite Z.shiftl_1_l. apply uwrap_small. split; [lia|].
  apply Z.pow_lt_mono_r; lia.
Qed.

Lemma land_pow2_testbit w j : 0 <= j -> negb (Z.land w (2 ^ j) =? 0) = Z.testbit w j.
Proof.
  intros Hj. destruct (Z.testbit w j) eqn:E.
  - apply negb_true_iff, Z.eqb_neq. intros H0.
    apply (f_equal (fun z => Z.testbit z j)) in H0.
    by rewrite Z.land_spec, E, Z.pow2_bits_true, Z.bits_0 in H0.
  - apply negb_false_iff, Z.eqb_eq, Z.bits_inj_0. intros i. rewrite Z.land_spec.
    destruct (decide (i = j)) as [->|]; [by rewrite E|].
    by rewrite Z.pow2_bits_false, andb_false_r by congruence.
Qed.

Lemma Test_bitAt s i :
  0 <= i -> Test s i = (i <? FixedBitSet.length s) && bitAt (words s) i.
Proof.
  intros Hi. unfold Test, bitAt. pose proof (Z.mod_pos_bound i 64 ltac:(lia)).
  by rewrite single_bit, land_pow2_testbit by lia.
Qed.

Lemma elem_members s i :
  i ∈ members s <-> 0 <= i < FixedBitSet.length s /\ bitAt (words s) i = true.
Proof.
  unfold members. rewrite elem_of_list_to_set, list_elem_of_filter, elem_of_seqZ. split.
  - intros [H ?]. rewrite Test_bitAt in H by lia. split_bool. split; [lia|done].
  - intros [? H]. rewrite Test_bitAt, H by lia.
    destruct (Z.ltb_spec i (FixedBitSet.length s)); [|lia]. split; [done|lia].
Qed.

Lemma wordAt_update ws k f k' :
  0 <= k < zlen ws -> 0 <= k' ->
  wordAt (update ws k f) k' = if k =? k' then f (wordAt ws k) else wordAt ws k'.
Proof.
  intros Hk Hk'. unfold wordAt at 1, update. unfold zlen in Hk.
  destruct (Z.eqb_spec k k') as [<-|].
  - by rewrite list_lookup_insert_eq by lia.
  - by rewrite list_lookup_insert_ne by lia.
Qed.

Lemma bitAt_update ws k f i :
  0 <= k < zlen ws -> 0 <= i ->
  bitAt (update ws k f) i =
    if i / 64 =? k then Z.testbit (f (wordAt ws k)) (i mod 64) else bitAt ws i.
Proof.
  intros Hk Hi. unfold bitAt. rewrite wordAt_update by (try apply Z.div_pos; lia).
  rewrite Z.eqb_sym. by destruct (i / 64 =? k).
Qed.

Lemma index_word s i :
  wf_set s -> 0 <= i < FixedBitSet.length s -> 0 <= i / 64 < zlen (words s).
Proof. intros [] Hi. rewrite wf_words0. div_lia. Qed.

Lemma wordAt_u64 ws k : Forall is_u64 ws -> is_u64 (wordAt ws k).
Proof.
  intros H. unfold wordAt. destruct (ws !! Z.to_nat k) eqn:E; [|done].
  exact (Forall_lookup_1 _ _ _ _ H E).
Qed.

Lemma validTail_bitAt s :
  0 <= FixedBitSet.length s -> zlen (words s) = (FixedBitSet.length s + 63) / 64 ->
  Forall is_u64 (words s) ->
  validTail s = true <->
  forall i, FixedBitSet.length s <= i < 64 * zlen (words s) -> bitAt (words s) i = false.
Proof.
  intros Hl Hw Hu. unfold validTail. set (n := FixedBitSet.length s) in *.
  destruct (Z.eqb_spec n 0) as [E|E]; simpl.
  { rewrite E in *. split; [|done]. intros _ i Hi. change ((0 + 63) / 64) with 0 in Hw. lia. }
  destruct (Z.eqb_spec (n mod 64) 0) as [E'|E'].
  { split; [|done]. intros _ i Hi. exfalso. rewrite Hw in Hi. div_lia. }
  pose proof (Z.mod_pos_bound n 64 ltac:(lia)) as Hm.
  assert (zlen (words s) - 1 = n / 64) as -> by (rewrite Hw; div_lia).
  assert (u64 (Z.shiftl 1 (n mod 64) - 1) = Z.ones (n mod 64)) as ->.
  { rewrite Z.shiftl_1_l, Z.ones_equiv. apply uwrap_small. unfold is_uint.
    assert (2 ^ (n mod 64) < 2 ^ 64) by (apply Z.pow_lt_mono_r; lia). lia. }
  rewrite Z.eqb_eq. split.
  - intros H i Hi. unfold bitAt. assert (i / 64 = n / 64) as -> by (rewrite Hw in Hi; div_lia).
    apply (f_equal (fun z => Z.testbit z (i mod 64))) in H.
    rewrite Z.ldiff_spec, Z.bits_0, Z.ones_spec_high, andb_true_r in H; [done|].
    rewrite Hw in Hi. div_lia.
  - intros H. apply Z.bits_inj_0. intros j. rewrite Z.ldiff_spec.
    destruct (decide (j < 0)); [by rewrite Z.testbit_neg_r by lia|].
    destruct (decide (j < n mod 64)); [by rewrite Z.ones_spec_low, andb_false_r by lia|].
    destruct (decide (j < 64)).
    + specialize (H (n / 64 * 64 + j) ltac:(rewrite Hw; div_lia)). unfold bitAt in H.
      rewrite Z.div_add_l, (Z.div_small j 64), Z.add_0_r in H by lia.
      rewrite Z.add_comm, Z_mod_plus_full, Z.mod_small in H by lia. by rewrite H.
    + assert (Z.testbit (wordAt (words s) (n / 64)) j = false) as ->; [|done].
      destruct (wordAt_u64 (words s) (n / 64) Hu).
      apply (Z.bounded_iff_bits_nonneg 64 (wordAt (words s) (n / 64))); unfold is_uint in *; lia.
Qed.

Lemma wf_tail_bits s i :
  wf_set s -> FixedBitSet.length s <= i < 64 * zlen (words s) -> bitAt (words s) i = false.
Proof.
  intros [[Hl _] Hw Hu Ht] Hi. exact (proj1 (validTail_bitAt s Hl Hw Hu) Ht i Hi).
Qed.

Lemma testbit_pow2 n j : 0 <= n -> 0 <= j -> Z.testbit (2 ^ n) j = (n =? j).
Proof. intros. apply Z.pow2_bits_eqb. done. Qed.

Lemma same_index i j : 0 <= i -> 0 <= j ->
  (j / 64 =? i / 64) && (i mod 64 =? j mod 64) = (j =? i).
Proof.
  intros. destruct (Z.eqb_spec j i) as [->|]; [by rewrite !Z.eqb_refl|].
  destruct (Z.eqb_spec (j / 64) (i / 64)); [|done].
  apply Z.eqb_neq. pose proof (Z.div_mod i 64). pose proof (Z.div_mod j 64). lia.
Qed.

(** An update of one word by a function that keeps words 64 bits wide and does
    not set a bit beyond the length keeps the set well formed. *)
Lemma wf_update s k f :
  wf_set s -> 0 <= k < zlen (words s) -> (forall w, is_u64 w -> is_u64 (f w)) ->
  (forall j, FixedBitSet.length s <= j < 64 * zlen (words s) ->
     bitAt (update (words s) k f) j = false) ->
  wf_set (mk (update (words s) k f) (FixedBitSet.length s)).
Proof.
  intros Hwf Hk Hf Htail. destruct Hwf as [Hl Hw Hu Ht].
  assert (zlen (update (words s) k f) = zlen (words s)) as Hz
    by (unfold update, zlen; by rewrite length_insert).
  assert (Forall is_u64 (update (words s) k f)) as Hu'.
  { apply Forall_insert; [done|]. by apply Hf, wordAt_u64. }
  split; cbn [FixedBitSet.length words]; [done|by rewrite Hz|done|].
  apply validTail_bitAt; cbn [FixedBitSet.length words]; [lia|by rewrite Hz|done|].
  by rewrite Hz.
Qed.

Lemma bitAt_Set s i j :
  wf_set s -> 0 <= i < FixedBitSet.length s -> 0 <= j ->
  bitAt (words (Set_ s i).1) j = (j =? i) || bitAt (words s) j.
Proof.
  intros Hwf Hi Hj. unfold Set_. destruct (Z.leb_spec (FixedBitSet.length s) i); [lia|].
  pose proof (Z.mod_pos_bound i 64 ltac:(lia)). pose proof (Z.mod_pos_bound j 64 ltac:(lia)).
  cbn [fst words]. rewrite bitAt_update by (first [by apply index_word | lia]).
  rewrite <- (same_index i j) by lia. destruct (Z.eqb_spec (j / 64) (i / 64)) as [E|E]; [|done].
  rewrite single_bit, Z.lor_spec, testbit_pow2 by lia. unfold bitAt. rewrite E. simpl.
  apply orb_comm.
Qed.

Lemma bitAt_Clear s i j :
  wf_set s -> 0 <= i < FixedBitSet.length s -> 0 <= j ->
  bitAt (words (Clear s i).1) j = negb (j =? i) && bitAt (words s) j.
Proof.
  intros Hwf Hi Hj. unfold Clear. destruct (Z.leb_spec (FixedBitSet.length s) i); [lia|].
  pose proof (Z.mod_pos_bound i 64 ltac:(lia)). pose proof (Z.mod_pos_bound j 64 ltac:(lia)).
  cbn [fst words]. rewrite bitAt_update by (first [by apply index_word | lia]).
  rewrite <- (same_index i j) by lia. destruct (Z.eqb_spec (j / 64) (i / 64)) as [E|E]; [|done].
  rewrite single_bit, Z.ldiff_spec, testbit_pow2 by lia. unfold bitAt. rewrite E. simpl.
  apply andb_comm.
Qed.

Lemma lor_u64 a b : is_u64 a -> is_u64 b -> is_u64 (Z.lor a b).
Proof.
  intros [Ha1 Ha2] [Hb1 Hb2]. assert (0 <= Z.lor a b) by by apply Z.lor_nonneg.
  split; [done|]. apply (Z.bounded_iff_bits_nonneg 64); [done..|]. intros i Hi.
  rewrite Z.lor_spec. rewrite (proj1 (Z.bounded_iff_bits_nonneg 64 a ltac:(done) Ha1) Ha2) by done.
  by rewrite (proj1 (Z.bounded_iff_bits_nonneg 64 b ltac:(done) Hb1) Hb2) by done.
Qed.

Lemma ldiff_u64 a b : is_u64 a -> is_u64 (Z.ldiff a b).
Proof.
  intros [Ha1 Ha2]. assert (0 <= Z.ldiff a b) by (apply Z.ldiff_nonneg; by left).
  split; [done|]. apply (Z.bounded_iff_bits_nonneg 64); [done..|]. intros i Hi.
  rewrite Z.ldiff_spec. by rewrite (proj1 (Z.bounded_iff_bits_nonneg 64 a ltac:(done) Ha1) Ha2) by done.
Qed.

Lemma wf_Set s i : wf_set s -> 0 <= i -> wf_set (Set_ s i).1.
Proof.
  intros Hwf Hi. destruct (decide (i < FixedBitSet.length s)) as [Hlt|Hlt].
  - pose proof (bitAt_Set s i) as Hb. unfold Set_ in *.
    destruct (Z.leb_spec (FixedBitSet.length s) i); [lia|]. cbn [fst words] in *.
    apply wf_update; [done|by apply index_word| |].
    + intros w Hw. apply lor_u64; [done|]. by apply uwrap_range.
    + intros j Hj. rewrite Hb by (try done; destruct Hwf; lia).
      rewrite (wf_tail_bits s j) by done. destruct (Z.eqb_spec j i); [lia|done].
  - unfold Set_. by destruct (Z.leb_spec (FixedBitSet.length s) i); [|lia].
Qed.

Lemma wf_Clear s i : wf_set s -> 0 <= i -> wf_set (Clear s i).1.
Proof.
  intros Hwf Hi. destruct (decide (i < FixedBitSet.length s)) as [Hlt|Hlt].
  - pose proof (bitAt_Clear s i) as Hb. unfold Clear in *.
    destruct (Z.leb_spec (FixedBitSet.length s) i); [lia|]. cbn [fst words] in *.
    apply wf_update; [done|by apply index_word| |].
    + intros w Hw. by apply ldiff_u64.
    + intros j Hj. rewrite Hb by (try done; destruct Hwf; lia).
      rewrite (wf_tail_bits s j) by done. apply andb_false_r.
  - unfold Clear. by destruct (Z.leb_spec (FixedBitSet.length s) i); [|lia].
Qed.

(** ** Counting *)

Definition count_bits (f : Z -> bool) (n : nat) : Z :=
  zsum ((fun i => Z.b2z (f i)) <$> seqZ 0 (Z.of_nat n)).

Lemma zsum_app l k : zsum (l ++ k) = zsum l + zsum k.
Proof. induction l as [|x l IH]; cbn; [done|]. unfold zsum in *. lia. Qed.

Lemma seqZ_shift a m n : seqZ (m + a) n = Z.add a <$> seqZ m n.
Proof. rewrite Z.add_comm. symmetry. apply fmap_add_seqZ. Qed.

Lemma count_bits_split f a b :
  count_bits f (a + b) = count_bits f a + count_bits (fun i => f (Z.of_nat a + i)) b.
Proof.
  unfold count_bits. rewrite Nat2Z.inj_add, seqZ_app by lia.
  rewrite fmap_app, zsum_app. f_equal.
  rewrite (seqZ_shift (Z.of_nat a)), <- list_fmap_compose. done.
Qed.

Lemma count_bits_ext f g n :
  (forall i, 0 <= i < Z.of_nat n -> f i = g i) -> count_bits f n = count_bits g n.
Proof.
  intros H. unfold count_bits. f_equal. apply list_fmap_ext. intros k i Hi.
  apply list_elem_of_lookup_2, elem_of_seqZ in Hi. rewrite H; [done|lia].
Qed.

Lemma count_bits_false f n :
  (forall i, 0 <= i < Z.of_nat n -> f i = false) -> count_bits f n = 0.
Proof.
  intros H. rewrite (count_bits_ext f (fun _ => false)) by done. unfold count_bits.
  induction (seqZ 0 (Z.of_nat n)); [done|]. cbn. done.
Qed.

Lemma bits_count n v : 0 <= v -> zsum (bits n v) = count_bits (Z.testbit v) n.
Proof.
  revert v. induction n as [|n IH]; intros v Hv; [done|].
  change (S n) with (1 + n)%nat. rewrite count_bits_split. cbn [bits plus].
  change (zsum (v mod 2 :: bits n (v / 2))) with (v mod 2 + zsum (bits n (v / 2))).
  rewrite IH by (apply Z.div_pos; lia). f_equal.
  - change (count_bits (Z.testbit v) 1) with (Z.b2z (Z.testbit v 0) + 0).
    rewrite Z.bit0_mod. lia.
  - apply count_bits_ext. intros i Hi. replace (Z.of_nat 1 + i) with (Z.succ i) by lia.
    by rewrite Z.div2_bits by lia.
Qed.

Lemma bitAt_cons w ws i :
  0 <= i -> bitAt (w :: ws) i = if i <? 64 then Z.testbit w i else bitAt ws (i - 64).
Proof.
  intros Hi. unfold bitAt, wordAt. destruct (Z.ltb_spec i 64).
  - by rewrite Z.div_small, Z.mod_small by lia.
  - replace ((i - 64) / 64) with (i / 64 - 1) by div_lia.
    replace ((i - 64) mod 64) with (i mod 64) by div_lia.
    assert (1 <= i / 64) by (apply Z.div_le_lower_bound; lia).
    replace (Z.to_nat (i / 64)) with (S (Z.to_nat (i / 64 - 1))) by lia. done.
Qed.

Lemma count_words ws :
  Forall is_u64 ws ->
  zsum (populationCount <$> ws) = count_bits (bitAt ws) (64 * length ws).
Proof.
  induction ws as [|w ws IH]; intros Hu; [done|]. apply Forall_cons in Hu as [Hw Hu].
  rewrite fmap_cons. change (zsum (populationCount w :: (populationCount <$> ws)))
    with (populationCount w + zsum (populationCount <$> ws)).
  rewrite IH, populationCount_spec, bits_count by (try done; apply Hw).
  change (64 * length (w :: ws))%nat with (64 * S (length ws))%nat.
  replace (64 * S (length ws))%nat with (64 + 64 * length ws)%nat by lia.
  rewrite count_bits_split.
  apply (f_equal2 Z.add); apply count_bits_ext; intros i Hi; rewrite bitAt_cons by lia.
  - by destruct (Z.ltb_spec i 64); [|lia].
  - destruct (Z.ltb_spec (Z.of_nat 64 + i) 64); [lia|]. f_equal. lia.
Qed.

Lemma popcount_range v : is_u64 v -> 0 <= populationCount v <= 64.
Proof.
  intros Hv. rewrite populationCount_spec by done.
  destruct (bits_spec 64 v Hv) as (_ & B & L).
  assert (forall l, below 1 l -> 0 <= zsum l <= zlen l) as Hsum.
  { induction l as [|d l IH]; [done|]. intros [? ?%IH]%Forall_cons.
    rewrite zlen_cons. cbn. unfold zsum in *. lia. }
  specialize (Hsum _ B). unfold zlen in Hsum. rewrite L in Hsum. lia.
Qed.

Lemma Count_loop ws acc :
  Forall is_u64 ws -> 0 <= acc -> acc + 64 * zlen ws < 2 ^ 64 ->
  fold_left (fun count word => u64 (count + populationCount word)) ws acc
  = acc + zsum (populationCount <$> ws).
Proof.
  revert acc. induction ws as [|w ws IH]; intros acc Hu Ha Hb; [cbn; lia|].
  apply Forall_cons in Hu as [Hw Hu]. cbn [fold_left].
  pose proof (popcount_range w Hw). rewrite zlen_cons in Hb. pose proof (zlen_nonneg ws).
  rewrite uwrap_small by (unfold is_uint; lia). rewrite IH by (try done; lia).
  rewrite fmap_cons. cbn. unfold zsum. lia.
Qed.

Lemma count_bits_size f n :
  count_bits f n = Z.of_nat (size (list_to_set (filter (fun i => f i = true)
    (seqZ 0 (Z.of_nat n))) : gset Z)).
Proof.
  rewrite size_list_to_set by (apply NoDup_filter, NoDup_seqZ). unfold count_bits.
  induction (seqZ 0 (Z.of_nat n)) as [|i l IH]; [done|].
  rewrite fmap_cons, filter_cons. cbn [zsum foldr]. fold (zsum ((fun i => Z.b2z (f i)) <$> l)).
  rewrite IH. case_decide as E; [rewrite E|apply not_true_is_false in E; rewrite E];
    cbn [Z.b2z length]; lia.
Qed.

Lemma Count_members s : wf_set s -> Count s = Z.of_nat (size (members s)).
Proof.
  intros Hwf. pose proof Hwf as [Hl Hw Hu _]. unfold Count.
  rewrite Count_loop, Z.add_0_l, count_words by (try done; unfold MaxUint64 in Hl; div_lia).
  assert (exists k, (64 * length (words s) = Z.to_nat (FixedBitSet.length s) + k)%nat) as (k & E).
  { exists (64 * length (words s) - Z.to_nat (FixedBitSet.length s))%nat.
    unfold zlen in Hw. div_lia. }
  rewrite E, count_bits_split, (count_bits_false (fun i => bitAt (words s)
    (Z.of_nat (Z.to_nat (FixedBitSet.length s)) + i))).
  - rewrite Z.add_0_r, count_bits_size, Z2Nat.id by lia. do 2 f_equal. apply set_eq. intros i.
    rewrite elem_members, elem_of_list_to_set, list_elem_of_filter, elem_of_seqZ. naive_solver lia.
  - intros i Hi. apply wf_tail_bits; [done|]. unfold zlen. lia.
Qed.

Lemma bitAt_zeros n i : bitAt (replicate n 0) i = false.
Proof.
  unfold bitAt, wordAt. destruct (replicate n 0 !! Z.to_nat (i / 64)) eqn:E.
  - apply lookup_replicate in E as [-> _]. apply Z.bits_0.
  - apply Z.bits_0.
Qed.

Lemma New_members n s :
  is_u64 n -> NewFixedBitSet n = Ok s ->
  wf_set s /\ FixedBitSet.length s = n /\ members s = ∅.
Proof.
  intros Hn H. unfold NewFixedBitSet in H. step_guards H. injection H as <-. split_bool.
  assert (wordCount n = (n + 63) / 64) as Hc.
  { unfold wordCount. rewrite uwrap_small by width_lia. done. }
  rewrite Hc in *. assert (0 <= (n + 63) / 64) by (apply Z.div_pos; unfold is_uint in *; lia).
  set (ws := replicate _ _).
  assert (zlen ws = (n + 63) / 64) as Hz by (unfold zlen, ws; rewrite length_replicate; lia).
  assert (Forall is_u64 ws) as Hu by by apply Forall_replicate.
  split; [|split; [done|]].
  - split; cbn [FixedBitSet.length words]; [unfold is_uint in *; lia|done..|].
    apply validTail_bitAt; cbn [FixedBitSet.length words]; [unfold is_uint in *; lia|done..|].
    intros i Hi. apply bitAt_zeros.
  - apply set_eq. intros i. rewrite elem_members. cbn [words]. unfold ws.
    rewrite bitAt_zeros. set_solver.
Qed.

Lemma members_Set s i :
  wf_set s -> 0 <= i ->
  members (Set_ s i).1 = (if i <? FixedBitSet.length s then {[i]} ∪ members s else members s).
Proof.
  intros Hwf Hi. pose proof (bitAt_Set s i) as Hb. unfold Set_ in *.
  destruct (Z.leb_spec (FixedBitSet.length s) i), (Z.ltb_spec i (FixedBitSet.length s));
    try lia; [done|].
  apply set_eq. intros j. rewrite elem_of_union, elem_of_singleton, !elem_members.
  cbn [fst words FixedBitSet.length] in *.
  destruct (decide (0 <= j)); [|naive_solver lia]. rewrite Hb by done.
  rewrite orb_true_iff, Z.eqb_eq. naive_solver lia.
Qed.

Lemma members_Clear s i :
  wf_set s -> 0 <= i -> members (Clear s i).1 = members s ∖ {[i]}.
Proof.
  intros Hwf Hi. pose proof (bitAt_Clear s i) as Hb. unfold Clear in *.
  destruct (Z.leb_spec (FixedBitSet.length s) i); apply set_eq; intros j;
    rewrite elem_of_difference, elem_of_singleton, !elem_members; [naive_solver lia|].
  cbn [fst words FixedBitSet.length] in *.
  destruct (decide (0 <= j)); [|naive_solver lia]. rewrite Hb by (done || lia).
  rewrite andb_true_iff, negb_true_iff, Z.eqb_neq. naive_solver lia.
Qed.

Lemma Test_members s i : 0 <= i -> Test s i = bool_decide (i ∈ members s).
Proof.
  intros Hi. rewrite Test_bitAt by done. case_bool_decide as E; rewrite elem_members in E.
  - destruct E as [? ->]. destruct (Z.ltb_spec i (FixedBitSet.length s)); [done|lia].
  - destruct (Z.ltb_spec i (FixedBitSet.length s)); [|done]. simpl.
    apply not_true_iff_false. intros ?. apply E. split; [lia|done].
Qed.

Lemma length_Set s i : FixedBitSet.length (Set_ s i).1 = FixedBitSet.length s.
Proof. unfold Set_. by destruct (_ <=? _). Qed.

Lemma length_Clear s i : FixedBitSet.length (Clear s i).1 = FixedBitSet.length s.
Proof. unfold Clear. by destruct (_ <=? _). Qed.

(** A bit set behaves as the finite set of the indices it holds.  A new
    set is empty; [Set] and [Clear] add and remove one index below the length
    and leave everything else alone, index out of range included; [Test] is
    membership; and the branch-free [Count] is the cardinality.  Every
    operation keeps the unused bits of the last word zero. *)
Theorem bitset_refines_set s i :
  wf_set s -> is_u64 i ->
  (forall n t, is_u64 n -> NewFixedBitSet n = Ok t ->
     wf_set t /\ FixedBitSet.length t = n /\ members t = ∅) /\
  (wf_set (Set_ s i).1 /\ FixedBitSet.length (Set_ s i).1 = FixedBitSet.length s /\
   (Set_ s i).2 = (i <? FixedBitSet.length s) /\
   members (Set_ s i).1
     = (if i <? FixedBitSet.length s then {[i]} ∪ members s else members s)) /\
  (wf_set (Clear s i).1 /\ FixedBitSet.length (Clear s i).1 = FixedBitSet.length s /\
   (Clear s i).2 = (i <? FixedBitSet.length s) /\
   members (Clear s i).1 = members s ∖ {[i]}) /\
  (Test s i = bool_decide (i ∈ members s)) /\
  Count s = Z.of_nat (size (members s)).
Proof.
  intros Hwf [Hi _]. split; [intros; by apply New_members|].
  split; [|split; [|split; [by apply Test_members|by apply Count_members]]].
  - split; [by apply wf_Set|]. split; [apply length_Set|]. split; [|by apply members_Set].
    unfold Set_. by rewrite Z.leb_antisym; destruct (i <? FixedBitSet.length s).
  - split; [by apply wf_Clear|]. split; [apply length_Clear|]. split; [|by apply members_Clear].
    unfold Clear. by rewrite Z.leb_antisym; destruct (i <? FixedBitSet.length s).
Qed.

Definition sample_set : FixedBitSet := mk [0; 0; 0] 130.

Lemma wf_sample_set : wf_set sample_set.
Proof. by apply (New_members 130). Qed.

Lemma bitset_refines_set_witness :
  members (Set_ sample_set 129).1 = {[129]} ∪ members sample_set /\
  Count (Set_ sample_set 129).1 = 1.
Proof.
  split; [|reflexivity].
  assert (is_u64 129) as Hi by (split; [discriminate|reflexivity]).
  destruct (bitset_refines_set sample_set 129 wf_sample_set Hi) as (_ & Hset & _).
  exact (proj2 (proj2 (proj2 Hset))).
Defined.

(** ** The encoding *)

Lemma lor_shifted a b n :
  0 <= n -> 0 <= a < 2 ^ n -> Z.lor a (Z.shiftl b n) = a + 2 ^ n * b.
Proof.
  intros Hn Ha. pose proof (Z.add_lor_land a (Z.shiftl b n)) as E.
  rewrite Z.shiftl_mul_pow2 in * by done.
  assert (Z.land (a + 2 ^ n * 0) (0 + 2 ^ n * b) = 0) as E'.
  { rewrite land_low_digit, Z.land_0_r, Z.land_0_l by lia. lia. }
  rewrite Z.mul_0_r, Z.add_0_r, Z.add_0_l, (Z.mul_comm (2 ^ n)) in E'. lia.
Qed.

Lemma marker_value fill fillWord literals :
  0 <= fill <= ewahFillMax -> 0 <= literals <= ewahLiteralMax ->
  marker_of fill fillWord literals
  = 2 * fill + Z.b2z (fillWord =? MaxUint64) + 2 ^ 32 * literals.
Proof.
  intros Hf Hl. unfold marker_of.
  change ewahFillMax with (2 ^ 31 - 1) in Hf. change ewahLiteralMax with (2 ^ 32 - 1) in Hl.
  rewrite Z.shiftl_mul_pow2 by done.
  rewrite (uwrap_small 64 (fill * 2 ^ 1)), (uwrap_small 64 (Z.shiftl literals 32))
    by (rewrite ?Z.shiftl_mul_pow2 by done; unfold is_uint; lia).
  rewrite <- Z.shiftl_mul_pow2 by done.
  destruct (fillWord =? MaxUint64); simpl Z.b2z.
  - rewrite (Z.lor_comm (Z.shiftl fill 1)), (lor_shifted 1 fill 1), lor_shifted by lia. lia.
  - rewrite lor_shifted by (rewrite ?Z.shiftl_mul_pow2 by done; lia).
    rewrite Z.shiftl_mul_pow2 by done. lia.
Qed.

Lemma marker_fields fill fillWord literals :
  0 <= fill <= ewahFillMax -> 0 <= literals <= ewahLiteralMax ->
  let marker := marker_of fill fillWord literals in
  Z.land (Z.shiftr marker 1) ewahFillMax = fill /\ Z.shiftr marker 32 = literals /\
  negb (Z.land marker 1 =? 0) = (fillWord =? MaxUint64).
Proof.
  intros Hf Hl. cbv zeta. rewrite marker_value by done.
  change ewahFillMax with (2 ^ 31 - 1) in *. change ewahLiteralMax with (2 ^ 32 - 1) in *.
  assert (0 <= Z.b2z (fillWord =? MaxUint64) <= 1) as Hb by (destruct (_ =? _); simpl; lia).
  set (b := Z.b2z _) in *. rewrite !Z.shiftr_div_pow2 by done. split; [|split].
  - change (2 ^ 31 - 1) with (Z.ones 31). rewrite Z.land_ones by done.
    replace (2 * fill + b + 2 ^ 32 * literals) with (b + (fill + 2 ^ 31 * literals) * 2 ^ 1) by lia.
    rewrite Z.div_add, Z.div_small, Z.add_0_l by lia.
    rewrite (Z.mul_comm (2 ^ 31)), Z_mod_plus_full. apply Z.mod_small. lia.
  - rewrite (Z.mul_comm (2 ^ 32)), Z.div_add, Z.div_small by lia. lia.
  - change 1 with (Z.ones 1). rewrite Z.land_ones by done.
    replace (2 * fill + b + 2 ^ 32 * literals) with (b + (fill + 2 ^ 31 * literals) * 2 ^ 1) by lia.
    rewrite Z_mod_plus_full, Z.mod_small by lia. unfold b. by destruct (_ =? _).
Qed.

Lemma take_fill_spec w fill rest :
  0 <= fill <= ewahFillMax ->
  exists n, take_fill w fill rest = (fill + Z.of_nat n, drop n rest) /\
    take n rest = replicate n w /\ fill + Z.of_nat n <= ewahFillMax /\ (n <= length rest)%nat /\
    (head rest = Some w -> fill < ewahFillMax -> (0 < n)%nat).
Proof.
  revert fill. induction rest as [|x rest IH]; intros fill Hf; cbn [take_fill].
  - exists O. rewrite Z.add_0_r. repeat split; [lia|done..].
  - destruct (Z.eqb_spec x w) as [->|Hx]; simpl; [destruct (Z.ltb_spec fill ewahFillMax)|].
    + destruct (IH (fill + 1)) as (n & E & T & B & L & _); [lia|].
      exists (S n). rewrite E. cbn [take drop replicate length]. rewrite T.
      repeat split; [f_equal; lia|lia..].
    + exists O. rewrite Z.add_0_r. repeat split; [lia..].
    + exists O. rewrite Z.add_0_r. repeat split; [lia|lia|]. intros [= ->]. done.
Qed.

(** 1 when the next word is a literal: the words a run of literals costs
    beyond the ones it carries. *)
Definition literal_start (rest : list Z) : Z :=
  match rest with w :: _ => if isFill w then 0 else 1 | [] => 0 end.

Lemma take_literals_spec count rest :
  0 <= count <= ewahLiteralMax ->
  exists literals rest', take_literals count rest = (literals, rest') /\
    rest = literals ++ rest' /\ Forall (fun w => isFill w = false) literals /\
    count + zlen literals <= ewahLiteralMax /\
    (literal_start rest' = 0 \/ count + zlen literals = ewahLiteralMax).
Proof.
  revert count. induction rest as [|x rest IH]; intros count Hc; cbn [take_literals].
  - exists [], []. rewrite zlen_nil. repeat split; [done|lia|by left].
  - destruct (Z.ltb_spec count ewahLiteralMax).
    + destruct (isFill x) eqn:Ex.
      * exists [], (x :: rest). rewrite zlen_nil. cbn. rewrite Ex. repeat split; [done|lia|by left].
      * destruct (IH (count + 1)) as (l & r & -> & -> & F & B & P); [lia|].
        exists (x :: l), r. rewrite zlen_cons. repeat split; [by apply Forall_cons|lia|].
        destruct P; [by left|right; lia].
    + exists [], (x :: rest). rewrite zlen_nil. repeat split; [done|lia|right; lia].
Qed.

Lemma insert_middle (pre tail : list Z) x w :
  <[length pre := w]> (pre ++ x :: tail) = pre ++ w :: tail.
Proof. by rewrite insert_app_r_alt, Nat.sub_diag by lia. Qed.

Lemma fill_loop_spec n pre tail w :
  (n <= length tail)%nat ->
  fill_loop n (pre ++ tail) (length pre) w = pre ++ replicate n w ++ drop n tail.
Proof.
  revert pre tail. induction n as [|n IH]; intros pre tail Hn; [done|].
  destruct tail as [|x tail]; [cbn in Hn; lia|]. cbn [fill_loop].
  rewrite insert_middle.
  replace (S (length pre)) with (length (pre ++ [w])) by (rewrite length_app; cbn; lia).
  rewrite cons_middle, app_assoc, IH by (cbn in Hn; lia). by rewrite <- app_assoc.
Qed.

Lemma literal_loop_spec literals pre tail :
  Forall (fun w => isFill w = false) literals -> (length literals <= length tail)%nat ->
  literal_loop literals (pre ++ tail) (length pre)
  = (pre ++ literals ++ drop (length literals) tail, true).
Proof.
  intros F. revert pre tail. induction F as [|w literals Hw _ IH]; intros pre tail Hn; [done|].
  destruct tail as [|x tail]; [cbn in Hn; lia|]. cbn [literal_loop]. rewrite Hw.
  rewrite insert_middle.
  replace (S (length pre)) with (length (pre ++ [w])) by (rewrite length_app; cbn; lia).
  rewrite cons_middle, app_assoc, IH by (cbn in Hn; lia). by rewrite <- app_assoc.
Qed.

(** One marker with its literals, decoded over cleared words. *)
Lemma decode_step fuel (n m : nat) w literals encoded pre :
  (w = 0 \/ w = MaxUint64) -> Z.of_nat n <= ewahFillMax -> zlen literals <= ewahLiteralMax ->
  Z.of_nat n + zlen literals <> 0 -> Forall (fun l => isFill l = false) literals ->
  decode_loop (S fuel) (marker_of (Z.of_nat n) w (zlen literals) :: literals ++ encoded)
    (pre ++ replicate (n + (length literals + m)) 0) (length pre)
  = decode_loop fuel encoded
      ((pre ++ replicate n w ++ literals) ++ replicate m 0)
      (length (pre ++ replicate n w ++ literals)).
Proof.
  intros Hw Hn Hl Hne F. cbn [decode_loop]. pose proof (zlen_nonneg literals).
  destruct (marker_fields (Z.of_nat n) w (zlen literals)) as (E1 & E2 & E3); [lia..|].
  rewrite E1, E2, E3. clear E1 E2 E3.
  assert ((Z.of_nat n =? 0) && (zlen literals =? 0) = false) as ->.
  { apply andb_false_iff. rewrite !Z.eqb_neq. lia. }
  destruct (Z.ltb_spec (zlen (literals ++ encoded)) (zlen literals)) as [Hlt|_].
  { rewrite zlen_app in Hlt. pose proof (zlen_nonneg encoded). lia. }
  destruct (Z.ltb_spec (zlen (pre ++ replicate (n + (length literals + m)) 0) - Z.of_nat (length pre))
    (Z.of_nat n)) as [Hlt|_].
  { unfold zlen in Hlt. rewrite length_app, length_replicate in Hlt. lia. }
  cbn [orb]. rewrite Nat2Z.id.
  assert ((if w =? MaxUint64 then MaxUint64 else 0) = w) as -> by (by destruct Hw as [->| ->]).
  rewrite fill_loop_spec by (rewrite length_replicate; lia). rewrite drop_replicate.
  replace (n + (length literals + m) - n)%nat with (length literals + m)%nat by lia.
  destruct (Z.ltb_spec (zlen (pre ++ replicate n w ++ replicate (length literals + m) 0)
    - Z.of_nat (length pre + n)) (zlen literals)) as [Hlt|_].
  { unfold zlen in Hlt. rewrite !length_app, !length_replicate in Hlt. lia. }
  unfold zlen. rewrite Nat2Z.id, take_app_length, drop_app_length.
  rewrite app_assoc.
  replace (length pre + n)%nat with (length (pre ++ replicate n w))
    by (rewrite length_app, length_replicate; lia).
  rewrite literal_loop_spec by (try done; rewrite length_replicate; lia). cbn [negb].
  rewrite drop_replicate. replace (length literals + m - length literals)%nat with m by lia.
  f_equal.
  - by rewrite !app_assoc.
  - rewrite !length_app. lia.
Qed.

(** The run that starts an iteration of the encoder. *)
Lemma fill_run word rest :
  exists n rest',
    (if isFill word then take_fill word 0 (word :: rest) else (0, word :: rest))
      = (Z.of_nat n, rest') /\
    word :: rest = replicate n (if isFill word then word else 0) ++ rest' /\
    Z.of_nat n <= ewahFillMax /\ (n = O -> isFill word = false /\ rest' = word :: rest).
Proof.
  destruct (isFill word) eqn:Ei.
  - destruct (take_fill_spec word 0 (word :: rest)) as (n & E & T & B & L & P); [done|].
    exists n, (drop n (word :: rest)). rewrite E, <- T, take_drop.
    specialize (P eq_refl ltac:(done)). repeat split; try done; lia.
  - by exists O, (word :: rest).
Qed.

Lemma fill_word word :
  (if isFill word then word else 0) = 0 \/ (if isFill word then word else 0) = MaxUint64.
Proof.
  destruct (isFill word) eqn:Ei; [|by left]. unfold isFill in Ei.
  rewrite orb_true_iff, !Z.eqb_eq in Ei. done.
Qed.

(** The words an encoding takes: one per word, one marker for a leading run of
    literals, and one more each time a run of literals is cut at the 2^32 - 1
    a marker can count. *)
Definition ewah_words (rest : list Z) : Z :=
  zlen rest + literal_start rest + zlen rest / ewahLiteralMax.

Lemma literal_start_bounds rest : 0 <= literal_start rest <= 1.
Proof. destruct rest as [|w rest]; cbn; [lia|]. destruct (isFill w); lia. Qed.

(** One marker with its fill and literals costs no more than [ewah_words] allows. *)
Lemma ewah_words_step word rest n lits rest2 :
  word :: rest = replicate n (if isFill word then word else 0) ++ lits ++ rest2 ->
  (n = O -> isFill word = false) ->
  Forall (fun w => isFill w = false) lits ->
  literal_start rest2 = 0 \/ zlen lits = ewahLiteralMax ->
  1 + zlen lits + ewah_words rest2 <= ewah_words (word :: rest) /\
  zlen (word :: rest) = Z.of_nat n + zlen lits + zlen rest2 /\ Z.of_nat n + zlen lits <> 0.
Proof.
  intros E Hn0 F HP. unfold ewah_words.
  assert (zlen (word :: rest) = Z.of_nat n + zlen lits + zlen rest2) as El.
  { rewrite E, !zlen_app. unfold zlen at 1. rewrite length_replicate. lia. }
  pose proof (zlen_nonneg lits). pose proof (zlen_nonneg rest2).
  pose proof (literal_start_bounds rest2). pose proof (literal_start_bounds (word :: rest)).
  assert (1 <= Z.of_nat n + literal_start (word :: rest)) as Hstart.
  { destruct n; [|lia]. cbn. rewrite Hn0 by done. lia. }
  assert (0 < ewahLiteralMax) by done. set (M := ewahLiteralMax) in *.
  rewrite El. assert (Z.of_nat n + zlen lits <> 0) as Hne.
  { destruct n as [|n]; [|lia]. destruct lits; [|rewrite zlen_cons in *; pose proof (zlen_nonneg lits); lia].
    cbn in E. change (zlen (@nil Z)) with 0 in HP. destruct HP as [HP|HP]; [|lia].
    rewrite <- E in HP. cbn in HP. by rewrite Hn0 in HP. }
  split; [|done]. destruct HP as [-> | HM].
  - assert (zlen rest2 / M <= (Z.of_nat n + zlen lits + zlen rest2) / M) by (apply Z.div_le_mono; lia).
    lia.
  - assert (zlen rest2 / M + 1 <= (Z.of_nat n + zlen lits + zlen rest2) / M).
    { rewrite <- (Z.div_add _ 1 M) by lia. apply Z.div_le_mono; lia. }
    lia.
Qed.

Lemma encode_decode_loop fuel capacity rest written :
  (length rest <= fuel)%nat -> zlen written + ewah_words rest <= capacity ->
  exists out,
    encode_loop fuel capacity rest written = Some (Ok (written ++ out)) /\
    zlen out <= ewah_words rest /\
    forall fuel' pre, (length out <= fuel')%nat ->
      decode_loop fuel' out (pre ++ replicate (length rest) 0) (length pre)
      = Some (pre ++ rest, length (pre ++ rest), true).
Proof.
  revert rest written. induction fuel as [|fuel IH]; intros [|word rest] written Hf Hc;
    try (cbn in Hf; lia); try (exists []; cbn; rewrite app_nil_r; split; [done|];
      split; [done|]; intros [|?] pre _; cbn; by rewrite app_nil_r).
  cbn [encode_loop]. destruct (fill_run word rest) as (n & rest1 & E1 & Eall & Hn & Hn0).
  pose proof (fill_word word) as Hw. set (w := if isFill word then word else 0) in *.
  replace (if isFill word then take_fill w 0 (word :: rest) else (0, word :: rest))
    with (Z.of_nat n, rest1) by (rewrite <- E1; unfold w; by destruct (isFill word)).
  destruct (take_literals_spec 0 rest1) as (lits & rest2 & -> & -> & F & B & P); [done|].
  rewrite Z.add_0_l in P.
  destruct (ewah_words_step word rest n lits rest2 Eall) as (Hstep & Elen & Hne);
    [naive_solver|done..|].
  pose proof (zlen_nonneg lits) as Hl.
  assert (0 <= ewah_words rest2) as Hr2.
  { unfold ewah_words. pose proof (literal_start_bounds rest2). pose proof (zlen_nonneg rest2).
    assert (0 <= zlen rest2 / ewahLiteralMax) by (apply Z.div_pos; [lia|done]). lia. }
  assert ((Z.of_nat n =? 0) && (zlen lits =? 0) = false) as ->.
  { apply andb_false_iff. rewrite !Z.eqb_neq. lia. }
  destruct (Z.leb_spec capacity (zlen written)); [lia|].
  destruct (Z.ltb_spec (capacity - zlen written - 1) (zlen lits)); [lia|]. cbn [orb].
  destruct (IH rest2 (written ++ marker_of (Z.of_nat n) w (zlen lits) :: lits))
    as (out & Eo & Lo & Do).
  { unfold zlen in *. cbn [length] in *. lia. }
  { rewrite zlen_app, zlen_cons. lia. }
  exists (marker_of (Z.of_nat n) w (zlen lits) :: lits ++ out). split; [|split].
  - rewrite Eo. by rewrite <- app_assoc.
  - rewrite zlen_cons, zlen_app. lia.
  - intros [|fuel'] pre Hfuel; [cbn in Hfuel; lia|].
    replace (length (word :: rest)) with (n + (length lits + length rest2))%nat
      by (unfold zlen in Elen; lia).
    rewrite decode_step by (done || lia).
    rewrite Do by (cbn in Hfuel; rewrite length_app in Hfuel; lia).
    by rewrite Eall, <- !app_assoc.
Qed.

Lemma encode_decode_EWAH s t capacity :
  wf_set s -> wf_set t -> FixedBitSet.length t = FixedBitSet.length s ->
  ewah_words (words s) <= capacity ->
  exists out,
    EncodeEWAH s capacity = Some (Ok out) /\ zlen out <= ewah_words (words s) /\
    DecodeEWAH t out = Some (s, Ok tt).
Proof.
  intros Hs Ht El Hc. unfold EncodeEWAH, DecodeEWAH.
  rewrite (wf_tail s Hs). cbn [negb].
  destruct (encode_decode_loop (length (words s)) capacity (words s) []) as (out & E & L & D);
    [done|done|].
  exists out. split; [done|]. split; [done|].
  assert (length (words t) = length (words s)) as ->.
  { destruct Hs, Ht. unfold zlen in *. rewrite El in *. lia. }
  pose proof (D (length out) [] (le_n _)) as D'. cbn [app length] in D'. rewrite D'.
  cbn [mbind option_bind]. rewrite El, Nat.eqb_refl.
  assert (mk (words s) (FixedBitSet.length s) = s) as -> by by destruct s.
  by rewrite (wf_tail s Hs).
Qed.

(** C34: EWAH encoding always succeeds and is inverted by decoding.  A
    destination of one word per word of the set and one more suffices (the
    limit checkpoints are validated against), as long as a run of literals fits
    one marker; both loops terminate, and decoding the result into any set of
    the same length, whatever it held, restores the original. *)
Theorem ewah_roundtrip s t capacity :
  wf_set s -> wf_set t -> FixedBitSet.length t = FixedBitSet.length s ->
  zlen (words s) < ewahLiteralMax -> zlen (words s) + 1 <= capacity ->
  exists out,
    EncodeEWAH s capacity = Some (Ok out) /\ zlen out <= zlen (words s) + 1 /\
    DecodeEWAH t out = Some (s, Ok tt).
Proof.
  intros Hs Ht El Hm Hc. pose proof (zlen_nonneg (words s)).
  assert (ewah_words (words s) <= zlen (words s) + 1) as Hw.
  { unfold ewah_words. rewrite Z.div_small by lia.
    pose proof (literal_start_bounds (words s)). lia. }
  destruct (encode_decode_EWAH s t capacity Hs Ht El ltac:(lia)) as (out & E & L & D).
  exists out. split; [done|]. split; [lia|done].
Qed.

Lemma ewah_roundtrip_witness :
  exists out, EncodeEWAH sample_set 6 = Some (Ok out) /\
    DecodeEWAH sample_set out = Some (sample_set, Ok tt).
Proof.
  destruct (ewah_roundtrip sample_set sample_set 6 wf_sample_set wf_sample_set eq_refl
    eq_refl ltac:(discriminate)) as (out & E & _ & D).
  exists out. exact (conj E D).
Defined.

(** A mixed set: a run of zeros, two literals, a run of ones. *)
Example ewah_vector :
  EncodeEWAH (mk [0; 0; 5; 6; MaxUint64; MaxUint64; MaxUint64] 448) 14
  = Some (Ok [2 * 2 + 2 ^ 32 * 2; 5; 6; 3 * 2 + 1]).
Proof. vm_compute. reflexivity. Qed.

Lemma fill_loop_keeps n ws cursor w :
  is_u64 w -> Forall is_u64 ws ->
  Forall is_u64 (fill_loop n ws cursor w) /\ length (fill_loop n ws cursor w) = length ws.
Proof.
  intros Hw. revert ws cursor. induction n as [|n IH]; intros ws cursor Hu; [done|].
  cbn [fill_loop]. destruct (IH (<[cursor := w]> ws) (S cursor)) as [F L].
  - by apply Forall_insert.
  - by rewrite L, length_insert.
Qed.

Lemma literal_loop_keeps literals ws cursor ws' ok :
  Forall is_u64 literals -> Forall is_u64 ws ->
  literal_loop literals ws cursor = (ws', ok) ->
  Forall is_u64 ws' /\ length ws' = length ws.
Proof.
  intros Hl. revert ws cursor. induction Hl as [|l literals Hl _ IH]; intros ws cursor Hu H;
    cbn [literal_loop] in H.
  - by injection H as <- <-.
  - destruct (isFill l); [by injection H as <- <-|].
    apply IH in H as [F L]; [|by apply Forall_insert]. by rewrite L, length_insert.
Qed.

Lemma decode_loop_total fuel encoded ws cursor :
  (length encoded <= fuel)%nat -> Forall is_u64 encoded -> Forall is_u64 ws ->
  exists ws' cursor' ok, decode_loop fuel encoded ws cursor = Some (ws', cursor', ok) /\
    Forall is_u64 ws' /\ length ws' = length ws.
Proof.
  revert encoded ws cursor. induction fuel as [|fuel IH]; intros [|marker encoded] ws cursor Hf He Hu;
    try (cbn in Hf; lia); try (by exists ws, cursor, true).
  apply Forall_cons in He as [Hm He]. cbn [decode_loop].
  repeat match goal with
  | |- context [if ?b then Some (ws, cursor, false) else _] =>
      destruct b; [by exists ws, cursor, false|]
  end.
  set (w := if negb _ then MaxUint64 else 0).
  assert (is_u64 w) as Hw by (subst w; destruct (negb _); by split).
  set (n := Z.to_nat (Z.land _ _)).
  destruct (fill_loop_keeps n ws cursor w Hw Hu) as [F1 L1]. set (ws1 := fill_loop _ _ _ _) in *.
  destruct (_ <? _); [by exists ws1, (cursor + n)%nat, false|].
  destruct (literal_loop _ _ _) as [ws2 ok] eqn:E.
  apply literal_loop_keeps in E as [F2 L2]; [|by apply Forall_take|done].
  destruct ok; cbn [negb].
  - destruct (IH (drop (Z.to_nat (Z.shiftr marker 32)) encoded) ws2
      (cursor + n + Z.to_nat (Z.shiftr marker 32))%nat) as (ws' & c' & ok' & Ed & Fd & Ld).
    + rewrite length_drop. cbn in Hf. lia.
    + by apply Forall_drop.
    + done.
    + exists ws', c', ok'. rewrite Ed. split; [done|]. split; [done|congruence].
  - exists ws2, (cursor + n)%nat, false. split; [done|]. split; [done|congruence].
Qed.

(** Decoding terminates on any input, and what it accepts is a well-formed
    set of the expected length. *)
Lemma DecodeEWAH_sound t encoded :
  wf_set t -> Forall is_u64 encoded ->
  exists s r, DecodeEWAH t encoded = Some (s, r) /\
    FixedBitSet.length s = FixedBitSet.length t /\ (r = Ok tt -> wf_set s).
Proof.
  intros [Hl Hw Hu _] He. unfold DecodeEWAH.
  destruct (decode_loop_total (length encoded) encoded (replicate (length (words t)) 0) 0)
    as (ws & cursor & ok & -> & F & L); [done|done|by apply Forall_replicate|].
  rewrite length_replicate in L. cbn [mbind option_bind]. eexists _, _. split; [done|].
  split; [done|]. intros H. destruct (_ || _) eqn:E in H; [discriminate|]. split_bool.
  split; cbn [FixedBitSet.length words]; [done| |done|done].
  unfold zlen in *. by rewrite L.
Qed.
