(* ===== verification/Ring.v ===== *)
(** * The bounded multi-producer, single-consumer ring

    [src/replication/ring.go].  [TryPush] and [TryPop] are modelled at the
    granularity of their shared accesses: every atomic load, store and
    compare-and-swap, and every access to a value cell, is one step.  A system
    of any number of producers and one consumer interleaves these steps
    arbitrarily.  The positions are 64-bit counters; the theorems hold as long
    as the number of values ever enqueued plus the capacity stays below 2^63,
    which is where the signed comparison of sequence numbers stops being
    exact. *)

From S2P Require Import Prelude Bytes Arith.

Section ring.
Context {T : Type} (zero : T).

Inductive ring_error := ErrInvalidRingCapacity.

Record MPSCRing := mkRing {
  enqueue : Z;
  dequeue : Z;
  mask : Z;
  capacity : Z;
  sequences : list Z;
  values : list T;
}.

Definition NewMPSCRing (capacity : Z) : result ring_error MPSCRing :=
  if (capacity <? 2) || negb (Z.land capacity (u64 (capacity - 1)) =? 0) || (MaxInt64 <? capacity)
  then Err ErrInvalidRingCapacity
  else Ok (mkRing 0 0 (capacity - 1) capacity (seqZ 0 capacity)
             (replicate (Z.to_nat capacity) zero)).

Definition Capacity (r : MPSCRing) : Z := capacity r.

Definition Len (r : MPSCRing) : Z := Z.min (u64 (enqueue r - dequeue r)) (capacity r).

Definition slot (r : MPSCRing) (position : Z) : nat := Z.to_nat (Z.land position (mask r)).
Definition sequenceAt (r : MPSCRing) (position : Z) : Z := default 0 (sequences r !! slot r position).
Definition valueAt (r : MPSCRing) (position : Z) : T := default zero (values r !! slot r position).

Definition with_enqueue (r : MPSCRing) (p : Z) : MPSCRing :=
  mkRing p (dequeue r) (mask r) (capacity r) (sequences r) (values r).
Definition with_dequeue (r : MPSCRing) (p : Z) : MPSCRing :=
  mkRing (enqueue r) p (mask r) (capacity r) (sequences r) (values r).
Definition with_sequence (r : MPSCRing) (position sequence : Z) : MPSCRing :=
  mkRing (enqueue r) (dequeue r) (mask r) (capacity r)
    (<[slot r position := sequence]> (sequences r)) (values r).
Definition with_value (r : MPSCRing) (position : Z) (value : T) : MPSCRing :=
  mkRing (enqueue r) (dequeue r) (mask r) (capacity r) (sequences r)
    (<[slot r position := value]> (values r)).

(** ** TryPush *)

Inductive push_pc :=
| PushStart (value : T)                      (* about to load [enqueue] *)
| PushLoaded (value : T) (position : Z)      (* about to load the sequence *)
| PushFree (value : T) (position : Z)        (* about to compare-and-swap *)
| PushReserved (value : T) (position : Z)    (* about to write the value *)
| PushWritten (position : Z)                 (* about to publish the sequence *)
| PushDone (result : bool).

Definition TryPush (r : MPSCRing) (pc : push_pc) : MPSCRing * push_pc :=
  match pc with
  | PushStart value => (r, PushLoaded value (enqueue r))
  | PushLoaded value position =>
      let difference := i64 (u64 (sequenceAt r position - position)) in
      if difference =? 0 then (r, PushFree value position)
      else if difference <? 0 then (r, PushDone false)
      else (r, PushStart value)
  | PushFree value position =>
      if enqueue r =? position
      then (with_enqueue r (u64 (position + 1)), PushReserved value position)
      else (r, PushStart value)
  | PushReserved value position => (with_value r position value, PushWritten position)
  | PushWritten position => (with_sequence r position (u64 (position + 1)), PushDone true)
  | PushDone result => (r, PushDone result)
  end.

(** ** TryPop *)

Inductive pop_pc :=
| PopStart                                   (* about to load [dequeue] *)
| PopLoaded (position : Z)                   (* about to load the sequence *)
| PopReady (position : Z)                    (* about to read the value *)
| PopRead (position : Z) (value : T)         (* about to clear the cell *)
| PopCleared (position : Z) (value : T)      (* about to store the sequence *)
| PopStored (position : Z) (value : T)       (* about to store [dequeue] *)
| PopDone (result : option T).

Definition TryPop (r : MPSCRing) (pc : pop_pc) : MPSCRing * pop_pc :=
  match pc with
  | PopStart => (r, PopLoaded (dequeue r))
  | PopLoaded position =>
      if negb (i64 (u64 (sequenceAt r position - u64 (position + 1))) =? 0)
      then (r, PopDone None) else (r, PopReady position)
  | PopReady position => (r, PopRead position (valueAt r position))
  | PopRead position value => (with_value r position zero, PopCleared position value)
  | PopCleared position value =>
      (with_sequence r position (u64 (position + capacity r)), PopStored position value)
  | PopStored position value => (with_dequeue r (u64 (position + 1)), PopDone (Some value))
  | PopDone result => (r, PopDone result)
  end.

(** ** The system *)

(** [history] and [popped] are ghost state: the values in the order of the
    successful compare-and-swaps, and the values whose cells the consumer has
    handed back. *)
Record system := mkSystem {
  ring : MPSCRing;
  producers : gmap nat push_pc;
  consumer : pop_pc;
  history : list T;
  popped : list T;
}.

Definition reserve (pc pc' : push_pc) (history : list T) : list T :=
  match pc, pc' with
  | PushFree _ _, PushReserved value _ => history ++ [value]
  | _, _ => history
  end.

Definition hand_back (pc : pop_pc) (popped : list T) : list T :=
  match pc with PopCleared _ value => popped ++ [value] | _ => popped end.

Inductive step : system -> system -> Prop :=
| step_call_push s i value :
    producers s !! i = None ->
    step s (mkSystem (ring s) (<[i := PushStart value]> (producers s)) (consumer s)
              (history s) (popped s))
| step_push s i pc r' pc' :
    producers s !! i = Some pc -> TryPush (ring s) pc = (r', pc') ->
    step s (mkSystem r' (<[i := pc']> (producers s)) (consumer s)
              (reserve pc pc' (history s)) (popped s))
| step_return_push s i result :
    producers s !! i = Some (PushDone result) ->
    step s (mkSystem (ring s) (delete i (producers s)) (consumer s) (history s) (popped s))
| step_pop s r' pc' :
    TryPop (ring s) (consumer s) = (r', pc') ->
    step s (mkSystem r' (producers s) pc' (history s) (hand_back (consumer s) (popped s)))
| step_call_pop s result :
    consumer s = PopDone result ->
    step s (mkSystem (ring s) (producers s) PopStart (history s) (popped s)).

Definition initial (r : MPSCRing) : system := mkSystem r ∅ (PopDone None) [] [].

Inductive reachable (r : MPSCRing) : system -> Prop :=
| reachable_initial : reachable r (initial r)
| reachable_step s s' : reachable r s -> step s s' -> reachable r s'.

(** ** The invariant *)

Abbreviation reserved s := (zlen (history s)).
Abbreviation consumed s := (zlen (popped s)).

(** The position a producer has reserved and not yet published *)
Definition owned (pc : push_pc) : option Z :=
  match pc with
  | PushReserved _ position | PushWritten position => Some position
  | _ => None
  end.

Definition push_ok (s : system) (pc : push_pc) : Prop :=
  match pc with
  | PushLoaded _ p => 0 <= p <= reserved s
  | PushFree _ p => 0 <= p <= reserved s /\ p < consumed s + capacity (ring s)
  | PushReserved v p => consumed s <= p < reserved s /\ sequenceAt (ring s) p = p /\
      history s !! Z.to_nat p = Some v
  | PushWritten p => consumed s <= p < reserved s /\ sequenceAt (ring s) p = p /\
      history s !! Z.to_nat p = Some (valueAt (ring s) p)
  | _ => True
  end.

Definition pop_ok (s : system) : Prop :=
  match consumer s with
  | PopLoaded p => p = consumed s
  | PopReady p => p = consumed s /\ p < reserved s /\ sequenceAt (ring s) p = p + 1
  | PopRead p v | PopCleared p v =>
      p = consumed s /\ p < reserved s /\ sequenceAt (ring s) p = p + 1 /\
      history s !! Z.to_nat p = Some v
  | PopStored p v => p = consumed s - 1 /\ popped s !! Z.to_nat p = Some v
  | PopDone (Some v) => last (popped s) = Some v
  | _ => True
  end.

(** The consumer has cleared the cell of position [p] but not yet handed it
    back. *)
Definition cleared (s : system) (p : Z) : Prop :=
  match consumer s with PopCleared q _ => q = p | _ => False end.

Definition slot_ok (s : system) (p : Z) : Prop :=
  if p <? reserved s then
    (sequenceAt (ring s) p = p + 1 /\
     (history s !! Z.to_nat p = Some (valueAt (ring s) p) \/ cleared s p)) \/
    (sequenceAt (ring s) p = p /\
     exists i pc, producers s !! i = Some pc /\ owned pc = Some p)
  else sequenceAt (ring s) p = p.

Record ring_shape (r : MPSCRing) : Prop := {
  shape_power : exists k, 0 <= k /\ capacity r = 2 ^ k;
  shape_capacity : 2 <= capacity r;
  shape_mask : mask r = capacity r - 1;
  shape_sequences : zlen (sequences r) = capacity r;
  shape_values : zlen (values r) = capacity r;
}.

Record inv (s : system) : Prop := {
  inv_shape : ring_shape (ring s);
  inv_enqueue : enqueue (ring s) = reserved s;
  inv_dequeue : dequeue (ring s)
    = match consumer s with PopStored _ _ => consumed s - 1 | _ => consumed s end;
  inv_order : consumed s <= reserved s <= consumed s + capacity (ring s);
  inv_prefix : popped s = take (length (popped s)) (history s);
  inv_slots : forall p, consumed s <= p < consumed s + capacity (ring s) -> slot_ok s p;
  inv_push : forall i pc, producers s !! i = Some pc -> push_ok s pc;
  inv_owner : forall i j pc pc' p, producers s !! i = Some pc -> producers s !! j = Some pc' ->
    owned pc = Some p -> owned pc' = Some p -> i = j;
  inv_pop : pop_ok s;
}.

(** The counters have not come near the sign boundary. *)
Definition bounded (s : system) : Prop := reserved s + capacity (ring s) < 2 ^ 63.

(** ** Slots *)

Lemma land_mask r p : ring_shape r -> 0 <= p -> Z.land p (mask r) = p mod capacity r.
Proof.
  intros [(k & Hk & E) _ Hm _ _] Hp. rewrite Hm, E.
  replace (2 ^ k - 1) with (Z.ones k) by (rewrite Z.ones_equiv; lia). by apply Z.land_ones.
Qed.

Lemma slot_lt r p : ring_shape r -> 0 <= p -> (slot r p < Z.to_nat (capacity r))%nat.
Proof.
  intros Hs Hp. unfold slot. rewrite land_mask by done.
  pose proof (Z.mod_pos_bound p (capacity r) ltac:(destruct Hs; lia)). lia.
Qed.

(** Positions within one capacity of each other share a slot only if equal. *)
Lemma slot_inj r p q :
  ring_shape r -> 0 <= p -> 0 <= q -> Z.abs (p - q) < capacity r -> slot r p = slot r q -> p = q.
Proof.
  intros Hs Hp Hq Hd E. unfold slot in E. rewrite !land_mask in E by done.
  assert (0 < capacity r) as Hc by (destruct Hs; lia).
  pose proof (Z.mod_pos_bound p _ Hc). pose proof (Z.mod_pos_bound q _ Hc).
  assert (p mod capacity r = q mod capacity r) as Em by lia.
  pose proof (Z.div_mod p (capacity r) ltac:(lia)). pose proof (Z.div_mod q (capacity r) ltac:(lia)).
  assert (p / capacity r = q / capacity r) by nia. nia.
Qed.

Lemma slot_same r p q :
  ring_shape r -> 0 <= p -> 0 <= q -> (p - q) mod capacity r = 0 -> slot r p = slot r q.
Proof.
  intros Hs Hp Hq E. unfold slot. rewrite !land_mask by done. f_equal.
  apply Z.mod_divide in E as [k E]; [|destruct Hs; lia].
  replace p with (q + k * capacity r) by lia. apply Z_mod_plus_full.
Qed.

(** The position in the window [lo, lo + capacity) that uses the slot of [p] *)
Lemma slot_window r lo p :
  ring_shape r -> 0 <= lo -> 0 <= p ->
  exists q, lo <= q < lo + capacity r /\ slot r q = slot r p /\ (q - p) mod capacity r = 0.
Proof.
  intros Hs Hlo Hp. assert (0 < capacity r) as Hc by (destruct Hs; lia).
  pose proof (Z.mod_pos_bound (p - lo) _ Hc).
  exists (lo + (p - lo) mod capacity r). split; [lia|].
  assert ((lo + (p - lo) mod capacity r - p) mod capacity r = 0) as E.
  { apply Z.mod_divide; [lia|]. exists (- ((p - lo) / capacity r)).
    pose proof (Z.div_mod (p - lo) (capacity r) ltac:(lia)). lia. }
  split; [|done]. apply slot_same; [done|lia..].
Qed.

Lemma sequenceAt_with r p s q :
  ring_shape r -> 0 <= p ->
  sequenceAt (with_sequence r p s) q
  = if decide (slot r p = slot r q) then s else sequenceAt r q.
Proof.
  intros Hs Hp. unfold sequenceAt. cbn [with_sequence sequences].
  change (slot (with_sequence r p s) q) with (slot r q).
  case_decide as E.
  - rewrite <- E, list_lookup_insert_eq; [done|]. pose proof (slot_lt r p Hs Hp).
    destruct Hs. unfold zlen in *. lia.
  - by rewrite list_lookup_insert_ne.
Qed.

Lemma valueAt_with r p v q :
  ring_shape r -> 0 <= p ->
  valueAt (with_value r p v) q = if decide (slot r p = slot r q) then v else valueAt r q.
Proof.
  intros Hs Hp. unfold valueAt. cbn [with_value values].
  change (slot (with_value r p v) q) with (slot r q).
  case_decide as E.
  - rewrite <- E, list_lookup_insert_eq; [done|]. pose proof (slot_lt r p Hs Hp).
    destruct Hs. unfold zlen in *. lia.
  - by rewrite list_lookup_insert_ne.
Qed.

Lemma consumed_nonneg s : 0 <= consumed s.
Proof. apply zlen_nonneg. Qed.

(** ** Preservation *)

Lemma inv_initial c r : NewMPSCRing c = Ok r -> is_u64 c -> inv (initial r).
Proof.
  unfold NewMPSCRing. intros H Hc. step_guards H. injection H as <-. split_bool.
  assert (exists k, 0 <= k /\ c = 2 ^ k) as Hk.
  { apply land_pred_power; [lia|]. by rewrite uwrap_small in * by (unfold is_uint in *; lia). }
  assert (ring_shape (mkRing 0 0 (c - 1) c (seqZ 0 c) (replicate (Z.to_nat c) zero))) as Hs.
  { split; cbn; [done|lia|done|..]; unfold zlen; rewrite ?length_seqZ, ?length_replicate; lia. }
  split; cbn [initial ring history popped consumer producers] in *; rewrite ?zlen_nil;
    try done; [cbn; lia|].
  intros p Hp. unfold slot_ok. cbn [initial ring history]. rewrite zlen_nil.
  cbn [capacity] in Hp. destruct (Z.ltb_spec p 0); [lia|].
  unfold sequenceAt, slot. rewrite land_mask by (done || lia). cbn [capacity sequences].
  rewrite Z.mod_small by lia. rewrite lookup_seqZ_lt by lia. simpl. lia.
Qed.

Lemma window_sequence s p :
  inv s -> consumed s <= p < consumed s + capacity (ring s) ->
  sequenceAt (ring s) p = p \/ sequenceAt (ring s) p = p + 1 /\ p < reserved s.
Proof.
  intros Hi Hp. pose proof (inv_slots s Hi p Hp) as H. unfold slot_ok in H.
  destruct (Z.ltb_spec p (reserved s)); [|by left].
  destruct H as [[? _]|[? _]]; [by right|by left].
Qed.

Lemma load_sequence s p :
  inv s -> bounded s -> 0 <= p <= reserved s ->
  let difference := i64 (u64 (sequenceAt (ring s) p - p)) in
  (difference = 0 -> p < consumed s + capacity (ring s)) /\
  (difference < 0 -> reserved s = consumed s + capacity (ring s)).
Proof.
  intros Hi Hb Hp difference. pose proof (inv_shape s Hi) as Hs.
  pose proof (consumed_nonneg s) as Hd.
  destruct (slot_window (ring s) (consumed s) p Hs Hd) as (q & Hq & Eq & Em); [lia|].
  assert (sequenceAt (ring s) p = sequenceAt (ring s) q) as Es
    by (unfold sequenceAt; by rewrite Eq).
  pose proof (window_sequence s q Hi Hq) as Hw. pose proof (inv_order s Hi) as Ho.
  assert (2 <= capacity (ring s)) as Hc by (destruct Hs; lia).
  apply Z.mod_divide in Em as [k Em]; [|lia].
  unfold bounded in Hb. subst difference.
  rewrite swrap_uwrap_small by (done || (unfold is_sint; simpl; lia)).
  rewrite Es. assert (k = 0 \/ k <= -1 \/ 1 <= k) as [->|[Hk|Hk]] by lia; split; intros; nia.
Qed.

(** Changing only the producers' program counters *)
Lemma inv_producers s ps :
  inv s ->
  (forall i pc, ps !! i = Some pc -> push_ok s pc) ->
  (forall p, (exists i pc, producers s !! i = Some pc /\ owned pc = Some p) ->
     exists i pc, ps !! i = Some pc /\ owned pc = Some p) ->
  (forall i j pc pc' p, ps !! i = Some pc -> ps !! j = Some pc' ->
     owned pc = Some p -> owned pc' = Some p -> i = j) ->
  inv (mkSystem (ring s) ps (consumer s) (history s) (popped s)).
Proof.
  intros [] Hok Hown Huniq. split; try done. intros p Hp. specialize (inv_slots0 p Hp).
  unfold slot_ok in *. cbn [ring history] in *. destruct (p <? reserved s); [|done].
  destruct inv_slots0 as [H|[H Ho]]; [by left|]. right. split; [done|]. by apply Hown.
Qed.

Lemma inv_set_pc s i old pc :
  inv s -> producers s !! i = old -> (old ≫= owned) = owned pc -> push_ok s pc ->
  inv (mkSystem (ring s) (<[i := pc]> (producers s)) (consumer s) (history s) (popped s)).
Proof.
  intros Hi Ho Eo Hok. apply inv_producers; [done|..].
  - intros j pc' [[-> <-]|[? ?]]%lookup_insert_Some; [done|by eapply inv_push].
  - intros p (j & pc' & Hj & Hp). destruct (decide (j = i)) as [->|].
    + exists i, pc. rewrite lookup_insert_eq, <- Eo, <- Ho, Hj. done.
    + exists j, pc'. by rewrite lookup_insert_ne.
  - assert (forall j pc' p, <[i := pc]> (producers s) !! j = Some pc' -> owned pc' = Some p ->
      exists pc0, producers s !! j = Some pc0 /\ owned pc0 = Some p) as Hback.
    { intros j pc' p [[-> <-]|[? ?]]%lookup_insert_Some Hp; [|by exists pc'].
      rewrite <- Eo, <- Ho in Hp. by apply bind_Some in Hp. }
    intros j1 j2 pc1 pc2 p H1 H2 O1 O2.
    destruct (Hback _ _ _ H1 O1) as (? & ? & ?). destruct (Hback _ _ _ H2 O2) as (? & ? & ?).
    by eapply inv_owner.
Qed.

Lemma lookup_history (l : list T) v p x :
  l !! p = Some x -> (l ++ [v]) !! p = Some x.
Proof. apply lookup_app_l_Some. Qed.

Lemma history_end (l : list T) v : (l ++ [v]) !! Z.to_nat (zlen l) = Some v.
Proof. unfold zlen. rewrite Nat2Z.id. apply list_lookup_middle. done. Qed.

Lemma owned_range s i pc q :
  inv s -> producers s !! i = Some pc -> owned pc = Some q ->
  consumed s <= q < reserved s /\ sequenceAt (ring s) q = q.
Proof.
  intros Hi Hpc Hq. pose proof (inv_push s Hi i _ Hpc) as Hok.
  destruct pc; try done; injection Hq as <-; by destruct Hok as (? & ? & ?).
Qed.

(** A producer's assertion survives a longer history. *)
Lemma push_ok_snoc s r ps v pc :
  capacity r = capacity (ring s) -> (forall p, sequenceAt r p = sequenceAt (ring s) p) ->
  (forall p, valueAt r p = valueAt (ring s) p) -> push_ok s pc ->
  push_ok (mkSystem r ps (consumer s) (history s ++ [v]) (popped s)) pc.
Proof.
  intros Hc Hseq Hval. destruct pc; unfold push_ok; cbn [history ring popped];
    rewrite ?zlen_snoc, ?Hc, ?Hseq, ?Hval; try done; try (intros; lia);
    intros (? & ? & ?); (split; [lia|split; [done|by apply lookup_history]]).
Qed.

(** The successful compare-and-swap *)
Lemma inv_reserve s i v p :
  inv s -> bounded s -> producers s !! i = Some (PushFree v p) -> enqueue (ring s) = p ->
  inv (mkSystem (with_enqueue (ring s) (u64 (p + 1)))
         (<[i := PushReserved v p]> (producers s)) (consumer s) (history s ++ [v]) (popped s)).
Proof.
  intros Hi Hb Hpc Ep. pose proof (inv_push s Hi i _ Hpc) as [Hp1 Hp2].
  pose proof (inv_enqueue s Hi) as Ee. pose proof (inv_order s Hi) as Ho.
  unfold bounded in Hb. pose proof (shape_capacity _ (inv_shape s Hi)).
  assert (reserved s = p) as Er by congruence.
  pose proof Hi as []. split; cbn [ring producers consumer history popped];
    rewrite ?zlen_snoc; try done.
  - by destruct inv_shape0; split.
  - cbn [enqueue with_enqueue]. rewrite uwrap_small by (unfold is_uint; lia). lia.
  - cbn [capacity with_enqueue]. lia.
  - rewrite take_app_le; [done|]. unfold zlen in *. lia.
  - intros q Hq. specialize (inv_slots0 q Hq). unfold slot_ok in *.
    cbn [ring producers history] in *. rewrite zlen_snoc.
    destruct (Z.ltb_spec q (reserved s)) as [Hlt|Hge].
    + destruct (Z.ltb_spec q (reserved s + 1)); [|lia].
      destruct inv_slots0 as [[? [?|?]]|[? (j & pc & Hj & Hq')]].
      * left. split; [done|]. left. by apply lookup_history.
      * left. split; [done|by right].
      * right. split; [done|]. exists j, pc. rewrite lookup_insert_ne; [done|].
        intros ->. rewrite Hpc in Hj. by injection Hj as <-.
    + destruct (Z.ltb_spec q (reserved s + 1)); [|done].
      right. split; [done|]. exists i, (PushReserved v p). rewrite lookup_insert_eq.
      split; [done|]. cbn. f_equal. lia.
  - intros j pc [[-> <-]|[? ?]]%lookup_insert_Some; [|by apply push_ok_snoc, (inv_push s Hi j)].
    unfold push_ok. cbn [ring history popped]. rewrite zlen_snoc.
    split; [lia|]. split; [|rewrite <- Er; apply history_end].
    specialize (inv_slots0 p ltac:(lia)). unfold slot_ok in inv_slots0.
    destruct (Z.ltb_spec p (reserved s)); [lia|done].
  - intros j1 j2 pc1 pc2 q [[<- <-]|[? ?]]%lookup_insert_Some [[<- <-]|[? ?]]%lookup_insert_Some O1 O2;
      try done.
    + injection O1 as <-. destruct (owned_range s j2 pc2 p) as [? _]; [done..|lia].
    + injection O2 as <-. destruct (owned_range s j1 pc1 p) as [? _]; [done..|lia].
    + by eapply inv_owner.
  - unfold pop_ok in *. cbn [ring history popped consumer] in *.
    rewrite zlen_snoc.
    destruct (consumer s); try done; try (destruct inv_pop0 as (? & ? & ?); repeat split; try done; lia).
    + destruct inv_pop0 as (? & ? & ? & ?). repeat split; try done; [lia|by apply lookup_history].
    + destruct inv_pop0 as (? & ? & ? & ?). repeat split; try done; [lia|by apply lookup_history].
Qed.

(** Two positions of the window use different slots. *)
Lemma window_slots s p q :
  inv s -> consumed s <= p < consumed s + capacity (ring s) ->
  consumed s <= q < consumed s + capacity (ring s) ->
  slot (ring s) p = slot (ring s) q -> p = q.
Proof.
  intros Hi Hp Hq. pose proof (consumed_nonneg s).
  apply slot_inj; [apply Hi|lia..].
Qed.

(** The producer writes its value. *)
Lemma inv_write s i v p :
  inv s -> producers s !! i = Some (PushReserved v p) ->
  inv (mkSystem (with_value (ring s) p v) (<[i := PushWritten p]> (producers s)) (consumer s)
         (history s) (popped s)).
Proof.
  intros Hi Hpc. pose proof (inv_shape s Hi) as Hs. pose proof (consumed_nonneg s).
  pose proof (inv_push s Hi i _ Hpc) as (Hp & Eseq & Hv). pose proof (inv_order s Hi) as Ho.
  assert (forall q, consumed s <= q < consumed s + capacity (ring s) -> q <> p ->
    valueAt (with_value (ring s) p v) q = valueAt (ring s) q) as Hval.
  { intros q Hq Hne. rewrite valueAt_with by (done || lia). case_decide; [|done].
    destruct Hne. symmetry. apply (window_slots s); [done|lia..|done]. }
  assert (forall j pc q, producers s !! j = Some pc -> owned pc = Some q -> j <> i ->
    consumed s <= q < reserved s /\ q <> p) as Hother.
  { intros j pc q Hj Hq Hne. split; [by eapply owned_range|]. intros ->. destruct Hne.
    by eapply (inv_owner s Hi j i). }
  pose proof Hi as []. split; cbn [ring producers consumer history popped]; try done.
  - destruct Hs. split; cbn [capacity mask sequences values with_value]; try done.
    unfold zlen in *. by rewrite length_insert.
  - intros q Hq. specialize (inv_slots0 q Hq). unfold slot_ok in *.
    cbn [ring producers history] in *. destruct (q <? reserved s); [|done].
    change (sequenceAt (with_value (ring s) p v) q) with (sequenceAt (ring s) q).
    destruct (decide (q = p)) as [->|Hne].
    + right. split; [done|]. exists i, (PushWritten p). by rewrite lookup_insert_eq.
    + rewrite Hval by done. destruct inv_slots0 as [?|[? (j & pc & Hj & Hq')]]; [by left|].
      right. split; [done|]. exists j, pc. rewrite lookup_insert_ne; [done|].
      intros ->. rewrite Hpc in Hj. injection Hj as <-. by injection Hq' as <-.
  - intros j pc [[-> <-]|[Hne Hj]]%lookup_insert_Some.
    + unfold push_ok. cbn [ring history popped]. split; [done|]. split; [done|].
      by rewrite valueAt_with, decide_True by (done || lia).
    + specialize (inv_push0 j pc Hj). destruct pc; try done. unfold push_ok in *.
      cbn [ring history popped]. destruct (Hother j _ _ Hj eq_refl) as [? ?]; [done|].
      by rewrite Hval by (done || lia).
  - intros j1 j2 pc1 pc2 q [[<- <-]|[? ?]]%lookup_insert_Some [[<- <-]|[? ?]]%lookup_insert_Some O1 O2;
      try done.
    + injection O1 as <-. by eapply (inv_owner0 i j2).
    + injection O2 as <-. by eapply (inv_owner0 j1 i).
    + by eapply inv_owner0.
Qed.

(** The producer publishes its slot. *)
Lemma inv_publish s i p :
  inv s -> bounded s -> producers s !! i = Some (PushWritten p) ->
  inv (mkSystem (with_sequence (ring s) p (u64 (p + 1)))
         (<[i := PushDone true]> (producers s)) (consumer s) (history s) (popped s)).
Proof.
  intros Hi Hb Hpc. pose proof (inv_shape s Hi) as Hs. pose proof (consumed_nonneg s).
  pose proof (inv_push s Hi i _ Hpc) as (Hp & Eseq & Hv). pose proof (inv_order s Hi) as Ho.
  unfold bounded in Hb. rewrite uwrap_small by (unfold is_uint; lia).
  assert (forall q, consumed s <= q < consumed s + capacity (ring s) -> q <> p ->
    sequenceAt (with_sequence (ring s) p (p + 1)) q = sequenceAt (ring s) q) as Hseq.
  { intros q Hq Hne. rewrite sequenceAt_with by (done || lia). case_decide; [|done].
    destruct Hne. symmetry. apply (window_slots s); [done|lia..|done]. }
  assert (forall j pc q, producers s !! j = Some pc -> owned pc = Some q -> j <> i ->
    consumed s <= q < reserved s /\ q <> p) as Hother.
  { intros j pc q Hj Hq Hne. split; [by eapply owned_range|]. intros ->. destruct Hne.
    by eapply (inv_owner s Hi j i). }
  pose proof Hi as []. split; cbn [ring producers consumer history popped]; try done.
  - destruct Hs. split; cbn [capacity mask sequences values with_sequence]; try done.
    unfold zlen in *. by rewrite length_insert.
  - intros q Hq. specialize (inv_slots0 q Hq). unfold slot_ok in *.
    cbn [ring producers history] in *.
    change (valueAt (with_sequence (ring s) p (p + 1)) q) with (valueAt (ring s) q).
    destruct (decide (q = p)) as [->|Hne].
    + destruct (Z.ltb_spec p (reserved s)); [|lia]. left.
      rewrite sequenceAt_with, decide_True by (done || lia). split; [done|by left].
    + rewrite Hseq by done. destruct (q <? reserved s); [|done].
      destruct inv_slots0 as [?|[? (j & pc & Hj & Hq')]]; [by left|].
      right. split; [done|]. exists j, pc. rewrite lookup_insert_ne; [done|].
      intros ->. rewrite Hpc in Hj. injection Hj as <-. by injection Hq' as <-.
  - intros j pc [[-> <-]|[Hne Hj]]%lookup_insert_Some; [done|].
    specialize (inv_push0 j pc Hj). destruct pc; try done; unfold push_ok in *;
      cbn [ring history popped]; destruct (Hother j _ _ Hj eq_refl) as [? ?]; try done;
      by rewrite Hseq by (done || lia).
  - intros j1 j2 pc1 pc2 q [[<- <-]|[? ?]]%lookup_insert_Some [[<- <-]|[? ?]]%lookup_insert_Some O1 O2;
      try done. by eapply inv_owner0.
  - unfold pop_ok in *. cbn [ring history popped consumer] in *.
    destruct (consumer s); try done;
      first [destruct inv_pop0 as (-> & ? & E & ?) | destruct inv_pop0 as (-> & ? & E)];
      (rewrite Hseq; [done|lia|intros <-; lia]).
Qed.

(** Steps of the consumer that only change its program counter *)
Lemma inv_consumer s pc :
  inv s ->
  (forall q v, consumer s <> PopStored q v) -> (forall q v, pc <> PopStored q v) ->
  (forall q v, consumer s <> PopCleared q v) ->
  pop_ok (mkSystem (ring s) (producers s) pc (history s) (popped s)) ->
  inv (mkSystem (ring s) (producers s) pc (history s) (popped s)).
Proof.
  intros [] H1 H2 H3 Hok. split; cbn [ring producers consumer history popped]; try done.
  - rewrite inv_dequeue0.
    destruct (consumer s); try (exfalso; by eapply H1); destruct pc; try done;
      exfalso; by eapply H2.
  - intros p Hp. specialize (inv_slots0 p Hp). unfold slot_ok, cleared in *.
    cbn [ring producers history consumer] in *. destruct (p <? reserved s); [|done].
    destruct inv_slots0 as [[? [?|Hc]]|?]; [left; split; [done|by left]| |by right].
    destruct (consumer s); try done. exfalso. by eapply H3.
Qed.

Lemma consumer_slot s :
  inv s -> consumed s < reserved s ->
  sequenceAt (ring s) (consumed s) = consumed s + 1 ->
  (forall q v, consumer s <> PopCleared q v) ->
  history s !! Z.to_nat (consumed s) = Some (valueAt (ring s) (consumed s)).
Proof.
  intros Hi Hlt E Hc. pose proof (shape_capacity _ (inv_shape s Hi)).
  pose proof (inv_slots s Hi (consumed s) ltac:(lia)) as H0. unfold slot_ok, cleared in H0.
  destruct (Z.ltb_spec (consumed s) (reserved s)); [|lia].
  destruct H0 as [[_ [?|Hcl]]|[? _]]; [done| |lia].
  destruct (consumer s); try done. exfalso. by eapply Hc.
Qed.

(** The consumer clears the cell it has read. *)
Lemma inv_clear s p v :
  inv s -> consumer s = PopRead p v ->
  inv (mkSystem (with_value (ring s) p zero) (producers s) (PopCleared p v) (history s) (popped s)).
Proof.
  intros Hi Hpc. pose proof (inv_shape s Hi) as Hs. pose proof (consumed_nonneg s).
  pose proof (inv_pop s Hi) as Hpop. unfold pop_ok in Hpop. rewrite Hpc in Hpop.
  destruct Hpop as (Ep & Hlt & Eseq & Hv). pose proof (inv_order s Hi) as Ho.
  pose proof (shape_capacity _ Hs).
  assert (forall q, consumed s <= q < consumed s + capacity (ring s) -> q <> p ->
    valueAt (with_value (ring s) p zero) q = valueAt (ring s) q) as Hval.
  { intros q Hq Hne. rewrite valueAt_with by (done || lia). case_decide; [|done].
    destruct Hne. symmetry. apply (window_slots s); [done|lia..|done]. }
  pose proof Hi as []. split; cbn [ring producers consumer history popped]; try done.
  - destruct Hs. split; cbn [capacity mask sequences values with_value]; try done.
    unfold zlen in *. by rewrite length_insert.
  - by rewrite Hpc in inv_dequeue0.
  - intros q Hq. specialize (inv_slots0 q Hq). unfold slot_ok, cleared in *.
    cbn [ring producers history consumer] in *. destruct (q <? reserved s); [|done].
    change (sequenceAt (with_value (ring s) p zero) q) with (sequenceAt (ring s) q).
    rewrite Hpc in inv_slots0. destruct inv_slots0 as [[? [Hh|[]]]|?]; [|by right].
    left. split; [done|]. destruct (decide (q = p)) as [->|]; [by right|].
    left. by rewrite Hval.
  - intros j pc Hj. specialize (inv_push0 j pc Hj). destruct pc; try done.
    unfold push_ok in *. cbn [ring history popped]. destruct inv_push0 as (? & ? & ?).
    rewrite Hval; [done|lia|]. intros ->. lia.
Qed.

(** The consumer hands the slot back to the producers. *)
Lemma inv_hand_back s p v :
  inv s -> bounded s -> consumer s = PopCleared p v ->
  inv (mkSystem (with_sequence (ring s) p (u64 (p + capacity (ring s)))) (producers s)
         (PopStored p v) (history s) (popped s ++ [v])).
Proof.
  intros Hi Hb Hpc. pose proof (inv_shape s Hi) as Hs. pose proof (consumed_nonneg s).
  pose proof (inv_pop s Hi) as Hpop. unfold pop_ok in Hpop. rewrite Hpc in Hpop.
  destruct Hpop as (Ep & Hlt & Eseq & Hv). pose proof (inv_order s Hi) as Ho.
  pose proof (shape_capacity _ Hs). unfold bounded in Hb.
  rewrite uwrap_small by (unfold is_uint; lia).
  assert (forall q, consumed s <= q < consumed s + capacity (ring s) -> q <> p ->
    sequenceAt (with_sequence (ring s) p (p + capacity (ring s))) q = sequenceAt (ring s) q) as Hseq.
  { intros q Hq Hne. rewrite sequenceAt_with by (done || lia). case_decide; [|done].
    destruct Hne. symmetry. apply (window_slots s); [done|lia..|done]. }
  pose proof Hi as []. split; cbn [ring producers consumer history popped capacity with_sequence];
    rewrite ?zlen_snoc; try done.
  - destruct Hs. split; cbn [capacity mask sequences values with_sequence]; try done.
    unfold zlen in *. by rewrite length_insert.
  - cbn [dequeue with_sequence]. rewrite inv_dequeue0, Hpc. lia.
  - lia.
  - rewrite length_app, Nat.add_1_r, (take_S_r _ _ v), <- inv_prefix0; [done|].
    rewrite Ep in Hv. unfold zlen in Hv. by rewrite Nat2Z.id in Hv.
  - intros q Hq. unfold slot_ok, cleared. cbn [ring producers history consumer].
    change (valueAt (with_sequence (ring s) p (p + capacity (ring s))) q) with (valueAt (ring s) q).
    destruct (decide (q = p + capacity (ring s))) as [->|Hne].
    + destruct (Z.ltb_spec (p + capacity (ring s)) (reserved s)); [lia|].
      rewrite sequenceAt_with by (done || lia). rewrite decide_True; [done|].
      apply slot_same; [done|lia..|]. replace (p - (p + capacity (ring s))) with (-1 * capacity (ring s)) by lia.
      by apply Z.mod_mul; lia.
    + specialize (inv_slots0 q ltac:(lia)). unfold slot_ok, cleared in inv_slots0.
      rewrite Hpc in inv_slots0. rewrite Hseq by lia. destruct (q <? reserved s); [|done].
      destruct inv_slots0 as [[? [?|?]]|?]; [left; split; [done|by left]|lia|by right].
  - intros j pc Hj. specialize (inv_push0 j pc Hj).
    destruct pc; unfold push_ok in *; cbn [ring history popped]; rewrite ?zlen_snoc; try done;
      [destruct inv_push0; split; [done|cbn; lia]|..];
      destruct inv_push0 as (? & ? & ?); assert (position <> p) by (intros ->; lia);
      rewrite Hseq by lia; (split; [lia|done]).
  - unfold pop_ok. cbn [consumer popped]. rewrite zlen_snoc. split; [lia|].
    rewrite Ep. apply history_end.
Qed.

Lemma TryPush_capacity r pc : capacity (TryPush r pc).1 = capacity r.
Proof.
  destruct pc; cbn [TryPush]; try done; repeat case_match; done.
Qed.

Lemma TryPop_capacity r pc : capacity (TryPop r pc).1 = capacity r.
Proof. destruct pc; cbn [TryPop]; try done; repeat case_match; done. Qed.

Lemma step_mono s s' :
  step s s' -> reserved s <= reserved s' /\ capacity (ring s') = capacity (ring s).
Proof.
  destruct 1 as [|? ? pc r' pc' _ E|?|? r' pc' E|?]; cbn [history ring]; try (split; [lia|done]).
  - pose proof (TryPush_capacity (ring s) pc) as Hc. rewrite E in Hc. split; [|done].
    unfold reserve. destruct pc; try lia. destruct pc'; rewrite ?zlen_snoc; lia.
  - pose proof (TryPop_capacity (ring s) (consumer s)) as Hc. rewrite E in Hc. split; [lia|done].
Qed.

Lemma inv_push_step s i pc r' pc' :
  inv s -> bounded s -> producers s !! i = Some pc -> TryPush (ring s) pc = (r', pc') ->
  inv (mkSystem r' (<[i := pc']> (producers s)) (consumer s) (reserve pc pc' (history s)) (popped s)).
Proof.
  intros Hi Hb Hpc E. pose proof (inv_push s Hi i pc Hpc) as Hok.
  pose proof (inv_enqueue s Hi) as Ee.
  assert (0 <= reserved s) by apply zlen_nonneg.
  destruct pc as [v|v p|v p|v p|p|b]; cbn [TryPush] in E.
  - injection E as <- <-. eapply inv_set_pc; [done|done|done|]. cbn. lia.
  - destruct (load_sequence s p Hi Hb Hok) as [Hfree _].
    destruct (Z.eqb_spec (i64 (u64 (sequenceAt (ring s) p - p))) 0) as [E0|E0];
      [|destruct (_ <? 0)]; injection E as <- <-; eapply inv_set_pc; try done.
    split; [done|by apply Hfree].
  - destruct (Z.eqb_spec (enqueue (ring s)) p) as [E0|E0]; injection E as <- <-.
    + by apply inv_reserve.
    + by eapply inv_set_pc.
  - injection E as <- <-. by apply inv_write.
  - injection E as <- <-. by apply inv_publish.
  - injection E as <- <-. by eapply inv_set_pc.
Qed.

Lemma inv_pop_step s r' pc' :
  inv s -> bounded s -> TryPop (ring s) (consumer s) = (r', pc') ->
  inv (mkSystem r' (producers s) pc' (history s) (hand_back (consumer s) (popped s))).
Proof.
  intros Hi Hb E. pose proof (inv_pop s Hi) as Hok. unfold pop_ok in Hok.
  pose proof (inv_dequeue s Hi) as Ed. pose proof (inv_order s Hi) as Ho.
  pose proof (shape_capacity _ (inv_shape s Hi)) as Hc. pose proof (consumed_nonneg s).
  destruct (consumer s) as [|p|p|p v|p v|p v|o] eqn:Epc; cbn [TryPop hand_back] in *.
  - injection E as <- <-. apply inv_consumer; try done; try congruence.
  - subst p. pose proof (window_sequence s (consumed s) Hi ltac:(lia)) as Hw.
    unfold bounded in Hb. rewrite (uwrap_small 64 (consumed s + 1)) in E by (unfold is_uint; lia).
    rewrite swrap_uwrap_small in E by (done || (unfold is_sint; simpl; lia)).
    destruct (Z.eqb_spec (sequenceAt (ring s) (consumed s) - (consumed s + 1)) 0) as [E0|E0];
      injection E as <- <-; apply inv_consumer; try done; try congruence.
    cbn. split; [done|]. split; lia.
  - destruct Hok as (-> & Hlt & Eseq). injection E as <- <-.
    apply inv_consumer; try done; try congruence. cbn. repeat split; try done.
    apply consumer_slot; try done. congruence.
  - injection E as <- <-. by apply inv_clear.
  - injection E as <- <-. by apply inv_hand_back.
  - injection E as <- <-. destruct Hok as [-> Hv]. unfold bounded in Hb.
    replace (consumed s - 1 + 1) with (consumed s) by lia.
    rewrite uwrap_small by (unfold is_uint; lia). pose proof Hi as [].
    split; cbn [ring producers consumer history popped]; try done.
    + by destruct inv_shape0; split.
    + intros q Hq. specialize (inv_slots0 q Hq). unfold slot_ok, cleared in *.
      rewrite Epc in inv_slots0. done.
    + unfold pop_ok. cbn. rewrite last_lookup. rewrite <- Hv. f_equal. unfold zlen. lia.
  - injection E as <- <-. apply inv_consumer; try done; congruence.
Qed.

Lemma inv_step s s' : inv s -> bounded s -> step s s' -> inv s'.
Proof.
  intros Hi Hb Hstep. destruct Hstep.
  - by eapply inv_set_pc.
  - by apply inv_push_step.
  - apply inv_producers; [done|..].
    + intros j pc [_ ?]%lookup_delete_Some. by eapply inv_push.
    + intros p (j & pc & Hj & Hp). exists j, pc. split; [|done].
      apply lookup_delete_Some. split; [|done]. intros ->. rewrite H in Hj. by injection Hj as <-.
    + intros j1 j2 pc1 pc2 p [_ ?]%lookup_delete_Some [_ ?]%lookup_delete_Some.
      by eapply inv_owner.
  - by apply inv_pop_step.
  - apply inv_consumer; try done; congruence.
Qed.

Lemma reachable_inv c r s :
  NewMPSCRing c = Ok r -> is_u64 c -> reachable r s -> bounded s -> inv s.
Proof.
  intros Hn Hc Hr. induction Hr as [|s s' Hr IH Hstep]; intros Hb; [by eapply inv_initial|].
  apply step_mono in Hstep as Hm. apply (inv_step s); [apply IH| |done]; unfold bounded in *; lia.
Qed.

(** ** Guarantees *)

(** C35: the ring is a first-in, first-out queue under every interleaving of
    any number of producers with the consumer.  The values taken out are a
    prefix of the values put in, in the order of the reservations: none is
    lost, duplicated, reordered or torn.  At most [capacity] values are in
    flight, and a successful pop returns the value it handed back. *)
Theorem ring_fifo c r s :
  NewMPSCRing c = Ok r -> is_u64 c -> reachable r s -> bounded s ->
  popped s = take (length (popped s)) (history s) /\
  zlen (popped s) <= zlen (history s) <= zlen (popped s) + c /\
  (forall v, consumer s = PopDone (Some v) -> last (popped s) = Some v) /\
  (forall i v p, producers s !! i = Some (PushReserved v p) ->
     history s !! Z.to_nat p = Some v).
Proof.
  intros Hn Hc Hr Hb. pose proof (reachable_inv c r s Hn Hc Hr Hb) as Hi.
  assert (capacity (ring s) = c) as Ec.
  { clear Hi Hb. induction Hr as [|s s' _ IH Hstep]; [|apply step_mono in Hstep; lia].
    unfold NewMPSCRing in Hn. step_guards Hn. by injection Hn as <-. }
  split; [apply Hi|]. split; [rewrite <- Ec; apply Hi|]. split.
  - intros v Ev. pose proof (inv_pop s Hi) as Hp. unfold pop_ok in Hp. by rewrite Ev in Hp.
  - intros i v p Hp. by apply (inv_push s Hi i _ Hp).
Qed.

(** The ring refuses only when it must.  [TryPush] answers false only if
    all [capacity] cells were reserved and not handed back when it read the
    sequence number; [TryPop] answers false only if nothing was reserved or the
    oldest reservation was still being written. *)
Theorem ring_refusals c r s :
  NewMPSCRing c = Ok r -> is_u64 c -> reachable r s -> bounded s ->
  (forall i v p, producers s !! i = Some (PushLoaded v p) ->
     (TryPush (ring s) (PushLoaded v p)).2 = PushDone false ->
     zlen (history s) = zlen (popped s) + capacity (ring s)) /\
  (forall p, consumer s = PopLoaded p ->
     (TryPop (ring s) (PopLoaded p)).2 = PopDone None ->
     zlen (history s) = zlen (popped s) \/
     exists i pc, producers s !! i = Some pc /\ owned pc = Some (zlen (popped s))).
Proof.
  intros Hn Hc Hr Hb. pose proof (reachable_inv c r s Hn Hc Hr Hb) as Hi. split.
  - intros i v p Hpc E. pose proof (inv_push s Hi i _ Hpc) as Hok. cbn [TryPush] in E.
    destruct (load_sequence s p Hi Hb Hok) as [_ Hfull]. apply Hfull.
    destruct (_ =? 0); [discriminate|]. destruct (Z.ltb_spec (i64 (u64 (sequenceAt (ring s) p - p))) 0);
      [done|discriminate].
  - intros p Epc E. pose proof (inv_pop s Hi) as Hok. unfold pop_ok in Hok. rewrite Epc in Hok.
    subst p. pose proof (inv_order s Hi) as Ho. pose proof (consumed_nonneg s).
    pose proof (shape_capacity _ (inv_shape s Hi)) as Hcap. unfold bounded in Hb.
    pose proof (inv_slots s Hi (consumed s) ltac:(lia)) as Hslot. unfold slot_ok, cleared in Hslot.
    destruct (Z.ltb_spec (consumed s) (reserved s)); [|left; lia].
    rewrite Epc in Hslot. destruct Hslot as [[Eseq _]|[_ ?]]; [|by right].
    exfalso. cbn [TryPop] in E.
    rewrite (uwrap_small 64 (consumed s + 1)), Eseq, Z.sub_diag in E by (unfold is_uint; lia).
    discriminate E.
Qed.

(** The value cell a thread is about to access *)
Definition push_cell (r : MPSCRing) (pc : push_pc) : option nat :=
  match pc with PushReserved _ p => Some (slot r p) | _ => None end.
Definition pop_cell (r : MPSCRing) (pc : pop_pc) : option nat :=
  match pc with PopReady p | PopRead p _ => Some (slot r p) | _ => None end.

(** The non-atomic accesses to the value cells never race: no two
    producers, and no producer and the consumer, are ever about to access the
    same cell. *)
Theorem ring_race_free c r s :
  NewMPSCRing c = Ok r -> is_u64 c -> reachable r s -> bounded s ->
  (forall i j pc pc' cell, producers s !! i = Some pc -> producers s !! j = Some pc' ->
     push_cell (ring s) pc = Some cell -> push_cell (ring s) pc' = Some cell -> i = j) /\
  (forall i pc cell, producers s !! i = Some pc ->
     push_cell (ring s) pc = Some cell -> pop_cell (ring s) (consumer s) <> Some cell).
Proof.
  intros Hn Hc Hr Hb. pose proof (reachable_inv c r s Hn Hc Hr Hb) as Hi.
  pose proof (inv_order s Hi) as Ho. split.
  - intros i j pc pc' cell Hpc Hpc' E E'.
    destruct pc as [| | |v p| |], pc' as [| | |v' p'| |]; try done.
    injection E as E. injection E' as E'.
    destruct (owned_range s i _ p Hi Hpc eq_refl) as [? _].
    destruct (owned_range s j _ p' Hi Hpc' eq_refl) as [? _].
    assert (p = p') as -> by (apply (window_slots s); [done|lia..|congruence]).
    by eapply (inv_owner s Hi i j).
  - intros i pc cell Hpc E Ec. destruct pc as [| | |v p| |]; try done. injection E as E.
    destruct (owned_range s i _ p Hi Hpc eq_refl) as [? Eseq].
    pose proof (inv_pop s Hi) as Hok. unfold pop_ok in Hok.
    destruct (consumer s) as [| |q|q w| | |]; try done; injection Ec as Ec;
      destruct Hok as (-> & ? & ? & _) || destruct Hok as (-> & ? & ?);
      assert (p = consumed s) as -> by (apply (window_slots s); [done|lia..|congruence]); lia.
Qed.

(** ** An executable scheduler *)

Inductive action :=
| CallPush (i : nat) (value : T)
| RunPush (i : nat)
| ReturnPush (i : nat)
| CallPop
| RunPop.

Definition perform (s : system) (a : action) : option system :=
  match a with
  | CallPush i value =>
      match producers s !! i with
      | Some _ => None
      | None => Some (mkSystem (ring s) (<[i := PushStart value]> (producers s)) (consumer s)
                        (history s) (popped s))
      end
  | RunPush i =>
      pc ← producers s !! i;
      let '(r', pc') := TryPush (ring s) pc in
      Some (mkSystem r' (<[i := pc']> (producers s)) (consumer s)
              (reserve pc pc' (history s)) (popped s))
  | ReturnPush i =>
      match producers s !! i with
      | Some (PushDone _) =>
          Some (mkSystem (ring s) (delete i (producers s)) (consumer s) (history s) (popped s))
      | _ => None
      end
  | CallPop =>
      match consumer s with
      | PopDone _ => Some (mkSystem (ring s) (producers s) PopStart (history s) (popped s))
      | _ => None
      end
  | RunPop =>
      let '(r', pc') := TryPop (ring s) (consumer s) in
      Some (mkSystem r' (producers s) pc' (history s) (hand_back (consumer s) (popped s)))
  end.

Definition run (s : system) (actions : list action) : option system :=
  foldl (fun s a => s ≫= fun s => perform s a) (Some s) actions.

Lemma perform_step s a s' : perform s a = Some s' -> step s s'.
Proof.
  destruct a; cbn [perform].
  - destruct (producers s !! i) eqn:E; [done|]. intros [= <-]. by apply step_call_push.
  - intros (pc & E & H)%bind_Some. destruct (TryPush (ring s) pc) eqn:Et. injection H as <-.
    by apply step_push.
  - destruct (producers s !! i) as [[]|] eqn:E; try done. intros [= <-].
    by eapply step_return_push.
  - destruct (consumer s) eqn:E; try done. intros [= <-]. by eapply step_call_pop.
  - destruct (TryPop (ring s) (consumer s)) eqn:Et. intros [= <-]. by apply step_pop.
Qed.

Lemma run_reachable r actions s s' :
  reachable r s -> run s actions = Some s' -> reachable r s'.
Proof.
  unfold run. revert s. induction actions as [|a actions IH]; intros s Hr H; cbn [foldl] in H.
  - by injection H as <-.
  - cbn [mbind option_bind] in H. destruct (perform s a) as [s1|] eqn:E.
    + apply (IH s1); [|done]. eapply reachable_step; [done|by eapply perform_step].
    + exfalso. clear IH. induction actions; [done|by apply IHactions].
Qed.
End ring.

(** Two producers interleave on a ring of two cells and the consumer takes out
    the first value. *)
Definition sample_ring : MPSCRing := mkRing 0 0 1 2 [0; 1] [0%nat; 0%nat].

Definition sample_actions : list (action (T := nat)) :=
  [CallPush 0 7%nat; CallPush 1 8%nat; RunPush 0; RunPush 1; RunPush 0; RunPush 1; RunPush 0;
   RunPush 1; RunPush 0; RunPush 0; CallPop; RunPop; RunPop; RunPop; RunPop; RunPop; RunPop].

Definition sample_system : system :=
  default (initial sample_ring) (run 0%nat (initial sample_ring) sample_actions).

Lemma sample_run :
  reachable 0%nat sample_ring sample_system /\ bounded sample_system /\
  consumer sample_system = PopDone (Some 7%nat).
Proof.
  split; [|split; vm_compute; reflexivity].
  apply (run_reachable 0%nat sample_ring sample_actions (initial sample_ring)); [constructor|].
  vm_compute. reflexivity.
Qed.

Lemma ring_fifo_witness :
  exists s, reachable 0%nat sample_ring s /\ popped s = take (length (popped s)) (history s).
Proof.
  destruct sample_run as (Hr & Hb & _). exists sample_system. split; [exact Hr|].
  refine (proj1 (ring_fifo 0%nat 2 sample_ring sample_system eq_refl _ Hr Hb)).
  split; [discriminate|reflexivity].
Defined.

Lemma ring_refusals_witness :
  exists s, reachable 0%nat sample_ring s /\
    forall i v p, producers s !! i = Some (PushLoaded v p) ->
      (TryPush (ring s) (PushLoaded v p)).2 = PushDone false ->
      zlen (history s) = zlen (popped s) + capacity (ring s).
Proof.
  destruct sample_run as (Hr & Hb & _). exists sample_system. split; [exact Hr|].
  refine (proj1 (ring_refusals 0%nat 2 sample_ring sample_system eq_refl _ Hr Hb)).
  split; [discriminate|reflexivity].
Defined.

Lemma ring_race_free_witness :
  exists s, reachable 0%nat sample_ring s /\
    forall i j pc pc' cell, producers s !! i = Some pc -> producers s !! j = Some pc' ->
      push_cell (ring s) pc = Some cell -> push_cell (ring s) pc' = Some cell -> i = j.
Proof.
  destruct sample_run as (Hr & Hb & _). exists sample_system. split; [exact Hr|].
  refine (proj1 (ring_race_free 0%nat 2 sample_ring sample_system eq_refl _ Hr Hb)).
  split; [discriminate|reflexivity].
Defined.
