(* ===== verification/Sessions.v ===== *)
(** * The client session table

    [src/replication/sessions.go]: one record per client with its session
    number and the header of its latest reply.  The table decides whether a
    request is new, a duplicate or stale, plans and applies the commit of a
    reply, evicts the client with the oldest reply when it is full, and is
    written to and read from the session trailer of a checkpoint. *)

From S2P Require Import Prelude Bytes Checksum Header Validation.

Inductive session_error := ErrSessionCapacity | ErrSessionEncoding | ErrSessionChecksum.

Inductive SessionDecision :=
| SessionAdmit
| SessionDuplicate
| SessionDrop
| SessionClientFork
| SessionNoSession
| SessionTooLow
| SessionBehind
| SessionReleaseMismatch.

Module SessionRequest.
Record t := mk {
  Client : list byte;
  Session : Z;
  Request : Z;
  Release : Z;
  RequestChecksum : list byte;
  Parent : list byte;
}.
End SessionRequest.

Module SessionTableConfig.
Record t := mk {
  ClientsMax : Z;
  Group : list byte;
  ActiveCount : Z;
  MessageSizeMax : Z;
  ApplicationReplySizeMax : Z;
}.
End SessionTableConfig.

Record SessionRecord := mkRecord {
  Reply : Header;
  Session : Z;
}.

Module SessionCommitPlan.
Record t := mk {
  Slot : Z;
  Generation : Z;
  Client : list byte;
  Session : Z;
  ReplyChecksum : list byte;
}.
End SessionCommitPlan.
Abbreviation SessionCommitPlan := SessionCommitPlan.t.

Record SessionTable := mkTable {
  config : SessionTableConfig.t;
  records : list SessionRecord;
  busy : list bool;
  generations : list Z;
  count : Z;
}.

Definition zeroRecord : SessionRecord := mkRecord zeroHeader 0.

Definition NewSessionTable (config : SessionTableConfig.t) : result session_error SessionTable :=
  if (SessionTableConfig.ClientsMax config =? 0) || (SessionTableConfig.ActiveCount config =? 0)
     || (SessionTableConfig.MessageSizeMax config <? HeaderSize)
     || (u32 (SessionTableConfig.MessageSizeMax config - HeaderSize)
           <? SessionTableConfig.ApplicationReplySizeMax config)
  then Err ErrSessionCapacity
  else
    let n := Z.to_nat (SessionTableConfig.ClientsMax config) in
    Ok (mkTable config (replicate n zeroRecord) (replicate n false) (replicate n 0) 0).

(** ** Fields of a reply header *)

Definition replyRequestChecksum (header : Header) : list byte := slice (Fields header) 0 16.
Definition replyContext (header : Header) : list byte := slice (Fields header) 32 48.
Definition replyClient (header : Header) : list byte := slice (Fields header) 64 80.
Definition replyOp (header : Header) : Z := getUint (slice (Fields header) 80 88).
Definition replyCommit (header : Header) : Z := getUint (slice (Fields header) 88 96).
Definition replyTimestamp (header : Header) : Z := getUint (slice (Fields header) 96 104).
Definition replyRequest (header : Header) : Z := getUint (slice (Fields header) 104 108).

Definition isZeroID (id : list byte) : bool := bool_decide (id = zeros 16).

(** ** Lookup and eviction *)

(** The loop of [lookup] from [slot] on: the slot of the client and [true], or
    the first free slot ([n] if none) and [false]. *)
Fixpoint lookup_loop (n : Z) (client : list byte) (records : list SessionRecord)
    (busy : list bool) (slot free : Z) : Z * bool :=
  match records, busy with
  | record :: records, b :: busy =>
      if Session record =? 0 then
        lookup_loop n client records busy (slot + 1)
          (if (free =? n) && negb b then slot else free)
      else if bool_decide (replyClient (Reply record) = client) then (slot, true)
      else lookup_loop n client records busy (slot + 1) free
  | _, _ => (free, false)
  end.

Definition lookup (table : SessionTable) (client : list byte) : Z * bool :=
  let n := zlen (records table) in lookup_loop n client (records table) (busy table) 0 n.

Definition recordAt (table : SessionTable) (slot : Z) : SessionRecord :=
  default zeroRecord (records table !! Z.to_nat slot).
Definition busyAt (table : SessionTable) (slot : Z) : bool :=
  default false (busy table !! Z.to_nat slot).
Definition generationAt (table : SessionTable) (slot : Z) : Z :=
  default 0 (generations table !! Z.to_nat slot).

(** [bytes.Compare(left, right) < 0] *)
Fixpoint bytesLess (left right : list byte) : bool :=
  match left, right with
  | [], [] => false
  | [], _ :: _ => true
  | _ :: _, [] => false
  | a :: left', b :: right' =>
      (byte.unsigned a <? byte.unsigned b)
      || (byte.unsigned a =? byte.unsigned b) && bytesLess left' right'
  end.

(** Whether [evictionSlot] prefers the candidate's record over the current one *)
Definition evictsBefore (candidate current : SessionRecord) : bool :=
  (replyOp (Reply candidate) <? replyOp (Reply current))
  || (replyOp (Reply candidate) =? replyOp (Reply current))
     && bytesLess (replyClient (Reply candidate)) (replyClient (Reply current)).

Definition evictionSlot (table : SessionTable) : Z :=
  fold_left (fun selected slot =>
      if evictsBefore (recordAt table slot) (recordAt table selected) then slot else selected)
    (seqZ 1 (zlen (records table) - 1)) 0.

(** ** Decisions *)

Definition Decide (table : SessionTable) (request : SessionRequest.t) : SessionDecision :=
  let '(slot, found) := lookup table (SessionRequest.Client request) in
  if negb found then SessionNoSession else
  let record := recordAt table slot in
  if SessionRequest.Session request <? Session record then SessionTooLow else
  if Session record <? SessionRequest.Session request then SessionBehind else
  if negb (SessionRequest.Release request =? Release (Reply record))
  then SessionReleaseMismatch else
  let latestRequest := replyRequest (Reply record) in
  if (SessionRequest.Request request <? latestRequest)
     || (u32 (latestRequest + 1) <? SessionRequest.Request request)
  then SessionDrop else
  if SessionRequest.Request request =? latestRequest then
    if bool_decide (SessionRequest.RequestChecksum request = replyRequestChecksum (Reply record))
    then SessionDuplicate else SessionClientFork
  else if negb (bool_decide (SessionRequest.Parent request = replyContext (Reply record)))
  then SessionClientFork else SessionAdmit.

(** ** Validation of an occupied record *)

Definition occupied_context (config : SessionTableConfig.t) (reply : Header) : ValidationContext :=
  ValidationContext.mk true true (Author reply) (SessionTableConfig.ActiveCount config)
    (SessionTableConfig.ActiveCount config) 0 0 0
    (SessionTableConfig.ApplicationReplySizeMax config) 0 (Release reply) 0
    (SessionTableConfig.Group config) (SessionTableConfig.MessageSizeMax config).

Definition validateOccupied (table : SessionTable) (reply : Header) (session : Z)
    : result session_error unit :=
  let cfg := config table in
  if (session =? 0) || negb (Command reply =? CommandReply)
     || negb (Protocol reply =? ProtocolVersion)
     || negb (bool_decide (Group reply = SessionTableConfig.Group cfg))
  then Err ErrSessionEncoding else
  if (Size reply <? HeaderSize) || (SessionTableConfig.MessageSizeMax cfg <? Size reply)
     || (SessionTableConfig.ApplicationReplySizeMax cfg <? u32 (Size reply - HeaderSize))
  then Err ErrSessionEncoding else
  if (Release reply =? 0) || (SessionTableConfig.ActiveCount cfg <=? Author reply)
     || isZeroID (replyClient reply)
  then Err ErrSessionEncoding else
  if (replyCommit reply <? session) || negb (replyOp reply =? replyCommit reply)
     || (replyTimestamp reply =? 0)
  then Err ErrSessionEncoding else
  match EncodeHeader HeaderSize reply with
  | Err _ => Err ErrSessionEncoding
  | Ok (_, copyOfReply) =>
      if negb (bool_decide (HeaderChecksum copyOfReply = HeaderChecksum reply))
      then Err ErrSessionEncoding else
      if negb (bool_decide (ValidateSemantics reply [] (occupied_context cfg reply) = RejectNone))
      then Err ErrSessionEncoding else Ok tt
  end.

(** ** Commits *)

Definition PlanCommit (table : SessionTable) (reply : Header) (session : Z)
    : SessionTable * result session_error SessionCommitPlan :=
  match validateOccupied table reply session with
  | Err e => (table, Err e)
  | Ok _ =>
      let client := replyClient reply in
      let '(slot, found) := lookup table client in
      let n := zlen (records table) in
      let full := negb found && (count table =? n) in
      let slot := if full then evictionSlot table else slot in
      if (found || full) && busyAt table slot then (table, Err ErrSessionCapacity) else
      if negb found && negb full && (slot =? n) then (table, Err ErrSessionCapacity) else
      let generation := u64 (generationAt table slot + 1) in
      (mkTable (config table) (records table) (<[Z.to_nat slot := true]> (busy table))
         (<[Z.to_nat slot := generation]> (generations table)) (count table),
       Ok (SessionCommitPlan.mk slot generation client session (HeaderChecksum reply)))
  end.

Definition CommitAt (table : SessionTable) (plan : SessionCommitPlan) (reply : Header)
    (session : Z) : SessionTable * result session_error unit :=
  let slot := SessionCommitPlan.Slot plan in
  if (zlen (records table) <=? slot) || negb (busyAt table slot)
  then (table, Err ErrSessionEncoding) else
  if negb (generationAt table slot =? SessionCommitPlan.Generation plan)
     || negb (bool_decide (SessionCommitPlan.Client plan = replyClient reply))
  then (table, Err ErrSessionEncoding) else
  if negb (SessionCommitPlan.Session plan =? session)
     || negb (bool_decide (SessionCommitPlan.ReplyChecksum plan = HeaderChecksum reply))
  then (table, Err ErrSessionEncoding) else
  match validateOccupied table reply session with
  | Err e => (table, Err e)
  | Ok _ =>
      let count := if Session (recordAt table slot) =? 0 then u32 (count table + 1)
                   else count table in
      (mkTable (config table) (<[Z.to_nat slot := mkRecord reply session]> (records table))
         (<[Z.to_nat slot := false]> (busy table)) (generations table) count, Ok tt)
  end.

Definition Abort (table : SessionTable) (plan : SessionCommitPlan) : SessionTable :=
  let slot := SessionCommitPlan.Slot plan in
  if (slot <? zlen (records table)) && busyAt table slot
     && (generationAt table slot =? SessionCommitPlan.Generation plan)
  then mkTable (config table) (records table) (<[Z.to_nat slot := false]> (busy table))
         (generations table) (count table)
  else table.

Definition Commit (table : SessionTable) (reply : Header) (session : Z)
    : SessionTable * result session_error Z :=
  match PlanCommit table reply session with
  | (table, Err e) => (table, Err e)
  | (table, Ok plan) =>
      match CommitAt table plan reply session with
      | (table, Err e) => (Abort table plan, Err e)
      | (table, Ok _) => (table, Ok (SessionCommitPlan.Slot plan))
      end
  end.

(** [table.Session(client)] *)
Definition SessionOf (table : SessionTable) (client : list byte) : option Z :=
  let '(slot, found) := lookup table client in
  if negb found then None else Some (Session (recordAt table slot)).

Definition ReplyOf (table : SessionTable) (client : list byte) (session request : Z)
    : option (Header * Z) :=
  let '(slot, found) := lookup table client in
  let record := recordAt table slot in
  if negb found || busyAt table slot || negb (Session record =? session)
     || negb (replyRequest (Reply record) =? request)
  then None else Some (Reply record, slot).

Definition RepairReply (table : SessionTable) (client : list byte) (op : Z)
    (checksum : list byte) : option (Header * Z) :=
  let '(slot, found) := lookup table client in
  let record := recordAt table slot in
  if negb found || busyAt table slot || negb (replyOp (Reply record) =? op)
     || negb (bool_decide (HeaderChecksum (Reply record) = checksum))
  then None else Some (Reply record, slot).

(** ** The trailer *)

Definition TrailerSize (table : SessionTable) : Z :=
  zlen (records table) * HeaderSize + zlen (records table) * 8.

Fixpoint EncodeTrailer_loop (sessionsOffset : Z) (records : list SessionRecord) (slot : Z)
    (destination : list byte) : result session_error (list byte) :=
  match records with
  | [] => Ok destination
  | record :: records =>
      if Session record =? 0 then EncodeTrailer_loop sessionsOffset records (slot + 1) destination
      else match EncodeHeader HeaderSize (Reply record) with
      | Err _ => Err ErrSessionEncoding
      | Ok (encoded, header) =>
          if negb (bool_decide (HeaderChecksum header = HeaderChecksum (Reply record)))
          then Err ErrSessionEncoding
          else EncodeTrailer_loop sessionsOffset records (slot + 1)
                 (put (put destination (slot * HeaderSize) encoded)
                    (sessionsOffset + slot * 8) (putUint 8 (Session record)))
      end
  end.

(** The destination of the trailer's size, and its checksum *)
Definition EncodeTrailer (table : SessionTable) (destination : list byte)
    : result session_error (list byte * list byte) :=
  if negb (zlen destination =? TrailerSize table) then Err ErrSessionEncoding else
  if existsb id (busy table) then Err ErrSessionCapacity else
  encoded ← EncodeTrailer_loop (zlen (records table) * HeaderSize) (records table) 0
    (zeros (zlen destination));
  Ok (encoded, ChecksumBytes encoded).

(** The decode loop: [n] slots to go, [decoded] the records of the slots
    before. *)
Fixpoint DecodeTrailer_loop (table : SessionTable) (source : list byte) (sessionsOffset : Z)
    (n : nat) (decoded : list SessionRecord) (count : Z)
    : result session_error (list SessionRecord * Z) :=
  match n with
  | O => Ok (decoded, count)
  | S n =>
      let slot := zlen decoded in
      let headerBytes := slice source (slot * HeaderSize) ((slot + 1) * HeaderSize) in
      let session := uint64At source (sessionsOffset + slot * 8) in
      if session =? 0 then
        if negb (allZero headerBytes) then Err ErrSessionEncoding
        else DecodeTrailer_loop table source sessionsOffset n (decoded ++ [zeroRecord]) count
      else
        let '(header, reason) := DecodeHeader headerBytes
          (SessionTableConfig.Group (config table))
          (SessionTableConfig.MessageSizeMax (config table))
          (SessionTableConfig.ActiveCount (config table)) in
        if negb (bool_decide (reason = RejectNone))
           || negb (is_Ok (validateOccupied table header session))
        then Err ErrSessionEncoding else
        if existsb (fun prior => negb (Session prior =? 0)
             && bool_decide (replyClient (Reply prior) = replyClient header)) decoded
        then Err ErrSessionEncoding
        else DecodeTrailer_loop table source sessionsOffset n
               (decoded ++ [mkRecord header session]) (u32 (count + 1))
  end.

Definition DecodeTrailer (table : SessionTable) (source expectedChecksum : list byte)
    : SessionTable * result session_error unit :=
  if negb (zlen source =? TrailerSize table) then (table, Err ErrSessionEncoding) else
  if negb (bool_decide (ChecksumBytes source = expectedChecksum))
  then (table, Err ErrSessionChecksum) else
  match DecodeTrailer_loop table source (zlen (records table) * HeaderSize)
          (length (records table)) [] 0 with
  | Err e => (table, Err e)
  | Ok (decoded, count) =>
      (mkTable (config table) decoded (replicate (length (busy table)) false)
         ((fun generation => u64 (generation + 1)) <$> generations table) count, Ok tt)
  end.

(** ** The invariant *)

Definition occupied (r : SessionRecord) : bool := negb (Session r =? 0).

(** Client [c] has record [r]. *)
Definition holds (t : SessionTable) (c : list byte) (r : SessionRecord) : Prop :=
  exists i, records t !! i = Some r /\ occupied r = true /\ replyClient (Reply r) = c.

Record wf_table (t : SessionTable) : Prop := {
  wt_size : 0 < zlen (records t) < 2 ^ 32;
  wt_busy : length (busy t) = length (records t);
  wt_generations : length (generations t) = length (records t);
  wt_count : count t = zlen (filter (fun r => occupied r = true) (records t));
  wt_free : forall r, r ∈ records t -> occupied r = false -> r = zeroRecord;
  wt_record : forall r, r ∈ records t -> occupied r = true ->
    wf_header (Reply r) /\ is_u64 (Session r) /\
    validateOccupied t (Reply r) (Session r) = Ok tt;
  wt_distinct : forall i j r r', records t !! i = Some r -> records t !! j = Some r' ->
    occupied r = true -> occupied r' = true ->
    replyClient (Reply r) = replyClient (Reply r') -> i = j;
}.

Lemma validateOccupied_config t t' reply session :
  config t = config t' -> validateOccupied t reply session = validateOccupied t' reply session.
Proof. intros E. unfold validateOccupied. by rewrite E. Qed.

Lemma validateOccupied_session t reply session :
  validateOccupied t reply session = Ok tt -> session <> 0.
Proof. unfold validateOccupied. intros H. step_guards H. split_bool. done. Qed.

Lemma holds_unique t c r r' : wf_table t -> holds t c r -> holds t c r' -> r = r'.
Proof.
  intros Hwf (i & Hi & Ho & Hc) (j & Hj & Ho' & Hc').
  assert (i = j) as -> by (eapply (wt_distinct t Hwf); try done; congruence). congruence.
Qed.

Lemma NewSessionTable_wf cfg t :
  is_u32 (SessionTableConfig.ClientsMax cfg) -> NewSessionTable cfg = Ok t ->
  wf_table t /\ (forall c r, ~ holds t c r) /\
  zlen (records t) = SessionTableConfig.ClientsMax cfg.
Proof.
  intros Hc H. unfold NewSessionTable in H. step_guards H. injection H as <-. split_bool.
  assert (forall r, r ∈ replicate (Z.to_nat (SessionTableConfig.ClientsMax cfg)) zeroRecord ->
    r = zeroRecord) as Hz by (intros r [-> _]%elem_of_replicate; done).
  assert (forall n, filter (fun r => occupied r = true) (replicate n zeroRecord) = []) as Hf.
  { induction n; [done|]. cbn [replicate]. by rewrite filter_cons_False. }
  split; [|split].
  - split; cbn [records busy generations count]; unfold zlen; rewrite ?length_replicate;
      try done; try (unfold is_uint in *; lia).
    + by rewrite Hf.
    + intros r Hr _. by apply Hz.
    + intros r Hr Ho. by rewrite (Hz r Hr) in Ho.
    + intros i j r r' Hi _ Ho. apply list_elem_of_lookup_2, Hz in Hi. by subst.
  - intros c r (i & Hi & Ho & _). cbn [records] in Hi.
    apply list_elem_of_lookup_2, Hz in Hi. by subst.
  - cbn. unfold zlen. rewrite length_replicate. unfold is_uint in *. lia.
Qed.

(** ** Lookup *)

Lemma lookup_loop_found n c rs bs slot free k :
  lookup_loop n c rs bs slot free = (k, true) ->
  exists i r, rs !! i = Some r /\ k = slot + Z.of_nat i /\ occupied r = true /\
    replyClient (Reply r) = c.
Proof.
  revert bs slot free. induction rs as [|r rs IH]; intros [|b bs] slot free H; try done.
  cbn [lookup_loop] in H. destruct (Z.eqb_spec (Session r) 0) as [E|E].
  - apply IH in H as (i & r' & Hi & -> & Ho & Hc). exists (S i), r'.
    repeat split; try done. lia.
  - case_bool_decide as Ec.
    + injection H as <-. exists O, r. repeat split; try done; [lia|].
      unfold occupied. by apply negb_true_iff, Z.eqb_neq.
    + apply IH in H as (i & r' & Hi & -> & Ho & Hc). exists (S i), r'.
      repeat split; try done. lia.
Qed.

Lemma lookup_loop_missing n c rs bs slot free k :
  length bs = length rs -> lookup_loop n c rs bs slot free = (k, false) ->
  (forall r, r ∈ rs -> occupied r = true -> replyClient (Reply r) <> c) /\
  (k = free \/ exists i r, rs !! i = Some r /\ k = slot + Z.of_nat i /\ occupied r = false /\
     bs !! i = Some false) /\
  (k = n -> 0 <= slot -> slot + zlen rs <= n -> forall i r, rs !! i = Some r ->
     occupied r = false -> bs !! i = Some true).
Proof.
  revert bs slot free. induction rs as [|r rs IH]; intros [|b bs] slot free Hl H; try done.
  { injection H as <-. split; [by intros r ?%elem_of_nil|]. split; [by left|done]. }
  cbn [lookup_loop] in H. rewrite zlen_cons. pose proof (zlen_nonneg rs) as Hn.
  destruct (Z.eqb_spec (Session r) 0) as [E|E].
  - assert (occupied r = false) as Eo by (unfold occupied; by rewrite E).
    apply IH in H as (H1 & H2 & H3); [|simpl in Hl; lia]. split; [|split].
    + intros r' [->|Hr]%elem_of_cons Ho; [congruence|by apply H1].
    + destruct H2 as [->|(i & r' & Hi & -> & Ho & Hb)].
      * destruct ((free =? n) && negb b) eqn:Ef; [|by left]. split_bool. right.
        exists O, r. repeat split; try done; [lia|by destruct b].
      * right. exists (S i), r'. repeat split; try done. lia.
    + intros Hk Hs Hle i r' Hi Ho. destruct i as [|i]; cbn in Hi |- *.
      * destruct b; [done|]. exfalso. rewrite andb_true_r in H2.
        destruct (Z.eqb_spec free n) as [Ef|Ef].
        -- destruct H2 as [?|(i & ? & Hi' & ? & _)]; [lia|]. apply lookup_lt_Some in Hi'.
           unfold zlen in *. lia.
        -- destruct H2 as [?|(i & ? & Hi' & ? & _)]; [lia|]. apply lookup_lt_Some in Hi'.
           unfold zlen in *. lia.
      * by eapply H3; try done; lia.
  - case_bool_decide as Ec; [done|].
    assert (occupied r = true) as Eo by (unfold occupied; by apply negb_true_iff, Z.eqb_neq).
    apply IH in H as (H1 & H2 & H3); [|simpl in Hl; lia]. split; [|split].
    + intros r' [->|Hr]%elem_of_cons Ho; [done|by apply H1].
    + destruct H2 as [->|(i & r' & Hi & -> & Ho & Hb)]; [by left|].
      right. exists (S i), r'. repeat split; try done. lia.
    + intros Hk Hs Hle i r' Hi Ho. destruct i as [|i]; cbn in Hi |- *; [congruence|].
      by eapply H3; try done; lia.
Qed.

Lemma recordAt_lookup t slot r :
  0 <= slot -> records t !! Z.to_nat slot = Some r -> recordAt t slot = r.
Proof. intros _ E. unfold recordAt. by rewrite E. Qed.

Lemma lookup_true t c slot :
  lookup t c = (slot, true) ->
  0 <= slot < zlen (records t) /\ records t !! Z.to_nat slot = Some (recordAt t slot) /\
  occupied (recordAt t slot) = true /\ replyClient (Reply (recordAt t slot)) = c.
Proof.
  intros (i & r & Hi & -> & Ho & Hc)%lookup_loop_found. rewrite Z.add_0_l.
  unfold recordAt. rewrite Nat2Z.id, Hi. simpl. apply lookup_lt_Some in Hi as Hlt.
  unfold zlen. repeat split; try done; lia.
Qed.

Lemma lookup_holds t c r :
  wf_table t -> holds t c r -> exists slot, lookup t c = (slot, true) /\ recordAt t slot = r.
Proof.
  intros Hwf Hr. destruct (lookup t c) as [slot [|]] eqn:E.
  - exists slot. split; [done|]. apply lookup_true in E as (? & Hs & Ho & Hc).
    eapply holds_unique; [done| |done]. by eexists.
  - apply lookup_loop_missing in E as [Hno _]; [|apply Hwf].
    destruct Hr as (i & Hi & Ho & Hc). destruct (Hno r); [|done..].
    by eapply list_elem_of_lookup_2.
Qed.

Lemma lookup_false t c slot :
  wf_table t -> lookup t c = (slot, false) ->
  (forall r, ~ holds t c r) /\
  (slot = zlen (records t) \/
   0 <= slot < zlen (records t) /\ records t !! Z.to_nat slot = Some zeroRecord /\
   busyAt t slot = false).
Proof.
  intros Hwf H. apply lookup_loop_missing in H as (Hno & Hfree & _); [|apply Hwf]. split.
  - intros r (i & Hi & Ho & Hc). by eapply (Hno r); [eapply list_elem_of_lookup_2|..].
  - destruct Hfree as [?|(i & r & Hi & -> & Ho & Hb)]; [by left|]. right.
    rewrite Z.add_0_l. unfold busyAt. rewrite Nat2Z.id, Hb, Hi.
    apply lookup_lt_Some in Hi as Hlt. split; [unfold zlen; lia|]. split; [|done].
    f_equal. apply (wt_free t Hwf); [by eapply list_elem_of_lookup_2|done].
Qed.

Lemma filter_full (rs : list SessionRecord) :
  (length (filter (fun r => occupied r = true) rs) <= length rs)%nat /\
  (length (filter (fun r => occupied r = true) rs) = length rs ->
   forall r, r ∈ rs -> occupied r = true).
Proof.
  induction rs as [|r rs [IH1 IH2]]; [split; [done|]; intros _ r ?%elem_of_nil; done|].
  rewrite filter_cons. case_decide as E; cbn [length].
  - split; [lia|]. intros Hl r' [->|Hr]%elem_of_cons; [done|]. apply IH2; [lia|done].
  - split; [lia|]. intros Hl. lia.
Qed.

(** On an idle table that is not full there is a free slot. *)
Lemma lookup_free t c slot :
  wf_table t -> existsb id (busy t) = false -> count t <> zlen (records t) ->
  lookup t c = (slot, false) -> slot <> zlen (records t).
Proof.
  intros Hwf Hb Hc H ->. apply lookup_loop_missing in H as (_ & _ & Hall); [|apply Hwf].
  specialize (Hall eq_refl ltac:(lia) ltac:(lia)). apply Hc. rewrite (wt_count t Hwf).
  unfold zlen. f_equal. pose proof (filter_full (records t)) as [Hle _].
  destruct (decide (Forall (fun r => occupied r = true) (records t))) as [Hf|Hf].
  - clear - Hf. induction Hf; [done|]. rewrite filter_cons_True by done. cbn. congruence.
  - exfalso. apply not_Forall_Exists in Hf; [|solve_decision].
    apply Exists_exists in Hf as (r & (i & Hi)%list_elem_of_lookup & Ho).
    apply not_true_is_false in Ho. specialize (Hall i r Hi Ho).
    apply not_true_iff_false in Hb. apply Hb, existsb_exists. exists true.
    split; [|done]. apply list_elem_of_In. by eapply list_elem_of_lookup_2.
Qed.

(** ** Eviction *)

Lemma bytesLess_trans a b c :
  bytesLess a b = true -> bytesLess b c = true -> bytesLess a c = true.
Proof.
  revert b c. induction a as [|x a IH]; intros [|y b] [|z c]; cbn; try done.
  rewrite !orb_true_iff, !andb_true_iff, !Z.ltb_lt, !Z.eqb_eq.
  intros [H1|[H1 H1']] [H2|[H2 H2']]; [left; lia..|]. right. split; [lia|by eapply IH].
Qed.

Lemma evictsBefore_trans a b c :
  evictsBefore a b = true -> evictsBefore b c = true -> evictsBefore a c = true.
Proof.
  unfold evictsBefore. rewrite !orb_true_iff, !andb_true_iff, !Z.ltb_lt, !Z.eqb_eq.
  intros [H1|[H1 H1']] [H2|[H2 H2']]; [left; lia..|]. right.
  split; [lia|by eapply bytesLess_trans].
Qed.

Lemma evictsBefore_irrefl a : evictsBefore a a = false.
Proof.
  unfold evictsBefore. rewrite Z.ltb_irrefl, Z.eqb_refl. simpl.
  induction (replyClient (Reply a)) as [|x l IH]; [done|]. cbn.
  by rewrite Z.ltb_irrefl, Z.eqb_refl.
Qed.

(** The selection loop keeps a slot that none of the slots seen precedes. *)
Lemma eviction_loop t slots selected seen :
  (forall j, j ∈ seen -> evictsBefore (recordAt t j) (recordAt t selected) = false) ->
  selected ∈ seen ->
  let final := fold_left (fun selected slot =>
    if evictsBefore (recordAt t slot) (recordAt t selected) then slot else selected) slots selected in
  (forall j, j ∈ seen ++ slots -> evictsBefore (recordAt t j) (recordAt t final) = false) /\
  final ∈ seen ++ slots.
Proof.
  revert selected seen. induction slots as [|s slots IH]; intros selected seen Hseen Hin.
  { rewrite app_nil_r. done. }
  cbn [fold_left]. replace (seen ++ s :: slots) with ((seen ++ [s]) ++ slots)
    by (by rewrite <- app_assoc).
  destruct (evictsBefore (recordAt t s) (recordAt t selected)) eqn:E; apply IH.
  - intros j [Hj|Hj%list_elem_of_singleton]%elem_of_app;
      [|subst j; apply evictsBefore_irrefl].
    apply not_true_is_false. intros Hlt. specialize (Hseen j Hj).
    rewrite (evictsBefore_trans _ _ _ Hlt E) in Hseen. done.
  - apply elem_of_app. right. by apply list_elem_of_singleton.
  - intros j [Hj|Hj%list_elem_of_singleton]%elem_of_app; [by apply Hseen|by subst j].
  - apply elem_of_app. by left.
Qed.

Lemma evictionSlot_spec t :
  0 < zlen (records t) ->
  0 <= evictionSlot t < zlen (records t) /\
  forall j, 0 <= j < zlen (records t) ->
    evictsBefore (recordAt t j) (recordAt t (evictionSlot t)) = false.
Proof.
  intros Hn.
  destruct (eviction_loop t (seqZ 1 (zlen (records t) - 1)) 0 [0]) as [Hmin Hin].
  - intros j Hj%list_elem_of_singleton. subst j. apply evictsBefore_irrefl.
  - by apply list_elem_of_singleton.
  - fold (evictionSlot t) in Hmin, Hin.
    assert (forall j, j ∈ [0] ++ seqZ 1 (zlen (records t) - 1) <-> 0 <= j < zlen (records t)) as He.
    { intros j. rewrite elem_of_app, list_elem_of_singleton, elem_of_seqZ. lia. }
    split; [by apply He|]. intros j Hj. by apply Hmin, He.
Qed.

(** ** Commits *)

(** How [PlanCommit] chooses a slot for [client] *)
Inductive chosen (t : SessionTable) (client : list byte) (slot : Z) : Prop :=
| chosen_own r :
    holds t client r -> recordAt t slot = r -> chosen t client slot
| chosen_free :
    (forall r, ~ holds t client r) -> recordAt t slot = zeroRecord -> chosen t client slot
| chosen_evict :
    (forall r, ~ holds t client r) -> count t = zlen (records t) ->
    slot = evictionSlot t -> chosen t client slot.

Lemma PlanCommit_Ok t reply session t1 plan :
  wf_table t -> PlanCommit t reply session = (t1, Ok plan) ->
  let slot := SessionCommitPlan.Slot plan in
  validateOccupied t reply session = Ok tt /\
  0 <= slot < zlen (records t) /\ busyAt t slot = false /\
  chosen t (replyClient reply) slot /\
  plan = SessionCommitPlan.mk slot (u64 (generationAt t slot + 1)) (replyClient reply) session
    (HeaderChecksum reply) /\
  t1 = mkTable (config t) (records t) (<[Z.to_nat slot := true]> (busy t))
    (<[Z.to_nat slot := u64 (generationAt t slot + 1)]> (generations t)) (count t).
Proof.
  intros Hwf H. unfold PlanCommit in H.
  destruct (validateOccupied t reply session) as [[]|] eqn:Ev; [|discriminate].
  destruct (lookup t (replyClient reply)) as [slot found] eqn:El.
  destruct found; cbn [negb andb orb] in H.
  - destruct (busyAt t slot) eqn:Eb; [discriminate|]. injection H as <- <-. cbn.
    pose proof (lookup_true _ _ _ El) as (Hs & Hl & Ho & Hc).
    split; [done|]. split; [done|]. split; [done|]. split; [|done].
    eapply chosen_own; [|done]. by eexists.
  - destruct (lookup_false t _ slot Hwf El) as [Hno Hfree].
    destruct (Z.eqb_spec (count t) (zlen (records t))) as [Ec|Ec]; cbn [negb andb orb] in H.
    + destruct (busyAt t (evictionSlot t)) eqn:Eb; [discriminate|]. injection H as <- <-. cbn.
      destruct (evictionSlot_spec t) as [Hs _]; [apply Hwf|].
      split; [done|]. split; [done|]. split; [done|]. split; [by apply chosen_evict|done].
    + destruct (Z.eqb_spec slot (zlen (records t))) as [Es|Es]; [discriminate|].
      injection H as <- <-. cbn. destruct Hfree as [?|(Hs & Hr & Hb)]; [done|].
      split; [done|]. split; [done|]. split; [done|]. split; [|done].
      apply chosen_free; [done|]. unfold recordAt. by rewrite Hr.
Qed.

Lemma filter_insert (rs : list SessionRecord) i old r :
  rs !! i = Some old -> occupied r = true ->
  zlen (filter (fun r => occupied r = true) (<[i := r]> rs))
  = zlen (filter (fun r => occupied r = true) rs) + (if occupied old then 0 else 1).
Proof.
  intros Hi Ho. revert i Hi. induction rs as [|x rs IH]; intros i Hi; [done|].
  destruct i as [|i].
  - injection Hi as ->. change (<[0%nat := r]> (old :: rs)) with (r :: rs).
    rewrite !filter_cons. rewrite decide_True by done. rewrite zlen_cons.
    destruct (occupied old) eqn:E; case_decide; try done; rewrite ?zlen_cons; lia.
  - change (<[S i := r]> (x :: rs)) with (x :: <[i := r]> rs).
    rewrite !filter_cons. case_decide; rewrite ?zlen_cons, IH by done; lia.
Qed.

(** Replacing the record of a chosen slot keeps the table well formed. *)
Lemma wf_replace t slot reply session bs gs n :
  wf_table t -> 0 <= slot < zlen (records t) -> chosen t (replyClient reply) slot ->
  wf_header reply -> is_u64 session -> validateOccupied t reply session = Ok tt ->
  length bs = length (busy t) -> length gs = length (generations t) ->
  n = count t + (if occupied (recordAt t slot) then 0 else 1) ->
  wf_table (mkTable (config t) (<[Z.to_nat slot := mkRecord reply session]> (records t)) bs gs n).
Proof.
  intros Hwf Hs Hch Hh Hu Hv Hbs Hgs Hn. set (new := mkRecord reply session).
  assert (occupied new = true) as Hnew.
  { apply validateOccupied_session in Hv. by apply negb_true_iff, Z.eqb_neq. }
  assert (Z.to_nat slot < length (records t))%nat as Hlt by (unfold zlen in Hs; lia).
  apply lookup_lt_is_Some in Hlt as Hold. destruct Hold as [old Hold].
  assert (recordAt t slot = old) as Er by (unfold recordAt; by rewrite Hold).
  assert (forall j r, records t !! j = Some r -> j <> Z.to_nat slot -> occupied r = true ->
    replyClient (Reply r) <> replyClient reply) as Hother.
  { intros j r Hj Hne Ho Ec. assert (holds t (replyClient reply) r) as Hr by by exists j.
    destruct Hch as [r' Hr' Er'|Hno _|Hno _ _]; [|by eapply Hno..].
    assert (r = r') as -> by by eapply holds_unique. destruct Hne.
    eapply (wt_distinct t Hwf); [done|exact Hold|done|congruence|congruence]. }
  pose proof Hwf as []. split; cbn [records busy generations count config].
  - unfold zlen. by rewrite length_insert.
  - rewrite length_insert. congruence.
  - rewrite length_insert. congruence.
  - rewrite (filter_insert _ _ old) by done. rewrite Hn, wt_count0, Er. done.
  - intros r (j & Hj)%list_elem_of_lookup Ho.
    apply list_lookup_insert_Some in Hj as [(_ & <- & _)|[_ Hj]]; [congruence|].
    apply wt_free0; [by eapply list_elem_of_lookup_2|done].
  - intros r (j & Hj)%list_elem_of_lookup Ho.
    apply list_lookup_insert_Some in Hj as [(_ & <- & _)|[_ Hj]]; [done|].
    apply wt_record0; [by eapply list_elem_of_lookup_2|done].
  - intros i j r r' Hi Hj Ho Ho' Ec.
    apply list_lookup_insert_Some in Hi as [(<- & <- & _)|[? Hi]];
      apply list_lookup_insert_Some in Hj as [(<- & <- & _)|[? Hj]]; try done.
    + by destruct (Hother j r' Hj).
    + by destruct (Hother i r Hi).
    + by eapply wt_distinct0.
Qed.

Lemma count_bound t : wf_table t -> 0 <= count t <= zlen (records t).
Proof.
  intros Hwf. rewrite (wt_count t Hwf). destruct (filter_full (records t)) as [Hle _].
  unfold zlen. lia.
Qed.

Lemma count_free t slot :
  wf_table t -> 0 <= slot < zlen (records t) -> occupied (recordAt t slot) = false ->
  count t < zlen (records t).
Proof.
  intros Hwf Hs Ho. pose proof (count_bound t Hwf). destruct (decide (count t = zlen (records t)));
    [|lia]. exfalso.
  assert (Z.to_nat slot < length (records t))%nat as Hlt by (unfold zlen in Hs; lia).
  apply lookup_lt_is_Some in Hlt as [r Hr]. unfold recordAt in Ho. rewrite Hr in Ho. simpl in Ho.
  destruct (filter_full (records t)) as [_ Hall]. rewrite (wt_count t Hwf) in *. unfold zlen in *.
  rewrite (Hall ltac:(lia) r) in Ho; [done|by eapply list_elem_of_lookup_2].
Qed.

(** Once planned, an immediate commit goes through: the table with the
    chosen record replaced. *)
Lemma Commit_planned t reply session t1 plan :
  wf_table t -> PlanCommit t reply session = (t1, Ok plan) ->
  let slot := SessionCommitPlan.Slot plan in
  Commit t reply session =
    (mkTable (config t) (<[Z.to_nat slot := mkRecord reply session]> (records t))
       (<[Z.to_nat slot := false]> (<[Z.to_nat slot := true]> (busy t)))
       (<[Z.to_nat slot := u64 (generationAt t slot + 1)]> (generations t))
       (count t + (if occupied (recordAt t slot) then 0 else 1)), Ok slot).
Proof.
  intros Hwf HP. pose proof (PlanCommit_Ok _ _ _ _ _ Hwf HP) as (Hv & Hs & Hb & _ & Hplan & Ht1).
  unfold Commit. rewrite HP. set (slot := SessionCommitPlan.Slot plan) in *. cbv zeta.
  assert (Z.to_nat slot < length (records t))%nat as Hlt by (unfold zlen in Hs; lia).
  pose proof Hwf as []. unfold CommitAt. rewrite Hplan, Ht1. cbn [SessionCommitPlan.Slot
    SessionCommitPlan.Generation SessionCommitPlan.Client SessionCommitPlan.Session
    SessionCommitPlan.ReplyChecksum records config count].
  destruct (Z.leb_spec (zlen (records t)) slot); [lia|].
  unfold busyAt, generationAt. cbn [busy generations].
  rewrite !list_lookup_insert_eq by lia. simpl.
  rewrite !Z.eqb_refl, !bool_decide_true by done. simpl.
  rewrite (validateOccupied_config _ t), Hv by done.
  change (recordAt _ slot) with (recordAt t slot). unfold occupied.
  pose proof (count_bound t Hwf). pose proof (count_free t slot Hwf Hs) as Hf. unfold occupied in Hf.
  destruct (Session (recordAt t slot) =? 0); cbn [negb] in *; [|by rewrite Z.add_0_r].
  rewrite (uwrap_small 32); [done|]. specialize (Hf eq_refl). unfold is_uint. lia.
Qed.

Lemma Commit_Ok_planned t reply session t' slot :
  Commit t reply session = (t', Ok slot) ->
  exists t1 plan, PlanCommit t reply session = (t1, Ok plan) /\
    slot = SessionCommitPlan.Slot plan.
Proof.
  unfold Commit. destruct (PlanCommit t reply session) as [t1 [plan|]] eqn:E; [|done].
  destruct (CommitAt _ _ _ _) as [t2 []]; [|done]. intros [= <- <-]. by exists t1, plan.
Qed.

Lemma holds_insert t t' slot new :
  records t' = <[Z.to_nat slot := new]> (records t) -> 0 <= slot < zlen (records t) ->
  occupied new = true ->
  forall c r, holds t' c r <->
    (r = new /\ c = replyClient (Reply new)) \/
    (exists i, i <> Z.to_nat slot /\ records t !! i = Some r /\ occupied r = true /\
       replyClient (Reply r) = c).
Proof.
  intros E Hs Ho c r. unfold holds. rewrite E. split.
  - intros (i & Hi & Hoc & Hc). apply list_lookup_insert_Some in Hi as [(<- & <- & _)|[? Hi]].
    + left. done.
    + right. by exists i.
  - intros [[-> ->]|(i & Hne & Hi & Hoc & Hc)].
    + exists (Z.to_nat slot). rewrite list_lookup_insert_eq; [done|]. unfold zlen in Hs. lia.
    + exists i. by rewrite list_lookup_insert_ne.
Qed.

Lemma Commit_result t reply session t' slot :
  wf_table t -> wf_header reply -> is_u64 session -> Commit t reply session = (t', Ok slot) ->
  wf_table t' /\ holds t' (replyClient reply) (mkRecord reply session) /\
  chosen t (replyClient reply) slot /\
  forall c r, holds t' c r <->
    (r = mkRecord reply session /\ c = replyClient reply) \/
    (exists i, i <> Z.to_nat slot /\ records t !! i = Some r /\ occupied r = true /\
       replyClient (Reply r) = c).
Proof.
  intros Hwf Hh Hu HC. destruct (Commit_Ok_planned _ _ _ _ _ HC) as (t1 & plan & HP & ->).
  rewrite (Commit_planned _ _ _ _ _ Hwf HP) in HC. injection HC as <-.
  destruct (PlanCommit_Ok _ _ _ _ _ Hwf HP) as (Hv & Hs & _ & Hch & _ & _).
  set (slot := SessionCommitPlan.Slot plan) in *. set (new := mkRecord reply session).
  assert (occupied new = true) as Hnew.
  { apply validateOccupied_session in Hv. by apply negb_true_iff, Z.eqb_neq. }
  set (t' := mkTable _ _ _ _ _).
  pose proof (holds_insert t t' slot new eq_refl Hs Hnew) as Hiff.
  split; [|split; [|split]]; [|apply Hiff; by left|done|done].
  apply wf_replace; try done; by rewrite ?length_insert.
Qed.

(** Committing a reply updates exactly one client.  On an idle table a
    valid reply is always committed; the client then holds that reply; every
    other client keeps its record, except that a full table without the client
    gives up one record, the one whose reply has the smallest operation (ties
    by client identifier); and the invariant is preserved: the count is exact,
    records are valid and clients distinct. *)
Theorem session_commit t reply session :
  wf_table t -> wf_header reply -> is_u64 session ->
  (existsb id (busy t) = false -> validateOccupied t reply session = Ok tt ->
   exists t' slot, Commit t reply session = (t', Ok slot)) /\
  (forall t' slot, Commit t reply session = (t', Ok slot) ->
   wf_table t' /\
   holds t' (replyClient reply) (mkRecord reply session) /\
   (forall c r, c <> replyClient reply -> holds t' c r -> holds t c r) /\
   (forall c r, c <> replyClient reply -> holds t c r -> ~ holds t' c r ->
      count t = zlen (records t) /\ (forall r', ~ holds t (replyClient reply) r') /\
      forall c' r', holds t c' r' -> evictsBefore r' r = false)).
Proof.
  intros Hwf Hh Hu. split.
  - intros Hidle Hv.
    assert (forall slot, busyAt t slot = false) as Hb.
    { intros slot. unfold busyAt. destruct (busy t !! Z.to_nat slot) as [[|]|] eqn:E; try done.
      apply not_true_iff_false in Hidle. destruct Hidle. apply existsb_exists. exists true.
      split; [|done]. apply list_elem_of_In. by eapply list_elem_of_lookup_2. }
    assert (exists t1 plan, PlanCommit t reply session = (t1, Ok plan)) as (t1 & plan & HP).
    { unfold PlanCommit. rewrite Hv. destruct (lookup t (replyClient reply)) as [slot found] eqn:El.
      rewrite Hb, andb_false_r. destruct found; [by eexists _, _|]. cbn [negb andb].
      destruct (Z.eqb_spec (count t) (zlen (records t))); [by eexists _, _|]. cbn [negb andb].
      destruct (Z.eqb_spec slot (zlen (records t))); [|by eexists _, _].
      by destruct (lookup_free t _ slot Hwf Hidle ltac:(done) El). }
    rewrite (Commit_planned _ _ _ _ _ Hwf HP). by eexists _, _.
  - intros t' slot HC. destruct (Commit_result _ _ _ _ _ Hwf Hh Hu HC) as (Hwf' & Hnew & Hch & Hiff).
    split; [done|]. split; [done|]. split.
    + intros c r Hc [[-> ->]|(i & _ & ?)]%Hiff; [done|by exists i].
    + intros c r Hc (i & Hi & Ho & Hci) Hno.
      assert (i = Z.to_nat slot) as ->.
      { destruct (decide (i = Z.to_nat slot)); [done|]. destruct Hno. apply Hiff. right. by exists i. }
      assert (recordAt t slot = r) as Er by (unfold recordAt; by rewrite Hi).
      destruct Hch as [r' (j & Hj & Ho' & Hc') Er'|Hnone E0|Hnone Hfull Es].
      * congruence.
      * rewrite E0 in Er. by rewrite <- Er in Ho.
      * split; [done|]. split; [done|]. intros c' r' (j & Hj & _).
        destruct (evictionSlot_spec t) as [_ Hmin]; [apply Hwf|]. rewrite <- Er, Es.
        apply lookup_lt_Some in Hj as Hlt. specialize (Hmin (Z.of_nat j)).
        unfold recordAt in Hmin at 1. rewrite Nat2Z.id, Hj in Hmin. apply Hmin. unfold zlen. lia.
Qed.

Definition empty_table : SessionTable :=
  mkTable (SessionTableConfig.mk 2 (zeros 16) 3 1024 64) [zeroRecord; zeroRecord]
    [false; false] [0; 0] 0.

Lemma wf_empty_table : wf_table empty_table.
Proof.
  by apply (NewSessionTable_wf (SessionTableConfig.mk 2 (zeros 16) 3 1024 64)).
Qed.

(** The register reply of client 1, at operation 5 *)
Definition sample_reply : Header :=
  match EncodeHeader HeaderSize
    (mkHeader (zeros 16) (ChecksumBytes []) (zeros 16) 256 0 0 1 0 CommandReply 0
       (write_fields (zeros 128) [(64, [Byte.x01]); (80, [Byte.x05]); (88, [Byte.x05]);
          (96, [Byte.x01]); (108, [Byte.x02])])) with
  | Ok (_, h) => h
  | Err _ => zeroHeader
  end.

Lemma wf_sample_reply : wf_header sample_reply.
Proof. split; vm_compute; (reflexivity || (split; [discriminate|reflexivity])). Qed.

Lemma session_commit_witness :
  exists t' slot, Commit empty_table sample_reply 5 = (t', Ok slot) /\
    holds t' (replyClient sample_reply) (mkRecord sample_reply 5).
Proof.
  destruct (session_commit empty_table sample_reply 5 wf_empty_table wf_sample_reply
    ltac:(split; [discriminate|reflexivity])) as [H1 H2].
  destruct H1 as (t' & slot & HC); [reflexivity|vm_compute; reflexivity|].
  exists t', slot. split; [exact HC|]. exact (proj1 (proj2 (H2 t' slot HC))).
Defined.

(** ** Decisions *)

Lemma Decide_record t c r rq :
  wf_table t -> holds t c r -> SessionRequest.Client rq = c ->
  Decide t rq =
    if SessionRequest.Session rq <? Session r then SessionTooLow else
    if Session r <? SessionRequest.Session rq then SessionBehind else
    if negb (SessionRequest.Release rq =? Release (Reply r)) then SessionReleaseMismatch else
    let latest := replyRequest (Reply r) in
    if (SessionRequest.Request rq <? latest) || (u32 (latest + 1) <? SessionRequest.Request rq)
    then SessionDrop
    else if SessionRequest.Request rq =? latest then
      if bool_decide (SessionRequest.RequestChecksum rq = replyRequestChecksum (Reply r))
      then SessionDuplicate else SessionClientFork
    else if negb (bool_decide (SessionRequest.Parent rq = replyContext (Reply r)))
    then SessionClientFork else SessionAdmit.
Proof.
  intros Hwf Hr Hc. unfold Decide. rewrite Hc.
  by destruct (lookup_holds t c r Hwf Hr) as (slot & -> & ->).
Qed.

Lemma Decide_holds t c r rq :
  wf_table t -> holds t c r -> SessionRequest.Client rq = c ->
  SessionRequest.Session rq = Session r -> SessionRequest.Release rq = Release (Reply r) ->
  Decide t rq =
    let latest := replyRequest (Reply r) in
    if (SessionRequest.Request rq <? latest) || (u32 (latest + 1) <? SessionRequest.Request rq)
    then SessionDrop
    else if SessionRequest.Request rq =? latest then
      if bool_decide (SessionRequest.RequestChecksum rq = replyRequestChecksum (Reply r))
      then SessionDuplicate else SessionClientFork
    else if negb (bool_decide (SessionRequest.Parent rq = replyContext (Reply r)))
    then SessionClientFork else SessionAdmit.
Proof.
  intros Hwf Hr Hc Hs Hrel. rewrite (Decide_record t c r) by done.
  by rewrite Hs, Hrel, Z.ltb_irrefl, Z.eqb_refl.
Qed.

Lemma replyRequest_range h : is_u32 (replyRequest h) \/ zlen (slice (Fields h) 104 108) <> 4.
Proof.
  destruct (decide (zlen (slice (Fields h) 104 108) = 4)) as [E|E]; [left|by right].
  unfold replyRequest, is_uint. pose proof (getUint_range (slice (Fields h) 104 108)) as H.
  rewrite E in H. done.
Qed.

Lemma replyRequest_u32 h : wf_header h -> is_u32 (replyRequest h).
Proof.
  intros Hwf. destruct (replyRequest_range h) as [?|E]; [done|].
  rewrite zlen_slice in E; destruct Hwf; lia.
Qed.

Lemma Decide_unknown t rq :
  (forall r, ~ holds t (SessionRequest.Client rq) r) -> Decide t rq = SessionNoSession.
Proof.
  intros Hno. unfold Decide.
  destruct (lookup t (SessionRequest.Client rq)) as [slot []] eqn:El; [|done].
  apply lookup_true in El as (_ & Hs & Ho & Hc). destruct (Hno (recordAt t slot)). by eexists.
Qed.

(** What the table decides on a request of a client whose record is [r]. *)
Record decided (r : SessionRecord) (rq : SessionRequest.t) (d : SessionDecision) : Prop := {
  de_known : d <> SessionNoSession;
  de_low : d = SessionTooLow <-> SessionRequest.Session rq < Session r;
  de_behind : d = SessionBehind <-> Session r < SessionRequest.Session rq;
  de_release : d = SessionReleaseMismatch <->
    SessionRequest.Session rq = Session r /\ SessionRequest.Release rq <> Release (Reply r);
  de_drop : d = SessionDrop <->
    SessionRequest.Session rq = Session r /\ SessionRequest.Release rq = Release (Reply r) /\
    (SessionRequest.Request rq < replyRequest (Reply r) \/
     replyRequest (Reply r) + 1 < SessionRequest.Request rq \/ replyRequest (Reply r) = MaxUint32);
  de_duplicate : d = SessionDuplicate <->
    SessionRequest.Session rq = Session r /\ SessionRequest.Release rq = Release (Reply r) /\
    SessionRequest.Request rq = replyRequest (Reply r) /\ replyRequest (Reply r) < MaxUint32 /\
    SessionRequest.RequestChecksum rq = replyRequestChecksum (Reply r);
  de_admit : d = SessionAdmit <->
    SessionRequest.Session rq = Session r /\ SessionRequest.Release rq = Release (Reply r) /\
    SessionRequest.Request rq = replyRequest (Reply r) + 1 /\
    SessionRequest.Parent rq = replyContext (Reply r);
  de_fork : d = SessionClientFork <->
    SessionRequest.Session rq = Session r /\ SessionRequest.Release rq = Release (Reply r) /\
    (SessionRequest.Request rq = replyRequest (Reply r) /\ replyRequest (Reply r) < MaxUint32 /\
       SessionRequest.RequestChecksum rq <> replyRequestChecksum (Reply r) \/
     SessionRequest.Request rq = replyRequest (Reply r) + 1 /\
       SessionRequest.Parent rq <> replyContext (Reply r));
}.

Lemma successor_below latest request :
  is_u32 latest -> is_u32 request ->
  BoolSpec (request < latest \/ latest + 1 < request \/ latest = MaxUint32)
    (latest < MaxUint32 /\ (request = latest \/ request = latest + 1))
    ((request <? latest) || (u32 (latest + 1) <? request)).
Proof.
  intros Hl Hr. unfold MaxUint32, is_uint in *. destruct (decide (latest = 2 ^ 32 - 1)) as [->|Hne].
  - change (u32 (2 ^ 32 - 1 + 1)) with 0.
    destruct (Z.ltb_spec request (2 ^ 32 - 1)), (Z.ltb_spec 0 request); constructor; lia.
  - rewrite uwrap_small by (unfold is_uint; lia).
    destruct (Z.ltb_spec request latest), (Z.ltb_spec (latest + 1) request); constructor; lia.
Qed.

Lemma Decide_decided t r rq :
  wf_table t -> is_u32 (SessionRequest.Request rq) -> holds t (SessionRequest.Client rq) r ->
  decided r rq (Decide t rq).
Proof.
  intros Hwf Hrq Hr. pose proof Hr as (i & Hi & Ho & _).
  destruct (wt_record t Hwf r) as [Hh _]; [by eapply list_elem_of_lookup_2|done|].
  pose proof (replyRequest_u32 _ Hh) as Hl. rewrite (Decide_record t _ r rq) by done. cbv zeta.
  pose proof (successor_below _ _ Hl Hrq) as Hsucc. set (latest := replyRequest (Reply r)) in *.
  assert (latest <= MaxUint32 /\ SessionRequest.Request rq <= MaxUint32) as [Hmax Hrmax]
    by (unfold is_uint, MaxUint32 in *; lia).
  destruct (Z.ltb_spec (SessionRequest.Session rq) (Session r));
    [|destruct (Z.ltb_spec (Session r) (SessionRequest.Session rq));
      [|destruct (Z.eqb_spec (SessionRequest.Release rq) (Release (Reply r))); cbn [negb];
        [destruct Hsucc;
          [|destruct (Z.eqb_spec (SessionRequest.Request rq) latest); case_bool_decide; cbn [negb]]|]]];
    (split; fold latest; [discriminate|..];
     (split; [intros E; first [discriminate E|intuition lia]
             |intros; first [reflexivity|exfalso; intuition (lia || congruence)]])).
Qed.

(** C8: requests of a session take effect once and in order.  A client the
    table does not hold has no session, and the decision on every request of a
    client it holds is determined by the client's record: a lower or higher
    session number and another release are refused as such; within the session
    the only request admitted is the successor of the latest one answered, and
    only if it names that answer as its parent; the latest request itself is a
    duplicate if its checksum agrees; the same or the next number with another
    checksum or parent is a fork; everything else is dropped, as is every
    request once the latest number is the largest one.  Once the reply to a
    request is committed, no request with its number is admitted again, and
    its retransmission is a duplicate (or dropped at the largest number). *)
Theorem session_exactly_once t rq :
  wf_table t -> is_u32 (SessionRequest.Request rq) ->
  (Decide t rq = SessionNoSession <-> forall r, ~ holds t (SessionRequest.Client rq) r) /\
  (forall r, holds t (SessionRequest.Client rq) r -> decided r rq (Decide t rq)) /\
  (forall reply session t' slot,
    wf_header reply -> is_u64 session -> Commit t reply session = (t', Ok slot) ->
    replyClient reply = SessionRequest.Client rq -> replyRequest reply = SessionRequest.Request rq ->
    Decide t' rq <> SessionAdmit /\
    (session = SessionRequest.Session rq -> Release reply = SessionRequest.Release rq ->
     replyRequestChecksum reply = SessionRequest.RequestChecksum rq ->
     Decide t' rq
     = if SessionRequest.Request rq =? MaxUint32 then SessionDrop else SessionDuplicate)).
Proof.
  intros Hwf Hrq. split; [|split].
  - split; [|apply Decide_unknown]. intros E r Hr. by destruct (Decide_decided t r rq Hwf Hrq Hr).
  - intros r. by apply Decide_decided.
  - intros reply session t' slot Hh Hs HC Ec En.
    destruct (Commit_result t reply session t' slot Hwf Hh Hs HC) as (Hwf' & Hr & _).
    rewrite Ec in Hr. destruct (Decide_decided t' _ rq Hwf' Hrq Hr) as [_ _ _ _ Hd Hu Ha _].
    cbn [Reply Session] in *. rewrite En in *. split; [rewrite Ha; lia|]. intros E1 E2 E3.
    destruct (Z.eqb_spec (SessionRequest.Request rq) MaxUint32) as [Em|Hne].
    + apply Hd. auto.
    + apply Hu. split_and!; try done. unfold is_uint, MaxUint32 in *. lia.
Qed.

Lemma session_exactly_once_witness :
  exists t' slot, Commit empty_table sample_reply 5 = (t', Ok slot) /\
    Decide t' (SessionRequest.mk (replyClient sample_reply) 5 0 1 (zeros 16) (zeros 16))
      = SessionDuplicate.
Proof.
  destruct (Commit empty_table sample_reply 5) as [t' [slot|]] eqn:HC;
    [|vm_compute in HC; discriminate HC].
  exists t', slot. split; [reflexivity|].
  assert (is_u64 5) as H5 by (split; [discriminate|reflexivity]).
  assert (is_u32 0) as H0 by (split; [discriminate|reflexivity]).
  destruct (Commit_result empty_table sample_reply 5 t' slot wf_empty_table wf_sample_reply H5 HC)
    as (Hwf & Hh & _).
  destruct (session_exactly_once t'
    (SessionRequest.mk (replyClient sample_reply) 5 0 1 (zeros 16) (zeros 16)) Hwf H0) as (_ & H & _).
  apply (proj2 (de_duplicate _ _ _ (H (mkRecord sample_reply 5) Hh))).
  repeat split; vm_compute; reflexivity.
Defined.

(** ** The trailer *)

Lemma validateOccupied_encoded t reply session :
  wf_header reply -> validateOccupied t reply session = Ok tt ->
  exists encoded, EncodeHeader HeaderSize reply = Ok (encoded, reply) /\ zlen encoded = 256 /\
    DecodeHeader encoded (SessionTableConfig.Group (config t))
      (SessionTableConfig.MessageSizeMax (config t))
      (SessionTableConfig.ActiveCount (config t)) = (reply, RejectNone).
Proof.
  intros Hwf H. unfold validateOccupied in H. step_guards H.
  destruct (EncodeHeader HeaderSize reply) as [[encoded copyOfReply]|] eqn:E; [|discriminate].
  step_guards H. split_bool.
  pose proof (EncodeHeader_wf _ _ _ _ Hwf E) as [_ Hlen].
  assert (copyOfReply = reply) as ->.
  { apply EncodeHeader_inv in E as (_ & _ & _ & _ & _ & _ & Ec). rewrite Ec in *.
    destruct reply. unfold with_checksum in *. cbn in *. congruence. }
  exists encoded. split; [done|]. split; [done|].
  replace (SessionTableConfig.Group (config t)) with (Group reply) by done.
  by eapply decode_encode_header.
Qed.

(** The bytes of a slot: the encoded reply, or zeros *)
Definition slot_bytes (r : SessionRecord) : list byte :=
  if occupied r then
    match EncodeHeader HeaderSize (Reply r) with Ok (encoded, _) => encoded | Err _ => [] end
  else zeros HeaderSize.

(** A trailer buffer of [n] slots holds record [r] in slot [i]. *)
Definition slot_written (n : Z) (buffer : list byte) (i : Z) (r : SessionRecord) : Prop :=
  slice buffer (i * HeaderSize) ((i + 1) * HeaderSize) = slot_bytes r /\
  slice buffer (n * HeaderSize + i * 8) (n * HeaderSize + i * 8 + 8) = putUint 8 (Session r).

Lemma slot_written_put n buffer i j r encoded bytes :
  zlen buffer = n * HeaderSize + n * 8 -> 0 <= i < n -> 0 <= j < n -> i <> j ->
  zlen encoded = HeaderSize -> zlen bytes = 8 ->
  slot_written n (put (put buffer (j * HeaderSize) encoded) (n * HeaderSize + j * 8) bytes) i r
  <-> slot_written n buffer i r.
Proof.
  intros Hb Hi Hj Hne He Hy. unfold slot_written, HeaderSize in *.
  assert (zlen (put buffer (j * 256) encoded) = zlen buffer) as Hz by (rewrite zlen_put; lia).
  assert (i + 1 <= j \/ j + 1 <= i) as [Hc|Hc] by lia.
  - rewrite !slice_put_before by lia. rewrite slice_put_after by lia. done.
  - rewrite (slice_put_before (put _ _ _)) by lia. rewrite (slice_put_after (put _ _ _)) by lia.
    rewrite !slice_put_after by lia. done.
Qed.

Lemma EncodeTrailer_loop_spec n rs slot buffer :
  0 <= slot -> slot + zlen rs = n -> zlen buffer = n * HeaderSize + n * 8 ->
  (forall r, r ∈ rs -> if occupied r
     then exists encoded, EncodeHeader HeaderSize (Reply r) = Ok (encoded, Reply r) /\ zlen encoded = 256
     else r = zeroRecord) ->
  (forall i, slot <= i < n -> slot_written n buffer i zeroRecord) ->
  exists out, EncodeTrailer_loop (n * HeaderSize) rs slot buffer = Ok out /\
    zlen out = zlen buffer /\
    (forall i r, rs !! i = Some r -> slot_written n out (slot + Z.of_nat i) r) /\
    (forall i r, 0 <= i < slot -> slot_written n buffer i r -> slot_written n out i r).
Proof.
  revert slot buffer. induction rs as [|r rs IH]; intros slot buffer Hs Hn Hb Henc Hz.
  { exists buffer. split; [done|]. split; [done|]. split; [|done]. intros i r Hi. done. }
  rewrite zlen_cons in Hn. pose proof (zlen_nonneg rs) as Hrs. cbn [EncodeTrailer_loop].
  pose proof (Henc r ltac:(by apply elem_of_cons; left)) as Hr. unfold occupied in Hr.
  destruct (Z.eqb_spec (Session r) 0) as [E0|E0]; cbn [negb] in Hr.
  - destruct (IH (slot + 1) buffer) as (out & Eo & Lo & Ho & Hk); [lia|lia|done| | |].
    { intros r' Hr'. apply Henc. apply elem_of_cons. by right. }
    { intros i Hi. apply Hz. lia. }
    exists out. split; [done|]. split; [done|]. split.
    + intros [|i] r' Hi; cbn in Hi.
      * injection Hi as <-. rewrite Hr, Z.add_0_r. apply Hk; [lia|]. apply Hz. lia.
      * replace (slot + Z.of_nat (S i)) with (slot + 1 + Z.of_nat i) by lia. by apply Ho.
    + intros i r' Hi. apply Hk. lia.
  - destruct Hr as (encoded & Eenc & Hlen). rewrite Eenc, bool_decide_true by done. cbn [negb].
    set (buffer' := put _ _ _).
    assert (zlen buffer' = zlen buffer) as Hb'.
    { unfold buffer', HeaderSize in *. rewrite !zlen_put; rewrite ?zlen_putUint, ?zlen_put; lia. }
    assert (forall i r', 0 <= i < n -> i <> slot ->
      slot_written n buffer i r' <-> slot_written n buffer' i r') as Hother.
    { intros i r' Hi Hne. symmetry.
      apply slot_written_put; try done; try apply zlen_putUint; lia. }
    destruct (IH (slot + 1) buffer') as (out & Eo & Lo & Ho & Hk); [lia|lia|lia| | |].
    { intros r' Hr'. apply Henc. apply elem_of_cons. by right. }
    { intros i Hi. apply Hother; [lia..|]. apply Hz. lia. }
    exists out. split; [done|]. split; [lia|]. split.
    + intros [|i] r' Hi; cbn in Hi.
      * injection Hi as <-. rewrite Z.add_0_r. apply Hk; [lia|].
        unfold slot_written, slot_bytes, occupied, buffer', HeaderSize in *.
        destruct (Z.eqb_spec (Session r) 0); [done|]. cbn [negb]. rewrite Eenc.
        assert (zlen (put buffer (slot * 256) encoded) = zlen buffer) by (rewrite zlen_put; lia).
        rewrite slice_put_before, slice_put_same by lia.
        rewrite slice_put_same; [done|..]; rewrite ?zlen_putUint; lia.
      * replace (slot + Z.of_nat (S i)) with (slot + 1 + Z.of_nat i) by lia. by apply Ho.
    + intros i r' Hi Hw. apply Hk; [lia|]. apply Hother; [lia..|done].
Qed.

Lemma zeroRecord_written n i :
  0 <= i < n -> slot_written n (zeros (n * HeaderSize + n * 8)) i zeroRecord.
Proof.
  intros Hi. unfold slot_written, slot_bytes, HeaderSize. cbn [occupied Session zeroRecord].
  rewrite !slice_zeros by lia. split; [f_equal; lia|].
  replace (n * 256 + i * 8 + 8 - (n * 256 + i * 8)) with 8 by lia. reflexivity.
Qed.

Lemma DecodeTrailer_loop_spec t n source todo decoded c :
  wf_table t -> records t = decoded ++ todo -> zlen (records t) = n ->
  c = zlen (filter (fun r => occupied r = true) decoded) ->
  (forall i r, records t !! i = Some r -> slot_written n source (Z.of_nat i) r) ->
  DecodeTrailer_loop t source (n * HeaderSize) (length todo) decoded c
  = Ok (records t, count t).
Proof.
  intros Hwf. revert decoded c. induction todo as [|r todo IH]; intros decoded c Hr Hn Hc Hw.
  { cbn [DecodeTrailer_loop length]. rewrite app_nil_r in Hr.
    rewrite Hr, (wt_count t Hwf), Hr, Hc. done. }
  cbn [DecodeTrailer_loop length].
  assert (records t !! length decoded = Some r) as Hlook
    by (rewrite Hr; by apply list_lookup_middle).
  destruct (Hw _ _ Hlook) as [Hbytes Hsession]. fold (zlen decoded) in Hbytes, Hsession.
  assert (r ∈ records t) as Hin by by eapply list_elem_of_lookup_2.
  rewrite Hbytes, Hsession. unfold slot_bytes.
  destruct (occupied r) eqn:Eo.
  - destruct (wt_record t Hwf r Hin Eo) as (Hh & Hu & Hv).
    destruct (validateOccupied_encoded t _ _ Hh Hv) as (encoded & -> & _ & ->).
    rewrite getUint_putUint by done.
    assert (Session r <> 0) as Hnz by by eapply validateOccupied_session.
    destruct (Z.eqb_spec (Session r) 0); [done|]. rewrite bool_decide_true, Hv by done. cbn [is_Ok negb orb].
    destruct (existsb _ decoded) eqn:Ee.
    { exfalso. apply existsb_exists in Ee as (p & (i & Hi)%list_elem_of_In%list_elem_of_lookup & Hp).
      split_bool. apply lookup_lt_Some in Hi as Hlt.
      assert (i = length decoded); [|lia].
      eapply (wt_distinct t Hwf i (length decoded) p r); try done.
      - rewrite Hr. by apply lookup_app_l_Some.
      - unfold occupied. by apply negb_true_iff, Z.eqb_neq. }
    assert (mkRecord (Reply r) (Session r) = r) as -> by by destruct r.
    apply IH; try done; [by rewrite <- app_assoc|].
    rewrite filter_app, zlen_app, filter_cons_True by done. change (filter _ []) with (@nil SessionRecord).
    rewrite zlen_cons, zlen_nil, Hc. apply uwrap_small.
    pose proof (wt_size t Hwf) as Hsz. rewrite Hr, zlen_app, zlen_cons in Hsz.
    destruct (filter_full decoded) as [Hle _]. pose proof (zlen_nonneg todo).
    unfold is_uint, zlen in *. lia.
  - rewrite (wt_free t Hwf r Hin Eo). cbn [Session zeroRecord].
    change (getUint (putUint 8 0)) with 0. cbn [Z.eqb]. rewrite allZero_zeros. cbn [negb].
    rewrite (wt_free t Hwf r Hin Eo) in Hr.
    apply IH; try done; [by rewrite <- app_assoc|].
    rewrite filter_app, zlen_app, filter_cons_False by done. change (filter _ []) with (@nil SessionRecord).
    rewrite zlen_nil, Z.add_0_r. done.
Qed.

Lemma DecodeTrailer_loop_config t t' source so n decoded c :
  config t = config t' ->
  DecodeTrailer_loop t source so n decoded c = DecodeTrailer_loop t' source so n decoded c.
Proof.
  intros E. revert decoded c. induction n as [|n IH]; intros decoded c; [done|].
  cbn [DecodeTrailer_loop]. rewrite E. destruct (_ =? 0).
  - destruct (negb _); [done|apply IH].
  - destruct (DecodeHeader _ _ _ _) as [h reason].
    rewrite (validateOccupied_config t t') by done.
    destruct (_ || _); [done|]. destruct (existsb _ _); [done|apply IH].
Qed.

(** C33: the session trailer round trips.  An idle table always encodes, and a
    table of the same configuration and size, whatever it held, that decodes
    the result ends up with the same records and count and no slot busy. *)
Theorem session_trailer_roundtrip t :
  wf_table t -> existsb id (busy t) = false ->
  forall destination, zlen destination = TrailerSize t ->
  exists encoded checksum,
    EncodeTrailer t destination = Ok (encoded, checksum) /\
    forall t0, config t0 = config t -> length (records t0) = length (records t) ->
      exists t1, DecodeTrailer t0 encoded checksum = (t1, Ok tt) /\
        records t1 = records t /\ count t1 = count t /\ existsb id (busy t1) = false.
Proof.
  intros Hwf Hidle destination Hd. unfold EncodeTrailer.
  rewrite Hd, Z.eqb_refl, Hidle. cbn [negb]. unfold TrailerSize in *.
  set (n := zlen (records t)) in *. pose proof (wt_size t Hwf) as Hsz. fold n in Hsz.
  destruct (EncodeTrailer_loop_spec n (records t) 0 (zeros (n * HeaderSize + n * 8)))
    as (out & -> & Lo & Hw & _).
  - done.
  - done.
  - apply zlen_zeros. unfold HeaderSize. lia.
  - intros r Hr. destruct (occupied r) eqn:Eo; [|by apply (wt_free t Hwf)].
    destruct (wt_record t Hwf r Hr Eo) as (Hh & _ & Hv).
    destruct (validateOccupied_encoded t _ _ Hh Hv) as (encoded & ? & ? & _). by exists encoded.
  - intros i Hi. by apply zeroRecord_written.
  - exists out, (ChecksumBytes out). split; [done|]. intros t0 Ec El. unfold DecodeTrailer, TrailerSize.
    rewrite zlen_zeros in Lo by (unfold HeaderSize; lia).
    assert (zlen (records t0) = n) as -> by (unfold zlen, n; by rewrite El).
    rewrite Lo, Z.eqb_refl, bool_decide_true by done. cbn [negb].
    rewrite (DecodeTrailer_loop_config t0 t), El by done.
    rewrite (DecodeTrailer_loop_spec t n out (records t) [] 0) by done.
    eexists. split; [done|]. split; [done|]. split; [done|]. cbn [busy].
    induction (length (busy t0)); done.
Qed.

(** The trailer of a table with one client, read into an empty one. *)
Lemma session_trailer_roundtrip_witness :
  exists t', Commit empty_table sample_reply 5 = (t', Ok 0) /\
  exists encoded checksum,
    EncodeTrailer t' (zeros 528) = Ok (encoded, checksum) /\
    exists t1, DecodeTrailer empty_table encoded checksum = (t1, Ok tt) /\
      records t1 = records t' /\ count t1 = 1.
Proof.
  assert (is_u64 5) as H5 by (split; [discriminate|reflexivity]).
  assert (existsb id (busy (fst (Commit empty_table sample_reply 5))) = false /\
    snd (Commit empty_table sample_reply 5) = Ok 0 /\ count (fst (Commit empty_table sample_reply 5)) = 1 /\
    length (records (fst (Commit empty_table sample_reply 5))) = 2%nat) as (Hb & Hslot & Hcount & Hlen)
    by (vm_compute; repeat split; reflexivity).
  assert (config (fst (Commit empty_table sample_reply 5)) = config empty_table) as Hconfig
    by (vm_compute; reflexivity).
  destruct (Commit empty_table sample_reply 5) as [t' result] eqn:HC. cbn [fst snd] in *. subst result.
  destruct (Commit_result empty_table sample_reply 5 t' 0 wf_empty_table wf_sample_reply H5 HC) as [Hwf _].
  exists t'. split; [reflexivity|].
  destruct (session_trailer_roundtrip t' Hwf Hb (zeros 528)) as (encoded & checksum & E & H).
  { unfold TrailerSize, zlen at 2 3. rewrite Hlen. reflexivity. }
  exists encoded, checksum. split; [exact E|].
  destruct (H empty_table) as (t1 & Hd & Hr & Hc & _);
    [exact (eq_sym Hconfig)|rewrite Hlen; reflexivity|].
  exists t1. split; [exact Hd|]. split; [exact Hr|]. rewrite Hc. exact Hcount.
Defined.
