(* ===== verification/Clock.v ===== *)
(** * The cluster clock

    [src/replication/clock.go]: samples of the peers' clocks, the sweep that
    finds the interval most of them agree on, the choice of the tightest
    tolerance, and the time handed out.  The readings of the local monotonic
    and wall clocks are arguments of the operations. *)

From stdpp Require Import sorting.
From S2P Require Import Prelude Bytes Arith Config.

Inductive clock_error := ErrClockSample.

Module clockSample.
Record t := mk {
  valid : bool;
  offset : Z;
  oneWay : Z;
}.
End clockSample.
Abbreviation clockSample := clockSample.t.

Module clockEndpoint.
Record t := mk {
  value : Z;
  lower : bool;
  source : Z;
}.
End clockEndpoint.
Abbreviation clockEndpoint := clockEndpoint.t.

Module ClockInterval.
Record t := mk {
  Lower : Z;
  Upper : Z;
  Overlap : Z;
  Excluded : Z;
  Tolerance : Z;
}.
End ClockInterval.
Abbreviation ClockInterval := ClockInterval.t.

Module TimeSample.
Record t := mk {
  Wall : Z;
  Monotonic : Z;
  Synchronized : bool;
}.
End TimeSample.
Abbreviation TimeSample := TimeSample.t.

Module ClockSynchronizer.
Record t := mk {
  localIndex : Z;
  activeCount : Z;
  quorum : Z;
  toleranceMax : Z;
  windowMin : Z;
  windowMax : Z;
  epochMax : Z;
  windowWall : Z;
  windowMono : Z;
  epochMono : Z;
  epochLower : Z;
  epochUpper : Z;
  samples : list clockSample;
  installed : ClockInterval;
  synchronized : bool;
}.

Definition with_window (c : t) (mono wall : Z) (s : list clockSample) : t :=
  mk (localIndex c) (activeCount c) (quorum c) (toleranceMax c) (windowMin c) (windowMax c)
    (epochMax c) wall mono (epochMono c) (epochLower c) (epochUpper c) s (installed c) (synchronized c).
Definition with_samples (c : t) (s : list clockSample) : t :=
  with_window c (windowMono c) (windowWall c) s.
Definition with_epoch (c : t) (mono lower upper : Z) (iv : ClockInterval) (sync : bool) : t :=
  mk (localIndex c) (activeCount c) (quorum c) (toleranceMax c) (windowMin c) (windowMax c)
    (epochMax c) (windowWall c) (windowMono c) mono lower upper (samples c) iv sync.
Definition with_synchronized (c : t) (sync : bool) : t :=
  with_epoch c (epochMono c) (epochLower c) (epochUpper c) (installed c) sync.
End ClockSynchronizer.
Abbreviation ClockSynchronizer := ClockSynchronizer.t.

Import ClockSynchronizer.

(** ** Sorting endpoints *)

Definition endpointLess (left right : clockEndpoint) : bool :=
  if negb (clockEndpoint.value left =? clockEndpoint.value right)
  then clockEndpoint.value left <? clockEndpoint.value right
  else if negb (Bool.eqb (clockEndpoint.lower left) (clockEndpoint.lower right))
  then clockEndpoint.lower left
  else clockEndpoint.source left <? clockEndpoint.source right.

(** The inner loop: [before] is the sorted part to the left of the position,
    nearest first; the elements greater than [value] move one place right. *)
Fixpoint insert_back (value : clockEndpoint) (before : list clockEndpoint) : list clockEndpoint :=
  match before with
  | previous :: rest =>
      if endpointLess value previous then previous :: insert_back value rest else value :: before
  | [] => [value]
  end.

Definition insertionSortEndpoints (endpoints : list clockEndpoint) : list clockEndpoint :=
  rev (fold_left (fun before value => insert_back value before) endpoints []).

(** ** The agreed interval *)

Definition zeroSample : clockSample := clockSample.mk false 0 0.
Definition localSample : clockSample := clockSample.mk true 0 0.
Definition zeroInterval : ClockInterval := ClockInterval.mk 0 0 0 0 0.

Definition sampleOf (c : ClockSynchronizer) (source : Z) : clockSample :=
  if source =? localIndex c then localSample
  else default zeroSample (samples c !! Z.to_nat source).

Definition endpointsOf (lower upper source : Z) : list clockEndpoint :=
  [clockEndpoint.mk lower true source; clockEndpoint.mk upper false source].

Definition sourceEndpoints (c : ClockSynchronizer) (tolerance source : Z) : list clockEndpoint :=
  let sample := sampleOf c source in
  if negb (clockSample.valid sample) then [] else
  let radius := saturatingSigned [clockSample.oneWay sample; tolerance] in
  endpointsOf (saturatingSubtractInt64 (clockSample.offset sample) radius)
    (saturatingAddInt64 (clockSample.offset sample) radius) source.

Definition standbyEndpoints (c : ClockSynchronizer) (tolerance : Z) : list clockEndpoint :=
  if localIndex c <? activeCount c then [] else
  let radius := saturatingSigned [tolerance] in
  endpointsOf (i64 (- radius)) radius (localIndex c).

Definition collectEndpoints (c : ClockSynchronizer) (tolerance : Z) : list clockEndpoint :=
  concat (sourceEndpoints c tolerance <$> seqZ 0 (activeCount c)) ++ standbyEndpoints c tolerance.

Module Best.
Record t := mk {
  overlap : Z;
  lower : Z;
  upper : Z;
  width : Z;
}.
End Best.

(** One iteration of the sweep per endpoint that has a successor. *)
Fixpoint sweep (endpoints : list clockEndpoint) (overlap : Z) (best : Best.t) : Best.t :=
  match endpoints with
  | current :: ((following :: _) as rest) =>
      let overlap := if clockEndpoint.lower current then u8 (overlap + 1) else u8 (overlap - 1) in
      let lower := clockEndpoint.value current in
      let upper := clockEndpoint.value following in
      let width := signedWidth lower upper in
      sweep rest overlap
        (if (Best.overlap best <? overlap) || (overlap =? Best.overlap best) && (width <? Best.width best)
         then Best.mk overlap lower upper width else best)
  | _ => best
  end.

Definition interval (c : ClockSynchronizer) (tolerance : Z) : option ClockInterval :=
  let endpoints := collectEndpoints c tolerance in
  let count := zlen endpoints in
  if u8 (count / 2) <? quorum c then None else
  let best := sweep (insertionSortEndpoints endpoints) 0 (Best.mk 0 0 0 MaxUint64) in
  if Best.overlap best <? quorum c then None else
  Some (ClockInterval.mk (Best.lower best) (Best.upper best) (Best.overlap best)
          (u8 (u8 (count / 2) - Best.overlap best)) tolerance).

(** ** Windows, samples and epochs *)

Definition resetWindow (c : ClockSynchronizer) (monotonic wall : Z) : ClockSynchronizer :=
  let cleared := replicate (Z.to_nat MembersMax) zeroSample in
  with_window c monotonic wall
    (if localIndex c <? activeCount c then <[Z.to_nat (localIndex c) := localSample]> cleared
     else cleared).

Definition rotateWindow (c : ClockSynchronizer) (monotonic wall : Z) : ClockSynchronizer :=
  if (windowMono c <=? monotonic) && (u64 (monotonic - windowMono c) <=? windowMax c) then c
  else resetWindow c monotonic wall.

(** The loop of [install]: halve the tolerance while an interval remains. *)
Fixpoint tighten (n : nat) (c : ClockSynchronizer) (tolerance : Z) (best : ClockInterval) : ClockInterval :=
  match n with
  | O => best
  | S n =>
      if tolerance =? 0 then best else
      let next := tolerance / 2 in
      match interval c next with
      | None => best
      | Some candidate => tighten n c next candidate
      end
  end.

Definition install (c : ClockSynchronizer) (monotonic : Z) : ClockSynchronizer :=
  if u64 (monotonic - windowMono c) <? windowMin c then c else
  match interval c (toleranceMax c) with
  | None => c
  | Some best =>
      let best := tighten 64 c (toleranceMax c) best in
      let wall := saturatingAdd (windowWall c) (u64 (monotonic - windowMono c)) in
      with_epoch c monotonic (addSigned wall (ClockInterval.Lower best))
        (addSigned wall (ClockInterval.Upper best)) best true
  end.

(** [local] says whether a clock was supplied; [monotonic] and [wall] are its
    first readings. *)
Definition NewClockSynchronizer (local : bool) (localIndex activeCount replicationQuorum : Z)
    (process : ProcessConfig) (monotonic wall : Z) : result config_error ClockSynchronizer :=
  if negb local || (activeCount =? 0) || (ActiveMax <? activeCount) then Err ErrInvalidConfiguration else
  if (MembersMax <=? localIndex) || (replicationQuorum =? 0) || (activeCount <? replicationQuorum)
  then Err ErrInvalidConfiguration else
  let quorum := if activeCount <=? localIndex then u8 (replicationQuorum + 1) else replicationQuorum in
  Ok (resetWindow
        (mk localIndex activeCount quorum (u64 (ProcessConfig.ClockOffsetToleranceMax process))
           (u64 (ProcessConfig.ClockWindowMin process)) (u64 (ProcessConfig.ClockWindowMax process))
           (u64 (ProcessConfig.ClockEpochMax process)) 0 0 0 0 0
           (replicate (Z.to_nat MembersMax) zeroSample) zeroInterval false)
        monotonic wall).

Definition BeginPing (c : ClockSynchronizer) (monotonic wall : Z) : ClockSynchronizer * Z :=
  (rotateWindow c monotonic wall, monotonic).

(** [wall] is the local wall clock read by the rotation. *)
Definition Observe (c : ClockSynchronizer) (source pingMonotonic peerWall receiveMonotonic wall : Z)
    : ClockSynchronizer * result clock_error unit :=
  if (activeCount c <=? source) || (source =? localIndex c) || (receiveMonotonic <? pingMonotonic)
     || (pingMonotonic <? windowMono c)
  then (c, Err ErrClockSample) else
  let c := rotateWindow c receiveMonotonic wall in
  if (pingMonotonic <? windowMono c) || (windowMax c <? u64 (receiveMonotonic - windowMono c))
  then (c, Err ErrClockSample) else
  let oneWay := u64 (receiveMonotonic - pingMonotonic) / 2 in
  let localWall := saturatingAdd (windowWall c) (u64 (receiveMonotonic - windowMono c)) in
  let peerAtReceive := saturatingAdd peerWall oneWay in
  let offset := signedDifference peerAtReceive localWall in
  let sample := default zeroSample (samples c !! Z.to_nat source) in
  let c :=
    if negb (clockSample.valid sample) || (oneWay <? clockSample.oneWay sample)
    then with_samples c (<[Z.to_nat source := clockSample.mk true offset oneWay]> (samples c)) else c in
  (install c receiveMonotonic, Ok tt).

Definition Now (c : ClockSynchronizer) (monotonic wall : Z) : ClockSynchronizer * TimeSample :=
  let c := rotateWindow c monotonic wall in
  if negb (synchronized c) || (monotonic <? epochMono c) || (epochMax c <? u64 (monotonic - epochMono c))
  then (with_synchronized c false, TimeSample.mk wall monotonic false) else
  let elapsed := u64 (monotonic - epochMono c) in
  let lower := saturatingAdd (epochLower c) elapsed in
  let upper := saturatingAdd (epochUpper c) elapsed in
  (c, TimeSample.mk (Z.min (Z.max wall lower) upper) monotonic true).

(** ** Counting *)

Fixpoint countb {A} (f : A -> bool) (l : list A) : Z :=
  match l with
  | [] => 0
  | x :: l => (if f x then 1 else 0) + countb f l
  end.

Lemma countb_app {A} (f : A -> bool) l k : countb f (l ++ k) = countb f l + countb f k.
Proof. induction l as [|x l IH]; cbn; [done|]. rewrite IH. lia. Qed.

Lemma countb_perm {A} (f : A -> bool) l k : l ≡ₚ k -> countb f l = countb f k.
Proof. induction 1; cbn; lia. Qed.

Lemma countb_range {A} (f : A -> bool) l : 0 <= countb f l <= zlen l.
Proof. induction l as [|x l IH]; [done|]. rewrite zlen_cons. cbn. destruct (f x); lia. Qed.

Lemma countb_mono {A} (f g : A -> bool) l :
  (forall x, x ∈ l -> f x = true -> g x = true) -> countb f l <= countb g l.
Proof.
  induction l as [|x l IH]; intros Hfg; [done|]. cbn.
  assert (countb f l <= countb g l) by (apply IH; set_solver).
  specialize (Hfg x ltac:(set_solver)). destruct (f x); [rewrite Hfg by done; lia|]. destruct (g x); lia.
Qed.

Lemma countb_ext {A} (f g : A -> bool) l :
  (forall x, x ∈ l -> f x = g x) -> countb f l = countb g l.
Proof. intros Hfg. apply Z.le_antisymm; apply countb_mono; intros x Hx; by rewrite Hfg. Qed.

Lemma countb_none {A} (f : A -> bool) l : (forall x, x ∈ l -> f x = false) -> countb f l = 0.
Proof. induction l as [|x l IH]; intros Hf; [done|]. cbn. rewrite (Hf x), IH; set_solver. Qed.

Lemma countb_all {A} (f : A -> bool) l : (forall x, x ∈ l -> f x = true) -> countb f l = zlen l.
Proof.
  induction l as [|x l IH]; intros Hf; [done|]. rewrite zlen_cons. cbn. rewrite (Hf x), IH; set_solver.
Qed.

(** ** The order of endpoints *)

Import clockEndpoint.

Definition before (x y : clockEndpoint) : Prop :=
  value x < value y \/ value x = value y /\ (lower y = true -> lower x = true).

Lemma before_trans x y z : before x y -> before y z -> before x z.
Proof. unfold before. intros [?|[? ?]] [?|[? ?]]; auto with lia. Qed.

Lemma endpointLess_before x y : if endpointLess x y then before x y else before y x.
Proof.
  unfold endpointLess, before. destruct (Z.eqb_spec (value x) (value y)) as [E|E]; cbn.
  - destruct (lower x), (lower y); cbn; try destruct (_ <? _); auto.
  - destruct (Z.ltb_spec (value x) (value y)); auto with lia.
Qed.

Lemma insert_back_perm v l : insert_back v l ≡ₚ v :: l.
Proof.
  induction l as [|x l IH]; cbn; [done|]. destruct (endpointLess v x); [|done].
  rewrite IH. apply Permutation_swap.
Qed.

Lemma insert_back_sorted v l :
  StronglySorted (flip before) l -> StronglySorted (flip before) (insert_back v l).
Proof.
  induction 1 as [|x l Hs IH Hx]; cbn; [by repeat constructor|].
  pose proof (endpointLess_before v x) as Hb. destruct (endpointLess v x).
  - constructor; [done|]. rewrite insert_back_perm. by constructor.
  - constructor; [by constructor|]. constructor; [done|].
    eapply Forall_impl; [done|]. intros y Hy. by eapply before_trans.
Qed.

Lemma sort_fold l acc :
  StronglySorted (flip before) acc ->
  let r := fold_left (fun before value => insert_back value before) l acc in
  StronglySorted (flip before) r /\ r ≡ₚ l ++ acc.
Proof.
  revert acc. induction l as [|x l IH]; intros acc Hacc; [done|]. cbn [fold_left].
  destruct (IH (insert_back x acc)) as [Hs Hp]; [by apply insert_back_sorted|].
  split; [done|]. rewrite Hp, insert_back_perm. cbn. by rewrite Permutation_middle.
Qed.

Lemma sort_perm l : insertionSortEndpoints l ≡ₚ l.
Proof.
  unfold insertionSortEndpoints. destruct (sort_fold l [] ltac:(constructor)) as [_ Hp].
  rewrite <- Permutation_rev, Hp. by rewrite app_nil_r.
Qed.

Lemma sort_split l p q x y :
  insertionSortEndpoints l = p ++ q -> x ∈ p -> y ∈ q -> before x y.
Proof.
  intros E Hx Hy. destruct (sort_fold l [] ltac:(constructor)) as [Hs _].
  assert (fold_left (fun before value => insert_back value before) l [] = rev q ++ rev p) as Ef.
  { rewrite <- rev_app_distr, <- E. symmetry. apply rev_involutive. }
  rewrite Ef in Hs. apply (StronglySorted_app_1_elem_of _ _ _ y x Hs); by rewrite list_elem_of_In, <- in_rev, <- list_elem_of_In.
Qed.

(** ** The sweep

    The endpoints of a family of intervals, sorted, cut the line into regions;
    the depth of a region is the number of intervals opened and not yet
    closed. *)

Definition depth (p : list clockEndpoint) : Z := countb lower p - countb (fun e => negb (lower e)) p.

Lemma depth_app p q : depth (p ++ q) = depth p + depth q.
Proof. unfold depth. rewrite !countb_app. lia. Qed.

Definition better (r s : Best.t) : Prop :=
  Best.overlap s < Best.overlap r \/
  Best.overlap s = Best.overlap r /\ Best.width r <= Best.width s.

Lemma better_refl r : better r r.
Proof. right. lia. Qed.

Lemma better_trans r s t : better r s -> better s t -> better r t.
Proof. unfold better. lia. Qed.

Definition region (p : list clockEndpoint) (x y : clockEndpoint) : Best.t :=
  Best.mk (depth (p ++ [x])) (value x) (value y) (signedWidth (value x) (value y)).

Lemma sweep_step x y l overlap best :
  sweep (x :: y :: l) overlap best =
  let overlap := if lower x then u8 (overlap + 1) else u8 (overlap - 1) in
  let width := signedWidth (value x) (value y) in
  sweep (y :: l) overlap
    (if (Best.overlap best <? overlap) || (overlap =? Best.overlap best) && (width <? Best.width best)
     then Best.mk overlap (value x) (value y) width else best).
Proof. done. Qed.

Lemma sweep_spec l p best :
  (forall k q, l = k ++ q -> 0 <= depth (p ++ k) < 256) ->
  let r := sweep l (depth p) best in
  (r = best \/ exists k x y q, l = k ++ x :: y :: q /\ r = region (p ++ k) x y) /\
  better r best /\
  forall k x y q, l = k ++ x :: y :: q -> better r (region (p ++ k) x y).
Proof.
  revert p best. induction l as [|x l IH]; intros p best Hd; cbn zeta.
  { split_and!; [by left|apply better_refl|]. intros [] * [=]. }
  destruct l as [|y l].
  { split_and!; [by left|apply better_refl|]. intros [|? []] * [=]. }
  rewrite sweep_step. cbv zeta. set (overlap := if lower x then _ else _).
  assert (overlap = depth (p ++ [x])) as ->.
  { pose proof (Hd [x] (y :: l) eq_refl) as Hx. unfold overlap. rewrite depth_app in *.
    assert (depth [x] = if lower x then 1 else -1) as E by (unfold depth; cbn; by destruct (lower x)).
    rewrite E in *. destruct (lower x); rewrite uwrap_small by width_lia; lia. }
  set (best' := if _ : bool then _ else _).
  assert (better best' best /\ better best' (region p x y) /\ (best' = best \/ best' = region p x y)) as (Hb & Hr & Hc).
  { unfold best', better, region. destruct (_ || _) eqn:E; cbn.
    - split_and!; [|lia|auto]. apply orb_true_iff in E as [E|E]; split_bool; lia.
    - apply orb_false_iff in E as [E1 E2]. split_bool. apply andb_false_iff in E2. split_and!; [lia| |auto].
      destruct E2; split_bool; lia. }
  destruct (IH (p ++ [x]) best') as (Hin & Hbest & Hall).
  { intros k q E. rewrite <- app_assoc. apply (Hd (x :: k) q). by rewrite E. }
  split_and!; [|by eapply better_trans|].
  - destruct Hin as [->|(k & u & v & q & E & ->)].
    + destruct Hc as [->| ->]; [by left|]. right. exists [], x, y, l. by rewrite app_nil_r.
    + right. exists (x :: k), u, v, q. rewrite E. by rewrite <- app_assoc.
  - intros [|z k] u v q E.
    + injection E as <- <- <-. rewrite app_nil_r. by eapply better_trans.
    + injection E as <- E. specialize (Hall k u v q E). by rewrite <- app_assoc in Hall.
Qed.

(** ** A family of intervals *)

Definition ends (iv : Z * Z * Z) : list clockEndpoint := endpointsOf iv.1.1 iv.1.2 iv.2.

Section family.
Context (ivs : list (Z * Z * Z)).
Hypothesis Hle : forall iv, iv ∈ ivs -> iv.1.1 <= iv.1.2.

(** How many of the intervals contain all of [[a, b]]. *)
Definition covering (a b : Z) : Z := countb (fun iv : Z * Z * Z => (iv.1.1 <=? a) && (b <=? iv.1.2)) ivs.

Let sorted := insertionSortEndpoints (concat (ends <$> ivs)).

Lemma countb_ends (f : clockEndpoint -> bool) :
  countb f sorted =
  countb (fun iv : Z * Z * Z => f (clockEndpoint.mk iv.1.1 true iv.2)) ivs +
  countb (fun iv : Z * Z * Z => f (clockEndpoint.mk iv.1.2 false iv.2)) ivs.
Proof.
  unfold sorted. rewrite (countb_perm _ _ _ (sort_perm _)). clear.
  induction ivs as [|iv l IH]; [done|]. cbn. rewrite IH. lia.
Qed.

Lemma split_order p q x y : sorted = p ++ q -> x ∈ p -> y ∈ q -> before x y.
Proof. apply sort_split. Qed.

(** Closing endpoints up to [t] are matched by opening ones. *)
Lemma closed_opened t :
  countb (fun iv : Z * Z * Z => iv.1.2 <=? t) ivs <= countb (fun iv : Z * Z * Z => iv.1.1 <=? t) ivs.
Proof. apply countb_mono. intros iv Hiv Ht. specialize (Hle iv Hiv). split_bool. apply Z.leb_le. lia. Qed.

Lemma count_lower (g : Z -> bool) :
  countb (fun e => lower e && g (value e)) sorted = countb (fun iv : Z * Z * Z => g iv.1.1) ivs.
Proof. rewrite countb_ends. cbn. rewrite (countb_none (fun _ => false)) by done. lia. Qed.

Lemma count_upper (g : Z -> bool) :
  countb (fun e => negb (lower e) && g (value e)) sorted = countb (fun iv : Z * Z * Z => g iv.1.2) ivs.
Proof. rewrite countb_ends. cbn. rewrite (countb_none (fun _ => false)) by done. lia. Qed.

Lemma depth_range p q : sorted = p ++ q -> 0 <= depth p <= zlen ivs.
Proof.
  revert q. induction p as [|x p IH] using rev_ind; intros q E.
  { change (depth []) with 0. pose proof (zlen_nonneg ivs). lia. }
  assert (depth (p ++ [x]) <= zlen ivs) as Hup.
  { unfold depth. pose proof (count_lower (fun _ => true)) as Hl.
    rewrite E, countb_app, (countb_all (fun _ => true) ivs) in Hl by done.
    rewrite (countb_ext lower (fun e => lower e && true)) by (intros; by rewrite andb_true_r).
    pose proof (countb_range (fun e => lower e && true) q).
    pose proof (countb_range (fun e => negb (lower e)) (p ++ [x])). lia. }
  split; [|done]. destruct (lower x) eqn:Ex.
  { rewrite depth_app. rewrite <- app_assoc in E. destruct (IH _ E) as [? _].
    unfold depth at 2. cbn. rewrite Ex. cbn. lia. }
  unfold depth. pose proof (count_lower (fun v => v <=? value x)) as Hl.
  pose proof (count_upper (fun v => v <=? value x)) as Hu. pose proof (closed_opened (value x)) as Hc.
  rewrite E, countb_app in Hl, Hu.
  rewrite (countb_none (fun e => lower e && _) q) in Hl.
  2:{ intros y Hy. destruct (lower y) eqn:Ey; [cbn|done]. apply Z.leb_gt.
      destruct (split_order _ _ x y E ltac:(set_solver) Hy) as [?|[_ Hb]]; [done|]. rewrite Ey, Ex in Hb.
      by discriminate Hb. }
  pose proof (countb_range (fun e => negb (lower e) && (value e <=? value x)) q).
  assert (countb (fun e => lower e && (value e <=? value x)) (p ++ [x]) <= countb lower (p ++ [x]))
    by (apply countb_mono; intros e _ He; by split_bool).
  assert (countb (fun e => negb (lower e)) (p ++ [x]) <= countb (fun e => negb (lower e) && (value e <=? value x)) (p ++ [x])).
  { apply countb_mono. intros e He Hn. rewrite Hn. cbn. apply Z.leb_le.
    rewrite elem_of_app, list_elem_of_singleton in He. destruct He as [He| ->]; [|lia].
    rewrite <- app_assoc in E. destruct (split_order _ _ e x E He ltac:(set_solver)); lia. }
  lia.
Qed.

(** The intervals open in a region contain it. *)
Lemma region_covering p x y q :
  sorted = p ++ x :: y :: q -> value x <= value y /\ depth (p ++ [x]) <= covering (value x) (value y).
Proof.
  intros E. rewrite cons_middle, app_assoc in E.
  assert (forall e f, e ∈ p ++ [x] -> f ∈ y :: q -> before e f) as Ho by (intros *; by apply split_order).
  split. { destruct (Ho x y ltac:(set_solver) ltac:(set_solver)); lia. }
  pose proof (count_upper (fun v => v <? value y)) as Hu.
  rewrite E, countb_app, (countb_none _ (y :: q)) in Hu.
  2:{ intros e He. destruct (lower e); [done|]. cbn. apply Z.ltb_ge. apply elem_of_cons in He as [->|He]; [lia|].
      change (y :: q) with ([y] ++ q) in E. rewrite (app_assoc (p ++ [x]) [y] q) in E.
      destruct (split_order _ _ y e E ltac:(set_solver) He); lia. }
  pose proof (count_lower (fun v => v <=? value x)) as Hl.
  rewrite E, countb_app in Hl.
  pose proof (countb_range (fun e => lower e && (value e <=? value x)) (y :: q)).
  assert (countb lower (p ++ [x]) <= countb (fun e => lower e && (value e <=? value x)) (p ++ [x])).
  { apply countb_mono. intros e He ->. cbn. apply Z.leb_le.
    rewrite elem_of_app, list_elem_of_singleton in He. destruct He as [He| ->]; [|lia].
    rewrite <- app_assoc in E. destruct (split_order _ _ e x E He ltac:(set_solver)); lia. }
  assert (countb (fun e => negb (lower e) && (value e <? value y)) (p ++ [x]) <= countb (fun e => negb (lower e)) (p ++ [x]))
    by (apply countb_mono; intros e _ He; split_bool; by apply negb_true_iff).
  assert (countb (fun iv : Z * Z * Z => iv.1.1 <=? value x) ivs - countb (fun iv : Z * Z * Z => iv.1.2 <? value y) ivs
    <= covering (value x) (value y)) as Hcov.
  { clear. unfold covering. induction ivs as [|iv l IH]; [done|]. cbn.
    destruct (Z.leb_spec iv.1.1 (value x)), (Z.ltb_spec iv.1.2 (value y)), (Z.leb_spec (value y) iv.1.2); cbn in *; lia. }
  unfold depth. lia.
Qed.

(** The endpoints at or left of [t], openings first at [t] itself. *)
Definition upto (t : Z) (e : clockEndpoint) : bool :=
  (value e <? t) || (lower e && (value e =? t)).

Lemma upto_split t : exists p q, sorted = p ++ q /\ Forall (fun e => upto t e = true) p /\
  Forall (fun e => upto t e = false) q.
Proof.
  assert (forall l r, sorted = l ++ r -> Forall (fun e => upto t e = true) l -> exists p q, sorted = p ++ q /\
    Forall (fun e => upto t e = true) p /\ Forall (fun e => upto t e = false) q) as Hgen; [|by apply (Hgen [] sorted)].
  intros l r. revert l. induction r as [|x r IH]; intros l E Hl; [by exists l, []|].
  destruct (upto t x) eqn:Ex.
  { apply (IH (l ++ [x])); [by rewrite <- app_assoc|]. rewrite Forall_app. auto. }
  exists l, (x :: r). split_and!; [done|done|]. constructor; [done|]. apply Forall_forall. intros y Hy.
  rewrite cons_middle, app_assoc in E. pose proof (split_order _ _ x y E ltac:(set_solver) Hy) as Hb.
  unfold upto, before in *. destruct (lower x), (lower y); cbn in *;
    repeat match goal with |- context [?a <? ?b] => destruct (Z.ltb_spec a b) | |- context [?a =? ?b] => destruct (Z.eqb_spec a b) end;
    split_bool; try done; try lia; destruct Hb as [?|[? Hb]]; try lia; by discriminate Hb.
Qed.

Lemma upto_depth t p q :
  sorted = p ++ q -> Forall (fun e => upto t e = true) p -> Forall (fun e => upto t e = false) q ->
  depth p = covering t t.
Proof.
  rewrite !Forall_forall. intros E Hp Hq.
  pose proof (count_lower (fun v => v <=? t)) as Hl. pose proof (count_upper (fun v => v <? t)) as Hu.
  rewrite E, countb_app in Hl, Hu.
  assert (forall e, lower e && (value e <=? t) = lower e && upto t e) as El.
  { intros e. unfold upto. destruct (lower e); [cbn|done].
    destruct (Z.leb_spec (value e) t), (Z.ltb_spec (value e) t), (Z.eqb_spec (value e) t); cbn; lia || done. }
  assert (forall e, negb (lower e) && (value e <? t) = negb (lower e) && upto t e) as Eu.
  { intros e. unfold upto. destruct (lower e); [done|]. cbn. by rewrite orb_false_r. }
  rewrite (countb_ext _ lower p), (countb_none _ q) in Hl.
  2:{ intros e He. rewrite El, (Hq e He). apply andb_false_r. }
  2:{ intros e He. rewrite El, (Hp e He). apply andb_true_r. }
  rewrite (countb_ext _ (fun e => negb (lower e)) p), (countb_none _ q) in Hu.
  2:{ intros e He. rewrite Eu, (Hq e He). apply andb_false_r. }
  2:{ intros e He. rewrite Eu, (Hp e He). apply andb_true_r. }
  assert (covering t t = countb (fun iv : Z * Z * Z => iv.1.1 <=? t) ivs - countb (fun iv : Z * Z * Z => iv.1.2 <? t) ivs) as ->.
  { clear - Hle. unfold covering. induction ivs as [|iv l IH]; [done|]. cbn. rewrite IH by (intros; apply Hle; set_solver).
    specialize (Hle iv ltac:(set_solver)).
    destruct (Z.leb_spec iv.1.1 t), (Z.leb_spec t iv.1.2), (Z.ltb_spec iv.1.2 t); cbn; lia. }
  unfold depth. lia.
Qed.

(** A point some interval contains lies in a region at least as deep. *)
Lemma covered_region t :
  0 < covering t t ->
  exists p x y q, sorted = p ++ x :: y :: q /\ value x <= t <= value y /\ depth (p ++ [x]) = covering t t.
Proof.
  intros Hpos. destruct (upto_split t) as (p & q & E & Hp & Hq).
  pose proof (upto_depth t p q E Hp Hq) as Hd.
  destruct p as [|x p _] using rev_ind; [change (depth []) with 0 in Hd; lia|].
  destruct q as [|y q].
  { rewrite app_nil_r in E. exfalso. unfold depth in Hd. rewrite <- E, !countb_ends in Hd. cbn in Hd.
    rewrite !(countb_all (fun _ => true)), !(countb_none (fun _ => false)) in Hd by done. lia. }
  exists p, x, y, q. rewrite Forall_app, Forall_singleton in Hp. inversion_clear Hq as [|? ? Hy _].
  destruct Hp as [_ Hx]. split_and!; [by rewrite E, <- app_assoc| | |done]; unfold upto in *.
  - apply orb_true_iff in Hx as [?|?]; split_bool; lia.
  - split_bool. lia.
Qed.

Lemma covering_mono a b t : a <= t <= b -> covering a b <= covering t t.
Proof. intros Ht. apply countb_mono. intros iv _ H. split_bool. apply andb_true_intro. split; apply Z.leb_le; lia. Qed.

(** What the sweep selects: a deepest region, narrowest among these. *)
Lemma sweep_best :
  zlen ivs < 256 -> (forall iv, iv ∈ ivs -> is_i64 iv.1.1 /\ is_i64 iv.1.2) ->
  let best := sweep sorted 0 (Best.mk 0 0 0 MaxUint64) in
  (forall t, covering t t <= Best.overlap best) /\
  (0 < Best.overlap best ->
   Best.lower best <= Best.upper best /\
   covering (Best.lower best) (Best.upper best) = Best.overlap best /\
   forall t, covering t t = Best.overlap best -> exists a b, a <= t <= b /\ covering a b = Best.overlap best /\
     Best.upper best - Best.lower best <= b - a).
Proof.
  intros Hn Hw best.
  assert (forall p x y q, sorted = p ++ x :: y :: q -> is_i64 (value x) /\ is_i64 (value y)) as Hwr.
  { intros p x y q E. assert (forall e, e ∈ sorted -> is_i64 (value e)) as He.
    { intros e He. unfold sorted in He. rewrite sort_perm, list_elem_of_In, in_concat in He.
      destruct He as (l & Hl & He). rewrite <- list_elem_of_In, list_elem_of_fmap in Hl.
      destruct Hl as (iv & -> & Hiv). destruct (Hw iv Hiv). cbn in He. destruct He as [<-|[<-|[]]]; done. }
    rewrite E in He. split; apply He; set_solver. }
  destruct (sweep_spec sorted [] (Best.mk 0 0 0 MaxUint64)) as (Hin & _ & Hall).
  { intros k q E. destruct (depth_range k q E). cbn [app]. lia. }
  change (depth []) with 0 in *. fold best in Hin, Hall. cbn [app] in Hin, Hall.
  assert (forall t, covering t t <= Best.overlap best) as Hmax.
  { intros t. destruct (decide (0 < covering t t)) as [Hpos|Hpos].
    - destruct (covered_region t Hpos) as (p & x & y & q & E & _ & <-).
      destruct (Hall p x y q E); cbn in *; lia.
    - pose proof (countb_range (fun iv : Z * Z * Z => (iv.1.1 <=? t) && (t <=? iv.1.2)) ivs).
      assert (0 <= Best.overlap best); [|unfold covering in *; lia].
      destruct Hin as [->|(k & x & y & q & E & ->)]; [done|]. cbn.
      rewrite cons_middle, app_assoc in E. apply (depth_range (k ++ [x]) _ E). }
  split; [done|]. intros Hpos. destruct Hin as [E|(k & x & y & q & E & Eb)]; [rewrite E in Hpos; cbn in Hpos; lia|].
  destruct (region_covering k x y q E) as [Hxy Hc]. rewrite Eb in *. cbn in *.
  split_and!; [done| |].
  - pose proof (covering_mono (value x) (value y) (value x) ltac:(lia)). specialize (Hmax (value x)). lia.
  - intros t Ht. destruct (covered_region t ltac:(lia)) as (p' & x' & y' & q' & E' & Ht' & Hd').
    destruct (region_covering p' x' y' q' E') as [Hxy' Hc'].
    pose proof (covering_mono (value x') (value y') t ltac:(lia)). specialize (Hmax t).
    exists (value x'), (value y'). split_and!; [lia|lia|lia|].
    destruct (Hall p' x' y' q' E') as [Hb|[_ Hb]]; cbn in Hb; [lia|].
    destruct (Hwr _ _ _ _ E), (Hwr _ _ _ _ E'). rewrite !signedWidth_spec in Hb by done. done.
Qed.
End family.

(** ** The interval the clocks agree on *)

Record wf_clock (c : ClockSynchronizer) : Prop := {
  wc_active : 1 <= activeCount c <= ActiveMax;
  wc_local : 0 <= localIndex c < MembersMax;
  wc_quorum : 1 <= quorum c <= ActiveMax + 1;
  wc_length : zlen (samples c) = MembersMax;
  wc_samples : Forall (fun s => is_i64 (clockSample.offset s) /\ is_u64 (clockSample.oneWay s)) (samples c);
  wc_tolerance : is_u64 (toleranceMax c);
  wc_wall : is_u64 (windowWall c);
  wc_mono : is_u64 (windowMono c);
}.

(** The interval of offsets a sample allows: its measured offset, give or take
    the network delay and the tolerance, within the range of the type. *)
Definition allowed (s : clockSample) (tolerance source : Z) : Z * Z * Z :=
  let radius := Z.min MaxInt64 (clockSample.oneWay s + tolerance) in
  (clamp MinInt64 MaxInt64 (clockSample.offset s - radius),
   clamp MinInt64 MaxInt64 (clockSample.offset s + radius), source).

(** The sources of a window: the active members heard from, and the replica
    itself, whose own clock has offset and delay 0. *)
Definition heard (c : ClockSynchronizer) : list Z :=
  filter (fun source => clockSample.valid (sampleOf c source) = true) (seqZ 0 (activeCount c))
  ++ if localIndex c <? activeCount c then [] else [localIndex c].

Definition supports (c : ClockSynchronizer) (tolerance : Z) : list (Z * Z * Z) :=
  (fun source => allowed (sampleOf c source) tolerance source) <$> heard c.

Lemma sampleOf_wf c source :
  wf_clock c -> is_i64 (clockSample.offset (sampleOf c source)) /\ is_u64 (clockSample.oneWay (sampleOf c source)).
Proof.
  intros Hw. unfold sampleOf. destruct (_ =? _); [cbn; width_lia|].
  destruct (samples c !! _) as [s|] eqn:E; [|cbn; width_lia].
  by apply (proj1 (Forall_lookup _ _) (wc_samples _ Hw) _ _ E).
Qed.

Lemma allowed_ends s tolerance source :
  is_i64 (clockSample.offset s) -> is_u64 (clockSample.oneWay s) -> is_u64 tolerance ->
  let radius := saturatingSigned [clockSample.oneWay s; tolerance] in
  endpointsOf (saturatingSubtractInt64 (clockSample.offset s) radius)
    (saturatingAddInt64 (clockSample.offset s) radius) source = ends (allowed s tolerance source).
Proof.
  intros Ho Hw Ht radius. assert (radius = Z.min MaxInt64 (clockSample.oneWay s + tolerance)) as Er.
  { unfold radius. rewrite saturatingSigned_spec by (by rewrite !Forall_cons, Forall_nil). cbn. f_equal. lia. }
  rewrite saturatingSubtractInt64_spec, saturatingAddInt64_spec by (done || width_lia).
  unfold ends, allowed. cbn. by rewrite <- Er.
Qed.

Lemma collect_supports c tolerance :
  wf_clock c -> is_u64 tolerance -> collectEndpoints c tolerance = concat (ends <$> supports c tolerance).
Proof.
  intros Hw Ht. unfold collectEndpoints, supports, heard. rewrite !fmap_app, concat_app. f_equal.
  - induction (seqZ 0 (activeCount c)) as [|source l IH]; [done|]. rewrite filter_cons. cbn [fmap list_fmap concat].
    unfold sourceEndpoints at 1. destruct (sampleOf_wf c source Hw). rewrite allowed_ends by done.
    destruct (clockSample.valid (sampleOf c source)); cbn [negb]; rewrite IH;
      [rewrite decide_True by done|rewrite decide_False by done]; done.
  - unfold standbyEndpoints. destruct (_ <? _); [done|]. cbn [fmap list_fmap concat]. rewrite app_nil_r.
    unfold sampleOf. rewrite Z.eqb_refl.
    rewrite <- (allowed_ends localSample tolerance (localIndex c)) by (done || width_lia).
    rewrite !saturatingSigned_spec by (rewrite ?Forall_cons, Forall_nil; cbn; width_lia). cbn [foldr clockSample.oneWay localSample].
    rewrite saturatingSubtractInt64_spec, saturatingAddInt64_spec, swrap_small by (done || width_lia).
    cbn [clockSample.offset localSample]. unfold clamp. f_equal; width_lia.
Qed.

Lemma heard_length c : wf_clock c -> zlen (heard c) <= ActiveMax + 1.
Proof.
  intros Hw. pose proof (wc_active _ Hw). unfold heard. rewrite zlen_app.
  pose proof (length_filter (fun source => clockSample.valid (sampleOf c source) = true) (seqZ 0 (activeCount c))) as Hf.
  rewrite length_seqZ in Hf. unfold ActiveMax in *. unfold zlen.
  destruct (_ <? _); cbn [length]; lia.
Qed.

Lemma supports_wf c tolerance iv :
  wf_clock c -> is_u64 tolerance -> iv ∈ supports c tolerance -> iv.1.1 <= iv.1.2 /\ is_i64 iv.1.1 /\ is_i64 iv.1.2.
Proof.
  intros Hw Ht (source & -> & _)%list_elem_of_fmap. destruct (sampleOf_wf c source Hw).
  unfold allowed, clamp. cbn. width_lia.
Qed.

(** What it means for an interval to be the one the sources agree on: a quorum
    of them allows all of it, no offset is allowed by more, and no offset
    allowed by as many lies in a narrower region.  Without an interval, no
    offset has the support of a quorum. *)
Definition agreement (c : ClockSynchronizer) (tolerance : Z) (result : option ClockInterval) : Prop :=
  let support := covering (supports c tolerance) in
  match result with
  | Some (ClockInterval.mk Lower Upper Overlap Excluded Tolerance) =>
      Lower <= Upper /\ support Lower Upper = Overlap /\ quorum c <= Overlap /\
      (forall t, support t t <= Overlap) /\
      (forall t, support t t = Overlap ->
         exists a b, a <= t <= b /\ support a b = Overlap /\ Upper - Lower <= b - a) /\
      Excluded = zlen (heard c) - Overlap /\ Tolerance = tolerance
  | None => forall t, support t t < quorum c
  end.

Lemma interval_agreement c tolerance :
  wf_clock c -> is_u64 tolerance -> agreement c tolerance (interval c tolerance).
Proof.
  intros Hw Ht. unfold agreement. set (support := covering _). pose proof (wc_quorum _ Hw).
  pose proof (heard_length c Hw) as Hn. unfold ActiveMax in *.
  assert (zlen (supports c tolerance) = zlen (heard c)) as En by (unfold zlen, supports; by rewrite length_fmap).
  unfold interval. rewrite collect_supports by done.
  assert (zlen (concat (ends <$> supports c tolerance)) = 2 * zlen (heard c)) as ->.
  { rewrite <- En. clear. induction (supports c tolerance) as [|iv l IH]; [done|].
    cbn [fmap list_fmap concat]. rewrite zlen_app, zlen_cons, IH. change (zlen (ends iv)) with 2. lia. }
  rewrite (Z.mul_comm 2), Z_div_mult by done. pose proof (zlen_nonneg (heard c)).
  rewrite (uwrap_small 8 (zlen (heard c))) by width_lia.
  assert (forall a b, 0 <= support a b <= zlen (heard c)) as Hr by (intros; rewrite <- En; apply countb_range).
  destruct (Z.ltb_spec (zlen (heard c)) (quorum c)). { intros t. specialize (Hr t t). lia. }
  destruct (sweep_best (supports c tolerance)) as [Hmax Hbest];
    [intros iv Hiv; by apply (supports_wf c tolerance iv Hw Ht)|rewrite En; lia|intros iv Hiv; by apply (supports_wf c tolerance iv Hw Ht)|].
  fold support in Hmax, Hbest. set (best := sweep _ _ _) in *.
  destruct (Z.ltb_spec (Best.overlap best) (quorum c)). { intros t. specialize (Hmax t). lia. }
  destruct Hbest as (? & Hs & ?); [lia|]. specialize (Hr (Best.lower best) (Best.upper best)).
  split_and!; try done; try lia. rewrite uwrap_small; width_lia.
Qed.

Lemma countb_pos {A} (f : A -> bool) l : 0 < countb f l -> exists x, x ∈ l /\ f x = true.
Proof.
  induction l as [|x l IH]; cbn; [lia|]. destruct (f x) eqn:E; [exists x; set_solver|].
  intros Hc. destruct IH as (y & ? & ?); [lia|]. exists y. set_solver.
Qed.

Lemma agreement_range c tolerance iv :
  wf_clock c -> is_u64 tolerance -> agreement c tolerance (Some iv) ->
  is_i64 (ClockInterval.Lower iv) /\ is_i64 (ClockInterval.Upper iv) /\
  ClockInterval.Lower iv <= ClockInterval.Upper iv /\ ClockInterval.Tolerance iv = tolerance.
Proof.
  intros Hw Ht. pose proof (wc_quorum _ Hw) as Hq. destruct iv as [lo hi ov ex tol]. cbn.
  intros (Hle & Hs & Hov & _ & _ & _ & Etol). unfold covering in Hs.
  destruct (countb_pos (fun iv : Z * Z * Z => (iv.1.1 <=? lo) && (hi <=? iv.1.2)) (supports c tolerance)) as (iv & Hiv & Hc); [lia|].
  apply (supports_wf c tolerance iv Hw Ht) in Hiv. split_bool. split_and!; try done; width_lia.
Qed.

(** The tolerance [install] ends with: the interval at it exists, and none at
    half of it.  Sixty-four halvings exhaust any 64-bit tolerance. *)
Lemma tighten_spec n c tolerance best :
  0 <= tolerance < 2 ^ Z.of_nat n -> interval c tolerance = Some best -> ClockInterval.Tolerance best = tolerance ->
  (forall t iv, interval c t = Some iv -> ClockInterval.Tolerance iv = t) ->
  let r := tighten n c tolerance best in
  let t := ClockInterval.Tolerance r in
  interval c t = Some r /\ 0 <= t <= tolerance /\ (t = 0 \/ interval c (t / 2) = None).
Proof.
  revert tolerance best. induction n as [|n IH]; intros tolerance best Ht Hb Et Hall; cbn [tighten].
  { rewrite Et. assert (tolerance = 0) by (cbn in Ht; lia). auto with lia. }
  destruct (Z.eqb_spec tolerance 0) as [E|E]; [rewrite Et; auto with lia|].
  destruct (interval c (tolerance / 2)) as [candidate|] eqn:Ei; [|rewrite Et; auto with lia].
  assert (0 <= tolerance / 2 < 2 ^ Z.of_nat n) as Hh.
  { rewrite Nat2Z.inj_succ, Z.pow_succ_r in Ht by lia. split; [apply Z.div_pos; lia|].
    apply Z.div_lt_upper_bound; lia. }
  destruct (IH _ candidate Hh Ei (Hall _ _ Ei) Hall) as (? & ? & ?). pose proof (Z.div_le_upper_bound tolerance 2 tolerance).
  split_and!; try done; lia.
Qed.

(** ** Reachable clocks *)

Inductive clock_step : ClockSynchronizer -> ClockSynchronizer -> Prop :=
| step_begin c monotonic wall :
    is_u64 monotonic -> is_u64 wall -> clock_step c (BeginPing c monotonic wall).1
| step_observe c source ping peerWall receive wall :
    is_u8 source -> is_u64 ping -> is_u64 peerWall -> is_u64 receive -> is_u64 wall ->
    clock_step c (Observe c source ping peerWall receive wall).1
| step_now c monotonic wall :
    is_u64 monotonic -> is_u64 wall -> clock_step c (Now c monotonic wall).1.

Inductive clock_reachable : ClockSynchronizer -> Prop :=
| reach_new localIndex activeCount replicationQuorum process monotonic wall c :
    is_u8 localIndex -> is_u8 activeCount -> is_u8 replicationQuorum -> is_u64 monotonic -> is_u64 wall ->
    NewClockSynchronizer true localIndex activeCount replicationQuorum process monotonic wall = Ok c ->
    clock_reachable c
| reach_step c c' : clock_reachable c -> clock_step c c' -> clock_reachable c'.

(** The current epoch comes from a window [w] of this replica's samples: its
    interval is the one agreed on at the tightest tolerance, and its bounds
    are the window's wall clock at the start of the epoch moved by it. *)
Definition epoch_of (c w : ClockSynchronizer) : Prop :=
  let iv := installed c in
  let wall := Z.min MaxUint64 (windowWall w + (epochMono c - windowMono w)) in
  wf_clock w /\ localIndex w = localIndex c /\ activeCount w = activeCount c /\ quorum w = quorum c /\
  is_u64 (epochMono c) /\ windowMono w <= epochMono c /\ windowMin c <= epochMono c - windowMono w /\
  0 <= ClockInterval.Tolerance iv <= toleranceMax c /\
  agreement w (ClockInterval.Tolerance iv) (Some iv) /\
  (ClockInterval.Tolerance iv = 0 \/ agreement w (ClockInterval.Tolerance iv / 2) None) /\
  epochLower c = clamp 0 MaxUint64 (wall + ClockInterval.Lower iv) /\
  epochUpper c = clamp 0 MaxUint64 (wall + ClockInterval.Upper iv).

Definition clock_inv (c : ClockSynchronizer) : Prop :=
  wf_clock c /\ (synchronized c = true -> exists w, epoch_of c w).

Lemma reset_wf c monotonic wall :
  1 <= activeCount c <= ActiveMax -> 0 <= localIndex c < MembersMax -> 1 <= quorum c <= ActiveMax + 1 ->
  is_u64 (toleranceMax c) -> is_u64 monotonic -> is_u64 wall -> wf_clock (resetWindow c monotonic wall).
Proof.
  intros ? ? ? ? ? ?. assert (wf_zero : is_i64 0 /\ is_u64 0) by width_lia.
  split; cbn; try done.
  - destruct (_ <? _); unfold zlen; rewrite ?length_insert, length_replicate; done.
  - destruct (_ <? _); [apply Forall_insert|]; try done; by apply Forall_replicate.
Qed.

Lemma rotate_inv c monotonic wall :
  clock_inv c -> is_u64 monotonic -> is_u64 wall -> clock_inv (rotateWindow c monotonic wall).
Proof.
  intros [Hw He] ? ?. unfold rotateWindow. destruct (_ && _); [done|]. split; [|exact He].
  by apply reset_wf; try apply Hw.
Qed.

Lemma install_inv c monotonic :
  clock_inv c -> windowMono c <= monotonic -> is_u64 monotonic -> clock_inv (install c monotonic).
Proof.
  intros [Hw He] Hm Hu. pose proof (wc_mono _ Hw). pose proof (wc_wall _ Hw). pose proof (wc_tolerance _ Hw) as Ht.
  unfold install. rewrite (uwrap_small 64 (monotonic - windowMono c)) by width_lia.
  destruct (Z.ltb_spec (monotonic - windowMono c) (windowMin c)); [done|].
  destruct (interval c (toleranceMax c)) as [iv|] eqn:Ei; [|done].
  assert (forall t iv, interval c t = Some iv -> ClockInterval.Tolerance iv = t) as Htol.
  { intros t iv' E. unfold interval in E. step_guards E. by injection E as <-. }
  destruct (tighten_spec 64 c (toleranceMax c) iv Ht Ei (Htol _ _ Ei) Htol) as (Eb & Hb & Hhalf).
  set (best := tighten 64 c (toleranceMax c) iv) in *. clearbody best. set (t := ClockInterval.Tolerance best) in *.
  assert (is_u64 t) as Htu by width_lia. pose proof (interval_agreement c t Hw Htu) as Ha. rewrite Eb in Ha.
  destruct (agreement_range _ _ _ Hw Htu Ha) as (? & ? & _ & _).
  split; [split; apply Hw|]. intros _. exists c. unfold epoch_of. cbn -[agreement]. fold t.
  rewrite saturatingAdd_spec by (done || width_lia). rewrite !addSigned_spec by (done || width_lia).
  split_and!; try done; try lia. destruct Hhalf as [Hz|Hn]; [by left|right]. rewrite <- Hn.
  apply interval_agreement; [done|]. pose proof (Z.div_pos t 2). pose proof (Z.div_le_upper_bound t 2 t).
  unfold is_uint in *. lia.
Qed.

Lemma observe_inv c source ping peerWall receive wall :
  clock_inv c -> is_u8 source -> is_u64 ping -> is_u64 peerWall -> is_u64 receive -> is_u64 wall ->
  clock_inv (Observe c source ping peerWall receive wall).1.
Proof.
  intros Hinv Hs Hp Hpw Hr Hwl. unfold Observe. destruct (_ || _) eqn:Eg; [done|]. split_bool.
  pose proof (rotate_inv c receive wall Hinv Hr Hwl) as Hinv'. set (c' := rotateWindow c receive wall) in *.
  destruct (_ || _) eqn:Eg; [done|]. split_bool. cbn [fst].
  assert (0 <= receive - ping < 2 ^ 64) as Hd by width_lia.
  assert (is_u64 (u64 (receive - ping) / 2)) as Hw.
  { rewrite (uwrap_small 64 (receive - ping)) by done. pose proof (Z.div_pos (receive - ping) 2).
    pose proof (Z.div_le_upper_bound (receive - ping) 2 (receive - ping)). unfold is_uint. lia. }
  apply install_inv; [|by destruct (_ || _); cbn; lia|done].
  destruct (_ || _); [|done]. destruct Hinv' as [Hwf He]. split; [|exact He].
  split; cbn; try apply Hwf.
  - unfold zlen. rewrite length_insert. apply Hwf.
  - apply Forall_insert; [apply Hwf|]. split; [|done]. pose proof (wc_wall _ Hwf).
    pose proof (uwrap_range 64 (receive - windowMono c') ltac:(done)).
    assert (forall a b, is_u64 a -> is_u64 b -> is_u64 (saturatingAdd a b)) as Hsat
      by (intros; rewrite saturatingAdd_spec by done; width_lia).
    cbn [clockSample.offset]. rewrite signedDifference_spec by auto. unfold clamp. width_lia.
Qed.

Lemma now_state c monotonic wall :
  (Now c monotonic wall).1 = rotateWindow c monotonic wall \/
  (Now c monotonic wall).1 = with_synchronized (rotateWindow c monotonic wall) false.
Proof. unfold Now. destruct (_ || _); auto. Qed.

Lemma clock_reachable_inv c : clock_reachable c -> clock_inv c.
Proof.
  induction 1 as [li ac rq process m w c Hl Ha Hq Hm Hwl E|c c' _ IH Hst].
  - unfold NewClockSynchronizer in E. step_guards E. injection E as <-. cbn [negb orb] in *. split_bool.
    assert (1 <= rq <= ActiveMax) as Hrq by (unfold ActiveMax in *; width_lia).
    split; [|done]. unfold MembersMax, ActiveMax, StandbyMax in *.
    apply reset_wf; cbn [activeCount localIndex quorum toleranceMax]; try done; try (apply uwrap_range; done);
      unfold MembersMax, ActiveMax, StandbyMax; try width_lia.
    destruct (_ <=? _); rewrite ?uwrap_small; width_lia.
  - destruct Hst; [by apply rotate_inv|by apply observe_inv|].
    destruct (now_state c monotonic wall) as [-> | ->]; [by apply rotate_inv|].
    destruct (rotate_inv c monotonic wall IH) as [Hw _]; [done|done|]. split; [|done]. split; apply Hw.
Qed.

(** C37: the interval the clock computes.  At every tolerance it is the one the
    sources of the window agree on: a quorum of them allows all of it, no
    offset has more support, none with as much lies in a narrower region; and
    there is none exactly when no offset has the support of a quorum. *)
Theorem clock_interval c tolerance :
  clock_reachable c -> is_u64 tolerance -> agreement c tolerance (interval c tolerance).
Proof. intros [Hw _]%clock_reachable_inv. by apply interval_agreement. Qed.

Lemma rotate_epoch c monotonic wall :
  let c' := rotateWindow c monotonic wall in
  synchronized c' = synchronized c /\ epochMono c' = epochMono c /\ epochMax c' = epochMax c /\
  epochLower c' = epochLower c /\ epochUpper c' = epochUpper c.
Proof. unfold rotateWindow. by destruct (_ && _). Qed.

(** The bound of an epoch, [elapsed] into it. *)
Definition moved (bound elapsed : Z) : Z := Z.min MaxUint64 (bound + elapsed).

Lemma now_spec c monotonic wall :
  clock_inv c -> is_u64 monotonic ->
  let '(c', s) := Now c monotonic wall in
  let elapsed := monotonic - epochMono c in
  let lower := moved (epochLower c) elapsed in
  let upper := moved (epochUpper c) elapsed in
  epochMono c' = epochMono c /\ epochLower c' = epochLower c /\ epochUpper c' = epochUpper c /\
  TimeSample.Monotonic s = monotonic /\ synchronized c' = TimeSample.Synchronized s /\
  if TimeSample.Synchronized s
  then synchronized c = true /\ 0 <= elapsed <= epochMax c /\ lower <= upper /\
       TimeSample.Wall s = Z.min (Z.max wall lower) upper
  else TimeSample.Wall s = wall /\ ~ (synchronized c = true /\ 0 <= elapsed <= epochMax c).
Proof.
  intros [Hw He] Hm. unfold Now. destruct (rotate_epoch c monotonic wall) as (-> & -> & -> & -> & ->).
  destruct (synchronized c) eqn:Es; cbn [negb orb].
  2:{ cbn. destruct (rotate_epoch c monotonic wall) as (_ & -> & _ & -> & ->). split_and!; try done. by intros []. }
  destruct (He eq_refl) as (w & Hww & _ & _ & _ & Hem & _ & _ & Ht & Ha & _ & El & Eu).
  destruct (agreement_range w (ClockInterval.Tolerance (installed c)) (installed c) Hww) as (Hlo & Hhi & Hle & _);
    [pose proof (wc_tolerance _ Hw); width_lia|done|].
  destruct (Z.ltb_spec monotonic (epochMono c)); cbn [orb].
  { cbn. destruct (rotate_epoch c monotonic wall) as (_ & -> & _ & -> & ->). split_and!; try done. intros [_ ?]. lia. }
  rewrite (uwrap_small 64 (monotonic - epochMono c)) by width_lia.
  destruct (Z.ltb_spec (epochMax c) (monotonic - epochMono c)).
  { cbn. destruct (rotate_epoch c monotonic wall) as (_ & -> & _ & -> & ->). split_and!; try done. intros [_ ?]. lia. }
  cbn [TimeSample.Synchronized TimeSample.Wall TimeSample.Monotonic].
  destruct (rotate_epoch c monotonic wall) as (-> & -> & _ & -> & ->).
  rewrite !saturatingAdd_spec by (rewrite ?El, ?Eu; unfold clamp; width_lia).
  unfold moved. rewrite El, Eu. unfold clamp. split_and!; try done; width_lia.
Qed.

(** The two clocks are in one epoch. *)
Definition same_epoch (c1 c2 : ClockSynchronizer) : Prop :=
  epochMono c1 = epochMono c2 /\ epochLower c1 = epochLower c2 /\ epochUpper c1 = epochUpper c2.

(** C36: the time handed out.  It is called synchronized exactly while the
    replica has an epoch that has begun and is not older than the maximum; it is
    then the local wall clock brought into the epoch's interval, which a quorum
    of sources agreed on at the tightest tolerance, moved by the time elapsed.
    Otherwise it is the local wall clock, and the epoch is given up.  Calling
    [Now] stays in the epoch.  Of two synchronized times of one epoch, with any
    other calls in between, the later one is not below the earlier one if the
    local wall clock did not run backwards; if it did, the time handed out goes
    back by no more than the local clock did, nor by more than the width of the
    interval. *)
Theorem clock_now c monotonic wall c' s :
  clock_reachable c -> is_u64 monotonic -> is_u64 wall -> Now c monotonic wall = (c', s) ->
  let elapsed := monotonic - epochMono c in
  let lower := moved (epochLower c) elapsed in
  let upper := moved (epochUpper c) elapsed in
  same_epoch c' c /\
  (TimeSample.Synchronized s = true <-> synchronized c = true /\ 0 <= elapsed <= epochMax c) /\
  TimeSample.Monotonic s = monotonic /\ synchronized c' = TimeSample.Synchronized s /\
  (TimeSample.Synchronized s = false -> TimeSample.Wall s = wall) /\
  (TimeSample.Synchronized s = true ->
     (exists w, epoch_of c w) /\ lower <= TimeSample.Wall s <= upper /\
     TimeSample.Wall s = Z.min (Z.max wall lower) upper /\
     (lower <= wall <= upper -> TimeSample.Wall s = wall) /\
     forall c1 monotonic1 wall1 c2 s1,
       clock_reachable c1 -> same_epoch c1 c -> is_u64 monotonic1 -> is_u64 wall1 -> monotonic <= monotonic1 ->
       Now c1 monotonic1 wall1 = (c2, s1) -> TimeSample.Synchronized s1 = true ->
       (wall <= wall1 -> TimeSample.Wall s <= TimeSample.Wall s1) /\
       TimeSample.Wall s - TimeSample.Wall s1 <= Z.max 0 (Z.min (wall - wall1) (upper - lower))).
Proof.
  intros Hr Hm Hwl E. pose proof (clock_reachable_inv _ Hr) as Hinv.
  pose proof (now_spec c monotonic wall Hinv Hm) as Hn. rewrite E in Hn. cbn zeta in Hn.
  destruct Hn as (Eem & Eel & Eeu & Emo & Esy & Hs).
  destruct (TimeSample.Synchronized s); cbn zeta.
  2:{ destruct Hs as [? Hno]. by split_and!. }
  destruct Hs as (Hsy & He & Hle & Ew). split_and!; try done.
  intros _. split_and!; [by apply Hinv|rewrite Ew; lia|rewrite Ew; lia|done|rewrite Ew; lia|].
  intros c1 m1 w1 c2 s1 Hr1 (E1 & E2 & E3) Hm1 Hw1 ? En Hs1.
  pose proof (now_spec c1 m1 w1 (clock_reachable_inv _ Hr1) Hm1) as Hn1. rewrite En in Hn1. cbn zeta in Hn1.
  rewrite Hs1 in Hn1. destruct Hn1 as (_ & _ & _ & _ & _ & _ & _ & _ & Ew1).
  rewrite Ew, Ew1, E1, E2, E3 in *. unfold moved in *. split; lia.
Qed.

(** ** A clock of three active members

    Replica 0 hears from replica 1, 3 milliseconds ahead, and from replica 2,
    5 milliseconds behind, each within a fifth of a millisecond. *)

Definition sample_new : result config_error ClockSynchronizer :=
  NewClockSynchronizer true 0 3 2 DefaultProcessConfig 0 (1000 * Second).

Definition sample_clock : ClockSynchronizer := Eval vm_compute in
  match sample_new with
  | Err _ => ClockSynchronizer.mk 0 0 0 0 0 0 0 0 0 0 0 0 [] zeroInterval false
  | Ok c =>
      let c := (Observe c 1 (2 * Second) (1002 * Second + 3100000) (2 * Second + 200000) (1002 * Second)).1 in
      (Observe c 2 (3 * Second) (1003 * Second - 4900000) (3 * Second + 200000) (1003 * Second)).1
  end.

Lemma sample_clock_reachable : clock_reachable sample_clock.
Proof.
  destruct sample_new as [c|] eqn:E; [|discriminate E].
  assert (clock_reachable c) as Hc by (apply (reach_new 0 3 2 DefaultProcessConfig 0 (1000 * Second)); try done; unfold Second, Millisecond; width_lia).
  vm_compute in E. injection E as <-.
  eapply reach_step in Hc; [|apply (step_observe _ 1 (2 * Second) (1002 * Second + 3100000) (2 * Second + 200000) (1002 * Second)); unfold Second, Millisecond; width_lia].
  eapply reach_step in Hc; [|apply (step_observe _ 2 (3 * Second) (1003 * Second - 4900000) (3 * Second + 200000) (1003 * Second)); unfold Second, Millisecond; width_lia].
  vm_compute in Hc. exact Hc.
Qed.

Lemma clock_interval_witness :
  installed sample_clock = ClockInterval.mk 458594 2441406 2 1 2441406 /\
  agreement sample_clock 2441406 (interval sample_clock 2441406).
Proof. split; [reflexivity|]. apply clock_interval; [exact sample_clock_reachable|width_lia]. Defined.

Lemma clock_now_witness :
  let '(_, s) := Now sample_clock (4 * Second) (1005 * Second) in
  s = TimeSample.mk 1004002441406 (4 * Second) true /\ exists w, epoch_of sample_clock w.
Proof.
  destruct (Now sample_clock (4 * Second) (1005 * Second)) as [c' s] eqn:E.
  assert (TimeSample.Synchronized s = true) as Hs by (vm_compute in E; by injection E as _ <-).
  split; [vm_compute in E; by injection E as _ <-|].
  apply (clock_now sample_clock (4 * Second) (1005 * Second) c' s sample_clock_reachable); try done;
    unfold Second, Millisecond; width_lia.
Defined.
