(* ===== verification/Random.v ===== *)
(** * The random generator

    [DeterministicRandom] of [src/replication/timeout.go], an xorshift
    generator with a multiplicative output, and [newReplicaRandom] of
    [src/replication/replica_entropy.go].  [Uniform] rejects outputs until one
    lies in a whole number of ranges: that it ever returns rests on the period
    of the generator, which is shown to be all nonzero states. *)

From Stdlib Require Import Znumtheory.
From S2P Require Import Prelude Bytes.

Module DeterministicRandom.
Record t := mk { state : Z }.
End DeterministicRandom.
Abbreviation DeterministicRandom := DeterministicRandom.t.

Definition NewDeterministicRandom (seed : Z) : DeterministicRandom :=
  DeterministicRandom.mk (if seed =? 0 then 0x9e3779b97f4a7c15 else seed).

(** [seed] is what the entropy source delivers, [None] when it fails. *)
Definition newReplicaRandom (entropy : option (list byte)) : option DeterministicRandom :=
  seed ← entropy; Some (NewDeterministicRandom (getUint (slice seed 0 8))).

(** The state after [Next]. *)
Definition xorshift (value : Z) : Z :=
  let value := Z.lxor value (Z.shiftr value 12) in
  let value := Z.lxor value (u64 (Z.shiftl value 25)) in
  Z.lxor value (Z.shiftr value 27).

Definition Next (random : DeterministicRandom) : DeterministicRandom * Z :=
  let value := xorshift (DeterministicRandom.state random) in
  (DeterministicRandom.mk value, u64 (value * 0x2545f4914f6cdd1d)).

(** [None]: every output of the first [fuel] is rejected. *)
Fixpoint Uniform_loop (fuel : nat) (random : DeterministicRandom) (threshold bound : Z)
    : option (DeterministicRandom * Z) :=
  match fuel with
  | O => None
  | S fuel =>
      let '(random, value) := Next random in
      if threshold <=? value then Some (random, value mod bound) else Uniform_loop fuel random threshold bound
  end.

Definition Uniform (fuel : nat) (random : DeterministicRandom) (bound : Z) : option (DeterministicRandom * Z) :=
  if bound <=? 1 then Some (random, 0) else Uniform_loop fuel random (u64 (- bound) mod bound) bound.

(** ** The step as a matrix over the field of two elements *)

(** A matrix is the list of its columns. *)
Fixpoint apply (columns : list Z) (v : Z) : Z :=
  match columns with
  | [] => 0
  | c :: columns => Z.lxor (if Z.odd v then c else 0) (apply columns (Z.div2 v))
  end.

Definition mul (a b : list Z) : list Z := apply a <$> b.

Definition powers_of_two : list Z := (fun i => 2 ^ i) <$> seqZ 0 64.

Definition step_matrix : list Z := xorshift <$> powers_of_two.

Fixpoint power (n : positive) : list Z :=
  match n with
  | xH => step_matrix
  | xO n => let q := power n in mul q q
  | xI n => let q := power n in mul step_matrix (mul q q)
  end.

Lemma apply_zero a : apply a 0 = 0.
Proof. induction a as [|c a IH]; [done|]. cbn. by rewrite IH. Qed.

Lemma apply_lxor a v w : apply a (Z.lxor v w) = Z.lxor (apply a v) (apply a w).
Proof.
  revert v w. induction a as [|c a IH]; intros v w; [done|]. cbn [apply].
  rewrite !Z.div2_spec, Z.shiftr_lxor, IH, <- !Z.bit0_odd, Z.lxor_spec.
  destruct (Z.testbit v 0), (Z.testbit w 0); cbn [xorb]; apply Z.bits_inj'; intros n Hn; rewrite !Z.lxor_spec, ?Z.bits_0;
    repeat match goal with |- context [Z.testbit ?x n] => destruct (Z.testbit x n) end; done.
Qed.

Lemma apply_mul a b v : apply (mul a b) v = apply a (apply b v).
Proof.
  revert v. induction b as [|c b IH]; intros v; cbn; [by rewrite apply_zero|].
  change (apply a <$> b) with (mul a b). rewrite IH, apply_lxor. by destruct (Z.odd v); rewrite ?apply_zero.
Qed.

Lemma lxor_parts v : v = Z.lxor (if Z.odd v then 1 else 0) (2 * Z.div2 v).
Proof.
  apply Z.bits_inj'. intros n Hn. rewrite Z.lxor_spec. destruct (decide (n = 0)) as [->|].
  - rewrite Z.testbit_even_0, xorb_false_r, Z.bit0_odd. by destruct (Z.odd v).
  - replace n with (Z.succ (n - 1)) at 3 by lia. rewrite Z.testbit_even_succ, Z.div2_spec, Z.shiftr_spec by lia.
    replace (n - 1 + 1) with n by lia. destruct (Z.odd v); rewrite ?Z.bits_0; [|done].
    change 1 with (2 ^ 0). by rewrite Z.pow2_bits_false by lia.
Qed.

(** A map that respects exclusive or is the matrix of its values on single
    bits. *)
Lemma apply_linear f n k v :
  (forall a b, f (Z.lxor a b) = Z.lxor (f a) (f b)) -> f 0 = 0 -> 0 <= k -> 0 <= v < 2 ^ Z.of_nat n ->
  apply ((fun i => f (2 ^ i)) <$> seqZ k (Z.of_nat n)) v = f (v * 2 ^ k).
Proof.
  intros Hf H0. revert k v. induction n as [|n IH]; intros k v Hk Hv.
  - replace v with 0 by (cbn in Hv; lia). by rewrite Z.mul_0_l, H0.
  - rewrite Nat2Z.inj_succ, seqZ_cons by lia. rewrite Z.pred_succ. cbn [fmap list_fmap apply].
    rewrite Nat2Z.inj_succ, Z.pow_succ_r in Hv by lia. rewrite Z.div2_div.
    rewrite IH by (lia || (split; [apply Z.div_pos; lia|apply Z.div_lt_upper_bound; lia])).
    rewrite (lxor_parts v) at 3. rewrite Z.div2_div, <- (Z.shiftl_mul_pow2 (Z.lxor _ _)), Z.shiftl_lxor, Hf, !Z.shiftl_mul_pow2 by lia.
    rewrite Z.pow_succ_r by done. f_equal; [destruct (Z.odd v); [by rewrite Z.mul_1_l|by rewrite Z.mul_0_l]|]. f_equal. lia.
Qed.

Lemma xorshift_lxor a b : xorshift (Z.lxor a b) = Z.lxor (xorshift a) (xorshift b).
Proof.
  assert (forall x y, u64 (Z.lxor x y) = Z.lxor (u64 x) (u64 y)) as Hw.
  { intros x y. unfold uwrap. rewrite <- !Z.land_ones by done. apply Z.bits_inj'. intros n Hn.
    rewrite !Z.land_spec, !Z.lxor_spec, !Z.land_spec.
    destruct (Z.testbit x n), (Z.testbit y n), (Z.testbit (Z.ones 64) n); done. }
  assert (forall x y z w, Z.lxor (Z.lxor x y) (Z.lxor z w) = Z.lxor (Z.lxor x z) (Z.lxor y w)) as Hswap.
  { intros x y z w. apply Z.bits_inj'. intros n Hn. rewrite !Z.lxor_spec.
    repeat match goal with |- context [Z.testbit ?x n] => destruct (Z.testbit x n) end; done. }
  unfold xorshift. rewrite Z.shiftr_lxor, Hswap, Z.shiftl_lxor, Hw, Hswap, Z.shiftr_lxor. apply Hswap.
Qed.

Lemma step_matrix_spec v : is_u64 v -> apply step_matrix v = xorshift v.
Proof.
  intros Hv. unfold step_matrix, powers_of_two. rewrite <- list_fmap_compose.
  change 64 with (Z.of_nat 64). unfold compose. rewrite (apply_linear xorshift 64 0 v xorshift_lxor); try done.
  by rewrite Z.mul_1_r.
Qed.

Lemma lxor_u64 a b : is_u64 a -> is_u64 b -> is_u64 (Z.lxor a b).
Proof.
  intros [Ha1 Ha2] [Hb1 Hb2]. assert (0 <= Z.lxor a b) by (by apply Z.lxor_nonneg).
  split; [done|]. apply (Z.bounded_iff_bits_nonneg 64); [done..|]. intros i Hi.
  rewrite Z.lxor_spec. rewrite (proj1 (Z.bounded_iff_bits_nonneg 64 a ltac:(done) Ha1) Ha2) by done.
  by rewrite (proj1 (Z.bounded_iff_bits_nonneg 64 b ltac:(done) Hb1) Hb2) by done.
Qed.

Lemma xorshift_u64 v : is_u64 v -> is_u64 (xorshift v).
Proof.
  intros Hv. assert (forall x k, is_u64 x -> 0 <= k -> is_u64 (Z.shiftr x k)) as Hs.
  { intros x k [? ?] Hk. split; [by apply Z.shiftr_nonneg|]. rewrite Z.shiftr_div_pow2 by done.
    pose proof (Z.pow_pos_nonneg 2 k). apply Z.le_lt_trans with x; [|lia]. apply Z.div_le_upper_bound; nia. }
  unfold xorshift. set (a := Z.lxor v _). assert (is_u64 a) as Ha by (apply lxor_u64; [done|by apply Hs]).
  set (b := Z.lxor a _). assert (is_u64 b) as Hb by (apply lxor_u64; [done|by apply uwrap_range]).
  apply lxor_u64; [done|by apply Hs].
Qed.

(** ** The period *)

Definition steps (n : Z) (v : Z) : Z := Nat.iter (Z.to_nat n) xorshift v.

Lemma steps_add a b v : 0 <= a -> 0 <= b -> steps (a + b) v = steps a (steps b v).
Proof. intros Ha Hb. unfold steps. rewrite Z2Nat.inj_add by done. apply Nat.iter_add. Qed.

Lemma steps_u64 n v : is_u64 v -> is_u64 (steps n v).
Proof. intros Hv. unfold steps. induction (Z.to_nat n); [done|]. cbn. by apply xorshift_u64. Qed.

Lemma power_spec n v : is_u64 v -> apply (power n) v = steps (Z.pos n) v.
Proof.
  revert v. induction n as [n IH|n IH|]; intros v Hv; cbn [power].
  - rewrite !apply_mul, (IH v), IH by (done || by apply steps_u64).
    rewrite step_matrix_spec by by apply steps_u64, steps_u64.
    replace (Z.pos n~1) with (1 + (Z.pos n + Z.pos n)) by lia. by rewrite !steps_add by lia.
  - rewrite apply_mul, (IH v), IH by (done || by apply steps_u64).
    replace (Z.pos n~0) with (Z.pos n + Z.pos n) by lia. by rewrite steps_add by lia.
  - by apply step_matrix_spec.
Qed.

Definition factors : list positive := [3; 5; 17; 257; 641; 65537; 6700417]%positive.

Definition period : Z := 18446744073709551615.

(** Gauss-Jordan elimination on columns: the inverse of an invertible matrix. *)
Definition reduce_column (bit : Z) (pivot column : Z * Z) : Z * Z :=
  if Z.testbit column.1 bit then (Z.lxor column.1 pivot.1, Z.lxor column.2 pivot.2) else column.

Fixpoint eliminate (bits : list Z) (finished pending : list (Z * Z)) : list (Z * Z) :=
  match bits with
  | [] => finished
  | bit :: bits =>
      match list_find (fun column : Z * Z => Z.testbit column.1 bit = true) pending with
      | None => finished
      | Some (i, pivot) =>
          let clear := reduce_column bit pivot <$> finished in
          eliminate bits (clear ++ [pivot]) (reduce_column bit pivot <$> delete i pending)
      end
  end.

Definition inverse (a : list Z) : list Z := snd <$> eliminate (seqZ 0 64) [] (zip a powers_of_two).

(** The order of the step divides the period, and no proper divisor of the
    period fixes any nonzero state. *)
Definition moved_by (n : Z) : bool :=
  match n with
  | Z.pos n =>
      let d := zip_with Z.lxor (power n) powers_of_two in
      bool_decide (mul (inverse d) d = powers_of_two)
  | _ => false
  end.

Lemma period_checks :
  power 18446744073709551615 = powers_of_two /\ forallb (fun p => moved_by (period / Z.pos p)) factors = true.
Proof. split; vm_compute; reflexivity. Qed.

Lemma matrix_identity v : is_u64 v -> apply powers_of_two v = v.
Proof.
  intros Hv. unfold powers_of_two. change 64 with (Z.of_nat 64).
  rewrite (apply_linear (fun x => x) 64 0 v); try done. lia.
Qed.

Lemma apply_zip a b v :
  length a = length b -> apply (zip_with Z.lxor a b) v = Z.lxor (apply a v) (apply b v).
Proof.
  revert b v. induction a as [|x a IH]; intros [|y b] v Hl; try done. cbn. rewrite IH by (injection Hl; done).
  destruct (Z.odd v); apply Z.bits_inj'; intros n Hn; rewrite !Z.lxor_spec, ?Z.bits_0;
    repeat match goal with |- context [Z.testbit ?z n] => destruct (Z.testbit z n) end; done.
Qed.

Lemma power_length n : length (power n) = 64%nat.
Proof. induction n; cbn [power]; unfold mul; rewrite ?length_fmap; done. Qed.

Lemma moved_spec n v : moved_by n = true -> is_u64 v -> v <> 0 -> steps n v <> v.
Proof.
  destruct n as [|n|n]; [done| |done]. cbn [moved_by]. intros Hm%bool_decide_eq_true Hv H0 E. apply H0.
  set (d := zip_with Z.lxor (power n) powers_of_two) in *.
  assert (apply d v = 0) as Ed.
  { unfold d. rewrite apply_zip by by rewrite power_length. rewrite power_spec, matrix_identity, E by done. apply Z.lxor_nilpotent. }
  rewrite <- (matrix_identity v Hv), <- Hm, apply_mul, Ed. apply apply_zero.
Qed.

Lemma period_returns v : is_u64 v -> steps period v = v.
Proof.
  intros Hv. change period with (Z.pos 18446744073709551615). rewrite <- power_spec by done.
  rewrite (proj1 period_checks). by apply matrix_identity.
Qed.

#[local] Opaque period.

Lemma steps_multiple a k v : 0 <= a -> 0 <= k -> steps a v = v -> steps (k * a) v = v.
Proof.
  intros Ha Hk Ea. revert k Hk. apply natlike_ind; [done|]. intros k Hk IH.
  rewrite Z.mul_succ_l, steps_add by nia. by rewrite Ea.
Qed.

Lemma steps_mod a b v : 0 < a -> 0 <= b -> steps a v = v -> steps b v = v -> steps (b mod a) v = v.
Proof.
  intros Ha Hb Ea Eb. rewrite (Z.div_mod b a) in Eb at 1 by lia. pose proof (Z.mod_pos_bound b a Ha). assert (0 <= b / a) by (apply Z.div_pos; lia).
  rewrite Z.add_comm, (Z.mul_comm a), steps_add, steps_multiple in Eb by (done || nia). done.
Qed.

Lemma steps_gcd v a b : 0 <= a -> 0 <= b -> steps a v = v -> steps b v = v -> steps (Z.gcd a b) v = v.
Proof.
  intros Ha. revert b. pattern a. apply Zlt_0_ind; [|exact Ha]. clear a Ha. intros a IH Ha b Hb Ea Eb.
  destruct (decide (a = 0)) as [->|]; [by rewrite Z.gcd_0_l, Z.abs_eq|].
  rewrite <- Z.gcd_mod by done. pose proof (Z.mod_pos_bound b a). apply IH; [lia|lia|apply steps_mod|]; done || lia.
Qed.

Lemma prime_by_division (p s : Z) :
  2 <= p -> 0 <= s -> p < (s + 1) * (s + 1) -> forallb (fun d => negb (p mod d =? 0)) (seqZ 2 (s - 1)) = true -> prime p.
Proof.
  intros Hp Hs0 Hs Hd. rewrite forallb_forall in Hd.
  assert (forall d, 2 <= d <= s -> ~ (d | p)) as Hno.
  { intros d Hr Hdiv. specialize (Hd d). rewrite <- list_elem_of_In, elem_of_seqZ in Hd. specialize (Hd ltac:(lia)).
    apply Z.mod_divide in Hdiv; [|lia]. rewrite Hdiv in Hd. done. }
  apply prime_alt. split; [lia|]. intros n Hn [m Em]. destruct (Z.le_gt_cases n s).
  - apply (Hno n); [lia|]. by exists m.
  - apply (Hno m); [split; nia|]. exists n. lia.
Qed.

Lemma factors_prime : Forall (fun p => prime (Z.pos p)) factors.
Proof.
  assert (forallb (fun p => forallb (fun d => negb (Z.pos p mod d =? 0)) (seqZ 2 (Z.sqrt (Z.pos p) - 1))) factors = true) as H
    by (vm_compute; reflexivity).
  rewrite forallb_forall in H. apply Forall_forall. intros p Hp.
  assert (2 <= Z.pos p) by (repeat (apply elem_of_cons in Hp as [->|Hp]; [lia|]); by apply not_elem_of_nil in Hp).
  pose proof (Z.sqrt_spec (Z.pos p) ltac:(lia)). pose proof (Z.sqrt_nonneg (Z.pos p)).
  apply (prime_by_division _ (Z.sqrt (Z.pos p))); [done|done|unfold Z.succ in *; lia|]. by apply H, list_elem_of_In.
Qed.

(** A proper divisor of the period divides the period over one of its factors. *)
Lemma proper_divisor g : 0 < g < period -> (g | period) -> exists p, p ∈ factors /\ (g | period / Z.pos p).
Proof.
  intros Hg [h Eh]. destruct (decide (Exists (fun p => h mod Z.pos p = 0) factors)) as [Hex|Hno].
  { apply Exists_exists in Hex as (p & Hp & [k Ek]%Z.mod_divide); [|lia]. exists p. split; [done|]. exists k.
    rewrite Eh, Ek. replace (k * Z.pos p * g) with (k * g * Z.pos p) by lia. by rewrite Z.div_mul by lia. }
  exfalso. assert (forall l, l ⊆ factors -> rel_prime h (fold_right (fun p q => Z.pos p * q) 1 l)) as Hrel.
  { induction l as [|p l IH]; intros Hl; [apply rel_prime_sym, rel_prime_1|]. cbn. apply rel_prime_mult; [|apply IH; set_solver].
    apply rel_prime_sym, prime_rel_prime.
    - pose proof factors_prime as Hf. rewrite Forall_forall in Hf. apply Hf. set_solver.
    - intros Hd. apply Hno, Exists_exists. exists p. split; [set_solver|by apply Z.mod_divide]. }
  specialize (Hrel factors ltac:(done)). apply Zgcd_1_rel_prime in Hrel.
  assert ((h | 1)) as Hh%Z.divide_1_r; [|lia].
  rewrite <- Hrel. apply Z.gcd_greatest; [by exists 1; lia|]. exists g. change (fold_right _ _ _) with period. lia.
Qed.

Lemma no_shorter_cycle v k : is_u64 v -> v <> 0 -> 0 < k < period -> steps k v <> v.
Proof.
  intros Hv H0 Hk E. assert (steps (Z.gcd k period) v = v) as Eg by (apply steps_gcd; [lia|lia|done|by apply period_returns]).
  pose proof (Z.gcd_nonneg k period). assert (Z.gcd k period <> 0) by (intros [? _]%Z.gcd_eq_0; lia).
  assert (Z.gcd k period <= k) by (apply Z.divide_pos_le; [lia|apply Z.gcd_divide_l]).
  destruct (proper_divisor (Z.gcd k period)) as (p & Hp & [m Em]); [lia|apply Z.gcd_divide_r|].
  pose proof (proj2 period_checks) as Hm. rewrite forallb_forall in Hm. specialize (Hm p (proj1 (list_elem_of_In _ _) Hp)).
  apply (moved_spec _ v Hm Hv H0). rewrite Em. assert (0 <= m) by (assert (0 <= period / Z.pos p) by (apply Z.div_pos; lia); nia).
  by apply steps_multiple.
Qed.

Lemma steps_zero k : steps k 0 = 0.
Proof. unfold steps. induction (Z.to_nat k) as [|n IH]; [reflexivity|]. rewrite Nat.iter_succ, IH. reflexivity. Qed.

Lemma steps_nonzero n v : 0 <= n -> is_u64 v -> v <> 0 -> steps n v <> 0.
Proof.
  intros Hn Hv H0 E. assert (1 <= period) by (change period with 18446744073709551615; lia). apply H0.
  pose proof (steps_multiple period n v ltac:(lia) Hn (period_returns v Hv)) as Em.
  replace (n * period) with (n * (period - 1) + n) in Em by lia. rewrite steps_add, E, steps_zero in Em by nia.
  symmetry. exact Em.
Qed.

(** Every nonzero state comes up, within one period. *)
Lemma full_period v target :
  is_u64 v -> v <> 0 -> is_u64 target -> target <> 0 -> exists k, 0 <= k < period /\ steps k v = target.
Proof.
  intros Hv H0 Ht Ht0. assert (0 < period) as Hpos by (change period with 18446744073709551615; lia).
  assert (forall i j, 0 <= i < j -> j < period -> steps i v <> steps j v) as Hinj.
  { intros i j Hij Hj E. apply (no_shorter_cycle v (j - i) Hv H0); [lia|].
    rewrite <- (period_returns v Hv) at 2. replace period with (period - i + i) by lia. rewrite (steps_add (period - i)), E by lia.
    rewrite <- steps_add by lia. replace (period - i + j) with (j - i + period) by lia. rewrite steps_add by lia.
    rewrite (period_returns v Hv). reflexivity. }
  set (orbit := (fun i => steps i v) <$> seqZ 0 period).
  assert (NoDup orbit) as Hnd.
  { apply NoDup_fmap_2_strong; [|apply NoDup_seqZ]. intros i j Hi%elem_of_seqZ Hj%elem_of_seqZ E.
    destruct (Z.lt_trichotomy i j) as [?|[?|?]]; [|done|]; exfalso; [apply (Hinj i j)|apply (Hinj j i)]; done || lia. }
  assert (orbit ⊆+ seqZ 1 period) as Hsub.
  { apply NoDup_submseteq; [done|]. intros x (i & -> & Hi%elem_of_seqZ)%list_elem_of_fmap. apply elem_of_seqZ.
    pose proof (steps_u64 i v Hv). pose proof (steps_nonzero i v ltac:(lia) Hv H0).
    unfold is_uint in *. change period with (2 ^ 64 - 1). lia. }
  apply submseteq_length_Permutation in Hsub; [|unfold orbit; rewrite length_fmap, !length_seqZ; apply Nat.le_refl].
  assert (target ∈ seqZ 1 period) as Hin by (apply elem_of_seqZ; unfold is_uint in *; change period with (2 ^ 64 - 1); lia).
  assert (target ∈ orbit) as Hin' by (rewrite Hsub; exact Hin).
  apply list_elem_of_fmap in Hin' as (k & Ek & Hk). apply elem_of_seqZ in Hk. exists k. split; [lia|]. symmetry. exact Ek.
Qed.

(** ** Uniform values *)

Definition wf_random (random : DeterministicRandom) : Prop :=
  is_u64 (DeterministicRandom.state random) /\ DeterministicRandom.state random <> 0.

Lemma new_random seed : is_u64 seed -> wf_random (NewDeterministicRandom seed).
Proof.
  intros Hs. unfold wf_random, NewDeterministicRandom. cbn. destruct (Z.eqb_spec seed 0); [|done].
  split; [split; [lia|reflexivity]|discriminate].
Qed.

Lemma Next_spec random :
  wf_random random -> let '(random', value) := Next random in
  wf_random random' /\ is_u64 value /\ DeterministicRandom.state random' = xorshift (DeterministicRandom.state random).
Proof.
  intros [Hu H0]. cbn. split_and!; [split|by apply uwrap_range|done].
  - by apply xorshift_u64.
  - by apply (steps_nonzero 1 (DeterministicRandom.state random)).
Qed.

(** The output of one state is the largest number. *)
Definition state_of_largest : Z := 12031615345788793547.

Lemma largest_output : u64 (state_of_largest * 0x2545f4914f6cdd1d) = MaxUint64.
Proof. vm_compute. reflexivity. Qed.

#[local] Opaque state_of_largest.

Lemma iter_shift {A} (f : A -> A) n x : Nat.iter n f (f x) = Nat.iter (S n) f x.
Proof. symmetry. apply Nat.iter_succ_r. Qed.

Lemma loop_returns n random threshold bound :
  wf_random random -> threshold <= MaxUint64 -> 0 < bound ->
  Nat.iter (S n) xorshift (DeterministicRandom.state random) = state_of_largest ->
  exists random' value, Uniform_loop (S n) random threshold bound = Some (random', value) /\ wf_random random' /\
    0 <= value < bound.
Proof.
  revert random. induction n as [|n IH]; intros random Hw Ht Hb E; cbn [Uniform_loop].
  all: pose proof (Next_spec random Hw) as Hn; destruct (Next random) as [random1 value] eqn:En;
    destruct Hn as (Hw1 & Hv & Es); destruct (threshold <=? value) eqn:El;
    [exists random1, (value mod bound); split; [reflexivity|]; split; [exact Hw1|apply Z.mod_pos_bound, Hb]|].
  - apply Z.leb_gt in El. unfold Next in En. injection En as _ <-. change (Nat.iter 1 xorshift ?x) with (xorshift x) in E.
    rewrite E in El. rewrite largest_output in El. clear - Ht El. lia.
  - apply (IH random1 Hw1 Ht Hb). rewrite Es. etrans; [|exact E]. apply iter_shift.
Qed.

Lemma loop_more n m random threshold bound out :
  Uniform_loop n random threshold bound = Some out -> (n <= m)%nat -> Uniform_loop m random threshold bound = Some out.
Proof.
  revert m random. induction n as [|n IH]; intros [|m] random E Hm; [done|done|lia|]. cbn [Uniform_loop] in *.
  destruct (Next random) as [random' value]. destruct (threshold <=? value); [done|]. apply IH; [done|lia].
Qed.

Lemma reaches_largest random :
  wf_random random -> exists n, Z.of_nat (S n) <= period /\
    Nat.iter (S n) xorshift (DeterministicRandom.state random) = state_of_largest.
Proof.
  intros [Hu H0]. destruct (full_period (DeterministicRandom.state random) state_of_largest) as (k & Hk & E); [done|done| | |].
  { split; vm_compute; [discriminate|reflexivity]. }
  { vm_compute. discriminate. }
  assert (exists k', 0 < k' <= period /\ steps k' (DeterministicRandom.state random) = state_of_largest) as (k' & Hk' & E').
  { destruct (decide (k = 0)) as [->|]; [|exists k; split; [lia|exact E]].
    exists period. split; [lia|]. rewrite period_returns by done. exact E. }
  exists (Z.to_nat (k' - 1)). replace (S (Z.to_nat (k' - 1))) with (Z.to_nat k') by lia. split; [lia|exact E'].
Qed.

Lemma uniform_result random bound :
  wf_random random -> is_u64 bound ->
  exists fuel random' value, Z.of_nat fuel <= period /\
    (forall more, (fuel <= more)%nat -> Uniform more random bound = Some (random', value)) /\
    wf_random random' /\ 0 <= value < Z.max 1 bound.
Proof.
  intros Hw Hb. destruct (Z.le_gt_cases bound 1) as [Hle|Hgt].
  { exists 0%nat, random, 0. split; [apply Z.lt_le_incl; reflexivity|]. split; [|split; [exact Hw|lia]].
    intros more _. unfold Uniform. by rewrite (proj2 (Z.leb_le bound 1)). }
  destruct (reaches_largest random Hw) as (n & Hn & E). exists (S n).
  destruct (loop_returns n random (u64 (- bound) mod bound) bound Hw) as (random' & value & El & Hw' & Hv); [|lia|exact E|].
  { pose proof (Z.mod_pos_bound (u64 (- bound)) bound ltac:(lia)). unfold is_uint in Hb. change MaxUint64 with (2 ^ 64 - 1). lia. }
  exists random', value. split; [exact Hn|]. split; [|split; [exact Hw'|lia]]. intros more Hm. unfold Uniform.
  rewrite (proj2 (Z.leb_gt bound 1)) by lia. by eapply loop_more.
Qed.

(** C39: The random generator never blocks.  From any nonzero state, in particular from every seed, the generator visits
    every nonzero state within one period, so Uniform returns within that many outputs, whatever the bound; the value
    is below the bound, and the outputs accepted are a whole number of ranges, so no value is favoured. *)
Theorem uniform_returns random bound :
  wf_random random -> is_u64 bound ->
  (exists fuel random' value, Z.of_nat fuel <= period /\
     (forall more, (fuel <= more)%nat -> Uniform more random bound = Some (random', value)) /\
     wf_random random' /\ 0 <= value < Z.max 1 bound) /\
  (1 < bound -> (2 ^ 64 - u64 (- bound) mod bound) mod bound = 0) /\
  forall target, is_u64 target -> target <> 0 ->
    exists k, 0 <= k < period /\ steps k (DeterministicRandom.state random) = target.
Proof.
  intros Hw Hb. assert (1 < bound -> u64 (- bound) mod bound = 2 ^ 64 mod bound) as Ht.
  { intros Hlt. unfold uwrap. replace (- bound) with (2 ^ 64 - bound + (-1) * 2 ^ 64) by lia.
    rewrite Z_mod_plus_full, (Z.mod_small (2 ^ 64 - bound)) by (unfold is_uint in Hb; lia).
    replace (2 ^ 64 - bound) with (2 ^ 64 + (-1) * bound) by lia. by rewrite Z_mod_plus_full. }
  split; [|split].
  - by apply uniform_result.
  - intros Hlt. rewrite Ht by done. rewrite <- Zminus_mod_idemp_l, Z.sub_diag. apply Z.mod_0_l. lia.
  - intros target Hu H0. by apply full_period; destruct Hw.
Qed.

Lemma uniform_returns_witness :
  wf_random (NewDeterministicRandom 7) /\
  exists fuel random' value, (forall more, (fuel <= more)%nat -> Uniform more (NewDeterministicRandom 7) 10 = Some (random', value)) /\
    0 <= value < 10.
Proof.
  assert (wf_random (NewDeterministicRandom 7)) as Hw by (apply new_random; split; [discriminate|reflexivity]).
  split; [exact Hw|].
  destruct (uniform_returns (NewDeterministicRandom 7) 10 Hw) as [(fuel & random' & value & _ & E & _ & Hv) _];
    [split; [discriminate|reflexivity]|].
  exists fuel, random', value. split; [exact E|exact Hv].
Defined.
