(* ===== verification/Timers.v ===== *)
(** * Timeouts and the failure detector

    [Timeout] of [src/replication/timeout.go], the detector of
    [src/replication/failure_detector.go] and the timers of a replica,
    [src/replication/replica_timers.go].  A timeout counts ticks up to a
    threshold, which backing off draws at random; the detector averages the
    time between signals and suspects a peer that stays silent for long
    compared with it. *)

From S2P Require Import Prelude Bytes Arith Config Random.

(** ** Timeouts *)

Definition durationTicks (period tick : Z) : option Z :=
  if (period <=? 0) || (tick <=? 0) then None else Some (Z.max 1 (u64 (Z.quot period tick))).

Inductive timeout_error := ErrTimeoutInvariant | TimeoutConfiguration.

Module Timeout.
Record t := mk {
  running : bool;
  elapsed : Z;
  threshold : Z;
  initial : Z;
  attempts : Z;
  peer : Z;
  measured : Z;
}.

Definition NewTimeout (period tick peer : Z) : result timeout_error t :=
  match durationTicks period tick with
  | None => Err TimeoutConfiguration
  | Some threshold => Ok (mk false 0 0 threshold 0 peer 0)
  end.

Definition Start (timeout : t) : t :=
  mk true 0 (initial timeout) (initial timeout) 0 (peer timeout) 0.

Definition Stop (timeout : t) : t := mk false 0 0 (initial timeout) 0 (peer timeout) 0.

Definition Reset (timeout : t) : t :=
  mk true 0 (initial timeout) (initial timeout) 0 (peer timeout) (measured timeout).

Definition Tick (timeout : t) : t * result timeout_error bool :=
  if negb (running timeout) then (timeout, Ok false) else
  if threshold timeout <=? elapsed timeout then (timeout, Err ErrTimeoutInvariant) else
  let elapsed := u64 (elapsed timeout + 1) in
  (mk true elapsed (threshold timeout) (initial timeout) (attempts timeout) (peer timeout) (measured timeout),
   Ok (elapsed =? threshold timeout)).

(** The drawn threshold.  [fuel] bounds the outputs the generator may reject
    and [random] is absent for a nil generator. *)
Definition Backoff (fuel : nat) (timeout : t) (process : ProcessConfig) (measuredRTT : Z)
    (random : option DeterministicRandom)
    : option (t * option DeterministicRandom * result timeout_error unit) :=
  match running timeout, random with
  | true, Some generator =>
      let tick := ProcessConfig.Tick process in
      let rttTicks := default 1 (durationTicks measuredRTT tick) in
      match durationTicks (ProcessConfig.MaximumRTT process) tick, durationTicks (ProcessConfig.BackoffMin process) tick,
            durationTicks (ProcessConfig.BackoffMax process) tick with
      | Some maximumRTT, Some minimum, Some maximum =>
          if maximum <? minimum then Some (timeout, random, Err TimeoutConfiguration) else
          let rttTicks := Z.min maximumRTT (Z.max 1 rttTicks) in
          let attempts := u8 (attempts timeout + 1) in
          let span := saturatingShift (Z.max 1 minimum) (Z.min 63 attempts) in
          let span := Z.min (u64 (maximum - minimum)) span in
          drawn ← Uniform fuel generator (u64 (span + 1));
          let '(generator, value) := drawn in
          let backoff := u64 (minimum + value) in
          let threshold := saturatingAdd (saturatingMultiply (ProcessConfig.RTTMultiplier process) rttTicks) backoff in
          let threshold := if threshold =? 0 then 1 else threshold in
          Some (mk true 0 threshold (initial timeout) attempts (peer timeout) rttTicks, Some generator, Ok tt)
      | _, _, _ => Some (timeout, random, Err TimeoutConfiguration)
      end
  | _, _ => Some (timeout, random, Err ErrTimeoutInvariant)
  end.

Definition ResetJitter (fuel : nat) (timeout : t) (random : option DeterministicRandom)
    : option (t * option DeterministicRandom * result timeout_error unit) :=
  match running timeout, random with
  | true, Some generator =>
      let half := Z.max 1 (initial timeout / 2) in
      let span := saturatingAdd (initial timeout) 1 in
      drawn ← Uniform fuel generator span;
      let '(generator, value) := drawn in
      Some (mk true 0 (saturatingAdd half value) (initial timeout) (u8 (attempts timeout + 1)) (peer timeout)
              (measured timeout), Some generator, Ok tt)
  | _, _ => Some (timeout, random, Err ErrTimeoutInvariant)
  end.

Definition Running (timeout : t) : bool := running timeout.
Definition Attempts (timeout : t) : Z := attempts timeout.
Definition Peer (timeout : t) : Z := peer timeout.
Definition Threshold (timeout : t) : Z := threshold timeout.
End Timeout.
Abbreviation Timeout := Timeout.t.

(** ** The timers of a replica *)

Module replicaTimers.
Record t := mk {
  ping : Timeout;
  prepare : Timeout;
  abdication : Timeout;
  commit : Timeout;
  exit : Timeout;
  join : Timeout;
  pulse : Timeout;
  repair : Timeout;
}.
End replicaTimers.
Abbreviation replicaTimers := replicaTimers.t.

Definition startedTimeout (process : ProcessConfig) (period : Z) : result timeout_error Timeout :=
  timeout ← Timeout.NewTimeout period (ProcessConfig.Tick process) 0; Ok (Timeout.Start timeout).

Definition newReplicaTimers (process : ProcessConfig) : result timeout_error replicaTimers :=
  ping ← startedTimeout process Second;
  prepare ← startedTimeout process (250 * Millisecond);
  abdication ← startedTimeout process (10 * Second);
  commit ← startedTimeout process (500 * Millisecond);
  exit ← startedTimeout process (500 * Millisecond);
  join ← startedTimeout process (500 * Millisecond);
  pulse ← startedTimeout process (100 * Millisecond);
  repair ← startedTimeout process (100 * Millisecond);
  Ok (replicaTimers.mk ping prepare abdication commit exit join pulse repair).

(** ** The failure detector *)

Inductive FailureLevel := FailureGreen | FailureYellow | FailureRed.

Definition failureIntervalMin : Z := 100 * Millisecond.
Definition failureIntervalMax : Z := 2 * Second.

Module FailureDetector.
Record t := mk { last : Z; ewma : Z }.

Definition NewFailureDetector (monotonic : Z) : t := mk monotonic failureIntervalMax.

Definition Signal (detector : t) (monotonic : Z) : t :=
  if monotonic <=? last detector then detector else
  let sample := Z.min failureIntervalMax (Z.max failureIntervalMin (u64 (monotonic - last detector))) in
  mk monotonic (saturatingAdd (saturatingMultiply 4 (ewma detector)) sample / 5).

Definition Level (detector : t) (monotonic : Z) : FailureLevel :=
  if monotonic <=? last detector then FailureGreen else
  let twiceElapsed := saturatingMultiply 2 (u64 (monotonic - last detector)) in
  let threeEWMA := saturatingMultiply 3 (ewma detector) in
  if twiceElapsed <=? threeEWMA then FailureGreen else
  if twiceElapsed <=? saturatingMultiply 6 (ewma detector) then FailureYellow else FailureRed.

Definition EWMA (detector : t) : Z := i64 (ewma detector).
End FailureDetector.
Abbreviation FailureDetector := FailureDetector.t.

(** ** Correctness of the failure detector *)

Import FailureDetector.

Definition wf_detector (d : FailureDetector) : Prop :=
  is_u64 (last d) /\ failureIntervalMin <= ewma d <= failureIntervalMax.

Lemma Signal_wf d now :
  wf_detector d -> is_u64 now -> wf_detector (Signal d now) /\ last (Signal d now) = Z.max (last d) now.
Proof.
  intros [Hl He] Hn. unfold Signal. destruct (Z.leb_spec now (last d)); [split; [done|lia]|]. cbn [last ewma].
  split; [|lia]. split; [done|]. cbn [ewma]. unfold failureIntervalMin, failureIntervalMax, Second, Millisecond in *.
  rewrite (uwrap_small 64 (now - last d)) by width_lia. set (sample := Z.min _ _). assert (100 * 1000000 <= sample <= 2 * (1000 * 1000000)) by lia.
  rewrite saturatingMultiply_spec, saturatingAdd_spec, !Z.min_r by (unfold MaxUint64; width_lia). div_lia.
Qed.

(** Silence is judged in units of the average. *)
Lemma Level_spec d now :
  wf_detector d -> is_u64 now ->
  Level d now = if 2 * (now - last d) <=? 3 * ewma d then FailureGreen
                else if now - last d <=? 3 * ewma d then FailureYellow else FailureRed.
Proof.
  intros [Hl He] Hn. unfold Level, failureIntervalMin, failureIntervalMax, Second, Millisecond in *.
  destruct (Z.leb_spec now (last d)); [rewrite (proj2 (Z.leb_le _ _)) by lia; done|].
  rewrite (uwrap_small 64 (now - last d)) by width_lia. rewrite !saturatingMultiply_spec by width_lia.
  rewrite !(Z.min_r MaxUint64 (_ * ewma d)) by (unfold MaxUint64; lia). unfold MaxUint64.
  destruct (Z.leb_spec (Z.min (2 ^ 64 - 1) (2 * (now - last d))) (3 * ewma d)), (Z.leb_spec (2 * (now - last d)) (3 * ewma d)); try lia; [done|].
  destruct (Z.leb_spec (Z.min (2 ^ 64 - 1) (2 * (now - last d))) (6 * ewma d)), (Z.leb_spec (now - last d) (3 * ewma d)); lia || done.
Qed.

(** The failure detector is complete and bounded on both sides.  Whatever signals it has seen, its average stays
    between 100ms and 2s and it counts from the latest of them; a peer silent for more than six seconds is reported as
    failed, none is before 300ms of silence, and within 150ms of a signal it is reported healthy. *)
Theorem failure_detector_bounds start signals now :
  is_u64 start -> Forall (fun t : Z => is_u64 t) signals -> is_u64 now ->
  let d := fold_left Signal signals (NewFailureDetector start) in
  failureIntervalMin <= ewma d <= failureIntervalMax /\ last d = foldr Z.max start signals /\
  (6 * Second < now - last d -> Level d now = FailureRed) /\
  (Level d now = FailureRed -> 300 * Millisecond < now - last d) /\
  (now - last d <= 150 * Millisecond -> Level d now = FailureGreen).
Proof.
  intros Hs Hf Hn d.
  assert (wf_detector d /\ last d = foldr Z.max start signals) as [Hd El].
  { assert (forall d0, wf_detector d0 -> wf_detector (fold_left Signal signals d0) /\
      last (fold_left Signal signals d0) = foldr Z.max (last d0) signals) as Hall.
    { clear - Hf. induction Hf as [|t l Ht Hl IH]; intros d0 Hw; [done|]. cbn [fold_left foldr].
      destruct (Signal_wf d0 t Hw Ht) as [Hw1 E1]. destruct (IH _ Hw1) as [? ->]. split; [done|]. rewrite E1. clear.
      induction l as [|x l IH]; cbn; lia. }
    apply (Hall (NewFailureDetector start)). split; [done|split; vm_compute; discriminate]. }
  pose proof (Level_spec d now Hd Hn) as HL. destruct Hd as [_ He].
  split_and!; [apply He..|done| | |]; rewrite HL;
    unfold failureIntervalMin, failureIntervalMax, Second, Millisecond in *;
    destruct (Z.leb_spec (2 * (now - last d)) (3 * ewma d)), (Z.leb_spec (now - last d) (3 * ewma d)); lia || done.
Qed.

Lemma failure_detector_bounds_witness :
  let d := fold_left Signal [1 * Second; 2 * Second] (NewFailureDetector 0) in
  last d = 2 * Second /\ Level d (9 * Second) = FailureRed.
Proof.
  assert (forall s, 0 <= s <= 9 -> is_u64 (s * Second)) as H by (unfold Second, Millisecond; intros; width_lia).
  destruct (failure_detector_bounds 0 [1 * Second; 2 * Second] (9 * Second)) as (_ & E & Hr & _).
  - split; [lia|reflexivity].
  - repeat (apply Forall_cons; split; [apply H; lia|]). by apply Forall_nil.
  - apply H. lia.
  - split; [exact E|]. apply Hr. rewrite E. reflexivity.
Defined.

(** ** Correctness of timeouts *)

Import Timeout.

(** A timeout and the generator it draws from, after any calls. *)
Inductive timeout_reachable (process : ProcessConfig) : Timeout -> DeterministicRandom -> Prop :=
| reachable_new period tick peer timeout random :
    NewTimeout period tick peer = Ok timeout -> wf_random random -> timeout_reachable process timeout random
| reachable_start timeout random : timeout_reachable process timeout random -> timeout_reachable process (Start timeout) random
| reachable_stop timeout random : timeout_reachable process timeout random -> timeout_reachable process (Stop timeout) random
| reachable_reset timeout random : timeout_reachable process timeout random -> timeout_reachable process (Reset timeout) random
| reachable_tick timeout random : timeout_reachable process timeout random -> timeout_reachable process (Timeout.Tick timeout).1 random
| reachable_backoff timeout random fuel rtt timeout' random' r :
    timeout_reachable process timeout random ->
    Backoff fuel timeout process rtt (Some random) = Some (timeout', Some random', r) -> timeout_reachable process timeout' random'
| reachable_jitter timeout random fuel timeout' random' r :
    timeout_reachable process timeout random ->
    ResetJitter fuel timeout (Some random) = Some (timeout', Some random', r) -> timeout_reachable process timeout' random'.

Record wf_timeout (timeout : Timeout) : Prop := {
  wt_initial : 1 <= initial timeout /\ is_u64 (initial timeout);
  wt_elapsed : 0 <= elapsed timeout /\ is_u64 (threshold timeout);
  wt_running : running timeout = true -> 1 <= threshold timeout /\ elapsed timeout <= threshold timeout;
}.

Lemma durationTicks_spec period tick n : durationTicks period tick = Some n -> 1 <= n /\ is_u64 n.
Proof.
  unfold durationTicks. case_match; [done|]. intros [= <-]. pose proof (uwrap_range 64 (Z.quot period tick) ltac:(done)).
  split; [lia|]. width_lia.
Qed.

Lemma durationTicks_some period tick : 0 < period -> 0 < tick -> exists n, durationTicks period tick = Some n.
Proof. intros. unfold durationTicks. rewrite !(proj2 (Z.leb_gt _ _)) by done. by eexists. Qed.

Lemma durationTicks_mono a b tick m n :
  a <= b -> 0 < tick -> is_i64 b -> durationTicks a tick = Some m -> durationTicks b tick = Some n -> m <= n.
Proof.
  intros Hab Ht [_ Hb]. unfold durationTicks. destruct (Z.leb_spec a 0), (Z.leb_spec b 0), (Z.leb_spec tick 0); cbn; try done.
  intros [= <-] [= <-]. assert (Z.quot a tick <= Z.quot b tick) by (apply Z.quot_le_mono; lia).
  assert (0 <= Z.quot a tick) by (apply Z.quot_pos; lia). assert (Z.quot b tick <= b) by (apply Z.quot_le_upper_bound; nia).
  change (2 ^ (64 - 1)) with 9223372036854775808 in *. rewrite !uwrap_small by width_lia. lia.
Qed.

Lemma Uniform_enough random bound :
  wf_random random -> is_u64 bound -> exists fuel random' value, Uniform fuel random bound = Some (random', value).
Proof.
  intros Hw Hb. destruct (uniform_result random bound Hw Hb) as (fuel & random' & value & _ & E & _).
  exists fuel, random', value. by apply E.
Qed.

Lemma saturatingAdd_u64 a b : is_u64 a -> is_u64 b -> is_u64 (saturatingAdd a b) /\ (1 <= a -> 1 <= saturatingAdd a b).
Proof. intros Ha Hb. rewrite saturatingAdd_spec by done. unfold MaxUint64. split; width_lia. Qed.

Lemma Uniform_spec fuel random bound random' value :
  wf_random random -> is_u64 bound -> Uniform fuel random bound = Some (random', value) ->
  wf_random random' /\ 0 <= value < Z.max 1 bound.
Proof.
  intros Hw Hb E. unfold Uniform in E. destruct (Z.leb_spec bound 1); [injection E as <- <-; split; [done|lia]|].
  revert random Hw E. induction fuel as [|fuel IH]; intros random Hw E; [done|]. cbn [Uniform_loop] in E.
  pose proof (Next_spec random Hw) as Hn. destruct (Next random) as [random1 v]. destruct Hn as (Hw1 & Hv & _).
  destruct (_ <=? v) in E; [|by eapply IH]. injection E as <- <-. split; [done|]. pose proof (Z.mod_pos_bound v bound). lia.
Qed.

(** Backing off draws a threshold between the bounds of the configuration. *)
Definition backed_off (process : ProcessConfig) (timeout timeout' : Timeout) : Prop :=
  running timeout' = true /\ elapsed timeout' = 0 /\ initial timeout' = initial timeout /\ 1 <= threshold timeout' /\
  is_u64 (threshold timeout') /\
  exists minimum maximum rtt, durationTicks (ProcessConfig.BackoffMin process) (ProcessConfig.Tick process) = Some minimum /\
    durationTicks (ProcessConfig.BackoffMax process) (ProcessConfig.Tick process) = Some maximum /\ 1 <= rtt /\ is_u64 rtt /\
    let base := saturatingMultiply (ProcessConfig.RTTMultiplier process) rtt in
    saturatingAdd base minimum <= threshold timeout' <= Z.max 1 (saturatingAdd base maximum).

Lemma Backoff_spec fuel timeout process rtt random timeout' random' r :
  is_u32 (ProcessConfig.RTTMultiplier process) -> wf_timeout timeout -> wf_random random ->
  Backoff fuel timeout process rtt (Some random) = Some (timeout', Some random', r) ->
  wf_random random' /\ match r with Ok _ => backed_off process timeout timeout' | Err _ => timeout' = timeout end.
Proof.
  intros Hm Hw Hr E. unfold Backoff in E. destruct (running timeout) eqn:Er; [|by injection E as <- <- <-].
  destruct (durationTicks (ProcessConfig.MaximumRTT process) _) as [maxR|] eqn:E1; [|by injection E as <- <- <-].
  destruct (durationTicks (ProcessConfig.BackoffMin process) _) as [mn|] eqn:E2; [|by injection E as <- <- <-].
  destruct (durationTicks (ProcessConfig.BackoffMax process) _) as [mx|] eqn:E3; [|by injection E as <- <- <-].
  apply durationTicks_spec in E1 as H1. apply durationTicks_spec in E2 as H2. apply durationTicks_spec in E3 as H3.
  destruct (Z.ltb_spec mx mn); [by injection E as <- <- <-|].
  set (ticks := Z.min maxR _) in E.
  assert (1 <= ticks /\ is_u64 ticks) as [Ht Hu].
  { unfold ticks. destruct (durationTicks rtt _) as [n|] eqn:En; cbn [default]; [apply durationTicks_spec in En|]; width_lia. }
  rewrite (uwrap_small 64 (mx - mn)) in E by width_lia. set (span := Z.min _ _) in E.
  assert (0 <= span <= mx - mn) as Hspan.
  { unfold span. assert (0 <= saturatingShift (Z.max 1 mn) (Z.min 63 (u8 (attempts timeout + 1)))); [|lia].
    unfold saturatingShift. case_match; [done|]. by apply uwrap_range. }
  rewrite (uwrap_small 64 (span + 1)) in E by width_lia.
  destruct (Uniform fuel random (span + 1)) as [[g v]|] eqn:Eu; [|done].
  apply Uniform_spec in Eu as [Hg Hv]; [|done|width_lia]. cbn in E. rewrite (uwrap_small 64 (mn + v)) in E by width_lia.
  set (base := saturatingMultiply _ ticks) in E.
  assert (is_u64 base) as Hb by (unfold base; rewrite saturatingMultiply_spec by (done || width_lia); unfold MaxUint64; unfold is_uint in *; nia).
  destruct (saturatingAdd_u64 (mn + v) base) as [Hs _]; [width_lia|done|].
  rewrite saturatingAdd_spec in Hs, E by (done || width_lia). replace (mn + v + base) with (base + (mn + v)) in Hs by lia.
  destruct (Z.eqb_spec (Z.min MaxUint64 (base + (mn + v))) 0) in E; [unfold MaxUint64 in *; width_lia|].
  injection E as <- <- <-. split; [done|]. split_and!; try done; cbn; [unfold MaxUint64 in *; width_lia|apply Hs..|].
  exists mn, mx, ticks. split_and!; try done; fold base; rewrite saturatingAdd_spec by (done || width_lia); unfold MaxUint64 in *; width_lia.
Qed.

Lemma jitter_wf fuel timeout random timeout' random' r :
  wf_timeout timeout -> wf_random random -> ResetJitter fuel timeout (Some random) = Some (timeout', Some random', r) ->
  wf_timeout timeout' /\ wf_random random'.
Proof.
  intros Hw Hr E. unfold ResetJitter in E. destruct (running timeout); [|by injection E as <- <- <-].
  destruct (wt_initial _ Hw) as [Hi Hu]. set (half := Z.max 1 _) in E.
  assert (1 <= half /\ is_u64 half) as [Hh1 Hh] by (assert (0 <= initial timeout / 2 <= initial timeout) by div_lia; unfold half; width_lia).
  destruct (saturatingAdd_u64 (initial timeout) 1) as [Hs _]; [done|width_lia|].
  destruct (Uniform fuel random _) as [[g v]|] eqn:Eu in E; [|done]. apply Uniform_spec in Eu as [Hg Hv]; [|done|done].
  cbn in E. injection E as <- <- <-. split; [|done].
  destruct (saturatingAdd_u64 half v) as [Ht Ht1]; [done|width_lia|]. split; cbn; [done|split; [lia|done]|]. intros _. lia.
Qed.

Lemma timeout_wf process timeout random :
  is_u32 (ProcessConfig.RTTMultiplier process) -> timeout_reachable process timeout random ->
  wf_timeout timeout /\ wf_random random.
Proof.
  intros Hm. induction 1 as [period tick p timeout random E Hr|timeout random _ [Hw Hr]|timeout random _ [Hw Hr]|timeout random _ [Hw Hr]|
    timeout random _ [Hw Hr]|timeout random fuel rtt timeout' random' r _ [Hw Hr] E|timeout random fuel timeout' random' r _ [Hw Hr] E].
  - unfold NewTimeout in E. destruct (durationTicks period tick) as [n|] eqn:En; [|done]. injection E as <-.
    apply durationTicks_spec in En. by split.
  - destruct (wt_initial _ Hw). split; [|done]. split; cbn; [done|done|lia].
  - destruct (wt_initial _ Hw). split; [|done]. split; cbn; done.
  - destruct (wt_initial _ Hw). split; [|done]. split; cbn; [done|done|lia].
  - split; [|done]. unfold Timeout.Tick. destruct (running timeout) eqn:Er; [|done]. cbn [negb].
    destruct (Z.leb_spec (threshold timeout) (elapsed timeout)); [done|]. destruct (wt_elapsed _ Hw).
    rewrite (uwrap_small 64 (elapsed timeout + 1)) by width_lia.
    split; cbn; [apply Hw|split; [lia|done]|]. intros _. destruct (wt_running _ Hw Er). lia.
  - apply Backoff_spec in E as [Hr' Ho]; [|done..]. split; [|done]. destruct r; [|by subst].
    destruct Ho as (? & ? & ? & ? & ? & _). destruct (wt_initial _ Hw). split; intros; split; congruence || lia.
  - by eapply jitter_wf.
Qed.

Definition ticks (n : nat) (timeout : Timeout) : Timeout := Nat.iter n (fun t => (Timeout.Tick t).1) timeout.

Lemma ticks_spec n timeout :
  wf_timeout timeout -> running timeout = true -> elapsed timeout + Z.of_nat n <= threshold timeout ->
  running (ticks n timeout) = true /\ elapsed (ticks n timeout) = elapsed timeout + Z.of_nat n /\
  threshold (ticks n timeout) = threshold timeout.
Proof.
  intros Hw Hr. induction n as [|n IH]; intros Hn; [split_and!; done || cbn; lia|].
  destruct IH as (Er & Ee & Et); [lia|]. change (ticks (S n) timeout) with (Timeout.Tick (ticks n timeout)).1.
  unfold Timeout.Tick. rewrite Er, Ee, Et. cbn [negb]. destruct (wt_elapsed _ Hw).
  rewrite (proj2 (Z.leb_gt _ _)) by lia. cbn. rewrite (uwrap_small 64) by width_lia. split_and!; lia || done.
Qed.

(** A running timeout fires, and at the tick it should.  After any calls, one that has not fired yet answers false
    to every tick but the one that brings it to its threshold, and true to that one.  Once it has fired, resetting it
    or backing off makes it run again with at least one tick to go; backing off cannot fail under a valid
    configuration, whatever the generator, and waits for the configured multiple of the round trip plus a random delay
    within the configured bounds. *)
Theorem timeout_fires process cluster timeout random rtt :
  is_u32 (ProcessConfig.RTTMultiplier process) -> is_i64 (ProcessConfig.BackoffMax process) ->
  ProcessConfig.Validate process cluster = Ok tt -> timeout_reachable process timeout random -> running timeout = true ->
  (forall n, elapsed timeout + Z.of_nat n < threshold timeout ->
     (Timeout.Tick (ticks n timeout)).2 = Ok (elapsed timeout + Z.of_nat n + 1 =? threshold timeout)) /\
  1 <= threshold (Reset timeout) - elapsed (Reset timeout) /\
  exists fuel timeout' random', Backoff fuel timeout process rtt (Some random) = Some (timeout', Some random', Ok tt) /\
    backed_off process timeout timeout'.
Proof.
  intros Hm Hmax Hv Hreach Hr. destruct (timeout_wf _ _ _ Hm Hreach) as [Hw Hrnd]. split; [|split].
  - intros n Hn. destruct (ticks_spec n timeout Hw Hr ltac:(lia)) as (Er & Ee & Et). unfold Timeout.Tick.
    rewrite Er, Ee, Et. cbn [negb]. rewrite (proj2 (Z.leb_gt _ _)) by lia. cbn. destruct (wt_elapsed _ Hw).
    by rewrite (uwrap_small 64) by width_lia.
  - cbn. destruct (wt_initial _ Hw). lia.
  - unfold ProcessConfig.Validate, invalid in Hv. step_guards Hv. split_bool.
    destruct (durationTicks_some (ProcessConfig.MaximumRTT process) (ProcessConfig.Tick process)) as [maxR E1]; [lia..|].
    destruct (durationTicks_some (ProcessConfig.BackoffMin process) (ProcessConfig.Tick process)) as [mn E2]; [lia..|].
    destruct (durationTicks_some (ProcessConfig.BackoffMax process) (ProcessConfig.Tick process)) as [mx E3]; [lia..|].
    assert (mn <= mx) as Hle by (eapply durationTicks_mono; [| |exact Hmax|exact E2|exact E3]; lia).
    assert (exists fuel timeout' random', Backoff fuel timeout process rtt (Some random) = Some (timeout', Some random', Ok tt))
      as (fuel & timeout' & random' & E).
    { unfold Backoff. rewrite Hr, E1, E2, E3, (proj2 (Z.ltb_ge mx mn)) by done.
      match goal with |- context [Uniform _ random ?b] => destruct (Uniform_enough random b Hrnd) as (fuel & g & v & Eu) end.
      { by apply uwrap_range. }
      exists fuel. rewrite Eu. eexists _, _. reflexivity. }
    exists fuel, timeout', random'. split; [done|]. by apply Backoff_spec in E as [_ ?].
Qed.

Lemma timeout_fires_witness :
  exists timeout, NewTimeout Second (10 * Millisecond) 0 = Ok timeout /\ (Timeout.Tick (ticks 99%nat (Start timeout))).2 = Ok true /\
  exists fuel timeout' random', Backoff fuel (Start timeout) DefaultProcessConfig (300 * Millisecond) (Some (NewDeterministicRandom 1))
    = Some (timeout', Some random', Ok tt).
Proof.
  assert (wf_random (NewDeterministicRandom 1)) as Hw by (apply new_random; split; [discriminate|reflexivity]).
  eexists. split; [vm_compute; reflexivity|].
  destruct (timeout_fires DefaultProcessConfig DefaultClusterConfig (Start (Timeout.mk false 0 0 100 0 0 0))
    (NewDeterministicRandom 1) (300 * Millisecond)) as (Hf & _ & fuel & timeout' & random' & E & _).
  - split; [discriminate|reflexivity].
  - split; [discriminate|reflexivity].
  - vm_compute. reflexivity.
  - apply reachable_start, (reachable_new _ Second (10 * Millisecond) 0); [vm_compute; reflexivity|exact Hw].
  - reflexivity.
  - split; [exact (Hf 99%nat eq_refl)|]. exists fuel, timeout', random'. exact E.
Defined.
