(* ===== verification/RepairBudget.v ===== *)
(** * The journal repair budget

    [src/replication/repair_budget.go]: which peer a replica asks for a
    prepare it lacks.  At most two requests are outstanding at a peer and never
    two for one operation; a peer is chosen by its average response time or, one
    time in ten, at random; requests not answered in time are given up.  An
    assertion that fails panics: the operations return [None] then, and also
    when the generator rejects more than [fuel] outputs. *)

From S2P Require Import Prelude Bytes Arith Config Random Timers.

Definition journalRepairsPerPeer : Z := 2.

Definition elapsedSince (start now : Z) : Z := if now <=? start then 0 else u64 (now - start).

Module journalRepairEntry.
Record t := mk { busy : bool; peer : Z; op : Z; started : Z }.
Definition zero : t := mk false 0 0 0.
End journalRepairEntry.
Abbreviation journalRepairEntry := journalRepairEntry.t.

Module journalRepairBudget.
Record t := mk {
  active : Z;
  local : Z;
  capacity : Z;
  outstanding : Z;
  ewma : list Z;
  entries : list journalRepairEntry;
}.

Definition with_entries (budget : t) (outstanding : Z) (ewma : list Z) (entries : list journalRepairEntry) : t :=
  mk (active budget) (local budget) (capacity budget) outstanding ewma entries.

Definition newJournalRepairBudget (active local : Z) : result config_error t :=
  if (active =? 0) || (ActiveMax <? active) || (MembersMax <=? local) then Err ErrInvalidConfiguration else
  let peers := if local <? active then u8 (active - 1) else active in
  Ok (mk active local (u8 (peers * journalRepairsPerPeer)) 0
        (replicate (Z.to_nat active) Millisecond ++ replicate (Z.to_nat (ActiveMax - active)) 0)
        (replicate (Z.to_nat (ActiveMax * journalRepairsPerPeer)) journalRepairEntry.zero)).

Definition ewmaOf (budget : t) (peer : Z) : Z := default 0 (ewma budget !! Z.to_nat peer).

(** The entries that count against [peer]. *)
Definition at_peer (peer : Z) (entry : journalRepairEntry) : bool :=
  journalRepairEntry.busy entry && (journalRepairEntry.peer entry =? peer).

Definition peerEligible (budget : t) (peer op : Z) : bool :=
  let same := filter (fun entry => at_peer peer entry = true) (entries budget) in
  negb (existsb (fun entry => journalRepairEntry.op entry =? op) same) && (zlen same <? journalRepairsPerPeer).

Definition observe (ewma : list Z) (peer sample : Z) : list Z :=
  let sample := Z.max 1 sample in
  let old := default 0 (ewma !! Z.to_nat peer) in
  <[Z.to_nat peer := u64 (u64 (old / 5 * 4) + u64 (old mod 5 * 4 + sample) / 5)]> ewma.

Definition busyCount (entries : list journalRepairEntry) : Z :=
  zlen (filter (fun entry => journalRepairEntry.busy entry = true) entries).

Definition assertInvariant (budget : t) : bool :=
  (outstanding budget <=? capacity budget) && (u8 (busyCount (entries budget)) =? outstanding budget).

Definition asserted (budget : t) : option t := if assertInvariant budget then Some budget else None.

(** The loop of [Reserve] over the peers: the peer found, with its average,
    and the number of eligible peers so far. *)
Fixpoint select_peer (fuel : nat) (budget : t) (op : Z) (explore : bool) (peers : list Z)
    (random : DeterministicRandom) (eligible : Z) (found : option (Z * Z))
    : option (DeterministicRandom * option (Z * Z)) :=
  match peers with
  | [] => Some (random, found)
  | peer :: peers =>
      if (peer =? local budget) || negb (peerEligible budget peer op)
      then select_peer fuel budget op explore peers random eligible found
      else
        let eligible := u64 (eligible + 1) in
        if explore then
          drawn ← Uniform fuel random eligible;
          let '(random, value) := drawn in
          select_peer fuel budget op explore peers random eligible
            (if value =? 0 then Some (peer, MaxUint64) else found)
        else
          let average := ewmaOf budget peer in
          select_peer fuel budget op explore peers random eligible
            (match found with
             | None => Some (peer, average)
             | Some (_, selectedEWMA) => if average <? selectedEWMA then Some (peer, average) else found
             end)
  end.

Definition Reserve (fuel : nat) (budget : t) (op now : Z) (random : option DeterministicRandom)
    : option (t * option DeterministicRandom * option Z) :=
  match random with
  | None => Some (budget, random, None)
  | Some generator =>
      if outstanding budget =? capacity budget then Some (budget, random, None) else
      drawn ← Uniform fuel generator 10;
      let '(generator, value) := drawn in
      selection ← select_peer fuel budget op (value =? 0) (seqZ 0 (active budget)) generator 0 None;
      match selection with
      | (generator, None) => Some (budget, Some generator, None)
      | (generator, Some (selected, _)) =>
          free ← list_find (fun entry => journalRepairEntry.busy entry = false) (entries budget);
          budget ← asserted (with_entries budget (u8 (outstanding budget + 1)) (ewma budget)
            (<[free.1 := journalRepairEntry.mk true selected op now]> (entries budget)));
          Some (budget, Some generator, Some selected)
      end
  end.

(** The entries one by one: those [abandon] holds of are observed and freed. *)
Fixpoint free_entries (abandon : list Z -> journalRepairEntry -> bool) (now : Z) (ewma : list Z)
    (entries : list journalRepairEntry) : list Z * list journalRepairEntry * Z :=
  match entries with
  | [] => (ewma, [], 0)
  | entry :: entries =>
      if abandon ewma entry then
        let '(ewma, entries, freed) := free_entries abandon now
          (observe ewma (journalRepairEntry.peer entry) (elapsedSince (journalRepairEntry.started entry) now)) entries in
        (ewma, journalRepairEntry.zero :: entries, freed + 1)
      else
        let '(ewma, entries, freed) := free_entries abandon now ewma entries in (ewma, entry :: entries, freed)
  end.

Definition release (abandon : list Z -> journalRepairEntry -> bool) (budget : t) (now : Z) : option (t * Z) :=
  let '(ewma, entries, freed) := free_entries abandon now (ewma budget) (entries budget) in
  budget ← asserted (with_entries budget (u8 (outstanding budget - u8 freed)) ewma entries);
  Some (budget, u8 freed).

Definition Complete (budget : t) (op now : Z) : option (t * Z) :=
  release (fun _ entry => journalRepairEntry.busy entry && (journalRepairEntry.op entry =? op)) budget now.

Definition deadline (average : Z) : Z :=
  let deadline := 500 * Millisecond in
  if average <? deadline / 2 then u64 (2 * average) else deadline.

Definition Expire (budget : t) (now : Z) : option (t * Z) :=
  release (fun ewma entry => journalRepairEntry.busy entry &&
    (deadline (default 0 (ewma !! Z.to_nat (journalRepairEntry.peer entry)))
     <=? elapsedSince (journalRepairEntry.started entry) now)) budget now.

Definition Reset (budget : t) : option t :=
  asserted (with_entries budget 0 (ewma budget) ((fun _ => journalRepairEntry.zero) <$> entries budget)).
End journalRepairBudget.
Abbreviation journalRepairBudget := journalRepairBudget.t.

Import journalRepairBudget.

(** ** Counting requests *)

Definition requests_at (peer : Z) (l : list journalRepairEntry) : list journalRepairEntry :=
  filter (fun entry => at_peer peer entry = true) l.

Definition busy_entries (l : list journalRepairEntry) : list journalRepairEntry :=
  filter (fun entry => journalRepairEntry.busy entry = true) l.

Lemma filter_length_split {A} (P : A -> bool) (l : list A) :
  zlen l = zlen (filter (fun x => P x = true) l) + zlen (filter (fun x => P x = false) l).
Proof.
  unfold zlen. induction l as [|x l IH]; [done|]. rewrite !filter_cons. cbn [length].
  destruct (P x); repeat case_decide; try done; cbn [length]; lia.
Qed.

Lemma requests_sublist peer l k : sublist l k -> sublist (requests_at peer l) (requests_at peer k).
Proof.
  unfold requests_at. induction 1 as [|x l k Hs IH|x l k Hs IH]; rewrite ?filter_cons; [done| |]; case_decide; try done.
  - by apply sublist_skip.
  - by apply sublist_cons.
Qed.

(** No more than two requests per peer. *)
Lemma requests_bound l peers :
  (forall e, e ∈ l -> journalRepairEntry.busy e = true /\ journalRepairEntry.peer e ∈ peers) ->
  (forall peer, zlen (requests_at peer l) <= 2) -> zlen l <= 2 * zlen peers.
Proof.
  revert l. induction peers as [|p peers IH]; intros l Hin Hc.
  - destruct l as [|e l]; [done|]. destruct (Hin e) as [_ Hp]; [by left|]. by apply not_elem_of_nil in Hp.
  - rewrite (filter_length_split (at_peer p) l), zlen_cons. specialize (Hc p) as Hcp. unfold requests_at in Hcp.
    assert (zlen (filter (fun x => at_peer p x = false) l) <= 2 * zlen peers); [|lia].
    apply IH.
    + intros e [He Hl]%list_elem_of_filter. destruct (Hin e Hl) as [Hb [Ep|Hp]%elem_of_cons]; [|done].
      unfold at_peer in He. rewrite Hb, Ep, Z.eqb_refl in He. done.
    + intros q. specialize (Hc q). enough (zlen (requests_at q (filter (fun x => at_peer p x = false) l)) <= zlen (requests_at q l)) by lia.
      unfold zlen. apply inj_le, sublist_length, requests_sublist, sublist_filter.
Qed.

(** ** The invariant *)

Definition peerCount (b : journalRepairBudget) : Z := if local b <? active b then active b - 1 else active b.

Record wf_budget (b : journalRepairBudget) : Prop := {
  wb_active : 1 <= active b <= ActiveMax;
  wb_local : 0 <= local b;
  wb_capacity : capacity b = 2 * peerCount b;
  wb_length : zlen (entries b) = 12 /\ zlen (ewma b) = ActiveMax;
  wb_ewma : Forall (fun average : Z => is_u64 average) (ewma b);
  wb_outstanding : outstanding b = busyCount (entries b);
  wb_peers : forall e, e ∈ entries b -> journalRepairEntry.busy e = true ->
    0 <= journalRepairEntry.peer e < active b /\ journalRepairEntry.peer e <> local b;
  wb_each : forall peer, zlen (requests_at peer (entries b)) <= 2 /\
    NoDup (journalRepairEntry.op <$> requests_at peer (entries b));
}.

Definition other_peers (b : journalRepairBudget) : list Z := filter (fun peer => peer <> local b) (seqZ 0 (active b)).

Lemma zlen_without n x :
  0 <= n -> zlen (filter (fun y => y <> x) (seqZ 0 n)) = if (0 <=? x) && (x <? n) then n - 1 else n.
Proof.
  revert n. apply natlike_ind; [destruct (Z.leb_spec 0 x), (Z.ltb_spec x 0); done || lia|]. intros n Hn IH.
  unfold Z.succ. rewrite seqZ_app, filter_app, zlen_app, IH by lia. replace (seqZ (0 + n) 1) with [n] by (by rewrite seqZ_cons by lia).
  rewrite filter_cons, filter_nil. destruct (Z.leb_spec 0 x), (Z.ltb_spec x n), (Z.ltb_spec x (n + 1)); cbn [andb]; case_decide;
    cbn [zlen length]; unfold zlen; cbn; lia.
Qed.

Lemma zlen_other_peers b : wf_budget b -> zlen (other_peers b) = peerCount b.
Proof.
  intros Hw. destruct (wb_active _ Hw). pose proof (wb_local _ Hw). unfold other_peers, peerCount.
  rewrite zlen_without, (proj2 (Z.leb_le 0 (local b))) by lia. done.
Qed.

Lemma elem_busy e l : e ∈ busy_entries l <-> e ∈ l /\ journalRepairEntry.busy e = true.
Proof. unfold busy_entries. rewrite list_elem_of_filter. naive_solver. Qed.

Lemma requests_busy peer l : requests_at peer (busy_entries l) = requests_at peer l.
Proof.
  unfold requests_at, busy_entries. induction l as [|e l IH]; [done|].
  rewrite (filter_cons _ e l), (filter_cons (fun x => at_peer peer x = true) e l).
  destruct (decide (journalRepairEntry.busy e = true)) as [Eb|Eb].
  - rewrite filter_cons. destruct (decide (at_peer peer e = true)); by rewrite IH.
  - rewrite decide_False by (unfold at_peer; by destruct (journalRepairEntry.busy e)). apply IH.
Qed.

Lemma busy_bound b : wf_budget b -> busyCount (entries b) <= capacity b.
Proof.
  intros Hw. rewrite (wb_capacity _ Hw), <- (zlen_other_peers b Hw). apply requests_bound.
  - intros e [He Hb]%elem_busy. split; [done|]. destruct (wb_peers _ Hw e He Hb).
    apply list_elem_of_filter. split; [done|]. apply elem_of_seqZ. lia.
  - intros peer. rewrite requests_busy. apply (wb_each _ Hw).
Qed.

(** A full budget has no eligible peer. *)
Lemma full_ineligible b peer op :
  wf_budget b -> outstanding b = capacity b -> 0 <= peer < active b -> peer <> local b -> peerEligible b peer op = false.
Proof.
  intros Hw Hf Hp Hl. destruct (peerEligible b peer op) eqn:Ee; [|done]. exfalso.
  unfold peerEligible in Ee. apply andb_prop in Ee as [_ Hlt%Z.ltb_lt]. fold (requests_at peer (entries b)) in Hlt.
  set (e := journalRepairEntry.mk true peer 0 0).
  assert (zlen (e :: busy_entries (entries b)) <= 2 * zlen (other_peers b)) as Hb.
  { apply requests_bound.
    - intros x [->|[He Hb]%elem_busy]%elem_of_cons; (split; [done|]); apply list_elem_of_filter, conj; rewrite ?elem_of_seqZ; cbn; try lia.
      + by destruct (wb_peers _ Hw x He Hb).
      + destruct (wb_peers _ Hw x He Hb). lia.
    - intros q. unfold requests_at. rewrite filter_cons. fold (requests_at q (busy_entries (entries b))). rewrite requests_busy.
      case_decide as Hq; [|apply (wb_each _ Hw)]. unfold at_peer in Hq. cbn in Hq. apply Z.eqb_eq in Hq as <-.
      rewrite zlen_cons. change journalRepairsPerPeer with 2 in Hlt. lia. }
  rewrite zlen_cons, (zlen_other_peers b Hw), <- (wb_capacity _ Hw), <- Hf, (wb_outstanding _ Hw) in Hb.
  unfold busyCount in Hb. fold (busy_entries (entries b)) in Hb. lia.
Qed.

(** ** Releasing requests *)

(** [l'] is [l] with some busy entries cleared, each of which [gone] holds of,
    and no entry kept that must go. *)
Inductive cleared (gone kept : journalRepairEntry -> Prop) : list journalRepairEntry -> list journalRepairEntry -> Prop :=
| cleared_nil : cleared gone kept [] []
| cleared_gone e l l' : gone e -> journalRepairEntry.busy e = true -> cleared gone kept l l' ->
    cleared gone kept (e :: l) (journalRepairEntry.zero :: l')
| cleared_kept e l l' : kept e -> cleared gone kept l l' -> cleared gone kept (e :: l) (e :: l').

Lemma cleared_spec gone kept l l' :
  cleared gone kept l l' ->
  zlen l' = zlen l /\ busyCount l' <= busyCount l /\
  (forall e, e ∈ l' -> journalRepairEntry.busy e = true -> e ∈ l /\ kept e) /\
  forall peer, sublist (requests_at peer l') (requests_at peer l).
Proof.
  unfold busyCount, requests_at. induction 1 as [|e l l' Hg Hb Hc (Hl & Hn & He & Hs)|e l l' Hk Hc (Hl & Hn & He & Hs)].
  - split_and!; try done. by intros e ?%not_elem_of_nil.
  - rewrite !zlen_cons, !(filter_cons _ e). rewrite (decide_True (P := journalRepairEntry.busy e = true)), zlen_cons by done.
    rewrite filter_cons, decide_False by done. split_and!; [lia|lia| |].
    + intros x [->|Hx]%elem_of_cons Hbx; [done|]. destruct (He x Hx Hbx). split; [by right|done].
    + intros peer. rewrite (filter_cons _ journalRepairEntry.zero), (filter_cons _ e), decide_False by done.
      case_decide; [by apply sublist_cons|done].
  - rewrite !zlen_cons. split_and!; [lia| | |].
    + rewrite !(filter_cons _ e). case_decide; rewrite ?zlen_cons; lia.
    + intros x [->|Hx]%elem_of_cons Hbx; [split; [by left|done]|]. destruct (He x Hx Hbx). split; [by right|done].
    + intros peer. rewrite !(filter_cons _ e). case_decide; [by apply sublist_skip|done].
Qed.

Definition passed_over (abandon : list Z -> journalRepairEntry -> bool) (e : journalRepairEntry) : Prop :=
  exists ewma, Forall (fun average : Z => is_u64 average) ewma /\ abandon ewma e = false.

Lemma observe_u64 average peer sample :
  Forall (fun a : Z => is_u64 a) average -> Forall (fun a : Z => is_u64 a) (observe average peer sample).
Proof. intros Ha. unfold observe. apply Forall_insert; [done|]. by apply uwrap_range. Qed.

Lemma free_entries_spec abandon now average l average' l' freed :
  (forall ewma e, abandon ewma e = true -> journalRepairEntry.busy e = true) ->
  Forall (fun a : Z => is_u64 a) average -> free_entries abandon now average l = (average', l', freed) ->
  cleared (fun e => exists ewma, abandon ewma e = true) (passed_over abandon) l l' /\
  busyCount l' = busyCount l - freed /\ 0 <= freed <= zlen l /\ zlen average' = zlen average /\
  Forall (fun a : Z => is_u64 a) average'.
Proof.
  intros Hb. revert average average' l' freed. induction l as [|e l IH]; intros average average' l' freed Hu E; cbn [free_entries] in E.
  { injection E as <- <- <-. split_and!; try done. constructor. }
  unfold busyCount in *. rewrite zlen_cons. destruct (abandon average e) eqn:Eg.
  - destruct (free_entries abandon now _ l) as [[a k] n] eqn:Ef. injection E as <- <- <-.
    destruct (IH _ _ _ _ (observe_u64 _ _ _ Hu) Ef) as (Hc & Hn & Hf & Ha & Hu'). rewrite !filter_cons, decide_False, decide_True, zlen_cons by (by eapply Hb || done).
    split_and!; [|lia|lia|lia| |done]. { apply cleared_gone; [by eexists|by eapply Hb|done]. }
    rewrite Ha. unfold observe, zlen. by rewrite length_insert.
  - destruct (free_entries abandon now average l) as [[a k] n] eqn:Ef. injection E as <- <- <-.
    destruct (IH _ _ _ _ Hu Ef) as (Hc & Hn & Hf & Ha & Hu'). split_and!; [| |lia|lia|done|done].
    { apply cleared_kept; [by exists average|done]. }
    rewrite !filter_cons. case_decide; rewrite ?zlen_cons; lia.
Qed.

Lemma ops_sublist (l k : list journalRepairEntry) :
  sublist l k -> sublist (journalRepairEntry.op <$> l) (journalRepairEntry.op <$> k).
Proof. induction 1; cbn; by constructor. Qed.

Lemma busyCount_range l : 0 <= busyCount l <= zlen l.
Proof. unfold busyCount, zlen. pose proof (length_filter (fun e => journalRepairEntry.busy e = true) l). lia. Qed.

(** No assertion fails when requests are released. *)
Lemma release_spec abandon b now :
  (forall ewma e, abandon ewma e = true -> journalRepairEntry.busy e = true) -> wf_budget b ->
  exists b' n, release abandon b now = Some (b', n) /\ wf_budget b' /\
    cleared (fun e => exists ewma, abandon ewma e = true) (passed_over abandon) (entries b) (entries b') /\
    outstanding b' = outstanding b - n /\ active b' = active b /\ local b' = local b.
Proof.
  intros Hb Hw. unfold release. destruct (free_entries abandon now (ewma b) (entries b)) as [[average l] freed] eqn:Ef.
  apply free_entries_spec in Ef as (Hc & Hn & Hf & Ha & Hu); [|done|apply Hw]. destruct (wb_length _ Hw) as [Hl He].
  pose proof (busyCount_range l) as Hr. pose proof (busyCount_range (entries b)) as Hr'. pose proof (busy_bound b Hw) as Hbound.
  pose proof (wb_outstanding _ Hw) as Ho. destruct (cleared_spec _ _ _ _ Hc) as (Hlen & _ & Hin & Hsub).
  rewrite (uwrap_small 8 freed), (uwrap_small 8 (outstanding b - freed)) by width_lia.
  set (b' := with_entries b (outstanding b - freed) average l).
  assert (assertInvariant b' = true) as Hai.
  { unfold assertInvariant, b'. cbn. rewrite (uwrap_small 8 (busyCount l)) by width_lia.
    apply andb_true_intro. split; [apply Z.leb_le|apply Z.eqb_eq]; lia. }
  exists b', freed. unfold asserted. rewrite Hai. split; [done|]. split; [|done].
  split; try apply Hw; cbn; [lia|done|lia| |].
  - intros e Hin' Hbusy. destruct (Hin e Hin' Hbusy) as [He' _]. by apply (wb_peers _ Hw).
  - intros peer. destruct (wb_each _ Hw peer) as [Hz Hd]. specialize (Hsub peer). split.
    + etrans; [|exact Hz]. unfold zlen. by apply inj_le, sublist_length.
    + eapply sublist_NoDup; [exact Hd|]. by apply ops_sublist.
Qed.

(** ** Reserving *)

Definition eligible_peer (b : journalRepairBudget) (op peer : Z) : Prop :=
  peer <> local b /\ peerEligible b peer op = true.

(** The choice among [peers]: an eligible one when there is one, and without
    exploration one whose average is smallest. *)
Definition choice_ok (b : journalRepairBudget) (op : Z) (explore : bool) (peers : list Z) (found : option (Z * Z)) : Prop :=
  match found with
  | None => forall peer, peer ∈ peers -> ~ eligible_peer b op peer
  | Some (peer, average) => peer ∈ peers /\ eligible_peer b op peer /\
      (explore = false -> average = ewmaOf b peer /\ forall q, q ∈ peers -> eligible_peer b op q -> ewmaOf b peer <= ewmaOf b q)
  end.

Lemma elem_snoc (x y : Z) l : x ∈ l ++ [y] -> x ∈ l \/ x = y.
Proof. set_solver. Qed.

Lemma choice_skip b op explore before peer found :
  choice_ok b op explore before found -> ~ eligible_peer b op peer -> choice_ok b op explore (before ++ [peer]) found.
Proof.
  intros Hc Hn. destruct found as [[q a]|].
  - destruct Hc as (Hq & He & Hm). split_and!; [set_solver|done|]. intros Hx. destruct (Hm Hx) as [? Hmin]. split; [done|].
    intros x [Hx'| ->]%elem_snoc Hex; [by apply Hmin|done].
  - intros x [Hx'| ->]%elem_snoc; [by apply Hc|done].
Qed.

Lemma select_peer_spec b op explore peers before random eligible found :
  wf_random random -> 0 <= eligible <= zlen before -> zlen before + zlen peers <= 6 ->
  (found = None -> eligible = 0) -> choice_ok b op explore before found ->
  exists fuel random' found', (forall more, (fuel <= more)%nat ->
      select_peer more b op explore peers random eligible found = Some (random', found')) /\
    wf_random random' /\ choice_ok b op explore (before ++ peers) found'.
Proof.
  revert before random eligible found. induction peers as [|peer peers IH]; intros before random eligible found Hr He Hl H0 Hc.
  { exists 0%nat, random, found. rewrite app_nil_r. by split_and!. }
  rewrite zlen_cons in Hl. pose proof (zlen_nonneg peers).
  replace (before ++ peer :: peers) with ((before ++ [peer]) ++ peers) by by rewrite <- app_assoc.
  cbn [select_peer]. destruct ((peer =? local b) || negb (peerEligible b peer op)) eqn:Eg.
  { apply IH; [done|rewrite zlen_app; change (zlen [peer]) with 1; lia..|done|].
    apply choice_skip; [done|]. intros [Hne Hel]. rewrite Hel, orb_false_r in Eg. by apply Z.eqb_eq in Eg. }
  apply orb_false_iff in Eg as [Hne%Z.eqb_neq Hel%negb_false_iff]. assert (eligible_peer b op peer) as Hep by done.
  rewrite (uwrap_small 64 (eligible + 1)) by width_lia. destruct explore.
  - destruct (uniform_result random (eligible + 1) Hr) as (f1 & r1 & v & _ & E1 & Hr1 & Hv); [width_lia|].
    destruct (IH (before ++ [peer]) r1 (eligible + 1) (if v =? 0 then Some (peer, MaxUint64) else found)) as (f2 & r2 & found' & E2 & Hr2 & Hc2).
    + done.
    + rewrite zlen_app. change (zlen [peer]) with 1. lia.
    + rewrite zlen_app. change (zlen [peer]) with 1. lia.
    + destruct (Z.eqb_spec v 0); [done|]. intros Hf. specialize (H0 Hf). lia.
    + destruct (Z.eqb_spec v 0); [split_and!; [set_solver|done|done]|]. destruct found as [[q a]|]; [|specialize (H0 eq_refl); lia].
      destruct Hc as (? & ? & _). split_and!; [set_solver|done|done].
    + exists (Nat.max f1 f2), r2, found'. split_and!; [|done|done]. intros more Hm. rewrite E1 by lia. cbn. apply E2. lia.
  - apply IH; [done|rewrite zlen_app; change (zlen [peer]) with 1; lia..| |].
    + intros Hf. destruct found as [[q a]|]; [case_match; done|done].
    + destruct found as [[q a]|].
      * destruct Hc as (Hq & Heq & Hm). destruct (Hm eq_refl) as [-> Hmin]. destruct (Z.ltb_spec (ewmaOf b peer) (ewmaOf b q)).
        -- split_and!; [set_solver|done|]. intros _. split; [done|].
           intros x [Hx| ->]%elem_snoc Hex; [specialize (Hmin x Hx Hex)|]; lia.
        -- split_and!; [set_solver|done|]. intros _. split; [done|].
           intros x [Hx| ->]%elem_snoc Hex; [by apply Hmin|lia].
      * split_and!; [set_solver|done|]. intros _. split; [done|].
        intros x [Hx| ->]%elem_snoc Hex; [by destruct (Hc x Hx)|lia].
Qed.

(** Filling a free entry with a request of an eligible peer. *)
Lemma occupy_spec b i e peer op now :
  wf_budget b -> entries b !! i = Some e -> journalRepairEntry.busy e = false -> outstanding b <> capacity b ->
  0 <= peer < active b -> eligible_peer b op peer ->
  let b' := with_entries b (u8 (outstanding b + 1)) (ewma b) (<[i := journalRepairEntry.mk true peer op now]> (entries b)) in
  assertInvariant b' = true /\ wf_budget b' /\ outstanding b' = outstanding b + 1.
Proof.
  intros Hw Hi Hb Ho Hp [Hne Hel] b'. set (x := journalRepairEntry.mk true peer op now) in *.
  pose proof (take_drop_middle _ _ _ Hi) as El. pose proof (insert_take_drop (entries b) i x) as Ei.
  subst b'. cbn zeta. rewrite Ei by (by apply lookup_lt_Some in Hi). clear Ei.
  set (before := take i (entries b)) in *. set (after := drop (S i) (entries b)) in *.
  set (b' := with_entries _ _ _ _).
  pose proof (busy_bound b Hw) as Hbound. pose proof (busyCount_range (entries b)) as Hr. destruct (wb_length _ Hw) as [Hlen Hew].
  pose proof (wb_outstanding _ Hw) as Hout.
  assert (busyCount (before ++ x :: after) = busyCount (entries b) + 1) as Hcount.
  { rewrite <- El. unfold busyCount. rewrite !filter_app, !filter_cons, decide_True, decide_False by (done || by rewrite Hb).
    rewrite !zlen_app, zlen_cons. lia. }
  assert (outstanding b' = outstanding b + 1) as Ho' by (unfold b'; cbn; rewrite uwrap_small by width_lia; done).
  assert (forall q, requests_at q (entries b) = requests_at q before ++ requests_at q after) as Hold.
  { intros q. rewrite <- El. unfold requests_at, at_peer. rewrite filter_app, filter_cons, decide_False by by rewrite Hb. done. }
  unfold peerEligible in Hel. apply andb_prop in Hel as [Hop%negb_true_iff Hlt%Z.ltb_lt].
  fold (requests_at peer (entries b)) in Hop, Hlt. change journalRepairsPerPeer with 2 in Hlt. rewrite Hold in Hop, Hlt.
  split; [|split; [|done]].
  { unfold assertInvariant. rewrite Ho'. unfold b'. cbn. rewrite Hcount, uwrap_small by width_lia.
    apply andb_true_intro. split; [apply Z.leb_le|apply Z.eqb_eq]; lia. }
  split; try apply Hw; [|rewrite Ho'; cbn; lia| |].
  - cbn. rewrite <- Hlen, <- El. by rewrite !zlen_app, !zlen_cons.
  - cbn. intros y Hy Hby. apply elem_of_app in Hy as [Hy|[->|Hy]%elem_of_cons]; [|done|].
    + apply (wb_peers _ Hw); [rewrite <- El; set_solver|done].
    + apply (wb_peers _ Hw); [rewrite <- El; set_solver|done].
  - cbn. intros q. destruct (wb_each _ Hw q) as [Hz Hd]. rewrite Hold in Hz, Hd. unfold requests_at.
    rewrite filter_app, filter_cons. fold (requests_at q before) (requests_at q after).
    case_decide as Hq; [|done]. unfold at_peer in Hq. cbn in Hq. apply Z.eqb_eq in Hq as <-.
    rewrite zlen_app, zlen_cons in *. split; [lia|].
    rewrite fmap_app, fmap_cons. rewrite fmap_app in Hd. apply NoDup_app in Hd as (Hd1 & Hd2 & Hd3).
    apply (NoDup_Permutation_proper _ (op :: (journalRepairEntry.op <$> requests_at peer before ++ requests_at peer after)));
      [by rewrite fmap_app, Permutation_middle|]. apply NoDup_cons. split; [|rewrite fmap_app; by apply NoDup_app].
    intros (y & Ey & Hy)%list_elem_of_fmap. apply not_true_iff_false in Hop. apply Hop, existsb_exists. exists y.
    split; [by apply list_elem_of_In|]. by apply Z.eqb_eq.
Qed.

(** A generator that answers within [n] outputs does so within more. *)
Lemma Uniform_more n m random bound out :
  Uniform n random bound = Some out -> (n <= m)%nat -> Uniform m random bound = Some out.
Proof. unfold Uniform. case_match; [done|]. apply loop_more. Qed.

Lemma select_more n m b op explore peers random eligible found out :
  select_peer n b op explore peers random eligible found = Some out -> (n <= m)%nat ->
  select_peer m b op explore peers random eligible found = Some out.
Proof.
  intros E Hm. revert random eligible found E. induction peers as [|peer peers IH]; intros random eligible found E; [done|].
  cbn [select_peer] in *. case_match; [by apply IH|]. destruct explore; [|by apply IH].
  destruct (Uniform n random _) as [[r v]|] eqn:Eu; [|done]. rewrite (Uniform_more n m _ _ _ Eu Hm). cbn in *. by apply IH.
Qed.

Lemma Reserve_more n m b op now random out :
  Reserve n b op now random = Some out -> (n <= m)%nat -> Reserve m b op now random = Some out.
Proof.
  intros E Hm. unfold Reserve in *. destruct random as [g|]; [|done]. case_match; [done|].
  destruct (Uniform n g 10) as [[r v]|] eqn:Eu; [|done]. rewrite (Uniform_more n m _ _ _ Eu Hm). cbn in *.
  destruct (select_peer n _ _ _ _ _ _ _) as [sel|] eqn:Es; [|done]. by rewrite (select_more n m _ _ _ _ _ _ _ _ Es Hm).
Qed.

Lemma Reserve_ok b op now random :
  wf_budget b -> wf_random random ->
  exists fuel b' random' r, (forall more, (fuel <= more)%nat -> Reserve more b op now (Some random) = Some (b', Some random', r)) /\
    wf_budget b' /\ wf_random random' /\
    match r with
    | Some peer => 0 <= peer < active b /\ eligible_peer b op peer /\ outstanding b' = outstanding b + 1
    | None => b' = b /\ forall peer, 0 <= peer < active b -> ~ eligible_peer b op peer
    end.
Proof.
  intros Hw Hr. pose proof (busy_bound b Hw). pose proof (wb_outstanding _ Hw). destruct (wb_active _ Hw). unfold Reserve.
  destruct (Z.eqb_spec (outstanding b) (capacity b)) as [Hf|Hf].
  { exists 0%nat, b, random, None. split_and!; try done. intros peer Hp [Hne Hel]. by rewrite full_ineligible in Hel. }
  destruct (uniform_result random 10 Hr) as (f1 & r1 & v & _ & E1 & Hr1 & _); [width_lia|].
  destruct (select_peer_spec b op (v =? 0) (seqZ 0 (active b)) [] r1 0 None) as (f2 & r2 & found & E2 & Hr2 & Hc); try done.
  { change (zlen (@nil Z)) with 0. unfold zlen. rewrite length_seqZ. change ActiveMax with 6 in *. lia. }
  { intros peer Hp. by apply not_elem_of_nil in Hp. }
  cbn [app] in Hc. destruct found as [[peer average]|].
  - destruct Hc as (Hp%elem_of_seqZ & He & _).
    assert (exists i e, list_find (fun x => journalRepairEntry.busy x = false) (entries b) = Some (i, e)) as (i & e & Efind).
    { destruct (list_find _ (entries b)) as [[i e]|] eqn:En; [by exists i, e|]. exfalso. apply list_find_None in En.
      assert (busyCount (entries b) = zlen (entries b)) as Eall.
      { clear - En. unfold busyCount, zlen. induction En as [|x l Hx Hl IH]; [done|]. rewrite filter_cons.
        rewrite decide_True by (by destruct (journalRepairEntry.busy x)). cbn [length]. lia. }
      destruct (wb_length _ Hw). pose proof (wb_capacity _ Hw).
      unfold peerCount in *. change ActiveMax with 6 in *. destruct (local b <? active b); lia. }
    pose proof Efind as (Hi & Hb & _)%list_find_Some.
    destruct (occupy_spec b i e peer op now) as (Ha & Hw' & Ho'); try (done || lia).
    eexists (Nat.max f1 f2), _, r2, (Some peer). split; [|split; [exact Hw'|split; [done|split_and!; lia || done]]].
    intros more Hm. rewrite E1 by lia. cbn. rewrite E2 by lia. cbn. rewrite Efind. cbn. unfold asserted. by rewrite Ha.
  - exists (Nat.max f1 f2), b, r2, None. split; [|split_and!; try done].
    + intros more Hm. rewrite E1 by lia. cbn. by rewrite E2 by lia.
    + intros peer Hp. apply Hc, elem_of_seqZ. lia.
Qed.

(** ** The budget of a running replica *)

Inductive budget_reachable : journalRepairBudget -> Prop :=
| budget_new active local b :
    is_u8 active -> is_u8 local -> newJournalRepairBudget active local = Ok b -> budget_reachable b
| budget_reserve b fuel op now random b' random' r :
    budget_reachable b -> wf_random random -> Reserve fuel b op now (Some random) = Some (b', random', r) -> budget_reachable b'
| budget_complete b op now b' n : budget_reachable b -> Complete b op now = Some (b', n) -> budget_reachable b'
| budget_expire b now b' n : budget_reachable b -> Expire b now = Some (b', n) -> budget_reachable b'
| budget_reset b b' : budget_reachable b -> Reset b = Some b' -> budget_reachable b'.

Lemma new_budget active local b :
  is_u8 active -> is_u8 local -> newJournalRepairBudget active local = Ok b -> wf_budget b.
Proof.
  intros Ha Hl E. unfold newJournalRepairBudget in E. step_guards E. split_bool. injection E as <-. change ActiveMax with 6 in *.
  split; cbn; unfold ActiveMax.
  - width_lia.
  - width_lia.
  - unfold peerCount. cbn. change journalRepairsPerPeer with 2. destruct (local <? active); rewrite ?(uwrap_small 8 (active - 1)) by width_lia;
      rewrite uwrap_small by width_lia; lia.
  - split; [done|]. rewrite zlen_app. unfold zlen. rewrite !length_replicate. width_lia.
  - apply Forall_app. split; by apply Forall_replicate.
  - done.
  - intros e He Hb. apply (elem_of_replicate 12 journalRepairEntry.zero) in He as [-> _]. done.
  - intros peer. change (requests_at peer _) with (@nil journalRepairEntry). split; [done|constructor].
Qed.

Lemma Reset_ok b : wf_budget b -> exists b', Reset b = Some b' /\ wf_budget b' /\ outstanding b' = 0.
Proof.
  intros Hw. destruct (wb_length _ Hw) as [Hl He]. set (l := (fun _ => journalRepairEntry.zero) <$> entries b).
  assert (forall e, e ∈ l -> e = journalRepairEntry.zero) as Hz by (intros e (x & -> & _)%list_elem_of_fmap; done).
  assert (busyCount l = 0) as Hb.
  { unfold busyCount, zlen. replace (filter _ l) with (@nil journalRepairEntry); [done|]. symmetry. clear - Hz.
    induction l as [|e l IH]; [done|]. rewrite filter_cons, (Hz e), decide_False by (done || by left). apply IH. set_solver. }
  exists (with_entries b 0 (ewma b) l). pose proof (busy_bound b Hw). pose proof (busyCount_range (entries b)).
  split; [|split; [|done]].
  - unfold Reset, asserted, assertInvariant. cbn. fold l. rewrite Hb. by rewrite (proj2 (Z.leb_le 0 (capacity b))) by lia.
  - split; try apply Hw; cbn.
    + split; [|done]. unfold l, zlen in *. by rewrite length_fmap.
    + done.
    + intros e He' Hbe. rewrite (Hz e He') in Hbe. done.
    + intros peer. change (zlen (requests_at peer l) <= 2 /\ NoDup (journalRepairEntry.op <$> requests_at peer l)).
      assert (requests_at peer l = []) as ->; [|split; [done|constructor]].
      unfold requests_at. clear - Hz. induction l as [|e l IH]; [done|].
      rewrite filter_cons, (Hz e), decide_False by (done || by left). apply IH. set_solver.
Qed.

(** ** Which requests are freed, and what it does to the averages *)

Definition renewed (average sample : Z) : Z :=
  u64 (u64 (average / 5 * 4) + u64 (average mod 5 * 4 + Z.max 1 sample) / 5).

(** The average response time of [peer] after the requests of [l] that [test]
    frees have been observed, one after the other. *)
Definition average_after (test : Z -> journalRepairEntry -> bool) (now average peer : Z) (l : list journalRepairEntry) : Z :=
  fold_left (fun average e =>
      if test average e then renewed average (elapsedSince (journalRepairEntry.started e) now) else average)
    (requests_at peer l) average.

(** Exactly the requests [test] holds of are freed, each judged by the average
    its peer has when its turn comes; their response times are observed. *)
Definition freed_by (test : Z -> journalRepairEntry -> bool) (now : Z) (b b' : journalRepairBudget) : Prop :=
  (forall i e, entries b !! i = Some e ->
     entries b' !! i = Some
       (if journalRepairEntry.busy e
           && test (average_after test now (ewmaOf b (journalRepairEntry.peer e)) (journalRepairEntry.peer e)
                      (take i (entries b))) e
        then journalRepairEntry.zero else e)) /\
  forall peer, 0 <= peer < ActiveMax ->
    ewmaOf b' peer = average_after test now (ewmaOf b peer) peer (entries b).

Lemma observe_lookup average peer sample p :
  0 <= peer < zlen average -> 0 <= p ->
  default 0 (observe average peer sample !! Z.to_nat p)
  = if p =? peer then renewed (default 0 (average !! Z.to_nat p)) sample else default 0 (average !! Z.to_nat p).
Proof.
  intros Hp H0. unfold observe, zlen in *. destruct (Z.eqb_spec p peer) as [->|Hne].
  - rewrite list_lookup_insert_eq by lia. done.
  - rewrite list_lookup_insert_ne by lia. done.
Qed.

Lemma average_after_cons test now average peer e l :
  average_after test now average peer (e :: l) =
  average_after test now
    (if at_peer peer e && test average e
     then renewed average (elapsedSince (journalRepairEntry.started e) now) else average) peer l.
Proof.
  unfold average_after, requests_at. rewrite filter_cons.
  destruct (at_peer peer e); [by rewrite decide_True|by rewrite decide_False].
Qed.

Lemma free_entries_freed abandon test now average l average' l' freed :
  (forall a e, Forall (fun x : Z => is_u64 x) a ->
     abandon a e = journalRepairEntry.busy e && test (default 0 (a !! Z.to_nat (journalRepairEntry.peer e))) e) ->
  Forall (fun x : Z => is_u64 x) average ->
  (forall e, e ∈ l -> journalRepairEntry.busy e = true -> 0 <= journalRepairEntry.peer e < zlen average) ->
  free_entries abandon now average l = (average', l', freed) ->
  (forall i e, l !! i = Some e -> l' !! i = Some
     (if journalRepairEntry.busy e
         && test (average_after test now (default 0 (average !! Z.to_nat (journalRepairEntry.peer e)))
                    (journalRepairEntry.peer e) (take i l)) e
      then journalRepairEntry.zero else e)) /\
  forall p, 0 <= p -> default 0 (average' !! Z.to_nat p)
    = average_after test now (default 0 (average !! Z.to_nat p)) p l.
Proof.
  intros Ha. revert average average' l' freed.
  induction l as [|e l IH]; intros average average' l' freed Hu Hp E; cbn [free_entries] in E.
  { injection E as <- <- <-. split; [intros i e; done|done]. }
  assert (forall x, x ∈ l -> journalRepairEntry.busy x = true -> 0 <= journalRepairEntry.peer x < zlen average) as Hp'
    by (intros x Hx; apply Hp; by right).
  destruct (abandon average e) eqn:Eg; rewrite Ha in Eg by done.
  - apply andb_prop in Eg as [Eb Et]. pose proof (Hp e ltac:(by left) Eb) as Hpe.
    destruct (free_entries abandon now _ l) as [[a k] n] eqn:Ef. injection E as <- <- <-.
    apply IH in Ef as [H1 H2]; [|by apply observe_u64|by unfold observe, zlen in *; rewrite length_insert]. split.
    + intros [|i] x Hx;
        [injection Hx as <-; cbn [take]; change (average_after test now ?a ?p []) with a; by rewrite Eb, Et|].
      change ((_ :: k) !! S i) with (k !! i). rewrite (H1 i x Hx). cbn [take]. rewrite average_after_cons.
      destruct (journalRepairEntry.busy x) eqn:Ex; [|done]. cbn [andb].
      pose proof (Hp' x ltac:(by eapply list_elem_of_lookup_2) Ex). rewrite observe_lookup by lia.
      unfold at_peer. rewrite Eb, (Z.eqb_sym (journalRepairEntry.peer e)). cbn [andb].
      destruct (Z.eqb_spec (journalRepairEntry.peer x) (journalRepairEntry.peer e)) as [->|]; [by rewrite Et|done].
    + intros p Hp0. rewrite H2, average_after_cons, observe_lookup by lia. unfold at_peer.
      rewrite Eb, (Z.eqb_sym (journalRepairEntry.peer e)). cbn [andb].
      destruct (Z.eqb_spec p (journalRepairEntry.peer e)) as [->|]; [by rewrite Et|done].
  - destruct (free_entries abandon now average l) as [[a k] n] eqn:Ef. injection E as <- <- <-.
    apply IH in Ef as [H1 H2]; [|done..].
    assert (forall p, at_peer p e && test (default 0 (average !! Z.to_nat p)) e = false) as Hno.
    { intros p. unfold at_peer. destruct (journalRepairEntry.busy e); [|done]. cbn [andb] in *.
      destruct (Z.eqb_spec (journalRepairEntry.peer e) p) as [<-|]; [done|done]. }
    split.
    + intros [|i] x Hx; [injection Hx as <-|].
      * cbn [take]. change (average_after test now ?a ?p []) with a. by rewrite Eg.
      * change ((_ :: k) !! S i) with (k !! i). rewrite (H1 i x Hx). cbn [take]. by rewrite average_after_cons, Hno.
    + intros p Hp0. by rewrite H2, average_after_cons, Hno.
Qed.

Lemma release_freed abandon test b now b' n :
  (forall a e, Forall (fun x : Z => is_u64 x) a ->
     abandon a e = journalRepairEntry.busy e && test (default 0 (a !! Z.to_nat (journalRepairEntry.peer e))) e) ->
  wf_budget b -> release abandon b now = Some (b', n) -> freed_by test now b b'.
Proof.
  intros Ha Hw E. unfold release in E.
  destruct (free_entries abandon now (ewma b) (entries b)) as [[average l] freed] eqn:Ef.
  unfold asserted in E. destruct (assertInvariant _); [|done]. cbn in E. injection E as <- <-.
  apply (free_entries_freed _ test) in Ef as [H1 H2]; [|done|apply Hw|].
  - split; [exact H1|]. intros peer [H0 _]. by apply H2.
  - intros e He Hb. destruct (wb_peers _ Hw e He Hb), (wb_active _ Hw), (wb_length _ Hw). lia.
Qed.

(** A request is overdue after twice its peer's average, and after half a
    second at the latest. *)
Definition overdue (now average : Z) (e : journalRepairEntry) : bool :=
  Z.min (500 * Millisecond) (2 * average) <=? elapsedSince (journalRepairEntry.started e) now.

Definition answered (op _ : Z) (e : journalRepairEntry) : bool := journalRepairEntry.op e =? op.

Lemma Complete_ok b op now :
  wf_budget b -> exists b' n, Complete b op now = Some (b', n) /\ wf_budget b' /\
    outstanding b' = outstanding b - n /\ freed_by (answered op) now b b' /\
    forall e, e ∈ entries b' -> journalRepairEntry.busy e = true -> journalRepairEntry.op e <> op.
Proof.
  intros Hw. unfold Complete. edestruct (release_spec (fun _ e => journalRepairEntry.busy e && (journalRepairEntry.op e =? op)) b now)
    as (b' & n & E & Hw' & Hc & Ho & _); [by intros _ e [? _]%andb_prop|done|].
  exists b', n. split_and!; [done|done|done|by apply (release_freed _ (answered op)) in E|]. intros e He Hb Eo.
  apply cleared_spec in Hc as (_ & _ & Hin & _). destruct (Hin e He Hb) as [_ (_ & _ & Hk)]. by rewrite Hb, Eo, Z.eqb_refl in Hk.
Qed.

Lemma deadline_min average : is_u64 average -> deadline average = Z.min (500 * Millisecond) (2 * average).
Proof.
  intros Ha. unfold deadline. change (500 * Millisecond / 2) with 250000000. change (500 * Millisecond) with 500000000.
  destruct (Z.ltb_spec average 250000000) as [H|H]; [rewrite uwrap_small by width_lia; lia|lia].
Qed.

Lemma average_u64 average peer :
  Forall (fun a : Z => is_u64 a) average -> is_u64 (default 0 (average !! Z.to_nat peer)).
Proof.
  intros Hu. destruct (average !! Z.to_nat peer) as [a|] eqn:Ea; cbn; [|done].
  rewrite Forall_forall in Hu. apply Hu. by eapply list_elem_of_lookup_2.
Qed.

(** Nothing is outstanding for half a second once expiry has run. *)
Lemma Expire_ok b now :
  wf_budget b -> exists b' n, Expire b now = Some (b', n) /\ wf_budget b' /\
    outstanding b' = outstanding b - n /\ freed_by (overdue now) now b b' /\
    forall e, e ∈ entries b' -> journalRepairEntry.busy e = true ->
      elapsedSince (journalRepairEntry.started e) now < 500 * Millisecond.
Proof.
  intros Hw. unfold Expire. edestruct (release_spec (fun ewma entry => journalRepairEntry.busy entry &&
    (deadline (default 0 (ewma !! Z.to_nat (journalRepairEntry.peer entry)))
     <=? elapsedSince (journalRepairEntry.started entry) now)) b now) as (b' & n & E & Hw' & Hc & Ho & _);
    [by intros _ e [? _]%andb_prop|done|].
  exists b', n. split_and!; [done|done|done| |].
  - apply (release_freed _ (overdue now)) in E; [done| |done].
    intros a e Ha. unfold overdue. by rewrite deadline_min by by apply average_u64.
  - intros e He Hb.
    apply cleared_spec in Hc as (_ & _ & Hin & _). destruct (Hin e He Hb) as [_ (ewma & Hu & Hk)]. rewrite Hb in Hk.
    apply Z.leb_gt in Hk. rewrite deadline_min in Hk by by apply average_u64. lia.
Qed.

Lemma budget_wf b : budget_reachable b -> wf_budget b.
Proof.
  induction 1 as [active local b Ha Hl E|b fuel op now random b' random' r _ Hw Hr E|b op now b' n _ Hw E|b now b' n _ Hw E|b b' _ Hw E].
  - by apply (new_budget active local).
  - destruct (Reserve_ok b op now random Hw Hr) as (f & b1 & r1 & r' & E1 & Hw1 & _).
    specialize (E1 (Nat.max f fuel) ltac:(lia)). rewrite (Reserve_more fuel (Nat.max f fuel) _ _ _ _ _ E ltac:(lia)) in E1.
    injection E1 as <- _ _. exact Hw1.
  - destruct (Complete_ok b op now Hw) as (b1 & n1 & E1 & Hw1 & _). rewrite E in E1. by injection E1 as -> ->.
  - destruct (Expire_ok b now Hw) as (b1 & n1 & E1 & Hw1 & _). rewrite E in E1. by injection E1 as -> ->.
  - destruct (Reset_ok b Hw) as (b1 & E1 & Hw1 & _). rewrite E in E1. by injection E1 as ->.
Qed.

(** C38: Repair requests never leak.  In every state of the budget the assertions of all operations hold, so none of them
    panics: the outstanding requests are those recorded and fit the capacity, with at most two at a peer and never two
    for one operation at the same peer.  Reserve returns, and refuses only when no peer is eligible.  Complete frees
    exactly the requests of the operation, and Expire exactly those that have waited for twice the average response time
    of their peer or for half a second, whichever is less; every freed request is observed in its peer's average, by
    which the requests after it are judged.  So no request has been outstanding for half a second once Expire has run.
    Reset frees everything. *)
Theorem repair_budget_live b op now random :
  budget_reachable b -> wf_random random ->
  (outstanding b = busyCount (entries b) /\ outstanding b <= capacity b /\
   forall peer, zlen (requests_at peer (entries b)) <= 2 /\ NoDup (journalRepairEntry.op <$> requests_at peer (entries b))) /\
  (exists fuel b' random' r,
     (forall more, (fuel <= more)%nat -> Reserve more b op now (Some random) = Some (b', Some random', r)) /\
     match r with
     | Some peer => 0 <= peer < active b /\ eligible_peer b op peer /\ outstanding b' = outstanding b + 1
     | None => b' = b /\ forall peer, 0 <= peer < active b -> ~ eligible_peer b op peer
     end) /\
  (exists b' n, Complete b op now = Some (b', n) /\ outstanding b' = outstanding b - n /\
     freed_by (answered op) now b b' /\
     forall e, e ∈ entries b' -> journalRepairEntry.busy e = true -> journalRepairEntry.op e <> op) /\
  (exists b' n, Expire b now = Some (b', n) /\ outstanding b' = outstanding b - n /\
     freed_by (overdue now) now b b' /\
     forall e, e ∈ entries b' -> journalRepairEntry.busy e = true ->
       elapsedSince (journalRepairEntry.started e) now < 500 * Millisecond) /\
  exists b', Reset b = Some b' /\ outstanding b' = 0.
Proof.
  intros Hb Hr. pose proof (budget_wf b Hb) as Hw. split_and!.
  - apply Hw.
  - rewrite (wb_outstanding _ Hw). by apply busy_bound.
  - apply (wb_each _ Hw).
  - destruct (Reserve_ok b op now random Hw Hr) as (fuel & b' & random' & r & E & _ & _ & H). by exists fuel, b', random', r.
  - destruct (Complete_ok b op now Hw) as (b' & n & E & _ & H). by exists b', n.
  - destruct (Expire_ok b now Hw) as (b' & n & E & _ & H). by exists b', n.
  - destruct (Reset_ok b Hw) as (b' & E & _ & H). by exists b'.
Qed.

Lemma repair_budget_live_witness :
  exists b, newJournalRepairBudget 3 0 = Ok b /\ budget_reachable b /\
  exists fuel b' random' peer, Reserve fuel b 7 1 (Some (NewDeterministicRandom 1)) = Some (b', Some random', Some peer) /\ 0 <= peer < 3.
Proof.
  eexists. split; [vm_compute; reflexivity|].
  match goal with |- budget_reachable ?x /\ _ => assert (budget_reachable x) as Hb by
    (apply (budget_new 3 0); [split; [discriminate|reflexivity]..|vm_compute; reflexivity]); split; [exact Hb|];
    destruct (repair_budget_live x 7 1 (NewDeterministicRandom 1) Hb) as (_ & (fuel & b' & random' & r & E & H) & _) end.
  { apply new_random. split; [discriminate|reflexivity]. }
  destruct r as [peer|].
  - exists fuel, b', random', peer. split; [apply E; reflexivity|apply H].
  - destruct H as [_ H]. destruct (H 1); [split; [discriminate|reflexivity]|]. split; [discriminate|vm_compute; reflexivity].
Defined.
