(* ===== verification/Storage.v ===== *)
(** * The storage interface

    [src/replication/storage.go]: the errors of durable state, the [Storage]
    interface as a class with the laws its clients rely on, and
    [FileStorage], which implements it over a file.  The operating system is
    not part of the program: a file is its durable bytes, the writes no sync
    has covered, and the faults it is going to answer with. *)

From S2P Require Import Prelude Bytes Config.

(** ** Errors

    [FrameEncoding] is the encoding error of the protocol package, [Joined] is
    [errors.Join]; an error wrapped with a message is the error it wraps. *)

Inductive durable_error :=
| ErrInvalidCheckpoint
| ErrInvalidSuperblock
| ErrSuperblockFork
| ErrSuperblockQuorum
| ErrSuperblockInitializationIncomplete
| ErrIncompatibleConfiguration
| ErrUnformatted
| ErrCorrupt
| ErrStorage
| ErrStorageAlignment
| ErrStorageClosed
| ErrShortIO
| ErrIOBackpressure
| ErrInvalidConfiguration
| ErrHardwareChecksumUnavailable
| ErrIOHandle
| FrameEncoding
| ErrInvalidWAL
| ErrWALSlotUnsafe
| ErrWALUncertainSolo
| ErrWALRecovery
| Joined (a b : durable_error).

#[export] Instance durable_error_eq_dec : EqDecision durable_error.
Proof. solve_decision. Defined.

(** [errors.Is] on these errors *)
Fixpoint errorIs (err target : durable_error) : bool :=
  bool_decide (err = target)
  || match err with Joined a b => errorIs a target || errorIs b target | _ => false end.

(** ** Phases of an operation that writes

    The queued, read and resize phases belong to the operations of the I/O
    engine, which neither an append nor a persist enters. *)

Inductive IOPhase := IOPhaseWrite | IOPhaseSync | IOPhaseCompletion.

#[export] Instance IOPhase_eq_dec : EqDecision IOPhase.
Proof. solve_decision. Defined.

(** ** The interface *)

(** [ReadAt] takes the length of the buffer it fills. *)
Class Storage (S : Type) := {
  ReadAt : S -> Z -> Z -> S * result durable_error (list byte);
  WriteAt : S -> list byte -> Z -> S * result durable_error unit;
  Sync : S -> S * result durable_error unit;
}.

(** [Resize] is apart: only the block allocator grows the storage. *)
Class Resizable (S : Type) := {
  Resize : S -> Z -> S * result durable_error unit;
}.

Definition apart_from (a b : Z) (range : Z * Z) : Prop := b <= range.1 \/ range.2 <= a.

(** What a client may assume.  [contents] is what reads see, [unsynced] the
    ranges a crash may change.  A read or write may fail; a write that fails
    may leave anything in its range and nothing outside it. *)
Class StorageLaws (S : Type) `{Storage S} := {
  contents : S -> list byte;
  unsynced : S -> list (Z * Z);
  crashes : S -> S -> Prop;
  read_contents s n o : contents (ReadAt s n o).1 = contents s;
  read_unsynced s n o : unsynced (ReadAt s n o).1 = unsynced s;
  read_ok s n o bytes : 0 <= o -> 0 <= n -> (ReadAt s n o).2 = Ok bytes ->
    o + n <= zlen (contents s) /\ bytes = slice (contents s) o (o + n);
  write_length s bytes o : 0 <= o -> o + zlen bytes <= zlen (contents s) ->
    zlen (contents (WriteAt s bytes o).1) = zlen (contents s);
  write_outside s bytes o a b : 0 <= o -> o + zlen bytes <= zlen (contents s) -> 0 <= a ->
    apart_from a b (o, o + zlen bytes) ->
    slice (contents (WriteAt s bytes o).1) a b = slice (contents s) a b;
  write_ok s bytes o : 0 <= o -> o + zlen bytes <= zlen (contents s) -> (WriteAt s bytes o).2 = Ok tt ->
    slice (contents (WriteAt s bytes o).1) o (o + zlen bytes) = bytes;
  write_unsynced s bytes o : 0 <= o -> unsynced (WriteAt s bytes o).1 ⊆ (o, o + zlen bytes) :: unsynced s;
  sync_contents s : contents (Sync s).1 = contents s;
  sync_unsynced s : unsynced (Sync s).1 ⊆ unsynced s;
  sync_ok s : (Sync s).2 = Ok tt -> unsynced (Sync s).1 = [];
  crash_length s s' : crashes s s' -> zlen (contents s') = zlen (contents s);
  crash_outside s s' a b : crashes s s' -> 0 <= a -> (forall range, range ∈ unsynced s -> apart_from a b range) ->
    slice (contents s') a b = slice (contents s) a b;
}.

(** ** Files *)

(** The next answers of the operating system: success, or a failure that
    leaves the given bytes in the range of a write. *)
Abbreviation fault := (option (list byte)).

Module FileStorage.
Record t := mk {
  isOpen : bool;
  direct : bool;
  durable : list byte;
  cached : list (N * list byte);
  faults : list fault;
}.
End FileStorage.
Abbreviation FileStorage := FileStorage.t.

Section file_storage.
Import FileStorage.

(** The range of a write. *)
Definition range_of (write : N * list byte) : Z * Z :=
  (Z.of_N write.1, Z.of_N write.1 + zlen write.2).

(** [WriteAt] of a file extends it when it writes past its end. *)
Definition write_bytes (l : list byte) (write : N * list byte) : list byte :=
  put (l ++ zeros ((range_of write).2 - zlen l)) (Z.of_N write.1) write.2.

Definition file_contents (s : FileStorage) : list byte := fold_left write_bytes (cached s) (durable s).

Definition next_fault (s : FileStorage) : fault * FileStorage :=
  match faults s with
  | [] => (None, s)
  | f :: rest => (f, mk (isOpen s) (direct s) (durable s) (cached s) rest)
  end.

(** Bytes cut or filled to a length. *)
Definition fit (n : Z) (bytes : list byte) : list byte :=
  take (Z.to_nat n) (bytes ++ zeros n).

(** [validateIO]; the buffers come from [NewAlignedBuffer], so their
    addresses are aligned. *)
Definition validateIO (s : FileStorage) (n offset : Z) : option durable_error :=
  if negb (isOpen s) then Some ErrStorageClosed else
  if MaxInt64 <? offset then Some ErrStorage else
  if negb (direct s) || (n =? 0) then None else
  if negb (offset mod SectorSize =? 0) || negb (n mod SectorSize =? 0) then Some ErrStorageAlignment
  else None.

Definition file_ReadAt (s : FileStorage) (n offset : Z) : FileStorage * result durable_error (list byte) :=
  match validateIO s n offset with
  | Some err => (s, Err err)
  | None =>
      match next_fault s with
      | (Some _, s) => (s, Err ErrStorage)
      | (None, s) =>
          if zlen (file_contents s) <? offset + n then (s, Err ErrShortIO)
          else (s, Ok (slice (file_contents s) offset (offset + n)))
      end
  end.

Definition file_WriteAt (s : FileStorage) (buffer : list byte) (offset : Z)
    : FileStorage * result durable_error unit :=
  match validateIO s (zlen buffer) offset with
  | Some err => (s, Err err)
  | None =>
      let '(f, s) := next_fault s in
      let written bytes := mk (isOpen s) (direct s) (durable s) (cached s ++ [(Z.to_N offset, bytes)]) (faults s) in
      match f with
      | Some garbage => (written (fit (zlen buffer) garbage), Err ErrStorage)
      | None => (written buffer, Ok tt)
      end
  end.

Definition file_Sync (s : FileStorage) : FileStorage * result durable_error unit :=
  if negb (isOpen s) then (s, Err ErrStorageClosed) else
  match next_fault s with
  | (Some _, s) => (s, Err ErrStorage)
  | (None, s) => (mk (isOpen s) (direct s) (file_contents s) [] (faults s), Ok tt)
  end.

#[export] Instance FileStorage_Storage : Storage FileStorage := {
  ReadAt := file_ReadAt;
  WriteAt := file_WriteAt;
  Sync := file_Sync;
}.

(** A crash keeps the durable bytes and, in the range of every write no sync
    has covered, anything. *)
Inductive loses : list byte -> list (N * list byte) -> list byte -> Prop :=
| loses_nil l : loses l [] l
| loses_write l o bytes garbage writes l' :
    zlen garbage = zlen bytes -> loses (write_bytes l (o, garbage)) writes l' ->
    loses l ((o, bytes) :: writes) l'.

Definition file_crashes (s s' : FileStorage) : Prop :=
  cached s' = [] /\ loses (durable s) (cached s) (durable s').

(** *** The laws *)

Lemma zlen_fit n bytes : 0 <= n -> zlen (fit n bytes) = n.
Proof. intros H. unfold fit, zlen, zeros. rewrite length_take, length_app, length_replicate. lia. Qed.

Lemma write_bytes_in l o bytes :
  0 <= o -> o + zlen bytes <= zlen l -> write_bytes l (Z.to_N o, bytes) = put l o bytes.
Proof.
  intros Ho H. unfold write_bytes, range_of. cbn [fst snd]. rewrite Z2N.id by done.
  replace (zeros _) with (@nil byte); [by rewrite app_nil_r|].
  unfold zeros. by rewrite Z2Nat.nonpos by lia.
Qed.

Lemma zlen_padded (l : list byte) n : zlen (l ++ zeros (n - zlen l)) = Z.max (zlen l) n.
Proof. rewrite zlen_app. unfold zeros, zlen. rewrite length_replicate. lia. Qed.

Lemma zlen_write_bytes l w : zlen (write_bytes l w) = Z.max (zlen l) (range_of w).2.
Proof.
  unfold write_bytes. rewrite zlen_put; rewrite ?zlen_padded; cbn; lia.
Qed.

Lemma slice_padded (l k zs : list byte) a b :
  zlen l = zlen k -> slice l a b = slice k a b -> slice (l ++ zs) a b = slice (k ++ zs) a b.
Proof.
  unfold zlen, slice. intros Hl E. rewrite !drop_app, !take_app, E, !length_drop.
  by replace (length l) with (length k) by lia.
Qed.

(** Two writes of one range leave the same bytes outside it. *)
Lemma slice_write_bytes l k o bytes garbage a b :
  zlen garbage = zlen bytes -> zlen l = zlen k -> slice l a b = slice k a b -> 0 <= a ->
  apart_from a b (range_of (o, bytes)) ->
  slice (write_bytes l (o, garbage)) a b = slice (write_bytes k (o, bytes)) a b.
Proof.
  unfold write_bytes, range_of, apart_from. cbn [fst snd]. intros Hg Hl E Ha Hap. rewrite Hg, Hl.
  set (n := Z.of_N o + zlen bytes). set (zs := zeros (n - zlen k)).
  pose proof (zlen_padded k n) as Hp. fold zs in Hp.
  assert (zlen (l ++ zs) = zlen (k ++ zs)) as Hp' by (rewrite !zlen_app; lia).
  pose proof (zlen_nonneg bytes). unfold n in Hp.
  destruct Hap as [Hap|Hap].
  - rewrite !slice_put_before by lia. by apply slice_padded.
  - rewrite !slice_put_after by lia. by apply slice_padded.
Qed.

Lemma loses_length l writes l' :
  loses l writes l' -> forall k, zlen k = zlen l -> zlen (fold_left write_bytes writes k) = zlen l'.
Proof.
  induction 1 as [l|l o bytes garbage writes l' Hg _ IH]; intros k Hk; [done|]. cbn [fold_left].
  apply IH. rewrite !zlen_write_bytes, Hk. cbn. by rewrite Hg.
Qed.

Lemma loses_outside l writes l' a b :
  loses l writes l' -> 0 <= a -> (forall range, range ∈ range_of <$> writes -> apart_from a b range) ->
  forall k, zlen k = zlen l -> slice k a b = slice l a b ->
  slice (fold_left write_bytes writes k) a b = slice l' a b.
Proof.
  intros Hl Ha. induction Hl as [l|l o bytes garbage writes l' Hg _ IH]; intros Hap k Hk E; [done|].
  cbn [fold_left]. apply IH.
  - intros range Hr. apply Hap. by right.
  - rewrite !zlen_write_bytes, Hk. cbn. by rewrite Hg.
  - symmetry. apply slice_write_bytes; [done|done|done|done|]. apply Hap. by left.
Qed.

Lemma next_fault_keeps s f s' :
  next_fault s = (f, s') ->
  file_contents s' = file_contents s /\ cached s' = cached s.
Proof. unfold next_fault. destruct (faults s); intros [= <- <-]; done. Qed.

Lemma file_read_spec s n o s' r :
  file_ReadAt s n o = (s', r) ->
  file_contents s' = file_contents s /\ cached s' = cached s /\
  forall bytes, r = Ok bytes -> o + n <= zlen (file_contents s) /\ bytes = slice (file_contents s) o (o + n).
Proof.
  unfold file_ReadAt. destruct (validateIO s n o) as [e|]; [by intros [= <- <-]|].
  destruct (next_fault s) as [[g|] s1] eqn:Ef; apply next_fault_keeps in Ef as [Ec Eu].
  - by intros [= <- <-].
  - rewrite Ec. destruct (Z.ltb_spec (zlen (file_contents s)) (o + n)); intros [= <- <-]; [done|].
    split; [done|]. split; [done|]. by intros bytes [= <-].
Qed.

(** A write leaves the new bytes, bytes of the same length, or nothing. *)
Lemma file_write_spec s buffer o s' r :
  file_WriteAt s buffer o = (s', r) ->
  (r <> Ok tt /\ file_contents s' = file_contents s /\ cached s' = cached s) \/
  exists bytes, zlen bytes = zlen buffer /\ cached s' = cached s ++ [(Z.to_N o, bytes)] /\
    file_contents s' = write_bytes (file_contents s) (Z.to_N o, bytes) /\ (r = Ok tt -> bytes = buffer).
Proof.
  unfold file_WriteAt. destruct (validateIO s (zlen buffer) o) as [e|]; [intros [= <- <-]; by left|].
  destruct (next_fault s) as [f s1] eqn:Ef. intros H. right. exists (match f with
    | Some garbage => fit (zlen buffer) garbage | None => buffer end).
  apply next_fault_keeps in Ef as [Ec Eu].
  rewrite <- Ec, <- Eu. destruct f; injection H as <- <-; cbn; unfold file_contents; cbn;
    rewrite fold_left_app; cbn.
  - split; [apply zlen_fit, zlen_nonneg|]. done.
  - done.
Qed.

Lemma file_sync_spec s s' r :
  file_Sync s = (s', r) ->
  file_contents s' = file_contents s /\ (cached s' = cached s \/ cached s' = []) /\
  (r = Ok tt -> cached s' = []).
Proof.
  unfold file_Sync. destruct (isOpen s); cbn [negb]; [|intros [= <- <-]; naive_solver].
  destruct (next_fault s) as [[g|] s1] eqn:Ef; apply next_fault_keeps in Ef as [Ec Eu].
  - intros [= <- <-]. naive_solver.
  - intros [= <- <-]. cbn. naive_solver.
Qed.

#[export] Instance FileStorage_laws : StorageLaws FileStorage.
Proof.
  refine {| contents := file_contents; unsynced s := range_of <$> cached s; crashes := file_crashes |};
    cbn [ReadAt WriteAt Sync FileStorage_Storage].
  - intros s n o. destruct (file_ReadAt s n o) eqn:E. by apply file_read_spec in E as (? & ? & _).
  - intros s n o. destruct (file_ReadAt s n o) eqn:E. apply file_read_spec in E as (_ & E & _).
    cbn. by rewrite E.
  - intros s n o bytes _ _. destruct (file_ReadAt s n o) eqn:E. apply file_read_spec in E as (_ & _ & E).
    cbn. apply E.
  - intros s buffer o Ho Hin. destruct (file_WriteAt s buffer o) eqn:E. cbn.
    apply file_write_spec in E as [(_ & -> & _)|(bytes & Hl & _ & -> & _)]; [done|].
    rewrite write_bytes_in, zlen_put; lia.
  - intros s buffer o a b Ho Hin Ha Hap. destruct (file_WriteAt s buffer o) eqn:E. cbn.
    apply file_write_spec in E as [(_ & -> & _)|(bytes & Hl & _ & -> & _)]; [done|].
    rewrite write_bytes_in by lia. pose proof (zlen_nonneg bytes).
    destruct Hap as [Hap|Hap]; cbn [fst snd] in Hap; [apply slice_put_before|apply slice_put_after]; lia.
  - intros s buffer o Ho Hin Hr. destruct (file_WriteAt s buffer o) eqn:E. cbn in *.
    apply file_write_spec in E as [(H & _)|(bytes & Hl & _ & -> & Hb)]; [done|].
    specialize (Hb Hr) as ->. rewrite write_bytes_in, slice_put_same; (done || lia).
  - intros s buffer o Ho. destruct (file_WriteAt s buffer o) eqn:E. cbn.
    apply file_write_spec in E as [(_ & _ & ->)|(bytes & Hl & -> & _)]; [by apply list_subseteq_cons|].
    rewrite fmap_app. cbn. unfold range_of at 2. cbn. rewrite Z2N.id, Hl by done. set_solver.
  - intros s. destruct (file_Sync s) eqn:E. by apply file_sync_spec in E as (? & _).
  - intros s. destruct (file_Sync s) eqn:E. cbn. apply file_sync_spec in E as (_ & [-> | ->] & _); [done|].
    set_solver.
  - intros s Hr. destruct (file_Sync s) eqn:E. cbn in *. apply file_sync_spec in E as (_ & _ & E).
    by rewrite E.
  - intros s s' [Hc Hl]. unfold file_contents at 1. rewrite Hc. cbn. symmetry. by eapply loses_length.
  - intros s s' a b [Hc Hl] Ha Hap. unfold file_contents at 1. rewrite Hc. cbn. symmetry.
    by eapply loses_outside.
Defined.
End file_storage.

(** [NewAlignedBuffer]: a zeroed buffer of the given size. *)
Definition NewAlignedBuffer (size alignment : Z) : result durable_error (list byte) :=
  if (size =? 0) || (alignment =? 0) || negb (Z.land alignment (u64 (alignment - 1)) =? 0)
     || (u64 (MaxInt64 - alignment) <? size)
  then Err ErrStorageAlignment
  else Ok (zeros size).
