(* ===== verification/Checkpoint.v ===== *)
(** * Checkpoint state

    [src/replication/checkpoint.go]: the durable description of a checkpoint
    (its prepare header, the trailer and manifest references, the logical
    storage size), its 1024-byte encoding and its validation. *)

From S2P Require Import Prelude Bytes Arith Checksum Header Config Ewah Storage.

Definition CheckpointStateSize : Z := 1024.

Module CheckpointState.
Record t := mk {
  Header : list byte;
  AcquiredTrailerLastChecksum : list byte;
  ReleasedTrailerLastChecksum : list byte;
  SessionTrailerLastChecksum : list byte;
  OldestManifestChecksum : list byte;
  NewestManifestChecksum : list byte;
  SnapshotRootChecksum : list byte;
  AcquiredAggregateChecksum : list byte;
  ReleasedAggregateChecksum : list byte;
  SessionAggregateChecksum : list byte;
  ParentID : list byte;
  GrandparentID : list byte;
  AcquiredTrailerLastAddress : Z;
  ReleasedTrailerLastAddress : Z;
  SessionTrailerLastAddress : Z;
  OldestManifestAddress : Z;
  NewestManifestAddress : Z;
  SnapshotRootAddress : Z;
  LogicalStorageSize : Z;
  AcquiredTrailerEncodedSize : Z;
  ReleasedTrailerEncodedSize : Z;
  SessionTrailerEncodedSize : Z;
  ManifestBlockCount : Z;
  Release : Z;
}.

(** The array fields and the integer fields, with their sizes. *)
Definition arrays (s : t) : list (list byte) :=
  [ AcquiredTrailerLastChecksum s; ReleasedTrailerLastChecksum s; SessionTrailerLastChecksum s;
    OldestManifestChecksum s; NewestManifestChecksum s; SnapshotRootChecksum s;
    AcquiredAggregateChecksum s; ReleasedAggregateChecksum s; SessionAggregateChecksum s;
    ParentID s; GrandparentID s ].

Definition words (s : t) : list Z :=
  [ AcquiredTrailerLastAddress s; ReleasedTrailerLastAddress s; SessionTrailerLastAddress s;
    OldestManifestAddress s; NewestManifestAddress s; SnapshotRootAddress s;
    LogicalStorageSize s; AcquiredTrailerEncodedSize s; ReleasedTrailerEncodedSize s;
    SessionTrailerEncodedSize s ].

(** The Go types bound every field. *)
Record typed (s : t) : Prop := {
  typed_header : zlen (Header s) = 256;
  typed_arrays : Forall (fun a => zlen a = 16) (arrays s);
  typed_words : Forall is_u64 (words s);
  typed_count : is_u32 (ManifestBlockCount s);
  typed_release : is_u32 (Release s);
}.
End CheckpointState.
Abbreviation CheckpointState := CheckpointState.t.

#[export] Instance CheckpointState_eq_dec : EqDecision CheckpointState.
Proof. solve_decision. Defined.

Module CheckpointValidation.
Record t := mk {
  Group : list byte;
  MessageSizeMax : Z;
  MemberCount : Z;
  BlockBase : Z;
  BlockSize : Z;
  ClientsMax : Z;
}.
End CheckpointValidation.
Abbreviation CheckpointValidation := CheckpointValidation.t.

Definition IsZero16 (checksum : list byte) : bool := bool_decide (checksum = zeros 16).

(** ** The codec *)

Module CheckpointCodec.
Import CheckpointState.

(** The copies of [Encode], in the order of the source. *)
Definition fields (state : t) : list (Z * list byte) :=
  [ (0, Header state);
    (256, AcquiredTrailerLastChecksum state);
    (288, ReleasedTrailerLastChecksum state);
    (320, SessionTrailerLastChecksum state);
    (352, OldestManifestChecksum state);
    (384, NewestManifestChecksum state);
    (416, SnapshotRootChecksum state);
    (448, AcquiredAggregateChecksum state);
    (464, ReleasedAggregateChecksum state);
    (480, SessionAggregateChecksum state);
    (496, ParentID state);
    (512, GrandparentID state);
    (528, putUint 8 (AcquiredTrailerLastAddress state));
    (536, putUint 8 (ReleasedTrailerLastAddress state));
    (544, putUint 8 (SessionTrailerLastAddress state));
    (552, putUint 8 (OldestManifestAddress state));
    (560, putUint 8 (NewestManifestAddress state));
    (568, putUint 8 (SnapshotRootAddress state));
    (576, putUint 8 (LogicalStorageSize state));
    (584, putUint 8 (AcquiredTrailerEncodedSize state));
    (592, putUint 8 (ReleasedTrailerEncodedSize state));
    (600, putUint 8 (SessionTrailerEncodedSize state));
    (608, putUint 4 (ManifestBlockCount state));
    (612, putUint 4 (Release state)) ].

(** [Encode] overwrites its destination, of which only the length matters. *)
Definition Encode (state : t) (destination : Z) : result durable_error (list byte) :=
  if negb (destination =? CheckpointStateSize) then Err ErrInvalidCheckpoint
  else Ok (write_fields (zeros CheckpointStateSize) (fields state)).

(** The assignments of [DecodeCheckpointState]. *)
Definition parse (source : list byte) : t :=
  mk (slice source 0 256) (slice source 256 272) (slice source 288 304) (slice source 320 336)
    (slice source 352 368) (slice source 384 400) (slice source 416 432)
    (slice source 448 464) (slice source 464 480) (slice source 480 496)
    (slice source 496 512) (slice source 512 528)
    (getUint (slice source 528 536)) (getUint (slice source 536 544))
    (getUint (slice source 544 552)) (getUint (slice source 552 560))
    (getUint (slice source 560 568)) (getUint (slice source 568 576))
    (getUint (slice source 576 584)) (getUint (slice source 584 592))
    (getUint (slice source 592 600)) (getUint (slice source 600 608))
    (getUint (slice source 608 612)) (getUint (slice source 612 616)).

Definition checkpointReservationsZero (source : list byte) : bool :=
  if negb (zlen source =? CheckpointStateSize) then false else
  allZero (slice source 272 288) && allZero (slice source 304 320)
  && allZero (slice source 336 352) && allZero (slice source 368 384)
  && allZero (slice source 400 416) && allZero (slice source 432 448)
  && allZero (slice source 616 1024).
End CheckpointCodec.

(** ** Validation *)

Definition validEWAHTrailerReference (address encodedSize : Z) (last aggregate empty : list byte)
    (blockCount : Z) : bool :=
  if address =? 0 then
    (encodedSize =? 0) && IsZero16 last && bool_decide (aggregate = empty)
  else
    let words := blockCount / 64 in
    let words := if negb (blockCount mod 64 =? 0) then words + 1 else words in
    match checkedAdd words 1 with
    | None => false
    | Some maximumWords =>
        match checkedMul maximumWords 8 with
        | None => false
        | Some maximumBytes =>
            negb (encodedSize =? 0) && (encodedSize mod 8 =? 0)
            && (encodedSize <=? maximumBytes) && negb (IsZero16 last)
        end
    end.

Definition validSessionTrailerReference (address encodedSize : Z)
    (last aggregate empty : list byte) (expectedSize : Z) : bool :=
  if address =? 0 then
    (encodedSize =? 0) && IsZero16 last && bool_decide (aggregate = empty)
  else (encodedSize =? expectedSize) && negb (expectedSize =? 0) && negb (IsZero16 last).

Definition validCheckpointBlockAddress (address blockCount : Z) : bool :=
  negb (address =? 0) && (address <=? blockCount).

Definition validManifestReferences (state : CheckpointState) : bool :=
  let '(oldest, newest) :=
    (CheckpointState.OldestManifestAddress state, CheckpointState.NewestManifestAddress state) in
  let '(oldestSum, newestSum) :=
    (CheckpointState.OldestManifestChecksum state, CheckpointState.NewestManifestChecksum state) in
  match CheckpointState.ManifestBlockCount state with
  | 0 => (oldest =? 0) && (newest =? 0) && IsZero16 oldestSum && IsZero16 newestSum
  | 1 => negb (oldest =? 0) && (oldest =? newest) && bool_decide (oldestSum = newestSum)
  | _ => negb (oldest =? 0) && negb (newest =? 0)
  end.

Definition validOptionalReference (address : Z) (checksum : list byte) : bool :=
  Bool.eqb (address =? 0) (IsZero16 checksum).

Definition references (state : CheckpointState) : list Z :=
  [ CheckpointState.AcquiredTrailerLastAddress state;
    CheckpointState.ReleasedTrailerLastAddress state;
    CheckpointState.SessionTrailerLastAddress state;
    CheckpointState.OldestManifestAddress state;
    CheckpointState.NewestManifestAddress state;
    CheckpointState.SnapshotRootAddress state ].

Module CheckpointCheck.
Import CheckpointState.

Definition headerAccepted (state : t) (v : CheckpointValidation) : bool :=
  match DecodeHeader (Header state) (CheckpointValidation.Group v)
          (CheckpointValidation.MessageSizeMax v) (CheckpointValidation.MemberCount v) with
  | (header, RejectNone) => Command header =? CommandPrepare
  | _ => false
  end.

(** [CheckpointState.Validate] *)
Definition Validate (state : t) (v : CheckpointValidation) : result durable_error unit :=
  let base := CheckpointValidation.BlockBase v in
  let size := CheckpointValidation.BlockSize v in
  if negb (headerAccepted state v) then Err ErrInvalidCheckpoint else
  if (Release state =? 0) || (LogicalStorageSize state <? base) || (size =? 0)
     || negb ((LogicalStorageSize state - base) mod size =? 0)
  then Err ErrInvalidCheckpoint else
  let blockCount := (LogicalStorageSize state - base) / size in
  let emptyChecksum := ChecksumBytes [] in
  if negb (validEWAHTrailerReference (AcquiredTrailerLastAddress state)
       (AcquiredTrailerEncodedSize state) (AcquiredTrailerLastChecksum state)
       (AcquiredAggregateChecksum state) emptyChecksum blockCount)
  then Err ErrInvalidCheckpoint else
  if negb (validEWAHTrailerReference (ReleasedTrailerLastAddress state)
       (ReleasedTrailerEncodedSize state) (ReleasedTrailerLastChecksum state)
       (ReleasedAggregateChecksum state) emptyChecksum blockCount)
  then Err ErrInvalidCheckpoint else
  if notOkOr (checkedMul (CheckpointValidation.ClientsMax v) (HeaderSize + 8)) (fun sessionSize =>
       negb (validSessionTrailerReference (SessionTrailerLastAddress state)
         (SessionTrailerEncodedSize state) (SessionTrailerLastChecksum state)
         (SessionAggregateChecksum state) emptyChecksum sessionSize))
  then Err ErrInvalidCheckpoint else
  if existsb (fun address => negb (address =? 0)
       && negb (validCheckpointBlockAddress address blockCount)) (references state)
  then Err ErrInvalidCheckpoint else
  if negb (validManifestReferences state)
     || negb (validOptionalReference (SnapshotRootAddress state) (SnapshotRootChecksum state))
  then Err ErrInvalidCheckpoint else
  Ok tt.

Definition DecodeCheckpointState (source : list byte) (v : CheckpointValidation)
    : result durable_error t :=
  if negb (zlen source =? CheckpointStateSize)
     || negb (CheckpointCodec.checkpointReservationsZero source)
  then Err ErrInvalidCheckpoint else
  let state := CheckpointCodec.parse source in
  _ ← Validate state v;
  Ok state.

(** [CheckpointState.ID] *)
Definition ID (state : t) : result durable_error (list byte) :=
  encoded ← CheckpointCodec.Encode state CheckpointStateSize;
  Ok (ChecksumBytes encoded).

(** [CheckpointState.PrepareOp] *)
Definition PrepareOp (state : t) : Z := uint64At (Header state) 224.
End CheckpointCheck.

(** ** The codec is a bijection *)

Definition checkpoint_layout : list (Z * Z) :=
  [(0, 256); (256, 16); (288, 16); (320, 16); (352, 16); (384, 16); (416, 16); (448, 16);
   (464, 16); (480, 16); (496, 16); (512, 16); (528, 8); (536, 8); (544, 8); (552, 8);
   (560, 8); (568, 8); (576, 8); (584, 8); (592, 8); (600, 8); (608, 4); (612, 4)].

Definition checkpoint_gaps : list (Z * Z) :=
  [(272, 16); (304, 16); (336, 16); (368, 16); (400, 16); (432, 16); (616, 408)].

Definition checkpoint_cuts : list Z :=
  [256; 272; 288; 304; 320; 336; 352; 368; 384; 400; 416; 432; 448; 464; 480; 496; 512;
   528; 536; 544; 552; 560; 568; 576; 584; 592; 600; 608; 612; 616; 1024].

Lemma checkpoint_sizes state :
  CheckpointState.typed state -> field_sizes (CheckpointCodec.fields state) = checkpoint_layout.
Proof.
  intros [Hh Ha _ _ _]. unfold CheckpointState.arrays in Ha. rewrite !Forall_cons in Ha.
  destruct_and! Ha. unfold field_sizes, CheckpointCodec.fields. cbn.
  rewrite !zlen_putUint, Hh.
  by repeat match goal with E : zlen _ = 16 |- _ => rewrite E; clear E end.
Qed.

Lemma zlen_checkpoint_encode state :
  CheckpointState.typed state ->
  zlen (write_fields (zeros 1024) (CheckpointCodec.fields state)) = 1024.
Proof. intros H. apply zlen_write_fields; [done|]. by rewrite checkpoint_sizes. Qed.

Lemma checkpoint_reserved source :
  CheckpointCodec.checkpointReservationsZero source = true <->
  zlen source = 1024 /\ Forall (fun '(a, s) => slice source a (a + s) = zeros s) checkpoint_gaps.
Proof.
  unfold CheckpointCodec.checkpointReservationsZero, checkpoint_gaps.
  rewrite !Forall_cons. simpl. split.
  - destruct (Z.eqb_spec (zlen source) CheckpointStateSize) as [E|]; [|done].
    unfold CheckpointStateSize in E. intros H. simpl in H. split_bool. split; [done|].
    repeat split; try apply Forall_nil_2; apply (allZero_slice_zeros source); (done || lia).
  - intros [E H]. destruct_and! H. rewrite E. simpl. literal_sums.
    repeat match goal with E : slice _ _ _ = _ |- _ => rewrite E; clear E end.
    reflexivity.
Qed.

Lemma checkpoint_parse_encode state :
  CheckpointState.typed state ->
  CheckpointCodec.parse (write_fields (zeros 1024) (CheckpointCodec.fields state)) = state.
Proof.
  intros Ht. pose proof (checkpoint_sizes state Ht) as Hs.
  pose proof (read_write_fields 1024 (zeros 1024) _ _ eq_refl Hs eq_refl) as Hr.
  remember (write_fields _ _) as w eqn:Ew. clear Ew Hs.
  unfold read_fields, checkpoint_layout, CheckpointCodec.fields in Hr. simpl in Hr. literal_sums.
  unfold CheckpointCodec.parse. injection Hr. clear Hr. intros.
  repeat match goal with E : slice w _ _ = _ |- _ => rewrite E; clear E end.
  destruct Ht as [_ _ Hw Hc Hrel]. unfold CheckpointState.words in Hw.
  rewrite !Forall_cons in Hw. destruct_and! Hw.
  rewrite !getUint_putUint by assumption. by destruct state.
Qed.

Lemma checkpoint_parse_typed source :
  zlen source = 1024 -> CheckpointState.typed (CheckpointCodec.parse source).
Proof.
  intros Hl.
  assert (forall a b n, 0 <= a <= b -> b <= 1024 -> n = 8 * (b - a) ->
    is_uint n (getUint (slice source a b))) as Hu.
  { intros a b n ?? ->. rewrite <- (zlen_slice source a b) by lia. apply getUint_range. }
  split; unfold CheckpointState.arrays, CheckpointState.words, CheckpointCodec.parse; cbn -[slice];
    rewrite ?Forall_cons; split_and?; try apply Forall_nil_2;
    try (rewrite zlen_slice; lia); apply Hu; lia.
Qed.

Lemma checkpoint_encode_parse source :
  CheckpointCodec.checkpointReservationsZero source = true ->
  write_fields (zeros 1024) (CheckpointCodec.fields (CheckpointCodec.parse source)) = source.
Proof.
  intros [Hl HG]%checkpoint_reserved.
  pose proof (write_read_fields 1024 source checkpoint_layout checkpoint_gaps checkpoint_cuts
    Hl ltac:(lia) eq_refl eq_refl HG eq_refl eq_refl eq_refl) as Hw.
  rewrite <- Hw at 2. apply (f_equal (write_fields (zeros 1024))).
  unfold CheckpointCodec.fields, CheckpointCodec.parse, read_fields,
    checkpoint_layout. cbn -[slice Z.add putUint].
  by rewrite !putUint_getUint by (rewrite zlen_slice; lia).
Qed.

Lemma checkpoint_Decode_inv source v state :
  CheckpointCheck.DecodeCheckpointState source v = Ok state <->
  CheckpointCodec.checkpointReservationsZero source = true /\
  state = CheckpointCodec.parse source /\ CheckpointCheck.Validate state v = Ok tt.
Proof.
  unfold CheckpointCheck.DecodeCheckpointState. split.
  - intros H. step_guards H. split_bool. apply result_bind_Ok in H as ([] & Hv & E).
    injection E as <-. done.
  - intros (Hr & -> & Hv). pose proof (proj1 (proj1 (checkpoint_reserved _) Hr)) as Hl.
    rewrite Hr, Hl. cbn. by rewrite Hv.
Qed.

Lemma checkpoint_reserved_encode state :
  CheckpointState.typed state ->
  CheckpointCodec.checkpointReservationsZero
    (write_fields (zeros 1024) (CheckpointCodec.fields state)) = true.
Proof.
  intros Ht. apply checkpoint_reserved. split; [by apply zlen_checkpoint_encode|].
  pose proof (checkpoint_sizes state Ht) as Hs.
  apply write_fields_gaps; [|lia|]; by rewrite Hs.
Qed.

Lemma checkpoint_Encode_Ok state :
  CheckpointCodec.Encode state CheckpointStateSize =
    Ok (write_fields (zeros 1024) (CheckpointCodec.fields state)).
Proof. unfold CheckpointCodec.Encode. by rewrite Z.eqb_refl. Qed.

Lemma checkpoint_decode_encode state v encoded :
  CheckpointState.typed state -> CheckpointCheck.Validate state v = Ok tt ->
  CheckpointCodec.Encode state CheckpointStateSize = Ok encoded ->
  CheckpointCheck.DecodeCheckpointState encoded v = Ok state.
Proof.
  intros Ht Hv He. rewrite checkpoint_Encode_Ok in He.
  assert (encoded = write_fields (zeros 1024) (CheckpointCodec.fields state)) as -> by congruence.
  apply checkpoint_Decode_inv.
  rewrite (checkpoint_parse_encode state Ht). by split; [apply checkpoint_reserved_encode|].
Qed.

Lemma checkpoint_encode_decode source v state :
  CheckpointCheck.DecodeCheckpointState source v = Ok state ->
  CheckpointState.typed state /\ CheckpointCheck.Validate state v = Ok tt /\
  CheckpointCodec.Encode state CheckpointStateSize = Ok source.
Proof.
  intros (Hr & -> & Hv)%checkpoint_Decode_inv. split; [|split; [done|]].
  - apply checkpoint_parse_typed. by apply checkpoint_reserved in Hr as [? _].
  - by rewrite checkpoint_Encode_Ok, checkpoint_encode_parse.
Qed.

(** C32: the checkpoint codec is a bijection on what it accepts.  A checkpoint
    that validates decodes from its encoding; and a source that decodes is the
    encoding of what it decoded to, byte for byte, reserved ranges included. *)
Theorem checkpoint_roundtrip state v :
  (CheckpointState.typed state -> CheckpointCheck.Validate state v = Ok tt ->
   exists encoded, CheckpointCodec.Encode state CheckpointStateSize = Ok encoded /\
     zlen encoded = CheckpointStateSize /\
     CheckpointCheck.DecodeCheckpointState encoded v = Ok state) /\
  (forall source, CheckpointCheck.DecodeCheckpointState source v = Ok state ->
   CheckpointCodec.Encode state CheckpointStateSize = Ok source).
Proof.
  split.
  - intros Ht Hv. eexists. split; [apply checkpoint_Encode_Ok|].
    split; [by apply zlen_checkpoint_encode|].
    eapply checkpoint_decode_encode; [done..|apply checkpoint_Encode_Ok].
  - intros source H. by apply checkpoint_encode_decode in H as (_ & _ & H).
Qed.

(** A checkpoint of an empty store: a prepare header and no references. *)
Definition sample_prepare : Header :=
  mkHeader (zeros 16) (ChecksumBytes []) (zeros 16) 256 0 0 1 0 CommandPrepare 0 (zeros 128).

Definition sample_prepare_bytes : list byte :=
  Eval vm_compute in
    match EncodeHeader HeaderSize sample_prepare with Ok (bytes, _) => bytes | Err _ => [] end.

Definition empty_sum : list byte := Eval vm_compute in ChecksumBytes [].

Definition sample_checkpoint (base : Z) : CheckpointState :=
  CheckpointState.mk sample_prepare_bytes (zeros 16) (zeros 16) (zeros 16) (zeros 16) (zeros 16)
    (zeros 16) empty_sum empty_sum empty_sum (zeros 16) (zeros 16) 0 0 0 0 0 0 base 0 0 0 0 1.

Definition sample_validation : CheckpointValidation :=
  CheckpointValidation.mk (zeros 16) 1048576 1 4096 4096 64.

Lemma sample_checkpoint_typed base : is_u64 base -> CheckpointState.typed (sample_checkpoint base).
Proof.
  intros Hb. split; [done| | |done|done]; unfold CheckpointState.arrays, CheckpointState.words;
    cbn -[zeros]; rewrite !Forall_cons; split_and?; (done || apply Forall_nil_2).
Qed.

Lemma checkpoint_roundtrip_witness :
  exists encoded, CheckpointCodec.Encode (sample_checkpoint 8192) CheckpointStateSize = Ok encoded /\
    CheckpointCheck.DecodeCheckpointState encoded sample_validation = Ok (sample_checkpoint 8192).
Proof.
  assert (is_u64 8192) as H64 by done.
  assert (CheckpointCheck.Validate (sample_checkpoint 8192) sample_validation = Ok tt) as Hv
    by (vm_compute; reflexivity).
  destruct (proj1 (checkpoint_roundtrip (sample_checkpoint 8192) sample_validation)
    (sample_checkpoint_typed 8192 H64) Hv) as (encoded & E & _ & D).
  exists encoded. exact (conj E D).
Defined.

(** What a validated checkpoint guarantees: whole block extents above the
    block base, a prepare header, and references inside the extents. *)
Record valid_checkpoint (state : CheckpointState) (v : CheckpointValidation) (blockCount : Z)
    : Prop := {
  vck_size : CheckpointState.LogicalStorageSize state
    = CheckpointValidation.BlockBase v + blockCount * CheckpointValidation.BlockSize v;
  vck_header : exists header, DecodeHeader (CheckpointState.Header state)
    (CheckpointValidation.Group v) (CheckpointValidation.MessageSizeMax v)
    (CheckpointValidation.MemberCount v) = (header, RejectNone) /\ Command header = CommandPrepare;
  vck_release : CheckpointState.Release state <> 0;
  vck_references : Forall (fun address => 0 <= address <= blockCount) (references state);
  vck_trailers : forall address size last,
    In (address, size, last)
      [ (CheckpointState.AcquiredTrailerLastAddress state,
         CheckpointState.AcquiredTrailerEncodedSize state,
         CheckpointState.AcquiredTrailerLastChecksum state);
        (CheckpointState.ReleasedTrailerLastAddress state,
         CheckpointState.ReleasedTrailerEncodedSize state,
         CheckpointState.ReleasedTrailerLastChecksum state) ] ->
    (address = 0 <-> size = 0) /\ (address = 0 <-> last = zeros 16) /\
    size mod 8 = 0 /\ size <= 8 * ((blockCount + 63) / 64 + 1);
  vck_sessions :
    CheckpointState.SessionTrailerEncodedSize state = 0 \/
    CheckpointState.SessionTrailerEncodedSize state = CheckpointValidation.ClientsMax v * 264;
}.

Lemma round_up_words blockCount :
  (if negb (blockCount mod 64 =? 0) then blockCount / 64 + 1 else blockCount / 64)
  = (blockCount + 63) / 64.
Proof. destruct (Z.eqb_spec (blockCount mod 64) 0); cbn; div_lia. Qed.

Lemma validEWAH_sound address size last aggregate empty blockCount :
  0 <= blockCount < 2 ^ 64 -> validEWAHTrailerReference address size last aggregate empty blockCount = true ->
  (address = 0 <-> size = 0) /\ (address = 0 <-> last = zeros 16) /\
  size mod 8 = 0 /\ size <= 8 * ((blockCount + 63) / 64 + 1).
Proof.
  intros Hb H. unfold validEWAHTrailerReference, IsZero16 in H. rewrite round_up_words in H.
  assert (0 <= (blockCount + 63) / 64 <= 2 ^ 60) as Hw by div_lia.
  destruct (Z.eqb_spec address 0) as [->|Hne].
  - split_bool. subst. repeat split; try done. lia.
  - destruct (checkedAdd _ 1) as [m|] eqn:Ea; [|done].
    destruct (checkedMul m 8) as [n|] eqn:Em; [|done]. split_bool.
    apply checkedAdd_Some in Ea as [-> Ha]; [|unfold is_uint; lia|done].
    apply checkedMul_Some in Em as [-> _]; [|unfold is_uint; lia|done].
    repeat split; (lia || done || idtac); intros ->; congruence.
Qed.

Lemma references_nonneg state :
  CheckpointState.typed state -> Forall (fun a => 0 <= a) (references state).
Proof.
  intros [_ _ Hw _ _]. unfold CheckpointState.words in Hw. unfold references.
  rewrite !Forall_cons in Hw. destruct_and! Hw. unfold is_uint in *.
  rewrite !Forall_cons. split_and?; (lia || apply Forall_nil_2).
Qed.

Lemma references_checked (addresses : list Z) blockCount :
  Forall (fun a => 0 <= a) addresses -> 0 <= blockCount ->
  existsb (fun address => negb (address =? 0)
    && negb (validCheckpointBlockAddress address blockCount)) addresses = false ->
  Forall (fun address => 0 <= address <= blockCount) addresses.
Proof.
  intros Hn Hb. induction Hn as [|a l Ha _ IH]; [done|]. cbn.
  intros [H1 H2]%orb_false_iff. constructor; [|by apply IH]. unfold validCheckpointBlockAddress in H1.
  destruct (Z.eqb_spec a 0); [lia|]. cbn in H1. destruct (Z.leb_spec a blockCount); [lia|done].
Qed.

(** A validated checkpoint refers only to its own storage.  The storage
    size is a whole number of blocks above the block base, every block address
    is inside it, a trailer reference is absent or complete, its encoded bitset
    within the size of an encoding of that many blocks, and the session trailer
    has the size of the configured session table. *)
Theorem checkpoint_Validate_sound state v :
  CheckpointState.typed state ->
  0 <= CheckpointValidation.BlockBase v -> 0 <= CheckpointValidation.BlockSize v ->
  is_u64 (CheckpointValidation.ClientsMax v) ->
  CheckpointCheck.Validate state v = Ok tt ->
  exists blockCount, 0 <= blockCount /\ valid_checkpoint state v blockCount.
Proof.
  intros Ht Hb Hs Hm H. pose proof (references_nonneg state Ht) as Hn.
  pose proof Ht as [_ _ Hw _ _]. unfold CheckpointState.words in Hw.
  rewrite !Forall_cons in Hw. destruct_and! Hw.
  assert (is_u64 (CheckpointState.LogicalStorageSize state)) as Hsize by done.
  unfold CheckpointCheck.Validate in H. step_guards H. clear H.
  unfold CheckpointCheck.headerAccepted in G. destruct (DecodeHeader _ _ _ _) as [h []] eqn:Eh;
    try discriminate.
  apply negb_false_iff, Z.eqb_eq in G. apply negb_false_iff in G1, G2.
  apply orb_false_iff in G0 as [G0 Gmod]. split_bool.
  set (count := (_ - _) / _) in *.
  assert (0 <= count < 2 ^ 64) as Hcount.
  { unfold count, is_uint in *. split; [apply Z.div_pos; lia|]. apply Z.div_lt_upper_bound; nia. }
  exists count. split; [lia|]. split.
  - unfold count. rewrite Z.mul_comm. apply Z_div_exact_full_2 in Gmod; lia.
  - by exists h.
  - done.
  - apply references_checked; [done|lia|done].
  - intros address size last [[= <- <- <-]|[[= <- <- <-]|[]]]; by eapply validEWAH_sound.
  - destruct (checkedMul _ _) as [n|] eqn:Em; [|done].
    apply checkedMul_Some in Em as [-> _]; [|done|done].
    unfold notOkOr, validSessionTrailerReference in G3.
    destruct (Z.eqb_spec (CheckpointState.SessionTrailerLastAddress state) 0); split_bool;
      [by left|by right].
Qed.

Lemma checkpoint_Validate_sound_witness :
  exists blockCount, 0 <= blockCount /\
    valid_checkpoint (sample_checkpoint 8192) sample_validation blockCount.
Proof.
  assert (is_u64 8192) as H64 by done.
  assert (0 <= CheckpointValidation.BlockBase sample_validation) as Hb by done.
  assert (0 <= CheckpointValidation.BlockSize sample_validation) as Hs by done.
  assert (is_u64 (CheckpointValidation.ClientsMax sample_validation)) as Hm by done.
  assert (CheckpointCheck.Validate (sample_checkpoint 8192) sample_validation = Ok tt) as Hv
    by (vm_compute; reflexivity).
  exact (checkpoint_Validate_sound (sample_checkpoint 8192) sample_validation
    (sample_checkpoint_typed 8192 H64) Hb Hs Hm Hv).
Defined.
