(* ===== verification/Superblock.v ===== *)
(** * Superblocks

    [src/replication/superblock.go]: the superblock record, its validation and
    its 8 KiB encoding. *)

From S2P Require Import Prelude Bytes Arith Checksum Header Config Ewah Storage Checkpoint.

Definition SuperblockStateSize : Z := 2048.
Definition SuperblockReservationEnd : Z := 4096.
Definition SuperblockHeadersOffset : Z := 4096.
Definition SuperblockHeadersMax : Z := 16.

(** ** Data *)

Module DurableReplicaState.
Record t := mk {
  Checkpoint : CheckpointState;
  LocalMember : list byte;
  Members : list (list byte);
  CommitMax : Z;
  SyncMin : Z;
  SyncMax : Z;
  LogView : Z;
  View : Z;
  ActiveCount : Z;
  StandbyCount : Z;
}.

Record typed (s : t) : Prop := {
  typed_checkpoint : CheckpointState.typed (Checkpoint s);
  typed_local : zlen (LocalMember s) = 16;
  typed_members : zlen (Members s) = MembersMax;
  typed_member : Forall (fun m => zlen m = 16) (Members s);
  typed_commit : is_u64 (CommitMax s);
  typed_sync_min : is_u64 (SyncMin s);
  typed_sync_max : is_u64 (SyncMax s);
  typed_log_view : is_u32 (LogView s);
  typed_view : is_u32 (View s);
  typed_active : is_u8 (ActiveCount s);
  typed_standby : is_u8 (StandbyCount s);
}.
End DurableReplicaState.
Abbreviation DurableReplicaState := DurableReplicaState.t.

#[export] Instance DurableReplicaState_eq_dec : EqDecision DurableReplicaState.
Proof. solve_decision. Defined.

Module Superblock.
Record t := mk {
  Checksum : list byte;
  FormatVersion : Z;
  Release : Z;
  Sequence : Z;
  Group : list byte;
  ParentChecksum : list byte;
  State : DurableReplicaState;
  ViewHeaderCount : Z;
  ConfigurationChecksum : list byte;
  ProtocolVersion : Z;
  ViewHeaders : list (list byte);
}.

Record typed (s : t) : Prop := {
  typed_checksum : zlen (Checksum s) = 16;
  typed_format : is_u16 (FormatVersion s);
  typed_release : is_u32 (Release s);
  typed_sequence : is_u64 (Sequence s);
  typed_group : zlen (Group s) = 16;
  typed_parent : zlen (ParentChecksum s) = 16;
  typed_state : DurableReplicaState.typed (State s);
  typed_count : is_u32 (ViewHeaderCount s);
  typed_configuration : zlen (ConfigurationChecksum s) = 16;
  typed_protocol : is_u16 (ProtocolVersion s);
  typed_headers : zlen (ViewHeaders s) = SuperblockHeadersMax;
  typed_header : Forall (fun h => zlen h = HeaderSize) (ViewHeaders s);
}.

Definition with_Checksum (s : t) (checksum : list byte) : t :=
  mk checksum (FormatVersion s) (Release s) (Sequence s) (Group s) (ParentChecksum s) (State s)
    (ViewHeaderCount s) (ConfigurationChecksum s) (ProtocolVersion s) (ViewHeaders s).
End Superblock.
Abbreviation Superblock := Superblock.t.

#[export] Instance Superblock_eq_dec : EqDecision Superblock.
Proof. solve_decision. Defined.

Module SuperblockValidation.
Record t := mk {
  Group : list byte;
  Membership : Membership;
  ConfigurationChecksum : list byte;
  Cluster : ClusterConfig;
}.
End SuperblockValidation.
Abbreviation SuperblockValidation := SuperblockValidation.t.

Module SuperblockCandidate.
Record t := mk {
  Superblock : Superblock;
  PhysicalIndex : Z;
  MisdirectedIndex : bool;
}.

Definition sequence (c : t) : Z := Superblock.Sequence (Superblock c).
End SuperblockCandidate.
Abbreviation SuperblockCandidate := SuperblockCandidate.t.

(** ** Validation *)

Definition memberCount (v : SuperblockValidation) : Z :=
  u8 (Membership.ActiveCount (SuperblockValidation.Membership v)
      + Membership.StandbyCount (SuperblockValidation.Membership v)).

Definition messageSizeMax (v : SuperblockValidation) : Z :=
  u32 (ClusterConfig.MessageSizeMax (SuperblockValidation.Cluster v)).

Definition checkpointValidation (v : SuperblockValidation) (blockBase : Z) : CheckpointValidation :=
  CheckpointValidation.mk (SuperblockValidation.Group v) (messageSizeMax v) (memberCount v)
    blockBase (ClusterConfig.BlockSize (SuperblockValidation.Cluster v))
    (ClusterConfig.ClientsMax (SuperblockValidation.Cluster v)).

Definition headerCountMax (v : SuperblockValidation) : Z :=
  u32 (u64 (ClusterConfig.PipelineMax (SuperblockValidation.Cluster v) + 1)).

Module SuperblockCheck.
Import Superblock.

Definition validIdentity (s : t) (v : SuperblockValidation) : bool :=
  (FormatVersion s =? Header.FormatVersion) && negb (Release s =? 0) && negb (Sequence s =? 0)
  && bool_decide (Group s = SuperblockValidation.Group v)
  && bool_decide (ConfigurationChecksum s = SuperblockValidation.ConfigurationChecksum v)
  && (ProtocolVersion s =? Header.ProtocolVersion).

Definition prepareHeader (v : SuperblockValidation) (header : list byte) : bool :=
  match DecodeHeader header (SuperblockValidation.Group v) (messageSizeMax v) (memberCount v) with
  | (decoded, RejectNone) => Command decoded =? CommandPrepare
  | _ => false
  end.

Definition membershipMatches (state : DurableReplicaState) (m : Membership) : bool :=
  bool_decide (DurableReplicaState.LocalMember state = Membership.LocalMember m)
  && bool_decide (DurableReplicaState.Members state = Membership.Members m)
  && (DurableReplicaState.ActiveCount state =? Membership.ActiveCount m)
  && (DurableReplicaState.StandbyCount state =? Membership.StandbyCount m).

(** [Superblock.Validate] *)
Definition Validate (s : t) (v : SuperblockValidation) : result durable_error unit :=
  let state := State s in
  if negb (validIdentity s v) then Err ErrInvalidSuperblock else
  if negb (membershipMatches state (SuperblockValidation.Membership v))
  then Err (Joined ErrInvalidSuperblock ErrIncompatibleConfiguration) else
  let base := default 0 (BlockBase (SuperblockValidation.Cluster v)) in
  _ ← CheckpointCheck.Validate (DurableReplicaState.Checkpoint state) (checkpointValidation v base);
  let checkpointOp := CheckpointCheck.PrepareOp (DurableReplicaState.Checkpoint state) in
  if (DurableReplicaState.CommitMax state <? checkpointOp)
     || (DurableReplicaState.SyncMax state <? DurableReplicaState.SyncMin state)
     || negb (Bool.eqb (DurableReplicaState.SyncMax state =? 0)
                       (DurableReplicaState.SyncMin state =? 0))
     || (DurableReplicaState.View state <? DurableReplicaState.LogView state)
  then Err ErrInvalidSuperblock else
  if (headerCountMax v <? ViewHeaderCount s) || (SuperblockHeadersMax <? ViewHeaderCount s)
  then Err ErrInvalidSuperblock else
  if negb (forallb (prepareHeader v) (take (Z.to_nat (ViewHeaderCount s)) (ViewHeaders s)))
  then Err ErrInvalidSuperblock else
  Ok tt.
End SuperblockCheck.

(** ** The codec *)

Module DurableCodec.
Import DurableReplicaState.

(** The copies of [encode] after the checkpoint. *)
Definition fields (state : t) (checkpoint : list byte) : list (Z * list byte) :=
  [ (0, checkpoint); (1024, LocalMember state) ]
  ++ array_fields 1040 16 (Members state)
  ++ [ (1232, putUint 8 (CommitMax state));
       (1240, putUint 8 (SyncMin state));
       (1248, putUint 8 (SyncMax state));
       (1260, putUint 4 (LogView state));
       (1264, putUint 4 (View state));
       (1268, putUint 1 (ActiveCount state));
       (1269, putUint 1 (StandbyCount state)) ].

(** [DurableReplicaState.encode] *)
Definition encode (state : t) (destination : Z) : result durable_error (list byte) :=
  if negb (destination =? SuperblockStateSize) then Err ErrInvalidSuperblock else
  checkpoint ← CheckpointCodec.Encode (Checkpoint state) CheckpointStateSize;
  Ok (write_fields (zeros SuperblockStateSize) (fields state checkpoint)).

(** The assignments of [decodeDurableReplicaState]. *)
Definition parse (source : list byte) (checkpoint : CheckpointState) : t :=
  mk checkpoint (slice source 1024 1040) (read_array source 1040 16 (Z.to_nat MembersMax))
    (getUint (slice source 1232 1240)) (getUint (slice source 1240 1248))
    (getUint (slice source 1248 1256)) (getUint (slice source 1260 1264))
    (getUint (slice source 1264 1268)) (byteAt source 1268) (byteAt source 1269).

Definition decodeDurableReplicaState (source : list byte) (v : SuperblockValidation)
    : result durable_error t :=
  if negb (zlen source =? SuperblockStateSize) || negb (allZero (slice source 1256 1260))
     || negb (allZero (slice source 1270 (zlen source)))
  then Err ErrInvalidSuperblock else
  match BlockBase (SuperblockValidation.Cluster v) with
  | None => Err ErrInvalidSuperblock
  | Some blockBase =>
      checkpoint ← CheckpointCheck.DecodeCheckpointState (slice source 0 1024)
        (checkpointValidation v blockBase);
      Ok (parse source checkpoint)
  end.
End DurableCodec.

Module SuperblockCodec.
Import Superblock.

(** The copies of [Encode] before the checksum. *)
Definition fields (s : t) (physicalIndex : Z) (state : list byte) : list (Z * list byte) :=
  [ (32, putUint 2 physicalIndex);
    (34, putUint 2 (FormatVersion s));
    (36, putUint 4 (Release s));
    (40, putUint 8 (Sequence s));
    (48, Group s);
    (64, ParentChecksum s);
    (96, state);
    (2152, putUint 4 (ViewHeaderCount s));
    (2156, ConfigurationChecksum s);
    (2172, putUint 2 (ProtocolVersion s)) ]
  ++ array_fields SuperblockHeadersOffset HeaderSize
       (take (Z.to_nat (ViewHeaderCount s)) (ViewHeaders s)).

Definition encode_unsealed (s : t) (physicalIndex : Z) (state : list byte) : list byte :=
  write_fields (zeros SuperblockBytes) (fields s physicalIndex state).

(** [Superblock.Encode]: the encoding, and the superblock with the checksum
    the call stores in it. *)
Definition Encode (s : t) (destination physicalIndex : Z) (v : SuperblockValidation)
    : result durable_error (list byte * t) :=
  if negb (destination =? SuperblockBytes)
     || (u16 (ClusterConfig.SuperblockCopies (SuperblockValidation.Cluster v)) <=? physicalIndex)
  then Err ErrInvalidSuperblock else
  _ ← SuperblockCheck.Validate s v;
  state ← DurableCodec.encode (State s) (2144 - 96);
  let d := encode_unsealed s physicalIndex state in
  let checksum := ChecksumBytes (slice d 34 SuperblockBytes) in
  Ok (put d 0 checksum, with_Checksum s checksum).

(** The fixed-position assignments of [DecodeSuperblock]. *)
Definition parse (source : list byte) (state : DurableReplicaState) : t :=
  let count := getUint (slice source 2152 2156) in
  mk (slice source 0 16) (getUint (slice source 34 36)) (getUint (slice source 36 40))
    (getUint (slice source 40 48)) (slice source 48 64) (slice source 64 80) state count
    (slice source 2156 2172) (getUint (slice source 2172 2174))
    (read_array source SuperblockHeadersOffset HeaderSize (Z.to_nat count)
     ++ replicate (Z.to_nat (SuperblockHeadersMax - count)) (zeros HeaderSize)).

Definition DecodeSuperblock (source : list byte) (physicalIndex : Z) (v : SuperblockValidation)
    : result durable_error SuperblockCandidate :=
  if negb (zlen source =? SuperblockBytes) || negb (allZero (slice source 16 32))
  then Err ErrInvalidSuperblock else
  let checksum := slice source 0 16 in
  if negb (bool_decide (ChecksumBytes (slice source 34 (zlen source)) = checksum))
  then Err ErrInvalidSuperblock else
  let storedFormat := getUint (slice source 34 36) in
  let storedRelease := getUint (slice source 36 40) in
  let storedSequence := getUint (slice source 40 48) in
  let storedGroup := slice source 48 64 in
  let storedConfiguration := slice source 2156 2172 in
  let storedProtocol := getUint (slice source 2172 2174) in
  if (storedRelease =? 0) || (storedSequence =? 0) then Err ErrInvalidSuperblock else
  if negb (storedFormat =? Header.FormatVersion)
     || negb (bool_decide (storedGroup = SuperblockValidation.Group v))
     || negb (bool_decide (storedConfiguration = SuperblockValidation.ConfigurationChecksum v))
     || negb (storedProtocol =? Header.ProtocolVersion)
  then Err (Joined ErrInvalidSuperblock ErrIncompatibleConfiguration) else
  let storedIndex := getUint (slice source 32 34) in
  state ← DurableCodec.decodeDurableReplicaState (slice source 96 2144) v;
  if negb (allZero (slice source 80 96)) || negb (getUint (slice source 2144 2152) =? 0)
     || negb (allZero (slice source 2174 4096))
  then Err ErrInvalidSuperblock else
  let count := getUint (slice source 2152 2156) in
  if (SuperblockHeadersMax <? count) || (headerCountMax v <? count)
  then Err ErrInvalidSuperblock else
  let superblock := parse source state in
  let unusedStart := SuperblockHeadersOffset + count * HeaderSize in
  if negb (allZero (slice source unusedStart (zlen source))) then Err ErrInvalidSuperblock else
  _ ← SuperblockCheck.Validate superblock v;
  Ok (SuperblockCandidate.mk superblock physicalIndex (negb (storedIndex =? physicalIndex))).
End SuperblockCodec.

(** ** The state codec is a bijection *)

Definition durable_layout : list (Z * Z) :=
  [(0, 1024); (1024, 16)] ++ array_layout 1040 16 12
  ++ [(1232, 8); (1240, 8); (1248, 8); (1260, 4); (1264, 4); (1268, 1); (1269, 1)].

Definition durable_gaps : list (Z * Z) := [(1256, 4); (1270, 778)].

Definition durable_cuts : list Z :=
  [1024; 1040; 1056; 1072; 1088; 1104; 1120; 1136; 1152; 1168; 1184; 1200; 1216; 1232;
   1240; 1248; 1256; 1260; 1264; 1268; 1269; 1270; 2048].

Lemma field_sizes_app a b : field_sizes (a ++ b) = field_sizes a ++ field_sizes b.
Proof. apply fmap_app. Qed.

Lemma durable_sizes state checkpoint :
  DurableReplicaState.typed state -> zlen checkpoint = 1024 ->
  field_sizes (DurableCodec.fields state checkpoint) = durable_layout.
Proof.
  intros [] Hc. unfold DurableCodec.fields, durable_layout. rewrite !field_sizes_app.
  rewrite array_fields_sizes by done.
  assert (length (DurableReplicaState.Members state) = 12%nat) as ->
    by (unfold zlen, MembersMax, ActiveMax, StandbyMax in *; lia).
  unfold field_sizes. cbn [fmap list_fmap]. by rewrite !zlen_putUint, Hc, typed_local.
Qed.

Definition durable_bytes (state : DurableReplicaState) : list byte :=
  write_fields (zeros 2048) (DurableCodec.fields state
    (write_fields (zeros 1024) (CheckpointCodec.fields (DurableReplicaState.Checkpoint state)))).

Lemma durable_encode_Ok state : DurableCodec.encode state (2144 - 96) = Ok (durable_bytes state).
Proof.
  unfold DurableCodec.encode. change (2144 - 96) with SuperblockStateSize. rewrite Z.eqb_refl.
  cbn [negb]. by rewrite checkpoint_Encode_Ok.
Qed.

Lemma durable_layout_ok state checkpoint :
  DurableReplicaState.typed state -> zlen checkpoint = 1024 ->
  layout_ok 2048 (field_sizes (DurableCodec.fields state checkpoint)) = true.
Proof. intros. rewrite durable_sizes by done. vm_compute. reflexivity. Qed.

Lemma zlen_durable_bytes state :
  DurableReplicaState.typed state -> zlen (durable_bytes state) = 2048.
Proof.
  intros Ht. apply zlen_write_fields; [done|]. apply durable_layout_ok; [done|].
  apply zlen_checkpoint_encode. apply Ht.
Qed.


(** Reads one field of an encoding whose layout is checked. *)
Ltac read_field Hok :=
  match goal with
  | |- context [slice (write_fields ?d ?fs) ?a ?b] =>
      erewrite (field_read _ d fs a _ b eq_refl Hok);
      [|rewrite ?elem_of_app, ?list_elem_of_In; cbn [In]; tauto
       |rewrite ?zlen_putUint; lia]
  end.

Lemma durable_parse_encode state :
  DurableReplicaState.typed state ->
  DurableCodec.parse (durable_bytes state) (DurableReplicaState.Checkpoint state) = state.
Proof.
  intros Ht. pose proof Ht as [Hck Hlocal Hm Hms Hcm Hsm Hsx Hlv Hv Ha Hs].
  pose proof (zlen_checkpoint_encode _ Hck) as Hc. unfold durable_bytes.
  set (ck := write_fields (zeros 1024) _) in *.
  pose proof (durable_layout_ok state ck Ht Hc) as Hok.
  unfold DurableCodec.parse, MembersMax, ActiveMax, StandbyMax in *.
  rewrite (byteAt_lit _ 1268 1269), (byteAt_lit _ 1269 1270) by lia.
  assert (read_array (write_fields (zeros 2048) (DurableCodec.fields state ck)) 1040 16
    (Z.to_nat (6 + 6)) = DurableReplicaState.Members state) as ->.
  { replace (Z.to_nat (6 + 6)) with (length (DurableReplicaState.Members state))
      by (unfold zlen in Hm; lia).
    by apply (array_read 2048). }
  unfold DurableCodec.fields in *. clearbody ck.
  do 8 read_field Hok.
  rewrite !getUint_putUint by assumption. by destruct state.
Qed.

Lemma durable_gaps_zero state :
  DurableReplicaState.typed state ->
  Forall (fun '(a, s) => slice (durable_bytes state) a (a + s) = zeros s) durable_gaps.
Proof.
  intros Ht. pose proof (zlen_checkpoint_encode _ (DurableReplicaState.typed_checkpoint _ Ht)) as Hc.
  pose proof (durable_sizes state _ Ht Hc) as Hs.
  apply write_fields_gaps; [|lia|]; rewrite Hs; vm_compute; reflexivity.
Qed.

Lemma durable_decode_encode state v base :
  DurableReplicaState.typed state -> BlockBase (SuperblockValidation.Cluster v) = Some base ->
  CheckpointCheck.Validate (DurableReplicaState.Checkpoint state) (checkpointValidation v base)
    = Ok tt ->
  DurableCodec.decodeDurableReplicaState (durable_bytes state) v = Ok state.
Proof.
  intros Ht Hb Hv. unfold DurableCodec.decodeDurableReplicaState.
  pose proof (zlen_durable_bytes state Ht) as Hl. pose proof (durable_gaps_zero state Ht) as HG.
  unfold durable_gaps in HG. rewrite !Forall_cons in HG. destruct HG as (Hg1 & Hg2 & _).
  literal_sums. rewrite Hl, Hg1, Hg2, !allZero_zeros. cbn [negb orb]. rewrite Hb.
  assert (slice (durable_bytes state) 0 1024 = write_fields (zeros 1024)
    (CheckpointCodec.fields (DurableReplicaState.Checkpoint state))) as ->.
  { pose proof (zlen_checkpoint_encode _ (DurableReplicaState.typed_checkpoint _ Ht)) as Hc.
    pose proof (durable_layout_ok state _ Ht Hc) as Hok. unfold durable_bytes.
    eapply (field_read 2048); [done|exact Hok|apply list_elem_of_here|lia]. }
  erewrite checkpoint_decode_encode; [|apply Ht|exact Hv|apply checkpoint_Encode_Ok].
  cbn [mbind result_bind]. by rewrite durable_parse_encode.
Qed.

Lemma durable_parse_typed source checkpoint :
  zlen source = 2048 -> CheckpointState.typed checkpoint ->
  DurableReplicaState.typed (DurableCodec.parse source checkpoint).
Proof.
  intros Hl Hc.
  assert (forall a b n, 0 <= a <= b -> b <= 2048 -> n = 8 * (b - a) ->
    is_uint n (getUint (slice source a b))) as Hu.
  { intros a b n ?? ->. rewrite <- (zlen_slice source a b) by lia. apply getUint_range. }
  split; unfold DurableCodec.parse, MembersMax, ActiveMax, StandbyMax; cbn -[slice read_array];
    try done; try (rewrite zlen_slice; lia); try (apply Hu; lia); try apply byteAt_range.
  apply read_array_sizes; lia.
Qed.

Lemma durable_encode_decode source v state :
  DurableCodec.decodeDurableReplicaState source v = Ok state ->
  DurableReplicaState.typed state /\ durable_bytes state = source /\
  exists base, BlockBase (SuperblockValidation.Cluster v) = Some base /\
    CheckpointCheck.Validate (DurableReplicaState.Checkpoint state) (checkpointValidation v base)
      = Ok tt.
Proof.
  unfold DurableCodec.decodeDurableReplicaState. intros H. step_guards H. split_bool.
  destruct (BlockBase _) as [base|] eqn:Eb; [|discriminate].
  apply result_bind_Ok in H as (ck & Hck & E). injection E as <-.
  match goal with E : zlen source = _ |- _ => rename E into Hl end.
  change SuperblockStateSize with 2048 in Hl. rewrite Hl in *.
  destruct (checkpoint_encode_decode _ _ _ Hck) as (Htck & Hvck & Heck).
  split; [by apply durable_parse_typed|]. split; [|by exists base].
  rewrite checkpoint_Encode_Ok in Heck. unfold durable_bytes.
  cbn [DurableReplicaState.Checkpoint DurableCodec.parse].
  assert (write_fields (zeros 1024) (CheckpointCodec.fields ck) = slice source 0 1024) as ->
    by congruence.
  assert (Forall (fun '(a, s) => slice source a (a + s) = zeros s) durable_gaps) as HG.
  { unfold durable_gaps. rewrite !Forall_cons. literal_sums. split_and?; try apply Forall_nil_2;
      by apply (allZero_slice_zeros source); [lia..|]. }
  pose proof (write_read_fields 2048 source durable_layout durable_gaps durable_cuts
    Hl ltac:(lia) eq_refl eq_refl HG eq_refl eq_refl eq_refl) as Hw.
  etrans; [|exact Hw]. apply (f_equal (write_fields (zeros 2048))).
  unfold DurableCodec.fields, DurableCodec.parse. cbn -[slice Z.add putUint].
  rewrite (byteAt_lit _ 1268 1269), (byteAt_lit _ 1269 1270) by lia.
  by rewrite !putUint_getUint by (rewrite zlen_slice; lia).
Qed.

(** ** The superblock codec *)

Definition superblock_layout (count : nat) : list (Z * Z) :=
  ([(32, 2); (34, 2); (36, 4); (40, 8); (48, 16); (64, 16); (96, 2048); (2152, 4); (2156, 16);
    (2172, 2)] ++ array_layout 4096 256 count) ++ [(0, 16)].

Definition superblock_gaps (count : nat) : list (Z * Z) :=
  [(16, 16); (80, 16); (2144, 8); (2174, 1922);
   (4096 + Z.of_nat count * 256, 4096 - Z.of_nat count * 256)].

Definition superblock_cuts (count : nat) : list Z :=
  [16; 32; 34; 36; 40; 48; 64; 80; 96; 2144; 2152; 2156; 2172; 2174; 4096]
  ++ ((fun i => 4096 + Z.of_nat i * 256) <$> seq 1 count) ++ [8192].

Record layout_checked (count : nat) : Prop := {
  lc_fields : layout_ok 8192 (superblock_layout count) = true;
  lc_gaps : forallb (gap_ok 8192 (superblock_layout count)) (superblock_gaps count) = true;
  lc_increasing : increasing 0 (superblock_cuts count) = true;
  lc_last : last_cut 0 (superblock_cuts count) = 8192;
  lc_tiles : tiles 0 (superblock_cuts count) (superblock_layout count ++ superblock_gaps count) = true;
}.

Lemma superblock_layout_checked count : (count <= 16)%nat -> layout_checked count.
Proof.
  intros Hc. do 17 (destruct count as [|count]; [by split; vm_compute|]). lia.
Qed.

(** The unused view headers are not encoded and read back as zero. *)
Definition normalize (s : Superblock) : Superblock :=
  Superblock.mk (Superblock.Checksum s) (Superblock.FormatVersion s) (Superblock.Release s)
    (Superblock.Sequence s) (Superblock.Group s) (Superblock.ParentChecksum s)
    (Superblock.State s) (Superblock.ViewHeaderCount s) (Superblock.ConfigurationChecksum s)
    (Superblock.ProtocolVersion s)
    (take (Z.to_nat (Superblock.ViewHeaderCount s)) (Superblock.ViewHeaders s)
     ++ replicate (Z.to_nat (16 - Superblock.ViewHeaderCount s)) (zeros 256)).

Definition header_count (s : Superblock) : nat := Z.to_nat (Superblock.ViewHeaderCount s).

Definition sealed (s : Superblock) (index : Z) (cs : list byte) : list (Z * list byte) :=
  SuperblockCodec.fields s index (durable_bytes (Superblock.State s)) ++ [(0, cs)].

Lemma used_headers s :
  Superblock.typed s -> Superblock.ViewHeaderCount s <= 16 ->
  (header_count s <= 16)%nat /\
  length (take (header_count s) (Superblock.ViewHeaders s)) = header_count s /\
  Forall (fun h => zlen h = 256) (take (header_count s) (Superblock.ViewHeaders s)).
Proof.
  intros Ht Hc. pose proof (Superblock.typed_count _ Ht) as Hn.
  pose proof (Superblock.typed_headers _ Ht) as Hl.
  unfold header_count, zlen, SuperblockHeadersMax, is_uint in *.
  split; [lia|]. split; [rewrite length_take; lia|]. apply Forall_take, Ht.
Qed.

Lemma sb_sealed_sizes s index cs :
  Superblock.typed s -> Superblock.ViewHeaderCount s <= 16 -> zlen cs = 16 ->
  field_sizes (sealed s index cs) = superblock_layout (header_count s).
Proof.
  intros Ht Hc Hcs. destruct (used_headers s Ht Hc) as (_ & Hlen & HF).
  unfold sealed, SuperblockCodec.fields, superblock_layout. rewrite !field_sizes_app.
  change HeaderSize with 256. change SuperblockHeadersOffset with 4096.
  fold (header_count s). rewrite array_fields_sizes by done. rewrite Hlen.
  destruct Ht. unfold field_sizes. cbn [fmap list_fmap].
  by rewrite !zlen_putUint, zlen_durable_bytes, Hcs, typed_group, typed_parent, typed_configuration.
Qed.

Definition sb_bytes (s : Superblock) (index : Z) (cs : list byte) : list byte :=
  write_fields (zeros 8192) (sealed s index cs).

Lemma sealed_ok s index cs :
  Superblock.typed s -> Superblock.ViewHeaderCount s <= 16 -> zlen cs = 16 ->
  layout_ok 8192 (field_sizes (sealed s index cs)) = true.
Proof.
  intros Ht Hc Hcs. rewrite sb_sealed_sizes by done.
  apply superblock_layout_checked, (used_headers s Ht Hc).
Qed.

Lemma sb_bytes_put s index cs :
  put (SuperblockCodec.encode_unsealed s index (durable_bytes (Superblock.State s))) 0 cs
  = sb_bytes s index cs.
Proof.
  unfold sb_bytes, sealed, SuperblockCodec.encode_unsealed, write_fields. by rewrite fold_left_app.
Qed.

Lemma zlen_sb_bytes s index cs :
  Superblock.typed s -> Superblock.ViewHeaderCount s <= 16 -> zlen cs = 16 ->
  zlen (sb_bytes s index cs) = 8192.
Proof. intros. apply zlen_write_fields; [done|]. by apply sealed_ok. Qed.

Lemma sb_parse s index cs :
  Superblock.typed s -> Superblock.ViewHeaderCount s <= 16 -> zlen cs = 16 ->
  SuperblockCodec.parse (sb_bytes s index cs) (Superblock.State s)
  = Superblock.with_Checksum (normalize s) cs.
Proof.
  intros Ht Hc Hcs. pose proof (sealed_ok s index cs Ht Hc Hcs) as Hok.
  destruct (used_headers s Ht Hc) as (_ & Hlen & HF).
  pose proof (zlen_durable_bytes _ (Superblock.typed_state _ Ht)) as Hd.
  unfold sb_bytes, SuperblockCodec.parse, sealed, SuperblockCodec.fields in *.
  set (w := write_fields _ _).
  assert (getUint (slice w 2152 2156) = Superblock.ViewHeaderCount s) as ->.
  { unfold w. read_field Hok. apply getUint_putUint, Ht. }
  assert (read_array w SuperblockHeadersOffset HeaderSize (header_count s)
    = take (header_count s) (Superblock.ViewHeaders s)) as Hr.
  { rewrite <- Hlen at 1. unfold w. rewrite <- app_assoc in *. by apply (array_read 8192). }
  unfold header_count in Hr. rewrite Hr. clear Hr. subst w.
  destruct Ht. repeat read_field Hok. rewrite !getUint_putUint by assumption. done.
Qed.

Lemma sb_gaps s index cs :
  Superblock.typed s -> Superblock.ViewHeaderCount s <= 16 -> zlen cs = 16 ->
  Forall (fun '(a, n) => slice (sb_bytes s index cs) a (a + n) = zeros n)
    (superblock_gaps (header_count s)).
Proof.
  intros Ht Hc Hcs. pose proof (sb_sealed_sizes s index cs Ht Hc Hcs) as Hs.
  destruct (superblock_layout_checked (header_count s)) as [].
  { apply (used_headers s Ht Hc). }
  apply write_fields_gaps; [|lia|]; by rewrite Hs.
Qed.

(** The checksum covers the copy from byte 34 on, which leaves the physical
    index out: every copy of a superblock has the same checksum. *)
Definition superblock_sum (s : Superblock) : list byte :=
  ChecksumBytes (drop 34 (sb_bytes s 0 (zeros 16))).

Lemma unsealed_tail s k cs :
  zlen cs = 16 ->
  drop 34 (SuperblockCodec.encode_unsealed s k (durable_bytes (Superblock.State s)))
  = drop 34 (sb_bytes s k cs).
Proof.
  intros Hz. rewrite <- sb_bytes_put. unfold put. rewrite Hz, take_0. cbn [app].
  rewrite drop_app_ge by (unfold zlen in Hz; lia). rewrite drop_drop.
  f_equal. unfold zlen in Hz. lia.
Qed.

Lemma sb_tail s i j cs cs' :
  Superblock.typed s -> Superblock.ViewHeaderCount s <= 16 -> zlen cs = 16 -> zlen cs' = 16 ->
  drop 34 (sb_bytes s i cs) = drop 34 (sb_bytes s j cs').
Proof.
  intros Ht Hc Hcs Hcs'. rewrite <- !unsealed_tail by done. set (d := durable_bytes _).
  unfold SuperblockCodec.encode_unsealed, SuperblockCodec.fields.
  pose proof (sealed_ok s i cs Ht Hc Hcs) as Hok. unfold sealed, SuperblockCodec.fields in Hok.
  rewrite field_sizes_app in Hok. apply layout_ok_app_l in Hok.
  cbn [app] in *. cbn [field_sizes fmap list_fmap layout_ok] in Hok.
  rewrite (write_fields_cons _ 32 (putUint 2 i)), (write_fields_cons _ 32 (putUint 2 j)).
  apply andb_prop in Hok as [_ Hok].
  assert (forall k, zlen (put (zeros SuperblockBytes) 32 (putUint 2 k)) = 8192 /\
    drop 34 (put (zeros SuperblockBytes) 32 (putUint 2 k)) = drop 34 (zeros SuperblockBytes)) as Hp.
  { intros k. change SuperblockBytes with 8192. pose proof (zlen_putUint 2 k) as Hk.
    split; [rewrite zlen_put; rewrite ?Hk, ?zlen_zeros; lia|].
    change 34%nat with (Z.to_nat 34). rewrite <- !slice_to_end by lia.
    rewrite zlen_put by (rewrite ?Hk, ?zlen_zeros; lia).
    by rewrite slice_put_after by (rewrite ?Hk, ?zlen_zeros; lia). }
  apply (write_fields_drop _ _ _ 34 8192); [lia|..].
  - exact (proj1 (Hp _)).
  - exact (proj1 (Hp _)).
  - exact Hok.
  - cbn [forallb fst]. cbn. apply forallb_forall. intros [o bs] Hin%list_elem_of_In.
    unfold array_fields in Hin. apply elem_of_lookup_imap_1 in Hin as (k & x & [= -> ->] & _).
    apply Z.leb_le. cbn [fst]. unfold SuperblockHeadersOffset, HeaderSize. lia.
  - exact (eq_trans (proj2 (Hp _)) (eq_sym (proj2 (Hp _)))).
Qed.

Lemma Validate_inv s v :
  SuperblockCheck.Validate s v = Ok tt ->
  SuperblockCheck.validIdentity s v = true /\
  SuperblockCheck.membershipMatches (Superblock.State s) (SuperblockValidation.Membership v) = true /\
  CheckpointCheck.Validate (DurableReplicaState.Checkpoint (Superblock.State s))
    (checkpointValidation v (default 0 (BlockBase (SuperblockValidation.Cluster v)))) = Ok tt /\
  Superblock.ViewHeaderCount s <= headerCountMax v /\ Superblock.ViewHeaderCount s <= 16.
Proof.
  unfold SuperblockCheck.Validate, SuperblockHeadersMax. intros H. step_guards H. split_bool.
  apply result_bind_Ok in H as ([] & Hck & H). step_guards H. split_bool. done.
Qed.

Lemma Validate_normalize s v cs :
  Superblock.typed s -> SuperblockCheck.Validate s v = Ok tt ->
  SuperblockCheck.Validate (Superblock.with_Checksum (normalize s) cs) v = Ok tt.
Proof.
  intros Ht Hv. pose proof (Validate_inv s v Hv) as (_ & _ & _ & _ & Hc).
  destruct (used_headers s Ht Hc) as (_ & Hlen & _). unfold header_count in Hlen.
  rewrite <- Hv. unfold SuperblockCheck.Validate.
  cbn [normalize Superblock.with_Checksum Superblock.State Superblock.ViewHeaderCount
    Superblock.ViewHeaders].
  rewrite take_app_le by lia. rewrite take_take, Nat.min_id. done.
Qed.

Lemma Encode_Ok s i v :
  Superblock.typed s -> SuperblockCheck.Validate s v = Ok tt ->
  i < u16 (ClusterConfig.SuperblockCopies (SuperblockValidation.Cluster v)) ->
  SuperblockCodec.Encode s SuperblockBytes i v
  = Ok (sb_bytes s i (superblock_sum s), Superblock.with_Checksum s (superblock_sum s)).
Proof.
  intros Ht Hv Hi. pose proof (Validate_inv s v Hv) as (_ & _ & _ & _ & Hc).
  unfold SuperblockCodec.Encode. rewrite Z.eqb_refl. rewrite (proj2 (Z.leb_gt _ i)) by exact Hi.
  cbn [negb orb]. rewrite Hv. cbn [mbind result_bind]. rewrite durable_encode_Ok.
  cbn [mbind result_bind]. set (u := SuperblockCodec.encode_unsealed _ _ _).
  assert (zlen u = SuperblockBytes) as Hu.
  { pose proof (sealed_ok s i (zeros 16) Ht Hc eq_refl) as Hok. unfold sealed in Hok.
    rewrite field_sizes_app in Hok. apply layout_ok_app_l in Hok.
    apply zlen_write_fields; [by apply zlen_zeros|exact Hok]. }
  assert (ChecksumBytes (slice u 34 SuperblockBytes) = superblock_sum s) as ->.
  { rewrite <- Hu, slice_to_end by lia. change (Z.to_nat 34) with 34%nat. unfold u, superblock_sum.
    rewrite (unsealed_tail s i (zeros 16)) by done. by rewrite (sb_tail s i 0 (zeros 16) (zeros 16)). }
  unfold u. by rewrite sb_bytes_put.
Qed.

Lemma zlen_superblock_sum s : zlen (superblock_sum s) = 16.
Proof. apply zlen_ChecksumBytes. Qed.

Lemma identity_checks s v :
  SuperblockCheck.validIdentity s v = true ->
  (Superblock.Release s =? 0) || (Superblock.Sequence s =? 0) = false /\
  negb (Superblock.FormatVersion s =? Header.FormatVersion)
    || negb (bool_decide (Superblock.Group s = SuperblockValidation.Group v))
    || negb (bool_decide
         (Superblock.ConfigurationChecksum s = SuperblockValidation.ConfigurationChecksum v))
    || negb (Superblock.ProtocolVersion s =? Header.ProtocolVersion) = false.
Proof.
  unfold SuperblockCheck.validIdentity. intros H.
  repeat (apply andb_prop in H as [H ?]).
  repeat match goal with E : _ = true |- _ => rewrite ?E; revert E end. intros.
  split_bool. split; [|done]. apply orb_false_iff. split; by apply Z.eqb_neq.
Qed.

Lemma Decode_bytes s i j v base :
  Superblock.typed s -> SuperblockCheck.Validate s v = Ok tt -> is_u16 i ->
  BlockBase (SuperblockValidation.Cluster v) = Some base ->
  SuperblockCodec.DecodeSuperblock (sb_bytes s i (superblock_sum s)) j v
  = Ok (SuperblockCandidate.mk (Superblock.with_Checksum (normalize s) (superblock_sum s)) j
          (negb (i =? j))).
Proof.
  intros Ht Hv Hi Hb. pose proof (Validate_inv s v Hv) as (Hid & _ & Hck & Hcm & Hc).
  pose proof (zlen_superblock_sum s) as Hcs.
  pose proof (zlen_sb_bytes s i _ Ht Hc Hcs) as Hl.
  pose proof (sb_parse s i _ Ht Hc Hcs) as Hp.
  pose proof (sb_gaps s i _ Ht Hc Hcs) as HG. unfold superblock_gaps in HG.
  rewrite !Forall_cons in HG. destruct HG as (G1 & G2 & G3 & G4 & G5 & _). literal_sums.
  assert (slice (sb_bytes s i (superblock_sum s)) 96 2144 = durable_bytes (Superblock.State s)
    /\ slice (sb_bytes s i (superblock_sum s)) 32 34 = putUint 2 i) as [Hst Hix].
  { pose proof (sealed_ok s i _ Ht Hc Hcs) as Hok.
    pose proof (zlen_durable_bytes _ (Superblock.typed_state _ Ht)) as Hd.
    unfold sb_bytes, sealed, SuperblockCodec.fields in *. split; by repeat read_field Hok. }
  assert (ChecksumBytes (slice (sb_bytes s i (superblock_sum s)) 34 8192) = superblock_sum s) as Hsum.
  { rewrite <- Hl, slice_to_end by lia. change (Z.to_nat 34) with 34%nat. unfold superblock_sum at 2.
    by rewrite (sb_tail s i 0 _ (zeros 16)). }
  set (w := sb_bytes s i (superblock_sum s)) in *. clearbody w.
  unfold SuperblockCodec.DecodeSuperblock.
  rewrite Hl. change SuperblockBytes with 8192. rewrite G1, allZero_zeros. cbn [negb orb].
  pose proof (f_equal Superblock.Release Hp) as P1. pose proof (f_equal Superblock.Sequence Hp) as P2.
  pose proof (f_equal Superblock.FormatVersion Hp) as P3. pose proof (f_equal Superblock.Group Hp) as P4.
  pose proof (f_equal Superblock.ConfigurationChecksum Hp) as P5.
  pose proof (f_equal Superblock.ProtocolVersion Hp) as P6.
  pose proof (f_equal Superblock.Checksum Hp) as P7.
  pose proof (f_equal Superblock.ViewHeaderCount Hp) as P8.
  cbn [SuperblockCodec.parse Superblock.with_Checksum normalize Superblock.Release
    Superblock.Sequence Superblock.FormatVersion Superblock.Group Superblock.ProtocolVersion
    Superblock.ConfigurationChecksum Superblock.Checksum Superblock.ViewHeaderCount]
    in P1, P2, P3, P4, P5, P6, P7, P8.
  rewrite Hsum, P1, P2, P3, P4, P5, P6, P7, P8. rewrite bool_decide_true by done.
  destruct (identity_checks s v Hid) as [-> ->]. cbn [negb orb Z.eqb Pos.eqb].
  rewrite Hb in Hck. cbn [default] in Hck. rewrite Hst, (durable_decode_encode _ v base);
    [|apply Ht|exact Hb|exact Hck]. cbn [mbind result_bind].
  rewrite G2, G3, G4, !allZero_zeros, Hp, Hix, getUint_putUint by exact Hi.
  change (getUint (zeros 8) =? 0) with true. cbn [negb orb].
  rewrite (proj2 (Z.ltb_ge _ _) Hcm), (proj2 (Z.ltb_ge SuperblockHeadersMax _) Hc). cbn [orb].
  assert (allZero (slice w (SuperblockHeadersOffset + Superblock.ViewHeaderCount s * HeaderSize)
    8192) = true) as ->.
  { pose proof (Superblock.typed_count _ Ht) as Hn. unfold header_count, is_uint in *.
    unfold SuperblockHeadersOffset, HeaderSize.
    rewrite Z2Nat.id in G5 by lia. replace (4096 + Superblock.ViewHeaderCount s * 256 +
      (4096 - Superblock.ViewHeaderCount s * 256)) with 8192 in G5 by lia.
    by rewrite G5, allZero_zeros. }
  cbn [negb]. by rewrite (Validate_normalize s v _ Ht Hv).
Qed.

Lemma sb_parse_typed source state :
  zlen source = 8192 -> DurableReplicaState.typed state ->
  getUint (slice source 2152 2156) <= 16 ->
  Superblock.typed (SuperblockCodec.parse source state) /\
  normalize (SuperblockCodec.parse source state) = SuperblockCodec.parse source state.
Proof.
  intros Hl Hs Hc.
  assert (forall a b n, 0 <= a <= b -> b <= 8192 -> n = 8 * (b - a) ->
    is_uint n (getUint (slice source a b))) as Hu.
  { intros a b n ?? ->. rewrite <- (zlen_slice source a b) by lia. apply getUint_range. }
  pose proof (Hu 2152 2156 32 ltac:(lia) ltac:(lia) ltac:(lia)) as Hn. unfold is_uint in Hn.
  unfold normalize, SuperblockCodec.parse, SuperblockHeadersOffset, HeaderSize,
    SuperblockHeadersMax in *.
  cbn -[slice read_array zeros take replicate]. set (n := getUint (slice source 2152 2156)) in *.
  split; [|by rewrite take_app_le, take_ge by (rewrite length_read_array; lia)].
  split; cbn -[slice read_array zeros replicate]; try done;
    try (rewrite zlen_slice; lia); try (apply Hu; lia); unfold SuperblockHeadersMax, HeaderSize.
  - unfold zlen. rewrite length_app, length_read_array, length_replicate. lia.
  - apply Forall_app. split; [apply read_array_sizes; lia|]. by apply Forall_replicate.
Qed.

(** A source with zero gaps is the encoding of what it parses to. *)
Lemma sb_encode_parse source state :
  zlen source = 8192 -> DurableReplicaState.typed state ->
  durable_bytes state = slice source 96 2144 ->
  Superblock.ViewHeaderCount (SuperblockCodec.parse source state) <= 16 ->
  Forall (fun '(a, n) => slice source a (a + n) = zeros n)
    (superblock_gaps (header_count (SuperblockCodec.parse source state))) ->
  sb_bytes (SuperblockCodec.parse source state) (getUint (slice source 32 34)) (slice source 0 16)
  = source.
Proof.
  intros Hl Ht Hd Hc HG. destruct (sb_parse_typed source state Hl Ht Hc) as [Htp _].
  destruct (used_headers _ Htp Hc) as (Hn & _ & _).
  destruct (superblock_layout_checked _ Hn) as [].
  pose proof (write_read_fields 8192 source _ _ _ Hl ltac:(lia) lc_fields0 lc_gaps0 HG
    lc_increasing0 lc_last0 lc_tiles0) as Hw.
  etrans; [|exact Hw]. unfold sb_bytes. apply (f_equal (write_fields (zeros 8192))).
  unfold sealed, SuperblockCodec.fields, superblock_layout. clear Hw HG.
  set (n := header_count _). rewrite <- !app_assoc.
  unfold read_fields. rewrite !fmap_app, !zip_with_app by (by rewrite !length_fmap).
  cbn [app fmap list_fmap zip_with fst SuperblockCodec.parse Superblock.FormatVersion
    Superblock.Release Superblock.Sequence Superblock.Group Superblock.ParentChecksum
    Superblock.State Superblock.ViewHeaderCount Superblock.ConfigurationChecksum
    Superblock.ProtocolVersion Superblock.ViewHeaders].
  rewrite Hd. rewrite !putUint_getUint by (rewrite zlen_slice; lia). literal_sums.
  do 10 f_equal. change (Z.to_nat (getUint (slice source 2152 2156))) with n.
  rewrite take_app_le, take_ge by (rewrite length_read_array; lia). f_equal.
  rewrite <- zip_array_layout, length_read_array. done.
Qed.

Lemma Decode_inv source j v c :
  SuperblockCodec.DecodeSuperblock source j v = Ok c ->
  let s := SuperblockCandidate.Superblock c in
  (exists base, BlockBase (SuperblockValidation.Cluster v) = Some base) /\
  Superblock.typed s /\ SuperblockCheck.Validate s v = Ok tt /\ normalize s = s /\
  Superblock.Checksum s = superblock_sum s /\ SuperblockCandidate.PhysicalIndex c = j /\
  exists i, is_u16 i /\ source = sb_bytes s i (superblock_sum s) /\
    SuperblockCandidate.MisdirectedIndex c = negb (i =? j) /\ getUint (slice source 32 34) = i.
Proof.
  unfold SuperblockCodec.DecodeSuperblock. intros H. step_guards H.
  apply result_bind_Ok in H as (state & Hst & H). step_guards H.
  apply result_bind_Ok in H as ([] & Hv & H). injection H as <-.
  cbn [SuperblockCandidate.Superblock SuperblockCandidate.PhysicalIndex
    SuperblockCandidate.MisdirectedIndex]. split_bool.
  change SuperblockBytes with 8192 in *.
  match goal with E : zlen source = 8192 |- _ => rename E into Hl end. rewrite Hl in *.
  destruct (durable_encode_decode _ _ _ Hst) as (Htst & Hd & base & Hb & _).
  match goal with E : getUint _ <= SuperblockHeadersMax |- _ =>
    destruct (sb_parse_typed source state Hl Htst E) as [Ht Hn]; rename E into Hc end.
  assert (0 <= getUint (slice source 2152 2156)) as Hc0 by apply getUint_range.
  assert (is_u16 (getUint (slice source 32 34))) as Hi.
  { change 16 with (8 * 2). replace 2 with (zlen (slice source 32 34)) by (rewrite zlen_slice; lia).
    apply getUint_range. }
  unfold SuperblockHeadersMax, SuperblockHeadersOffset, HeaderSize in *.
  assert (sb_bytes (SuperblockCodec.parse source state) (getUint (slice source 32 34))
    (slice source 0 16) = source) as He.
  { apply sb_encode_parse; try done. unfold superblock_gaps, header_count.
    cbn [SuperblockCodec.parse Superblock.ViewHeaderCount]. rewrite Z2Nat.id by done.
    rewrite !Forall_cons. literal_sums. split_and?; try apply Forall_nil_2.
    - by apply (allZero_slice_zeros source); [lia..|].
    - by apply (allZero_slice_zeros source); [lia..|].
    - rewrite <- (putUint_getUint 8 (slice source 2144 2152)) by (rewrite zlen_slice; lia).
      by match goal with E : getUint (slice source 2144 2152) = 0 |- _ => rewrite E end.
    - by apply (allZero_slice_zeros source); [lia..|].
    - match goal with E : allZero (slice source (_ + _) 8192) = true |- _ =>
        apply allZero_slice_zeros in E; [|lia..] end.
      replace (_ + (4096 - _)) with 8192 by lia. replace (4096 - _) with
        (8192 - (4096 + getUint (slice source 2152 2156) * 256)) by lia. done. }
  assert (slice source 0 16 = superblock_sum (SuperblockCodec.parse source state)) as Hsum.
  { match goal with E : ChecksumBytes _ = slice source 0 16 |- _ => rewrite <- E end.
    unfold superblock_sum. rewrite <- Hl at 1. rewrite slice_to_end by lia. f_equal.
    rewrite <- He at 1. apply sb_tail; [done..|rewrite zlen_slice; lia|done]. }
  rewrite <- Hsum. split; [by exists base|]. split_and!; try done.
  exists (getUint (slice source 32 34)). by rewrite He.
Qed.

(** C31: the superblock codec is a bijection on what it accepts.  A superblock
    that validates encodes at every physical index of the configuration, with
    one checksum for all copies, and decodes to itself (the view headers beyond
    its count, which are not stored, read back as zero); read at another index
    the copy decodes to the same superblock and is reported as misdirected, and
    only then.  Conversely every copy that decodes is, byte for byte, the
    encoding of what it decoded to at the index stored in it (where that is an
    index of the configuration), and it is reported as misdirected exactly if it
    was read at another one. *)
Theorem superblock_roundtrip s v base i :
  BlockBase (SuperblockValidation.Cluster v) = Some base ->
  0 <= i < u16 (ClusterConfig.SuperblockCopies (SuperblockValidation.Cluster v)) ->
  (Superblock.typed s -> SuperblockCheck.Validate s v = Ok tt ->
   exists bytes s', SuperblockCodec.Encode s SuperblockBytes i v = Ok (bytes, s') /\
     s' = Superblock.with_Checksum s (superblock_sum s) /\
     forall j, SuperblockCodec.DecodeSuperblock bytes j v
       = Ok (SuperblockCandidate.mk (normalize s') j (negb (i =? j)))) /\
  (forall source c, SuperblockCodec.DecodeSuperblock source i v = Ok c ->
   exists j, is_u16 j /\ getUint (slice source 32 34) = j /\
     SuperblockCandidate.MisdirectedIndex c = negb (j =? i) /\
     (j < u16 (ClusterConfig.SuperblockCopies (SuperblockValidation.Cluster v)) ->
      SuperblockCodec.Encode (SuperblockCandidate.Superblock c) SuperblockBytes j v
        = Ok (source, SuperblockCandidate.Superblock c))).
Proof.
  intros Hb Hi. assert (is_u16 i) as Hu.
  { pose proof (uwrap_range 16 (ClusterConfig.SuperblockCopies (SuperblockValidation.Cluster v))
      ltac:(lia)) as Hr. unfold is_uint in *. lia. }
  split.
  - intros Ht Hv. eexists _, _. split; [apply Encode_Ok; [done..|lia]|]. split; [done|].
    intros j. by rewrite (Decode_bytes s i j v base).
  - intros source c Hd. apply Decode_inv in Hd as (_ & Ht & Hv & _ & Hs & _ & j & Hj & Eb & Ej & Eg).
    exists j. split_and!; [apply Hj..|done|done|].
    intros Hlt. rewrite Eb at 1. rewrite Encode_Ok by (done || lia). rewrite <- Hs. by destruct c as [[] ? ?].
Qed.

(** A one-member group with an empty store. *)
Definition cluster_with_copies (copies : Z) : ClusterConfig :=
  let c := DefaultClusterConfig in
  ClusterConfig.mk (ClusterConfig.CacheLineSize c) (ClusterConfig.ClientsMax c)
    (ClusterConfig.PipelineMax c) (ClusterConfig.ViewChangeHeadersSuffixMax c)
    (ClusterConfig.ReplicationQuorumMax c) (ClusterConfig.JournalSlots c)
    (ClusterConfig.MessageSizeMax c) (ClusterConfig.ApplicationBatchSizeMax c)
    (ClusterConfig.ApplicationReplySizeMax c) copies (ClusterConfig.BlockSize c)
    (ClusterConfig.StorageLevels c) (ClusterConfig.StorageGrowthFactor c)
    (ClusterConfig.CompactionOps c) (ClusterConfig.StorageSnapshotsMax c)
    (ClusterConfig.ManifestCompactExtraBlocks c) (ClusterConfig.TableCoalescingThresholdPercent c)
    (ClusterConfig.ReleaseHistoryMax c) (ClusterConfig.StorageScansMax c).

Definition sample_sv (copies : Z) : SuperblockValidation :=
  SuperblockValidation.mk (zeros 16) sample_membership (zeros 16) (cluster_with_copies copies).

Definition sample_state (copies view : Z) : DurableReplicaState :=
  DurableReplicaState.mk
    (sample_checkpoint (default 0 (BlockBase (cluster_with_copies copies))))
    (Membership.LocalMember sample_membership) (Membership.Members sample_membership)
    0 0 0 0 view (Membership.ActiveCount sample_membership)
    (Membership.StandbyCount sample_membership).

Definition sample_superblock (copies sequence view : Z) (parent : list byte) : Superblock :=
  Superblock.mk (zeros 16) Header.FormatVersion 1 sequence (zeros 16) parent
    (sample_state copies view) 0 (zeros 16) Header.ProtocolVersion
    (replicate 16 (zeros 256)).

Lemma sample_superblock_typed copies sequence view parent :
  is_u64 (default 0 (BlockBase (cluster_with_copies copies))) -> is_u64 sequence -> is_u32 view ->
  zlen parent = 16 -> Superblock.typed (sample_superblock copies sequence view parent).
Proof.
  intros Hb Hs Hv Hp. split; try done.
  - split; try done; [by apply sample_checkpoint_typed|].
    unfold sample_state, sample_membership. cbn -[zeros]. repeat (constructor; [done|]). constructor.
  - by apply Forall_replicate.
Qed.

Lemma superblock_roundtrip_witness :
  exists bytes s', SuperblockCodec.Encode (sample_superblock 4 2 0 (zeros 16)) SuperblockBytes 3
      (sample_sv 4) = Ok (bytes, s') /\
    SuperblockCodec.DecodeSuperblock bytes 3 (sample_sv 4)
      = Ok (SuperblockCandidate.mk (normalize s') 3 false) /\
    SuperblockCodec.DecodeSuperblock bytes 1 (sample_sv 4)
      = Ok (SuperblockCandidate.mk (normalize s') 1 true).
Proof.
  assert (BlockBase (cluster_with_copies 4) = Some 1141374976) as Hb by (vm_compute; reflexivity).
  assert (is_u64 (default 0 (BlockBase (cluster_with_copies 4)))) as Hu by (rewrite Hb; done).
  assert (Superblock.typed (sample_superblock 4 2 0 (zeros 16))) as Ht
    by by apply sample_superblock_typed.
  assert (0 <= 3 < u16 (ClusterConfig.SuperblockCopies (SuperblockValidation.Cluster (sample_sv 4))))
    as Hi by done.
  assert (SuperblockCheck.Validate (sample_superblock 4 2 0 (zeros 16)) (sample_sv 4) = Ok tt) as Hv
    by (vm_compute; reflexivity).
  destruct (proj1 (superblock_roundtrip (sample_superblock 4 2 0 (zeros 16)) (sample_sv 4) 1141374976
    3 Hb Hi) Ht Hv) as (bytes & s' & He & _ & Hd).
  exists bytes, s'. exact (conj He (conj (Hd 3) (Hd 1))).
Defined.
