(* ===== verification/SuperblockStore.v ===== *)
(** * Selecting and storing superblocks

    [SelectSuperblock] of [src/replication/superblock.go] and
    [src/replication/superblock_store.go]: choosing a superblock among its
    physical copies, opening and repairing the store, and persisting a
    successor one synced copy at a time; what selection returns, and what an
    open does with a zone whose copies are known. *)

From stdpp Require Import sorting.
From S2P Require Import Prelude Bytes Arith Checksum Header Config Ewah Storage Checkpoint Superblock.

(** ** Selection *)

Definition superblockOpenQuorum (copies : Z) : option Z :=
  if copies =? 4 then Some 2 else if copies =? 6 then Some 3
  else if copies =? 8 then Some 4 else None.

Definition superblockWriteCopies (copies : Z) : option Z :=
  if copies =? 4 then Some 3 else if copies =? 6 then Some 4
  else if copies =? 8 then Some 5 else None.

(** [bytes.Compare] *)
Fixpoint compareChecksum (left right : list byte) : Z :=
  match left, right with
  | [], [] => 0
  | [], _ => -1
  | _, [] => 1
  | l :: ls, r :: rs =>
      if byte.unsigned l <? byte.unsigned r then -1
      else if byte.unsigned r <? byte.unsigned l then 1 else compareChecksum ls rs
  end.

Definition durableStateRegressed (previous current : DurableReplicaState) : bool :=
  (CheckpointCheck.PrepareOp (DurableReplicaState.Checkpoint current)
     <? CheckpointCheck.PrepareOp (DurableReplicaState.Checkpoint previous))
  || (DurableReplicaState.CommitMax current <? DurableReplicaState.CommitMax previous)
  || (DurableReplicaState.LogView current <? DurableReplicaState.LogView previous)
  || (DurableReplicaState.View current <? DurableReplicaState.View previous).

Module Selection.
(** [superblockLogicalValue] *)
Record value := mkValue {
  candidate : SuperblockCandidate;
  count : Z;
}.

Abbreviation block v := (SuperblockCandidate.Superblock (candidate v)).
Abbreviation seq_of v := (Superblock.Sequence (block v)).
Abbreviation sum_of v := (Superblock.Checksum (block v)).

Definition betterSuperblock (left right : value) : bool :=
  if negb (seq_of left =? seq_of right) then seq_of right <? seq_of left else
  if negb (count left =? count right) then count right <? count left else
  compareChecksum (sum_of left) (sum_of right) <? 0.

(** The inner loop over [values[:valueCount]] for one candidate: [None] is the
    fork, otherwise the values with the candidate counted in. *)
Fixpoint tally_one (values : list value) (c : SuperblockCandidate) : option (list value) :=
  match values with
  | [] => Some [mkValue c 1]
  | value :: values =>
      if seq_of value =? SuperblockCandidate.sequence c then
        if negb (bool_decide
             (sum_of value = Superblock.Checksum (SuperblockCandidate.Superblock c)))
        then None
        else Some (mkValue (candidate value) (count value + 1) :: values)
      else values ← tally_one values c; Some (value :: values)
  end.

Fixpoint tally (values : list value) (candidates : list SuperblockCandidate)
    : option (list value) :=
  match candidates with
  | [] => Some values
  | c :: candidates => values ← tally_one values c; tally values candidates
  end.

(** One pass of the exchange sort: [values[left]] against every later entry,
    swapped with each smaller one. *)
Fixpoint exchange (left : value) (later : list value) : value * list value :=
  match later with
  | [] => (left, [])
  | other :: later =>
      if seq_of other <? seq_of left
      then let '(least, later) := exchange other later in (least, left :: later)
      else let '(least, later) := exchange left later in (least, other :: later)
  end.

Fixpoint sort (n : nat) (values : list value) : list value :=
  match n, values with
  | S n, value :: values =>
      let '(least, values) := exchange value values in least :: sort n values
  | _, _ => values
  end.

Definition follows (previous current : Superblock) : bool :=
  (Superblock.Sequence current =? u64 (Superblock.Sequence previous + 1))
  && bool_decide (Superblock.ParentChecksum current = Superblock.Checksum previous)
  && negb (durableStateRegressed (Superblock.State previous) (Superblock.State current)).

Fixpoint chained (values : list value) : bool :=
  match values with
  | previous :: (current :: _) as rest => follows (block previous) (block current) && chained rest
  | _ => true
  end.

Definition isInitial (s : Superblock) : bool :=
  (Superblock.Sequence s =? 1) && IsZero16 (Superblock.ParentChecksum s).

Definition required (openQuorum copies : Z) (s : Superblock) : Z :=
  if isInitial s then default 0 (superblockWriteCopies copies) else openQuorum.

(** The selection loop. *)
Fixpoint choose (openQuorum copies : Z) (values : list value) (selected : option value)
    : option value :=
  match values with
  | [] => selected
  | value :: values =>
      if count value <? required openQuorum copies (block value)
      then choose openQuorum copies values selected
      else choose openQuorum copies values
        (match selected with
         | Some best => if betterSuperblock value best then Some value else selected
         | None => Some value
         end)
  end.
End Selection.

Definition SelectSuperblock (candidates : list SuperblockCandidate) (copies : Z)
    : result durable_error SuperblockCandidate :=
  match superblockOpenQuorum copies with
  | None => Err ErrSuperblockQuorum
  | Some openQuorum =>
      if (zlen candidates =? 0) || (copies <? zlen candidates) then Err ErrSuperblockQuorum else
      match Selection.tally [] candidates with
      | None => Err ErrSuperblockFork
      | Some values =>
          let values := Selection.sort (length values) values in
          if negb (Selection.chained values) then Err ErrInvalidSuperblock else
          match Selection.choose openQuorum copies values None with
          | Some value => Ok (Selection.candidate value)
          | None =>
              if existsb (fun value => Selection.isInitial (Selection.block value)) values
              then Err ErrSuperblockInitializationIncomplete
              else Err ErrSuperblockQuorum
          end
      end
  end.

(** ** The store *)

(** The superblock zone as reads find it: a copy per physical index, [None]
    where the read fails. *)
Abbreviation zone := (list (option (list byte))).

Definition readCopy (z : zone) (index : nat) : option (list byte) := mjoin (z !! index).

(** The loop of [OpenSuperblockStore] over the physical copies. *)
Module Scan.
Record t := mk {
  candidates : list SuperblockCandidate;
  physical : list (option SuperblockCandidate);
  allZero : bool;
  successfulReads : Z;
  readFailed : bool;
  incompatibleCopies : Z;
}.

Definition start : t := mk [] [] true 0 false 0.

Definition visit (v : SuperblockValidation) (z : zone) (acc : t) (index : nat) : t :=
  match readCopy z index with
  | None => mk (candidates acc) (physical acc ++ [None]) (allZero acc) (successfulReads acc) true
              (incompatibleCopies acc)
  | Some buffer =>
      let zero := allZero acc && Bytes.allZero buffer in
      let reads := successfulReads acc + 1 in
      match SuperblockCodec.DecodeSuperblock buffer (Z.of_nat index) v with
      | Err err =>
          mk (candidates acc) (physical acc ++ [None]) zero reads (readFailed acc)
            (if errorIs err ErrIncompatibleConfiguration
             then incompatibleCopies acc + 1 else incompatibleCopies acc)
      | Ok candidate =>
          mk (candidates acc ++ [candidate]) (physical acc ++ [Some candidate]) zero reads
            (readFailed acc) (incompatibleCopies acc)
      end
  end.

Definition run (v : SuperblockValidation) (z : zone) (copies : nat) : t :=
  fold_left (visit v z) (seq 0 copies) start.
End Scan.

Module SuperblockStore.
Record t := mk {
  validation : SuperblockValidation;
  current : SuperblockCandidate;
  ioActive : bool;
}.
End SuperblockStore.
Abbreviation SuperblockStore := SuperblockStore.t.

Definition copiesOf (v : SuperblockValidation) : Z :=
  ClusterConfig.SuperblockCopies (SuperblockValidation.Cluster v).

(** [repairCopies]: the copies it writes, in order, each followed by a sync. *)
Fixpoint repairCopies (v : SuperblockValidation) (selected : Superblock) (index : nat)
    (physical : list (option SuperblockCandidate)) : result durable_error (list (nat * list byte)) :=
  match physical with
  | [] => Ok []
  | copy :: physical =>
      if match copy with
         | Some candidate =>
             negb (SuperblockCandidate.MisdirectedIndex candidate)
             && bool_decide (Superblock.Checksum (SuperblockCandidate.Superblock candidate)
                             = Superblock.Checksum selected)
         | None => false
         end
      then repairCopies v selected (S index) physical
      else
        '(encoded, selected) ← SuperblockCodec.Encode selected SuperblockBytes (Z.of_nat index) v;
        writes ← repairCopies v selected (S index) physical;
        Ok ((index, encoded) :: writes)
  end.

(** [OpenSuperblockStore] on a storage of [size] bytes ([None]: the size is not
    available): the store and the repairs it has made. *)
Definition OpenSuperblockStore (hardwareChecksum : bool) (size : option Z) (z : zone)
    (v : SuperblockValidation) (beforeRepair : option (Superblock -> result durable_error unit))
    : result durable_error (SuperblockStore * list (nat * list byte)) :=
  if negb hardwareChecksum then Err ErrHardwareChecksumUnavailable else
  match BlockBase (SuperblockValidation.Cluster v) with
  | None => Err ErrInvalidConfiguration
  | Some minimumSize =>
  match size with
  | None => Err ErrStorage
  | Some size =>
  if size =? 0 then Err ErrUnformatted else
  if (size <? minimumSize)
     || negb ((size - minimumSize) mod ClusterConfig.BlockSize (SuperblockValidation.Cluster v) =? 0)
  then Err ErrCorrupt else
  let scan := Scan.run v z (Z.to_nat (copiesOf v)) in
  if zlen (Scan.candidates scan) =? 0 then
    if (Scan.successfulReads scan =? 0) && Scan.readFailed scan then Err ErrStorage else
    if Scan.allZero scan then Err ErrUnformatted else
    if default 0 (superblockOpenQuorum (copiesOf v)) <=? Scan.incompatibleCopies scan
    then Err ErrIncompatibleConfiguration
    else Err ErrCorrupt
  else
  match SelectSuperblock (Scan.candidates scan) (copiesOf v) with
  | Err err =>
      if errorIs err ErrSuperblockInitializationIncomplete
      then Err (Joined ErrUnformatted err) else Err (Joined ErrCorrupt err)
  | Ok selected =>
      _ ← match beforeRepair with
          | Some check => check (SuperblockCandidate.Superblock selected)
          | None => Ok tt
          end;
      writes ← repairCopies v (SuperblockCandidate.Superblock selected) 0 (Scan.physical scan);
      Ok (SuperblockStore.mk v selected false, writes)
  end
  end
  end.

(** *** Persisting

    The storage completes the operations it is given; what it may lose are the
    writes no sync has covered.  A write or sync that fails ends the persist
    with [ErrStorage] in the phase it is in, and the states it can end in are
    the states between two transitions. *)

(** The storage: the durable copies and the writes that no sync has covered. *)
Record disk := mkDisk {
  durable : zone;
  cached : list (nat * list byte);
}.

Definition apply_write (z : zone) (w : nat * list byte) : zone := <[w.1 := Some w.2]> z.
Definition apply_writes (z : zone) (ws : list (nat * list byte)) : zone := fold_left apply_write ws z.

(** [ioSequence], the fields a persist uses. *)
Module Sequence.
Record t := mk {
  phase : IOPhase;
  buffer : list byte;
  offset : Z;
  step : Z;
  index : Z;
}.

(** [physical] in the write and sync phases *)
Definition physical (s : t) (d : disk) : disk :=
  match phase s with
  | IOPhaseWrite =>
      mkDisk (durable d) (cached d ++ [(Z.to_nat (offset s / SuperblockBytes), buffer s)])
  | IOPhaseSync => mkDisk (apply_writes (durable d) (cached d)) []
  | IOPhaseCompletion => d
  end.

Definition syncNext (s : t) : t := mk IOPhaseSync [] (offset s) (step s) (index s).
End Sequence.

Module Persisting.
Import SuperblockStore Sequence.

(** [prepareCopy]: the sequence and the superblock with its checksum stored. *)
Definition prepareCopy (store : SuperblockStore) (s : Sequence.t) (next : Superblock)
    : result durable_error (Sequence.t * Superblock) :=
  let physicalIndex := u16 ((index s + step s) mod copiesOf (validation store)) in
  '(encoded, next) ← SuperblockCodec.Encode next SuperblockBytes physicalIndex (validation store);
  Ok (Sequence.mk IOPhaseWrite encoded (physicalIndex * SuperblockBytes) (step s) (index s), next).

Definition beginPersist (store : SuperblockStore) (next : Superblock)
    : result durable_error (SuperblockStore * Sequence.t * Superblock) :=
  if ioActive store then Err ErrIOBackpressure else
  let cur := SuperblockCandidate.Superblock (current store) in
  if negb (Superblock.Sequence next =? u64 (Superblock.Sequence cur + 1))
     || negb (bool_decide (Superblock.ParentChecksum next = Superblock.Checksum cur))
     || durableStateRegressed (Superblock.State cur) (Superblock.State next)
  then Err ErrInvalidSuperblock else
  _ ← SuperblockCheck.Validate next (validation store);
  match superblockWriteCopies (copiesOf (validation store)) with
  | None => Err ErrInvalidSuperblock
  | Some _ =>
      '(sequence, next) ← prepareCopy store
        (Sequence.mk IOPhaseCompletion [] 0 0 (Superblock.Sequence next mod copiesOf (validation store)))
        next;
      Ok (SuperblockStore.mk (validation store) (current store) true, sequence, next)
  end.

(** A persist in progress: the store, the sequence, the superblock being
    written and the storage. *)
Record state := mkState {
  store : SuperblockStore;
  sequence : Sequence.t;
  next : Superblock;
  storage : disk;
}.

(** [advancePersist]: one physical operation and the transition after it. *)
Definition advancePersist (st : state) : result durable_error state :=
  let d := Sequence.physical (sequence st) (storage st) in
  match phase (sequence st) with
  | IOPhaseWrite => Ok (mkState (store st) (syncNext (sequence st)) (next st) d)
  | IOPhaseCompletion => Err ErrIOHandle
  | IOPhaseSync =>
      let s := Sequence.mk (phase (sequence st)) (buffer (sequence st)) (offset (sequence st))
                 (step (sequence st) + 1) (index (sequence st)) in
      let writeCopies := default 0 (superblockWriteCopies (copiesOf (validation (store st)))) in
      if step s <? writeCopies then
        '(s, next) ← prepareCopy (store st) s (next st);
        Ok (mkState (store st) s next d)
      else
        Ok (mkState
          (SuperblockStore.mk (validation (store st))
             (SuperblockCandidate.mk (next st) (u16 (index s)) false) (ioActive (store st)))
          (Sequence.mk IOPhaseCompletion (buffer s) (offset s) (step s) (index s)) (next st) d)
  end.

(** The loop of [Persist], [fuel] transitions at most: the states it passes
    through, the last one complete. *)
Fixpoint persist_loop (fuel : nat) (st : state) : result durable_error state :=
  if bool_decide (phase (sequence st) = IOPhaseCompletion) then Ok st else
  match fuel with
  | O => Ok st
  | S fuel => st ← advancePersist st; persist_loop fuel st
  end.

(** Two transitions per copy, and five copies at most. *)
Definition persist_fuel : nat := 10.

Definition Persist (st : SuperblockStore) (next : Superblock) (d : disk)
    : result durable_error (SuperblockStore * disk) :=
  '(st, sequence, next) ← beginPersist st next;
  final ← persist_loop persist_fuel (mkState st sequence next d);
  Ok (SuperblockStore.mk (validation (store final)) (current (store final)) false, storage final).
End Persisting.

(** ** What selection returns *)

Section selection.
Import Selection.

(** The candidates of a sequence number. *)
Definition copies_at (cands : list SuperblockCandidate) (q : Z) : Z :=
  zlen (filter (fun c => SuperblockCandidate.sequence c = q) cands).

(** The values summarise the candidates seen so far. *)
Record tallied (values : list value) (seen : list SuperblockCandidate) : Prop := {
  tallied_distinct : NoDup ((fun v => seq_of v) <$> values);
  tallied_value : forall v, v ∈ values -> candidate v ∈ seen /\ count v = copies_at seen (seq_of v);
  tallied_seen : forall c, c ∈ seen -> exists v, v ∈ values /\
    seq_of v = SuperblockCandidate.sequence c /\
    sum_of v = Superblock.Checksum (SuperblockCandidate.Superblock c);
}.

Lemma copies_at_snoc seen c q :
  copies_at (seen ++ [c]) q
  = copies_at seen q + (if decide (SuperblockCandidate.sequence c = q) then 1 else 0).
Proof.
  unfold copies_at. rewrite filter_app, zlen_app. f_equal. rewrite filter_cons, filter_nil.
  by destruct (decide _).
Qed.

Lemma copies_at_zero seen q :
  (forall c, c ∈ seen -> SuperblockCandidate.sequence c <> q) -> copies_at seen q = 0.
Proof.
  intros H. unfold copies_at. induction seen as [|c seen IH]; [done|].
  rewrite filter_cons, decide_False by (apply H; constructor). apply IH. intros. apply H. by constructor.
Qed.

(** What [tally_one] does to the values. *)
Lemma tally_one_spec values c :
  NoDup ((fun v => seq_of v) <$> values) ->
  match tally_one values c with
  | Some values' =>
      (exists pre v post, values = pre ++ v :: post /\ seq_of v = SuperblockCandidate.sequence c /\
         sum_of v = Superblock.Checksum (SuperblockCandidate.Superblock c) /\
         values' = pre ++ mkValue (candidate v) (count v + 1) :: post) \/
      ((forall v, v ∈ values -> seq_of v <> SuperblockCandidate.sequence c) /\
       values' = values ++ [mkValue c 1])
  | None => exists v, v ∈ values /\ seq_of v = SuperblockCandidate.sequence c /\
      sum_of v <> Superblock.Checksum (SuperblockCandidate.Superblock c)
  end.
Proof.
  induction values as [|v values IH]; intros Hnd; cbn [tally_one].
  { right. split; [intros v Hv; by apply not_elem_of_nil in Hv|done]. }
  destruct (Z.eqb_spec (seq_of v) (SuperblockCandidate.sequence c)) as [E|Hne].
  - destruct (bool_decide _) eqn:Eb; cbn [negb]; split_bool.
    + left. by exists [], v, values.
    + exists v. split; [constructor|done].
  - cbn [fmap list_fmap] in Hnd. apply NoDup_cons in Hnd as [_ Hnd]. specialize (IH Hnd).
    destruct (tally_one values c) as [values'|]; cbn [mbind option_bind].
    + destruct IH as [(pre & v' & post & -> & E & S & ->)|[Hno ->]].
      * left. by exists (v :: pre), v', post.
      * right. split; [|done]. intros v' [->|Hv']%elem_of_cons; [done|by apply Hno].
    + destruct IH as (v' & Hin & E & S). exists v'. split; [by constructor|done].
Qed.

Lemma tallied_one values seen c values' :
  tallied values seen -> tally_one values c = Some values' -> tallied values' (seen ++ [c]).
Proof.
  intros [Hnd Hv Hs] E. pose proof (tally_one_spec values c Hnd) as H. rewrite E in H.
  destruct H as [(pre & v & post & -> & Eq & Es & ->)|[Hno ->]].
  - rewrite fmap_app, fmap_cons in Hnd. pose proof Hnd as Hnd'.
    apply NoDup_app in Hnd' as (_ & Hpre & [Hpost _]%NoDup_cons).
    split.
    + by rewrite fmap_app, fmap_cons.
    + intros w Hw. rewrite copies_at_snoc.
      assert (w = mkValue (candidate v) (count v + 1) \/
        (w ∈ pre ++ v :: post /\ seq_of w <> seq_of v)) as [-> | [Hin Hne]].
      { apply elem_of_app in Hw as [Hw|[->|Hw]%elem_of_cons]; [right|by left|right].
        - split; [set_solver|]. intros Eq'. apply (Hpre (seq_of w)).
          + apply list_elem_of_fmap. by exists w.
          + rewrite Eq'. apply elem_of_cons. by left.
        - split; [set_solver|]. intros Eq'. apply Hpost. apply list_elem_of_fmap.
          exists w. by rewrite Eq'. }
      * destruct (Hv v) as [Hc Hn]; [set_solver|]. cbn [candidate count]. split; [set_solver|].
        rewrite decide_True by done. lia.
      * destruct (Hv w Hin) as [Hc Hn]. split; [set_solver|].
        rewrite decide_False by congruence. lia.
    + intros c' [Hc'|[->|Hc']%elem_of_cons]%elem_of_app; [| |by apply not_elem_of_nil in Hc'].
      * destruct (Hs c' Hc') as (w & Hw & Ew & Sw).
        apply elem_of_app in Hw as [Hw|[->|Hw]%elem_of_cons].
        -- exists w. set_solver.
        -- exists (mkValue (candidate v) (count v + 1)). set_solver.
        -- exists w. set_solver.
      * exists (mkValue (candidate v) (count v + 1)). set_solver.
  - assert (forall c', c' ∈ seen -> SuperblockCandidate.sequence c' <> SuperblockCandidate.sequence c)
      as Hnew.
    { intros c' Hc' Eq. destruct (Hs c' Hc') as (w & Hw & Ew & _). apply (Hno w Hw). congruence. }
    split.
    + rewrite fmap_app. apply NoDup_app. split; [done|]. split; [|by apply NoDup_singleton].
      intros q (w & -> & Hw)%list_elem_of_fmap Hq%list_elem_of_singleton. by apply (Hno w Hw).
    + intros w [Hw|Hw%list_elem_of_singleton]%elem_of_app; rewrite copies_at_snoc.
      * destruct (Hv w Hw) as [Hc Hn]. split; [set_solver|].
        rewrite decide_False by (intros Eq; by apply (Hno w Hw)). lia.
      * subst w. cbn [candidate count]. split; [set_solver|].
        rewrite decide_True by done. by rewrite copies_at_zero.
    + intros c' [Hc'|Hc'%list_elem_of_singleton]%elem_of_app.
      * destruct (Hs c' Hc') as (w & Hw & Ew & Sw). exists w. set_solver.
      * subst c'. exists (mkValue c 1). set_solver.
Qed.

Lemma tallied_all cands values seen values' :
  tallied values seen -> tally values cands = Some values' -> tallied values' (seen ++ cands).
Proof.
  revert values seen. induction cands as [|c cands IH]; intros values seen Hi H; cbn [tally] in H.
  { injection H as <-. by rewrite app_nil_r. }
  destruct (tally_one values c) as [values1|] eqn:E; [|done]. cbn [mbind option_bind] in H.
  pose proof (IH _ _ (tallied_one _ _ _ _ Hi E) H) as Hf. by rewrite <- app_assoc in Hf.
Qed.

Lemma tallied_nil : tallied [] [].
Proof. split; [constructor| |]; intros ? []%not_elem_of_nil. Qed.

(** Without a fork every candidate is counted. *)
Lemma tally_total cands values seen :
  tallied values seen ->
  (forall c c', c ∈ seen ++ cands -> c' ∈ seen ++ cands ->
     SuperblockCandidate.sequence c = SuperblockCandidate.sequence c' ->
     Superblock.Checksum (SuperblockCandidate.Superblock c)
     = Superblock.Checksum (SuperblockCandidate.Superblock c')) ->
  exists values', tally values cands = Some values'.
Proof.
  revert values seen. induction cands as [|c cands IH]; intros values seen Hi Hf; [by eexists|].
  cbn [tally]. pose proof (tally_one_spec values c (tallied_distinct _ _ Hi)) as H.
  destruct (tally_one values c) as [values1|] eqn:E; cbn [mbind option_bind].
  - apply (IH _ (seen ++ [c])); [by eapply tallied_one|]. by rewrite <- app_assoc.
  - destruct H as (v & Hin & Eq & Hne). destruct (tallied_value _ _ Hi v Hin) as [Hc _].
    destruct Hne. apply Hf; [set_solver..|done].
Qed.

Lemma exchange_spec left later least rest :
  exchange left later = (least, rest) ->
  least :: rest ≡ₚ left :: later /\ forall v, v ∈ left :: later -> seq_of least <= seq_of v.
Proof.
  revert left least rest. induction later as [|v later IH]; intros left least rest H; cbn [exchange] in H.
  { injection H as <- <-. split; [done|]. intros v Hv%list_elem_of_singleton. by subst. }
  destruct (Z.ltb_spec (seq_of v) (seq_of left)).
  - destruct (exchange v later) as [l r] eqn:E. injection H as <- <-.
    destruct (IH _ _ _ E) as [P L]. split.
    + by rewrite Permutation_swap, P.
    + intros w [->|Hw]%elem_of_cons; [|by apply L]. specialize (L v ltac:(constructor)). lia.
  - destruct (exchange left later) as [l r] eqn:E. injection H as <- <-.
    destruct (IH _ _ _ E) as [P L]. split.
    + rewrite Permutation_swap, P. apply Permutation_swap.
    + intros w [->|[->|Hw]%elem_of_cons]%elem_of_cons.
      * apply L. constructor.
      * specialize (L left ltac:(constructor)). lia.
      * apply L. by constructor.
Qed.

Lemma sort_spec n values :
  (length values <= n)%nat ->
  sort n values ≡ₚ values /\ StronglySorted (fun a b => seq_of a <= seq_of b) (sort n values).
Proof.
  revert values. induction n as [|n IH]; intros [|v values] Hl; cbn [length sort] in *;
    try (split; [done|constructor]); try lia.
  destruct (exchange v values) as [least rest] eqn:E. apply exchange_spec in E as [P L].
  destruct (IH rest) as [Ps Ss]. { apply Permutation_length in P. cbn in P. lia. }
  split; [by rewrite Ps|]. constructor; [done|]. apply Forall_forall. intros w Hw.
  rewrite Ps in Hw. apply L. rewrite <- P. by constructor.
Qed.

(** A value that reaches the quorum its superblock needs. *)
Definition qualifies (q copies : Z) (v : value) : Prop := required q copies (block v) <= count v.

Lemma choose_spec q copies values selected :
  NoDup ((fun v => seq_of v) <$> values) ->
  (forall best v, selected = Some best -> v ∈ values -> seq_of v <> seq_of best) ->
  match choose q copies values selected with
  | Some v =>
      (selected = Some v \/ v ∈ values /\ qualifies q copies v) /\
      (forall best, selected = Some best -> seq_of best <= seq_of v) /\
      (forall w, w ∈ values -> qualifies q copies w -> seq_of w <= seq_of v)
  | None => selected = None /\ forall w, w ∈ values -> ~ qualifies q copies w
  end.
Proof.
  revert selected. induction values as [|v values IH]; intros selected Hnd Hs; cbn [choose].
  { destruct selected as [best|].
    - split; [by left|]. split; [by intros ? [= ->]|]. by intros w Hw%not_elem_of_nil.
    - split; [done|]. by intros w Hw%not_elem_of_nil. }
  cbn [fmap list_fmap] in Hnd. apply NoDup_cons in Hnd as [Hv Hnd].
  assert (forall w, w ∈ values -> seq_of w <> seq_of v) as Hne.
  { intros w Hw E. apply Hv. apply list_elem_of_fmap. by exists w. }
  destruct (Z.ltb_spec (count v) (required q copies (block v))) as [Hlt|Hge].
  - specialize (IH selected Hnd ltac:(intros; eapply Hs; [done|by constructor])).
    destruct (choose q copies values selected) as [r|].
    + destruct IH as (H1 & H2 & H3). split; [destruct H1 as [?|[? ?]]; [by left|right; set_solver]|].
      split; [done|]. intros w [->|Hw]%elem_of_cons Hq; [|by apply H3]. unfold qualifies in Hq. lia.
    + destruct IH as [-> H]. split; [done|].
      intros w [->|Hw]%elem_of_cons Hq; [unfold qualifies in Hq; lia|by apply (H w)].
  - set (s' := match selected with Some best => if betterSuperblock v best then Some v else selected
                                 | None => Some v end).
    assert (exists best, s' = Some best /\ seq_of v <= seq_of best /\
      (best = v \/ selected = Some best) /\
      (forall b, selected = Some b -> seq_of b <= seq_of best)) as (best & Es & Hvb & Hb & Hsel).
    { unfold s'. destruct selected as [b|]; [|exists v; naive_solver lia].
      pose proof (Hs b v eq_refl ltac:(constructor)) as Hvb. unfold betterSuperblock.
      destruct (Z.eqb_spec (seq_of v) (seq_of b)); [done|]. cbn [negb].
      destruct (Z.ltb_spec (seq_of b) (seq_of v)); [exists v|exists b]; naive_solver lia. }
    assert (forall b w, s' = Some b -> w ∈ values -> seq_of w <> seq_of b) as Hpre.
    { intros b w Hb' Hw. rewrite Es in Hb'. injection Hb' as <-.
      destruct Hb as [->|Hb]; [by apply Hne|]. apply (Hs _ _ Hb). by constructor. }
    specialize (IH s' Hnd Hpre). rewrite Es in *. destruct (choose q copies values _) as [r|];
      [|by destruct IH]. destruct IH as (H1 & H2 & H3).
    specialize (H2 best eq_refl). split.
    + destruct H1 as [[= ->]|[Hin Hq]]; [|right; set_solver].
      destruct Hb as [->|Hb]; [|by left]. right. split; [constructor|done].
    + split; [intros b Hb'; specialize (Hsel b Hb'); lia|].
      intros w [->|Hw]%elem_of_cons Hq; [lia|by apply H3].
Qed.

Lemma chained_lookup values i a b :
  chained values = true -> values !! i = Some a -> values !! S i = Some b ->
  follows (block a) (block b) = true.
Proof.
  revert i. induction values as [|x [|y rest] IH]; intros i H Ha Hb; [done| |].
  - by destruct i.
  - cbn [chained] in H. apply andb_prop in H as [Hf H]. destruct i as [|i].
    + cbn in Ha, Hb. by simplify_eq.
    + by apply (IH i).
Qed.

(** The sorted values of a successful tally. *)
Lemma sorted_values cands values :
  tally [] cands = Some values ->
  let sorted := sort (length values) values in
  tallied sorted cands /\ StronglySorted (fun a b => seq_of a < seq_of b) sorted.
Proof.
  intros H sorted. pose proof (tallied_all _ _ _ _ tallied_nil H) as [Hnd Hv Hs]. cbn [app] in *.
  destruct (sort_spec (length values) values (le_n _)) as [P S]. fold sorted in P, S.
  assert (NoDup ((fun v => seq_of v) <$> sorted)) as Hnd' by by rewrite P.
  split.
  - split; [done| |].
    + intros v Hin. apply Hv. by rewrite <- P.
    + intros c Hc. destruct (Hs c Hc) as (v & Hin & ?). exists v. by rewrite P.
  - clear P. induction S as [|v l S IH HF]; [constructor|].
    cbn [fmap list_fmap] in Hnd'. apply NoDup_cons in Hnd' as [Hne Hnd'].
    constructor; [by apply IH|]. rewrite Forall_forall in HF |- *. intros w Hw.
    specialize (HF w Hw). assert (seq_of v <> seq_of w); [|lia].
    intros E. apply Hne. apply list_elem_of_fmap. by exists w.
Qed.

Lemma SelectSuperblock_Ok cands copies c :
  SelectSuperblock cands copies = Ok c ->
  exists q values v, superblockOpenQuorum copies = Some q /\ 0 < zlen cands <= copies /\
    tallied values cands /\ StronglySorted (fun a b => seq_of a < seq_of b) values /\
    chained values = true /\ choose q copies values None = Some v /\ c = candidate v.
Proof.
  unfold SelectSuperblock. intros H. destruct (superblockOpenQuorum copies) as [q|]; [|done].
  step_guards H. destruct (tally [] cands) as [values|] eqn:Et; [|done].
  destruct (sorted_values _ _ Et) as [Htl Hss].
  set (sorted := sort _ _) in *. destruct (chained sorted) eqn:Ec; [|done]. cbn [negb] in H.
  destruct (choose q copies sorted None) as [v|] eqn:Ev; [|by destruct (existsb _ _)].
  injection H as <-. split_bool. pose proof (zlen_nonneg cands).
  exists q, sorted, v. split_and!; try done; lia.
Qed.

Lemma SelectSuperblock_candidate cands copies c :
  SelectSuperblock cands copies = Ok c -> c ∈ cands.
Proof.
  intros (q & values & v & _ & _ & Ht & _ & _ & Hch & ->)%SelectSuperblock_Ok.
  pose proof (choose_spec q copies values None (tallied_distinct _ _ Ht) ltac:(done)) as Hc.
  rewrite Hch in Hc. destruct Hc as ([?|[Hin _]] & _); [done|]. apply (tallied_value _ _ Ht _ Hin).
Qed.

Lemma quorum_le_write copies q w :
  superblockOpenQuorum copies = Some q -> superblockWriteCopies copies = Some w -> q <= w.
Proof.
  unfold superblockOpenQuorum, superblockWriteCopies. repeat case_match; naive_solver lia.
Qed.

Lemma quorums_defined copies q :
  superblockOpenQuorum copies = Some q ->
  exists w, superblockWriteCopies copies = Some w /\ q < w /\ 0 < q.
Proof.
  unfold superblockOpenQuorum, superblockWriteCopies.
  repeat case_match; intros [= <-]; eexists; (split; [done|lia]).
Qed.

(** A strictly sorted chain of values covers an interval of sequence numbers. *)
Lemma chained_interval values :
  StronglySorted (fun a b => seq_of a < seq_of b) values -> chained values = true ->
  Forall (fun v => is_u64 (seq_of v)) values ->
  forall a b n, a ∈ values -> b ∈ values -> seq_of a <= n <= seq_of b ->
  exists v, v ∈ values /\ seq_of v = n.
Proof.
  induction 1 as [|x l S IH HF]; intros Hc Hu a b n Ha Hb Hn; [by apply not_elem_of_nil in Ha|].
  apply Forall_cons in Hu as [Hx Hu]. rewrite Forall_forall in HF.
  assert (chained l = true) as Hc'.
  { destruct l; [done|]. cbn [chained] in Hc. by apply andb_prop in Hc as [_ ?]. }
  destruct (decide (n = seq_of x)) as [->|Hne]; [exists x; split; [constructor|done]|].
  assert (b ∈ l) as Hb'.
  { apply elem_of_cons in Hb as [->|?]; [|done].
    apply elem_of_cons in Ha as [->|Ha]; [lia|]. specialize (HF a Ha). lia. }
  destruct l as [|y l]; [by apply not_elem_of_nil in Hb'|].
  assert (seq_of y = seq_of x + 1) as Ey.
  { cbn [chained] in Hc. apply andb_prop in Hc as [Hf _]. unfold follows in Hf. split_bool.
    specialize (HF y ltac:(constructor)). apply Forall_cons in Hu as [Hy _].
    match goal with E : seq_of y = u64 _ |- _ => rename E into Eu end.
    unfold is_uint in *. destruct (decide (seq_of x + 1 < 2 ^ 64)).
    - rewrite uwrap_small in Eu by (unfold is_uint; lia). done.
    - replace (seq_of x + 1) with (2 ^ 64) in Eu by lia. cbn in Eu. lia. }
  destruct (IH Hc' Hu y b n ltac:(constructor) Hb') as (v & Hv & En).
  { apply elem_of_cons in Ha as [->|Ha]; [lia|].
    specialize (HF a Ha). lia. }
  exists v. split; [by constructor|done].
Qed.

Lemma selected_interval cands copies c c' c'' n :
  SelectSuperblock cands copies = Ok c ->
  Forall (fun c => is_u64 (SuperblockCandidate.sequence c)) cands ->
  c' ∈ cands -> c'' ∈ cands ->
  SuperblockCandidate.sequence c' <= n <= SuperblockCandidate.sequence c'' ->
  exists d, d ∈ cands /\ SuperblockCandidate.sequence d = n.
Proof.
  intros (q & values & v & _ & _ & [_ Hv Hs] & Hss & Hch & _ & _)%SelectSuperblock_Ok Hu Hc' Hc'' Hn.
  destruct (Hs c' Hc') as (x & Hx & Ex & _). destruct (Hs c'' Hc'') as (y & Hy & Ey & _).
  rewrite <- Ex, <- Ey in Hn.
  destruct (chained_interval values Hss Hch) with (a := x) (b := y) (n := n)
    as (d & Hd & Ed); [|done..|].
  - apply Forall_forall. intros z Hz. rewrite Forall_forall in Hu. apply (Hu (candidate z)), (Hv z Hz).
  - exists (candidate d). split; [apply (Hv d Hd)|done].
Qed.

(** C26: the superblock an open selects is the newest one the copies support.
    It is one of the candidates, with at least the open quorum of copies; no
    sequence number that has a full write quorum of copies is passed over for
    an older one; the candidates hold no fork, and their sequence numbers are
    consecutive. *)
Theorem select_sound cands copies c :
  Forall (fun c => is_u64 (SuperblockCandidate.sequence c)) cands ->
  SelectSuperblock cands copies = Ok c ->
  exists q w, superblockOpenQuorum copies = Some q /\ superblockWriteCopies copies = Some w /\
    c ∈ cands /\ q <= copies_at cands (SuperblockCandidate.sequence c) /\
    (forall c', c' ∈ cands -> w <= copies_at cands (SuperblockCandidate.sequence c') ->
       SuperblockCandidate.sequence c' <= SuperblockCandidate.sequence c) /\
    (forall c' c'', c' ∈ cands -> c'' ∈ cands ->
       SuperblockCandidate.sequence c' = SuperblockCandidate.sequence c'' ->
       Superblock.Checksum (SuperblockCandidate.Superblock c')
       = Superblock.Checksum (SuperblockCandidate.Superblock c'')) /\
    (forall c' c'' n, c' ∈ cands -> c'' ∈ cands ->
       SuperblockCandidate.sequence c' <= n <= SuperblockCandidate.sequence c'' ->
       exists d, d ∈ cands /\ SuperblockCandidate.sequence d = n).
Proof.
  intros Hu Hsel. pose proof Hsel as
    (q & values & v & Eq & _ & [Hnd Hv Hs] & Hss & Hch & Echo & ->)%SelectSuperblock_Ok.
  destruct (quorums_defined _ _ Eq) as (w & Ew & Hqw & _). exists q, w.
  pose proof (choose_spec q copies values None Hnd ltac:(done)) as Hc. rewrite Echo in Hc.
  destruct Hc as ([?|[Hin Hq]] & _ & Hmax); [done|]. destruct (Hv v Hin) as [Hc Hcnt].
  assert (forall x, required q copies (block x) <= w) as Hreq.
  { intros x. unfold required. rewrite Ew. case_match; cbn; lia. }
  assert (forall x, q <= required q copies (block x)) as Hreq'.
  { intros x. unfold required. rewrite Ew. case_match; cbn; lia. }
  split_and!; try done.
  - unfold qualifies in Hq. specialize (Hreq' v). unfold SuperblockCandidate.sequence. lia.
  - intros c' Hc' Hw. destruct (Hs c' Hc') as (x & Hx & Ex & _).
    unfold SuperblockCandidate.sequence at 2. rewrite <- Ex. apply Hmax; [done|].
    unfold qualifies. destruct (Hv x Hx) as [_ ->]. rewrite Ex. specialize (Hreq x). lia.
  - intros c' c'' Hc' Hc'' E. destruct (Hs c' Hc') as (x & Hx & Ex & Sx).
    destruct (Hs c'' Hc'') as (y & Hy & Ey & Sy). rewrite <- Sx, <- Sy.
    assert (x = y) as ->; [|done].
    apply list_elem_of_lookup in Hx as [i Hi]. apply list_elem_of_lookup in Hy as [j Hj].
    assert (i = j) as ->; [|congruence].
    apply (NoDup_lookup _ i j (seq_of x) Hnd); rewrite list_lookup_fmap; [by rewrite Hi|].
    rewrite Hj. cbn. congruence.
  - intros c' c'' n Hc' Hc'' Hn. exact (selected_interval _ _ _ _ _ _ Hsel Hu Hc' Hc'' Hn).
Qed.

(** ** Selection among the members of a chain *)

(** Each superblock is the successor of the one before it. *)
Fixpoint linked (ss : list Superblock) : Prop :=
  match ss with
  | a :: (b :: _) as rest =>
      follows a b = true /\ Superblock.Sequence b = Superblock.Sequence a + 1 /\ linked rest
  | _ => True
  end.

Lemma linked_cons a ss : linked (a :: ss) -> linked ss.
Proof. destruct ss; [done|]. by intros (_ & _ & H). Qed.

Lemma linked_sorted ss :
  linked ss -> StronglySorted (fun a b => Superblock.Sequence a < Superblock.Sequence b) ss.
Proof.
  induction ss as [|a ss IH]; intros H; [constructor|].
  pose proof (IH (linked_cons _ _ H)) as S. constructor; [done|].
  destruct ss as [|b ss]; [constructor|]. destruct H as (_ & E & _).
  constructor; [lia|]. apply StronglySorted_cons in S as [HF _].
  eapply Forall_impl; [exact HF|]. cbn. lia.
Qed.

Lemma linked_lt ss i j x y :
  linked ss -> (i < j)%nat -> ss !! i = Some x -> ss !! j = Some y ->
  Superblock.Sequence x < Superblock.Sequence y.
Proof.
  intros H%linked_sorted. revert i j. induction H as [|z l S IH HF]; intros i j Hij Hx Hy; [done|].
  destruct j as [|j]; [lia|]. destruct i as [|i].
  - cbn in Hx, Hy. injection Hx as <-. rewrite Forall_forall in HF.
    apply HF. by eapply list_elem_of_lookup_2.
  - apply (IH i j); [lia|done..].
Qed.

Lemma linked_lookup_same ss i j a b :
  linked ss -> ss !! i = Some a -> ss !! j = Some b ->
  Superblock.Sequence a = Superblock.Sequence b -> i = j.
Proof.
  intros H Hi Hj E. destruct (decide (i < j)%nat) as [Hlt|]; [|destruct (decide (j < i)%nat) as [Hlt|]; [|lia]].
  - pose proof (linked_lt ss i j a b H Hlt Hi Hj). lia.
  - pose proof (linked_lt ss j i b a H Hlt Hj Hi). lia.
Qed.

Lemma linked_same ss a b :
  linked ss -> a ∈ ss -> b ∈ ss -> Superblock.Sequence a = Superblock.Sequence b -> a = b.
Proof.
  intros H [i Hi]%list_elem_of_lookup [j Hj]%list_elem_of_lookup E.
  rewrite (linked_lookup_same ss i j a b H Hi Hj E) in Hi. congruence.
Qed.

Lemma linked_chained values : linked ((fun v => block v) <$> values) -> chained values = true.
Proof.
  induction values as [|a [|b values] IH]; intros H; [done..|].
  cbn [fmap list_fmap linked] in H. destruct H as (Hf & _ & H).
  change (follows (block a) (block b) && chained (b :: values) = true).
  rewrite Hf. by apply IH.
Qed.

(** The candidates are copies of the members of [ss], all of them present. *)
Definition copies_of (cands : list SuperblockCandidate) (ss : list Superblock) : Prop :=
  forall s, s ∈ ss <-> exists c, c ∈ cands /\ SuperblockCandidate.Superblock c = s.

Lemma select_chain cands copies q ss :
  superblockOpenQuorum copies = Some q -> 0 < zlen cands <= copies ->
  linked ss -> copies_of cands ss ->
  exists values, tallied values cands /\ (fun v => block v) <$> values = ss /\
    SelectSuperblock cands copies =
      match choose q copies values None with
      | Some v => Ok (candidate v)
      | None => if existsb isInitial ss then Err ErrSuperblockInitializationIncomplete
                else Err ErrSuperblockQuorum
      end.
Proof.
  intros Eq Hl Hlink Hc. destruct (tally_total cands [] []) as [values Et]; [apply tallied_nil| |].
  { intros c c' Hin Hin' E. cbn [app] in *. apply (f_equal Superblock.Checksum).
    apply (linked_same ss); [done| | |done]; apply Hc; eauto. }
  destruct (sorted_values _ _ Et) as [Ht Hs]. set (sorted := sort _ _) in *.
  assert ((fun v => block v) <$> sorted = ss) as Eb.
  { apply (StronglySorted_unique_strong (fun a b => Superblock.Sequence a < Superblock.Sequence b)).
    - intros. lia.
    - by eapply StronglySorted_fmap; [|exact Hs].
    - by apply linked_sorted.
    - apply NoDup_Permutation.
      + apply (NoDup_fmap_1 Superblock.Sequence). rewrite <- list_fmap_compose. apply Ht.
      + pose proof (linked_sorted _ Hlink) as S. clear - S. induction S as [|x l S IH HF]; [constructor|].
        constructor; [|done]. intros Hin. rewrite Forall_forall in HF. specialize (HF x Hin). lia.
      + intros s. split.
        * intros (v & -> & Hv)%list_elem_of_fmap. apply Hc.
          exists (candidate v). split; [apply (tallied_value _ _ Ht v Hv)|done].
        * intros Hs'. apply Hc in Hs' as Hs''. destruct Hs'' as (c & Hin & <-).
          destruct (tallied_seen _ _ Ht c Hin) as (v & Hv & E & _). apply list_elem_of_fmap.
          exists v. split; [|done]. apply (linked_same ss); [done..| |done].
          apply Hc. exists (candidate v). split; [apply (tallied_value _ _ Ht v Hv)|done]. }
  exists sorted. split; [done|]. split; [done|].
  unfold SelectSuperblock. rewrite Eq, Et. fold sorted.
  destruct (Z.eqb_spec (zlen cands) 0); [lia|]. destruct (Z.ltb_spec copies (zlen cands)); [lia|].
  cbn [orb]. rewrite (linked_chained sorted) by by rewrite Eb. cbn [negb].
  case_match; [done|]. rewrite <- Eb.
  assert (forall l : list value, existsb isInitial ((fun v => block v) <$> l)
    = existsb (fun v => isInitial (block v)) l) as -> by (induction l as [|? ? IHl]; cbn; congruence).
  done.
Qed.

(** The newest member with its quorum of copies is selected. *)
Lemma select_newest cands copies q ss s :
  superblockOpenQuorum copies = Some q -> 0 < zlen cands <= copies ->
  linked ss -> copies_of cands ss -> s ∈ ss ->
  required q copies s <= copies_at cands (Superblock.Sequence s) ->
  (forall s', s' ∈ ss -> Superblock.Sequence s < Superblock.Sequence s' ->
     copies_at cands (Superblock.Sequence s') < required q copies s') ->
  exists c, SelectSuperblock cands copies = Ok c /\ SuperblockCandidate.Superblock c = s.
Proof.
  intros Eq Hl Hlink Hc Hin Hreq Hmax.
  destruct (select_chain _ _ _ _ Eq Hl Hlink Hc) as (values & Ht & Eb & ->).
  pose proof (choose_spec q copies values None (tallied_distinct _ _ Ht) ltac:(done)) as Hch.
  rewrite <- Eb in Hin. apply list_elem_of_fmap in Hin as (v & -> & Hv).
  assert (qualifies q copies v) as Hq.
  { unfold qualifies. by rewrite (proj2 (tallied_value _ _ Ht v Hv)). }
  destruct (choose q copies values None) as [w|].
  - destruct Hch as ([?|[Hw Hqw]] & _ & Hm); [done|]. specialize (Hm v Hv Hq).
    exists (candidate w). split; [done|].
    assert (forall x, x ∈ values -> block x ∈ ss) as Hb.
    { intros x Hx. rewrite <- Eb. apply list_elem_of_fmap. by exists x. }
    apply (linked_same ss); [done|by apply Hb..|].
    destruct (decide (seq_of v < seq_of w)); [|lia]. exfalso.
    specialize (Hmax (block w) (Hb w Hw) ltac:(lia)). unfold qualifies in Hqw.
    rewrite (proj2 (tallied_value _ _ Ht w Hw)) in Hqw. lia.
  - by destruct (proj2 Hch v Hv).
Qed.

(** Without a member that has its quorum the open fails. *)
Lemma select_none cands copies q ss :
  superblockOpenQuorum copies = Some q -> 0 < zlen cands <= copies ->
  linked ss -> copies_of cands ss ->
  (forall s, s ∈ ss -> copies_at cands (Superblock.Sequence s) < required q copies s) ->
  SelectSuperblock cands copies =
    if existsb isInitial ss then Err ErrSuperblockInitializationIncomplete
    else Err ErrSuperblockQuorum.
Proof.
  intros Eq Hl Hlink Hc Hno. destruct (select_chain _ _ _ _ Eq Hl Hlink Hc) as (values & Ht & Eb & ->).
  pose proof (choose_spec q copies values None (tallied_distinct _ _ Ht) ltac:(done)) as Hch.
  destruct (choose q copies values None) as [w|]; [|done].
  destruct Hch as ([?|[Hw Hqw]] & _ & _); [done|]. exfalso.
  assert (block w ∈ ss) as Hb by (rewrite <- Eb; apply list_elem_of_fmap; by exists w).
  specialize (Hno _ Hb). unfold qualifies in Hqw. rewrite (proj2 (tallied_value _ _ Ht w Hw)) in Hqw. lia.
Qed.
End selection.

Import Selection (required, isInitial, follows).

(** ** What the copies of a zone decode to *)

(** [levels] lists, per physical index, the superblock whose copy is there;
    [None] is a copy that cannot be read or decoded. *)
Definition holds_copy (v : SuperblockValidation) (z : zone) (i : nat) (o : option Superblock) : Prop :=
  match o with
  | Some s => exists buffer, readCopy z i = Some buffer /\
      SuperblockCodec.DecodeSuperblock buffer (Z.of_nat i) v
      = Ok (SuperblockCandidate.mk s (Z.of_nat i) false)
  | None => forall buffer, readCopy z i = Some buffer -> exists err,
      SuperblockCodec.DecodeSuperblock buffer (Z.of_nat i) v = Err err
  end.

Definition holds (v : SuperblockValidation) (z : zone) (levels : list (option Superblock)) : Prop :=
  length z = length levels /\ forall i o, levels !! i = Some o -> holds_copy v z i o.

Definition physical_of (levels : list (option Superblock)) : list (option SuperblockCandidate) :=
  imap (fun i o => (fun s => SuperblockCandidate.mk s (Z.of_nat i) false) <$> o) levels.

Definition candidates_of (levels : list (option Superblock)) : list SuperblockCandidate :=
  omap id (physical_of levels).

Lemma physical_of_snoc levels o :
  physical_of (levels ++ [o])
  = physical_of levels ++ [(fun s => SuperblockCandidate.mk s (Z.of_nat (length levels)) false) <$> o].
Proof. unfold physical_of. rewrite imap_app. cbn. by rewrite Nat.add_0_r. Qed.

Lemma candidates_of_snoc levels o :
  candidates_of (levels ++ [o])
  = candidates_of levels ++
    match o with
    | Some s => [SuperblockCandidate.mk s (Z.of_nat (length levels)) false]
    | None => []
    end.
Proof.
  unfold candidates_of. rewrite physical_of_snoc, omap_app. f_equal. by destruct o.
Qed.

Lemma scan_holds v z levels :
  (forall i o, levels !! i = Some o -> holds_copy v z i o) ->
  let scan := Scan.run v z (length levels) in
  Scan.candidates scan = candidates_of levels /\ Scan.physical scan = physical_of levels.
Proof.
  intros H. unfold Scan.run. induction levels as [|o levels IH] using rev_ind; [done|].
  rewrite length_app, Nat.add_1_r, seq_S, fold_left_app. cbn [fold_left].
  destruct IH as [Ec Ep].
  { intros i o' Hi. apply H. rewrite lookup_app_l; [done|by eapply lookup_lt_Some]. }
  set (acc := fold_left _ _ _) in *. rewrite physical_of_snoc, candidates_of_snoc.
  specialize (H (length levels) o ltac:(by rewrite lookup_app_r, Nat.sub_diag)).
  unfold Scan.visit. cbn [Nat.add]. destruct o as [s|]; cbn [holds_copy] in H.
  - destruct H as (buffer & -> & ->). cbn. by rewrite Ec, Ep.
  - destruct (readCopy z (length levels)) as [buffer|].
    + destruct (H buffer eq_refl) as [err ->]. cbn. by rewrite Ec, Ep, app_nil_r.
    + cbn. by rewrite Ec, Ep, app_nil_r.
Qed.

Lemma copies_at_of levels q :
  copies_at (candidates_of levels) q
  = zlen (filter (fun o => Superblock.Sequence <$> o = Some q) levels).
Proof.
  induction levels as [|o levels IH] using rev_ind; [done|].
  rewrite candidates_of_snoc, filter_app, zlen_app, <- IH.
  rewrite filter_cons, filter_nil. destruct o as [s|].
  - rewrite copies_at_snoc. f_equal. unfold SuperblockCandidate.sequence. cbn.
    destruct (decide (Superblock.Sequence s = q)).
    + rewrite decide_True; [done|by f_equal].
    + rewrite decide_False; [done|]. by intros [=].
  - rewrite app_nil_r, decide_False by done. rewrite zlen_nil. lia.
Qed.

Lemma zlen_candidates_of levels : zlen (candidates_of levels) <= zlen levels.
Proof.
  induction levels as [|o levels IH] using rev_ind; [done|].
  rewrite candidates_of_snoc, !zlen_app. destruct o; cbn; unfold zlen at 2 4; cbn; lia.
Qed.

Lemma elem_of_candidates_of levels s :
  (exists c, c ∈ candidates_of levels /\ SuperblockCandidate.Superblock c = s) <-> Some s ∈ levels.
Proof.
  induction levels as [|o levels IH] using rev_ind.
  { split; [intros (c & Hc & _); by apply not_elem_of_nil in Hc|intros H; by apply not_elem_of_nil in H]. }
  rewrite candidates_of_snoc, elem_of_app, <- IH. split.
  - intros (c & [Hc|Hc]%elem_of_app & E); [left; eauto|right].
    destruct o as [s'|]; [|by apply not_elem_of_nil in Hc].
    apply list_elem_of_singleton in Hc as ->. cbn in E. subst. by apply list_elem_of_singleton.
  - intros [(c & Hc & E)|H%list_elem_of_singleton]; [exists c; set_solver|]. subst o.
    eexists. split; [apply elem_of_app; right; by apply list_elem_of_singleton|done].
Qed.

(** ** Copies of the members of a chain, by level

    Level [k] is member [k] of a chain [ss]; [lv] gives the level of every
    physical copy.  What an open selects depends on the levels only, and is
    computed by [outcome]. *)
Definition levels (ss : list Superblock) (lv : list (option nat)) : list (option Superblock) :=
  (fun o => o ≫= fun k => ss !! k) <$> lv.

Definition level_count (lv : list (option nat)) (k : nat) : Z :=
  zlen (filter (fun o => o = Some k) lv).

Definition present (lv : list (option nat)) (m : nat) : list nat :=
  filter (fun k => Some k ∈ lv) (seq 0 m).

Definition contiguous (lv : list (option nat)) (m : nat) : bool :=
  match present lv m with
  | [] => false
  | lo :: _ => bool_decide (present lv m = seq lo (length (present lv m)))
  end.

Definition outcome (reqs : list Z) (lv : list (option nat)) : option nat :=
  last (filter (fun k => default 0 (reqs !! k) <= level_count lv k) (seq 0 (length reqs))).

Definition bounded_levels (lv : list (option nat)) (m : nat) : Prop :=
  Forall (fun o => from_option (fun k => (k < m)%nat) True o) lv.

Lemma level_copies ss lv k s :
  linked ss -> bounded_levels lv (length ss) -> ss !! k = Some s ->
  copies_at (candidates_of (levels ss lv)) (Superblock.Sequence s) = level_count lv k.
Proof.
  intros Hl Hb Hk. rewrite copies_at_of. unfold level_count, levels.
  induction Hb as [|o lv Ho _ IH]; [done|]. cbn [fmap list_fmap]. rewrite !filter_cons.
  destruct o as [j|].
  - cbn [from_option] in Ho. destruct (lookup_lt_is_Some_2 ss j Ho) as [s' Hj]. cbn [mbind option_bind].
    rewrite Hj. cbn [fmap option_fmap option_map]. destruct (decide (Some j = Some k)) as [[= ->]|Hne].
    + rewrite Hj in Hk. injection Hk as ->. rewrite decide_True by done. rewrite !zlen_cons. lia.
    + rewrite decide_False; [done|]. intros [= E]. destruct Hne.
      f_equal. by apply (linked_lookup_same ss j k s' s).
  - rewrite decide_False by done. by rewrite (decide_False (P := None = Some k)).
Qed.

Lemma linked_drop n ss : linked ss -> linked (drop n ss).
Proof.
  revert ss. induction n as [|n IH]; intros [|a ss] H; [done..|]. apply IH. by apply linked_cons in H.
Qed.

Lemma linked_take n ss : linked ss -> linked (take n ss).
Proof.
  revert n. induction ss as [|a [|b ss] IH]; intros [|[|n]] H; [done..|].
  destruct H as (Hf & He & H). split; [done|]. split; [done|]. by apply (IH (S n)).
Qed.

Lemma levels_copies_of ss lv lo n :
  bounded_levels lv (length ss) -> present lv (length ss) = seq lo n ->
  copies_of (candidates_of (levels ss lv)) (take n (drop lo ss)).
Proof.
  intros Hb Hp s. rewrite elem_of_candidates_of.
  assert (forall k, (k < length ss)%nat -> (Some k ∈ lv <-> (lo <= k < lo + n)%nat)) as Hk.
  { intros k Hk. rewrite <- elem_of_seq, <- Hp. unfold present.
    rewrite list_elem_of_filter, elem_of_seq. intuition lia. }
  unfold levels. rewrite list_elem_of_fmap. split.
  - intros [i Hi]%list_elem_of_lookup. apply lookup_take_Some in Hi as [Hi Hin].
    rewrite lookup_drop in Hi. exists (Some (lo + i)%nat). split; [by cbn; rewrite Hi|].
    apply Hk; [by eapply lookup_lt_Some|lia].
  - intros (o & E & Hin). destruct o as [k|]; [|done]. cbn in E. symmetry in E.
    pose proof (lookup_lt_Some _ _ _ E). apply Hk in Hin; [|done].
    apply (list_elem_of_lookup_2 _ (k - lo)). rewrite lookup_take_lt by lia. rewrite lookup_drop.
    by replace (lo + (k - lo))%nat with k by lia.
Qed.

Lemma StronglySorted_filter_seq (P : nat -> Prop) `{!forall k, Decision (P k)} a n :
  StronglySorted lt (filter P (seq a n)).
Proof.
  revert a. induction n as [|n IH]; intros a; [constructor|].
  cbn [seq]. rewrite filter_cons. destruct (decide (P a)); [|apply IH].
  constructor; [apply IH|]. apply Forall_forall.
  intros x [_ Hx%elem_of_seq]%list_elem_of_filter. lia.
Qed.

Lemma outcome_Some reqs lv k :
  outcome reqs lv = Some k ->
  (k < length reqs)%nat /\ default 0 (reqs !! k) <= level_count lv k /\
  forall j, (k < j < length reqs)%nat -> level_count lv j < default 0 (reqs !! j).
Proof.
  unfold outcome. intros H. apply last_Some in H as [pre E].
  set (P := fun k => default 0 (reqs !! k) <= level_count lv k) in *.
  assert (k ∈ filter P (seq 0 (length reqs))) as Hin by (rewrite E; set_solver).
  apply list_elem_of_filter in Hin as [HP Hk%elem_of_seq]. split; [lia|]. split; [done|].
  intros j Hj. destruct (decide (P j)) as [HPj|]; [|unfold P in *; lia]. exfalso.
  assert (StronglySorted lt (filter P (seq 0 (length reqs)))) as S.
  { apply StronglySorted_filter_seq. }
  assert (j ∈ filter P (seq 0 (length reqs))) as Hin by (apply list_elem_of_filter; rewrite elem_of_seq; split; [done|lia]).
  rewrite E in Hin, S. apply elem_of_app in Hin as [Hin|Hin%list_elem_of_singleton]; [|lia].
  pose proof (StronglySorted_app_1_elem_of _ _ _ j k S Hin ltac:(set_solver)). lia.
Qed.

Lemma outcome_None reqs lv :
  outcome reqs lv = None ->
  forall j, (j < length reqs)%nat -> level_count lv j < default 0 (reqs !! j).
Proof.
  unfold outcome. intros H j Hj. apply last_None in H.
  destruct (decide (default 0 (reqs !! j) <= level_count lv j)); [|lia]. exfalso.
  assert (j ∈ filter (fun k => default 0 (reqs !! k) <= level_count lv k) (seq 0 (length reqs))) as Hin
    by (apply list_elem_of_filter; rewrite elem_of_seq; split; [done|lia]).
  rewrite H in Hin. by apply not_elem_of_nil in Hin.
Qed.

Definition present_members (ss : list Superblock) (lv : list (option nat)) : list Superblock :=
  let p := present lv (length ss) in take (length p) (drop (default O (head p)) ss).

Lemma level_count_pos lv k : 0 < level_count lv k -> Some k ∈ lv.
Proof.
  unfold level_count. intros H. destruct (filter _ lv) as [|o l] eqn:E;
    [unfold zlen in H; simpl in H; lia|].
  assert (o ∈ filter (fun o => o = Some k) lv) as Hin by (rewrite E; constructor).
  apply list_elem_of_filter in Hin as [-> ?]. done.
Qed.

Lemma required_pos q copies s : superblockOpenQuorum copies = Some q -> 0 < required q copies s.
Proof.
  intros Eq. destruct (quorums_defined _ _ Eq) as (w & Ew & ? & ?).
  unfold required. rewrite Ew. case_match; cbn; lia.
Qed.

Lemma levels_select ss lv copies q :
  superblockOpenQuorum copies = Some q -> Z.of_nat (length lv) = copies ->
  linked ss -> bounded_levels lv (length ss) -> contiguous lv (length ss) = true ->
  match outcome (required q copies <$> ss) lv with
  | Some k => exists c s, ss !! k = Some s /\ SuperblockCandidate.Superblock c = s /\
      SelectSuperblock (candidates_of (levels ss lv)) copies = Ok c
  | None => SelectSuperblock (candidates_of (levels ss lv)) copies =
      if existsb isInitial (present_members ss lv)
      then Err ErrSuperblockInitializationIncomplete else Err ErrSuperblockQuorum
  end.
Proof.
  intros Eq Hlen Hl Hb Hc. unfold contiguous in Hc. unfold present_members.
  destruct (present lv (length ss)) as [|lo p] eqn:Ep; [done|]. split_bool.
  set (n := length (lo :: p)) in *. cbn [head default].
  rewrite Hc in Ep. pose proof (levels_copies_of ss lv lo n Hb Ep) as Hco.
  set (ss' := take n (drop lo ss)) in *.
  assert (linked ss') as Hl' by by apply linked_take, linked_drop.
  assert (forall s, s ∈ ss' -> exists k, ss !! k = Some s) as Hidx.
  { intros s [i Hi]%list_elem_of_lookup. apply lookup_take_Some in Hi as [Hi _].
    rewrite lookup_drop in Hi. eauto. }
  assert (forall k s, ss !! k = Some s ->
    copies_at (candidates_of (levels ss lv)) (Superblock.Sequence s) = level_count lv k) as Hcnt.
  { intros. by apply level_copies. }
  assert (0 < zlen (candidates_of (levels ss lv)) <= copies) as Hz.
  { split.
    - assert (lo ∈ present lv (length ss)) as Hin by (rewrite Ep; apply elem_of_seq; unfold n; cbn; lia).
      unfold present in Hin. apply list_elem_of_filter in Hin as [Hlo Hlt%elem_of_seq].
      destruct (lookup_lt_is_Some_2 ss lo ltac:(lia)) as [s Hs].
      assert (s ∈ ss') as Hs'.
      { apply (list_elem_of_lookup_2 _ 0). unfold ss'. rewrite lookup_take_lt by (unfold n; cbn; lia).
        by rewrite lookup_drop, Nat.add_0_r. }
      apply Hco in Hs' as (c & Hcin & _).
      destruct (candidates_of (levels ss lv)); [by apply not_elem_of_nil in Hcin|].
      rewrite zlen_cons. pose proof (zlen_nonneg l). lia.
    - pose proof (zlen_candidates_of (levels ss lv)) as Hle. unfold zlen at 2 in Hle.
      unfold levels at 2 in Hle. rewrite length_fmap in Hle. lia. }
  destruct (outcome _ lv) as [k|] eqn:Eo.
  - apply outcome_Some in Eo as (Hk & Hreq & Hmax). rewrite length_fmap in Hk, Hmax.
    destruct (lookup_lt_is_Some_2 ss k Hk) as [s Hs]. rewrite list_lookup_fmap, Hs in Hreq. cbn in Hreq.
    pose proof (required_pos q copies s Eq).
    assert (s ∈ ss') as Hs'.
    { apply Hco. apply elem_of_candidates_of. unfold levels. apply list_elem_of_fmap.
      exists (Some k). split; [by cbn; rewrite Hs|]. apply level_count_pos. lia. }
    destruct (select_newest _ copies q ss' s Eq Hz Hl' Hco Hs') as (c & Hsel & Ec).
    + by rewrite (Hcnt k s Hs).
    + intros s' Hin Hlt. destruct (Hidx s' Hin) as [k' Hk']. rewrite (Hcnt k' s' Hk').
      specialize (Hmax k'). rewrite list_lookup_fmap, Hk' in Hmax. cbn in Hmax. apply Hmax.
      split; [|by eapply lookup_lt_Some]. destruct (decide (k < k')%nat); [done|]. exfalso.
      destruct (decide (k = k')) as [->|]; [by simplify_eq; lia|].
      pose proof (linked_lt ss k' k s' s Hl ltac:(lia) Hk' Hs). lia.
    + exists c, s. done.
  - pose proof (outcome_None _ _ Eo) as Hno. rewrite length_fmap in Hno.
    apply (select_none _ copies q); try done. intros s Hin. destruct (Hidx s Hin) as [k Hk].
    rewrite (Hcnt k s Hk). specialize (Hno k ltac:(by eapply lookup_lt_Some)).
    by rewrite list_lookup_fmap, Hk in Hno.
Qed.

(** ** Opening a zone *)

(** What an open checks of the storage before it reads the copies. *)
Definition storage_ready (v : SuperblockValidation) (size : option Z) : Prop :=
  exists base bytes, BlockBase (SuperblockValidation.Cluster v) = Some base /\ size = Some bytes /\
    bytes <> 0 /\ base <= bytes /\
    (bytes - base) mod ClusterConfig.BlockSize (SuperblockValidation.Cluster v) = 0.

(** The configured copy counts. *)
Definition copy_count (v : SuperblockValidation) (q w : Z) : Prop :=
  superblockOpenQuorum (copiesOf v) = Some q /\ superblockWriteCopies (copiesOf v) = Some w.

Lemma copy_count_cases v q w :
  copy_count v q w ->
  copiesOf v = 4 /\ q = 2 /\ w = 3 \/ copiesOf v = 6 /\ q = 3 /\ w = 4 \/
  copiesOf v = 8 /\ q = 4 /\ w = 5.
Proof.
  intros [Hq Hw]. unfold superblockOpenQuorum, superblockWriteCopies in *.
  repeat case_match; split_bool; naive_solver.
Qed.

Lemma index_encodes v q w i :
  copy_count v q w -> 0 <= i < copiesOf v ->
  i < u16 (ClusterConfig.SuperblockCopies (SuperblockValidation.Cluster v)) /\ is_u16 i.
Proof.
  intros Hcc Hi. change (ClusterConfig.SuperblockCopies _) with (copiesOf v).
  destruct (copy_count_cases v q w Hcc) as [(E & _)|[(E & _)|(E & _)]]; rewrite E in *;
    (split; [rewrite uwrap_small; [lia|done]|unfold is_uint; lia]).
Qed.

(** A superblock as a copy decodes to it. *)
Record stored (v : SuperblockValidation) (s : Superblock) : Prop := {
  stored_typed : Superblock.typed s;
  stored_valid : SuperblockCheck.Validate s v = Ok tt;
  stored_normal : normalize s = s;
  stored_sum : Superblock.Checksum s = superblock_sum s;
}.

Lemma Decode_stored buffer i v c :
  SuperblockCodec.DecodeSuperblock buffer i v = Ok c ->
  stored v (SuperblockCandidate.Superblock c) /\ SuperblockCandidate.PhysicalIndex c = i.
Proof. intros (_ & Ht & Hv & Hn & Hs & Hp & _)%Decode_inv. split; [by split|done]. Qed.

Lemma stored_checksum v s : stored v s -> Superblock.with_Checksum s (superblock_sum s) = s.
Proof. intros [_ _ _ <-]. by destruct s. Qed.

Lemma Decode_stored_copy v s base i :
  stored v s -> BlockBase (SuperblockValidation.Cluster v) = Some base -> is_u16 i ->
  SuperblockCodec.DecodeSuperblock (sb_bytes s i (superblock_sum s)) i v
  = Ok (SuperblockCandidate.mk s i false).
Proof.
  intros Hst Hb Hi. destruct Hst as [Ht Hv Hn Hs] eqn:E.
  rewrite (Decode_bytes s i i v base) by done. rewrite Z.eqb_refl, Hn.
  by rewrite (stored_checksum v s).
Qed.

Lemma readCopy_write z w i :
  (w.1 < length z)%nat ->
  readCopy (apply_write z w) i = if decide (i = w.1) then Some w.2 else readCopy z i.
Proof.
  intros Hw. unfold readCopy, apply_write. destruct (decide (i = w.1)) as [->|Hne].
  - by rewrite list_lookup_insert_eq.
  - by rewrite list_lookup_insert_ne.
Qed.

Lemma length_apply_writes z ws : length (apply_writes z ws) = length z.
Proof.
  revert z. induction ws as [|w ws IH]; intros z; [done|].
  cbn. unfold apply_writes in IH. rewrite IH. apply length_insert.
Qed.

Lemma held_stored v z lvls s : holds v z lvls -> Some s ∈ lvls -> stored v s.
Proof.
  intros [_ Hh] [i Hi]%list_elem_of_lookup. destruct (Hh _ _ Hi) as (buffer & _ & Hd).
  by apply Decode_stored in Hd as [? _].
Qed.

(** What the scan records for one copy. *)
Definition scanned (v : SuperblockValidation) (z : zone) (i : nat) : option SuperblockCandidate :=
  buffer ← readCopy z i;
  match SuperblockCodec.DecodeSuperblock buffer (Z.of_nat i) v with Ok c => Some c | Err _ => None end.

Lemma scan_spec v z n :
  Scan.physical (Scan.run v z n) = scanned v z <$> seq 0 n /\
  Scan.candidates (Scan.run v z n) = omap id (scanned v z <$> seq 0 n).
Proof.
  unfold Scan.run. induction n as [|n [IHp IHc]]; [done|].
  rewrite seq_S, fold_left_app, fmap_app, omap_app. cbn [fold_left Nat.add].
  set (acc := fold_left _ _ _) in *. unfold Scan.visit. cbn [fmap list_fmap]. unfold scanned at 2 4.
  destruct (readCopy z n) as [buffer|]; cbn [mbind option_bind];
    [destruct (SuperblockCodec.DecodeSuperblock _ _ _) as [c|e]|]; cbn;
    by rewrite IHp, IHc, ?app_nil_r.
Qed.

(** Two copies with one checksum are copies of one superblock. *)
Definition collision_free (v : SuperblockValidation) (z : zone) : Prop :=
  forall i j c d, scanned v z i = Some c -> scanned v z j = Some d ->
    Superblock.Checksum (SuperblockCandidate.Superblock c)
    = Superblock.Checksum (SuperblockCandidate.Superblock d) ->
    SuperblockCandidate.Superblock c = SuperblockCandidate.Superblock d.

Lemma scanned_stored v z i c :
  scanned v z i = Some c ->
  stored v (SuperblockCandidate.Superblock c) /\
  (SuperblockCandidate.MisdirectedIndex c = false ->
   holds_copy v z i (Some (SuperblockCandidate.Superblock c))).
Proof.
  unfold scanned, holds_copy. intros (buffer & Hr & H)%bind_Some.
  destruct (SuperblockCodec.DecodeSuperblock _ _ _) as [c'|] eqn:E; [|done]. injection H as <-.
  destruct (Decode_stored _ _ _ _ E) as [Hst Hp]. split; [done|].
  intros Hm. exists buffer. split; [done|]. rewrite E. destruct c'. cbn in *. by subst.
Qed.

(** The repairs leave a copy of the selected superblock at every index from
    [index] on, and nothing else changes. *)
Lemma repairCopies_spec v s base index phys z q w :
  copy_count v q w -> stored v s -> BlockBase (SuperblockValidation.Cluster v) = Some base ->
  Z.of_nat (length z) <= copiesOf v -> (index + length phys = length z)%nat ->
  (forall i c, phys !! i = Some (Some c) -> SuperblockCandidate.MisdirectedIndex c = false ->
     Superblock.Checksum (SuperblockCandidate.Superblock c) = Superblock.Checksum s ->
     holds_copy v z (index + i) (Some s)) ->
  exists writes, repairCopies v s index phys = Ok writes /\
    (forall i, (index <= i < length z)%nat -> holds_copy v (apply_writes z writes) i (Some s)) /\
    (forall i, (i < index)%nat -> readCopy (apply_writes z writes) i = readCopy z i).
Proof.
  intros Hcc Hst Hb. revert index z. induction phys as [|copy phys IH]; intros index z Hz Hlen Hp.
  { exists []. cbn. split; [done|]. split; [|done]. cbn in Hlen. intros i ?. lia. }
  cbn [repairCopies length] in *.
  match goal with |- context [if ?b then _ else _] => destruct b eqn:Eskip end.
  - destruct copy as [c|]; [|done]. split_bool.
    assert (holds_copy v z index (Some s)) as Hh.
    { rewrite <- (Nat.add_0_r index). by apply (Hp 0%nat c). }
    destruct (IH (S index) z) as (ws & E & H1 & H2); [done|lia| |].
    { intros i c' Hi. replace (S index + i)%nat with (index + S i)%nat by lia. by apply (Hp (S i)). }
    exists ws. split; [done|]. split; [|intros i Hi; apply H2; lia].
    intros i Hi. destruct (decide (i = index)) as [->|]; [|apply H1; lia].
    destruct Hh as (buffer & Hr & Hd). exists buffer. by rewrite H2 by lia.
  - destruct (index_encodes v q w (Z.of_nat index) Hcc ltac:(lia)) as [Hi Hu].
    rewrite (Encode_Ok s (Z.of_nat index) v (stored_typed _ _ Hst) (stored_valid _ _ Hst) Hi).
    cbn [mbind result_bind]. rewrite (stored_checksum v s Hst).
    set (wr := (index, sb_bytes s (Z.of_nat index) (superblock_sum s))).
    assert (length (apply_write z wr) = length z) as Hlw by apply length_insert.
    assert (forall i, readCopy (apply_write z wr) i = if decide (i = index) then Some wr.2 else readCopy z i)
      as Hrd by (intros; by rewrite readCopy_write by (cbn; lia)).
    destruct (IH (S index) (apply_write z wr)) as (ws & E & H1 & H2); [lia|lia| |].
    { intros i c' Hi' Hm Hs. specialize (Hp (S i) c' Hi' Hm Hs) as (buffer & Hr & Hd).
      exists buffer. rewrite Hrd, decide_False by lia.
      by replace (S index + i)%nat with (index + S i)%nat by lia. }
    rewrite E. cbn [mbind result_bind]. exists (wr :: ws). split; [done|].
    change (apply_writes z (wr :: ws)) with (apply_writes (apply_write z wr) ws).
    rewrite Hlw in H1. split.
    + intros i Hi'. destruct (decide (i = index)) as [->|]; [|apply H1; lia].
      exists wr.2. rewrite H2, Hrd, decide_True by lia. split; [done|].
      by apply (Decode_stored_copy v s base).
    + intros i Hi'. by rewrite H2, Hrd, decide_False by lia.
Qed.

Lemma repairCopies_total v s index phys q w :
  copy_count v q w -> stored v s -> Z.of_nat (index + length phys) <= copiesOf v ->
  exists writes, repairCopies v s index phys = Ok writes.
Proof.
  intros Hcc Hst. revert index. induction phys as [|copy phys IH]; intros index Hl; [by eexists|].
  cbn [repairCopies length] in *. destruct (IH (S index)) as [ws E]; [lia|]. case_match; [by eexists|].
  destruct (index_encodes v q w (Z.of_nat index) Hcc ltac:(lia)) as [Hi _].
  rewrite (Encode_Ok s _ v (stored_typed _ _ Hst) (stored_valid _ _ Hst) Hi). cbn [mbind result_bind].
  rewrite (stored_checksum v s Hst), E. by eexists.
Qed.

Lemma scanned_candidate v z n c :
  c ∈ Scan.candidates (Scan.run v z n) -> exists i, (i < n)%nat /\ scanned v z i = Some c.
Proof.
  rewrite (proj2 (scan_spec v z n)). intros (o & Ho & [= ->])%list_elem_of_omap.
  apply list_elem_of_fmap in Ho as (i & E & Hi%elem_of_seq). exists i. split; [lia|done].
Qed.

Lemma Open_inv hardware size z v before store writes :
  OpenSuperblockStore hardware size z v before = Ok (store, writes) ->
  length z = Z.to_nat (copiesOf v) -> collision_free v z ->
  let cur := SuperblockCandidate.Superblock (SuperblockStore.current store) in
  hardware = true /\ storage_ready v size /\ (exists q w, copy_count v q w) /\
  SuperblockStore.validation store = v /\ SuperblockStore.ioActive store = false /\
  stored v cur /\ holds v (apply_writes z writes) (replicate (length z) (Some cur)).
Proof.
  intros H Hlen Hfree. unfold OpenSuperblockStore in H. destruct hardware; [|done]. cbn [negb] in H.
  destruct (BlockBase _) as [base|] eqn:Eb; [|done]. destruct size as [bytes|]; [|done].
  step_guards H. destruct (zlen _ =? 0) eqn:Ez.
  { repeat case_match; done. }
  destruct (SelectSuperblock _ _) as [sel|e] eqn:Es; [|by destruct (errorIs _ _)].
  apply result_bind_Ok in H as (_ & _ & H). apply result_bind_Ok in H as (ws & Hr & H).
  injection H as <- <-. split_bool.
  cbn [SuperblockStore.current SuperblockStore.validation SuperblockStore.ioActive].
  pose proof (SelectSuperblock_Ok _ _ _ Es) as (q & _ & _ & Eq & _).
  destruct (quorums_defined _ _ Eq) as (w & Ew & _).
  assert (copy_count v q w) as Hcc by done. pose proof (copy_count_cases v q w Hcc).
  assert (exists i, scanned v z i = Some sel) as [i Hi].
  { destruct (scanned_candidate _ _ _ _ (SelectSuperblock_candidate _ _ _ Es)) as (i & _ & Hi). eauto. }
  destruct (scanned_stored _ _ _ _ Hi) as [Hst _].
  destruct (repairCopies_spec v (SuperblockCandidate.Superblock sel) base 0
    (Scan.physical (Scan.run v z (Z.to_nat (copiesOf v)))) z q w Hcc Hst Eb) as (ws' & E & Hh & _).
  - lia.
  - rewrite (proj1 (scan_spec _ _ _)), length_fmap, length_seq. lia.
  - intros j c Hj Hm Hs. rewrite (proj1 (scan_spec _ _ _)) in Hj.
    apply list_lookup_fmap_Some in Hj as (j' & Hsj & Hj'). apply lookup_seq in Hj' as [-> _]. symmetry in Hsj.
    destruct (scanned_stored _ _ _ _ Hsj) as [_ Hhold]. rewrite Nat.add_0_l.
    rewrite <- (Hfree _ _ _ _ Hsj Hi Hs). by apply Hhold.
  - rewrite Hr in E. injection E as <-. split_and!; try done.
    + exists base, bytes. split_and!; try done; lia.
    + eauto.
    + split; [by rewrite length_apply_writes, length_replicate|].
      intros j o Hj. apply lookup_replicate in Hj as [-> Hlt]. apply Hh. lia.
Qed.

(** An open of a zone described by its copies. *)
Lemma Open_levels v size z lvls q w :
  storage_ready v size -> copy_count v q w -> holds v z lvls ->
  Z.of_nat (length lvls) = copiesOf v -> candidates_of lvls <> [] ->
  match SelectSuperblock (candidates_of lvls) (copiesOf v) with
  | Ok c => exists writes,
      repairCopies v (SuperblockCandidate.Superblock c) 0 (physical_of lvls) = Ok writes /\
      OpenSuperblockStore true size z v None = Ok (SuperblockStore.mk v c false, writes)
  | Err err => OpenSuperblockStore true size z v None =
      if errorIs err ErrSuperblockInitializationIncomplete
      then Err (Joined ErrUnformatted err) else Err (Joined ErrCorrupt err)
  end.
Proof.
  intros (base & bytes & Eb & -> & Hne & Hle & Hmod) Hcc [Hlen Hh] Hl Hnil.
  unfold OpenSuperblockStore. cbn [negb]. rewrite Eb.
  destruct (Z.eqb_spec bytes 0); [done|]. destruct (Z.ltb_spec bytes base); [lia|].
  rewrite Hmod. cbn [orb negb Z.eqb]. rewrite <- Hl, Nat2Z.id.
  destruct (scan_holds v z lvls Hh) as [-> ->].
  destruct (Z.eqb_spec (zlen (candidates_of lvls)) 0) as [E|_].
  { destruct (candidates_of lvls); [done|]. rewrite zlen_cons in E. pose proof (zlen_nonneg l). lia. }
  destruct (SelectSuperblock _ _) as [c|err] eqn:Es; [|done]. cbn [mbind result_bind].
  assert (stored v (SuperblockCandidate.Superblock c)) as Hst.
  { eapply held_stored; [by split|]. apply elem_of_candidates_of. exists c.
    split; [by eapply SelectSuperblock_candidate|done]. }
  destruct (repairCopies_total v (SuperblockCandidate.Superblock c) 0 (physical_of lvls) q w Hcc Hst)
    as [ws Ews]; [unfold physical_of; rewrite length_imap; lia|]. rewrite Ews.
  cbn [mbind result_bind]. eauto.
Qed.

(** Three copies of a superblock and one of the next. *)
Definition sample_candidates : list SuperblockCandidate :=
  [ SuperblockCandidate.mk (sample_superblock 4 2 0 (zeros 16)) 0 false;
    SuperblockCandidate.mk (sample_superblock 4 3 0 (zeros 16)) 1 false;
    SuperblockCandidate.mk (sample_superblock 4 2 0 (zeros 16)) 2 false;
    SuperblockCandidate.mk (sample_superblock 4 2 0 (zeros 16)) 3 false ].

Lemma select_sound_witness :
  exists c, SelectSuperblock sample_candidates 4 = Ok c /\
    2 <= copies_at sample_candidates (SuperblockCandidate.sequence c).
Proof.
  assert (Forall (fun c => is_u64 (SuperblockCandidate.sequence c)) sample_candidates) as Hu
    by (repeat (constructor; [split; [discriminate|reflexivity]|]); constructor).
  assert (SelectSuperblock sample_candidates 4
    = Ok (SuperblockCandidate.mk (sample_superblock 4 2 0 (zeros 16)) 0 false)) as Hs
    by (vm_compute; reflexivity).
  destruct (select_sound sample_candidates 4 _ Hu Hs) as (q & w & Hq & _ & _ & Hc & _).
  injection Hq as <-. eexists. exact (conj Hs Hc).
Defined.
