(* ===== verification/SuperblockCrash.v ===== *)
(** * Durability of the superblock store

    Which superblock an open finds after the persists of
    [src/replication/superblock_store.go], complete or interrupted between any
    two of their physical operations.  The copies on the storage are described
    by the levels they hold, so that the questions about quorums reduce to
    finitely many cases that are evaluated. *)

From stdpp Require Import sorting.
From S2P Require Import Prelude Bytes Arith Checksum Header Config Ewah Storage Checkpoint Superblock.
From S2P Require Import SuperblockStore.
Import Selection (required, isInitial, follows).

(** ** The states a persist passes through *)

Fixpoint advance_n (n : nat) (st : Persisting.state) : result durable_error Persisting.state :=
  match n with
  | O => Ok st
  | S n => st ← advance_n n st; Persisting.advancePersist st
  end.

(** The physical index of copy [j], and the write that stores it. *)
Definition copy_position (v : SuperblockValidation) (s : Superblock) (j : nat) : Z :=
  (Superblock.Sequence s mod copiesOf v + Z.of_nat j) mod copiesOf v.

Definition copy_write (v : SuperblockValidation) (s : Superblock) (j : nat) : nat * list byte :=
  (Z.to_nat (copy_position v s j), sb_bytes s (copy_position v s j) (superblock_sum s)).

Definition copy_writes (v : SuperblockValidation) (s : Superblock) (j : nat) : list (nat * list byte) :=
  copy_write v s <$> seq 0 j.

Lemma copy_position_range v s j q w :
  copy_count v q w -> 0 <= copy_position v s j < copiesOf v.
Proof.
  intros Hcc%copy_count_cases. apply Z.mod_pos_bound. lia.
Qed.

Lemma prepareCopy_Ok store seqn s q w v j :
  SuperblockStore.validation store = v -> copy_count v q w -> Superblock.typed s ->
  SuperblockCheck.Validate s v = Ok tt ->
  Sequence.index seqn = Superblock.Sequence s mod copiesOf v -> Sequence.step seqn = Z.of_nat j ->
  Persisting.prepareCopy store seqn s =
    Ok (Sequence.mk IOPhaseWrite (copy_write v s j).2 (copy_position v s j * SuperblockBytes)
          (Sequence.step seqn) (Sequence.index seqn),
        Superblock.with_Checksum s (superblock_sum s)).
Proof.
  intros <- Hcc Ht Hv Hi Hs. unfold Persisting.prepareCopy. rewrite Hi, Hs.
  fold (copy_position (SuperblockStore.validation store) s j).
  pose proof (copy_position_range _ s j q w Hcc) as Hr.
  destruct (index_encodes _ q w _ Hcc Hr) as [Hlt Hu]. rewrite (uwrap_small 16) by exact Hu.
  rewrite (Encode_Ok s _ _ Ht Hv Hlt). done.
Qed.

Lemma typed_with_Checksum s cs :
  Superblock.typed s -> zlen cs = 16 -> Superblock.typed (Superblock.with_Checksum s cs).
Proof. intros [] ?. by split. Qed.

Lemma apply_writes_snoc z ws w : apply_writes z (ws ++ [w]) = apply_write (apply_writes z ws) w.
Proof. unfold apply_writes. by rewrite fold_left_app. Qed.

Lemma copy_writes_S v s j : copy_writes v s (S j) = copy_writes v s j ++ [copy_write v s j].
Proof. unfold copy_writes. by rewrite seq_S, fmap_app. Qed.

(** The state with [j] copies durable and copy [j] about to be written. *)
Definition writing (v : SuperblockValidation) (store : SuperblockStore) (s : Superblock) (z : zone)
    (j : nat) : Persisting.state :=
  Persisting.mkState store
    (Sequence.mk IOPhaseWrite (copy_write v s j).2 (copy_position v s j * SuperblockBytes)
       (Z.of_nat j) (Superblock.Sequence s mod copiesOf v))
    (Superblock.with_Checksum s (superblock_sum s))
    (mkDisk (apply_writes z (copy_writes v s j)) []).

(** Copy [j] written but not synced. *)
Definition syncing (v : SuperblockValidation) (store : SuperblockStore) (s : Superblock) (z : zone)
    (j : nat) : Persisting.state :=
  Persisting.mkState store
    (Sequence.mk IOPhaseSync [] (copy_position v s j * SuperblockBytes)
       (Z.of_nat j) (Superblock.Sequence s mod copiesOf v))
    (Superblock.with_Checksum s (superblock_sum s))
    (mkDisk (apply_writes z (copy_writes v s j)) [copy_write v s j]).

(** All copies durable. *)
Definition persisted (v : SuperblockValidation) (store : SuperblockStore) (s : Superblock) (z : zone)
    (j : nat) : Persisting.state :=
  Persisting.mkState
    (SuperblockStore.mk v
       (SuperblockCandidate.mk (Superblock.with_Checksum s (superblock_sum s))
          (u16 (Superblock.Sequence s mod copiesOf v)) false) (SuperblockStore.ioActive store))
    (Sequence.mk IOPhaseCompletion [] (copy_position v s (Nat.pred j) * SuperblockBytes)
       (Z.of_nat j) (Superblock.Sequence s mod copiesOf v))
    (Superblock.with_Checksum s (superblock_sum s))
    (mkDisk (apply_writes z (copy_writes v s j)) []).

Section persist_run.
Context (v : SuperblockValidation) (store : SuperblockStore) (s : Superblock) (z : zone) (q w : Z).
Hypothesis Hstore : SuperblockStore.validation store = v.
Hypothesis Hcc : copy_count v q w.
Hypothesis Ht : Superblock.typed s.
Hypothesis Hv : SuperblockCheck.Validate s v = Ok tt.

Lemma advance_write j :
  Persisting.advancePersist (writing v store s z j) = Ok (syncing v store s z j).
Proof.
  unfold Persisting.advancePersist, writing, syncing, Sequence.physical.
  cbn [Persisting.sequence Persisting.storage Persisting.store Persisting.next Sequence.phase
    Sequence.offset Sequence.buffer Sequence.syncNext Sequence.step Sequence.index durable cached app].
  rewrite Z.div_mul by discriminate. reflexivity.
Qed.

Lemma advance_sync j :
  Persisting.advancePersist (syncing v store s z j) =
    Ok (if Z.of_nat (S j) <? w then writing v store s z (S j) else persisted v store s z (S j)).
Proof.
  destruct Hcc as [_ Hw].
  unfold Persisting.advancePersist, syncing, Sequence.physical.
  cbn [Persisting.sequence Persisting.storage Persisting.store Persisting.next Sequence.phase
    Sequence.offset Sequence.buffer Sequence.step Sequence.index durable cached].
  rewrite Hstore, Hw. change (default 0 (Some w)) with w. replace (Z.of_nat j + 1) with (Z.of_nat (S j)) by lia.
  assert (apply_writes (apply_writes z (copy_writes v s j)) [copy_write v s j]
    = apply_writes z (copy_writes v s (S j))) as -> by by rewrite copy_writes_S, apply_writes_snoc.
  destruct (Z.of_nat (S j) <? w) eqn:E.
  - rewrite (prepareCopy_Ok store _ _ q w v (S j)); [|done|done|..].
    + cbn [mbind result_bind Sequence.step Sequence.index]. reflexivity.
    + apply typed_with_Checksum; [done|]. apply zlen_superblock_sum.
    + by rewrite <- Hv.
    + done.
    + done.
  - reflexivity.
Qed.

Lemma advance_copies j :
  Z.of_nat j < w -> advance_n (2 * j) (writing v store s z 0) = Ok (writing v store s z j).
Proof.
  induction j as [|j IH]; intros Hj; [done|]. replace (2 * S j)%nat with (S (S (2 * j))) by lia.
  cbn [advance_n]. rewrite IH by lia. cbn [mbind result_bind]. rewrite advance_write.
  cbn [mbind result_bind]. rewrite advance_sync. by rewrite (proj2 (Z.ltb_lt _ _) Hj).
Qed.

Lemma persist_states n st :
  advance_n n (writing v store s z 0) = Ok st ->
  (exists j, Z.of_nat j < w /\ n = (2 * j)%nat /\ st = writing v store s z j) \/
  (exists j, Z.of_nat j < w /\ n = (2 * j + 1)%nat /\ st = syncing v store s z j) \/
  (n = (2 * Z.to_nat w)%nat /\ st = persisted v store s z (Z.to_nat w)).
Proof.
  pose proof (copy_count_cases v q w Hcc) as Hcase.
  revert st. induction n as [|n IH]; intros st H; cbn [advance_n] in H.
  { injection H as <-. left. exists 0%nat. split_and!; [lia|lia|done]. }
  apply result_bind_Ok in H as (st1 & H1 & H2).
  destruct (IH st1 H1) as [(j & Hj & -> & ->)|[(j & Hj & -> & ->)|(-> & ->)]].
  - rewrite advance_write in H2. injection H2 as <-. right. left. exists j. split_and!; [done|lia|done].
  - rewrite advance_sync in H2. injection H2 as <-. destruct (Z.ltb_spec (Z.of_nat (S j)) w).
    + left. exists (S j). split_and!; [done|lia|done].
    + right. right. assert (S j = Z.to_nat w) as E by lia. split; [lia|by rewrite E].
  - discriminate H2.
Qed.

Lemma persist_loop_Ok :
  Persisting.persist_loop Persisting.persist_fuel (writing v store s z 0)
  = Ok (persisted v store s z (Z.to_nat w)).
Proof.
  assert (forall fuel j, Persisting.persist_loop (S (S fuel)) (writing v store s z j) =
    Persisting.persist_loop fuel
      (if Z.of_nat (S j) <? w then writing v store s z (S j) else persisted v store s z (S j))) as Hstep.
  { intros fuel j. cbn [Persisting.persist_loop]. rewrite bool_decide_false by done.
    rewrite advance_write. cbn [mbind result_bind]. rewrite bool_decide_false by done.
    rewrite advance_sync. done. }
  assert (forall fuel j, Persisting.persist_loop fuel (persisted v store s z j)
    = Ok (persisted v store s z j)) as Hend by (intros [|fuel] j; done).
  unfold Persisting.persist_fuel. destruct (copy_count_cases v q w Hcc) as [(_ & _ & E)|[(_ & _ & E)|(_ & _ & E)]];
    repeat first [rewrite Hstep, (proj2 (Z.ltb_lt _ w)) by lia
                 |rewrite Hstep, (proj2 (Z.ltb_ge _ w)) by lia];
    rewrite E; apply Hend.
Qed.
End persist_run.

(** ** Crashes

    A crash keeps what was synced.  A write no sync has covered may be lost,
    kept, or (when [torn] admits it) leave a copy that does not decode. *)
Inductive crashed (v : SuperblockValidation) (torn : bool) : zone -> list (nat * list byte) -> zone -> Prop :=
| crashed_done z : crashed v torn z [] z
| crashed_lost z w ws z' : crashed v torn z ws z' -> crashed v torn z (w :: ws) z'
| crashed_kept z w ws z' : crashed v torn (apply_write z w) ws z' -> crashed v torn z (w :: ws) z'
| crashed_torn z i bytes broken err ws z' :
    torn = true -> SuperblockCodec.DecodeSuperblock broken (Z.of_nat i) v = Err err ->
    crashed v torn (apply_write z (i, broken)) ws z' -> crashed v torn z ((i, bytes) :: ws) z'.

Lemma crashed_nil v torn z z' : crashed v torn z [] z' -> z' = z.
Proof. by inversion 1. Qed.

Lemma crashed_one v torn z i bytes z' :
  crashed v torn z [(i, bytes)] z' ->
  z' = z \/ z' = apply_write z (i, bytes) \/
  torn = true /\ exists broken err,
    SuperblockCodec.DecodeSuperblock broken (Z.of_nat i) v = Err err /\ z' = apply_write z (i, broken).
Proof.
  inversion 1 as [|? ? ? ? Hr|? ? ? ? Hr|? ? ? broken err ? ? Htorn Hd Hr]; subst;
    apply crashed_nil in Hr as ->.
  - by left.
  - right. by left.
  - right. right. split; [reflexivity|]. exists broken, err. split; [exact Hd|reflexivity].
Qed.

(** What a copy of [s] decodes to. *)
Definition installed (s : Superblock) : Superblock :=
  Superblock.with_Checksum (normalize s) (superblock_sum s).

(** [j] copies of level [k], from physical index [r] on. *)
Definition persist_levels (c r : nat) (lv : list (option nat)) (k j : nat) : list (option nat) :=
  fold_left (fun lv i => <[((r + i) mod c)%nat := Some k]> lv) (seq 0 j) lv.

Lemma persist_levels_S c r lv k j :
  persist_levels c r lv k (S j) = <[((r + j) mod c)%nat := Some k]> (persist_levels c r lv k j).
Proof. unfold persist_levels. by rewrite seq_S, fold_left_app. Qed.

Lemma length_persist_levels c r lv k j : length (persist_levels c r lv k j) = length lv.
Proof.
  induction j as [|j IH]; [done|]. by rewrite persist_levels_S, length_insert.
Qed.

Lemma copy_position_nat v s j q w :
  copy_count v q w ->
  Z.to_nat (copy_position v s j)
  = ((Z.to_nat (Superblock.Sequence s mod copiesOf v) + j) mod Z.to_nat (copiesOf v))%nat.
Proof.
  intros Hcc%copy_count_cases. unfold copy_position.
  assert (0 < copiesOf v) as Hc by lia. pose proof (Z.mod_pos_bound (Superblock.Sequence s) (copiesOf v) Hc).
  rewrite Z2Nat.inj_mod by lia. f_equal. lia.
Qed.

Lemma holds_write v z lvls i bytes s :
  holds v z lvls -> (i < length lvls)%nat ->
  SuperblockCodec.DecodeSuperblock bytes (Z.of_nat i) v = Ok (SuperblockCandidate.mk s (Z.of_nat i) false) ->
  holds v (apply_write z (i, bytes)) (<[i := Some s]> lvls).
Proof.
  intros [Hl Hh] Hi Hd. split; [unfold apply_write; by rewrite !length_insert|].
  intros j o Hj. destruct (decide (j = i)) as [->|Hne].
  - rewrite list_lookup_insert_eq in Hj by done. injection Hj as <-. exists bytes.
    rewrite readCopy_write by (cbn; lia). by rewrite decide_True.
  - rewrite list_lookup_insert_ne in Hj by done. specialize (Hh j o Hj).
    unfold holds_copy in *. rewrite readCopy_write by (cbn; lia). by rewrite decide_False.
Qed.

Lemma holds_torn v z lvls i bytes err :
  holds v z lvls -> (i < length lvls)%nat ->
  SuperblockCodec.DecodeSuperblock bytes (Z.of_nat i) v = Err err ->
  holds v (apply_write z (i, bytes)) (<[i := None]> lvls).
Proof.
  intros [Hl Hh] Hi Hd. split; [unfold apply_write; by rewrite !length_insert|].
  intros j o Hj. destruct (decide (j = i)) as [->|Hne].
  - rewrite list_lookup_insert_eq in Hj by done. injection Hj as <-. intros buffer.
    rewrite readCopy_write by (cbn; lia). rewrite decide_True by done. intros [= <-]. eauto.
  - rewrite list_lookup_insert_ne in Hj by done. specialize (Hh j o Hj).
    unfold holds_copy in *. rewrite readCopy_write by (cbn; lia). by rewrite decide_False.
Qed.

Lemma levels_insert ss lv i o :
  levels ss (<[i := o]> lv) = <[i := o ≫= fun k => ss !! k]> (levels ss lv).
Proof. unfold levels. apply list_fmap_insert. Qed.

Lemma levels_app ss s lv :
  bounded_levels lv (length ss) -> levels (ss ++ [s]) lv = levels ss lv.
Proof.
  intros Hb. apply list_fmap_ext. intros i [k|] Hi; [|done]. cbn.
  rewrite lookup_app_l; [done|]. by apply (Forall_lookup_1 _ _ _ _ Hb Hi).
Qed.

Section crash_states.
Context (v : SuperblockValidation) (q w base : Z) (ss : list Superblock) (s : Superblock) (k : nat)
  (lv : list (option nat)) (z : zone).
Hypothesis Hcc : copy_count v q w.
Hypothesis Hbase : BlockBase (SuperblockValidation.Cluster v) = Some base.
Hypothesis Ht : Superblock.typed s.
Hypothesis Hv : SuperblockCheck.Validate s v = Ok tt.
Hypothesis Hk : ss !! k = Some (installed s).
Hypothesis Hlen : Z.of_nat (length lv) = copiesOf v.
Hypothesis Hz : holds v z (levels ss lv).

Abbreviation c := (Z.to_nat (copiesOf v)).
Abbreviation r := (Z.to_nat (Superblock.Sequence s mod copiesOf v)).

Lemma copies_held j :
  holds v (apply_writes z (copy_writes v s j)) (levels ss (persist_levels c r lv k j)).
Proof.
  induction j as [|j IH]; [done|].
  rewrite copy_writes_S, apply_writes_snoc, persist_levels_S, levels_insert.
  unfold copy_write. rewrite (copy_position_nat v s j q w Hcc). cbn [mbind option_bind]. rewrite Hk.
  pose proof (copy_position_range v s j q w Hcc) as Hr.
  rewrite <- (copy_position_nat v s j q w Hcc).
  apply holds_write; [done| |].
  - unfold levels. rewrite length_fmap, length_persist_levels. lia.
  - rewrite Z2Nat.id by lia. destruct (index_encodes v q w _ Hcc Hr) as [_ Hu].
    by rewrite (Decode_bytes s _ _ v base), Z.eqb_refl.
Qed.

Lemma torn_held j broken err :
  SuperblockCodec.DecodeSuperblock broken (Z.of_nat ((r + j) mod c)) v = Err err ->
  holds v (apply_write (apply_writes z (copy_writes v s j)) (((r + j) mod c)%nat, broken))
    (levels ss (<[((r + j) mod c)%nat := None]> (persist_levels c r lv k j))).
Proof.
  intros Hd. rewrite levels_insert. cbn [mbind option_bind].
  eapply holds_torn; [apply copies_held| |exact Hd].
  unfold levels. rewrite length_fmap, length_persist_levels.
  pose proof (copy_count_cases v q w Hcc). pose proof (Nat.mod_upper_bound (r + j) c). lia.
Qed.

(** The copies after a crash at any point of the persist. *)
Lemma crash_levels store n st torn z' :
  SuperblockStore.validation store = v ->
  advance_n n (writing v store s z 0) = Ok st ->
  crashed v torn (durable (Persisting.storage st)) (cached (Persisting.storage st)) z' ->
  exists j, Z.of_nat j <= w /\
    (holds v z' (levels ss (persist_levels c r lv k j)) \/
     torn = true /\ Z.of_nat j < w /\ Sequence.step (Persisting.sequence st) = Z.of_nat j /\
     holds v z' (levels ss (<[((r + j) mod c)%nat := None]> (persist_levels c r lv k j)))).
Proof.
  intros Hst Hadv Hcr.
  destruct (persist_states v store s z q w Hst Hcc Ht Hv n st Hadv)
    as [(j & Hj & _ & ->)|[(j & Hj & _ & ->)|(_ & ->)]].
  - apply crashed_nil in Hcr as ->. exists j. split; [lia|]. left. apply copies_held.
  - apply crashed_one in Hcr as [->|[->|(Htorn & broken & err & Hd & ->)]].
    + exists j. split; [lia|]. left. apply copies_held.
    + exists (S j). split; [lia|]. left. cbn [syncing Persisting.storage durable].
      change (Z.to_nat (copy_position v s j), _) with (copy_write v s j).
      rewrite <- apply_writes_snoc, <- copy_writes_S. apply copies_held.
    + exists j. split; [lia|]. right. split; [done|]. split; [done|]. split; [done|].
      rewrite (copy_position_nat v s j q w Hcc) in *. by eapply torn_held.
  - apply crashed_nil in Hcr as ->.
    exists (Z.to_nat w). pose proof (copy_count_cases v q w Hcc). split; [lia|]. left. apply copies_held.
Qed.
End crash_states.

(** ** Which level an open finds *)

Definition bounded_check (lv : list (option nat)) (m : nat) : bool :=
  forallb (fun o => match o with Some k => Nat.ltb k m | None => true end) lv.

Definition opens (reqs : list Z) (lv : list (option nat)) : option nat :=
  if bounded_check lv (length reqs) && contiguous lv (length reqs) then outcome reqs lv else None.

Lemma bounded_check_sound lv m : bounded_check lv m = true -> bounded_levels lv m.
Proof.
  unfold bounded_check, bounded_levels. rewrite forallb_forall. intros H.
  apply Forall_forall. intros [k|] Hin; [|done]. apply list_elem_of_In, H in Hin. cbn.
  by apply Nat.ltb_lt.
Qed.

Lemma opens_sound v size z ss lv q w k :
  storage_ready v size -> copy_count v q w -> linked ss -> Z.of_nat (length lv) = copiesOf v ->
  holds v z (levels ss lv) -> opens (required q (copiesOf v) <$> ss) lv = Some k ->
  exists store writes, ss !! k = Some (SuperblockCandidate.Superblock (SuperblockStore.current store)) /\
    OpenSuperblockStore true size z v None = Ok (store, writes).
Proof.
  intros Hready Hcc Hl Hlen Hz Ho. unfold opens in Ho. rewrite length_fmap in Ho.
  destruct (bounded_check lv (length ss)) eqn:Eb; [|done].
  destruct (contiguous lv (length ss)) eqn:Ec; [|done]. cbn [andb] in Ho.
  apply bounded_check_sound in Eb.
  pose proof (levels_select ss lv (copiesOf v) q (proj1 Hcc) Hlen Hl Eb Ec) as H. rewrite Ho in H.
  destruct H as (c & s & Hs & Es & Hsel).
  assert (Z.of_nat (length (levels ss lv)) = copiesOf v) as Hlen'
    by (unfold levels; by rewrite length_fmap).
  pose proof (Open_levels v size z (levels ss lv) q w Hready Hcc Hz Hlen') as Hopen.
  rewrite Hsel in Hopen. destruct Hopen as (writes & _ & E).
  { pose proof (SelectSuperblock_candidate _ _ _ Hsel) as Hin. intros E. rewrite E in Hin.
    by apply not_elem_of_nil in Hin. }
  exists (SuperblockStore.mk v c false), writes. cbn. by rewrite Es.
Qed.

(** A member whose level is not the lowest is not the initial superblock. *)
Lemma reqs_chain q w copies s ss :
  superblockWriteCopies copies = Some w -> linked (s :: ss) -> 1 <= Superblock.Sequence s ->
  required q copies <$> (s :: ss) = (if isInitial s then w else q) :: replicate (length ss) q.
Proof.
  intros Hw Hl H1. cbn [fmap list_fmap]. unfold required at 1. rewrite Hw. cbn [default from_option].
  f_equal. pose proof (linked_sorted _ Hl) as [HF _]%StronglySorted_cons. clear Hl.
  induction HF as [|a l Ha _ IH]; [done|]. cbn [fmap list_fmap length replicate]. f_equal; [|done].
  unfold required, isInitial. destruct (Z.eqb_spec (Superblock.Sequence a) 1); [lia|done].
Qed.

(** Every crash state of a persist that finds [lv], checked by evaluation.  The
    copies whose tearing is checked are those [torn] holds of. *)
Definition crash_check (c w : nat) (torn : nat -> bool) (reqs : list Z) (lv : list (option nat)) (k r : nat)
    (accept : nat -> bool) : bool :=
  forallb (fun j => match opens reqs (persist_levels c r lv k j) with
                    | Some i => accept i | None => false end) (seq 0 (S w))
  && forallb (fun j => negb (torn j)
       || match opens reqs (<[((r + j) mod c)%nat := None]> (persist_levels c r lv k j)) with
          | Some i => accept i | None => false end) (seq 0 w).

Section crash_safety.
Context (v : SuperblockValidation) (size : option Z) (q w : Z) (s0 : Superblock) (ss : list Superblock)
  (s : Superblock) (lv : list (option nat)) (z : zone) (torn : nat -> bool) (accept : nat -> bool).
Hypothesis Hready : storage_ready v size.
Hypothesis Hcc : copy_count v q w.
Hypothesis Hl : linked ((s0 :: ss) ++ [installed s]).
Hypothesis Hs0 : 1 <= Superblock.Sequence s0.
Hypothesis Ht : Superblock.typed s.
Hypothesis Hv : SuperblockCheck.Validate s v = Ok tt.
Hypothesis Hlen : Z.of_nat (length lv) = copiesOf v.
Hypothesis Hz : holds v z (levels ((s0 :: ss) ++ [installed s]) lv).
Hypothesis Hcheck : crash_check (Z.to_nat (copiesOf v)) (Z.to_nat w) torn
  ((if isInitial s0 then w else q) :: replicate (S (length ss)) q) lv (S (length ss))
  (Z.to_nat (Superblock.Sequence s mod copiesOf v)) accept = true.

Lemma crash_open store n st tears z' :
  SuperblockStore.validation store = v ->
  advance_n n (writing v store s z 0) = Ok st ->
  crashed v tears (durable (Persisting.storage st)) (cached (Persisting.storage st)) z' ->
  (tears = true -> torn (Z.to_nat (Sequence.step (Persisting.sequence st))) = true) ->
  exists i store' writes, accept i = true /\
    ((s0 :: ss) ++ [installed s]) !! i
      = Some (SuperblockCandidate.Superblock (SuperblockStore.current store')) /\
    OpenSuperblockStore true size z' v None = Ok (store', writes).
Proof.
  intros Hst Hadv Hcr Htears. destruct Hready as (base & bytes & Hb & _).
  assert (((s0 :: ss) ++ [installed s]) !! S (length ss) = Some (installed s)) as Hk.
  { rewrite lookup_app_r by (cbn; lia). cbn [length]. by rewrite Nat.sub_diag. }
  destruct (crash_levels v q w base _ s _ lv z Hcc Hb Ht Hv Hk Hlen Hz store n st tears z' Hst Hadv Hcr)
    as (j & Hj & Hcase).
  assert (required q (copiesOf v) <$> ((s0 :: ss) ++ [installed s])
    = (if isInitial s0 then w else q) :: replicate (S (length ss)) q) as Hreqs.
  { cbn [app] in *. rewrite (reqs_chain q w) by (done || apply Hcc).
    rewrite length_app, Nat.add_1_r. done. }
  unfold crash_check in Hcheck. apply andb_prop in Hcheck as [Hclean Htorn].
  rewrite forallb_forall in Hclean. pose proof (copy_count_cases v q w Hcc).
  destruct Hcase as [Hh|(-> & Hj' & Estep & Hh)].
  - specialize (Hclean j ltac:(apply in_seq; lia)). rewrite <- Hreqs in Hclean.
    destruct (opens _ _) as [i|] eqn:Eo; [|done].
    eapply opens_sound in Eo as (store' & ws & Hi & Ho); [|done..| |exact Hh].
    + exists i, store', ws. done.
    + by rewrite length_persist_levels.
  - rewrite forallb_forall in Htorn. specialize (Htears eq_refl). rewrite Estep, Nat2Z.id in Htears.
    specialize (Htorn j ltac:(apply in_seq; lia)). rewrite <- Hreqs, Htears in Htorn. cbn [negb orb] in Htorn.
    destruct (opens _ _) as [i|] eqn:Eo; [|done].
    eapply opens_sound in Eo as (store' & ws & Hi & Ho); [|done..| |exact Hh].
    + exists i, store', ws. done.
    + by rewrite length_insert, length_persist_levels.
Qed.
End crash_safety.

Lemma beginPersist_inv store next store1 seqn next1 q w z :
  copy_count (SuperblockStore.validation store) q w ->
  Superblock.typed (SuperblockCandidate.Superblock (SuperblockStore.current store)) ->
  Superblock.typed next ->
  Persisting.beginPersist store next = Ok (store1, seqn, next1) ->
  let v := SuperblockStore.validation store in
  let cur := SuperblockCandidate.Superblock (SuperblockStore.current store) in
  SuperblockCheck.Validate next v = Ok tt /\
  follows cur next = true /\ Superblock.Sequence next = Superblock.Sequence cur + 1 /\
  SuperblockStore.ioActive store = false /\
  store1 = SuperblockStore.mk v (SuperblockStore.current store) true /\
  next1 = Superblock.with_Checksum next (superblock_sum next) /\
  Persisting.mkState store1 seqn next1 (mkDisk z []) = writing v store1 next z 0.
Proof.
  intros Hcc Htc Ht H v cur. unfold Persisting.beginPersist in H. step_guards H.
  fold cur v in H, G0. apply result_bind_Ok in H as ([] & Hval & H).
  pose proof (proj2 Hcc) as Hw. fold v in Hw. rewrite Hw in H. apply result_bind_Ok in H as ([s1 n1] & Hp & H). injection H as <- <- <-.
  rewrite (prepareCopy_Ok store _ next q w v 0) in Hp by done. injection Hp as <- <-.
  cbn [Sequence.step Sequence.index].
  pose proof (Validate_inv next v Hval) as (Hid & _).
  assert (follows cur next = true) as Hf.
  { unfold follows. split_bool. rewrite bool_decide_true by done.
    match goal with E : Superblock.Sequence next = _, R : durableStateRegressed _ _ = false |- _ =>
      rewrite E, R, Z.eqb_refl end. done. }
  assert (Superblock.Sequence next = Superblock.Sequence cur + 1) as Hseq.
  { unfold follows in Hf. unfold SuperblockCheck.validIdentity in Hid. split_bool.
    pose proof (Superblock.typed_sequence _ Htc) as Hu.
    match goal with E : Superblock.Sequence next = u64 _ |- _ => rename E into Eu end.
    unfold is_uint in Hu. fold cur in Hu. destruct (decide (Superblock.Sequence cur + 1 < 2 ^ 64)).
    - rewrite Eu. apply uwrap_small. unfold is_uint. lia.
    - replace (Superblock.Sequence cur + 1) with (2 ^ 64) in Eu by lia.
      change (u64 (2 ^ 64)) with 0 in Eu. lia. }
  split_and!; try done.
Qed.

Lemma stored_sequence v s : stored v s -> 1 <= Superblock.Sequence s.
Proof.
  intros [Ht (Hid & _)%Validate_inv _ _]. unfold SuperblockCheck.validIdentity in Hid. split_bool.
  pose proof (Superblock.typed_sequence _ Ht) as Hu. unfold is_uint in Hu. lia.
Qed.

Lemma levels_replicate s rest n : levels (s :: rest) (replicate n (Some 0%nat)) = replicate n (Some s).
Proof. unfold levels. by rewrite fmap_replicate. Qed.

Lemma mod_lt_nat a c : 0 < c -> (Z.to_nat (a mod c) < Z.to_nat c)%nat.
Proof. intros Hc. pose proof (Z.mod_pos_bound a c Hc). lia. Qed.

Lemma forallb_seq f n k : forallb f (seq 0 n) = true -> (k < n)%nat -> f k = true.
Proof. rewrite forallb_forall. intros H Hk. apply H, in_seq. lia. Qed.

(** The copy counts with their open quorum and write copies. *)
Definition copy_counts : list (Z * Z * Z) := [(4, 2, 3); (6, 3, 4); (8, 4, 5)].

Lemma copy_count_in v q w : copy_count v q w -> (copiesOf v, q, w) ∈ copy_counts.
Proof.
  intros [(-> & -> & ->)|[(-> & -> & ->)|(-> & -> & ->)]]%copy_count_cases; unfold copy_counts; set_solver.
Qed.

Lemma first_persist_checked c q w (init torn : bool) r :
  (c, q, w) ∈ copy_counts -> (r < Z.to_nat c)%nat -> (torn = true -> init = false) ->
  crash_check (Z.to_nat c) (Z.to_nat w) (fun _ => torn) [if init then w else q; q]
    (replicate (Z.to_nat c) (Some 0%nat)) 1 r (fun _ => true) = true.
Proof.
  intros Hin. revert r. unfold copy_counts in Hin.
  assert (forallb (fun r => crash_check (Z.to_nat c) (Z.to_nat w) (fun _ => true) [q; q]
      (replicate (Z.to_nat c) (Some 0%nat)) 1 r (fun _ => true)
    && crash_check (Z.to_nat c) (Z.to_nat w) (fun _ => false) [if init then w else q; q]
      (replicate (Z.to_nat c) (Some 0%nat)) 1 r (fun _ => true)) (seq 0 (Z.to_nat c)) = true) as H.
  { repeat (apply elem_of_cons in Hin as [[= -> -> ->]|Hin]; [destruct init; vm_compute; reflexivity|]).
    by apply not_elem_of_nil in Hin. }
  intros r Hr Hinit. apply (forallb_seq _ _ r H) in Hr. apply andb_prop in Hr as [H1 H2].
  destruct torn; [|exact H2]. rewrite Hinit by done. exact H1.
Qed.

(** The first persist after an open survives a crash at any point.  With 4, 6
    or 8 copies, whatever prefix of its copies is durable and whether the copy in
    flight is lost, kept or (unless the store is just formatted) torn, the next
    open succeeds and finds the old superblock or the new one. *)
Theorem first_persist_crash_safe size z v before store writes next store1 seqn next1 n st torn z' :
  length z = Z.to_nat (copiesOf v) -> collision_free v z ->
  OpenSuperblockStore true size z v before = Ok (store, writes) ->
  Superblock.typed next -> Persisting.beginPersist store next = Ok (store1, seqn, next1) ->
  advance_n n (Persisting.mkState store1 seqn next1 (mkDisk (apply_writes z writes) [])) = Ok st ->
  crashed v torn (durable (Persisting.storage st)) (cached (Persisting.storage st)) z' ->
  let cur := SuperblockCandidate.Superblock (SuperblockStore.current store) in
  (torn = true -> isInitial cur = false) ->
  exists store' writes', OpenSuperblockStore true size z' v None = Ok (store', writes') /\
    (SuperblockCandidate.Superblock (SuperblockStore.current store') = cur \/
     SuperblockCandidate.Superblock (SuperblockStore.current store') = installed next).
Proof.
  intros Hlen Hfree Hopen Ht Hbegin Hadv Hcr cur Hinit.
  destruct (Open_inv _ _ _ _ _ _ _ Hopen Hlen Hfree)
    as (_ & Hready & (q & w & Hcc) & Hval & _ & Hst & Hh). fold cur in Hst, Hh.
  pose proof Hcc as Hcc'. rewrite <- Hval in Hcc'.
  destruct (beginPersist_inv store next store1 seqn next1 q w (apply_writes z writes) Hcc'
    (stored_typed _ _ Hst) Ht Hbegin) as (Hv & Hf & Hseq & _ & -> & _ & Est).
  fold cur in Hf, Hseq. rewrite Hval in Hv, Est, Hadv. rewrite Est in Hadv.
  pose proof (copy_count_cases v q w Hcc) as Hcase.
  assert (linked ([cur] ++ [installed next])) as Hl by by split.
  set (lv := replicate (Z.to_nat (copiesOf v)) (Some 0%nat)).
  destruct (crash_open v size q w cur [] next lv (apply_writes z writes) (fun _ => torn) (fun _ => true)
    Hready Hcc Hl (stored_sequence _ _ Hst) Ht Hv) with (n := n) (st := st) (z' := z') (tears := torn)
    (store := SuperblockStore.mk v (SuperblockStore.current store) true)
    as (i & store' & ws & _ & Hi & Ho); try done.
  - unfold lv. rewrite length_replicate. lia.
  - unfold lv. cbn [app]. rewrite levels_replicate. by rewrite Hlen in Hh.
  - unfold lv. pose proof (mod_lt_nat (Superblock.Sequence next) (copiesOf v) ltac:(lia)) as Hr.
    set (r := Z.to_nat (_ mod _)) in *. clearbody r. cbn [length replicate].
    apply first_persist_checked; [by apply copy_count_in|done|done].
  - exists store', ws. split; [done|]. destruct i as [|[|i]]; cbn in Hi; simplify_eq; auto.
Qed.

(** ** Stores between persists *)

(** The stores an open and the persists after it lead to. *)
Inductive reachable (v : SuperblockValidation) (size : option Z) : SuperblockStore -> disk -> Prop :=
| reachable_open z before store writes :
    length z = Z.to_nat (copiesOf v) -> collision_free v z ->
    OpenSuperblockStore true size z v before = Ok (store, writes) ->
    reachable v size store (mkDisk (apply_writes z writes) [])
| reachable_persist store d next store' d' :
    reachable v size store d -> Superblock.typed next ->
    Persisting.Persist store next d = Ok (store', d') ->
    reachable v size store' d'.

(** The copies [m] persists after an open ([m] capped at the copies a persist
    leaves out): the newest level on [w] copies from physical index [r] on, and
    one older level on each of the copies before it. *)
Definition pattern (c w r m : nat) : list (option nat) :=
  (fun p => let o := ((p + c - r) mod c)%nat in
            Some (if Nat.ltb o w then m else m - Nat.min (c - o) m)%nat) <$> seq 0 c.

Abbreviation copies_nat v := (Z.to_nat (copiesOf v)).

Record settled (v : SuperblockValidation) (size : option Z) (q w : Z) (store : SuperblockStore)
    (d : disk) (s0 : Superblock) (ss : list Superblock) : Prop := {
  se_ready : storage_ready v size;
  se_count : copy_count v q w;
  se_validation : SuperblockStore.validation store = v;
  se_typed : Superblock.typed (SuperblockCandidate.Superblock (SuperblockStore.current store));
  se_linked : linked (s0 :: ss);
  se_first : 1 <= Superblock.Sequence s0;
  se_length : Z.of_nat (length ss) <= copiesOf v - w;
  se_last : last (s0 :: ss)
    = Some (normalize (SuperblockCandidate.Superblock (SuperblockStore.current store)));
  se_holds : holds v (durable d) (levels (s0 :: ss)
    (pattern (copies_nat v) (Z.to_nat w)
       (Z.to_nat (Superblock.Sequence (SuperblockCandidate.Superblock (SuperblockStore.current store))
                  mod copiesOf v)) (length ss)));
  se_cached : cached d = [];
}.

Lemma length_pattern c w r m : length (pattern c w r m) = c.
Proof. unfold pattern. by rewrite length_fmap, length_seq. Qed.

Definition shift_levels (lv : list (option nat)) : list (option nat) := option_map S <$> lv.

(** Facts of the finitely many patterns, by evaluation. *)
Definition pattern_start_check (c w r : nat) : bool :=
  bool_decide (pattern c w r 0 = replicate c (Some 0%nat)).

Definition pattern_step_check (c w r m : nat) : bool :=
  let r' := (S r mod c)%nat in
  let after := persist_levels c r' (pattern c w r m) (S m) w in
  bool_decide (after = if Nat.ltb m (c - w) then pattern c w r' (S m)
                       else shift_levels (pattern c w r' m))
  && bounded_check (pattern c w r m) (S m).

Lemma pattern_checked (P : Z -> Z -> Z -> nat -> nat -> bool) :
  forallb (fun '(c, q, w) => forallb (fun r => forallb (P c q w r) (seq 0 (S (Z.to_nat (c - w)))))
    (seq 0 (Z.to_nat c))) copy_counts = true ->
  forall v q w r m, copy_count v q w -> (r < copies_nat v)%nat -> Z.of_nat m <= copiesOf v - w ->
  P (copiesOf v) q w r m = true.
Proof.
  intros H v q w r m Hcc Hr Hm. pose proof (copy_count_in v q w Hcc) as Hin%list_elem_of_In.
  rewrite forallb_forall in H. specialize (H _ Hin). cbn beta iota in H.
  apply (forallb_seq _ _ r) in H; [|done]. apply (forallb_seq _ _ m) in H; [done|lia].
Qed.

Lemma pattern_start v q w r :
  copy_count v q w -> (r < copies_nat v)%nat ->
  pattern (copies_nat v) (Z.to_nat w) r 0 = replicate (copies_nat v) (Some 0%nat).
Proof.
  intros Hcc Hr. pose proof (copy_count_cases v q w Hcc).
  pose proof (pattern_checked (fun c _ w r _ => pattern_start_check (Z.to_nat c) (Z.to_nat w) r)
    ltac:(vm_compute; reflexivity) v q w r 0%nat Hcc Hr ltac:(lia)) as E.
  by apply bool_decide_eq_true in E.
Qed.

Lemma pattern_step v q w r m :
  copy_count v q w -> (r < copies_nat v)%nat -> Z.of_nat m <= copiesOf v - w ->
  pattern_step_check (copies_nat v) (Z.to_nat w) r m = true.
Proof.
  apply (pattern_checked (fun c _ w r m => pattern_step_check (Z.to_nat c) (Z.to_nat w) r m)
    ltac:(vm_compute; reflexivity) v q w r m).
Qed.

Lemma succ_mod_nat a c : 0 < c -> Z.to_nat ((a + 1) mod c) = (S (Z.to_nat (a mod c)) mod Z.to_nat c)%nat.
Proof.
  intros Hc. pose proof (Z.mod_pos_bound a c Hc). rewrite <- Zplus_mod_idemp_l.
  rewrite Z2Nat.inj_mod by lia. f_equal. lia.
Qed.

Lemma levels_shift s ss lv : levels (s :: ss) (shift_levels lv) = levels ss lv.
Proof. unfold levels, shift_levels. rewrite <- list_fmap_compose. apply list_fmap_ext. by intros i [k|]. Qed.

Lemma linked_snoc ss s :
  linked ss -> (forall a, last ss = Some a -> follows a s = true /\ Superblock.Sequence s = Superblock.Sequence a + 1) ->
  linked (ss ++ [s]).
Proof.
  induction ss as [|a [|b ss] IH]; intros Hl Ha; [done|by destruct (Ha a eq_refl)|].
  destruct Hl as (Hf & He & Hl). split; [done|]. split; [done|]. apply IH; [done|].
  intros x Hx. by apply Ha.
Qed.

Abbreviation current_of store := (SuperblockCandidate.Superblock (SuperblockStore.current store)).
Abbreviation rotation v s := (Z.to_nat (Superblock.Sequence s mod copiesOf v)).

(** A persist that begins extends the chain. *)
Lemma settled_extend v size q w store d s0 ss next store1 seqn next1 :
  settled v size q w store d s0 ss -> Superblock.typed next ->
  Persisting.beginPersist store next = Ok (store1, seqn, next1) ->
  SuperblockCheck.Validate next v = Ok tt /\
  store1 = SuperblockStore.mk v (SuperblockStore.current store) true /\
  Persisting.mkState store1 seqn next1 d = writing v store1 next (durable d) 0 /\
  linked ((s0 :: ss) ++ [installed next]) /\
  holds v (durable d) (levels ((s0 :: ss) ++ [installed next])
    (pattern (copies_nat v) (Z.to_nat w) (rotation v (current_of store)) (length ss))) /\
  rotation v next = (S (rotation v (current_of store)) mod copies_nat v)%nat /\
  (rotation v (current_of store) < copies_nat v)%nat.
Proof.
  intros [Hready Hcc Hval Htc Hl Hs0 Hlen Hlast Hh Hcached] Ht Hb.
  pose proof (copy_count_cases v q w Hcc). rewrite <- Hval in Hcc.
  destruct (beginPersist_inv store next store1 seqn next1 q w (durable d) Hcc Htc Ht Hb)
    as (Hv & Hf & Hseq & _ & -> & _ & Est). rewrite Hval in *.
  assert (rotation v (current_of store) < copies_nat v)%nat as Hr by (apply mod_lt_nat; lia).
  split_and!; try done.
  - rewrite <- Est. f_equal. destruct d as [z c]. cbn in *. by subst.
  - apply linked_snoc; [done|]. intros a Ha. rewrite Hlast in Ha. injection Ha as <-. done.
  - rewrite levels_app; [done|]. apply bounded_check_sound.
    pose proof (pattern_step v q w _ _ Hcc Hr Hlen) as Hp. unfold pattern_step_check in Hp.
    by apply andb_prop in Hp as [_ Hp].
  - rewrite Hseq. apply succ_mod_nat. lia.
Qed.

Lemma Persist_inv v size q w store d s0 ss next store' d' :
  settled v size q w store d s0 ss -> Superblock.typed next ->
  Persisting.Persist store next d = Ok (store', d') ->
  exists store1 seqn next1, Persisting.beginPersist store next = Ok (store1, seqn, next1) /\
    store' = SuperblockStore.mk v
      (SuperblockCandidate.mk (Superblock.with_Checksum next (superblock_sum next))
         (u16 (Superblock.Sequence next mod copiesOf v)) false) false /\
    d' = mkDisk (apply_writes (durable d) (copy_writes v next (Z.to_nat w))) [].
Proof.
  intros Hse Ht H. unfold Persisting.Persist in H.
  apply result_bind_Ok in H as ([[store1 seqn] next1] & Hb & H).
  destruct (settled_extend _ _ _ _ _ _ _ _ _ _ _ _ Hse Ht Hb) as (Hv & -> & Est & _).
  apply result_bind_Ok in H as (final & Hp & H). rewrite Est in Hp.
  rewrite (persist_loop_Ok v (SuperblockStore.mk v (SuperblockStore.current store) true) next (durable d)
    q w eq_refl (se_count _ _ _ _ _ _ _ _ Hse) Ht Hv) in Hp.
  injection Hp as <-. injection H as <- <-. eexists _, _, _. split; [exact Hb|]. done.
Qed.

Lemma settled_persist v size q w store d s0 ss next store' d' :
  settled v size q w store d s0 ss -> Superblock.typed next ->
  Persisting.Persist store next d = Ok (store', d') ->
  exists s0' ss', settled v size q w store' d' s0' ss' /\ (0 < length ss')%nat /\
    Z.of_nat (length ss') = Z.min (Z.of_nat (length ss) + 1) (copiesOf v - w).
Proof.
  intros Hse Ht Hp. destruct (Persist_inv _ _ _ _ _ _ _ _ _ _ _ Hse Ht Hp)
    as (store1 & seqn & next1 & Hb & -> & ->).
  destruct (settled_extend _ _ _ _ _ _ _ _ _ _ _ _ Hse Ht Hb) as (Hv & _ & _ & Hl & Hh & Hrot & Hr).
  destruct Hse as [Hready Hcc Hval Htc Hlink Hs0 Hlen Hlast _ _].
  pose proof (copy_count_cases v q w Hcc) as Hcase. pose proof Hready as (base & bytes & Hbase & _).
  set (r := rotation v (current_of store)) in *. set (m := length ss) in *.
  pose proof (pattern_step v q w r m Hcc Hr Hlen) as Hstep. unfold pattern_step_check in Hstep.
  apply andb_prop in Hstep as [Hstep%bool_decide_eq_true _].
  assert (((s0 :: ss) ++ [installed next]) !! S m = Some (installed next)) as Hk.
  { rewrite lookup_app_r by (cbn; unfold m; lia). cbn [length]. fold m. by rewrite Nat.sub_diag. }
  assert (Z.of_nat (length (pattern (copies_nat v) (Z.to_nat w) r m)) = copiesOf v) as Hpl
    by (rewrite length_pattern; clear - Hcase; lia).
  pose proof (copies_held v q w base _ next (S m) _ (durable d) Hcc Hbase Ht Hv Hk Hpl Hh (Z.to_nat w)) as Hd.
  rewrite Hrot, Hstep in Hd.
  assert (Superblock.typed (Superblock.with_Checksum next (superblock_sum next))) as Ht'
    by (apply typed_with_Checksum; [done|apply zlen_superblock_sum]).
  clear Hstep Hh. revert Hd. destruct (Nat.ltb_spec m (copies_nat v - Z.to_nat w)) as [Hlt|Hge]; intros Hd.
  - exists s0, (ss ++ [installed next]). rewrite length_app. cbn [length]. fold m. split; [|clear - Hcase Hlt; lia].
    split; try done; cbn [durable cached]; [rewrite length_app; cbn [length]; fold m; clear - Hcase Hlt; lia| |].
    + change (s0 :: ss ++ [installed next]) with ((s0 :: ss) ++ [installed next]). by rewrite last_snoc.
    + rewrite length_app. cbn [length]. fold m. rewrite Nat.add_1_r.
      cbn [SuperblockStore.current SuperblockCandidate.Superblock Superblock.Sequence Superblock.with_Checksum].
      by rewrite Hrot.
  - cbn [app] in Hl, Hd. rewrite levels_shift in Hd.
    destruct ss as [|s1 ss]; [cbn in m; clear - Hcase Hge m; lia|].
    exists s1, (ss ++ [installed next]). cbn [length] in m.
    rewrite length_app. cbn [length]. split; [|unfold m in *; clear - Hcase Hge Hlen; lia].
    split; try done; cbn [durable cached].
    + by apply linked_cons in Hl.
    + pose proof (linked_lt (s0 :: s1 :: ss) 0 1 s0 s1 Hlink (Nat.lt_0_succ 0) eq_refl eq_refl) as H01.
      clear - Hs0 H01. lia.
    + rewrite length_app. cbn [length]. unfold m in *. clear - Hcase Hge Hlen. lia.
    + change (s1 :: ss ++ [installed next]) with ((s1 :: ss) ++ [installed next]). by rewrite last_snoc.
    + rewrite length_app. cbn [length]. rewrite Nat.add_1_r.
      cbn [SuperblockStore.current SuperblockCandidate.Superblock Superblock.Sequence Superblock.with_Checksum].
      by rewrite Hrot.
Qed.

Lemma reachable_settled v size store d :
  reachable v size store d ->
  SuperblockStore.ioActive store = false /\ exists q w s0 ss, settled v size q w store d s0 ss.
Proof.
  induction 1 as [z before store writes Hlen Hfree Hopen|store d next store' d' _ IH Ht Hp].
  - destruct (Open_inv _ _ _ _ _ _ _ Hopen Hlen Hfree)
      as (_ & Hready & (q & w & Hcc) & Hval & Hio & Hst & Hh).
    split; [done|]. set (cur := SuperblockCandidate.Superblock _) in *.
    pose proof (copy_count_cases v q w Hcc). exists q, w, cur, [].
    split; try done; try apply Hst.
    + by eapply stored_sequence.
    + cbn [length]. lia.
    + cbn [last]. fold cur. by rewrite (stored_normal _ _ Hst).
    + cbn [length durable]. rewrite (pattern_start v q w) by (done || apply mod_lt_nat; lia).
      rewrite levels_replicate. by rewrite <- Hlen.
  - destruct IH as [_ (q & w & s0 & ss & Hse)].
    destruct (Persist_inv _ _ _ _ _ _ _ _ _ _ _ Hse Ht Hp) as (_ & _ & _ & _ & E & _).
    split; [by rewrite E|].
    destruct (settled_persist _ _ _ _ _ _ _ _ _ _ _ Hse Ht Hp) as (s0' & ss' & Hse' & _). eauto 10.
Qed.

Definition pattern_opens_check (c q w : Z) (r m : nat) : bool :=
  forallb (fun first => bool_decide (opens (first :: replicate m q)
    (pattern (Z.to_nat c) (Z.to_nat w) r m) = Some m)) [q; w].

(** The storage of a store opens to the store's current superblock. *)
Lemma settled_opens v size store d :
  reachable v size store d ->
  exists store' writes, OpenSuperblockStore true size (durable d) v None = Ok (store', writes) /\
    current_of store' = normalize (current_of store).
Proof.
  intros [_ (q & w & s0 & ss & [Hready Hcc Hval Htc Hl Hs0 Hlen Hlast Hh _])]%reachable_settled.
  pose proof (copy_count_cases v q w Hcc).
  assert (rotation v (current_of store) < copies_nat v)%nat as Hr by (apply mod_lt_nat; lia).
  pose proof (pattern_checked pattern_opens_check ltac:(vm_compute; reflexivity) v q w _ _ Hcc Hr Hlen) as Hp.
  unfold pattern_opens_check in Hp. cbn [forallb] in Hp. rewrite !andb_true_iff in Hp.
  destruct Hp as (Hq%bool_decide_eq_true & Hw%bool_decide_eq_true & _).
  assert (opens (required q (copiesOf v) <$> (s0 :: ss))
    (pattern (copies_nat v) (Z.to_nat w) (rotation v (current_of store)) (length ss))
    = Some (length ss)) as Ho.
  { rewrite (reqs_chain q w) by (done || apply Hcc). by destruct (isInitial s0). }
  eapply opens_sound in Ho as (store' & writes & Hs & Ho); [|done|done|done| |exact Hh].
  - exists store', writes. split; [done|]. rewrite last_lookup in Hlast. cbn [length pred] in Hlast.
    rewrite Hs in Hlast. by injection Hlast.
  - rewrite length_pattern. lia.
Qed.

(** ** Persists complete *)

Lemma persist_begins v size q w store d s0 ss next :
  settled v size q w store d s0 ss -> SuperblockStore.ioActive store = false ->
  Superblock.typed next -> follows (current_of store) next = true ->
  SuperblockCheck.Validate next v = Ok tt ->
  exists seqn, Persisting.beginPersist store next
    = Ok (SuperblockStore.mk v (SuperblockStore.current store) true, seqn,
          Superblock.with_Checksum next (superblock_sum next)).
Proof.
  intros [_ Hcc Hval _ _ _ _ _ _ _] Hio Ht Hf Hv. unfold Persisting.beginPersist. rewrite Hio, Hval.
  unfold follows in Hf. rewrite !andb_true_iff in Hf. destruct Hf as ((-> & ->) & ->%negb_true_iff).
  cbn [negb orb]. rewrite Hv. cbn [mbind result_bind]. rewrite (proj2 Hcc).
  rewrite (prepareCopy_Ok store _ next q w v 0) by done. cbn [mbind result_bind]. eauto.
Qed.

Lemma persist_succeeds v size q w store d s0 ss next :
  settled v size q w store d s0 ss -> SuperblockStore.ioActive store = false ->
  Superblock.typed next -> follows (current_of store) next = true ->
  SuperblockCheck.Validate next v = Ok tt ->
  exists store' d', Persisting.Persist store next d = Ok (store', d') /\
    current_of store' = Superblock.with_Checksum next (superblock_sum next).
Proof.
  intros Hse Hio Ht Hf Hv. destruct (persist_begins _ _ _ _ _ _ _ _ _ Hse Hio Ht Hf Hv) as (seqn & Hb).
  destruct (settled_extend _ _ _ _ _ _ _ _ _ _ _ _ Hse Ht Hb) as (_ & _ & Est & _).
  unfold Persisting.Persist. rewrite Hb. cbn [mbind result_bind]. rewrite Est.
  rewrite (persist_loop_Ok v (SuperblockStore.mk v (SuperblockStore.current store) true) next (durable d)
    q w eq_refl (se_count _ _ _ _ _ _ _ _ Hse) Ht Hv).
  cbn [mbind result_bind]. eexists _, _. split; [reflexivity|done].
Qed.

(** C27: a persist completes.  On any store the program can reach, a valid
    superblock that follows the current one goes through all its write and
    sync phases: the persist returns, the store is free for the next one, its
    current superblock is the new one under its checksum, no write is left in
    the cache, and the storage opens to that superblock. *)
Theorem persist_completes v size store d next :
  reachable v size store d -> Superblock.typed next -> follows (current_of store) next = true ->
  SuperblockCheck.Validate next v = Ok tt ->
  exists store' d', Persisting.Persist store next d = Ok (store', d') /\
    SuperblockStore.ioActive store' = false /\ cached d' = [] /\
    current_of store' = Superblock.with_Checksum next (superblock_sum next) /\
    exists store'' writes, OpenSuperblockStore true size (durable d') v None = Ok (store'', writes) /\
      current_of store'' = installed next.
Proof.
  intros Hr Ht Hf Hv. destruct (reachable_settled _ _ _ _ Hr) as [Hio (q & w & s0 & ss & Hse)].
  destruct (persist_succeeds _ _ _ _ _ _ _ _ _ Hse Hio Ht Hf Hv) as (store' & d' & Hp & Hc).
  pose proof (reachable_persist _ _ _ _ _ _ _ Hr Ht Hp) as Hr'.
  destruct (reachable_settled _ _ _ _ Hr') as [Hio' (q' & w' & s0' & ss' & Hse')].
  exists store', d'. split_and!; [done|done|by destruct Hse'|done|].
  destruct (settled_opens _ _ _ _ Hr') as (store'' & ws & Ho & E). exists store'', ws.
  split; [done|]. by rewrite E, Hc.
Qed.

(** Tearing the second copy of a persist is the one case left out. *)
Definition not_second (j : nat) : bool := negb (Nat.eqb j 1).

Definition four_copies_check (c q w : Z) (r m : nat) : bool :=
  negb (c =? 4)
  || forallb (fun first => crash_check (Z.to_nat c) (Z.to_nat w) not_second (first :: replicate (S m) q)
       (pattern (Z.to_nat c) (Z.to_nat w) r m) (S m) (S r mod Z.to_nat c) (Nat.leb m)) [q; w].

(** C10: with the default of four copies a persist survives a crash, except for
    one torn copy.  From any store the program can reach, whatever prefix of the
    new superblock's copies is durable and whether the copy in flight is lost,
    kept or torn (leaving bytes that do not decode), the next open succeeds and
    finds the current superblock or the new one, provided the torn copy, if
    any, is not the second one of the persist. *)
Theorem persist_crash_safe_four v size store d next store1 seqn next1 n st torn z' :
  copiesOf v = 4 -> reachable v size store d -> Superblock.typed next ->
  Persisting.beginPersist store next = Ok (store1, seqn, next1) ->
  advance_n n (Persisting.mkState store1 seqn next1 d) = Ok st ->
  crashed v torn (durable (Persisting.storage st)) (cached (Persisting.storage st)) z' ->
  (torn = true -> Sequence.step (Persisting.sequence st) <> 1) ->
  exists store' writes, OpenSuperblockStore true size z' v None = Ok (store', writes) /\
    (current_of store' = normalize (current_of store) \/ current_of store' = installed next).
Proof.
  intros H4 [_ (q & w & s0 & ss & Hse)]%reachable_settled Ht Hb Hadv Hcr Htorn.
  destruct (settled_extend _ _ _ _ _ _ _ _ _ _ _ _ Hse Ht Hb) as (Hv & -> & Est & Hl & Hh & Hrot & Hr).
  destruct Hse as [Hready Hcc Hval Htc _ Hs0 Hlen Hlast _ _]. rewrite Est in Hadv.
  pose proof (pattern_checked four_copies_check ltac:(vm_compute; reflexivity) v q w _ _ Hcc Hr Hlen) as Hp.
  unfold four_copies_check in Hp. rewrite (proj2 (Z.eqb_eq _ _) H4) in Hp.
  cbn [negb orb forallb] in Hp. rewrite !andb_true_iff, <- Hrot in Hp. destruct Hp as (Hq & Hw & _).
  set (lv := pattern _ _ _ _) in *.
  assert (Z.of_nat (length lv) = copiesOf v) as Hpl by (unfold lv; by rewrite length_pattern, H4).
  assert (crash_check (copies_nat v) (Z.to_nat w) not_second
    ((if isInitial s0 then w else q) :: replicate (S (length ss)) q) lv (S (length ss))
    (rotation v next) (Nat.leb (length ss)) = true) as Hck by by destruct (isInitial s0).
  destruct (crash_open v size q w s0 ss next lv (durable d) not_second (Nat.leb (length ss)) Hready Hcc Hl
    Hs0 Ht Hv Hpl Hh Hck (SuperblockStore.mk v (SuperblockStore.current store) true) n st torn z' eq_refl
    Hadv Hcr) as (i & store' & ws & Hi & Hs & Ho).
  { intros Et. specialize (Htorn Et). unfold not_second.
    destruct (Nat.eqb_spec (Z.to_nat (Sequence.step (Persisting.sequence st))) 1); [lia|done]. }
  exists store', ws. split; [done|]. apply Nat.leb_le in Hi.
  destruct (decide (i = length ss)) as [->|Hne].
  - left. rewrite last_lookup in Hlast. cbn [length pred] in Hlast.
    rewrite lookup_app_l in Hs by (cbn; lia). rewrite Hs in Hlast. by injection Hlast.
  - right. pose proof (lookup_lt_Some _ _ _ Hs) as Hlt. rewrite length_app in Hlt. cbn [length] in Hlt.
    replace i with (length (s0 :: ss)) in Hs by (cbn; lia). rewrite list_lookup_middle in Hs by done.
    by injection Hs.
Qed.

(** ** Interruptions that leave the storage unopenable *)

Definition lost_check (c q w : Z) (r m : nat) : bool :=
  (c =? 4) || Nat.eqb m 0
  || let lv := persist_levels (Z.to_nat c) (S r mod Z.to_nat c) (pattern (Z.to_nat c) (Z.to_nat w) r m) (S m) 2 in
     bounded_check lv (S (S m)) && contiguous lv (S (S m))
     && forallb (fun first => bool_decide (outcome (first :: replicate (S m) q) lv = None)) [q; w].

(** A zone whose levels have no quorum does not open. *)
Lemma no_quorum_unopenable v size z chain lv q w :
  storage_ready v size -> copy_count v q w -> linked chain -> Z.of_nat (length lv) = copiesOf v ->
  bounded_levels lv (length chain) -> contiguous lv (length chain) = true ->
  outcome (required q (copiesOf v) <$> chain) lv = None -> holds v z (levels chain lv) ->
  exists err, OpenSuperblockStore true size z v None = Err err /\
    (err = Joined ErrCorrupt ErrSuperblockQuorum \/
     err = Joined ErrUnformatted ErrSuperblockInitializationIncomplete).
Proof.
  intros Hready Hcc Hl Hll Hbd Hct Ho Hheld.
  pose proof (levels_select chain lv (copiesOf v) q (proj1 Hcc) Hll Hl Hbd Hct) as Hsel.
  rewrite Ho in Hsel.
  pose proof (Open_levels v size _ (levels chain lv) q w Hready Hcc Hheld
    ltac:(unfold levels; by rewrite length_fmap)) as Hopen.
  destruct (candidates_of (levels chain lv)) as [|c0 cs] eqn:Ec.
  { unfold contiguous in Hct. destruct (present lv (length chain)) as [|k p] eqn:Ep; [done|].
    assert (k ∈ present lv (length chain)) as Hin by (rewrite Ep; constructor).
    apply list_elem_of_filter in Hin as [Hin Hlt%elem_of_seq].
    destruct (lookup_lt_is_Some_2 chain k ltac:(lia)) as [x Hx].
    assert (Some x ∈ levels chain lv) as (c' & Hc' & _)%elem_of_candidates_of.
    { apply list_elem_of_fmap. exists (Some k). by cbn; rewrite Hx. }
    rewrite Ec in Hc'. by apply not_elem_of_nil in Hc'. }
  specialize (Hopen ltac:(done)). rewrite Hsel in Hopen.
  destruct (existsb isInitial _); rewrite Hopen; eexists; (split; [reflexivity|]); auto.
Qed.

(** C29: with six or eight copies a crash between two synced copies can lose
    both superblocks.  Once a store has completed one persist, interrupting the
    next one after two of its copies are durable leaves neither the old nor the
    new superblock with an open quorum, and the storage no longer opens. *)
Theorem interrupted_persist_unopenable v size store0 d0 next1 store1 d1 next2 store2 seqn next2' st :
  copiesOf v = 6 \/ copiesOf v = 8 -> reachable v size store0 d0 ->
  Superblock.typed next1 -> Persisting.Persist store0 next1 d0 = Ok (store1, d1) ->
  Superblock.typed next2 -> Persisting.beginPersist store1 next2 = Ok (store2, seqn, next2') ->
  advance_n 4 (Persisting.mkState store2 seqn next2' d1) = Ok st ->
  cached (Persisting.storage st) = [] /\
  exists err, OpenSuperblockStore true size (durable (Persisting.storage st)) v None = Err err /\
    (err = Joined ErrCorrupt ErrSuperblockQuorum \/
     err = Joined ErrUnformatted ErrSuperblockInitializationIncomplete).
Proof.
  intros Hc [_ (q & w & s0' & ss' & Hse')]%reachable_settled Ht1 Hp Ht Hb Hadv.
  destruct (settled_persist _ _ _ _ _ _ _ _ _ _ _ Hse' Ht1 Hp) as (s0 & ss & Hse & Hpos & _).
  clear Hse' s0' ss' Hp Ht1.
  destruct (settled_extend _ _ _ _ _ _ _ _ _ _ _ _ Hse Ht Hb) as (Hv & -> & Est & Hl & Hh & Hrot & Hr).
  destruct Hse as [Hready Hcc Hval Htc _ Hs0 Hlen Hlast _ _]. rewrite Est in Hadv.
  pose proof (copy_count_cases v q w Hcc) as Hcase. pose proof Hready as (base & bytes & Hbase & _).
  destruct (persist_states v (SuperblockStore.mk v (SuperblockStore.current store1) true) next2 (durable d1)
    q w eq_refl Hcc Ht Hv 4 st Hadv)
    as [(j & Hj & En & ->)|[(j & _ & En & _)|(En & _)]];
    [|clear - En; lia|clear - En Hcase Hc; lia].
  assert (j = 2%nat) as -> by (clear - En; lia). split; [done|]. cbn [writing Persisting.storage durable].
  pose proof (pattern_checked lost_check ltac:(vm_compute; reflexivity) v q w _ _ Hcc Hr Hlen) as Hk.
  unfold lost_check in Hk. destruct (Z.eqb_spec (copiesOf v) 4) as [E4|_]; [clear - E4 Hc; lia|].
  destruct (Nat.eqb_spec (length ss) 0) as [E0|_]; [clear - E0 Hpos; lia|]. cbn [orb] in Hk. rewrite <- Hrot in Hk.
  set (lv := persist_levels _ _ _ _ _) in *. cbn [forallb] in Hk. rewrite !andb_true_iff in Hk.
  destruct Hk as ((Hbd%bounded_check_sound & Hct) & Hq%bool_decide_eq_true & Hw%bool_decide_eq_true & _).
  set (chain := (s0 :: ss) ++ [installed next2]) in *.
  assert (length chain = S (S (length ss))) as Hlc by (unfold chain; rewrite length_app; cbn; clear; lia).
  rewrite <- Hlc in Hbd, Hct.
  assert (Z.of_nat (length lv) = copiesOf v) as Hll
    by (unfold lv; rewrite length_persist_levels, length_pattern; clear - Hcase; lia).
  assert (holds v (apply_writes (durable d1) (copy_writes v next2 2)) (levels chain lv)) as Hheld.
  { eapply (copies_held v q w base); try done.
    - unfold chain. rewrite lookup_app_r by (cbn; clear; lia). cbn [length]. by rewrite Nat.sub_diag.
    - rewrite length_pattern. clear - Hcase. lia. }
  eapply no_quorum_unopenable; try done.
  unfold chain in *. cbn [app] in *. rewrite (reqs_chain q w) by (done || apply Hcc).
  rewrite length_app, Nat.add_1_r. by destruct (isInitial s0).
Qed.

Definition torn_check (c q w : Z) (r m : nat) : bool :=
  negb (c =? 4) || Nat.eqb m 0
  || let r' := (S r mod Z.to_nat c)%nat in
     let lv := <[((r' + 1) mod Z.to_nat c)%nat := None]>
       (persist_levels (Z.to_nat c) r' (pattern (Z.to_nat c) (Z.to_nat w) r m) (S m) 1) in
     bounded_check lv (S (S m)) && contiguous lv (S (S m))
     && forallb (fun first => bool_decide (outcome (first :: replicate (S m) q) lv = None)) [q; w].

(** C28: with four copies one torn write can lose both superblocks.  Once a
    store has completed one persist, a crash that tears the second copy of the
    next one leaves one copy of each of the last three superblocks, and the
    storage no longer opens. *)
Theorem torn_persist_unopenable v size store0 d0 next1 store1 d1 next2 store2 seqn next2' st i bytes broken err :
  copiesOf v = 4 -> reachable v size store0 d0 ->
  Superblock.typed next1 -> Persisting.Persist store0 next1 d0 = Ok (store1, d1) ->
  Superblock.typed next2 -> Persisting.beginPersist store1 next2 = Ok (store2, seqn, next2') ->
  advance_n 3 (Persisting.mkState store2 seqn next2' d1) = Ok st ->
  cached (Persisting.storage st) = [(i, bytes)] ->
  SuperblockCodec.DecodeSuperblock broken (Z.of_nat i) v = Err err ->
  exists err, OpenSuperblockStore true size (apply_write (durable (Persisting.storage st)) (i, broken)) v None
      = Err err /\
    (err = Joined ErrCorrupt ErrSuperblockQuorum \/
     err = Joined ErrUnformatted ErrSuperblockInitializationIncomplete).
Proof.
  intros H4 [_ (q & w & s0' & ss' & Hse')]%reachable_settled Ht1 Hp Ht Hb Hadv Hcached Hbroken.
  destruct (settled_persist _ _ _ _ _ _ _ _ _ _ _ Hse' Ht1 Hp) as (s0 & ss & Hse & Hpos & _).
  clear Hse' s0' ss' Hp Ht1.
  destruct (settled_extend _ _ _ _ _ _ _ _ _ _ _ _ Hse Ht Hb) as (Hv & -> & Est & Hl & Hh & Hrot & Hr).
  destruct Hse as [Hready Hcc Hval Htc _ Hs0 Hlen Hlast _ _]. rewrite Est in Hadv.
  pose proof (copy_count_cases v q w Hcc) as Hcase. pose proof Hready as (base & block & Hbase & _).
  destruct (persist_states v (SuperblockStore.mk v (SuperblockStore.current store1) true) next2 (durable d1)
    q w eq_refl Hcc Ht Hv 3 st Hadv)
    as [(j & _ & En & _)|[(j & Hj & En & ->)|(En & _)]];
    [clear - En; lia| |clear - En Hcase H4; lia].
  assert (j = 1%nat) as -> by (clear - En; lia).
  cbn [syncing Persisting.storage durable cached] in *. injection Hcached as <- _.
  pose proof (pattern_checked torn_check ltac:(vm_compute; reflexivity) v q w _ _ Hcc Hr Hlen) as Hk.
  unfold torn_check in Hk. rewrite (proj2 (Z.eqb_eq _ _) H4) in Hk.
  destruct (Nat.eqb_spec (length ss) 0) as [E0|_]; [clear - E0 Hpos; lia|]. cbn [orb negb] in Hk. rewrite <- Hrot in Hk.
  set (lv := <[_ := None]> _) in *. cbn [forallb] in Hk. rewrite !andb_true_iff in Hk.
  destruct Hk as ((Hbd%bounded_check_sound & Hct) & Hq%bool_decide_eq_true & Hw%bool_decide_eq_true & _).
  set (chain := (s0 :: ss) ++ [installed next2]) in *.
  assert (length chain = S (S (length ss))) as Hlc by (unfold chain; rewrite length_app; cbn; clear; lia).
  rewrite <- Hlc in Hbd, Hct.
  assert (Z.of_nat (length lv) = copiesOf v) as Hll
    by (unfold lv; rewrite length_insert, length_persist_levels, length_pattern; clear - Hcase; lia).
  rewrite (copy_position_nat v next2 1 q w Hcc) in *.
  eapply no_quorum_unopenable; try done.
  - unfold chain in *. cbn [app] in *. rewrite (reqs_chain q w) by (done || apply Hcc).
    rewrite length_app, Nat.add_1_r. by destruct (isInitial s0).
  - eapply (torn_held v q w base); try done.
    + unfold chain. rewrite lookup_app_r by (cbn; clear; lia). cbn [length]. by rewrite Nat.sub_diag.
    + rewrite length_pattern. clear - Hcase. lia.
Qed.

(** A zone whose copies skip a level does not open. *)
Lemma gap_unopenable v size z chain lv q w a b c :
  copy_count v q w -> storage_ready v size -> linked chain ->
  Z.of_nat (length lv) = copiesOf v -> holds v z (levels chain lv) ->
  Some a ∈ lv -> ~ Some b ∈ lv -> Some c ∈ lv -> (a < b < c)%nat -> (c < length chain)%nat ->
  bounded_levels lv (length chain) ->
  forall r, OpenSuperblockStore true size z v None <> Ok r.
Proof.
  intros Hcc Hready Hl Hlen Hh Ha Hb Hc Hord Hlt Hbd [store writes] Ho.
  pose proof (Open_levels v size z (levels chain lv) q w Hready Hcc Hh
    ltac:(unfold levels; by rewrite length_fmap)) as Hopen.
  assert (forall k x, Some k ∈ lv -> chain !! k = Some x -> exists d,
    d ∈ candidates_of (levels chain lv) /\ SuperblockCandidate.Superblock d = x) as Hin.
  { intros k x Hk Hx. apply elem_of_candidates_of, list_elem_of_fmap.
    exists (Some k). by cbn; rewrite Hx. }
  destruct (lookup_lt_is_Some_2 chain a ltac:(lia)) as [xa Hxa].
  destruct (lookup_lt_is_Some_2 chain b ltac:(lia)) as [xb Hxb].
  destruct (lookup_lt_is_Some_2 chain c ltac:(lia)) as [xc Hxc].
  destruct (Hin a xa Ha Hxa) as (da & Hda & Eda). destruct (Hin c xc Hc Hxc) as (dc & Hdc & Edc).
  specialize (Hopen ltac:(intros E; rewrite E in Hda; by apply not_elem_of_nil in Hda)).
  destruct (SelectSuperblock _ _) as [sel|err] eqn:Es;
    [|rewrite Ho in Hopen; by destruct (errorIs _ _)].
  assert (forall d, d ∈ candidates_of (levels chain lv) -> exists k, Some k ∈ lv /\
    chain !! k = Some (SuperblockCandidate.Superblock d)) as Hlevel.
  { intros d Hd. assert (Some (SuperblockCandidate.Superblock d) ∈ levels chain lv) as Hs
      by (apply elem_of_candidates_of; eauto).
    apply list_elem_of_fmap in Hs as ([k|] & E & Hk); [|done]. eauto. }
  assert (exists d, d ∈ candidates_of (levels chain lv) /\
    SuperblockCandidate.sequence d = Superblock.Sequence xb) as (d & Hd & Ed).
  { pose proof (linked_lt chain a b xa xb Hl ltac:(lia) Hxa Hxb).
    pose proof (linked_lt chain b c xb xc Hl ltac:(lia) Hxb Hxc).
    eapply (selected_interval _ _ _ _ _ _ Es); [|exact Hda|exact Hdc|].
    { apply Forall_forall. intros d Hd. apply Superblock.typed_sequence. eapply stored_typed, held_stored;
        [exact Hh|]. apply elem_of_candidates_of. eauto. }
    unfold SuperblockCandidate.sequence. rewrite Eda, Edc. lia. }
  destruct (Hlevel d Hd) as (k & Hk & Hx). apply Hb.
  by rewrite <- (linked_lookup_same chain k b _ xb Hl Hx Hxb Ed).
Qed.

Lemma skip_copy v s index phys c :
  Superblock.Checksum (SuperblockCandidate.Superblock c) <> Superblock.Checksum s ->
  forall writes, repairCopies v s index (Some c :: phys) = Ok writes ->
  exists bytes s' rest, SuperblockCodec.Encode s SuperblockBytes (Z.of_nat index) v = Ok (bytes, s') /\
    writes = (index, bytes) :: rest.
Proof.
  intros Hne writes H. cbn [repairCopies] in H. rewrite (bool_decide_false _ Hne), andb_false_r in H.
  apply result_bind_Ok in H as ([bytes s'] & He & H). apply result_bind_Ok in H as (rest & _ & H).
  injection H as <-. eauto.
Qed.

Lemma repair_gap v size z a b c :
  copiesOf v = 6 -> copy_count v 3 4 -> storage_ready v size -> linked [a; b; c] ->
  1 <= Superblock.Sequence a -> Superblock.Checksum b <> Superblock.Checksum c ->
  holds v z (levels [a; b; c] (pattern 6 4 1 2)) ->
  exists store writes, OpenSuperblockStore true size z v None = Ok (store, writes) /\
    forall r, OpenSuperblockStore true size (apply_writes z (take 1 writes)) v None <> Ok r.
Proof.
  intros H6 Hcc Hready Hl Ha Hne Hh. pose proof Hready as (base & bytes & Hbase & _).
  change (pattern 6 4 1 2) with [Some 1; Some 2; Some 2; Some 2; Some 2; Some 0]%nat in Hh.
  set (lv := [Some 1; Some 2; Some 2; Some 2; Some 2; Some 0]%nat) in *.
  assert (Z.of_nat (length lv) = copiesOf v) as Hlen by by rewrite H6.
  assert (outcome (required 3 (copiesOf v) <$> [a; b; c]) lv = Some 2%nat) as Ho.
  { rewrite (reqs_chain 3 4) by (done || apply Hcc). by destruct (isInitial a). }
  pose proof (levels_select [a; b; c] lv (copiesOf v) 3 (proj1 Hcc) Hlen Hl
    ltac:(by apply bounded_check_sound) eq_refl) as Hsel.
  rewrite Ho in Hsel. destruct Hsel as (d & s & [= <-] & Ed & Hsel).
  pose proof (Open_levels v size z (levels [a; b; c] lv) 3 4 Hready Hcc Hh ltac:(by rewrite H6) ltac:(done))
    as Hopen.
  rewrite Hsel, Ed in Hopen. destruct Hopen as (writes & Hw & Hopen).
  exists (SuperblockStore.mk v d false), writes. split; [done|].
  change (physical_of (levels [a; b; c] lv)) with (Some (SuperblockCandidate.mk b 0 false)
    :: drop 1 (physical_of (levels [a; b; c] lv))) in Hw.
  apply skip_copy in Hw as (enc & s' & rest & He & ->); [|done]. cbn [take].
  assert (stored v c) as Hst by (eapply (held_stored v z _ c Hh); unfold lv; cbn; set_solver).
  destruct (index_encodes v 3 4 0 Hcc ltac:(lia)) as [Hi Hu].
  change (Z.of_nat 0) with 0 in He.
  rewrite (Encode_Ok c _ v (stored_typed _ _ Hst) (stored_valid _ _ Hst) Hi) in He.
  assert (enc = sb_bytes c 0 (superblock_sum c)) as -> by congruence. clear He s' Hsel Hopen.
  change (apply_writes z [?w]) with (apply_write z w).
  eapply (gap_unopenable v size _ [a; b; c] (<[0%nat := Some 2%nat]> lv) 3 4 0 1 2);
    try done; try lia; try (unfold lv; cbn; set_solver).
  - rewrite levels_insert. cbn [mbind option_bind]. apply holds_write; [done|cbn; lia|].
    by apply (Decode_stored_copy v c base).
  - by apply bounded_check_sound.
Qed.

(** C30: with six copies a crash while an open repairs its copies can leave the
    storage unopenable.  After two persists the copies hold three consecutive
    superblocks; the repair of the first copy may remove the middle one while
    the oldest is still there, and a selection that finds a gap fails. *)
Theorem interrupted_repair_unopenable v size store0 d0 next1 store1 d1 next2 store2 d2 :
  copiesOf v = 6 -> reachable v size store0 d0 ->
  Superblock.typed next1 -> Persisting.Persist store0 next1 d0 = Ok (store1, d1) ->
  Superblock.typed next2 -> Persisting.Persist store1 next2 d1 = Ok (store2, d2) ->
  Superblock.Sequence next2 mod 6 = 1 -> Superblock.ParentChecksum next2 <> superblock_sum next2 ->
  exists store3 writes, OpenSuperblockStore true size (durable d2) v None = Ok (store3, writes) /\
    forall r, OpenSuperblockStore true size (apply_writes (durable d2) (take 1 writes)) v None <> Ok r.
Proof.
  intros H6 [_ (q & w & s0' & ss' & Hse0)]%reachable_settled Ht1 Hp1 Ht2 Hp2 Hmod Hne.
  destruct (settled_persist _ _ _ _ _ _ _ _ _ _ _ Hse0 Ht1 Hp1) as (s1' & ss1 & Hse1 & Hpos & _).
  destruct (settled_persist _ _ _ _ _ _ _ _ _ _ _ Hse1 Ht2 Hp2) as (s0 & ss & Hse & _ & Hlen2).
  destruct (Persist_inv _ _ _ _ _ _ _ _ _ _ _ Hse1 Ht2 Hp2) as (_ & _ & _ & _ & Estore & _).
  destruct Hse as [Hready Hcc Hval Htc Hl Hs0 Hlen Hlast Hh Hcached].
  pose proof (copy_count_cases v q w Hcc) as Hcase. rewrite H6 in *.
  destruct Hcase as [(E & _)|[(_ & -> & ->)|(E & _)]]; [done| |done].
  assert (length ss = 2%nat) as Hm by (clear - Hlen2 Hpos; lia).
  destruct ss as [|a [|b [|? ?]]]; try done.
  assert (Z.to_nat (Superblock.Sequence (current_of store2) mod 6) = 1%nat) as Hrot
    by (rewrite Estore; cbn; by rewrite Hmod).
  rewrite Hrot in Hh. cbn [length] in Hh. cbn [last] in Hlast. injection Hlast as Eb.
  clear Hse0 Hse1 Hp1 Hp2 Hlen Hlen2 Hcached Hrot.
  apply (repair_gap v size (durable d2) s0 a b); try done. pose proof Hl as (_ & _ & Hf & _).
  unfold follows in Hf. rewrite !andb_true_iff in Hf. destruct Hf as ((_ & <-%bool_decide_eq_true) & _).
  by rewrite Eb, Estore.
Qed.

(** ** A formatted storage *)

Definition seal (s : Superblock) : Superblock := Superblock.with_Checksum s (superblock_sum s).

Lemma seal_sum s : superblock_sum (seal s) = superblock_sum s.
Proof. reflexivity. Qed.

Lemma seal_validate s v : SuperblockCheck.Validate (seal s) v = SuperblockCheck.Validate s v.
Proof. reflexivity. Qed.

Definition copies_zone (copies : Z) (s : Superblock) : zone :=
  (fun i => Some (sb_bytes s (Z.of_nat i) (superblock_sum s))) <$> seq 0 (Z.to_nat copies).

Definition sample_size (copies : Z) : option Z := BlockBase (cluster_with_copies copies).

Lemma copies_zone_holds v s base :
  stored v s -> BlockBase (SuperblockValidation.Cluster v) = Some base ->
  copiesOf v <= 8 -> holds v (copies_zone (copiesOf v) s) (replicate (Z.to_nat (copiesOf v)) (Some s)).
Proof.
  intros Hst Hb Hc. unfold copies_zone. split; [by rewrite length_fmap, length_seq, length_replicate|].
  intros i o [-> Hi]%lookup_replicate. exists (sb_bytes s (Z.of_nat i) (superblock_sum s)). split.
  - unfold readCopy. rewrite list_lookup_fmap, lookup_seq_lt by done. done.
  - apply (Decode_stored_copy v s base); [done|done|]. unfold is_uint. change (2 ^ 16) with 65536. lia.
Qed.

Lemma copies_zone_free v s base :
  stored v s -> BlockBase (SuperblockValidation.Cluster v) = Some base -> copiesOf v <= 8 ->
  collision_free v (copies_zone (copiesOf v) s).
Proof.
  intros Hst Hb Hc i j c d Hi Hj _.
  enough (forall k x, scanned v (copies_zone (copiesOf v) s) k = Some x ->
    SuperblockCandidate.Superblock x = s) as H by by rewrite (H i c Hi), (H j d Hj).
  intros k x Hx. destruct (copies_zone_holds v s base Hst Hb Hc) as [Hl Hh].
  unfold scanned in Hx. destruct (decide (k < Z.to_nat (copiesOf v))%nat) as [Hk|Hk].
  - destruct (Hh k (Some s)) as (buffer & Hr & Hd); [by apply lookup_replicate|].
    rewrite Hr in Hx. cbn [mbind option_bind] in Hx. rewrite Hd in Hx. by injection Hx as <-.
  - unfold readCopy in Hx. rewrite lookup_ge_None_2 in Hx; [done|].
    rewrite Hl, length_replicate. lia.
Qed.

Lemma copies_zone_opens v size q w s :
  storage_ready v size -> copy_count v q w -> stored v s ->
  exists store writes, OpenSuperblockStore true size (copies_zone (copiesOf v) s) v None = Ok (store, writes) /\
    current_of store = s /\ reachable v size store (mkDisk (apply_writes (copies_zone (copiesOf v) s) writes) []).
Proof.
  intros Hready Hcc Hst. pose proof Hready as (base & bytes & Hb & _).
  pose proof (copy_count_cases v q w Hcc) as Hcase.
  pose proof (copies_zone_holds v s base Hst Hb ltac:(lia)) as Hh.
  rewrite <- (levels_replicate s []) in Hh.
  destruct (opens_sound v size _ [s] (replicate (Z.to_nat (copiesOf v)) (Some 0%nat)) q w 0 Hready Hcc I ltac:(rewrite length_replicate; lia) Hh)
    as (store & writes & E & Ho).
  { rewrite (reqs_chain q w) by (done || apply Hcc || by eapply stored_sequence).
    destruct Hcase as [(-> & -> & ->)|[(-> & -> & ->)|(-> & -> & ->)]]; by destruct (isInitial s). }
  exists store, writes. split; [done|]. injection E as E. split; [done|].
  eapply reachable_open; [|by eapply copies_zone_free; eauto; lia|done].
  unfold copies_zone. by rewrite length_fmap, length_seq.
Qed.

(** A chain of three superblocks. *)
Definition sample_a (copies : Z) : Superblock := sample_superblock copies 5 0 (zeros 16).
Definition sample_b (copies : Z) : Superblock := sample_superblock copies 6 0 (superblock_sum (sample_a copies)).
Definition sample_c (copies : Z) : Superblock := sample_superblock copies 7 0 (superblock_sum (sample_b copies)).

Section sample_storage.
Context (copies : Z).
Hypothesis Hcopies : copies = 4 \/ copies = 6.

Lemma sample_base : exists base, BlockBase (cluster_with_copies copies) = Some base /\ 0 < base < 2 ^ 64.
Proof.
  assert (forall c, match BlockBase (cluster_with_copies c) with Some b => (0 <? b) && (b <? 2 ^ 64) | None => false end
    = true -> exists base, BlockBase (cluster_with_copies c) = Some base /\ 0 < base < 2 ^ 64) as H.
  { intros c Hc. destruct (BlockBase (cluster_with_copies c)) as [b|]; [|discriminate Hc].
    exists b. split; [reflexivity|]. apply andb_prop in Hc as [?%Z.ltb_lt ?%Z.ltb_lt]. lia. }
  destruct Hcopies as [-> | ->]; apply H; vm_compute; reflexivity.
Qed.

Lemma sample_ready : storage_ready (sample_sv copies) (sample_size copies).
Proof.
  destruct sample_base as (base & Hb & Hp). exists base, base. unfold sample_size. cbn [SuperblockValidation.Cluster sample_sv].
  split_and!; [exact Hb|exact Hb|lia|lia|]. rewrite Z.sub_diag. apply Z.mod_0_l.
  destruct Hcopies as [-> | ->]; discriminate.
Qed.

Lemma sample_count : exists q w, copy_count (sample_sv copies) q w /\ 2 < w.
Proof. destruct Hcopies as [-> | ->]; [exists 2, 3|exists 3, 4]; (split; [split; reflexivity|lia]). Qed.

Lemma sample_typed n parent :
  is_u64 n -> zlen parent = 16 -> Superblock.typed (sample_superblock copies n 0 parent).
Proof.
  intros Hn Hp. destruct sample_base as (base & Hb & Hr). apply sample_superblock_typed; try done.
  rewrite Hb. change (default 0 (Some base)) with base. unfold is_uint. lia.
Qed.

Lemma sample_valid n parent :
  n = 5 \/ n = 6 \/ n = 7 ->
  SuperblockCheck.Validate (sample_superblock copies n 0 parent) (sample_sv copies) = Ok tt.
Proof. destruct Hcopies as [-> | ->]; intros [-> | [-> | ->]]; vm_compute; reflexivity. Qed.

Lemma sample_follows n parent :
  is_u64 (n + 1) -> follows (seal (sample_superblock copies n 0 parent))
    (sample_superblock copies (n + 1) 0 (superblock_sum (sample_superblock copies n 0 parent))) = true.
Proof.
  intros Hn. unfold follows, seal. cbn [Superblock.Sequence Superblock.with_Checksum sample_superblock
    Superblock.ParentChecksum Superblock.Checksum Superblock.State].
  rewrite (uwrap_small 64) by exact Hn. rewrite Z.eqb_refl, bool_decide_true by reflexivity.
  destruct Hcopies as [-> | ->]; vm_compute; reflexivity.
Qed.

Lemma sample_normal n parent :
  normalize (seal (sample_superblock copies n 0 parent)) = seal (sample_superblock copies n 0 parent).
Proof. reflexivity. Qed.

Lemma sample_stored : stored (sample_sv copies) (seal (sample_a copies)).
Proof.
  split.
  - apply typed_with_Checksum; [apply sample_typed; done|apply zlen_superblock_sum].
  - rewrite <- (sample_valid 5 (zeros 16)) by auto. exact (seal_validate (sample_a copies) (sample_sv copies)).
  - exact (sample_normal 5 (zeros 16)).
  - exact (eq_sym (seal_sum (sample_a copies))).
Qed.

Lemma sample_opened :
  exists store writes,
    OpenSuperblockStore true (sample_size copies) (copies_zone copies (seal (sample_a copies)))
      (sample_sv copies) None = Ok (store, writes) /\
    current_of store = seal (sample_a copies) /\
    reachable (sample_sv copies) (sample_size copies) store
      (mkDisk (apply_writes (copies_zone copies (seal (sample_a copies))) writes) []).
Proof.
  destruct sample_count as (q & w & Hcc & _).
  exact (copies_zone_opens (sample_sv copies) _ q w _ sample_ready Hcc sample_stored).
Qed.

(** A store whose current superblock is [seal s] accepts the next sample. *)
Lemma sample_persist n parent store d :
  reachable (sample_sv copies) (sample_size copies) store d -> n = 5 \/ n = 6 ->
  current_of store = seal (sample_superblock copies n 0 parent) ->
  let next := sample_superblock copies (n + 1) 0 (superblock_sum (sample_superblock copies n 0 parent)) in
  Superblock.typed next /\ SuperblockCheck.Validate next (sample_sv copies) = Ok tt /\
  follows (current_of store) next = true /\
  (exists store1 seqn next1 z, Persisting.beginPersist store next = Ok (store1, seqn, next1) /\
     exists st, advance_n 4 (Persisting.mkState store1 seqn next1 d) = Ok st /\
       Persisting.storage st = mkDisk z []) /\
  (forall j, (j < 3)%nat -> exists store1 seqn next1 z i bytes,
     Persisting.beginPersist store next = Ok (store1, seqn, next1) /\
     exists st, advance_n (S (2 * j)) (Persisting.mkState store1 seqn next1 d) = Ok st /\
       Persisting.storage st = mkDisk z [(i, bytes)] /\ Sequence.step (Persisting.sequence st) = Z.of_nat j) /\
  exists store' d', Persisting.Persist store next d = Ok (store', d') /\
    current_of store' = seal next /\ reachable (sample_sv copies) (sample_size copies) store' d'.
Proof.
  intros Hr Hn Hc next.
  assert (Superblock.typed next) as Ht
    by (apply sample_typed; [unfold is_uint; lia|apply zlen_superblock_sum]).
  assert (SuperblockCheck.Validate next (sample_sv copies) = Ok tt) as Hv by (apply sample_valid; lia).
  assert (follows (current_of store) next = true) as Hf
    by (rewrite Hc; apply sample_follows; unfold is_uint; lia).
  clearbody next. destruct (reachable_settled _ _ _ _ Hr) as [Hio (q & w & s0 & ss & Hse)].
  destruct (persist_begins _ _ _ _ _ _ _ _ _ Hse Hio Ht Hf Hv) as (seqn & Hb).
  destruct (persist_succeeds _ _ _ _ _ _ _ _ _ Hse Hio Ht Hf Hv) as (store' & d' & Hp & Hc').
  split_and!; [exact Ht|exact Hv|exact Hf| | |].
  - destruct (settled_extend _ _ _ _ _ _ _ _ _ _ _ _ Hse Ht Hb) as (_ & _ & Est & _).
    eexists _, seqn, _, _. split; [exact Hb|]. rewrite Est. eexists. split.
    + pose proof (se_count _ _ _ _ _ _ _ _ Hse) as Hcc.
      apply (advance_copies (sample_sv copies) _ next (durable d) q w) with (j := 2%nat);
        [reflexivity|exact Hcc|exact Ht|exact Hv|].
      destruct (copy_count_cases _ q w Hcc) as [(_ & _ & ->)|[(_ & _ & ->)|(_ & _ & ->)]]; lia.
    + reflexivity.
  - intros j Hj. destruct (settled_extend _ _ _ _ _ _ _ _ _ _ _ _ Hse Ht Hb) as (_ & _ & Est & _).
    pose proof (se_count _ _ _ _ _ _ _ _ Hse) as Hcc.
    assert (advance_n (2 * j) (writing (sample_sv copies)
        (SuperblockStore.mk (sample_sv copies) (SuperblockStore.current store) true) next (durable d) 0)
      = Ok (writing (sample_sv copies)
        (SuperblockStore.mk (sample_sv copies) (SuperblockStore.current store) true) next (durable d) j)) as Ha.
    { apply (advance_copies (sample_sv copies) _ next (durable d) q w); [reflexivity|exact Hcc|exact Ht|exact Hv|].
      destruct (copy_count_cases _ q w Hcc) as [(_ & _ & ->)|[(_ & _ & ->)|(_ & _ & ->)]]; lia. }
    eexists _, seqn, _, _, _, _. split; [exact Hb|]. rewrite Est. eexists. split.
    + cbn [advance_n]. rewrite Ha. cbn [mbind result_bind]. apply (advance_write _ _ next (durable d)).
    + split; reflexivity.
  - exists store', d'. split; [exact Hp|]. split; [exact Hc'|]. exact (reachable_persist _ _ _ _ _ _ _ Hr Ht Hp).
Qed.
End sample_storage.

Lemma persist_completes_witness :
  exists store d store' d', reachable (sample_sv 4) (sample_size 4) store d /\
    Persisting.Persist store (sample_b 4) d = Ok (store', d').
Proof.
  assert (4 = 4 \/ 4 = 6) as H4 by (left; reflexivity).
  destruct (sample_opened 4 H4) as (store & writes & _ & Hc & Hr).
  destruct (sample_persist 4 H4 5 (zeros 16) store _ Hr (or_introl eq_refl) Hc) as (Ht & Hv & Hf & _).
  destruct (persist_completes (sample_sv 4) (sample_size 4) store _ (sample_b 4) Hr Ht Hf Hv)
    as (store' & d' & Hp & _).
  exact (ex_intro _ store (ex_intro _ _ (ex_intro _ store' (ex_intro _ d' (conj Hr Hp))))).
Defined.

(** A torn copy: zeros of a superblock's size. *)
Lemma zeros_torn v i :
  SuperblockCodec.DecodeSuperblock (zeros SuperblockBytes) i v = Err ErrInvalidSuperblock.
Proof. vm_compute. reflexivity. Qed.

(** The third copy of a persist is torn. *)
Lemma persist_crash_safe_four_witness :
  exists z store writes, OpenSuperblockStore true (sample_size 4) z (sample_sv 4) None = Ok (store, writes).
Proof.
  assert (4 = 4 \/ 4 = 6) as H4 by (left; reflexivity).
  destruct (sample_opened 4 H4) as (store & writes & Ho & Hc & Hr).
  destruct (sample_persist 4 H4 5 (zeros 16) store _ Hr (or_introl eq_refl) Hc)
    as (_ & _ & _ & _ & _ & store' & d' & Hp & Hc' & Hr').
  destruct (sample_persist 4 H4 6 _ store' _ Hr' (or_intror eq_refl) Hc') as (Ht & _ & _ & _ & Hj & _).
  destruct (Hj 2%nat ltac:(lia)) as (store1 & seqn & next1 & z & i & bytes & Hb & st & Ha & Hs & Hstep).
  pose proof (zeros_torn (sample_sv 4) (Z.of_nat i)) as Hd.
  assert (crashed (sample_sv 4) true (durable (Persisting.storage st)) (cached (Persisting.storage st))
    (apply_write z (i, zeros SuperblockBytes))) as Hcr
    by (rewrite Hs; eapply crashed_torn; [reflexivity|exact Hd|constructor]).
  destruct (persist_crash_safe_four (sample_sv 4) (sample_size 4) store' d' (sample_c 4)
    store1 seqn next1 _ st true _ eq_refl Hr' Ht Hb Ha Hcr) as (store'' & writes' & Ho' & _).
  - intros _. rewrite Hstep. discriminate.
  - exists (apply_write z (i, zeros SuperblockBytes)), store'', writes'. exact Ho'.
Defined.

Lemma torn_persist_unopenable_witness :
  exists z err, OpenSuperblockStore true (sample_size 4) z (sample_sv 4) None = Err err.
Proof.
  assert (4 = 4 \/ 4 = 6) as H4 by (left; reflexivity).
  destruct (sample_opened 4 H4) as (store & writes & _ & Hc & Hr).
  destruct (sample_persist 4 H4 5 (zeros 16) store _ Hr (or_introl eq_refl) Hc)
    as (Ht & _ & _ & _ & _ & store' & d' & Hp & Hc' & Hr').
  destruct (sample_persist 4 H4 6 _ store' _ Hr' (or_intror eq_refl) Hc') as (Ht' & _ & _ & _ & Hj & _).
  destruct (Hj 1%nat ltac:(lia)) as (store1 & seqn & next1 & z & i & bytes & Hb & st & Ha & Hs & _).
  pose proof (zeros_torn (sample_sv 4) (Z.of_nat i)) as Hd.
  assert (cached (Persisting.storage st) = [(i, bytes)]) as Hcd by (rewrite Hs; reflexivity).
  destruct (torn_persist_unopenable (sample_sv 4) (sample_size 4) store _ (sample_b 4) store' d'
    (sample_c 4) store1 seqn next1 st i bytes _ _ eq_refl Hr Ht Hp Ht' Hb Ha Hcd Hd) as (err & Ho & _).
  exists (apply_write (durable (Persisting.storage st)) (i, zeros SuperblockBytes)), err. exact Ho.
Defined.

Lemma interrupted_persist_unopenable_witness :
  exists z err, OpenSuperblockStore true (sample_size 6) z (sample_sv 6) None = Err err.
Proof.
  assert (6 = 4 \/ 6 = 6) as H6 by (right; reflexivity).
  destruct (sample_opened 6 H6) as (store & writes & _ & Hc & Hr).
  destruct (sample_persist 6 H6 5 (zeros 16) store _ Hr (or_introl eq_refl) Hc)
    as (Ht & _ & _ & _ & _ & store' & d' & Hp & Hc' & Hr').
  destruct (sample_persist 6 H6 6 _ store' _ Hr' (or_intror eq_refl) Hc')
    as (Ht' & _ & _ & (store1 & seqn & next1 & z & Hb & st & Ha & Hs) & _).
  destruct (interrupted_persist_unopenable (sample_sv 6) (sample_size 6) store _ (sample_b 6) store' d'
    (sample_c 6) store1 seqn next1 st (or_introl eq_refl) Hr Ht Hp Ht' Hb Ha) as (_ & err & Ho & _).
  exists (durable (Persisting.storage st)), err. exact Ho.
Defined.

Definition sum_a : list byte :=
  hex [119; 67; 159; 89; 17; 5; 155; 70; 5; 61; 168; 6; 38; 50; 144; 237].
Definition sum_b : list byte :=
  hex [86; 26; 46; 148; 85; 102; 109; 45; 65; 239; 200; 153; 199; 60; 76; 215].
Definition sum_c : list byte :=
  hex [170; 72; 93; 236; 177; 57; 83; 215; 22; 136; 217; 31; 142; 94; 111; 47].

Lemma sum_a_eq : superblock_sum (sample_a 6) = sum_a.
Proof. vm_compute. reflexivity. Qed.

Lemma sum_b_eq : superblock_sum (sample_b 6) = sum_b.
Proof. unfold sample_b. rewrite sum_a_eq. vm_compute. reflexivity. Qed.

Lemma sum_c_eq : superblock_sum (sample_c 6) = sum_c.
Proof. unfold sample_c. rewrite sum_b_eq. vm_compute. reflexivity. Qed.

Lemma interrupted_repair_unopenable_witness :
  exists z store writes, OpenSuperblockStore true (sample_size 6) z (sample_sv 6) None = Ok (store, writes) /\
    forall r, OpenSuperblockStore true (sample_size 6) (apply_writes z (take 1 writes)) (sample_sv 6) None <> Ok r.
Proof.
  assert (6 = 4 \/ 6 = 6) as H6 by (right; reflexivity).
  destruct (sample_opened 6 H6) as (store & writes & _ & Hc & Hr).
  destruct (sample_persist 6 H6 5 (zeros 16) store _ Hr (or_introl eq_refl) Hc)
    as (Ht & _ & _ & _ & _ & store' & d' & Hp & Hc' & Hr').
  destruct (sample_persist 6 H6 6 _ store' _ Hr' (or_intror eq_refl) Hc')
    as (Ht' & _ & _ & _ & _ & store'' & d'' & Hp' & _).
  assert (superblock_sum (sample_b 6) <> superblock_sum (sample_c 6)) as Hne
    by (rewrite sum_b_eq, sum_c_eq; vm_compute; discriminate).
  exact (ex_intro _ (durable d'') (interrupted_repair_unopenable (sample_sv 6) (sample_size 6) store _
    (sample_b 6) store' d' (sample_c 6) store'' d'' eq_refl Hr Ht Hp Ht' Hp' eq_refl Hne)).
Defined.
