(* ===== verification/BlockAllocator.v ===== *)
(** * The block allocator

    [src/replication/block_allocator.go]: which blocks of the grid are free,
    reserved, in use, due for release and released, and the checkpoints that
    move blocks from one to the next.  The candidate sets, addresses and
    encodings that the source keeps between calls are scratch space, cleared or
    overwritten before every use; here they are values. *)

From S2P Require Import Prelude Bytes Arith Config Ewah Storage Checkpoint.

Inductive block_error :=
| ErrStorageExhausted
| ErrBlockReservation
| BlockConfigError (err : config_error)
| BlockStorageError (err : durable_error)
| BlockEncodingError (err : ewah_error).

Module BlockCheckpointCandidate.
Record t := mk {
  generation : Z;
  reachable : FixedBitSet;
  blockCount : Z;
  acquired : FixedBitSet;
  released : FixedBitSet;
  addresses : list Z;
  acquiredBlocks : Z;
  releasedBlocks : Z;
  sessionBlocks : Z;
  acquiredEncoded : list byte;
  releasedEncoded : list byte;
}.

Definition AcquiredAddresses (c : t) : list Z := slice (addresses c) 0 (acquiredBlocks c).
Definition ReleasedAddresses (c : t) : list Z :=
  slice (addresses c) (acquiredBlocks c) (acquiredBlocks c + releasedBlocks c).
Definition SessionAddresses (c : t) : list Z :=
  slice (addresses c) (acquiredBlocks c + releasedBlocks c)
    (acquiredBlocks c + releasedBlocks c + sessionBlocks c).
End BlockCheckpointCandidate.
Abbreviation BlockCheckpointCandidate := BlockCheckpointCandidate.t.

Module BlockAllocator.
Record t {S : Type} := mk {
  storage : S;
  blockSize : Z;
  limit : Z;
  logical : Z;
  blockCount : Z;
  maximum : Z;
  acquired : FixedBitSet;
  released : FixedBitSet;
  reserved : FixedBitSet;
  pending : FixedBitSet;
  reservedReleased : FixedBitSet;
  checkpoint : FixedBitSet;
  checkpointAcquired : FixedBitSet;
  checkpointReleased : FixedBitSet;
  checkpointGeneration : Z;
  checkpointActive : bool;
}.
Arguments t : clear implicits.
Arguments mk {S}.

Definition with_storage {S} (a : t S) (s : S) : t S :=
  mk s (blockSize a) (limit a) (logical a) (blockCount a) (maximum a) (acquired a) (released a) (reserved a)
    (pending a) (reservedReleased a) (checkpoint a) (checkpointAcquired a) (checkpointReleased a)
    (checkpointGeneration a) (checkpointActive a).

Definition with_count {S} (a : t S) (logical count : Z) : t S :=
  mk (storage a) (blockSize a) (limit a) logical count (maximum a) (acquired a) (released a) (reserved a)
    (pending a) (reservedReleased a) (checkpoint a) (checkpointAcquired a) (checkpointReleased a)
    (checkpointGeneration a) (checkpointActive a).

(** Replaces the five sets that describe the blocks. *)
Definition with_sets {S} (a : t S) (acq rel res pen resRel : FixedBitSet) : t S :=
  mk (storage a) (blockSize a) (limit a) (logical a) (blockCount a) (maximum a) acq rel res pen resRel
    (checkpoint a) (checkpointAcquired a) (checkpointReleased a) (checkpointGeneration a) (checkpointActive a).

(** Replaces what the allocator keeps of a checkpoint in progress. *)
Definition with_checkpoint {S} (a : t S) (cp cpAcq cpRel : FixedBitSet) (generation : Z) (active : bool) : t S :=
  mk (storage a) (blockSize a) (limit a) (logical a) (blockCount a) (maximum a) (acquired a) (released a)
    (reserved a) (pending a) (reservedReleased a) cp cpAcq cpRel generation active.
End BlockAllocator.
Abbreviation BlockAllocator := BlockAllocator.t.

Import BlockAllocator.

Abbreviation Test := FixedBitSet.Test.
Abbreviation words := FixedBitSet.words.
Abbreviation Len := FixedBitSet.Len.

Definition setBit (s : FixedBitSet) (index : Z) : FixedBitSet := (FixedBitSet.Set_ s index).1.
Definition clearBit (s : FixedBitSet) (index : Z) : FixedBitSet := (FixedBitSet.Clear s index).1.

(** [clear(set.words)] and [copy(set.words, source)] *)
Definition clearWords (s : FixedBitSet) : FixedBitSet :=
  FixedBitSet.mk (replicate (length (words s)) 0) (Len s).
Definition copyWords (s : FixedBitSet) (source : list Z) : FixedBitSet :=
  FixedBitSet.mk (put (words s) 0 (take (length (words s)) source)) (Len s).

Definition allocatorBitCapacity (blockCount maximum : Z) : Z :=
  if maximum =? 0 then 0 else
  let target := Z.max blockCount 1 in
  Z.min maximum (u64 (u64 ((target - 1) / 4096 + 1) * 4096)).

Section allocator.
Context {S : Type} `{Storage S, Resizable S}.

Definition newSet (length : Z) : result block_error FixedBitSet :=
  match FixedBitSet.NewFixedBitSet length with Ok s => Ok s | Err err => Err (BlockConfigError err) end.

(** [stored] says whether a storage was supplied. *)
Definition OpenBlockAllocator (stored : bool) (storage : S) (cluster : ClusterConfig) (process : ProcessConfig)
    (state : CheckpointState) (acquired released : FixedBitSet) : result block_error (BlockAllocator S) :=
  let limit := ProcessConfig.StorageSizeLimit process in
  let logical := CheckpointState.LogicalStorageSize state in
  let size := ClusterConfig.BlockSize cluster in
  match BlockBase cluster with
  | None => Err (BlockConfigError Config.ErrInvalidConfiguration)
  | Some base =>
      if negb stored || (limit <? base) || (size =? 0) then Err (BlockConfigError Config.ErrInvalidConfiguration) else
      if (logical <? base) || negb (u64 (logical - base) mod size =? 0) || (limit <? logical)
      then Err (BlockStorageError ErrInvalidCheckpoint) else
      let blockCount := u64 (logical - base) / size in
      let maximum := u64 (limit - base) / size in
      let capacity := allocatorBitCapacity blockCount maximum in
      if negb (Len acquired =? blockCount) || negb (Len released =? blockCount)
      then Err (BlockStorageError ErrInvalidCheckpoint) else
      empty ← newSet capacity;
      let acquiredMax := copyWords empty (words acquired) in
      let releasedMax := copyWords empty (words released) in
      if existsb (fun index => Test releasedMax index && negb (Test acquiredMax index)) (seqZ 0 blockCount)
      then Err (BlockStorageError ErrInvalidCheckpoint) else
      Ok (mk storage size limit logical blockCount maximum acquiredMax releasedMax empty empty empty empty empty
            empty 0 false)
  end.

(** The sets all have the same length, so either all of them grow or the
    first one fails to. *)
Definition growSet (s : FixedBitSet) (capacity : Z) : result block_error FixedBitSet :=
  match FixedBitSet.grow s capacity with Ok s => Ok s | Err err => Err (BlockConfigError err) end.

Definition ensureCapacity (a : BlockAllocator S) (required : Z) : result block_error (BlockAllocator S) :=
  if required <=? Len (acquired a) then Ok a else
  let capacity := allocatorBitCapacity required (maximum a) in
  acq ← growSet (acquired a) capacity; rel ← growSet (released a) capacity;
  res ← growSet (reserved a) capacity; pen ← growSet (pending a) capacity;
  resRel ← growSet (reservedReleased a) capacity; cp ← growSet (checkpoint a) capacity;
  cpAcq ← growSet (checkpointAcquired a) capacity; cpRel ← growSet (checkpointReleased a) capacity;
  Ok (with_checkpoint (with_sets a acq rel res pen resRel) cp cpAcq cpRel (checkpointGeneration a)
        (checkpointActive a)).

Definition address (index : Z) : Z := u64 (index + 1).

Definition index (a : BlockAllocator S) (address : Z) : option Z :=
  if address =? 0 then None else
  let index := u64 (address - 1) in
  if index <? blockCount a then Some index else None.

(** An address whose block is in range and passes [test]. *)
Definition indexIf (a : BlockAllocator S) (address : Z) (test : Z -> bool) : option Z :=
  i ← index a address; if test i then Some i else None.

Definition prefix (a : BlockAllocator S) (s : FixedBitSet) : FixedBitSet :=
  FixedBitSet.mk (take (Z.to_nat (u64 (blockCount a + 63) / 64)) (words s)) (blockCount a).

Definition available (a : BlockAllocator S) (index : Z) : bool :=
  (negb (Test (acquired a) index) || Test (released a) index) && negb (Test (reserved a) index).

Definition Reserve (a : BlockAllocator S) : BlockAllocator S * result block_error Z :=
  match list_find (fun index => available a index = true) (seqZ 0 (blockCount a)) with
  | Some (_, index) =>
      (with_sets a (acquired a) (clearBit (released a) index) (setBit (reserved a) index) (pending a)
         (if Test (released a) index then setBit (reservedReleased a) index else reservedReleased a),
       Ok (address index))
  | None =>
      if maximum a <=? blockCount a then (a, Err ErrStorageExhausted) else
      match ensureCapacity a (u64 (blockCount a + 1)) with
      | Err err => (a, Err err)
      | Ok a =>
          let index := blockCount a in
          match checkedAdd (logical a) (blockSize a) with
          | None => (a, Err ErrStorageExhausted)
          | Some logical' =>
              if limit a <? logical' then (a, Err ErrStorageExhausted) else
              match Resize (storage a) logical' with
              | (s, Err err) => (with_storage a s, Err (BlockStorageError err))
              | (s, Ok _) =>
                  match Sync s with
                  | (s, Err err) => (with_storage a s, Err (BlockStorageError err))
                  | (s, Ok _) =>
                      let a := with_count (with_storage a s) logical' (u64 (blockCount a + 1)) in
                      (with_sets a (acquired a) (released a) (setBit (reserved a) index) (pending a)
                         (reservedReleased a),
                       Ok (address index))
                  end
              end
          end
      end
  end.

Definition Publish (a : BlockAllocator S) (address : Z) : BlockAllocator S * result block_error unit :=
  match indexIf a address (Test (reserved a)) with
  | None => (a, Err ErrBlockReservation)
  | Some index =>
      (with_sets a (setBit (acquired a) index) (clearBit (released a) index) (clearBit (reserved a) index)
         (pending a) (clearBit (reservedReleased a) index), Ok tt)
  end.

Definition Forfeit (a : BlockAllocator S) (address : Z) : BlockAllocator S * result block_error unit :=
  match indexIf a address (Test (reserved a)) with
  | None => (a, Err ErrBlockReservation)
  | Some index =>
      if Test (reservedReleased a) index
      then (with_sets a (acquired a) (setBit (released a) index) (clearBit (reserved a) index) (pending a)
              (clearBit (reservedReleased a) index), Ok tt)
      else (with_sets a (acquired a) (released a) (clearBit (reserved a) index) (pending a)
              (reservedReleased a), Ok tt)
  end.

Definition Release (a : BlockAllocator S) (address : Z) : BlockAllocator S * result block_error unit :=
  match indexIf a address (fun i => Test (acquired a) i && negb (Test (reserved a) i)
          && negb (Test (released a) i) && negb (Test (pending a) i)) with
  | None => (a, Err ErrBlockReservation)
  | Some index =>
      (with_sets a (acquired a) (released a) (reserved a) (setBit (pending a) index) (reservedReleased a), Ok tt)
  end.

Definition cancelRelease (a : BlockAllocator S) (address : Z) : BlockAllocator S * result block_error unit :=
  match indexIf a address (fun i => Test (acquired a) i && negb (Test (reserved a) i)
          && negb (Test (released a) i) && Test (pending a) i) with
  | None => (a, Err ErrBlockReservation)
  | Some index =>
      (with_sets a (acquired a) (released a) (reserved a) (clearBit (pending a) index) (reservedReleased a), Ok tt)
  end.

Fixpoint forfeitAddresses (a : BlockAllocator S) (addresses : list Z) : BlockAllocator S :=
  match addresses with
  | [] => a
  | address :: rest => forfeitAddresses (Forfeit a address).1 rest
  end.

(** Both loops that reserve: [n] more addresses, or none at all. *)
Fixpoint reserveMany (n : nat) (a : BlockAllocator S) (addresses : list Z)
    : BlockAllocator S * result block_error (list Z) :=
  match n with
  | O => (a, Ok addresses)
  | Datatypes.S n =>
      match Reserve a with
      | (a, Err err) => (forfeitAddresses a addresses, Err err)
      | (a, Ok address) => reserveMany n a (addresses ++ [address])
      end
  end.

(** The loop of [checkpointSets] over the addresses. *)
Fixpoint claimAddresses (a : BlockAllocator S) (addresses : list Z) (acq rel : FixedBitSet)
    : result block_error (FixedBitSet * FixedBitSet) :=
  match addresses with
  | [] => Ok (acq, rel)
  | address :: rest =>
      match index a address with
      | None => Err ErrBlockReservation
      | Some i => claimAddresses a rest (setBit acq i) (clearBit rel i)
      end
  end.

Definition checkpointSets (a : BlockAllocator S) (addresses : list Z)
    : result block_error (FixedBitSet * FixedBitSet) :=
  claimAddresses a addresses (prefix a (acquired a))
    (FixedBitSet.mk (zip_with Z.lor (words (prefix a (released a))) (words (prefix a (pending a)))) (blockCount a)).

Definition installCheckpointSets (a : BlockAllocator S) (acq rel : FixedBitSet) (active : bool) : BlockAllocator S :=
  with_checkpoint a (copyWords (clearWords (checkpoint a)) (words (pending a)))
    (copyWords (clearWords (checkpointAcquired a)) (words acq))
    (copyWords (clearWords (checkpointReleased a)) (words rel))
    (u64 (checkpointGeneration a + 1)) active.

(** [None]: the encoder ran out of fuel. *)
Definition encodeEWAHBytes (s : FixedBitSet) : option (result block_error (list byte)) :=
  encoded ← FixedBitSet.EncodeEWAH s (zlen (words s) * 2 + 1);
  Some match encoded with
       | Err err => Err (BlockEncodingError err)
       | Ok out => Ok (concat (putUint 8 <$> out))
       end.

(** How many blocks of [payloadSize] bytes hold [size] bytes. *)
Definition blocksFor (size payloadSize : Z) : Z := i64 (u64 (size + payloadSize - 1) / payloadSize).

(** [slices.Grow] panics on a negative count, and growing a slice to [n] words
    on one that the address space of 2^48 bytes cannot hold.  (Running out of
    memory below that ends the process and is not an outcome of the model.) *)
Definition growPanics (n : Z) : bool := (n <? 0) || (2 ^ 45 <? n).

(** The loop of [PrepareCheckpoint]: the sets depend on the addresses and the
    number of addresses on the size of the encoded sets. *)
Fixpoint prepare_loop (fuel : nat) (a : BlockAllocator S) (addresses : list Z) (sessions payloadSize : Z)
    : option (BlockAllocator S * result block_error BlockCheckpointCandidate) :=
  match fuel with
  | O => Some (forfeitAddresses a addresses, Err ErrBlockReservation)
  | Datatypes.S fuel =>
      match checkpointSets a addresses with
      | Err err => Some (forfeitAddresses a addresses, Err err)
      | Ok (acq, rel) =>
          acquiredResult ← encodeEWAHBytes acq;
          releasedResult ← encodeEWAHBytes rel;
          match acquiredResult, releasedResult with
          | Err err, _ => Some (forfeitAddresses a addresses, Err err)
          | _, Err err => Some (forfeitAddresses a addresses, Err err)
          | Ok acquiredEncoded, Ok releasedEncoded =>
              let acquiredBlocks := blocksFor (zlen acquiredEncoded) payloadSize in
              let releasedBlocks := blocksFor (zlen releasedEncoded) payloadSize in
              let required := i64 (acquiredBlocks + releasedBlocks + sessions) in
              if zlen addresses <? required then
                if growPanics required then None else
                match reserveMany (Z.to_nat (required - zlen addresses)) a addresses with
                | (a, Err err) => Some (a, Err err)
                | (a, Ok addresses) => prepare_loop fuel a addresses sessions payloadSize
                end
              else if required <? zlen addresses then
                prepare_loop fuel (forfeitAddresses a (drop (Z.to_nat required) addresses))
                  (take (Z.to_nat required) addresses) sessions payloadSize
              else
                let reachable := FixedBitSet.mk (zip_with Z.ldiff (words acq) (words rel)) (blockCount a) in
                let a := installCheckpointSets a acq rel true in
                Some (a, Ok (BlockCheckpointCandidate.mk (checkpointGeneration a) reachable (blockCount a) acq rel
                               addresses acquiredBlocks releasedBlocks sessions acquiredEncoded releasedEncoded))
          end
      end
  end.

(** [None]: [slices.Grow] panics. *)
Definition PrepareCheckpoint (a : BlockAllocator S) (sessionEncodedSize payloadSize : Z)
    : option (BlockAllocator S * result block_error BlockCheckpointCandidate) :=
  if checkpointActive a || negb (FixedBitSet.Count (prefix a (reserved a)) =? 0)
  then Some (a, Err ErrBlockReservation) else
  if (payloadSize =? 0) || (sessionEncodedSize =? 0) then Some (a, Err ErrBlockReservation) else
  let sessions := blocksFor sessionEncodedSize payloadSize in
  if growPanics (i64 (sessions + 2)) then None else
  match reserveMany (Z.to_nat (i64 (sessions + 2))) a [] with
  | (a, Err err) => Some (a, Err err)
  | (a, Ok addresses) => prepare_loop 64 a addresses sessions payloadSize
  end.

Definition BeginCheckpoint (a : BlockAllocator S)
    : BlockAllocator S * result block_error BlockCheckpointCandidate :=
  if checkpointActive a || negb (FixedBitSet.Count (prefix a (reserved a)) =? 0)
  then (a, Err ErrBlockReservation) else
  let cp := copyWords (clearWords (checkpoint a)) (words (pending a)) in
  let cpAcq := copyWords (clearWords (checkpointAcquired a)) (words (acquired a)) in
  let cpRel := copyWords (clearWords (checkpointReleased a)) (words (released a)) in
  let cpRel := FixedBitSet.mk (zip_with Z.lor (words cpRel) (words cp)) (Len cpRel) in
  let a := with_checkpoint a cp cpAcq cpRel (u64 (checkpointGeneration a + 1)) true in
  let none := FixedBitSet.mk [] 0 in
  (a, Ok (BlockCheckpointCandidate.mk (checkpointGeneration a) none (blockCount a)
            (prefix a cpAcq) (prefix a cpRel) [] 0 0 0 [] [])).

(** The end of a checkpoint: the snapshot is cleared and inactive. *)
Definition endCheckpoint (a : BlockAllocator S) : BlockAllocator S :=
  with_checkpoint a (clearWords (checkpoint a)) (clearWords (checkpointAcquired a))
    (clearWords (checkpointReleased a)) (checkpointGeneration a) false.

Definition publishedAt (a : BlockAllocator S) (address : Z) : bool :=
  match index a address with
  | None => false
  | Some i => negb (Test (reserved a) i) && Test (acquired a) i && negb (Test (released a) i)
              && negb (Test (pending a) i)
  end.

(** The second loop of [CheckpointDurable], one block. *)
Definition releaseBlock (a : BlockAllocator S) (i : Z) : BlockAllocator S :=
  if negb (Test (checkpoint a) i) then a
  else with_sets a (acquired a) (setBit (released a) i) (reserved a) (clearBit (pending a) i) (reservedReleased a).

Definition CheckpointDurable (a : BlockAllocator S) (candidate : BlockCheckpointCandidate)
    (reachable : option FixedBitSet) : BlockAllocator S * result block_error unit :=
  let count := BlockCheckpointCandidate.blockCount candidate in
  if negb (checkpointActive a) || negb (BlockCheckpointCandidate.generation candidate =? checkpointGeneration a)
     || (blockCount a <? count)
  then (a, Err ErrBlockReservation) else
  match reachable with
  | None => (a, Err ErrBlockReservation)
  | Some reachable =>
      if Len reachable <? count then (a, Err ErrBlockReservation) else
      if negb (forallb (publishedAt a) (BlockCheckpointCandidate.addresses candidate))
      then (a, Err ErrBlockReservation) else
      if existsb (fun i => Test (checkpoint a) i && Test reachable i) (seqZ 0 count)
      then (a, Err ErrBlockReservation) else
      (endCheckpoint (fold_left releaseBlock (seqZ 0 count) a), Ok tt)
  end.

(** The loop of [AbortCheckpoint] over the candidate's addresses. *)
Fixpoint abort_loop (a : BlockAllocator S) (addresses : list Z) : BlockAllocator S * result block_error unit :=
  match addresses with
  | [] => (a, Ok tt)
  | address :: rest =>
      match index a address with
      | None => (a, Err ErrBlockReservation)
      | Some i =>
          if Test (reserved a) i then
            match Forfeit a address with
            | (a, Err err) => (a, Err err)
            | (a, Ok _) => abort_loop a rest
            end
          else if Test (acquired a) i && negb (Test (pending a) i) && negb (Test (released a) i) then
            match Release a address with
            | (a, Err err) => (a, Err err)
            | (a, Ok _) => abort_loop a rest
            end
          else abort_loop a rest
      end
  end.

Definition AbortCheckpoint (a : BlockAllocator S) (candidate : BlockCheckpointCandidate)
    : BlockAllocator S * result block_error unit :=
  if negb (checkpointActive a) || negb (BlockCheckpointCandidate.generation candidate =? checkpointGeneration a)
  then (a, Err ErrBlockReservation) else
  match abort_loop a (BlockCheckpointCandidate.addresses candidate) with
  | (a, Err err) => (a, Err err)
  | (a, Ok _) => (endCheckpoint a, Ok tt)
  end.

Definition LogicalStorageSize (a : BlockAllocator S) : Z := logical a.
Definition AcquiredCount (a : BlockAllocator S) : Z := FixedBitSet.Count (prefix a (acquired a)).
Definition ReleasedCount (a : BlockAllocator S) : Z := FixedBitSet.Count (prefix a (released a)).
Definition Acquired (a : BlockAllocator S) : FixedBitSet := prefix a (acquired a).
Definition Released (a : BlockAllocator S) : FixedBitSet := prefix a (released a).

Definition reservationValid (a : BlockAllocator S) (address : Z) : bool :=
  match index a address with Some i => Test (reserved a) i | None => false end.
End allocator.

Definition EmptyBlockSets (state : CheckpointState) (cluster : ClusterConfig)
    : result block_error (FixedBitSet * FixedBitSet) :=
  let logical := CheckpointState.LogicalStorageSize state in
  match BlockBase cluster with
  | None => Err (BlockStorageError ErrInvalidCheckpoint)
  | Some base =>
      if (logical <? base) || negb (u64 (logical - base) mod ClusterConfig.BlockSize cluster =? 0)
      then Err (BlockStorageError ErrInvalidCheckpoint) else
      empty ← newSet (u64 (logical - base) / ClusterConfig.BlockSize cluster);
      Ok (empty, empty)
  end.
