(* ===== verification/BlockStates.v ===== *)
(** * The states of a block

    What the sets of the block allocator say about one block, the invariant
    that ties them together, and the state every operation of
    [src/replication/block_allocator.go] moves a block to. *)

From S2P Require Import Prelude Bytes Arith Config Ewah Storage Checkpoint BlockAllocator.
Import BlockAllocator.

(** ** Bits *)

Lemma Test_setBit s i j :
  wf_set s -> 0 <= i < Len s -> 0 <= j -> Test (setBit s i) j = (j =? i) || Test s j.
Proof.
  intros Hwf Hi Hj. unfold setBit. rewrite !Test_bitAt, bitAt_Set, length_Set by done.
  destruct (Z.eqb_spec j i) as [->|]; [|done]. cbn. rewrite andb_true_r. apply Z.ltb_lt. apply Hi.
Qed.

Lemma Test_clearBit s i j :
  wf_set s -> 0 <= i < Len s -> 0 <= j -> Test (clearBit s i) j = negb (j =? i) && Test s j.
Proof.
  intros Hwf Hi Hj. unfold clearBit. rewrite !Test_bitAt, bitAt_Clear, length_Clear by done.
  destruct (Z.eqb_spec j i) as [->|]; cbn; [apply andb_false_r|done].
Qed.

Lemma Test_range s j : Test s j = true -> j < Len s.
Proof. unfold FixedBitSet.Test. intros H. split_bool. done. Qed.

Lemma Len_setBit s i : Len (setBit s i) = Len s.
Proof. apply length_Set. Qed.

Lemma Len_clearBit s i : Len (clearBit s i) = Len s.
Proof. apply length_Clear. Qed.

Lemma wf_setBit s i : wf_set s -> 0 <= i -> wf_set (setBit s i).
Proof. apply wf_Set. Qed.

Lemma wf_clearBit s i : wf_set s -> 0 <= i -> wf_set (clearBit s i).
Proof. apply wf_Clear. Qed.

Lemma wf_ext s ws :
  wf_set s -> zlen ws = zlen (words s) -> Forall is_u64 ws ->
  (forall j, Len s <= j < 64 * zlen (words s) -> bitAt ws j = false) -> wf_set (FixedBitSet.mk ws (Len s)).
Proof.
  intros [Hl Hw _ _] Ez Hu Ht. split; cbn; [done|by rewrite Ez|done|].
  apply validTail_bitAt; cbn; [apply Hl|by rewrite Ez|done|]. by rewrite Ez.
Qed.

Lemma clearWords_spec s :
  wf_set s -> wf_set (clearWords s) /\ Len (clearWords s) = Len s /\ forall j, 0 <= j -> Test (clearWords s) j = false.
Proof.
  intros Hwf. split_and!; [|done|].
  - apply wf_ext; [done| | |]; [unfold zlen; by rewrite length_replicate|by apply Forall_replicate|].
    intros j _. apply bitAt_zeros.
  - intros j Hj. rewrite Test_bitAt by done. unfold clearWords. cbn. rewrite bitAt_zeros. apply andb_false_r.
Qed.

Lemma bitAt_pad ws m j : bitAt (ws ++ replicate m 0) j = bitAt ws j.
Proof.
  unfold bitAt, FixedBitSet.wordAt. set (k := Z.to_nat (j / 64)).
  destruct (decide (k < length ws)%nat) as [Hk|Hk]; [by rewrite lookup_app_l|].
  rewrite lookup_app_r, (lookup_ge_None_2 ws) by lia. f_equal.
  destruct (replicate m 0 !! _) eqn:E; [|done]. by apply lookup_replicate in E as [-> _].
Qed.

Lemma bitAt_take n ws j :
  0 <= j -> bitAt (take n ws) j = (j <? 64 * Z.of_nat n) && bitAt ws j.
Proof.
  intros Hj. unfold bitAt, FixedBitSet.wordAt. destruct (Z.ltb_spec j (64 * Z.of_nat n)) as [Hn|Hn]; cbn [andb].
  - rewrite lookup_take_lt; [done|]. assert (j / 64 < Z.of_nat n) by (apply Z.div_lt_upper_bound; lia).
    pose proof (Z.div_pos j 64). lia.
  - rewrite lookup_take_ge; [apply Z.bits_0|]. assert (Z.of_nat n <= j / 64) by (apply Z.div_le_lower_bound; lia). lia.
Qed.

Lemma bitAt_zip (f : Z -> Z -> Z) (g : bool -> bool -> bool) ws vs j :
  (forall a b n, 0 <= n -> Z.testbit (f a b) n = g (Z.testbit a n) (Z.testbit b n)) -> g false false = false ->
  length ws = length vs -> bitAt (zip_with f ws vs) j = g (bitAt ws j) (bitAt vs j).
Proof.
  intros Hf Hg El. unfold bitAt, FixedBitSet.wordAt. set (k := Z.to_nat (j / 64)). rewrite lookup_zip_with.
  destruct (decide (k < length ws)%nat) as [Hk|Hk].
  - destruct (lookup_lt_is_Some_2 ws k Hk) as [a ->], (lookup_lt_is_Some_2 vs k ltac:(lia)) as [b ->].
    cbn. apply Hf. apply Z.mod_pos_bound. lia.
  - rewrite !lookup_ge_None_2 by lia. cbn. by rewrite !Z.bits_0.
Qed.

(** Sets whose words are those of another, padded with zeros or cut where no
    bit is set. *)
Lemma wf_pad s m n :
  wf_set s -> Len s <= n <= MaxUint64 - 63 -> zlen (words s) + Z.of_nat m = (n + 63) / 64 ->
  let t := FixedBitSet.mk (words s ++ replicate m 0) n in
  wf_set t /\ forall j, 0 <= j -> Test t j = Test s j.
Proof.
  intros Hs Hn Hm t. pose proof (wf_length _ Hs). unfold FixedBitSet.Len in *.
  assert (zlen (words t) = (n + 63) / 64) as Hz by (unfold t; cbn; rewrite zlen_app, <- Hm; unfold zlen; by rewrite length_replicate).
  assert (Forall is_u64 (words t)) as Hu by (apply Forall_app; split; [apply Hs|by apply Forall_replicate]).
  assert (forall j, FixedBitSet.length s <= j -> bitAt (words s) j = false) as Hout.
  { intros j Hj. destruct (decide (j < 64 * zlen (words s))); [apply wf_tail_bits; [done|lia]|].
    unfold bitAt, FixedBitSet.wordAt. rewrite lookup_ge_None_2; [apply Z.bits_0|].
    assert (zlen (words s) <= j / 64) by (apply Z.div_le_lower_bound; lia). unfold zlen in *. lia. }
  split.
  - split; [cbn; lia|exact Hz|exact Hu|]. apply validTail_bitAt; [cbn; lia|exact Hz|exact Hu|].
    intros j Hj. cbn in Hj. unfold t. cbn. rewrite bitAt_pad. apply Hout. lia.
  - intros j Hj. rewrite !Test_bitAt by done. unfold t. cbn. rewrite bitAt_pad.
    destruct (Z.ltb_spec j n), (Z.ltb_spec j (FixedBitSet.length s)); try done; [|lia]. cbn. by apply Hout.
Qed.

Lemma put_zeros k (ws : list Z) :
  put (replicate k 0) 0 ws = ws ++ replicate (k - length ws) 0.
Proof.
  unfold put. change (take (Z.to_nat 0) (replicate k 0)) with (@nil Z). cbn [app]. rewrite drop_replicate.
  do 2 f_equal. unfold zlen. lia.
Qed.

Lemma copyWords_spec s t :
  wf_set s -> wf_set t -> Len t <= Len s -> words s = replicate (length (words s)) 0 ->
  let c := copyWords s (words t) in
  wf_set c /\ Len c = Len s /\ forall j, 0 <= j -> Test c j = Test t j.
Proof.
  intros Hs Ht Hle He c. pose proof (wf_length _ Hs). pose proof (wf_words _ Hs) as Ws. pose proof (wf_words _ Ht) as Wt.
  assert (zlen (words t) <= zlen (words s)) as Hz by (rewrite Ws, Wt; apply Z.div_le_mono; unfold FixedBitSet.Len in *; lia).
  assert (c = FixedBitSet.mk (words t ++ replicate (length (words s) - length (words t)) 0) (Len s)) as ->.
  { unfold c, copyWords. f_equal. unfold zlen in Hz. rewrite (take_ge (words t)) by lia.
    rewrite He at 1. apply put_zeros. }
  destruct (wf_pad t (length (words s) - length (words t)) (Len s)) as [? ?];
    [done|unfold FixedBitSet.Len in *; lia|unfold FixedBitSet.Len, zlen in *; lia|done].
Qed.

Lemma grow_spec s n t :
  wf_set s -> is_u64 n -> FixedBitSet.grow s n = Ok t ->
  wf_set t /\ Len t = Z.max (Len s) n /\ forall j, 0 <= j -> Test t j = Test s j.
Proof.
  intros Hs Hn Hg. unfold FixedBitSet.grow in Hg.
  destruct (Z.leb_spec n (FixedBitSet.length s)); [injection Hg as <-; split_and!; try done; unfold FixedBitSet.Len; lia|].
  step_guards Hg. split_bool. injection Hg as <-. pose proof (wf_length _ Hs). pose proof (wf_words _ Hs) as Ws.
  unfold FixedBitSet.wordCount in *. rewrite (uwrap_small 64 (n + 63)) in * by width_lia.
  assert (zlen (words s) <= (n + 63) / 64) as Hz by (rewrite Ws; apply Z.div_le_mono; lia).
  pose proof (zlen_nonneg (words s)). set (k := Z.to_nat ((n + 63) / 64)).
  rewrite put_zeros.
  destruct (wf_pad s (k - length (words s)) n) as [? ?]; [done|unfold FixedBitSet.Len; lia|unfold k, zlen in *; lia|].
  split_and!; [done|unfold FixedBitSet.Len; cbn; lia|done].
Qed.

(** ** The life of a block *)

Inductive block_state :=
| BlockFree
| BlockHeld (wasReleased : bool)
| BlockLive
| BlockPending
| BlockReleased.

#[export] Instance block_state_eq_dec : EqDecision block_state.
Proof. solve_decision. Defined.

Section states.
Context {S : Type} `{Storage S, Resizable S}.
Implicit Types a : BlockAllocator S.

Definition status a (i : Z) : block_state :=
  if Test (reserved a) i then BlockHeld (Test (reservedReleased a) i)
  else if Test (released a) i then BlockReleased
  else if Test (pending a) i then BlockPending
  else if Test (acquired a) i then BlockLive
  else BlockFree.

Definition sets a : list FixedBitSet :=
  [acquired a; released a; reserved a; pending a; reservedReleased a; checkpoint a; checkpointAcquired a;
   checkpointReleased a].

(** The bits of a block describe one of the states; the snapshot of a
    checkpoint in progress holds blocks still pending. *)
Definition coherent a (i : Z) : bool :=
  let acq := Test (acquired a) i in
  let rel := Test (released a) i in
  let res := Test (reserved a) i in
  let pen := Test (pending a) i in
  implb rel (acq && negb res && negb pen) && implb pen (acq && negb res)
  && Bool.eqb (Test (reservedReleased a) i) (res && acq)
  && implb (Test (checkpoint a) i) (pen && checkpointActive a)
  && implb (blockCount a <=? i) (negb acq && negb res).

Record alloc_wf a : Prop := {
  aw_sets : Forall (fun s => wf_set s /\ Len s = Len (acquired a)) (sets a);
  aw_count : 0 <= blockCount a <= Len (acquired a);
  aw_maximum : Len (acquired a) <= maximum a <= 2 ^ 63;
  aw_bits : forall i, 0 <= i -> coherent a i = true;
}.

Lemma index_spec a address i : is_u64 address -> index a address = Some i <-> address = i + 1 /\ 0 <= i < blockCount a.
Proof.
  intros Ha. unfold index. destruct (Z.eqb_spec address 0) as [->|Hz]; [naive_solver lia|].
  rewrite (uwrap_small 64 (address - 1)) by width_lia.
  destruct (Z.ltb_spec (address - 1) (blockCount a)); [|naive_solver lia].
  split; [intros [= <-]; width_lia|intros [? ?]; f_equal; lia].
Qed.

Lemma indexIf_spec a address test i :
  is_u64 address -> indexIf a address test = Some i <-> address = i + 1 /\ 0 <= i < blockCount a /\ test i = true.
Proof.
  intros Ha. unfold indexIf. rewrite bind_Some. setoid_rewrite (index_spec a address _ Ha). split.
  - intros (j & [-> Hj] & E). destruct (test j) eqn:Et; [|done]. injection E as <-. done.
  - intros (-> & Hi & Et). exists i. by rewrite Et.
Qed.

Lemma wf_set_of a s : alloc_wf a -> s ∈ sets a -> wf_set s /\ Len s = Len (acquired a).
Proof. intros Hw. apply (proj1 (Forall_forall _ _) (aw_sets _ Hw)). Qed.

(** One block changes: every set keeps its bits at the other blocks, the
    changed block is coherent, and so is the result. *)
Definition same_but (i : Z) (s s' : FixedBitSet) : Prop :=
  wf_set s' /\ Len s' = Len s /\ forall j, 0 <= j -> j <> i -> Test s' j = Test s j.

Lemma same_but_refl i s : wf_set s -> same_but i s s.
Proof. intros. by split_and!. Qed.

Lemma same_but_set i s : wf_set s -> 0 <= i < Len s -> same_but i s (setBit s i).
Proof.
  intros Hs Hi. unfold same_but. split_and!; [apply wf_setBit; lia || done|apply Len_setBit|].
  intros j ? Hj. rewrite Test_setBit by done. by rewrite (proj2 (Z.eqb_neq j i) Hj).
Qed.

Lemma same_but_clear i s : wf_set s -> 0 <= i < Len s -> same_but i s (clearBit s i).
Proof.
  intros Hs Hi. unfold same_but. split_and!; [apply wf_clearBit; lia || done|apply Len_clearBit|].
  intros j ? Hj. rewrite Test_clearBit by done. by rewrite (proj2 (Z.eqb_neq j i) Hj).
Qed.

Lemma same_but_if i s s' (b : bool) : same_but i s s' -> wf_set s -> same_but i s (if b then s' else s).
Proof. intros. destruct b; [done|by apply same_but_refl]. Qed.

Definition changed_at a a' (i : Z) : Prop := Forall2 (same_but i) (sets a) (sets a').

Lemma same_but_all i n l l' :
  Forall2 (same_but i) l l' -> Forall (fun s => wf_set s /\ Len s = n) l -> Forall (fun s => wf_set s /\ Len s = n) l'.
Proof.
  induction 1 as [|s s' l l' (Hs & El & _) _ IH]; [done|]. rewrite !Forall_cons. intros [[_ <-] Hl]. auto.
Qed.

Lemma changed_wf a a' i :
  alloc_wf a -> changed_at a a' i -> blockCount a' = blockCount a -> maximum a' = maximum a ->
  checkpointActive a' = checkpointActive a -> coherent a' i = true ->
  alloc_wf a' /\ forall j, 0 <= j -> j <> i -> status a' j = status a j.
Proof.
  intros Hw Hc Ecount Emax Eact Hi. pose proof (same_but_all _ _ _ _ Hc (aw_sets _ Hw)) as Hs'.
  unfold changed_at, sets in Hc.
  apply Forall2_cons in Hc as [(_ & El & T1) Hc]. apply Forall2_cons in Hc as [(_ & _ & T2) Hc].
  apply Forall2_cons in Hc as [(_ & _ & T3) Hc]. apply Forall2_cons in Hc as [(_ & _ & T4) Hc].
  apply Forall2_cons in Hc as [(_ & _ & T5) Hc]. apply Forall2_cons in Hc as [(_ & _ & T6) _].
  assert (forall j, 0 <= j -> j <> i -> coherent a' j = coherent a j /\ status a' j = status a j) as Hj.
  { intros j ? ?. unfold coherent, status. by rewrite Ecount, Eact, T1, T2, T3, T4, T5, T6. }
  split; [|intros; by apply Hj]. rewrite <- El in Hs'. split; [done| | |].
  - rewrite Ecount, El. apply Hw.
  - rewrite Emax, El. apply Hw.
  - intros j ?. destruct (decide (j = i)) as [->|]; [done|]. destruct (Hj j) as [-> _]; [done..|]. by apply Hw.
Qed.

End states.

Ltac in_sets := clear; unfold sets; rewrite !elem_of_cons; tauto.

(** Discharges the conditions of [changed_wf] for an update of bit [i]. *)
Ltac same_bits :=
  first [ apply same_but_refl | apply same_but_set | apply same_but_clear | apply same_but_if ].

Section changes.
Context {S : Type} `{Storage S, Resizable S}.
Implicit Types a : BlockAllocator S.

Lemma set_in_range a i s :
  alloc_wf a -> 0 <= i < blockCount a -> s ∈ sets a -> wf_set s /\ 0 <= i < Len s.
Proof. intros Hw Hi Hs. destruct (wf_set_of a s Hw Hs) as [? ->]. pose proof (aw_count _ Hw). split; [done|lia]. Qed.

(** The sets written by an operation on block [i], with their bits there. *)
Lemma with_sets_change a acq rel res pen resRel i :
  alloc_wf a -> 0 <= i < blockCount a ->
  (acq = acquired a \/ acq = setBit (acquired a) i) ->
  (rel = released a \/ rel = setBit (released a) i \/ rel = clearBit (released a) i) ->
  (res = reserved a \/ res = setBit (reserved a) i \/ res = clearBit (reserved a) i) ->
  (pen = pending a \/ pen = setBit (pending a) i \/ pen = clearBit (pending a) i) ->
  (resRel = reservedReleased a \/ resRel = setBit (reservedReleased a) i \/ resRel = clearBit (reservedReleased a) i) ->
  let a' := with_sets a acq rel res pen resRel in
  coherent a' i = true ->
  alloc_wf a' /\ forall j, 0 <= j -> j <> i -> status a' j = status a j.
Proof.
  intros Hw Hi Hacq Hrel Hres Hpen Hrr a' Hc. apply (changed_wf a a' i Hw); try done.
  assert (forall s, s ∈ sets a -> same_but i s s /\ same_but i s (setBit s i) /\ same_but i s (clearBit s i)) as Hb.
  { intros s Hs. destruct (set_in_range a i s Hw Hi Hs). split_and!; by same_bits. }
  pose proof (fun s Hs => proj1 (Hb s Hs)) as Hb0. pose proof (fun s Hs => proj1 (proj2 (Hb s Hs))) as Hb1.
  pose proof (fun s Hs => proj2 (proj2 (Hb s Hs))) as Hb2. clear Hb Hc.
  unfold changed_at, sets. repeat (apply Forall2_cons; split); [..|by apply Forall2_nil]; cbn.
  1: destruct Hacq as [-> | ->]; [apply Hb0|apply Hb1]; in_sets.
  1: destruct Hrel as [-> |[-> | ->]]; [apply Hb0|apply Hb1|apply Hb2]; in_sets.
  1: destruct Hres as [-> |[-> | ->]]; [apply Hb0|apply Hb1|apply Hb2]; in_sets.
  1: destruct Hpen as [-> |[-> | ->]]; [apply Hb0|apply Hb1|apply Hb2]; in_sets.
  1: destruct Hrr as [-> |[-> | ->]]; [apply Hb0|apply Hb1|apply Hb2]; in_sets.
  all: apply Hb0; in_sets.
Qed.

Lemma bit_updates a i s :
  alloc_wf a -> 0 <= i < blockCount a -> s ∈ sets a -> Test (setBit s i) i = true /\ Test (clearBit s i) i = false.
Proof.
  intros Hw Hi Hs. destruct (set_in_range a i s Hw Hi Hs). rewrite Test_setBit, Test_clearBit by lia || done.
  by rewrite Z.eqb_refl.
Qed.

(** What an operation on the block of [address] does: it succeeds exactly in
    the states [from] accepts, moves the block to [to] and leaves the others
    alone; otherwise it changes nothing. *)
Definition moves a (address : Z) (out : BlockAllocator S * result block_error unit)
    (from : block_state -> option block_state) : Prop :=
  let i := address - 1 in
  let target := if (0 <=? i) && (i <? blockCount a) then from (status a i) else None in
  match target with
  | None => out = (a, Err ErrBlockReservation)
  | Some to => out.2 = Ok tt /\ status out.1 i = to /\ (forall j, 0 <= j -> j <> i -> status out.1 j = status a j) /\
      blockCount out.1 = blockCount a /\ checkpointActive out.1 = checkpointActive a /\ checkpoint out.1 = checkpoint a
  end.

Lemma indexIf_eq a address test :
  is_u64 address ->
  let i := address - 1 in
  indexIf a address test = if (0 <=? i) && (i <? blockCount a) && test i then Some i else None.
Proof.
  intros Ha i. unfold indexIf, index. destruct (Z.eqb_spec address 0) as [->|Hz]; [done|].
  rewrite (uwrap_small 64 (address - 1)) by width_lia. fold i. destruct (Z.leb_spec 0 i); [|width_lia].
  cbn [andb]. by destruct (i <? blockCount a).
Qed.

End changes.

Ltac bits_at a i Hw Hi :=
  rewrite ?(proj1 (bit_updates a i (acquired a) Hw Hi ltac:(in_sets))),
    ?(proj1 (bit_updates a i (released a) Hw Hi ltac:(in_sets))),
    ?(proj2 (bit_updates a i (released a) Hw Hi ltac:(in_sets))),
    ?(proj1 (bit_updates a i (reserved a) Hw Hi ltac:(in_sets))),
    ?(proj2 (bit_updates a i (reserved a) Hw Hi ltac:(in_sets))),
    ?(proj1 (bit_updates a i (pending a) Hw Hi ltac:(in_sets))),
    ?(proj2 (bit_updates a i (pending a) Hw Hi ltac:(in_sets))),
    ?(proj1 (bit_updates a i (reservedReleased a) Hw Hi ltac:(in_sets))),
    ?(proj2 (bit_updates a i (reservedReleased a) Hw Hi ltac:(in_sets))).

(** The bits of block [i] before an operation, as booleans with their
    coherence; the bits after it follow. *)
Ltac block_bits a i Hw Hi Hc :=
  pose proof (aw_bits a Hw i (proj1 Hi)) as Hc; unfold coherent in Hc;
  rewrite (proj2 (Z.leb_gt (blockCount a) i) (proj2 Hi)) in Hc.

Ltac decide_bits Hc :=
  revert Hc;
  repeat match goal with
  | |- context [Test ?s ?i] => destruct (Test s i)
  | |- context [checkpointActive ?a] => destruct (checkpointActive a)
  end; cbn; done.

Ltac moves_block a i Hw Hi Hc :=
  block_bits a i Hw Hi Hc;
  match goal with
  | |- context [with_sets a ?acq ?rel ?res ?pen ?rr] =>
      destruct (with_sets_change a acq rel res pen rr i Hw Hi ltac:(tauto) ltac:(tauto) ltac:(tauto) ltac:(tauto) ltac:(tauto))
        as [? ?];
      [ unfold coherent; cbn [acquired released reserved pending reservedReleased checkpoint blockCount
          checkpointActive with_sets]; rewrite (proj2 (Z.leb_gt (blockCount a) i) (proj2 Hi));
        bits_at a i Hw Hi; try (clear - Hc; decide_bits Hc)
      | ]
  end.

Section operations.
Context {S : Type} `{Storage S, Resizable S}.
Implicit Types a : BlockAllocator S.

Definition toLive (st : block_state) : option block_state :=
  match st with BlockHeld _ => Some BlockLive | _ => None end.
Definition toFree (st : block_state) : option block_state :=
  match st with BlockHeld wasReleased => Some (if wasReleased then BlockReleased else BlockFree) | _ => None end.
Definition toPending (st : block_state) : option block_state :=
  match st with BlockLive => Some BlockPending | _ => None end.
Definition backToLive (st : block_state) : option block_state :=
  match st with BlockPending => Some BlockLive | _ => None end.

Lemma Publish_moves a address :
  alloc_wf a -> is_u64 address -> moves a address (Publish a address) toLive /\ alloc_wf (Publish a address).1.
Proof.
  intros Hw Ha. unfold moves, Publish. rewrite indexIf_eq by done. set (i := address - 1).
  destruct ((0 <=? i) && (i <? blockCount a)) eqn:Ei; cbn [andb]; [|done]. split_bool.
  assert (0 <= i < blockCount a) as Hi by done. unfold status at 1.
  destruct (Test (reserved a) i) eqn:Er; cbn [toLive].
  2:{ destruct (Test (released a) i), (Test (pending a) i), (Test (acquired a) i); done. }
  moves_block a i Hw Hi Hc. split; [|done]. split_and!; try done.
  unfold status. cbn. bits_at a i Hw Hi. rewrite Er in Hc. clear - Hc. decide_bits Hc.
Qed.

Lemma Forfeit_moves a address :
  alloc_wf a -> is_u64 address -> moves a address (Forfeit a address) toFree /\ alloc_wf (Forfeit a address).1.
Proof.
  intros Hw Ha. unfold moves, Forfeit. rewrite indexIf_eq by done. set (i := address - 1).
  destruct ((0 <=? i) && (i <? blockCount a)) eqn:Ei; cbn [andb]; [|done]. split_bool.
  assert (0 <= i < blockCount a) as Hi by done. unfold status at 1.
  destruct (Test (reserved a) i) eqn:Er; cbn [toFree].
  2:{ destruct (Test (released a) i), (Test (pending a) i), (Test (acquired a) i); done. }
  destruct (Test (reservedReleased a) i) eqn:Err.
  all: moves_block a i Hw Hi Hc; [rewrite Er, Err in Hc; clear - Hc Err; try rewrite Err; decide_bits Hc|].
  all: split; [|done]; split_and!; try done.
  all: unfold status; cbn; bits_at a i Hw Hi; rewrite Er, Err in Hc; clear - Hc; decide_bits Hc.
Qed.

Lemma Release_moves a address :
  alloc_wf a -> is_u64 address -> moves a address (Release a address) toPending /\ alloc_wf (Release a address).1.
Proof.
  intros Hw Ha. unfold moves, Release. rewrite indexIf_eq by done. set (i := address - 1).
  destruct ((0 <=? i) && (i <? blockCount a)) eqn:Ei; cbn [andb]; [|done]. split_bool.
  assert (0 <= i < blockCount a) as Hi by done. unfold status at 1.
  destruct (Test (reserved a) i) eqn:Er, (Test (released a) i) eqn:El, (Test (pending a) i) eqn:Ep,
    (Test (acquired a) i) eqn:Ea; cbn; try done.
  moves_block a i Hw Hi Hc; [rewrite Er, El, Ep, Ea in *; clear - Hc; decide_bits Hc|].
  split; [|done]. split_and!; try done. unfold status. cbn. bits_at a i Hw Hi. by rewrite Er, El.
Qed.

Lemma cancelRelease_moves a address :
  alloc_wf a -> checkpointActive a = false -> is_u64 address ->
  moves a address (cancelRelease a address) backToLive /\ alloc_wf (cancelRelease a address).1.
Proof.
  intros Hw Hact Ha. unfold moves, cancelRelease. rewrite indexIf_eq by done. set (i := address - 1).
  destruct ((0 <=? i) && (i <? blockCount a)) eqn:Ei; cbn [andb]; [|done]. split_bool.
  assert (0 <= i < blockCount a) as Hi by done. unfold status at 1.
  destruct (Test (reserved a) i) eqn:Er, (Test (released a) i) eqn:El, (Test (pending a) i) eqn:Ep,
    (Test (acquired a) i) eqn:Ea; cbn; try done; try (exfalso; block_bits a i Hw Hi Hc; by rewrite Er, El, Ep, Ea in Hc).
  moves_block a i Hw Hi Hc; [rewrite Er, El, Ep, Ea, Hact in *; clear - Hc; decide_bits Hc|].
  split; [|done]. split_and!; try done. unfold status. cbn. bits_at a i Hw Hi. by rewrite Er, El, Ea.
Qed.

End operations.
