(* ===== verification/BlockReserve.v ===== *)
(** * Reserving blocks

    [Reserve] of [src/replication/block_allocator.go] and the growth of the
    storage it may cause, and the theorem that describes all the operations on
    a single block. *)

From S2P Require Import Prelude Bytes Arith Config Ewah Storage Checkpoint BlockAllocator BlockStates.
Import BlockAllocator.

Section reserve.
Context {S : Type} `{Storage S, Resizable S}.
Implicit Types a : BlockAllocator S.

(** *** Reserving *)

Lemma capacity_spec required maximum :
  1 <= required <= maximum -> maximum <= 2 ^ 63 -> required <= allocatorBitCapacity required maximum <= maximum.
Proof.
  intros Hr Hm. unfold allocatorBitCapacity. destruct (Z.eqb_spec maximum 0); [lia|].
  rewrite Z.max_l by lia.
  assert (required - 1 < ((required - 1) / 4096 + 1) * 4096 <= required - 1 + 4096) as Hd by div_lia.
  change (2 ^ 63) with 9223372036854775808 in *.
  rewrite (uwrap_small 64 ((required - 1) / 4096 + 1)), uwrap_small by width_lia. lia.
Qed.

(** All bits the same, the sets perhaps longer. *)
Definition same_bits_all (s t : FixedBitSet) : Prop := forall j, 0 <= j -> Test t j = Test s j.

Lemma growSet_spec s n t :
  wf_set s -> is_u64 n -> Len s <= n -> growSet s n = Ok t -> wf_set t /\ Len t = n /\ same_bits_all s t.
Proof.
  unfold growSet. intros Hs Hn Hle E. destruct (FixedBitSet.grow s n) eqn:Eg; [|done]. injection E as ->.
  destruct (grow_spec s n t Hs Hn Eg) as (? & ? & ?). split_and!; [done|lia|done].
Qed.

Definition same_blocks a a' : Prop :=
  Forall2 same_bits_all (sets a) (sets a') /\ blockCount a' = blockCount a /\ maximum a' = maximum a /\
  checkpointActive a' = checkpointActive a /\ logical a' = logical a /\ limit a' = limit a /\
  blockSize a' = blockSize a /\ checkpointGeneration a' = checkpointGeneration a.

Lemma same_blocks_refl a : same_blocks a a.
Proof. split_and!; try done. unfold sets. repeat (apply Forall2_cons; split; [done|]). by apply Forall2_nil. Qed.

Lemma same_blocks_bits a a' j :
  same_blocks a a' -> 0 <= j -> coherent a' j = coherent a j /\ status a' j = status a j.
Proof.
  intros (Hs & Ec & _ & Ea & _) Hj. unfold sets in Hs.
  apply Forall2_cons in Hs as [T1 Hs]. apply Forall2_cons in Hs as [T2 Hs]. apply Forall2_cons in Hs as [T3 Hs].
  apply Forall2_cons in Hs as [T4 Hs]. apply Forall2_cons in Hs as [T5 Hs]. apply Forall2_cons in Hs as [T6 _].
  unfold coherent, status. by rewrite Ec, Ea, (T1 j), (T2 j), (T3 j), (T4 j), (T5 j), (T6 j).
Qed.

Lemma ensure_spec a required a' :
  alloc_wf a -> 1 <= required <= maximum a -> ensureCapacity a required = Ok a' ->
  alloc_wf a' /\ same_blocks a a' /\ required <= Len (acquired a').
Proof.
  intros Hw Hr E. unfold ensureCapacity in E. pose proof (aw_maximum _ Hw) as [HL HM].
  destruct (Z.leb_spec required (Len (acquired a))).
  { injection E as <-. split_and!; [done|apply same_blocks_refl|done]. }
  destruct (capacity_spec required (maximum a) Hr HM) as [Hc1 Hc2].
  set (capacity := allocatorBitCapacity required (maximum a)) in *.
  assert (is_u64 capacity) as Hu by (change (2 ^ 63) with 9223372036854775808 in *; width_lia).
  assert (forall s t, s ∈ sets a -> growSet s capacity = Ok t -> wf_set t /\ Len t = capacity /\ same_bits_all s t) as Hg.
  { intros s t Hs Eg. destruct (wf_set_of a s Hw Hs). apply growSet_spec; [done|done|lia|done]. }
  repeat (apply result_bind_Ok in E as (? & ?E & E)).
  injection E as <-.
  destruct (Hg (acquired a) _ ltac:(in_sets) E0) as (? & L1 & ?), (Hg (released a) _ ltac:(in_sets) E1) as (? & ? & ?),
    (Hg (reserved a) _ ltac:(in_sets) E2) as (? & ? & ?), (Hg (pending a) _ ltac:(in_sets) E3) as (? & ? & ?),
    (Hg (reservedReleased a) _ ltac:(in_sets) E4) as (? & ? & ?), (Hg (checkpoint a) _ ltac:(in_sets) E5) as (? & ? & ?),
    (Hg (checkpointAcquired a) _ ltac:(in_sets) E6) as (? & ? & ?), (Hg (checkpointReleased a) _ ltac:(in_sets) E7) as (? & ? & ?).
  match goal with |- alloc_wf ?x /\ _ => assert (same_blocks a x) as Hsame end.
  { split_and!; try done. unfold sets. cbn. repeat (apply Forall2_cons; split; [done|]). by apply Forall2_nil. }
  split_and!; [|done|by cbn; rewrite L1].
  split; cbn; rewrite ?L1.
  - unfold sets. cbn. rewrite !Forall_cons, Forall_nil. by split_and!.
  - pose proof (aw_count _ Hw). lia.
  - lia.
  - intros i Hi. destruct (same_blocks_bits _ _ i Hsame Hi) as [-> _]. by apply Hw.
Qed.

Definition isAvailable (st : block_state) : Prop := st = BlockFree \/ st = BlockReleased.

Lemma available_status a i : alloc_wf a -> 0 <= i -> available a i = true <-> isAvailable (status a i).
Proof.
  intros Hw Hi. pose proof (aw_bits _ Hw i Hi) as Hc. unfold available, isAvailable, status, coherent in *.
  destruct (Test (reserved a) i), (Test (released a) i), (Test (pending a) i), (Test (acquired a) i);
    cbn in *; naive_solver.
Qed.

Lemma beyond_free a i : alloc_wf a -> blockCount a <= i -> status a i = BlockFree.
Proof.
  intros Hw Hi. pose proof (aw_count _ Hw). pose proof (aw_bits _ Hw i ltac:(lia)) as Hc. unfold coherent, status in *.
  rewrite (proj2 (Z.leb_le _ _) Hi) in Hc. clear - Hc.
  destruct (Test (reserved a) i), (Test (released a) i), (Test (pending a) i), (Test (acquired a) i); cbn in *;
    try done; by rewrite ?andb_false_r in Hc.
Qed.

(** The storage and its size do not matter to the blocks. *)
Lemma alloc_wf_storage a s : alloc_wf a -> alloc_wf (with_storage a s).
Proof. intros Hw. split; apply Hw. Qed.

Lemma wf_with_count a logical count :
  alloc_wf a -> blockCount a <= count <= Len (acquired a) -> alloc_wf (with_count a logical count).
Proof.
  intros Hw Hc. pose proof (aw_count _ Hw). split; cbn; [apply Hw|lia|apply Hw|].
  intros i Hi. pose proof (aw_bits _ Hw i Hi) as Hb. unfold coherent in *. cbn.
  destruct (Z.leb_spec count i); [|apply andb_prop in Hb as [-> _]; done].
  by rewrite (proj2 (Z.leb_le (blockCount a) i)) in Hb by lia.
Qed.

(** What [Reserve] does. *)
Record reserved_block a a' (i : Z) : Prop := {
  rb_available : isAvailable (status a i);
  rb_held : status a' i = BlockHeld (bool_decide (status a i = BlockReleased));
  rb_others : forall j, 0 <= j -> j <> i -> status a' j = status a j;
  rb_first : forall k, 0 <= k < i -> ~ isAvailable (status a k);
  rb_extent : 0 <= i < blockCount a /\ blockCount a' = blockCount a /\ logical a' = logical a \/
    i = blockCount a /\ blockCount a' = blockCount a + 1 /\ blockCount a' <= maximum a /\
    checkedAdd (logical a) (blockSize a) = Some (logical a') /\ logical a' <= limit a;
  rb_checkpoint : checkpointActive a' = checkpointActive a /\
    forall j, 0 <= j -> Test (checkpoint a') j = Test (checkpoint a) j;
}.

Lemma reserve_at a i :
  alloc_wf a -> 0 <= i < blockCount a -> isAvailable (status a i) ->
  let a' := with_sets a (acquired a) (clearBit (released a) i) (setBit (reserved a) i) (pending a)
    (if Test (released a) i then setBit (reservedReleased a) i else reservedReleased a) in
  alloc_wf a' /\ status a' i = BlockHeld (bool_decide (status a i = BlockReleased)) /\
  forall j, 0 <= j -> j <> i -> status a' j = status a j.
Proof.
  intros Hw Hi Hav a'. block_bits a i Hw Hi Hc. unfold isAvailable, status in Hav.
  destruct (with_sets_change a (acquired a) (clearBit (released a) i) (setBit (reserved a) i) (pending a)
    (if Test (released a) i then setBit (reservedReleased a) i else reservedReleased a) i Hw Hi) as [? ?];
    [auto|auto|auto|auto|destruct (Test (released a) i); auto| |].
  - unfold coherent. cbn. rewrite (proj2 (Z.leb_gt (blockCount a) i) (proj2 Hi)).
    destruct (Test (released a) i) eqn:El; bits_at a i Hw Hi; rewrite ?El; revert Hc Hav; rewrite ?El;
      clear; repeat match goal with |- context [Test ?s i] => destruct (Test s i) end; destruct (checkpointActive a); cbn; naive_solver.
  - split_and!; [done| |done]. unfold status, a'. cbn. bits_at a i Hw Hi. f_equal.
    destruct (Test (released a) i) eqn:El; bits_at a i Hw Hi; revert Hc Hav; rewrite ?El; clear;
      repeat match goal with |- context [Test ?s i] => destruct (Test s i) end; cbn; naive_solver.
Qed.

(** Nothing but the storage and the length of the sets may differ. *)
Definition unmoved a a' : Prop :=
  (forall j, 0 <= j -> status a' j = status a j) /\ blockCount a' = blockCount a /\ logical a' = logical a /\
  checkpointActive a' = checkpointActive a /\ forall j, 0 <= j -> Test (checkpoint a') j = Test (checkpoint a) j.

Lemma same_blocks_unmoved a a' : same_blocks a a' -> unmoved a a'.
Proof.
  intros Hs. pose proof Hs as (Hf & ? & _ & ? & ? & _). split_and!; try done.
  - intros j Hj. by apply (same_blocks_bits a a' j Hs).
  - unfold sets in Hf. do 5 (apply Forall2_cons in Hf as [_ Hf]). by apply Forall2_cons in Hf as [? _].
Qed.

(** Growing by a block once no block is available. *)
Lemma grow_by_block a a1 s logical' :
  alloc_wf a1 -> same_blocks a a1 -> blockCount a + 1 <= Len (acquired a1) -> blockCount a < maximum a ->
  (forall k, 0 <= k < blockCount a -> ~ isAvailable (status a k)) -> alloc_wf a ->
  checkedAdd (logical a) (blockSize a) = Some logical' -> logical' <= limit a ->
  let a2 := with_count (with_storage a1 s) logical' (blockCount a + 1) in
  let a' := with_sets a2 (acquired a2) (released a2) (setBit (reserved a2) (blockCount a)) (pending a2) (reservedReleased a2) in
  alloc_wf a' /\ reserved_block a a' (blockCount a).
Proof.
  intros Hw1 Hs Hlen Hmax Hnone Hw Hadd Hlim a2 a'. pose proof (aw_count _ Hw) as Hcount.
  pose proof Hs as (_ & Ec & Em & _). set (i := blockCount a) in *.
  assert (alloc_wf a2) as Hw2 by (apply wf_with_count; [by apply alloc_wf_storage|cbn; lia]).
  assert (0 <= i < blockCount a2) as Hi by (cbn; lia).
  assert (status a2 i = BlockFree) as Hst.
  { change (status a2 i) with (status a1 i). apply beyond_free; [done|lia]. }
  assert (Test (released a2) i = false) as Er by (clear - Hst; unfold status in Hst; by destruct (Test _ i), (Test (released a2) i)).
  pose proof (proj1 (bit_updates a2 i (reserved a2) Hw2 Hi ltac:(in_sets))) as Eb. change (reserved a2) with (reserved a1) in Eb.
  destruct (with_sets_change a2 (acquired a2) (released a2) (setBit (reserved a2) i) (pending a2) (reservedReleased a2) i
    Hw2 Hi) as [Hw' Hoth]; [auto|auto|auto|auto|auto| |].
  { block_bits a2 i Hw2 Hi Hc. unfold coherent. cbn -[Z.leb]. rewrite (proj2 (Z.leb_gt (i + 1) i)) by lia.
    rewrite Eb. unfold status in Hst. revert Hc Hst. cbn. clear.
    repeat match goal with |- context [Test ?s i] => destruct (Test s i) end; destruct (checkpointActive a1); cbn; done. }
  split; [exact Hw'|]. destruct (same_blocks_unmoved _ _ Hs) as (Hst1 & _ & _ & Ha & Hcp).
  assert (status a i = BlockFree) as Hsa by (rewrite <- Hst1 by lia; exact Hst).
  split; [by left| | |done| |done].
  - rewrite Hsa. unfold status, a'. cbn. rewrite Eb. f_equal.
    block_bits a2 i Hw2 Hi Hc. unfold status in Hst. revert Hc Hst. cbn. clear.
    repeat match goal with |- context [Test ?s i] => destruct (Test s i) end; cbn; done.
  - intros j ? ?. rewrite <- Hst1 by done. by apply (Hoth j).
  - right. by split_and!; try done; cbn; lia.
Qed.

Lemma Reserve_spec a :
  alloc_wf a ->
  let '(a', r) := Reserve a in
  alloc_wf a' /\
  match r with
  | Ok addr => exists i, addr = i + 1 /\ reserved_block a a' i
  | Err _ => unmoved a a' /\ forall k, 0 <= k < blockCount a -> ~ isAvailable (status a k)
  end.
Proof.
  intros Hw. unfold Reserve. pose proof (aw_maximum _ Hw). pose proof (aw_count _ Hw).
  change (2 ^ 63) with 9223372036854775808 in *.
  destruct (list_find _ _) as [[k i]|] eqn:Ef.
  - apply list_find_Some in Ef as (Hk & Hav & Hfirst). apply lookup_seqZ in Hk as [Ei Hk].
    assert (0 <= i < blockCount a) as Hi by lia. apply available_status in Hav; [|done|lia].
    destruct (reserve_at a i Hw Hi Hav) as (? & ? & ?). split; [done|]. exists i.
    split; [unfold address; by rewrite uwrap_small by width_lia|]. split; try done; [|by left].
    intros j Hj Hc. apply (Hfirst (Z.to_nat j) j); [apply lookup_seqZ; lia|lia|]. apply available_status; [done|lia|done].
  - assert (forall k, 0 <= k < blockCount a -> ~ isAvailable (status a k)) as Hnone.
    { intros k Hk Hc. apply list_find_None in Ef. rewrite Forall_forall in Ef. apply (Ef k); [apply elem_of_seqZ; lia|].
      apply available_status; [done|lia|done]. }
    destruct (Z.leb_spec (maximum a) (blockCount a)); [by split_and!; try done; apply same_blocks_unmoved, same_blocks_refl|].
    rewrite (uwrap_small 64 (blockCount a + 1)) by width_lia.
    destruct (ensureCapacity a (blockCount a + 1)) as [a1|err] eqn:Ee;
      [|by split_and!; try done; apply same_blocks_unmoved, same_blocks_refl].
    apply ensure_spec in Ee as (Hw1 & Hs & Hlen); [|done|lia]. pose proof Hs as (_ & Ec & _ & _ & El & Elim & Esz & _).
    rewrite El, Esz, Elim, Ec. pose proof (same_blocks_unmoved _ _ Hs) as Hun.
    destruct (checkedAdd _ _) as [logical'|] eqn:Eadd; [|done].
    destruct (Z.ltb_spec (limit a) logical'); [done|].
    destruct (Resize _ _) as [s [[]|err]]; [|by split; [apply alloc_wf_storage|]].
    destruct (Sync s) as [s' [[]|err]]; [|by split; [apply alloc_wf_storage|]].
    rewrite uwrap_small by width_lia.
    destruct (grow_by_block a a1 s' logical' Hw1 Hs Hlen ltac:(lia) Hnone Hw Eadd ltac:(lia)) as [? ?].
    split; [done|]. exists (blockCount a). split; [unfold address; by rewrite uwrap_small by width_lia|done].
Qed.

End reserve.
