(* ===== verification/BlockCheckpoints.v ===== *)
(** * Checkpoints of the block allocator

    [PrepareCheckpoint] of [src/replication/block_allocator.go]: the blocks it
    holds, what a candidate describes, and that a failed preparation leaves no
    trace. *)

From S2P Require Import Prelude Bytes Arith Config Ewah Storage Checkpoint BlockAllocator BlockStates BlockReserve.
Import BlockAllocator.

Section checkpoints.
Context {S : Type} `{Storage S, Resizable S}.
Implicit Types a : BlockAllocator S.

(** ** Blocks held for a checkpoint *)

(** [a] is [a0] with the blocks of [addresses] held and perhaps more blocks in
    all. *)
Record holds a0 a (addresses : list Z) : Prop := {
  ho_wf : alloc_wf a;
  ho_status : forall j, 0 <= j -> status a j =
    if bool_decide (j + 1 ∈ addresses) then BlockHeld (bool_decide (status a0 j = BlockReleased)) else status a0 j;
  ho_addresses : forall address, address ∈ addresses -> 1 <= address <= blockCount a /\ isAvailable (status a0 (address - 1));
  ho_nodup : NoDup addresses;
  ho_count : blockCount a0 <= blockCount a;
  ho_active : checkpointActive a = checkpointActive a0;
  ho_checkpoint : forall j, 0 <= j -> Test (checkpoint a) j = Test (checkpoint a0) j;
}.

Lemma holds_none a : alloc_wf a -> holds a a [].
Proof. intros Hw. split; try done; [by intros ? ?%not_elem_of_nil|constructor]. Qed.

Lemma block_count_bound a : alloc_wf a -> 0 <= blockCount a <= 2 ^ 63.
Proof. intros Hw. pose proof (aw_count _ Hw). pose proof (aw_maximum _ Hw). lia. Qed.

Lemma holds_u64 a0 a addresses address : holds a0 a addresses -> address ∈ addresses -> is_u64 address.
Proof.
  intros Hh Ha. destruct (ho_addresses _ _ _ Hh _ Ha). pose proof (block_count_bound a (ho_wf _ _ _ Hh)).
  change (2 ^ 63) with 9223372036854775808 in *. width_lia.
Qed.

Lemma holds_reserve a0 a addresses :
  holds a0 a addresses ->
  match Reserve a with
  | (a', Ok address) => holds a0 a' (addresses ++ [address])
  | (a', Err _) => holds a0 a' addresses
  end.
Proof.
  intros Hh. pose proof (Reserve_spec a (ho_wf _ _ _ Hh)) as Hr. destruct (Reserve a) as [a' [addr|err]].
  2:{ destruct Hr as (Hw & (Hs & Ec & _ & Ea & Hcp) & _). split; try done.
      - intros j Hj. rewrite Hs by done. by apply (ho_status _ _ _ Hh).
      - rewrite Ec. apply (ho_addresses _ _ _ Hh).
      - apply (ho_nodup _ _ _ Hh).
      - rewrite Ec. apply (ho_count _ _ _ Hh).
      - rewrite Ea. apply (ho_active _ _ _ Hh).
      - intros j Hj. rewrite Hcp by done. by apply (ho_checkpoint _ _ _ Hh). }
  destruct Hr as (Hw & i & -> & Hb). destruct Hb as [Hav Hheld Hoth _ Hext [Ea Hcp]].
  assert (0 <= i) as Hi by (pose proof (block_count_bound a (ho_wf _ _ _ Hh)); destruct Hext; lia).
  assert (i + 1 ∉ addresses) as Hnew.
  { intros Hin. rewrite (ho_status _ _ _ Hh i Hi), bool_decide_true in Hav by done. by destruct Hav. }
  assert (status a i = status a0 i) as Es by (rewrite (ho_status _ _ _ Hh i Hi); by rewrite bool_decide_false).
  split; [done| | | | |rewrite Ea; apply (ho_active _ _ _ Hh)|].
  - intros j Hj. destruct (decide (j = i)) as [->|Hne].
    + rewrite bool_decide_true by set_solver. by rewrite Hheld, Es.
    + rewrite Hoth, (ho_status _ _ _ Hh j Hj) by done.
      rewrite (bool_decide_ext (j + 1 ∈ addresses ++ [i + 1]) (j + 1 ∈ addresses)); [done|].
      rewrite elem_of_app, list_elem_of_singleton. naive_solver lia.
  - intros addr Haddr. rewrite elem_of_app, list_elem_of_singleton in Haddr. destruct Haddr as [Haddr| ->].
    + destruct (ho_addresses _ _ _ Hh _ Haddr). split; [destruct Hext; lia|done].
    + replace (i + 1 - 1) with i by lia. rewrite <- Es. split; [destruct Hext; lia|done].
  - apply NoDup_app. split_and!; [apply (ho_nodup _ _ _ Hh)| |apply NoDup_singleton]. intros x Hx. by rewrite list_elem_of_singleton; intros ->.
  - pose proof (ho_count _ _ _ Hh). destruct Hext; lia.
  - intros j Hj. rewrite Hcp by done. by apply (ho_checkpoint _ _ _ Hh).
Qed.

(** Forfeiting one of the held blocks. *)
Lemma holds_forfeit a0 a before address after :
  holds a0 a (before ++ address :: after) -> holds a0 (Forfeit a address).1 (before ++ after).
Proof.
  intros Hh. pose proof (ho_nodup _ _ _ Hh) as Hnd. rewrite <- Permutation_middle in Hnd.
  apply NoDup_cons in Hnd as [Hnin Hnd].
  assert (address ∈ before ++ address :: after) as Hin by set_solver.
  destruct (ho_addresses _ _ _ Hh _ Hin) as [Hr Hav]. pose proof (holds_u64 _ _ _ _ Hh Hin) as Hu.
  destruct (Forfeit_moves a address (ho_wf _ _ _ Hh) Hu) as [Hm Hw]. unfold moves in Hm.
  set (i := address - 1) in *. assert (0 <= i) as Hi by (unfold i; lia).
  rewrite (proj2 (Z.leb_le 0 i) Hi), (proj2 (Z.ltb_lt i (blockCount a))) in Hm by (unfold i; lia). cbn [andb] in Hm.
  rewrite (ho_status _ _ _ Hh i Hi), bool_decide_true in Hm by (unfold i; by replace (address - 1 + 1) with address by lia).
  cbn [toFree] in Hm. destruct Hm as (_ & Hst & Hoth & Ec & Ea & Ecp).
  split; [done| | |done| | |].
  - intros j Hj. destruct (decide (j = i)) as [->|Hne].
    + rewrite bool_decide_false by (unfold i; by replace (address - 1 + 1) with address by lia).
      rewrite Hst. destruct Hav as [E|E]; by rewrite E.
    + rewrite Hoth, (ho_status _ _ _ Hh j Hj) by done.
      rewrite (bool_decide_ext (j + 1 ∈ before ++ address :: after) (j + 1 ∈ before ++ after)); [done|].
      rewrite !elem_of_app, elem_of_cons. unfold i in Hne. naive_solver lia.
  - rewrite Ec. intros x Hx. apply (ho_addresses _ _ _ Hh). set_solver.
  - rewrite Ec. apply (ho_count _ _ _ Hh).
  - rewrite Ea. apply (ho_active _ _ _ Hh).
  - rewrite Ecp. apply (ho_checkpoint _ _ _ Hh).
Qed.

Lemma holds_forfeit_all a0 a kept addresses :
  holds a0 a (kept ++ addresses) -> holds a0 (forfeitAddresses a addresses) kept.
Proof.
  revert a. induction addresses as [|x l IH]; intros a Hh; cbn.
  - by rewrite app_nil_r in Hh.
  - by apply IH, holds_forfeit.
Qed.

Lemma holds_reserveMany a0 n a addresses :
  holds a0 a addresses ->
  match reserveMany n a addresses with
  | (a', Ok addresses') => holds a0 a' addresses' /\ zlen addresses' = zlen addresses + Z.of_nat n
  | (a', Err _) => holds a0 a' []
  end.
Proof.
  revert a addresses. induction n as [|n IH]; intros a addresses Hh; cbn [reserveMany].
  { split; [done|lia]. }
  pose proof (holds_reserve _ _ _ Hh) as Hr. destruct (Reserve a) as [a' [addr|err]].
  - specialize (IH a' (addresses ++ [addr]) Hr). destruct (reserveMany n a' _) as [a2 [l|e]]; [|done].
    destruct IH as [? IH]. split; [done|]. rewrite IH, zlen_snoc. lia.
  - by apply (holds_forfeit_all a0 a' []).
Qed.

(** ** The sets of a candidate *)

Lemma in_count a s j :
  alloc_wf a -> s ∈ [acquired a; released a; reserved a; pending a] -> 0 <= j -> Test s j = true -> j < blockCount a.
Proof.
  intros Hw Hs Hj Ht. destruct (Z.ltb_spec j (blockCount a)) as [|Hge]; [done|]. exfalso.
  pose proof (aw_bits _ Hw j Hj) as Hc. unfold coherent in Hc. rewrite (proj2 (Z.leb_le _ _) Hge) in Hc.
  rewrite !elem_of_cons in Hs. destruct Hs as [->|[->|[->|[->|Hs]]]]; [..|by apply not_elem_of_nil in Hs];
    rewrite Ht in Hc; revert Hc; clear;
    repeat match goal with |- context [Test ?s j] => destruct (Test s j) end; cbn; done || (rewrite ?andb_false_r; done).
Qed.

Lemma prefix_spec a s :
  alloc_wf a -> s ∈ sets a -> (forall j, 0 <= j -> Test s j = true -> j < blockCount a) ->
  wf_set (prefix a s) /\ Len (prefix a s) = blockCount a /\ same_bits_all s (prefix a s).
Proof.
  intros Hw Hs Hin. destruct (wf_set_of a s Hw Hs) as [Hwf El]. pose proof (aw_count _ Hw) as Hc.
  pose proof (block_count_bound a Hw). change (2 ^ 63) with 9223372036854775808 in *. unfold prefix.
  rewrite (uwrap_small 64 (blockCount a + 63)) by width_lia. set (n := Z.to_nat ((blockCount a + 63) / 64)).
  assert (Z.of_nat n = (blockCount a + 63) / 64) as En by (unfold n; pose proof (Z.div_pos (blockCount a + 63) 64); lia).
  assert (zlen (words s) = (Len s + 63) / 64) as Ws by apply Hwf.
  assert (zlen (take n (words s)) = (blockCount a + 63) / 64) as Wt.
  { rewrite <- En. unfold zlen in *. rewrite length_take. assert ((blockCount a + 63) / 64 <= (Len s + 63) / 64) by (apply Z.div_le_mono; lia). lia. }
  assert (forall j, 0 <= j -> bitAt (take n (words s)) j = true -> j < blockCount a) as Hb.
  { intros j Hj Hbit. rewrite bitAt_take in Hbit by done. split_bool. apply Hin; [done|].
    rewrite Test_bitAt by done. apply andb_true_intro. split; [|done]. apply Z.ltb_lt.
    destruct (Z.ltb_spec j (FixedBitSet.length s)); [done|]. exfalso.
    rewrite (wf_tail_bits s j Hwf) in *; [done|]. split; [done|]. rewrite Ws.
    assert ((blockCount a + 63) / 64 <= (Len s + 63) / 64) by (apply Z.div_le_mono; lia). lia. }
  split_and!; [|done|].
  - split; cbn; [width_lia|done|by apply Forall_take, Hwf|]. apply validTail_bitAt; cbn; [lia|done|by apply Forall_take, Hwf|].
    intros j Hj. apply not_true_iff_false. intros Hbit. apply Hb in Hbit; lia.
  - intros j Hj. rewrite !Test_bitAt by done. cbn. rewrite bitAt_take by done.
    destruct (Z.ltb_spec j (blockCount a)) as [Hlt|Hge]; cbn.
    + assert (j < 64 * Z.of_nat n) as Hn by (rewrite En; clear - Hlt; div_lia).
      rewrite (proj2 (Z.ltb_lt _ _) Hn). cbn. unfold FixedBitSet.Len in *.
      by rewrite (proj2 (Z.ltb_lt j (FixedBitSet.length s))) by lia.
    + symmetry. apply not_true_iff_false. intros Ht. rewrite <- Test_bitAt in Ht by done. apply Hin in Ht; lia.
Qed.

Definition prefixes_ok a : Prop := forall s, s ∈ [acquired a; released a; reserved a; pending a] ->
  wf_set (prefix a s) /\ Len (prefix a s) = blockCount a /\ same_bits_all s (prefix a s).

Lemma prefixes a : alloc_wf a -> prefixes_ok a.
Proof.
  intros Hw s Hs. apply prefix_spec; [done| |by intros j Hj; apply in_count].
  unfold sets. rewrite !elem_of_cons in *. naive_solver.
Qed.

(** Combining the words of two sets of one length. *)
Lemma zip_spec (f : Z -> Z -> Z) (g : bool -> bool -> bool) s t :
  wf_set s -> wf_set t -> Len t = Len s ->
  (forall x y n, 0 <= n -> Z.testbit (f x y) n = g (Z.testbit x n) (Z.testbit y n)) -> g false false = false ->
  (forall x y, is_u64 x -> is_u64 y -> is_u64 (f x y)) ->
  let r := FixedBitSet.mk (zip_with f (words s) (words t)) (Len s) in
  wf_set r /\ forall j, 0 <= j -> Test r j = g (Test s j) (Test t j).
Proof.
  intros Hs Ht El Hf Hg Hu r.
  assert (zlen (words t) = zlen (words s)) as Ez.
  { rewrite (wf_words _ Hs), (wf_words _ Ht). unfold FixedBitSet.Len in El. by rewrite El. }
  assert (length (words s) = length (words t)) as En by (unfold zlen in Ez; lia).
  assert (forall j, bitAt (zip_with f (words s) (words t)) j = g (bitAt (words s) j) (bitAt (words t) j)) as Hb
    by (intros j; by apply bitAt_zip).
  split.
  - apply wf_ext; [done| | |].
    + unfold zlen. rewrite length_zip_with. lia.
    + apply Forall_lookup. intros k w. rewrite lookup_zip_with. intros (x & Hx & (y & Hy & [= <-])%bind_Some)%bind_Some.
      pose proof (Forall_lookup_1 _ _ _ _ (wf_word _ Hs) Hx). pose proof (Forall_lookup_1 _ _ _ _ (wf_word _ Ht) Hy). by apply Hu.
    + intros j Hj. rewrite Hb, (wf_tail_bits s), (wf_tail_bits t); try done. unfold FixedBitSet.Len in *. lia.
  - intros j Hj. rewrite !Test_bitAt by done. cbn. rewrite Hb. unfold FixedBitSet.Len in *. rewrite El.
    by destruct (j <? FixedBitSet.length s).
Qed.

(** The bits in terms of the states. *)
Lemma status_bits a j :
  alloc_wf a -> 0 <= j ->
  Test (pending a) j = bool_decide (status a j = BlockPending) /\
  Test (released a) j = bool_decide (status a j = BlockReleased) /\
  Test (reserved a) j = (match status a j with BlockHeld _ => true | _ => false end) /\
  Test (acquired a) j = (match status a j with BlockFree => false | BlockHeld r => r | _ => true end).
Proof.
  intros Hw Hj. pose proof (aw_bits _ Hw j Hj) as Hc. unfold coherent, status in *. revert Hc. clear.
  repeat match goal with |- context [Test ?s j] => destruct (Test s j) end; cbn; done.
Qed.

Lemma claim_spec a addresses acq rel :
  (forall address, address ∈ addresses -> is_u64 address /\ 1 <= address <= blockCount a) ->
  wf_set acq -> Len acq = blockCount a -> wf_set rel -> Len rel = blockCount a ->
  exists acq' rel', claimAddresses a addresses acq rel = Ok (acq', rel') /\
    wf_set acq' /\ Len acq' = blockCount a /\ wf_set rel' /\ Len rel' = blockCount a /\
    forall j, 0 <= j -> Test acq' j = bool_decide (j + 1 ∈ addresses) || Test acq j /\
      Test rel' j = negb (bool_decide (j + 1 ∈ addresses)) && Test rel j.
Proof.
  revert acq rel. induction addresses as [|x l IH]; intros acq rel Hin Ha La Hr Lr; cbn [claimAddresses].
  { exists acq, rel. by split_and!. }
  destruct (Hin x) as [Hu Hx]; [set_solver|]. rewrite (proj2 (index_spec a x (x - 1) Hu)) by lia.
  destruct (IH (setBit acq (x - 1)) (clearBit rel (x - 1))) as (acq' & rel' & E & ? & ? & ? & ? & Hb).
  - intros y Hy. apply Hin. set_solver.
  - apply wf_setBit; [done|lia].
  - by rewrite Len_setBit.
  - apply wf_clearBit; [done|lia].
  - by rewrite Len_clearBit.
  - exists acq', rel'. split_and!; try done. intros j Hj. destruct (Hb j Hj) as [-> ->].
    rewrite Test_setBit, Test_clearBit by (done || lia).
    destruct (Z.eqb_spec j (x - 1)) as [->|Hne].
    + replace (x - 1 + 1) with x by lia. rewrite (bool_decide_true (x ∈ x :: l)) by set_solver. cbn.
      split; [by rewrite orb_true_r|by rewrite andb_false_r].
    + rewrite (bool_decide_ext (j + 1 ∈ x :: l) (j + 1 ∈ l)); [done|]. rewrite elem_of_cons. naive_solver lia.
Qed.

Lemma checkpointSets_spec a addresses :
  alloc_wf a -> (forall address, address ∈ addresses -> is_u64 address /\ 1 <= address <= blockCount a) ->
  exists acq rel, checkpointSets a addresses = Ok (acq, rel) /\
    wf_set acq /\ Len acq = blockCount a /\ wf_set rel /\ Len rel = blockCount a /\
    forall j, 0 <= j -> Test acq j = bool_decide (j + 1 ∈ addresses) || Test (acquired a) j /\
      Test rel j = negb (bool_decide (j + 1 ∈ addresses)) && (Test (released a) j || Test (pending a) j).
Proof.
  intros Hw Hin. pose proof (prefixes a Hw) as Hp. unfold checkpointSets.
  destruct (Hp (acquired a)) as (Ha & La & Ta); [set_solver|]. destruct (Hp (released a)) as (Hr & Lr & Tr); [set_solver|].
  destruct (Hp (pending a)) as (Hq & Lq & Tq); [set_solver|].
  destruct (zip_spec Z.lor orb _ _ Hr Hq) as [Hz Tz]; [by rewrite Lq|intros; apply Z.lor_spec|done|apply lor_u64|].
  rewrite Lr in Hz, Tz.
  destruct (claim_spec a addresses _ _ Hin Ha La Hz eq_refl) as (acq & rel & E & ? & ? & ? & ? & Hb).
  exists acq, rel. split_and!; try done. intros j Hj. destruct (Hb j Hj) as [-> ->].
  by rewrite Tz, Ta, Tr, Tq.
Qed.

Lemma concat_putUint (out : list Z) : zlen (concat (putUint 8 <$> out)) = 8 * zlen out.
Proof.
  induction out as [|x l IH]; [done|]. cbn [fmap list_fmap concat]. rewrite zlen_app, zlen_putUint, zlen_cons, IH. lia.
Qed.

(** Encoding a set always succeeds, and what it yields decodes to the set. *)
Definition encodes (bytes : list byte) (s : FixedBitSet) : Prop :=
  exists out, bytes = concat (putUint 8 <$> out) /\
    forall t, wf_set t -> Len t = Len s -> FixedBitSet.DecodeEWAH t out = Some (s, Ok tt).

Lemma encode_spec s :
  wf_set s -> Len s <= 2 ^ 63 ->
  exists bytes, encodeEWAHBytes s = Some (Ok bytes) /\ encodes bytes s /\ zlen bytes <= 2 ^ 61 + 8 /\
    4 * zlen bytes <= Len s + 160.
Proof.
  intros Hs Hl. assert (ewah_words (words s) <= zlen (words s) * 2 + 1) as Hw.
  { unfold ewah_words. pose proof (literal_start_bounds (words s)). pose proof (zlen_nonneg (words s)).
    pose proof (Z.div_le_upper_bound (zlen (words s)) ewahLiteralMax (zlen (words s))).
    unfold ewahLiteralMax in *. width_lia. }
  destruct (encode_decode_EWAH s s _ Hs Hs eq_refl Hw) as (out & E & Ho & _).
  unfold encodeEWAHBytes. rewrite E. cbn. eexists. split; [done|]. split.
  - exists out. split; [done|]. intros t Ht El.
    destruct (encode_decode_EWAH s t _ Hs Ht El Hw) as (out' & E' & _ & Hd). rewrite E in E'. by injection E' as <-.
  - rewrite concat_putUint. assert (zlen (words s) <= 2 ^ 57) as Hz.
    { rewrite (wf_words _ Hs). unfold FixedBitSet.Len in Hl. apply Z.lt_succ_r, Z.div_lt_upper_bound; [lia|].
      change (2 ^ 63) with 9223372036854775808 in *. change (2 ^ 57) with 144115188075855872. lia. }
    change (2 ^ 57) with 144115188075855872 in *. change (2 ^ 61) with 2305843009213693952. split; [lia|].
    assert (64 * zlen (words s) <= Len s + 64) as Hlen; [|lia].
    rewrite (wf_words _ Hs). unfold FixedBitSet.Len. match goal with |- 64 * (?n / 64) <= _ => pose proof (Z.mul_div_le n 64) end. lia.
Qed.

(** The largest number of blocks never changes. *)
Lemma Reserve_maximum a : maximum (Reserve a).1 = maximum a.
Proof.
  unfold Reserve. destruct (list_find _ _) as [[k i]|]; [done|]. destruct (maximum a <=? blockCount a); [done|].
  destruct (ensureCapacity a _) as [a1|] eqn:E; [|done].
  assert (maximum a1 = maximum a) as <-.
  { unfold ensureCapacity in E. destruct (_ <=? Len _); [by injection E as <-|]. cbv zeta in E.
    repeat (apply result_bind_Ok in E as (? & _ & E)). by injection E as <-. }
  destruct (checkedAdd _ _); [|done]. destruct (_ <? _); [done|].
  destruct (Resize _ _) as [s [[]|]]; [|done]. by destruct (Sync s) as [s' [[]|]].
Qed.

Lemma Forfeit_maximum a address : maximum (Forfeit a address).1 = maximum a.
Proof. unfold Forfeit. destruct (indexIf _ _ _) as [i|]; [|done]. by destruct (Test _ i). Qed.

Lemma forfeitAddresses_maximum addresses a : maximum (forfeitAddresses a addresses) = maximum a.
Proof.
  revert a. induction addresses as [|x l IH]; intros a; [done|]. cbn. rewrite IH. apply Forfeit_maximum.
Qed.

Lemma reserveMany_maximum n a addresses : maximum (reserveMany n a addresses).1 = maximum a.
Proof.
  revert a addresses. induction n as [|n IH]; intros a addresses; [done|]. cbn [reserveMany].
  pose proof (Reserve_maximum a) as Hm. destruct (Reserve a) as [a' [x|e]]; cbn in *.
  - by rewrite IH.
  - by rewrite forfeitAddresses_maximum.
Qed.

(** ** Preparing a checkpoint *)

(** As many blocks of [payload] bytes as [size] bytes need. *)
Definition blocks_hold (blocks size payload : Z) : Prop :=
  0 <= blocks /\ size <= blocks * payload < size + payload.

Lemma blocksFor_spec size payload :
  0 <= size < 2 ^ 62 -> 0 < payload <= 2 ^ 62 ->
  blocks_hold (blocksFor size payload) size payload /\ 0 <= blocksFor size payload <= size.
Proof.
  intros Hs Hp. change (2 ^ 62) with 4611686018427387904 in *. unfold blocksFor, blocks_hold.
  rewrite (uwrap_small 64 (size + payload - 1)) by width_lia.
  pose proof (Z.div_pos (size + payload - 1) payload ltac:(lia) ltac:(lia)).
  pose proof (Z.div_mod (size + payload - 1) payload ltac:(lia)).
  pose proof (Z.mod_pos_bound (size + payload - 1) payload ltac:(lia)).
  assert ((size + payload - 1) / payload <= size) by (destruct (decide (size = 0)) as [->|]; [rewrite Z.div_small; lia|nia]).
  rewrite swrap_small by width_lia. lia.
Qed.

(** A checkpoint prepared from [a0]: the candidate's addresses are held, as
    many as the trailers need; its sets are those of the blocks in use and
    released once it is durable, and its encodings decode to them. *)
Record prepared a0 a (c : BlockCheckpointCandidate) (sessionSize payload : Z) : Prop := {
  pp_wf : alloc_wf a;
  pp_held : forall j, 0 <= j -> status a j =
    if bool_decide (j + 1 ∈ BlockCheckpointCandidate.addresses c)
    then BlockHeld (bool_decide (status a0 j = BlockReleased)) else status a0 j;
  pp_addresses : NoDup (BlockCheckpointCandidate.addresses c) /\
    forall address, address ∈ BlockCheckpointCandidate.addresses c ->
      1 <= address <= blockCount a /\ isAvailable (status a0 (address - 1));
  pp_snapshot : checkpointActive a = true /\
    forall j, 0 <= j -> Test (checkpoint a) j = bool_decide (status a0 j = BlockPending);
  pp_generation : BlockCheckpointCandidate.generation c = checkpointGeneration a /\
    BlockCheckpointCandidate.blockCount c = blockCount a;
  pp_acquired : wf_set (BlockCheckpointCandidate.acquired c) /\
    forall j, 0 <= j -> Test (BlockCheckpointCandidate.acquired c) j =
      bool_decide (j + 1 ∈ BlockCheckpointCandidate.addresses c) || negb (bool_decide (status a0 j = BlockFree));
  pp_released : wf_set (BlockCheckpointCandidate.released c) /\
    forall j, 0 <= j -> Test (BlockCheckpointCandidate.released c) j =
      negb (bool_decide (j + 1 ∈ BlockCheckpointCandidate.addresses c)) &&
      (bool_decide (status a0 j = BlockReleased) || bool_decide (status a0 j = BlockPending));
  pp_reachable : forall j, 0 <= j -> Test (BlockCheckpointCandidate.reachable c) j =
    Test (BlockCheckpointCandidate.acquired c) j && negb (Test (BlockCheckpointCandidate.released c) j);
  pp_encoded : encodes (BlockCheckpointCandidate.acquiredEncoded c) (BlockCheckpointCandidate.acquired c) /\
    encodes (BlockCheckpointCandidate.releasedEncoded c) (BlockCheckpointCandidate.released c);
  pp_blocks :
    blocks_hold (BlockCheckpointCandidate.acquiredBlocks c) (zlen (BlockCheckpointCandidate.acquiredEncoded c)) payload /\
    blocks_hold (BlockCheckpointCandidate.releasedBlocks c) (zlen (BlockCheckpointCandidate.releasedEncoded c)) payload /\
    blocks_hold (BlockCheckpointCandidate.sessionBlocks c) sessionSize payload /\
    BlockCheckpointCandidate.AcquiredAddresses c ++ BlockCheckpointCandidate.ReleasedAddresses c ++
      BlockCheckpointCandidate.SessionAddresses c = BlockCheckpointCandidate.addresses c;
}.

Definition none_held a : Prop := forall j, 0 <= j -> match status a j with BlockHeld _ => False | _ => True end.

(** Taking the snapshot of a checkpoint changes no block. *)
Lemma snapshot_spec a cp cpAcq cpRel generation :
  alloc_wf a -> wf_set cp -> Len cp = Len (acquired a) -> wf_set cpAcq -> Len cpAcq = Len (acquired a) ->
  wf_set cpRel -> Len cpRel = Len (acquired a) -> (forall j, 0 <= j -> Test cp j = Test (pending a) j) ->
  alloc_wf (with_checkpoint a cp cpAcq cpRel generation true).
Proof.
  intros Hw ? ? ? ? ? ? Hcp. pose proof (aw_sets _ Hw) as Hs. unfold sets in Hs. rewrite !Forall_cons in Hs.
  destruct Hs as (? & ? & ? & ? & ? & _).
  split; cbn; [|apply Hw|apply Hw|].
  - unfold sets. cbn. rewrite !Forall_cons, Forall_nil. destruct_and!; by split_and!.
  - intros i Hi. pose proof (aw_bits _ Hw i Hi) as Hc. unfold coherent in *. cbn. rewrite Hcp by done.
    revert Hc. clear. destruct (blockCount a <=? i), (checkpointActive a);
      repeat match goal with |- context [Test ?s i] => destruct (Test s i) end; cbn; done.
Qed.

Lemma copied_spec a s t :
  alloc_wf a -> s ∈ sets a -> wf_set t -> Len t <= Len (acquired a) ->
  let c := copyWords (clearWords s) (words t) in
  wf_set c /\ Len c = Len (acquired a) /\ same_bits_all t c.
Proof.
  intros Hw Hs Ht Hle c. destruct (wf_set_of a s Hw Hs) as [Hsw Es]. destruct (clearWords_spec s Hsw) as (Hcw & Ec & _).
  destruct (copyWords_spec (clearWords s) t Hcw Ht) as (? & ? & ?); [rewrite Ec; lia| |].
  - cbn. by rewrite length_replicate.
  - split_and!; [done|unfold c; lia|done].
Qed.

Lemma install_spec a acq rel :
  alloc_wf a -> wf_set acq -> Len acq = blockCount a -> wf_set rel -> Len rel = blockCount a ->
  let a' := installCheckpointSets a acq rel true in
  alloc_wf a' /\ checkpointActive a' = true /\ (forall j, 0 <= j -> Test (checkpoint a') j = Test (pending a) j).
Proof.
  intros Hw Ha La Hr Lr a'. pose proof (aw_count _ Hw).
  destruct (wf_set_of a (pending a) Hw ltac:(in_sets)) as [Hp Lp].
  destruct (copied_spec a (checkpoint a) (pending a) Hw ltac:(in_sets) Hp ltac:(lia)) as (? & ? & Tcp).
  destruct (copied_spec a (checkpointAcquired a) acq Hw ltac:(in_sets) Ha ltac:(lia)) as (? & ? & _).
  destruct (copied_spec a (checkpointReleased a) rel Hw ltac:(in_sets) Hr ltac:(lia)) as (? & ? & _).
  split_and!; [|done|done]. by apply snapshot_spec.
Qed.

Lemma candidate_addresses (addresses : list Z) x y z :
  0 <= x -> 0 <= y -> 0 <= z -> zlen addresses = x + y + z ->
  slice addresses 0 x ++ slice addresses x (x + y) ++ slice addresses (x + y) (x + y + z) = addresses.
Proof.
  intros Hx Hy Hz Hl. unfold slice, zlen in *. rewrite drop_0.
  rewrite (take_ge (drop (Z.to_nat (x + y)) addresses)) by (rewrite length_drop; lia).
  replace (Z.to_nat (x + y)) with (Z.to_nat x + Z.to_nat (x + y - x))%nat by lia.
  rewrite <- drop_drop, take_drop. replace (Z.to_nat (x - 0)) with (Z.to_nat x) by lia. apply take_drop.
Qed.

(** The candidate of an iteration that needs exactly the addresses it has. *)
Lemma prepared_candidate a0 a addresses acq rel bytesA bytesR sessionSize payload :
  holds a0 a addresses -> none_held a0 ->
  wf_set acq -> Len acq = blockCount a -> wf_set rel -> Len rel = blockCount a ->
  (forall j, 0 <= j -> Test acq j = bool_decide (j + 1 ∈ addresses) || Test (acquired a) j /\
     Test rel j = negb (bool_decide (j + 1 ∈ addresses)) && (Test (released a) j || Test (pending a) j)) ->
  encodes bytesA acq -> encodes bytesR rel ->
  zlen bytesA <= 2 ^ 61 + 8 -> zlen bytesR <= 2 ^ 61 + 8 -> 0 <= sessionSize <= 2 ^ 61 -> 0 < payload <= 2 ^ 62 ->
  zlen addresses = blocksFor (zlen bytesA) payload + blocksFor (zlen bytesR) payload + blocksFor sessionSize payload ->
  let reachable := FixedBitSet.mk (zip_with Z.ldiff (words acq) (words rel)) (blockCount a) in
  let a' := installCheckpointSets a acq rel true in
  prepared a0 a' (BlockCheckpointCandidate.mk (checkpointGeneration a') reachable (blockCount a') acq rel addresses
    (blocksFor (zlen bytesA) payload) (blocksFor (zlen bytesR) payload) (blocksFor sessionSize payload) bytesA bytesR)
    sessionSize payload.
Proof.
  intros Hh Hnone Ha La Hr Lr Hbits Hea Her Hza Hzr Hses Hpay Hlen reachable a'.
  destruct (install_spec a acq rel (ho_wf _ _ _ Hh) Ha La Hr Lr) as (Hw' & Hact & Hcp). fold a' in Hw', Hact, Hcp.
  destruct (zip_spec Z.ldiff (fun x y => x && negb y) acq rel Ha Hr) as [_ Hz];
    [by rewrite La, Lr|intros; apply Z.ldiff_spec|done|intros; by apply ldiff_u64|]. rewrite La in Hz.
  pose proof (zlen_nonneg bytesA). pose proof (zlen_nonneg bytesR).
  change (2 ^ 61) with 2305843009213693952 in *.
  assert (forall j, 0 <= j -> status a' j = status a j) as Hsame by done.
  pose proof (fun j Hj => status_bits a j (ho_wf _ _ _ Hh) Hj) as Hsb.
  assert (forall j, 0 <= j -> Test (pending a) j = bool_decide (status a0 j = BlockPending) /\
    (j + 1 ∉ addresses -> Test (released a) j = bool_decide (status a0 j = BlockReleased) /\
      Test (acquired a) j = negb (bool_decide (status a0 j = BlockFree)))) as Hst.
  { intros j Hj. destruct (Hsb j Hj) as (-> & -> & _ & ->). rewrite (ho_status _ _ _ Hh j Hj).
    destruct (decide (j + 1 ∈ addresses)) as [Ein|Ein]; [rewrite (bool_decide_true (j + 1 ∈ addresses)) by done|rewrite (bool_decide_false (j + 1 ∈ addresses)) by done].
    - split; [|done]. destruct (ho_addresses _ _ _ Hh _ Ein) as [_ Hav]. replace (j + 1 - 1) with j in Hav by lia.
      destruct Hav as [E|E]; by rewrite E.
    - specialize (Hnone j Hj). split; [done|]. intros _. by destruct (status a0 j). }
  assert (0 < payload <= 2 ^ 62) as Hpay' by done.
  destruct (blocksFor_spec (zlen bytesA) payload) as [? ?]; [change (2 ^ 62) with 4611686018427387904; lia|done|].
  destruct (blocksFor_spec (zlen bytesR) payload) as [? ?]; [change (2 ^ 62) with 4611686018427387904; lia|done|].
  destruct (blocksFor_spec sessionSize payload) as [? ?]; [change (2 ^ 62) with 4611686018427387904; lia|done|].
  split; cbn [BlockCheckpointCandidate.addresses BlockCheckpointCandidate.acquired BlockCheckpointCandidate.released
    BlockCheckpointCandidate.reachable BlockCheckpointCandidate.generation BlockCheckpointCandidate.blockCount
    BlockCheckpointCandidate.acquiredEncoded BlockCheckpointCandidate.releasedEncoded
    BlockCheckpointCandidate.acquiredBlocks BlockCheckpointCandidate.releasedBlocks BlockCheckpointCandidate.sessionBlocks].
  - done.
  - intros j Hj. rewrite Hsame by done. by apply (ho_status _ _ _ Hh).
  - split; [apply (ho_nodup _ _ _ Hh)|]. apply (ho_addresses _ _ _ Hh).
  - split; [done|]. intros j Hj. rewrite Hcp by done. apply Hst. done.
  - done.
  - split; [done|]. intros j Hj. destruct (Hbits j Hj) as [-> _]. case_bool_decide as Ein; [done|]. cbn.
    by apply (Hst j Hj).
  - split; [done|]. intros j Hj. destruct (Hbits j Hj) as [_ ->]. case_bool_decide as Ein; [done|]. cbn.
    destruct (Hst j Hj) as [-> Hs]. by destruct (Hs Ein) as [-> _].
  - done.
  - done.
  - split_and!; [done..|]. apply (candidate_addresses addresses (blocksFor (zlen bytesA) payload) (blocksFor (zlen bytesR) payload)
      (blocksFor sessionSize payload)); [lia..|exact Hlen].
Qed.

Section prepare.
Context (a0 : BlockAllocator S) (sessionSize payload : Z).
Hypothesis Hnone : none_held a0.
Hypothesis Hses : 0 < sessionSize <= 2 ^ 61.
Hypothesis Hpay : 0 < payload <= 2 ^ 62.

Definition prepare_outcome (out : option (BlockAllocator S * result block_error BlockCheckpointCandidate)) : Prop :=
  match out with
  | None => 2 ^ 46 < 2 * sessionSize + maximum a0 + 160
  | Some (a', Ok c) => prepared a0 a' c sessionSize payload
  | Some (a', Err _) => holds a0 a' []
  end.

Lemma prepare_loop_spec fuel a addresses :
  holds a0 a addresses -> maximum a = maximum a0 ->
  prepare_outcome (prepare_loop fuel a addresses (blocksFor sessionSize payload) payload).
Proof.
  revert a addresses. induction fuel as [|fuel IH]; intros a addresses Hh Hmax; cbn [prepare_loop].
  { by apply (holds_forfeit_all a0 a []). }
  destruct (checkpointSets_spec a addresses (ho_wf _ _ _ Hh)) as (acq & rel & E & Ha & La & Hr & Lr & Hbits).
  { intros x Hx. split; [by eapply holds_u64|]. by apply (ho_addresses _ _ _ Hh). }
  rewrite E. pose proof (block_count_bound a (ho_wf _ _ _ Hh)) as Hc.
  destruct (encode_spec acq Ha) as (bytesA & -> & HeA & HzA & HlA); [lia|].
  destruct (encode_spec rel Hr) as (bytesR & -> & HeR & HzR & HlR); [lia|]. cbn [mbind option_bind].
  pose proof (zlen_nonneg bytesA). pose proof (zlen_nonneg bytesR).
  destruct (blocksFor_spec (zlen bytesA) payload) as [_ ?]; [change (2 ^ 62) with 4611686018427387904; lia|done|].
  destruct (blocksFor_spec (zlen bytesR) payload) as [_ ?]; [change (2 ^ 62) with 4611686018427387904; lia|done|].
  destruct (blocksFor_spec sessionSize payload) as [_ ?]; [change (2 ^ 62) with 4611686018427387904; lia|done|].
  change (2 ^ 61) with 2305843009213693952 in *.
  rewrite (swrap_small 64 (_ + _ + _)) by width_lia.
  destruct (Z.ltb_spec (zlen addresses) (blocksFor (zlen bytesA) payload + blocksFor (zlen bytesR) payload +
    blocksFor sessionSize payload)).
  - destruct (growPanics _) eqn:Eg.
    { unfold growPanics in Eg. split_bool. pose proof (aw_count _ (ho_wf _ _ _ Hh)). pose proof (aw_maximum _ (ho_wf _ _ _ Hh)).
      change (2 ^ 45) with 35184372088832 in *. cbn [prepare_outcome]. change (2 ^ 46) with 70368744177664. lia. }
    pose proof (holds_reserveMany a0 (Z.to_nat (blocksFor (zlen bytesA) payload + blocksFor (zlen bytesR) payload +
      blocksFor sessionSize payload - zlen addresses)) a addresses Hh) as Hm.
    pose proof (reserveMany_maximum (Z.to_nat (blocksFor (zlen bytesA) payload + blocksFor (zlen bytesR) payload +
      blocksFor sessionSize payload - zlen addresses)) a addresses) as Hm'.
    destruct (reserveMany _ a addresses) as [a2 [l|err]]; [|exact Hm]. apply IH; [apply Hm|]. cbn [fst] in Hm'. congruence.
  - destruct (Z.ltb_spec (blocksFor (zlen bytesA) payload + blocksFor (zlen bytesR) payload +
      blocksFor sessionSize payload) (zlen addresses)).
    + apply IH; [apply holds_forfeit_all; by rewrite take_drop|]. by rewrite forfeitAddresses_maximum.
    + apply prepared_candidate; try done; lia.
Qed.
End prepare.

Lemma count_zero a :
  alloc_wf a -> (FixedBitSet.Count (prefix a (reserved a)) =? 0) = true <-> none_held a.
Proof.
  intros Hw. destruct (prefixes a Hw (reserved a)) as (Hp & _ & Tp); [set_solver|].
  rewrite Z.eqb_eq, Count_members by done. unfold none_held.
  assert (forall j, 0 <= j -> Test (reserved a) j = bool_decide (j ∈ members (prefix a (reserved a)))) as Ht
    by (intros j Hj; by rewrite <- Tp, Test_members).
  split.
  - intros E j Hj. assert (size (members (prefix a (reserved a))) = 0%nat) as Ez by lia. apply size_empty_inv in Ez.
    destruct (status_bits a j Hw Hj) as (_ & _ & Er & _). rewrite Ht in Er by done.
    rewrite bool_decide_false in Er by (rewrite Ez; set_solver).
    by destruct (status a j).
  - intros Hn. rewrite (proj2 (size_empty_iff (members (prefix a (reserved a))))); [done|].
    apply set_equiv. intros j. split; [|set_solver]. intros Hin. pose proof Hin as [[Hj _] _]%elem_members.
    specialize (Ht j Hj). rewrite bool_decide_true in Ht by done.
    destruct (status_bits a j Hw Hj) as (_ & _ & Er & _). specialize (Hn j Hj). rewrite Ht in Er. by destruct (status a j).
Qed.

Lemma PrepareCheckpoint_spec a sessionSize payload :
  alloc_wf a -> 0 <= sessionSize <= 2 ^ 61 -> 0 <= payload <= 2 ^ 62 ->
  match PrepareCheckpoint a sessionSize payload with
  | None => 2 ^ 46 < 2 * sessionSize + maximum a + 160
  | Some (a', Ok c) => prepared a a' c sessionSize payload /\ none_held a /\ checkpointActive a = false
  | Some (a', Err _) => holds a a' []
  end.
Proof.
  intros Hw Hs Hp. unfold PrepareCheckpoint. pose proof (holds_none a Hw) as H0'.
  destruct (checkpointActive a) eqn:Ea; [exact H0'|]. cbn [orb].
  destruct (FixedBitSet.Count (prefix a (reserved a)) =? 0) eqn:Ec; [|exact H0']. cbn [negb].
  pose proof (proj1 (count_zero a Hw) Ec) as Hnone.
  destruct (Z.eqb_spec payload 0), (Z.eqb_spec sessionSize 0); cbn [orb]; [exact H0'..|].
  destruct (blocksFor_spec sessionSize payload) as [_ Hb];
    [change (2 ^ 61) with 2305843009213693952 in *; change (2 ^ 62) with 4611686018427387904; lia|lia|].
  change (2 ^ 61) with 2305843009213693952 in *.
  rewrite (swrap_small 64 (blocksFor sessionSize payload + 2)) by width_lia.
  destruct (growPanics (blocksFor sessionSize payload + 2)) eqn:Eg.
  { unfold growPanics in Eg. split_bool. pose proof (aw_count _ Hw). pose proof (aw_maximum _ Hw).
    change (2 ^ 45) with 35184372088832 in *. change (2 ^ 46) with 70368744177664. lia. }
  pose proof (holds_reserveMany a (Z.to_nat (blocksFor sessionSize payload + 2)) a [] H0') as Hm.
  pose proof (reserveMany_maximum (Z.to_nat (blocksFor sessionSize payload + 2)) a []) as Hm'.
  destruct (reserveMany _ a []) as [a1 [l|err]]; [|exact Hm]. cbn [fst] in Hm'.
  pose proof (prepare_loop_spec a sessionSize payload Hnone ltac:(change (2 ^ 61) with 2305843009213693952; lia) ltac:(lia)
    64 a1 l (proj1 Hm) Hm') as Ho.
  destruct (prepare_loop 64 a1 l _ _) as [[a' [c|err]]|]; done.
Qed.
End checkpoints.
