(* ===== verification/BlockSafety.v ===== *)
(** * Safety of the block allocator

    The allocator as a system: its operations in any order, the checkpoint
    being prepared, and the blocks the durable checkpoint refers to.  The
    theorems describe every operation and show that a block of the durable
    checkpoint is never handed out. *)

From S2P Require Import Prelude Bytes Arith Config Ewah Storage Checkpoint.
From S2P Require Import BlockAllocator BlockStates BlockReserve BlockCheckpoints.
Import BlockAllocator.

Section safety.
Context {S : Type} `{Storage S, Resizable S}.
Implicit Types a : BlockAllocator S.

(** ** The end of a checkpoint *)

Lemma release_blocks n a :
  alloc_wf a -> (n <= Z.to_nat (blockCount a))%nat ->
  let a' := fold_left releaseBlock (seqZ 0 (Z.of_nat n)) a in
  a' = with_sets a (acquired a) (released a') (reserved a) (pending a') (reservedReleased a) /\
  wf_set (released a') /\ Len (released a') = Len (acquired a) /\ wf_set (pending a') /\ Len (pending a') = Len (acquired a) /\
  forall j, 0 <= j ->
    Test (released a') j = Test (released a) j || ((j <? Z.of_nat n) && Test (checkpoint a) j) /\
    Test (pending a') j = Test (pending a) j && negb ((j <? Z.of_nat n) && Test (checkpoint a) j).
Proof.
  intros Hw. induction n as [|n IH]; intros Hn.
  { change (Z.of_nat 0) with 0. change (seqZ 0 0) with (@nil Z). cbn [fold_left].
    destruct (wf_set_of a (released a) Hw ltac:(in_sets)), (wf_set_of a (pending a) Hw ltac:(in_sets)).
    split_and!; try done; [by destruct a|]. intros j Hj. rewrite (proj2 (Z.ltb_ge j 0)) by done. cbn.
    by rewrite orb_false_r, andb_true_r. }
  rewrite Nat2Z.inj_succ, <- Z.add_1_r, seqZ_app, fold_left_app by lia. rewrite Z.add_0_l.
  specialize (IH ltac:(lia)). set (b := fold_left releaseBlock (seqZ 0 (Z.of_nat n)) a) in *.
  assert (seqZ (Z.of_nat n) 1 = [Z.of_nat n]) as -> by (unfold seqZ; cbn; f_equal; lia). cbn [fold_left]. cbn zeta in IH.
  destruct IH as (Eb & Hr & Lr & Hp & Lp & Hbits). pose proof (aw_count _ Hw).
  assert (checkpoint b = checkpoint a) as Ecp by by rewrite Eb.
  unfold releaseBlock. rewrite Ecp. destruct (Test (checkpoint a) (Z.of_nat n)) eqn:Et; cbn [negb].
  - cbn [released pending with_sets]. split_and!.
    + rewrite Eb. done.
    + apply wf_setBit; [done|lia].
    + by rewrite Len_setBit.
    + apply wf_clearBit; [done|lia].
    + by rewrite Len_clearBit.
    + intros j Hj. rewrite Test_setBit, Test_clearBit by (done || lia). destruct (Hbits j Hj) as [-> ->].
      destruct (Z.eqb_spec j (Z.of_nat n)) as [->|Hne].
      * rewrite (proj2 (Z.ltb_lt (Z.of_nat n) (Z.of_nat n + 1))), Et by lia. cbn.
        by rewrite orb_true_r, andb_false_r.
      * assert ((j <? Z.of_nat n + 1) = (j <? Z.of_nat n)) as -> by (destruct (Z.ltb_spec j (Z.of_nat n + 1)), (Z.ltb_spec j (Z.of_nat n)); lia || done).
        done.
  - split_and!; try done. intros j Hj. destruct (Hbits j Hj) as [-> ->].
    destruct (Z.eqb_spec j (Z.of_nat n)) as [->|Hne]; [by rewrite Et, !andb_false_r|].
    by assert ((j <? Z.of_nat n + 1) = (j <? Z.of_nat n)) as -> by (destruct (Z.ltb_spec j (Z.of_nat n + 1)), (Z.ltb_spec j (Z.of_nat n)); lia || done).
Qed.

(** Sets that describe the blocks coherently, the snapshot cleared. *)
Lemma end_wf a rel pen :
  alloc_wf a -> wf_set rel -> Len rel = Len (acquired a) -> wf_set pen -> Len pen = Len (acquired a) ->
  (forall j, 0 <= j -> exists b : bool, implb b (Test (checkpoint a) j) = true /\
     Test rel j = Test (released a) j || b /\ Test pen j = Test (pending a) j && negb b) ->
  let a' := endCheckpoint (with_sets a (acquired a) rel (reserved a) pen (reservedReleased a)) in
  alloc_wf a' /\ checkpointActive a' = false /\
  forall j, 0 <= j -> status a' j = if Test rel j && negb (Test (released a) j) then BlockReleased else status a j.
Proof.
  intros Hw Hr Lr Hp Lp Hb a'. pose proof (aw_sets _ Hw) as Hs. unfold sets in Hs. rewrite !Forall_cons in Hs.
  destruct Hs as ([? ?] & _ & [? ?] & _ & [? ?] & [Hc Lc] & [Hca Lca] & [Hcr Lcr] & _).
  destruct (clearWords_spec _ Hc) as (? & ? & Tc), (clearWords_spec _ Hca) as (? & ? & _), (clearWords_spec _ Hcr) as (? & ? & _).
  split_and!; [|done|].
  - split; cbn; [|apply Hw|apply Hw|].
    + unfold sets. cbn. rewrite !Forall_cons, Forall_nil. split_and!; done || congruence.
    + intros i Hi. pose proof (aw_bits _ Hw i Hi) as Hco. destruct (Hb i Hi) as (b & Hcp & Er & Ep).
      unfold coherent in *. cbn. rewrite Tc, Er, Ep by done. revert Hco Hcp. clear.
      destruct (blockCount a <=? i), (checkpointActive a), b;
        repeat match goal with |- context [Test ?s i] => destruct (Test s i) end; cbn; done.
  - intros i Hi. pose proof (aw_bits _ Hw i Hi) as Hco. destruct (Hb i Hi) as (b & Hcp & Er & Ep).
    unfold coherent, status in *. cbn. rewrite Er, Ep. revert Hco Hcp. clear.
    destruct b; repeat match goal with |- context [Test ?s i] => destruct (Test s i) end; cbn; done.
Qed.

Lemma durable_spec a candidate reachable a' :
  alloc_wf a -> CheckpointDurable a candidate reachable = (a', Ok tt) ->
  let count := BlockCheckpointCandidate.blockCount candidate in
  alloc_wf a' /\ checkpointActive a = true /\ checkpointActive a' = false /\ count <= blockCount a /\
  blockCount a' = blockCount a /\
  (exists r, reachable = Some r /\ count <= Len r /\ forall j, 0 <= j < count -> Test (checkpoint a) j = true -> Test r j = false) /\
  (forall address, address ∈ BlockCheckpointCandidate.addresses candidate -> publishedAt a address = true) /\
  forall j, 0 <= j -> status a' j = if (j <? count) && Test (checkpoint a) j then BlockReleased else status a j.
Proof.
  intros Hw E count. unfold CheckpointDurable in E. fold count in E.
  destruct (_ || _ || _) eqn:Eg in E; [done|]. split_bool.
  destruct reachable as [r|]; [|done]. destruct (Z.ltb_spec (Len r) count); [done|].
  destruct (forallb _ _) eqn:Ef in E; cbn [negb] in E; [|done].
  destruct (existsb _ _) eqn:Ex in E; [done|]. injection E as <-.
  assert (forall j, 0 <= j < count -> Test (checkpoint a) j = true -> Test r j = false) as Hreach.
  { intros j Hj Hc. destruct (Test r j) eqn:Er; [|done]. exfalso. apply not_true_iff_false in Ex. apply Ex.
    apply existsb_exists. exists j. split; [apply list_elem_of_In, elem_of_seqZ; lia|]. by rewrite Hc, Er. }
  assert (forall address, address ∈ BlockCheckpointCandidate.addresses candidate -> publishedAt a address = true) as Hpub.
  { intros x Hx. rewrite forallb_forall in Ef. by apply Ef, list_elem_of_In. }
  destruct (release_blocks (Z.to_nat count) a Hw ltac:(lia)) as (Ea & Hr & Lr & Hp & Lp & Hb).
  assert (seqZ 0 (Z.of_nat (Z.to_nat count)) = seqZ 0 count) as Eseq.
  { destruct (decide (0 <= count)); [by rewrite Z2Nat.id|]. rewrite !seqZ_nil; lia || done. }
  rewrite Eseq in *. set (b := fold_left releaseBlock (seqZ 0 count) a) in *. rewrite Ea.
  assert (forall j, 0 <= j -> (j <? Z.of_nat (Z.to_nat count)) = (j <? count)) as El.
  { intros j Hj. destruct (Z.ltb_spec j count), (Z.ltb_spec j (Z.of_nat (Z.to_nat count))); lia || done. }
  destruct (end_wf a (released b) (pending b) Hw Hr Lr Hp Lp) as (Hw' & Hact & Hst).
  { intros j Hj. destruct (Hb j Hj) as [-> ->]. rewrite El by done. exists ((j <? count) && Test (checkpoint a) j).
    split; [|done]. by destruct (j <? count), (Test (checkpoint a) j). }
  split_and!; try done; [by exists r|]. intros j Hj. rewrite Hst by done. destruct (Hb j Hj) as [-> _]. rewrite El by done.
  pose proof (aw_bits _ Hw j Hj) as Hc. destruct (status_bits a j Hw Hj) as (_ & _ & _ & _). unfold coherent in Hc. revert Hc. clear.
  destruct (j <? count); repeat match goal with |- context [Test ?s j] => destruct (Test s j) end; cbn; done.
Qed.

Definition inUse (st : block_state) : Prop := st = BlockLive \/ st = BlockPending.

(** What every operation but the end of a checkpoint guarantees: blocks in use
    stay in use, and the snapshot stays. *)
Definition keeps a a' : Prop :=
  alloc_wf a' /\ (forall j, 0 <= j -> inUse (status a j) -> inUse (status a' j)) /\
  checkpointActive a' = checkpointActive a /\ (forall j, 0 <= j -> Test (checkpoint a') j = Test (checkpoint a) j) /\
  blockCount a <= blockCount a' /\ checkpointGeneration a' = checkpointGeneration a.

Lemma keeps_trans a b c : keeps a b -> keeps b c -> keeps a c.
Proof.
  intros (_ & HU1 & HA1 & HC1 & ? & ?) (HW & HU2 & HA2 & HC2 & ? & ?). split_and!; [done|auto|congruence| |lia|congruence].
  intros j Hj. by rewrite HC2, HC1.
Qed.

Lemma moves_keeps a address out from :
  alloc_wf a -> alloc_wf out.1 -> moves a address out from -> checkpointGeneration out.1 = checkpointGeneration a ->
  (forall st to, from st = Some to -> inUse st -> inUse to) -> keeps a out.1.
Proof.
  intros Hw Hw' Hm Hg Hf. unfold moves in Hm. destruct (if _ : bool then _ else _) as [to|] eqn:Et.
  2:{ rewrite Hm. by split_and!. }
  destruct Hm as (_ & Hi & Hoth & Ec & Ea & Ecp). destruct (_ && _) eqn:Er in Et; [|done].
  split_and!; [done| |done|by rewrite Ecp|by rewrite Ec|done].
  intros j Hj Hu. destruct (decide (j = address - 1)) as [->|Hne]; [|by rewrite Hoth].
  rewrite Hi. by eapply Hf.
Qed.

Lemma Publish_keeps a address : alloc_wf a -> is_u64 address -> keeps a (Publish a address).1.
Proof.
  intros Hw Ha. destruct (Publish_moves a address Hw Ha) as [Hm Hw']. apply (moves_keeps _ _ _ _ Hw Hw' Hm).
  - unfold Publish. by repeat case_match.
  - intros [] ? [= <-] []; done.
Qed.

Lemma Forfeit_keeps a address : alloc_wf a -> is_u64 address -> keeps a (Forfeit a address).1.
Proof.
  intros Hw Ha. destruct (Forfeit_moves a address Hw Ha) as [Hm Hw']. apply (moves_keeps _ _ _ _ Hw Hw' Hm).
  - unfold Forfeit. by repeat case_match.
  - intros [] ? [= <-] []; done.
Qed.

Lemma Release_keeps a address : alloc_wf a -> is_u64 address -> keeps a (Release a address).1.
Proof.
  intros Hw Ha. destruct (Release_moves a address Hw Ha) as [Hm Hw']. apply (moves_keeps _ _ _ _ Hw Hw' Hm).
  - unfold Release. by repeat case_match.
  - intros [] ? [= <-] ?; by right.
Qed.

Lemma cancelRelease_keeps a address :
  alloc_wf a -> checkpointActive a = false -> is_u64 address -> keeps a (cancelRelease a address).1.
Proof.
  intros Hw Hact Ha. destruct (cancelRelease_moves a address Hw Hact Ha) as [Hm Hw']. apply (moves_keeps _ _ _ _ Hw Hw' Hm).
  - unfold cancelRelease. by repeat case_match.
  - intros [] ? [= <-] ?; by left.
Qed.

Lemma ensure_generation a required a' :
  ensureCapacity a required = Ok a' -> checkpointGeneration a' = checkpointGeneration a.
Proof.
  unfold ensureCapacity. intros E. destruct (_ <=? _); [by injection E as <-|].
  repeat (apply result_bind_Ok in E as (? & _ & E)). by injection E as <-.
Qed.

Lemma Reserve_keeps a : alloc_wf a -> keeps a (Reserve a).1.
Proof.
  intros Hw. assert (checkpointGeneration (Reserve a).1 = checkpointGeneration a) as Hg.
  { unfold Reserve. repeat (case_match; try done); match goal with E : ensureCapacity _ _ = Ok _ |- _ =>
      cbn; by apply ensure_generation in E end. }
  pose proof (Reserve_spec a Hw) as Hr. destruct (Reserve a) as [a' [addr|err]]; destruct Hr as [Hw' Hr]; cbn [fst] in *.
  - destruct Hr as (i & _ & Hb). split_and!; [done| |by apply Hb|by apply Hb|destruct (rb_extent _ _ _ Hb) as [(_ & -> & _)|(_ & -> & _)]; lia|done].
    intros j Hj Hu. destruct (decide (j = i)) as [->|]; [|by rewrite (rb_others _ _ _ Hb)].
    destruct (rb_available _ _ _ Hb) as [E|E]; rewrite E in Hu; by destruct Hu.
  - destruct Hr as [(Hst & Ec & _ & Ea & Hcp) _]. split_and!; try done; [|by rewrite Ec].
    intros j Hj. by rewrite Hst.
Qed.

(** [AbortCheckpoint] returns the blocks it held and gives up those already
    published; given distinct addresses in range it cannot fail. *)
Definition abandoned (st : block_state) : block_state :=
  match st with BlockHeld wasReleased => if wasReleased then BlockReleased else BlockFree | BlockLive => BlockPending | _ => st end.

Lemma abort_spec addresses a :
  alloc_wf a -> NoDup addresses -> Forall (fun x => is_u64 x /\ 1 <= x <= blockCount a) addresses ->
  let '(a', r) := abort_loop a addresses in
  r = Ok tt /\ keeps a a' /\
  forall j, 0 <= j -> status a' j = if bool_decide (j + 1 ∈ addresses) then abandoned (status a j) else status a j.
Proof.
  revert a. induction addresses as [|x l IH]; intros a Hw Hd Hr; cbn [abort_loop].
  { split_and!; try done; by rewrite ?bool_decide_false by apply not_elem_of_nil. }
  apply NoDup_cons in Hd as [Hx Hd]. apply Forall_cons in Hr as [[Hu Hx'] Hl].
  rewrite (proj2 (index_spec a x (x - 1) Hu)) by lia.
  assert (forall a1, alloc_wf a1 -> keeps a a1 -> status a1 (x - 1) = abandoned (status a (x - 1)) ->
    (forall j, 0 <= j -> j <> x - 1 -> status a1 j = status a j) ->
    let '(a', r) := abort_loop a1 l in
    r = Ok tt /\ keeps a a' /\
    forall j, 0 <= j -> status a' j = if bool_decide (j + 1 ∈ x :: l) then abandoned (status a j) else status a j) as Hstep.
  { intros a1 Hw1 Hk Hi Hoth. specialize (IH a1 Hw1 Hd). destruct (abort_loop a1 l) as [a' r].
    destruct IH as (-> & Hk' & Hs); [eapply Forall_impl; [exact Hl|]; intros y [? ?]; split; [done|]; destruct_and! Hk; lia|].
    split_and!; [done|by eapply keeps_trans|]. intros j Hj. rewrite Hs by done.
    destruct (decide (j = x - 1)) as [->|Hne].
    - rewrite Z.sub_add, bool_decide_false, bool_decide_true by set_solver. done.
    - rewrite Hoth by done. rewrite (bool_decide_ext (j + 1 ∈ x :: l) (j + 1 ∈ l)); [done|].
      rewrite elem_of_cons. split; [|by right]. intros [|]; [lia|done]. }
  destruct (status_bits a (x - 1) Hw ltac:(lia)) as (-> & -> & -> & ->).
  destruct (Forfeit_moves a x Hw Hu) as [Hf Hwf]. destruct (Release_moves a x Hw Hu) as [Hm Hwm]. unfold moves in *.
  rewrite (proj2 (Z.leb_le 0 (x - 1))), (proj2 (Z.ltb_lt (x - 1) (blockCount a))) in * by lia. cbn [andb] in *.
  pose proof (Forfeit_keeps a x Hw Hu) as Kf. pose proof (Release_keeps a x Hw Hu) as Kr.
  destruct (status a (x - 1)) as [|w| | |] eqn:Est; cbn in *.
  2:{ destruct (Forfeit a x) as [a1 r]. cbn in *. destruct Hf as (-> & ? & ? & _). by apply Hstep. }
  2:{ destruct (Release a x) as [a1 r]. cbn in *. destruct Hm as (-> & ? & ? & _). by apply Hstep. }
  all: by apply Hstep.
Qed.

Lemma end_keeps a : alloc_wf a ->
  alloc_wf (endCheckpoint a) /\ checkpointActive (endCheckpoint a) = false /\
  forall j, 0 <= j -> status (endCheckpoint a) j = status a j.
Proof.
  intros Hw. destruct (wf_set_of a (released a) Hw ltac:(in_sets)), (wf_set_of a (pending a) Hw ltac:(in_sets)).
  destruct (end_wf a (released a) (pending a) Hw) as (Hw' & Ha & _); try done.
  intros j Hj. exists false. by rewrite orb_false_r, andb_true_r.
Qed.

Lemma BeginCheckpoint_spec a a' c :
  alloc_wf a -> BeginCheckpoint a = (a', Ok c) ->
  alloc_wf a' /\ none_held a /\ checkpointActive a = false /\ checkpointActive a' = true /\
  (forall j, 0 <= j -> status a' j = status a j) /\
  BlockCheckpointCandidate.addresses c = [] /\ BlockCheckpointCandidate.blockCount c = blockCount a' /\
  BlockCheckpointCandidate.generation c = checkpointGeneration a' /\
  forall j, 0 <= j -> Test (checkpoint a') j = Test (pending a) j /\
    Test (BlockCheckpointCandidate.acquired c) j = Test (acquired a) j /\
    Test (BlockCheckpointCandidate.released c) j = Test (released a) j || Test (pending a) j.
Proof.
  intros Hw E. unfold BeginCheckpoint in E. destruct (checkpointActive a) eqn:Ea; [done|]. cbn [orb] in E.
  destruct (FixedBitSet.Count _ =? 0) eqn:Ec in E; [|done]. cbn [negb] in E. pose proof (proj1 (count_zero a Hw) Ec) as Hn.
  injection E as <- <-.
  destruct (wf_set_of a (pending a) Hw ltac:(in_sets)) as [Hp Lp], (wf_set_of a (acquired a) Hw ltac:(in_sets)) as [Hac _],
    (wf_set_of a (released a) Hw ltac:(in_sets)) as [Hr Lr].
  destruct (copied_spec a (checkpoint a) (pending a) Hw ltac:(in_sets) Hp ltac:(lia)) as (Hcp & Lcp & Tcp).
  destruct (copied_spec a (checkpointAcquired a) (acquired a) Hw ltac:(in_sets) Hac ltac:(lia)) as (Hca & Lca & Tca).
  destruct (copied_spec a (checkpointReleased a) (released a) Hw ltac:(in_sets) Hr ltac:(lia)) as (Hcr & Lcr & Tcr).
  set (cp := copyWords (clearWords (checkpoint a)) _) in *. set (cpAcq := copyWords (clearWords (checkpointAcquired a)) _) in *.
  set (rel := copyWords (clearWords (checkpointReleased a)) _) in *.
  destruct (zip_spec Z.lor orb rel cp Hcr Hcp) as [Hz Tz]; [by rewrite Lcp|intros; apply Z.lor_spec|done|apply lor_u64|].
  set (cpRel := FixedBitSet.mk _ _) in *.
  set (b := with_checkpoint a cp cpAcq cpRel (u64 (checkpointGeneration a + 1)) true).
  assert (alloc_wf b) as Hwb by by apply snapshot_spec.
  assert (forall j, 0 <= j -> Test cpRel j = Test (released a) j || Test (pending a) j) as Tcr'
    by (intros j Hj; by rewrite Tz, Tcr, Tcp).
  destruct (prefix_spec b cpAcq Hwb ltac:(in_sets)) as (_ & _ & T1).
  { intros j Hj. rewrite Tca by done. apply (in_count a); [done|set_solver|done]. }
  destruct (prefix_spec b cpRel Hwb ltac:(in_sets)) as (_ & _ & T2).
  { intros j Hj. rewrite Tcr', orb_true_iff by done. intros [Ht|Ht]; eapply (in_count a); try done; set_solver. }
  split_and!; try done. intros j Hj. split_and!; [by apply Tcp|by etrans; [apply T1|apply Tca]|by etrans; [apply T2|apply Tcr']].
Qed.

(** ** Opening *)

Lemma open_capacity count maximum :
  0 <= count <= maximum -> maximum <= 2 ^ 63 -> count <= allocatorBitCapacity count maximum <= maximum.
Proof.
  intros Hc Hm. destruct (decide (count = 0)) as [->|]; [|apply capacity_spec; lia].
  unfold allocatorBitCapacity. destruct (Z.eqb_spec maximum 0); [lia|].
  change (Z.min _ _) with (Z.min maximum 4096). lia.
Qed.

Lemma newSet_spec n s :
  is_u64 n -> newSet n = Ok s ->
  wf_set s /\ Len s = n /\ words s = replicate (length (words s)) 0 /\ forall j, 0 <= j -> Test s j = false.
Proof.
  intros Hn E. unfold newSet in E. destruct (FixedBitSet.NewFixedBitSet n) as [t|] eqn:En; [|done]. injection E as ->.
  destruct (New_members n s Hn En) as (Hw & El & Em). split_and!; try done.
  - unfold FixedBitSet.NewFixedBitSet in En. step_guards En. injection En as <-. cbn. by rewrite length_replicate.
  - intros j Hj. rewrite Test_members, Em by done. apply bool_decide_false. set_solver.
Qed.

Definition opened acq rel (j : Z) : block_state :=
  if Test rel j then BlockReleased else if Test acq j then BlockLive else BlockFree.

Lemma Open_spec stored storage cluster process state acq rel a :
  ClusterConfig.typed cluster -> is_u64 (ProcessConfig.StorageSizeLimit process) ->
  is_u64 (CheckpointState.LogicalStorageSize state) -> 2 <= ClusterConfig.BlockSize cluster -> wf_set acq -> wf_set rel ->
  OpenBlockAllocator stored storage cluster process state acq rel = Ok a ->
  alloc_wf a /\ checkpointActive a = false /\ forall j, 0 <= j -> status a j = opened acq rel j.
Proof.
  intros Ht Hlim Hlog Hsize Ha Hr E. unfold OpenBlockAllocator in E.
  destruct (BlockBase cluster) as [base|] eqn:Eb; [|done]. destruct (BlockBase_Some _ _ Ht Eb) as (_ & Hbase & _).
  set (limit := ProcessConfig.StorageSizeLimit process) in *. set (log := CheckpointState.LogicalStorageSize state) in *.
  set (size := ClusterConfig.BlockSize cluster) in *. do 3 (destruct (_ || _) eqn:?Eg in E; [done|]). split_bool.
  rewrite (uwrap_small 64 (log - base)), (uwrap_small 64 (limit - base)) in * by width_lia.
  set (count := (log - base) / size) in *. set (maximum := (limit - base) / size) in *.
  assert (0 <= count <= maximum) as Hcount by (split; [apply Z.div_pos|apply Z.div_le_mono]; lia).
  assert (maximum <= 2 ^ 63) as Hmax by (apply Z.div_le_upper_bound; [lia|]; change (2 ^ 63) with 9223372036854775808; width_lia).
  pose proof (open_capacity count maximum Hcount Hmax) as Hcap.
  destruct (newSet _) as [e|] eqn:En in E; [|done]. cbn [mbind result_bind] in E.
  assert (is_u64 (allocatorBitCapacity count maximum)) as Hcu by (change (2 ^ 63) with 9223372036854775808 in *; width_lia).
  destruct (newSet_spec _ e Hcu En) as (Hwe & Le & Ee & Te).
  destruct (copyWords_spec e acq Hwe Ha ltac:(lia) Ee) as (Hwa & La & Ta).
  destruct (copyWords_spec e rel Hwe Hr ltac:(lia) Ee) as (Hwr & Lr & Tr).
  destruct (existsb _ _) eqn:Ex in E; [done|]. injection E as <-. split_and!; [|done|].
  - split; cbn; [|lia|lia|].
    + unfold sets. cbn. rewrite !Forall_cons, Forall_nil. by split_and!.
    + intros i Hi. unfold coherent. cbn. rewrite !Te, Ta, Tr by done.
      assert (Test rel i = true -> Test acq i = true) as Himp.
      { intros Hti. pose proof (Test_range _ _ Hti). destruct (Test acq i) eqn:Etai; [done|].
        apply not_true_iff_false in Ex. exfalso. apply Ex, existsb_exists. exists i.
        split; [apply list_elem_of_In, elem_of_seqZ; lia|]. by rewrite Ta, Tr, Hti, Etai. }
      assert (count <= i -> Test acq i = false) as Hout
        by (intros ?; destruct (Test acq i) eqn:Et; [apply Test_range in Et; lia|done]).
      destruct (Z.leb_spec count i); [rewrite Hout in * by done|]; destruct (Test rel i), (Test acq i); naive_solver.
  - intros j Hj. unfold status. cbn. by rewrite !Te, Ta, Tr by done.
Qed.

(** ** The allocator as a system *)

(** The allocator, the checkpoint being prepared and the blocks the durable
    checkpoint refers to. *)
Record system := System {
  allocator : BlockAllocator S;
  candidate : option BlockCheckpointCandidate;
  durable : Z -> bool;
}.

(** The blocks a checkpoint refers to once it is durable. *)
Definition refers (c : BlockCheckpointCandidate) (j : Z) : bool :=
  Test (BlockCheckpointCandidate.acquired c) j && negb (Test (BlockCheckpointCandidate.released c) j).

(** A fresh allocator has no checkpoint in progress. *)
Inductive initial : system -> Prop :=
| initial_open stored storage cluster process state acq rel a :
    ClusterConfig.typed cluster -> is_u64 (ProcessConfig.StorageSizeLimit process) ->
    is_u64 (CheckpointState.LogicalStorageSize state) -> 2 <= ClusterConfig.BlockSize cluster ->
    wf_set acq -> wf_set rel -> OpenBlockAllocator stored storage cluster process state acq rel = Ok a ->
    initial (System a None (fun j => Test acq j && negb (Test rel j))).

(** The calls, each with the outcome it has, a failure included.  Only
    [cancelRelease] has a condition on when it is called: it undoes releases
    before a checkpoint is prepared or after it is aborted. *)
Inductive step (s : system) : system -> Prop :=
| step_reserve : step s (System (Reserve (allocator s)).1 (candidate s) (durable s))
| step_publish x : is_u64 x -> step s (System (Publish (allocator s) x).1 (candidate s) (durable s))
| step_forfeit x : is_u64 x -> step s (System (Forfeit (allocator s) x).1 (candidate s) (durable s))
| step_release x : is_u64 x -> step s (System (Release (allocator s) x).1 (candidate s) (durable s))
| step_cancel x : is_u64 x -> candidate s = None ->
    step s (System (cancelRelease (allocator s) x).1 None (durable s))
| step_prepare sessionSize payload a r :
    0 <= sessionSize <= 2 ^ 61 -> 0 <= payload <= 2 ^ 62 ->
    PrepareCheckpoint (allocator s) sessionSize payload = Some (a, r) ->
    step s (System a (match r with Ok c => Some c | Err _ => candidate s end) (durable s))
| step_begin a r :
    BeginCheckpoint (allocator s) = (a, r) ->
    step s (System a (match r with Ok c => Some c | Err _ => candidate s end) (durable s))
| step_durable c reachable a r :
    candidate s = Some c -> CheckpointDurable (allocator s) c reachable = (a, r) ->
    step s (match r with Ok _ => System a None (refers c) | Err _ => System a (Some c) (durable s) end)
| step_abort c a r :
    candidate s = Some c -> AbortCheckpoint (allocator s) c = (a, r) ->
    step s (System a (match r with Ok _ => None | Err _ => Some c end) (durable s)).

Definition reachable (s : system) : Prop := exists s0, initial s0 /\ rtc step s0 s.

(** The checkpoint being prepared refers to blocks held for it and to blocks
    in use that its completion does not release. *)
Definition candidate_ok a (c : BlockCheckpointCandidate) : Prop :=
  checkpointActive a = true /\ BlockCheckpointCandidate.generation c = checkpointGeneration a /\
  NoDup (BlockCheckpointCandidate.addresses c) /\
  (forall x, x ∈ BlockCheckpointCandidate.addresses c -> 1 <= x <= blockCount a) /\
  BlockCheckpointCandidate.blockCount c <= blockCount a /\
  forall j, 0 <= j -> refers c j = true ->
    j + 1 ∈ BlockCheckpointCandidate.addresses c \/ inUse (status a j) /\ Test (checkpoint a) j = false.

Record sys_inv (s : system) : Prop := {
  si_wf : alloc_wf (allocator s);
  si_durable : forall j, 0 <= j -> durable s j = true -> inUse (status (allocator s) j);
  si_candidate : match candidate s with
    | None => checkpointActive (allocator s) = false
    | Some c => candidate_ok (allocator s) c
    end;
}.

Lemma keeps_inv s a : keeps (allocator s) a -> sys_inv s -> sys_inv (System a (candidate s) (durable s)).
Proof.
  intros (Hw & Hu & Ha & Hcp & Hc & Hg) Hs. split; cbn; [done|intros; by apply Hu, Hs|].
  pose proof (si_candidate _ Hs) as Hcand. destruct (candidate s) as [c|]; [|congruence].
  destruct Hcand as (? & ? & ? & Hx & ? & Hr). split_and!; try (congruence || lia || done).
  - intros x Hin. specialize (Hx x Hin). lia.
  - intros j Hj Hrj. destruct (Hr j Hj Hrj) as [|[? ?]]; [by left|right]. rewrite Hcp by done. auto.
Qed.

Lemma published_live a x : alloc_wf a -> is_u64 x -> publishedAt a x = true <-> 1 <= x <= blockCount a /\ status a (x - 1) = BlockLive.
Proof.
  intros Hw Hu. unfold publishedAt. pose proof (index_spec a x) as Hi. destruct (index a x) as [i|].
  - destruct (proj1 (Hi i Hu) eq_refl) as [-> ?]. replace (i + 1 - 1) with i by lia.
    destruct (status_bits a i Hw ltac:(lia)) as (-> & -> & -> & ->).
    destruct (status a i) as [|[]| | |]; cbn; naive_solver lia.
  - split; [done|]. intros [? _]. specialize (Hi (x - 1) Hu). destruct Hi as [_ Hi]. discriminate Hi. lia.
Qed.

Lemma prepared_ok a0 a c sessionSize payload : prepared a0 a c sessionSize payload -> none_held a0 -> candidate_ok a c.
Proof.
  intros Hp Hn. destruct (pp_generation _ _ _ _ _ Hp) as [Eg Ec]. destruct (pp_addresses _ _ _ _ _ Hp) as [Hd Hx].
  destruct (pp_snapshot _ _ _ _ _ Hp) as [Ha Hcp].
  split_and!; try done; [by intros; apply Hx|lia|]. intros j Hj Hr. unfold refers in Hr.
  rewrite (proj2 (pp_acquired _ _ _ _ _ Hp)), (proj2 (pp_released _ _ _ _ _ Hp)) in Hr by done.
  rewrite Hcp, (pp_held _ _ _ _ _ Hp) by done. specialize (Hn j Hj).
  case_bool_decide; [by left|right]. unfold inUse. destruct (status a0 j); naive_solver.
Qed.

Lemma begun_ok a a' c : alloc_wf a -> BeginCheckpoint a = (a', Ok c) -> candidate_ok a' c.
Proof.
  intros Hw E. destruct (BeginCheckpoint_spec a a' c Hw E) as (Hw' & Hn & _ & Ha & Hs & Ex & Ec & Eg & Hb).
  unfold candidate_ok. rewrite Ex. split_and!; try done; [constructor|by intros ? ?%not_elem_of_nil|lia|].
  intros j Hj Hr. right. unfold refers in Hr. destruct (Hb j Hj) as (-> & Ea & Er). rewrite Ea, Er in Hr. rewrite Hs by done.
  specialize (Hn j Hj). destruct (status_bits a j Hw Hj) as (Ep & El & _ & Eq). rewrite Ep, El, Eq in Hr. rewrite Ep.
  unfold inUse. destruct (status a j); naive_solver.
Qed.

Lemma prepare_busy a sessionSize payload out r :
  checkpointActive a = true -> PrepareCheckpoint a sessionSize payload = Some (out, r) -> out = a /\ exists e, r = Err e.
Proof. unfold PrepareCheckpoint. intros -> E. injection E as <- <-. eauto. Qed.

Lemma begin_fails a a' e : BeginCheckpoint a = (a', Err e) -> a' = a.
Proof. unfold BeginCheckpoint. case_match; [by intros [= <- <-]|done]. Qed.

Lemma durable_fails a c reach a' e : CheckpointDurable a c reach = (a', Err e) -> a' = a.
Proof. unfold CheckpointDurable. repeat case_match; congruence. Qed.

Lemma candidate_abort a c :
  alloc_wf a -> candidate_ok a c ->
  let '(a', r) := AbortCheckpoint a c in
  r = Ok tt /\ alloc_wf a' /\ checkpointActive a' = false /\ (forall j, 0 <= j -> inUse (status a j) -> inUse (status a' j)) /\
  forall j, 0 <= j -> status a' j =
    if bool_decide (j + 1 ∈ BlockCheckpointCandidate.addresses c) then abandoned (status a j) else status a j.
Proof.
  intros Hw (Ha & Hg & Hd & Hx & _). unfold AbortCheckpoint. rewrite Ha, Hg, Z.eqb_refl. cbn [negb orb].
  pose proof (abort_spec (BlockCheckpointCandidate.addresses c) a Hw Hd) as Hs. pose proof (block_count_bound a Hw).
  destruct (abort_loop a _) as [a1 r]. destruct Hs as (-> & (Hw1 & Hu & _) & Hs).
  { apply Forall_forall. intros x Hin. specialize (Hx x Hin). change (2 ^ 63) with 9223372036854775808 in *. split; width_lia. }
  destruct (end_keeps a1 Hw1) as (Hw' & Ha' & He). split_and!; try done; intros j Hj; rewrite He by done; auto.
Qed.

Lemma candidate_durable a c reach a' :
  alloc_wf a -> candidate_ok a c -> CheckpointDurable a c reach = (a', Ok tt) ->
  alloc_wf a' /\ checkpointActive a' = false /\ forall j, 0 <= j -> refers c j = true -> inUse (status a' j).
Proof.
  intros Hw (_ & _ & _ & Hx & _ & Hr) E.
  destruct (durable_spec a c reach a' Hw E) as (Hw' & _ & Ha & _ & _ & _ & Hp & Hs). split_and!; try done.
  intros j Hj Hrj. rewrite Hs by done. destruct (Hr j Hj Hrj) as [Hin|[Hu ->]]; [|by rewrite andb_false_r].
  pose proof (Hp _ Hin) as Hpub. specialize (Hx _ Hin). pose proof (block_count_bound a Hw).
  apply published_live in Hpub as [_ Hl]; [|done|change (2 ^ 63) with 9223372036854775808 in *; width_lia].
  replace (j + 1 - 1) with j in Hl by lia. rewrite Hl. pose proof (aw_bits _ Hw j Hj) as Hc.
  destruct (status_bits a j Hw Hj) as (Ep & _). unfold coherent in Hc. rewrite Ep, Hl in Hc.
  destruct (Test (checkpoint a) j); [|rewrite andb_false_r; by left]. cbn in Hc. rewrite andb_false_r in Hc. done.
Qed.

Lemma step_inv s s' : sys_inv s -> step s s' -> sys_inv s'.
Proof.
  intros Hs Hstep. pose proof (si_wf _ Hs) as Hw. pose proof (si_candidate _ Hs) as Hc.
  destruct Hstep as [|x Hx|x Hx|x Hx|x Hx En|ss payload a r Hss Hp E|a r E|c reach a r En E|c a r En E].
  - by apply keeps_inv; [apply Reserve_keeps|].
  - by apply keeps_inv; [apply Publish_keeps|].
  - by apply keeps_inv; [apply Forfeit_keeps|].
  - by apply keeps_inv; [apply Release_keeps|].
  - rewrite En in Hc. rewrite <- En. by apply keeps_inv; [apply cancelRelease_keeps|].
  - destruct (checkpointActive (allocator s)) eqn:Ea.
    { destruct (prepare_busy _ _ _ _ _ Ea E) as [-> [e ->]]. by destruct s. }
    pose proof (PrepareCheckpoint_spec _ ss payload Hw Hss Hp) as Ho. rewrite E in Ho. destruct r as [c|e].
    + destruct Ho as (Hpre & Hn & _). split; cbn; [apply Hpre| |by eapply prepared_ok].
      intros j Hj Hd. rewrite (pp_held _ _ _ _ _ Hpre) by done. pose proof (si_durable _ Hs j Hj Hd) as Hu.
      case_bool_decide as Hin; [|done]. apply (proj2 (pp_addresses _ _ _ _ _ Hpre)) in Hin as [_ Hav].
      replace (j + 1 - 1) with j in Hav by lia. destruct Hav as [Ev|Ev]; rewrite Ev in Hu; by destruct Hu.
    + destruct (candidate s) as [c|] eqn:En; [destruct Hc; congruence|]. split; cbn; [apply Ho| |by rewrite (ho_active _ _ _ Ho)].
      intros j Hj Hd. rewrite (ho_status _ _ _ Ho), bool_decide_false by (done || apply not_elem_of_nil). by apply Hs.
  - destruct r as [c|e]; [|apply begin_fails in E as ->; by destruct s].
    pose proof (BeginCheckpoint_spec _ _ _ Hw E) as (Hw' & _ & _ & _ & Hst & _).
    split; cbn; [done| |by apply (begun_ok (allocator s))]. intros j Hj Hd. rewrite Hst by done. by apply Hs.
  - rewrite En in Hc. destruct r as [[]|e]; [|apply durable_fails in E as ->; rewrite <- En; by destruct s].
    destruct (candidate_durable _ _ _ _ Hw Hc E) as (? & ? & ?). by split.
  - rewrite En in Hc. pose proof (candidate_abort _ _ Hw Hc) as Ha. rewrite E in Ha. destruct Ha as (-> & ? & ? & Hu & _).
    split; cbn; [done| |done]. intros j Hj Hd. by apply Hu, Hs.
Qed.

Lemma system_inv s : reachable s -> sys_inv s.
Proof.
  intros (s0 & Hi & Hr). assert (sys_inv s0) as H0'.
  { destruct Hi as [stored storage cluster process state acq rel a Ht Hl Hg Hz Ha Hrl E].
    destruct (Open_spec stored storage cluster process state acq rel a) as (? & ? & Hst); try done. split; cbn; [done| |done].
    intros j Hj. rewrite Hst by done. unfold opened. destruct (Test acq j), (Test rel j); cbn; (by left) || done. }
  clear Hi. induction Hr; eauto using step_inv.
Qed.

(** When a checkpoint may become durable. *)
Definition completable a (c : BlockCheckpointCandidate) (reach : option FixedBitSet) : Prop :=
  exists r, reach = Some r /\ BlockCheckpointCandidate.blockCount c <= Len r /\
    (forall x, x ∈ BlockCheckpointCandidate.addresses c -> status a (x - 1) = BlockLive) /\
    forall j, 0 <= j < BlockCheckpointCandidate.blockCount c -> Test (checkpoint a) j = true -> Test r j = false.

Lemma candidate_u64 a c x : alloc_wf a -> candidate_ok a c -> x ∈ BlockCheckpointCandidate.addresses c -> is_u64 x.
Proof.
  intros Hw (_ & _ & _ & Hx & _) Hin. specialize (Hx x Hin). pose proof (block_count_bound a Hw).
  change (2 ^ 63) with 9223372036854775808 in *. width_lia.
Qed.

Lemma durable_accepts a c reach :
  alloc_wf a -> candidate_ok a c -> (CheckpointDurable a c reach).2 = Ok tt <-> completable a c reach.
Proof.
  intros Hw Hok. pose proof Hok as (Ha & Hg & _ & Hx & Hc & _). split.
  - intros E. destruct (CheckpointDurable a c reach) as [a' r] eqn:Ed. cbn in E. subst r.
    destruct (durable_spec a c reach a' Hw Ed) as (_ & _ & _ & _ & _ & (r & -> & Hl & Hr) & Hp & _).
    exists r. split_and!; try done. intros x Hin. by apply published_live, Hp; [|eapply candidate_u64|].
  - intros (r & -> & Hl & Hp & Hr). unfold CheckpointDurable. rewrite Ha, Hg, Z.eqb_refl.
    rewrite (proj2 (Z.ltb_ge (blockCount a) _)), (proj2 (Z.ltb_ge (Len r) _)) by done. cbn [negb orb].
    rewrite (proj2 (forallb_forall (publishedAt a) _)).
    2:{ intros x Hin%list_elem_of_In. apply published_live; [done|by eapply candidate_u64|]. auto. }
    cbn [negb]. destruct (existsb _ _) eqn:Ex; [|done]. apply existsb_exists in Ex as (j & Hj%list_elem_of_In & Ht).
    apply elem_of_seqZ in Hj. apply andb_prop in Ht as [Hcp Hrj]. rewrite (Hr j ltac:(lia) Hcp) in Hrj. done.
Qed.

(** C24: In every reachable state of the allocator each operation on a block does what the life of a block prescribes.
    Reserve hands out the first available block, reusing a released one before growing the storage, and fails only
    when no block is available.  Publish, Forfeit, Release and cancelRelease succeed exactly on a block that is
    reserved, reserved, live or pending release respectively, move that block only, and otherwise change nothing. *)
Theorem allocator_operations s :
  reachable s ->
  let a := allocator s in
  (match Reserve a with
   | (a', Ok address) => exists i, address = i + 1 /\ reserved_block a a' i
   | (a', Err _) => unmoved a a' /\ forall k, 0 <= k < blockCount a -> ~ isAvailable (status a k)
   end) /\
  forall address, is_u64 address ->
    moves a address (Publish a address) toLive /\ moves a address (Forfeit a address) toFree /\
    moves a address (Release a address) toPending /\
    (candidate s = None -> moves a address (cancelRelease a address) backToLive).
Proof.
  intros Hr a. pose proof (system_inv s Hr) as Hs. pose proof (si_wf _ Hs) as Hw. split.
  - pose proof (Reserve_spec a Hw) as Hres. destruct (Reserve a) as [a' [address|e]]; apply Hres.
  - intros address Hu. split_and!; [by apply Publish_moves|by apply Forfeit_moves|by apply Release_moves|].
    intros En. pose proof (si_candidate _ Hs) as Hc. rewrite En in Hc. by apply cancelRelease_moves.
Qed.

(** C23: The life of a checkpoint, in every reachable state of the allocator.  Preparing one
    panics only when the addresses it needs are too many for a slice, which takes trailers or a store of about 2^45
    blocks (the sizes passed to it being at most 2^61 and 2^62 bytes, where the sums do not wrap); it succeeds only with no checkpoint in progress and no block reserved, and then its sets, their encodings and the blocks it
    holds are those of the checkpoint; a failed attempt leaves every block as it was.  The checkpoint in progress
    becomes durable exactly when its blocks are published and no block it releases is reachable, and completing it
    releases the blocks that were pending when it was prepared and no other.  Aborting it always succeeds. *)
Theorem checkpoint_operations s sessionSize payload reach :
  reachable s -> 0 <= sessionSize <= 2 ^ 61 -> 0 <= payload <= 2 ^ 62 ->
  let a := allocator s in
  (match PrepareCheckpoint a sessionSize payload with
   | None => 2 ^ 46 < 2 * sessionSize + maximum a + 160
   | Some (a', Ok c) => prepared a a' c sessionSize payload /\ none_held a /\ candidate s = None
   | Some (a', Err _) => forall j, 0 <= j -> status a' j = status a j
   end) /\
  forall c, candidate s = Some c ->
    (match CheckpointDurable a c reach with
     | (a', Ok _) => completable a c reach /\ checkpointActive a' = false /\ forall j, 0 <= j -> status a' j =
         if (j <? BlockCheckpointCandidate.blockCount c) && Test (checkpoint a) j then BlockReleased else status a j
     | (a', Err _) => ~ completable a c reach /\ a' = a
     end) /\
    let '(a', r) := AbortCheckpoint a c in
    r = Ok tt /\ checkpointActive a' = false /\ forall j, 0 <= j -> status a' j =
      if bool_decide (j + 1 ∈ BlockCheckpointCandidate.addresses c) then abandoned (status a j) else status a j.
Proof.
  intros Hr Hss Hp a. pose proof (system_inv s Hr) as Hs. pose proof (si_wf _ Hs) as Hw. pose proof (si_candidate _ Hs) as Hc.
  fold a in Hw, Hc. split.
  - pose proof (PrepareCheckpoint_spec a sessionSize payload Hw Hss Hp) as Ho.
    destruct (PrepareCheckpoint a sessionSize payload) as [[a' [c|e]]|]; [| |done].
    + destruct Ho as (? & ? & Hi). split_and!; try done. destruct (candidate s); [destruct Hc; congruence|done].
    + intros j Hj. by rewrite (ho_status _ _ _ Ho), bool_decide_false by (done || apply not_elem_of_nil).
  - intros c En. rewrite En in Hc. split.
    + pose proof (durable_accepts a c reach Hw Hc) as Hacc. destruct (CheckpointDurable a c reach) as [a' [[]|e]] eqn:E.
      * destruct (durable_spec a c reach a' Hw E) as (_ & _ & ? & _ & _ & _ & _ & ?). split_and!; try done. by apply Hacc.
      * split; [intros ?%Hacc; done|by apply durable_fails in E].
    + pose proof (candidate_abort a c Hw Hc) as Hab. destruct (AbortCheckpoint a c) as [a' r].
      by destruct Hab as (? & _ & ? & _ & ?).
Qed.

(** C9: No block of the durable checkpoint is ever given away: in every reachable state, whatever calls led there and
    whether they failed or not, such a block is live or waits for the next checkpoint to release it, and Reserve never
    returns it, so nothing overwrites the state a restart would read. *)
Theorem durable_blocks_kept s :
  reachable s ->
  (forall j, 0 <= j -> durable s j = true -> j < blockCount (allocator s) /\ inUse (status (allocator s) j)) /\
  forall a' address, Reserve (allocator s) = (a', Ok address) -> durable s (address - 1) = false.
Proof.
  intros Hr. pose proof (system_inv s Hr) as Hs. pose proof (si_wf _ Hs) as Hw. split.
  - intros j Hj Hd. pose proof (si_durable _ Hs j Hj Hd) as Hu. split; [|done].
    destruct (Z.lt_ge_cases j (blockCount (allocator s))); [done|].
    rewrite beyond_free in Hu by done. by destruct Hu.
  - intros a' address E. pose proof (Reserve_spec _ Hw) as Hres. rewrite E in Hres. destruct Hres as (_ & i & -> & Hb).
    replace (i + 1 - 1) with i by lia. destruct (durable s i) eqn:Ed; [|done].
    assert (0 <= i) by (pose proof (block_count_bound _ Hw); destruct (rb_extent _ _ _ Hb) as [(? & _)|(-> & _)]; lia).
    pose proof (si_durable _ Hs i ltac:(done) Ed) as Hu.
    destruct (rb_available _ _ _ Hb) as [Ev|Ev]; rewrite Ev in Hu; by destruct Hu.
Qed.
End safety.

(** ** An allocator with eight blocks *)

(** A file that grows when it is resized. *)
#[local] Instance growing_file : Resizable FileStorage := {
  Resize s size := (FileStorage.mk (FileStorage.isOpen s) (FileStorage.direct s) (FileStorage.durable s)
    (FileStorage.cached s ++ [(Z.to_N size, [])]) (FileStorage.faults s), Ok tt);
}.

Definition eight_blocks_base : Z :=
  Eval vm_compute in match BlockBase DefaultClusterConfig with Some base => base | None => 0 end.

Definition eight_blocks_state : CheckpointState :=
  sample_checkpoint (eight_blocks_base + 8 * ClusterConfig.BlockSize DefaultClusterConfig).

(** The first block is in use, the others are free. *)
Definition first_used : FixedBitSet := FixedBitSet.mk [1] 8.
Definition none_used : FixedBitSet := FixedBitSet.mk [0] 8.

Definition eight_blocks : BlockAllocator FileStorage :=
  Eval vm_compute in
    match OpenBlockAllocator true (FileStorage.mk true false [] [] []) DefaultClusterConfig DefaultProcessConfig
            eight_blocks_state first_used none_used with
    | Ok a => a
    | Err _ => mk (FileStorage.mk true false [] [] []) 0 0 0 0 0 none_used none_used none_used none_used none_used none_used
                 none_used none_used 0 false
    end.

Definition eight_blocks_system : system := System eight_blocks None (fun j => Test first_used j && negb (Test none_used j)).

Lemma eight_blocks_reachable : reachable eight_blocks_system.
Proof.
  exists eight_blocks_system. split; [|reflexivity].
  apply (initial_open true (FileStorage.mk true false [] [] []) DefaultClusterConfig DefaultProcessConfig eight_blocks_state).
  - exact DefaultClusterConfig_typed.
  - split; [discriminate|reflexivity].
  - split; [discriminate|reflexivity].
  - discriminate.
  - split; [split; discriminate|reflexivity|repeat constructor; discriminate|reflexivity].
  - split; [split; discriminate|reflexivity|repeat constructor; discriminate|reflexivity].
  - vm_compute. reflexivity.
Qed.

(** A checkpoint of it is being prepared. *)
Definition eight_blocks_held : BlockAllocator FileStorage * option BlockCheckpointCandidate :=
  Eval vm_compute in
    match PrepareCheckpoint eight_blocks 100 1000 with
    | Some (a, Ok c) => (a, Some c)
    | _ => (eight_blocks, None)
    end.

Definition eight_blocks_prepared : system :=
  System eight_blocks_held.1 eight_blocks_held.2 (durable eight_blocks_system).

Lemma eight_blocks_prepared_reachable : reachable eight_blocks_prepared.
Proof.
  destruct eight_blocks_reachable as (s0 & Hi & Hr). exists s0. split; [exact Hi|]. eapply rtc_r; [exact Hr|].
  assert (exists c, eight_blocks_held.2 = Some c /\
    PrepareCheckpoint eight_blocks 100 1000 = Some (eight_blocks_held.1, Ok c)) as (c & Ec & E).
  { eexists. split; [reflexivity|]. vm_compute. reflexivity. }
  unfold eight_blocks_prepared. rewrite Ec.
  apply (step_prepare eight_blocks_system 100 1000 _ (Ok c)); [split; discriminate..|exact E].
Qed.

Lemma allocator_operations_witness :
  reachable eight_blocks_system /\ (Reserve eight_blocks).2 = Ok 2 /\
  exists i, 2 = i + 1 /\ reserved_block eight_blocks (Reserve eight_blocks).1 i.
Proof.
  pose proof (allocator_operations eight_blocks_system eight_blocks_reachable) as H.
  split; [exact eight_blocks_reachable|]. split; [vm_compute; reflexivity|].
  cbn zeta in H. destruct H as [H _]. change (allocator eight_blocks_system) with eight_blocks in H.
  assert ((Reserve eight_blocks).2 = Ok 2) as E by (vm_compute; reflexivity).
  destruct (Reserve eight_blocks) as [a r]. cbn [snd] in E. subst r. exact H.
Defined.

Lemma checkpoint_operations_witness :
  reachable eight_blocks_prepared /\
  exists c, candidate eight_blocks_prepared = Some c /\ (AbortCheckpoint (allocator eight_blocks_prepared) c).2 = Ok tt.
Proof.
  split; [exact eight_blocks_prepared_reachable|].
  destruct (checkpoint_operations eight_blocks_prepared 100 1000 None eight_blocks_prepared_reachable) as [_ H];
    [split; discriminate..|].
  eexists. split; [reflexivity|]. specialize (H _ eq_refl) as [_ H].
  destruct (AbortCheckpoint _ _) as [a r]. exact (proj1 H).
Defined.

Lemma durable_blocks_kept_witness :
  reachable eight_blocks_prepared /\ durable eight_blocks_prepared 0 = true /\ inUse (status (allocator eight_blocks_prepared) 0).
Proof.
  split; [exact eight_blocks_prepared_reachable|]. split; [reflexivity|].
  apply (proj1 (durable_blocks_kept eight_blocks_prepared eight_blocks_prepared_reachable)); [discriminate|reflexivity].
Defined.
