(* ===== verification/Wal.v ===== *)
(** * The write-ahead log

    [src/replication/wal.go], [src/replication/wal_recovery.go] and the prepare
    accessors of [src/replication/replica.go]: the layout of the log on
    storage, appending a prepare in its four physical phases, the
    classification of a slot by its redundant header and its prepare, and
    recovery.  Every operation works on any implementation of the storage
    interface. *)

From S2P Require Import Prelude Bytes Arith Checksum Header Config Storage Checkpoint.

(** ** Prepare headers *)

Definition prepareOp (header : Header) : Z := getUint (slice (Fields header) 96 104).
Definition prepareCommit (header : Header) : Z := getUint (slice (Fields header) 104 112).
Definition prepareTimestamp (header : Header) : Z := getUint (slice (Fields header) 112 120).
Definition prepareRequest (header : Header) : Z := getUint (slice (Fields header) 120 124).
Definition prepareOperation (header : Header) : Z := byteAt (Fields header) 124.
Definition prepareClient (header : Header) : list byte := slice (Fields header) 80 96.
Definition prepareRequestChecksum (header : Header) : list byte := slice (Fields header) 32 48.
Definition prepareParent (header : Header) : list byte := slice (Fields header) 0 16.

(** ** Layout *)

Module WALLayout.
Record t := mk {
  HeaderBase : Z;
  HeaderSize : Z;
  PrepareBase : Z;
  PrepareStride : Z;
  PrepareSize : Z;
  ReplyBase : Z;
  ReplyStride : Z;
  ReplySize : Z;
  BlockBase : Z;
}.
End WALLayout.
Abbreviation WALLayout := WALLayout.t.

Definition DeriveWALLayout (cfg : ClusterConfig) : option WALLayout :=
  superblockSize ← checkedMul (ClusterConfig.SuperblockCopies cfg) SuperblockBytes;
  headerBytes ← checkedMul (ClusterConfig.JournalSlots cfg) HeaderSize;
  headerSize ← checkedAlignUp headerBytes SectorSize;
  prepareBase ← checkedAdd superblockSize headerSize;
  prepareStride ← checkedAlignUp (ClusterConfig.MessageSizeMax cfg) SectorSize;
  prepareSize ← checkedMul (ClusterConfig.JournalSlots cfg) prepareStride;
  replyBase ← checkedAdd prepareBase prepareSize;
  replySize ← checkedMul (ClusterConfig.ClientsMax cfg) prepareStride;
  end_ ← checkedAdd replyBase replySize;
  blockBase ← checkedAlignUp end_ (ClusterConfig.BlockSize cfg);
  Some (WALLayout.mk superblockSize headerSize prepareBase prepareStride prepareSize
          replyBase prepareStride replySize blockBase).

(** ** State *)

Module WALSlot.
Record t := mk {
  Authoritative : list byte;
  Redundant : list byte;
  PrepareChecksum : list byte;
  Op : Z;
  Generation : Z;
  Inhabited : bool;
  Dirty : bool;
  Faulty : bool;
}.
End WALSlot.
Abbreviation WALSlot := WALSlot.t.

Definition zeroSlot : WALSlot :=
  WALSlot.mk (zeros 256) (zeros 256) (zeros 16) 0 0 false false false.

Module WAL.
Record t {S : Type} := mk {
  storage : S;
  config : ClusterConfig;
  group : list byte;
  memberCount : Z;
  layout : WALLayout;
  slots : list WALSlot;
  headerRing : list byte;
  prepareBuffer : list byte;
  ioActive : bool;
}.
Arguments t : clear implicits.

Definition with_storage {S} (w : t S) (s : S) : t S :=
  mk S s (config w) (group w) (memberCount w) (layout w) (slots w) (headerRing w) (prepareBuffer w) (ioActive w).
Definition with_slots {S} (w : t S) (slots : list WALSlot) : t S :=
  mk S (storage w) (config w) (group w) (memberCount w) (layout w) slots (headerRing w) (prepareBuffer w) (ioActive w).
Definition with_headerRing {S} (w : t S) (ring : list byte) : t S :=
  mk S (storage w) (config w) (group w) (memberCount w) (layout w) (slots w) ring (prepareBuffer w) (ioActive w).
Definition with_prepareBuffer {S} (w : t S) (buffer : list byte) : t S :=
  mk S (storage w) (config w) (group w) (memberCount w) (layout w) (slots w) (headerRing w) buffer (ioActive w).
Definition with_ioActive {S} (w : t S) (active : bool) : t S :=
  mk S (storage w) (config w) (group w) (memberCount w) (layout w) (slots w) (headerRing w) (prepareBuffer w) active.
End WAL.
Abbreviation WAL := WAL.t.

(** A message size limit as the decoder takes it. *)
Definition sizeMax {S} (wal : WAL S) : Z := u32 (ClusterConfig.MessageSizeMax (WAL.config wal)).

Definition JournalSlotsOf {S} (wal : WAL S) : Z := ClusterConfig.JournalSlots (WAL.config wal).

Definition slotAt {S} (wal : WAL S) (index : Z) : WALSlot :=
  default zeroSlot (WAL.slots wal !! Z.to_nat index).

Definition set_slot {S} (wal : WAL S) (index : Z) (slot : WALSlot) : WAL S :=
  WAL.with_slots wal (<[Z.to_nat index := slot]> (WAL.slots wal)).

(** [copy(wal.headerRing[index*HeaderSize:...], header)] *)
Definition set_ring {S} (wal : WAL S) (index : Z) (header : list byte) : WAL S :=
  WAL.with_headerRing wal (put (WAL.headerRing wal) (index * HeaderSize) header).

Definition reserved_fields (physicalSlot : Z) : list byte :=
  put (put (zeros 128) 96 (putUint 8 physicalSlot)) 124 (putUint 1 OperationReserved).

Definition ReservedPrepareHeader (group : list byte) (physicalSlot memberCount messageSizeMax : Z)
    : result durable_error (list byte) :=
  let header := mkHeader (zeros 16) (zeros 16) group 0 0 0 0 ProtocolVersion CommandPrepare 0
    (reserved_fields physicalSlot) in
  match SealFrame (zeros HeaderSize) header with
  | Err _ => Err FrameEncoding
  | Ok (encoded, _) =>
      match DecodeHeader encoded group messageSizeMax memberCount with
      | (_, RejectNone) => Ok encoded
      | _ => Err ErrInvalidWAL
      end
  end.

(** The slots of a new log and the image of its header ring. *)
Fixpoint new_slots (group : list byte) (memberCount messageSizeMax : Z) (indices : list nat)
    (ring : list byte) : result durable_error (list WALSlot * list byte) :=
  match indices with
  | [] => Ok ([], ring)
  | index :: indices =>
      reserved ← ReservedPrepareHeader group (Z.of_nat index) memberCount messageSizeMax;
      '(slots, ring) ← new_slots group memberCount messageSizeMax indices
        (put ring (Z.of_nat index * HeaderSize) reserved);
      Ok (WALSlot.mk reserved reserved (zeros 16) 0 0 false false false :: slots, ring)
  end.

Definition NewWAL {S} (storage : S) (cfg : ClusterConfig) (group : list byte) (memberCount : Z)
    : result durable_error (WAL S) :=
  match DeriveWALLayout cfg with
  | None => Err ErrInvalidWAL
  | Some layout =>
      if (MaxInt64 <? ClusterConfig.JournalSlots cfg) || (MaxInt64 <? ClusterConfig.MessageSizeMax cfg)
         || (memberCount =? 0)
      then Err ErrInvalidWAL else
      headerRing ← NewAlignedBuffer (WALLayout.HeaderSize layout) SectorSize;
      prepareBuffer ← NewAlignedBuffer (WALLayout.PrepareStride layout) SectorSize;
      '(slots, headerRing) ← new_slots group memberCount (u32 (ClusterConfig.MessageSizeMax cfg))
        (seq 0 (Z.to_nat (ClusterConfig.JournalSlots cfg))) headerRing;
      Ok (WAL.mk S storage cfg group memberCount layout slots headerRing prepareBuffer false)
  end.

(** ** Appending *)

(** The buffer of a sequence is a part of the log: the prepare buffer, or the
    sector of the header ring at an offset. *)
Inductive wal_buffer := NoBuffer | PrepareBuffer | RingSector (offset : Z).

Module WALSequence.
Record t := mk {
  phase : IOPhase;
  buffer : wal_buffer;
  offset : Z;
  step : Z;
  index : Z;
  generation : Z;
  checksum : list byte;
}.

Definition syncNext (s : t) : t :=
  mk IOPhaseSync NoBuffer (offset s) (step s) (index s) (generation s) (checksum s).

Definition next_step (s : t) : t :=
  mk (phase s) (buffer s) (offset s) (step s + 1) (index s) (generation s) (checksum s).
End WALSequence.
Abbreviation WALSequence := WALSequence.t.

Definition bufferBytes {S} (wal : WAL S) (buffer : wal_buffer) : list byte :=
  match buffer with
  | NoBuffer => []
  | PrepareBuffer => WAL.prepareBuffer wal
  | RingSector offset => slice (WAL.headerRing wal) offset (offset + SectorSize)
  end.

Definition prepareOffset {S} (wal : WAL S) (slot : Z) : option Z :=
  offset ← checkedMul slot (WALLayout.PrepareStride (WAL.layout wal));
  checkedAdd (WALLayout.PrepareBase (WAL.layout wal)) offset.

Section append.
Context {S : Type} `{Storage S}.

Definition beginAppend (wal : WAL S) (frame : list byte) (reusableThrough : Z)
    : WAL S * result durable_error WALSequence :=
  if WAL.ioActive wal then (wal, Err ErrIOBackpressure) else
  match DecodeFrame frame (WAL.group wal) (sizeMax wal) (WAL.memberCount wal) with
  | (header, _, RejectNone) =>
      if negb (Command header =? CommandPrepare) then (wal, Err ErrInvalidWAL) else
      let op := getUint (slice (Fields header) 96 104) in
      let index := op mod JournalSlotsOf wal in
      let slot := slotAt wal index in
      if WALSlot.Inhabited slot && negb (WALSlot.Op slot =? op) && (reusableThrough <? WALSlot.Op slot)
      then (wal, Err ErrWALSlotUnsafe) else
      let slot := WALSlot.mk (put (WALSlot.Authoritative slot) 0 (slice frame 0 HeaderSize))
        (WALSlot.Redundant slot) (WALSlot.PrepareChecksum slot) op (u64 (WALSlot.Generation slot + 1))
        (WALSlot.Inhabited slot) true (WALSlot.Faulty slot) in
      let buffer := put (zeros (zlen (WAL.prepareBuffer wal))) 0
        (take (length (WAL.prepareBuffer wal)) frame) in
      let wal := WAL.with_prepareBuffer (set_slot wal index slot) buffer in
      match prepareOffset wal index with
      | None => (wal, Err ErrInvalidWAL)
      | Some offset =>
          (WAL.with_ioActive wal true,
           Ok (WALSequence.mk IOPhaseWrite PrepareBuffer offset 0 index (WALSlot.Generation slot)
                 (HeaderChecksum header)))
      end
  | _ => (wal, Err ErrInvalidWAL)
  end.

Definition physical (wal : WAL S) (sequence : WALSequence) : WAL S * result durable_error unit :=
  match WALSequence.phase sequence with
  | IOPhaseWrite =>
      let '(s, r) := WriteAt (WAL.storage wal) (bufferBytes wal (WALSequence.buffer sequence))
        (WALSequence.offset sequence) in
      (WAL.with_storage wal s, r)
  | IOPhaseSync => let '(s, r) := Sync (WAL.storage wal) in (WAL.with_storage wal s, r)
  | IOPhaseCompletion => (wal, Err ErrIOHandle)
  end.

(** The transition after a successful physical operation. *)
Definition append_step (wal : WAL S) (sequence : WALSequence) (frame : list byte)
    : WAL S * result durable_error WALSequence :=
  let slot := slotAt wal (WALSequence.index sequence) in
  if (WALSequence.step sequence =? 0) || (WALSequence.step sequence =? 2) then
    (wal, Ok (WALSequence.next_step (WALSequence.syncNext sequence)))
  else if WALSequence.step sequence =? 1 then
    let headerOffset := WALSequence.index sequence * HeaderSize in
    let wal := set_ring wal (WALSequence.index sequence) (slice frame 0 HeaderSize) in
    let sectorOffset := Z.ldiff headerOffset (SectorSize - 1) in
    (wal, Ok (WALSequence.next_step
      (WALSequence.mk IOPhaseWrite (RingSector sectorOffset)
         (u64 (WALLayout.HeaderBase (WAL.layout wal) + sectorOffset)) (WALSequence.step sequence)
         (WALSequence.index sequence) (WALSequence.generation sequence) (WALSequence.checksum sequence))))
  else if WALSequence.step sequence =? 3 then
    if negb (WALSlot.Generation slot =? WALSequence.generation sequence)
       || negb (bool_decide (WALSlot.Authoritative slot = slice frame 0 HeaderSize))
    then (wal, Err ErrInvalidWAL) else
    let slot := WALSlot.mk (WALSlot.Authoritative slot) (WALSlot.Authoritative slot)
      (WALSequence.checksum sequence) (WALSlot.Op slot) (WALSlot.Generation slot) true false false in
    (set_slot wal (WALSequence.index sequence) slot,
     Ok (WALSequence.next_step
       (WALSequence.mk IOPhaseCompletion (WALSequence.buffer sequence) (WALSequence.offset sequence)
          (WALSequence.step sequence) (WALSequence.index sequence) (WALSequence.generation sequence)
          (WALSequence.checksum sequence))))
  else (wal, Ok (WALSequence.next_step sequence)).

Definition advanceAppend (wal : WAL S) (sequence : WALSequence) (frame : list byte)
    : WAL S * result durable_error WALSequence :=
  match physical wal sequence with
  | (wal, Err _) => (wal, Err ErrStorage)
  | (wal, Ok _) => append_step wal sequence frame
  end.

Fixpoint append_loop (fuel : nat) (wal : WAL S) (sequence : WALSequence) (frame : list byte)
    : WAL S * result durable_error unit :=
  if bool_decide (WALSequence.phase sequence = IOPhaseCompletion) then (wal, Ok tt) else
  match fuel with
  | O => (wal, Ok tt)
  | Datatypes.S fuel =>
      match advanceAppend wal sequence frame with
      | (wal, Err err) => (wal, Err err)
      | (wal, Ok sequence) => append_loop fuel wal sequence frame
      end
  end.

(** The four phases: write the prepare, sync, write its header, sync. *)
Definition Append (wal : WAL S) (frame : list byte) (reusableThrough : Z)
    : WAL S * result durable_error unit :=
  match beginAppend wal frame reusableThrough with
  | (wal, Err err) => (wal, Err err)
  | (wal, Ok sequence) =>
      let '(wal, r) := append_loop 4 wal sequence frame in
      (WAL.with_ioActive wal false, r)
  end.
End append.
