(* ===== verification/WalRecovery.v ===== *)
(** * Recovery of the write-ahead log

    The classification of a slot in [src/replication/wal.go] and
    [src/replication/wal_recovery.go]: reading back the header ring and the
    prepares, deciding slot by slot what to keep, finding the head, and the
    queries on a recovered log. *)

From S2P Require Import Prelude Bytes Arith Checksum Header Config Storage Checkpoint Wal.

(** ** Classification of a slot *)

Inductive WALCandidateKind := WALCandidateInvalid | WALCandidateReserved | WALCandidateOrdinary.

#[export] Instance WALCandidateKind_eq_dec : EqDecision WALCandidateKind.
Proof. solve_decision. Defined.

Module WALCandidate.
Record t := mk {
  Kind : WALCandidateKind;
  Op : Z;
  View : Z;
  HeaderChecksum : list byte;
  BodyChecksum : list byte;
}.
End WALCandidate.
Abbreviation WALCandidate := WALCandidate.t.

(** [WALCandidate{Kind: kind, Op: op}] *)
Definition bareCandidate (kind : WALCandidateKind) (op : Z) : WALCandidate :=
  WALCandidate.mk kind op 0 (zeros 16) (zeros 16).

Inductive WALRecoveryDecision :=
| WALRecoveryClean
| WALRecoveryCleanEmpty
| WALRecoveryLocalRepair
| WALRecoveryRemoteRepair
| WALRecoveryTruncate
| WALRecoveryFail.

#[export] Instance WALRecoveryDecision_eq_dec : EqDecision WALRecoveryDecision.
Proof. solve_decision. Defined.

Module WALRecoveryView.
Record t := mk {
  LogView : Z;
  HeadOp : Z;
}.
End WALRecoveryView.
Abbreviation WALRecoveryView := WALRecoveryView.t.

Module WALRecoveryContext.
Record t := mk {
  PhysicalSlot : Z;
  JournalSlots : Z;
  RetainedMin : Z;
  PrepareMax : Z;
  UntrustedMax : Z;
  Installed : WALRecoveryView;
}.
End WALRecoveryContext.
Abbreviation WALRecoveryContext := WALRecoveryContext.t.

Section classify.
Import WALCandidate WALRecoveryContext.

Definition isKind (c : WALCandidate) (kind : WALCandidateKind) : bool := bool_decide (Kind c = kind).

Definition candidatesEqual (left right : WALCandidate) : bool :=
  (Op left =? Op right) && (View left =? View right)
  && bool_decide (HeaderChecksum left = HeaderChecksum right)
  && bool_decide (BodyChecksum left = BodyChecksum right).

Definition retainedOrdinary (c : WALCandidate) (ctx : WALRecoveryContext) : bool :=
  isKind c WALCandidateOrdinary && (RetainedMin ctx <=? Op c) && (Op c <=? PrepareMax ctx).

Definition futureWALCandidate (c : WALCandidate) (ctx : WALRecoveryContext) : bool :=
  isKind c WALCandidateOrdinary && (PrepareMax ctx <? Op c).

Definition impossibleWALCandidate (c : WALCandidate) (ctx : WALRecoveryContext) : bool :=
  isKind c WALCandidateOrdinary
  && ((JournalSlots ctx =? 0) || negb (Op c mod JournalSlots ctx =? PhysicalSlot ctx)).

Definition obsoleteWALCandidate (c : WALCandidate) (installed : WALRecoveryView) : bool :=
  isKind c WALCandidateOrdinary && (WALRecoveryView.HeadOp installed <? Op c)
  && (View c <? WALRecoveryView.LogView installed).

Definition ClassifyWALSlot (header prepare : WALCandidate) (ctx : WALRecoveryContext)
    : WALRecoveryDecision :=
  if impossibleWALCandidate header ctx || impossibleWALCandidate prepare ctx then WALRecoveryFail else
  if futureWALCandidate header ctx || futureWALCandidate prepare ctx then WALRecoveryTruncate else
  let obsoleteHeader := obsoleteWALCandidate header (Installed ctx) in
  let obsoletePrepare := obsoleteWALCandidate prepare (Installed ctx) in
  if obsoleteHeader || obsoletePrepare then
    if isKind header WALCandidateInvalid || isKind prepare WALCandidateInvalid
    then WALRecoveryRemoteRepair else
    let retainedHeader := isKind header WALCandidateOrdinary && negb obsoleteHeader in
    let retainedPrepare := isKind prepare WALCandidateOrdinary && negb obsoletePrepare in
    if negb retainedHeader && negb retainedPrepare then WALRecoveryTruncate else
    if obsoleteHeader && retainedOrdinary prepare ctx then WALRecoveryLocalRepair
    else WALRecoveryRemoteRepair
  else if isKind header WALCandidateOrdinary && isKind prepare WALCandidateOrdinary
          && candidatesEqual header prepare then WALRecoveryClean
  else if isKind header WALCandidateReserved && isKind prepare WALCandidateReserved
       then WALRecoveryCleanEmpty
  else if isKind header WALCandidateReserved && retainedOrdinary prepare ctx
       then WALRecoveryLocalRepair
  else if isKind header WALCandidateInvalid && retainedOrdinary prepare ctx
          && (Op prepare =? UntrustedMax ctx) then WALRecoveryLocalRepair
  else if isKind header WALCandidateOrdinary && retainedOrdinary prepare ctx && (Op header <? Op prepare)
       then WALRecoveryLocalRepair
  else WALRecoveryRemoteRepair.
End classify.

(** ** Reading back *)

Definition recoveryCandidate (header : Header) (physical : Z) : WALCandidate :=
  let op := prepareOp header in
  let operation := prepareOperation header in
  if operation =? OperationReserved then
    if negb (op =? physical) then bareCandidate WALCandidateInvalid 0
    else WALCandidate.mk WALCandidateReserved op 0 (HeaderChecksum header) (BodyChecksum header)
  else WALCandidate.mk WALCandidateOrdinary op (View header) (HeaderChecksum header) (BodyChecksum header).

Definition maxCandidateOp (current : Z) (candidate : WALCandidate) : Z :=
  if isKind candidate WALCandidateOrdinary && (current <? WALCandidate.Op candidate)
  then WALCandidate.Op candidate else current.

Module WALRecoveryReport.
Record t := mk {
  HeadOp : Z;
  HeadHeader : Header;
  FaultySlots : Z;
  UntrustedMax : Z;
}.
End WALRecoveryReport.
Abbreviation WALRecoveryReport := WALRecoveryReport.t.

Section recovery.
Context {S : Type} `{Storage S}.

Definition decodeRecoveryHeader (wal : WAL S) (encoded : list byte) (physical : Z) : WALCandidate :=
  match DecodeHeader encoded (WAL.group wal) (sizeMax wal) (WAL.memberCount wal) with
  | (header, RejectNone) =>
      if negb (Command header =? CommandPrepare) then bareCandidate WALCandidateInvalid 0
      else recoveryCandidate header physical
  | _ => bareCandidate WALCandidateInvalid 0
  end.

(** The frame in a physical prepare slot, when its size fits and zeros follow it. *)
Definition physicalFrame (wal : WAL S) (physical : list byte) : option (list byte) :=
  if zlen physical <? HeaderSize then None else
  let size := getUint (slice physical 96 100) in
  if (size <? HeaderSize) || (WALLayout.PrepareStride (WAL.layout wal) <? size)
     || negb (allZero (slice physical size (zlen physical)))
  then None else Some (slice physical 0 size).

Definition decodeRecoveryPrepare (wal : WAL S) (physical : list byte) (slot : Z)
    : WALCandidate * list byte :=
  if allZero physical then
    match ReservedPrepareHeader (WAL.group wal) slot (WAL.memberCount wal) (sizeMax wal) with
    | Err _ => (bareCandidate WALCandidateInvalid 0, zeros HeaderSize)
    | Ok reserved => (bareCandidate WALCandidateReserved slot, reserved)
    end
  else
    match physicalFrame wal physical with
    | None => (bareCandidate WALCandidateInvalid 0, zeros HeaderSize)
    | Some frame =>
        match DecodeFrame frame (WAL.group wal) (sizeMax wal) (WAL.memberCount wal) with
        | (header, _, RejectNone) =>
            if negb (Command header =? CommandPrepare)
            then (bareCandidate WALCandidateInvalid 0, zeros HeaderSize)
            else (recoveryCandidate header slot, slice physical 0 HeaderSize)
        | _ => (bareCandidate WALCandidateInvalid 0, zeros HeaderSize)
        end
    end.

Definition installRecoveredSlot (wal : WAL S) (slot : Z) (encoded : list byte)
    (candidate : WALCandidate) (faulty : bool) : WAL S :=
  set_slot wal slot (WALSlot.mk encoded encoded (WALCandidate.HeaderChecksum candidate)
    (WALCandidate.Op candidate) (WALSlot.Generation (slotAt wal slot)) true faulty faulty).

(** [installReservedSlot] panics when the reserved header does not encode,
    which [NewWAL] has excluded; the model keeps the log then. *)
Definition installReservedSlot (wal : WAL S) (slot : Z) : WAL S :=
  match ReservedPrepareHeader (WAL.group wal) slot (WAL.memberCount wal) (sizeMax wal) with
  | Err _ => wal
  | Ok reserved =>
      set_slot wal slot (WALSlot.mk reserved reserved (zeros 16) slot
        (WALSlot.Generation (slotAt wal slot)) false false false)
  end.

Definition prepareMaximum (wal : WAL S) (checkpoint : Z) : option Z :=
  interval ← CheckpointInterval (WAL.config wal);
  first ← checkedAdd checkpoint interval;
  let first := if checkpoint =? 0 then u64 (first - 1) else first in
  trigger ← checkedAdd first (ClusterConfig.CompactionOps (WAL.config wal));
  checkedAdd trigger (u64 (2 * ClusterConfig.PipelineMax (WAL.config wal))).

(** The first loop of [Recover]: what every slot holds. *)
Record scanned_slot := mkScanned {
  headerCandidate : WALCandidate;
  prepareCandidate : WALCandidate;
  prepareHeader : list byte;
}.

Fixpoint scan_slots (wal : WAL S) (indices : list nat) (untrustedMax : Z)
    : WAL S * result durable_error (list scanned_slot * Z) :=
  match indices with
  | [] => (wal, Ok ([], untrustedMax))
  | index :: indices =>
      let slot := Z.of_nat index in
      let headerBytes := slice (WAL.headerRing wal) (slot * HeaderSize) ((slot + 1) * HeaderSize) in
      let header := decodeRecoveryHeader wal headerBytes slot in
      let untrustedMax := maxCandidateOp untrustedMax header in
      match prepareOffset wal slot with
      | None => (wal, Err ErrWALRecovery)
      | Some offset =>
          match ReadAt (WAL.storage wal) (zlen (WAL.prepareBuffer wal)) offset with
          | (s, Err err) => (WAL.with_storage wal s, Err (Joined ErrWALRecovery err))
          | (s, Ok bytes) =>
              let wal := WAL.with_prepareBuffer (WAL.with_storage wal s) bytes in
              let '(candidate, encoded) := decodeRecoveryPrepare wal bytes slot in
              match scan_slots wal indices (maxCandidateOp untrustedMax candidate) with
              | (wal, Err err) => (wal, Err err)
              | (wal, Ok (rest, untrustedMax)) =>
                  (wal, Ok (mkScanned header candidate encoded :: rest, untrustedMax))
              end
          end
      end
  end.

(** One iteration of the second loop: the log, whether its header ring has
    changed, and whether the slot is faulty. *)
Definition resolve_slot (wal : WAL S) (slot : Z) (scan : scanned_slot) (ctx : WALRecoveryContext)
    : result durable_error (WAL S * bool * bool) :=
  match ClassifyWALSlot (headerCandidate scan) (prepareCandidate scan) ctx with
  | WALRecoveryClean =>
      Ok (installRecoveredSlot wal slot (prepareHeader scan) (prepareCandidate scan) false, false, false)
  | WALRecoveryCleanEmpty => Ok (installReservedSlot wal slot, false, false)
  | WALRecoveryLocalRepair =>
      let wal := installRecoveredSlot wal slot (prepareHeader scan) (prepareCandidate scan) false in
      Ok (set_ring wal slot (prepareHeader scan), true, false)
  | WALRecoveryTruncate =>
      let wal := installReservedSlot wal slot in
      Ok (set_ring wal slot (WALSlot.Authoritative (slotAt wal slot)), true, false)
  | WALRecoveryRemoteRepair =>
      let wal := installReservedSlot wal slot in
      let s := slotAt wal slot in
      Ok (set_slot wal slot (WALSlot.mk (WALSlot.Authoritative s) (WALSlot.Redundant s)
            (WALSlot.PrepareChecksum s) (WALSlot.Op s) (WALSlot.Generation s) (WALSlot.Inhabited s)
            true true), false, true)
  | WALRecoveryFail => Err ErrWALRecovery
  end.

Fixpoint resolve_slots (wal : WAL S) (slot : nat) (scans : list scanned_slot)
    (ctx : Z -> WALRecoveryContext) : result durable_error (WAL S * bool * Z) :=
  match scans with
  | [] => Ok (wal, false, 0)
  | scan :: scans =>
      '(wal, changed, faulty) ← resolve_slot wal (Z.of_nat slot) scan (ctx (Z.of_nat slot));
      '(wal, repairHeaders, count) ← resolve_slots wal (Datatypes.S slot) scans ctx;
      Ok (wal, changed || repairHeaders, if (faulty : bool) then u32 (count + 1) else count)
  end.

(** The search for the head: the longest chain of recovered prepares after the
    checkpoint.  [fuel] bounds its length by the number of slots. *)
Fixpoint find_head (fuel : nat) (wal : WAL S) (untrustedMax : Z) (head : Header) (headOp : Z)
    : Header * Z :=
  match fuel with
  | O => (head, headOp)
  | Datatypes.S fuel =>
      let next := u64 (headOp + 1) in
      if untrustedMax <? next then (head, headOp) else
      let recovered := slotAt wal (next mod JournalSlotsOf wal) in
      if negb (WALSlot.Inhabited recovered) || negb (WALSlot.Op recovered =? next)
      then (head, headOp) else
      match DecodeHeader (WALSlot.Authoritative recovered) (WAL.group wal) (sizeMax wal)
              (WAL.memberCount wal) with
      | (candidate, RejectNone) =>
          if negb (bool_decide (prepareParent candidate = HeaderChecksum head)) then (head, headOp)
          else find_head fuel wal untrustedMax candidate next
      | _ => (head, headOp)
      end
  end.

Definition context_of (wal : WAL S) (retainedMin prepareMax untrustedMax : Z)
    (installed : WALRecoveryView) (slot : Z) : WALRecoveryContext :=
  WALRecoveryContext.mk slot (JournalSlotsOf wal) retainedMin prepareMax untrustedMax installed.

(** A log whose recovery fails is not used any more, so an error carries no
    log. *)
Definition Recover (wal : WAL S) (checkpoint : CheckpointState) (commitMax : Z)
    (installed : WALRecoveryView) : result durable_error (WAL S * WALRecoveryReport) :=
  match ReadAt (WAL.storage wal) (zlen (WAL.headerRing wal)) (WALLayout.HeaderBase (WAL.layout wal)) with
  | (_, Err err) => Err (Joined ErrWALRecovery err)
  | (s, Ok ring) =>
      let wal := WAL.with_headerRing (WAL.with_storage wal s) ring in
      let count := length (WAL.slots wal) in
      match scan_slots wal (seq 0 count) (CheckpointCheck.PrepareOp checkpoint) with
      | (_, Err err) => Err err
      | (wal, Ok (scans, untrustedMax)) =>
          match prepareMaximum wal (CheckpointCheck.PrepareOp checkpoint) with
          | None => Err ErrWALRecovery
          | Some prepareMax =>
              '(wal, repairHeaders, faulty) ← resolve_slots wal 0 scans
                (context_of wal (CheckpointCheck.PrepareOp checkpoint) prepareMax untrustedMax installed);
              if negb (faulty =? 0) && (WAL.memberCount wal =? 1) then Err ErrWALUncertainSolo else
              wal ← (if repairHeaders : bool then
                       match WriteAt (WAL.storage wal) (WAL.headerRing wal)
                               (WALLayout.HeaderBase (WAL.layout wal)) with
                       | (_, Err err) => Err (Joined ErrWALRecovery err)
                       | (s, Ok _) =>
                           match Sync s with
                           | (_, Err err) => Err (Joined ErrWALRecovery err)
                           | (s, Ok _) => Ok (WAL.with_storage wal s)
                           end
                       end
                     else Ok wal);
              match DecodeHeader (CheckpointState.Header checkpoint) (WAL.group wal) (sizeMax wal)
                      (WAL.memberCount wal) with
              | (head, RejectNone) =>
                  if negb (Command head =? CommandPrepare) then Err ErrWALRecovery else
                  let '(head, headOp) := find_head count wal untrustedMax head (CheckpointCheck.PrepareOp checkpoint) in
                  if (headOp <? commitMax) && (faulty =? 0) then Err ErrWALRecovery
                  else Ok (wal, WALRecoveryReport.mk headOp head faulty untrustedMax)
              | _ => Err ErrWALRecovery
              end
          end
      end
  end.

(** ** Queries *)

Definition ReadPrepare (wal : WAL S) (op : Z) (destination : Z)
    : WAL S * result durable_error (list byte) :=
  let stride := WALLayout.PrepareStride (WAL.layout wal) in
  if destination <? stride then (wal, Err ErrInvalidWAL) else
  match prepareOffset wal (op mod JournalSlotsOf wal) with
  | None => (wal, Err ErrInvalidWAL)
  | Some offset =>
      match ReadAt (WAL.storage wal) stride offset with
      | (s, Err err) => (WAL.with_storage wal s, Err (Joined ErrStorage err))
      | (s, Ok physical) =>
          let wal := WAL.with_storage wal s in
          match physicalFrame wal physical with
          | None => (wal, Err ErrInvalidWAL)
          | Some frame =>
              match DecodeFrame frame (WAL.group wal) (sizeMax wal) (WAL.memberCount wal) with
              | (header, _, RejectNone) =>
                  if negb (Command header =? CommandPrepare) || negb (prepareOp header =? op)
                  then (wal, Err ErrInvalidWAL) else (wal, Ok frame)
              | _ => (wal, Err ErrInvalidWAL)
              end
          end
      end
  end.

Definition slotOf (wal : WAL S) (op : Z) : WALSlot := slotAt wal (op mod JournalSlotsOf wal).

Definition RecoveredHeader (wal : WAL S) (op : Z) : option Header :=
  let slot := slotOf wal op in
  if negb (WALSlot.Inhabited slot) || negb (WALSlot.Op slot =? op) || WALSlot.Faulty slot then None else
  match DecodeHeader (WALSlot.Authoritative slot) (WAL.group wal) (sizeMax wal) (WAL.memberCount wal) with
  | (header, RejectNone) => Some header
  | _ => None
  end.

(** [JoinEvidence]: the header when one is present, and whether the replica
    may say that it does not have the prepare. *)
Definition JoinEvidence (wal : WAL S) (op : Z) : option Header * bool :=
  let slot := slotOf wal op in
  if WALSlot.Faulty slot then (None, false) else
  if negb (WALSlot.Inhabited slot) || negb (WALSlot.Op slot =? op) then (None, true) else
  match DecodeHeader (WALSlot.Authoritative slot) (WAL.group wal) (sizeMax wal) (WAL.memberCount wal) with
  | (header, RejectNone) => (Some header, WALSlot.Dirty slot)
  | _ => (None, false)
  end.

Definition discard_slot (head : Z) (wal : WAL S) (index : nat) : WAL S :=
  let slot := slotAt wal (Z.of_nat index) in
  if negb (WALSlot.Inhabited slot) || (WALSlot.Op slot <=? head) then wal else
  let wal := set_slot wal (Z.of_nat index)
    (WALSlot.mk (WALSlot.Authoritative slot) (WALSlot.Redundant slot) (WALSlot.PrepareChecksum slot)
       (WALSlot.Op slot) (u64 (WALSlot.Generation slot + 1)) (WALSlot.Inhabited slot)
       (WALSlot.Dirty slot) (WALSlot.Faulty slot)) in
  let wal := installReservedSlot wal (Z.of_nat index) in
  set_ring wal (Z.of_nat index) (WALSlot.Authoritative (slotAt wal (Z.of_nat index))).

Definition DiscardAfter (wal : WAL S) (head : Z) : WAL S :=
  fold_left (discard_slot head) (seq 0 (length (WAL.slots wal))) wal.
End recovery.
