(* ===== verification/WalSafety.v ===== *)
(** * Safety of the write-ahead log

    The zones of the layout; the invariant that every clean slot is backed by
    the prepare on storage, kept by appends that may fail at any phase, by
    discards and by recovery; what recovery finds; and that a prepare the log
    has made durable is never denied after a crash. *)

From S2P Require Import Prelude Bytes Arith Checksum Header Config Storage Checkpoint Wal WalRecovery.

(** ** The layout *)

Record layout_of (cfg : ClusterConfig) (l : WALLayout) : Prop := {
  lo_headers : WALLayout.HeaderBase l = ClusterConfig.SuperblockCopies cfg * SuperblockBytes;
  lo_header_size : WALLayout.HeaderSize l = round_up (ClusterConfig.JournalSlots cfg * HeaderSize) SectorSize;
  lo_prepares : WALLayout.PrepareBase l = WALLayout.HeaderBase l + WALLayout.HeaderSize l;
  lo_stride : WALLayout.PrepareStride l = round_up (ClusterConfig.MessageSizeMax cfg) SectorSize;
  lo_prepare_size : WALLayout.PrepareSize l = ClusterConfig.JournalSlots cfg * WALLayout.PrepareStride l;
  lo_replies : WALLayout.ReplyBase l = WALLayout.PrepareBase l + WALLayout.PrepareSize l;
  lo_reply_stride : WALLayout.ReplyStride l = WALLayout.PrepareStride l;
  lo_reply_size : WALLayout.ReplySize l = ClusterConfig.ClientsMax cfg * WALLayout.PrepareStride l;
  lo_blocks : WALLayout.BlockBase l
    = round_up (WALLayout.ReplyBase l + WALLayout.ReplySize l) (ClusterConfig.BlockSize cfg);
  lo_block_size : 0 < ClusterConfig.BlockSize cfg;
  lo_fits : is_u64 (WALLayout.BlockBase l);
  lo_slots : is_u64 (ClusterConfig.JournalSlots cfg);
  lo_clients : is_u64 (ClusterConfig.ClientsMax cfg);
  lo_message : is_u64 (ClusterConfig.MessageSizeMax cfg);
  lo_headers_u64 : is_u64 (WALLayout.HeaderBase l);
  lo_stride_u64 : is_u64 (WALLayout.PrepareStride l);
}.

Lemma DeriveWALLayout_Some cfg l :
  ClusterConfig.typed cfg -> DeriveWALLayout cfg = Some l -> layout_of cfg l.
Proof.
  intros Ht H. unfold DeriveWALLayout in H.
  pose proof (ClusterConfig_typed cfg 1 _ Ht eq_refl) as Tl.
  pose proof (ClusterConfig_typed cfg 5 _ Ht eq_refl) as Tj.
  pose proof (ClusterConfig_typed cfg 6 _ Ht eq_refl) as Tm.
  pose proof (ClusterConfig_typed cfg 9 _ Ht eq_refl) as Tc.
  pose proof (ClusterConfig_typed cfg 10 _ Ht eq_refl) as Tb.
  assert (is_u64 SuperblockBytes) as T1 by done. assert (is_u64 HeaderSize) as T2 by done.
  assert (is_u64 SectorSize) as T3 by done.
  do 9 checked_step H. apply bind_Some in H as (base & E & H).
  apply checkedAlignUp_step in E as (-> & Tbase & Hpos); [|done..]. injection H as <-. split; cbn; done.
Qed.

(** Where a slot's header and prepare are. *)
Section zones.
Context (cfg : ClusterConfig) (l : WALLayout).
Hypothesis Hl : layout_of cfg l.

Lemma zone_order :
  0 <= WALLayout.HeaderBase l /\ 0 <= WALLayout.HeaderSize l /\ 0 <= WALLayout.PrepareStride l /\
  ClusterConfig.MessageSizeMax cfg <= WALLayout.PrepareStride l /\
  WALLayout.ReplyBase l <= WALLayout.BlockBase l < 2 ^ 64.
Proof.
  destruct Hl. assert (0 < SectorSize) as Hsec by done.
  destruct (round_up_spec (ClusterConfig.JournalSlots cfg * HeaderSize) SectorSize Hsec) as [_ H1].
  destruct (round_up_spec (ClusterConfig.MessageSizeMax cfg) SectorSize Hsec) as [_ H2].
  destruct (round_up_spec (WALLayout.ReplyBase l + WALLayout.ReplySize l) _ lo_block_size0) as [_ H3].
  unfold is_uint, HeaderSize in *. rewrite <- lo_blocks0 in H3. rewrite <- lo_header_size0 in H1.
  rewrite <- lo_stride0 in H2. nia.
Qed.

Lemma prepare_zone slot :
  0 <= slot < ClusterConfig.JournalSlots cfg ->
  WALLayout.PrepareBase l <= WALLayout.PrepareBase l + slot * WALLayout.PrepareStride l /\
  WALLayout.PrepareBase l + (slot + 1) * WALLayout.PrepareStride l <= WALLayout.ReplyBase l.
Proof. pose proof zone_order. destruct Hl. nia. Qed.

(** Different slots have disjoint prepares. *)
Lemma prepare_apart i j :
  i <> j -> apart_from (WALLayout.PrepareBase l + j * WALLayout.PrepareStride l)
    (WALLayout.PrepareBase l + (j + 1) * WALLayout.PrepareStride l)
    (WALLayout.PrepareBase l + i * WALLayout.PrepareStride l,
     WALLayout.PrepareBase l + (i + 1) * WALLayout.PrepareStride l).
Proof. pose proof zone_order. unfold apart_from. cbn [fst snd]. intros Hne. assert (i < j \/ j < i) as [?|?] by lia; [right|left]; nia. Qed.

(** The sector of a slot's header lies in the header zone. *)
Lemma header_sector slot :
  0 <= slot < ClusterConfig.JournalSlots cfg ->
  let sector := Z.ldiff (slot * HeaderSize) (SectorSize - 1) in
  0 <= sector <= slot * HeaderSize /\ (slot + 1) * HeaderSize <= sector + SectorSize /\
  sector + SectorSize <= WALLayout.HeaderSize l.
Proof.
  intros Hs sector. assert (0 < SectorSize) as Hsec by done.
  destruct (round_up_spec (ClusterConfig.JournalSlots cfg * HeaderSize) SectorSize Hsec) as [[c Hc] H1].
  assert (sector = slot * HeaderSize / SectorSize * SectorSize) as ->.
  { unfold sector. change (SectorSize - 1) with (2 ^ 12 - 1). change SectorSize with (2 ^ 12).
    apply ldiff_align. lia. }
  pose proof (lo_header_size _ _ Hl) as Hh. rewrite Hh. rewrite Hc in H1 |- *. clear Hh Hl Hc.
  change SectorSize with 4096 in *. unfold HeaderSize in *. div_lia.
Qed.

Lemma prepareOffset_Some {S} (wal : WAL S) slot :
  WAL.layout wal = l -> 0 <= slot < ClusterConfig.JournalSlots cfg ->
  prepareOffset wal slot = Some (WALLayout.PrepareBase l + slot * WALLayout.PrepareStride l).
Proof.
  intros E Hs. unfold prepareOffset. rewrite E. pose proof zone_order. pose proof (prepare_zone slot Hs).
  pose proof (lo_slots _ _ Hl). pose proof (lo_stride_u64 _ _ Hl) as Hst. pose proof (lo_prepares _ _ Hl).
  assert (is_u64 slot) as Hu by (unfold is_uint in *; lia).
  rewrite (proj2 (checkedMul_Some slot (WALLayout.PrepareStride l) (slot * WALLayout.PrepareStride l) Hu Hst))
    by (split; nia).
  cbn [mbind option_bind]. apply checkedAdd_Some; unfold is_uint; nia.
Qed.
End zones.

Lemma layout_BlockBase cfg : WALLayout.BlockBase <$> DeriveWALLayout cfg = BlockBase cfg.
Proof.
  unfold DeriveWALLayout, BlockBase. change HeaderBytes with HeaderSize.
  repeat (match goal with |- context [?m ≫= _] => destruct m; cbn [mbind option_bind fmap option_fmap option_map]; [|done] end).
  done.
Qed.

(** The log's layout.  It exists exactly when the block area has a base, and
    ends there; its zones follow each other without gap or overlap, below 2^64;
    every slot has its own prepare range inside the prepare zone, whose offset
    [prepareOffset] computes without overflow and which holds a message of the
    maximal size, and its header's sector inside the header zone. *)
Theorem wal_layout {S} (wal : WAL S) :
  let cfg := WAL.config wal in
  ClusterConfig.typed cfg ->
  WALLayout.BlockBase <$> DeriveWALLayout cfg = BlockBase cfg /\
  (DeriveWALLayout cfg = Some (WAL.layout wal) ->
   let l := WAL.layout wal in
   ClusterConfig.SuperblockCopies cfg * SuperblockBytes = WALLayout.HeaderBase l /\
   ClusterConfig.JournalSlots cfg * HeaderSize <= WALLayout.HeaderSize l /\
   WALLayout.HeaderBase l + WALLayout.HeaderSize l = WALLayout.PrepareBase l /\
   WALLayout.PrepareBase l + WALLayout.PrepareSize l = WALLayout.ReplyBase l /\
   WALLayout.ReplyBase l + WALLayout.ReplySize l <= WALLayout.BlockBase l < 2 ^ 64 /\
   ClusterConfig.MessageSizeMax cfg <= WALLayout.PrepareStride l /\
   forall slot, 0 <= slot < ClusterConfig.JournalSlots cfg ->
     let offset := WALLayout.PrepareBase l + slot * WALLayout.PrepareStride l in
     prepareOffset wal slot = Some offset /\
     offset + WALLayout.PrepareStride l <= WALLayout.ReplyBase l /\
     let sector := Z.ldiff (slot * HeaderSize) (SectorSize - 1) in
     sector <= slot * HeaderSize /\ (slot + 1) * HeaderSize <= sector + SectorSize <= WALLayout.HeaderSize l).
Proof.
  intros cfg Ht. split; [apply layout_BlockBase|]. intros Hd l.
  pose proof (DeriveWALLayout_Some _ _ Ht Hd) as Hl. fold l in Hl.
  pose proof (zone_order cfg l Hl) as Ho.
  destruct (round_up_spec (ClusterConfig.JournalSlots cfg * HeaderSize) SectorSize eq_refl) as [_ H1].
  destruct (round_up_spec (WALLayout.ReplyBase l + WALLayout.ReplySize l) _ (lo_block_size _ _ Hl)) as [_ H3].
  rewrite <- (lo_header_size _ _ Hl) in H1. rewrite <- (lo_blocks _ _ Hl) in H3.
  pose proof (lo_headers _ _ Hl). pose proof (lo_prepares _ _ Hl). pose proof (lo_replies _ _ Hl).
  split_and!; try lia. intros slot Hs. pose proof (header_sector cfg l Hl slot Hs) as Hsec.
  pose proof (prepare_zone cfg l Hl slot Hs) as Hz.
  split; [by apply (prepareOffset_Some cfg l Hl wal)|]. cbn zeta in Hsec. split; [nia|]. cbn zeta. lia.
Qed.

(** ** Frames in prepare slots *)

Lemma DecodeFrame_inv frame g m c h body :
  DecodeFrame frame g m c = (h, body, RejectNone) ->
  accepts (slice frame 0 256) g m c /\ h = parse_header (slice frame 0 256) /\
  256 <= zlen frame <= m /\ getUint (slice frame 96 100) = zlen frame.
Proof.
  unfold DecodeFrame, HeaderSize. destruct (Z.ltb_spec (zlen frame) 256); [done|].
  destruct (DecodeHeader _ _ _ _) as [hd []] eqn:Eh; try done.
  destruct (Z.eqb_spec (zlen frame) (Size hd)) as [El|]; [|done]. cbn [negb].
  destruct (ValidateBody _ _) eqn:Ev; try done. intros [= <- _].
  apply DecodeHeader_accepts in Eh as [Ha ->]. pose proof (acc_size _ _ _ _ Ha) as Hs.
  split; [done|]. split; [done|]. split; [lia|]. rewrite El. cbn. by rewrite slice_slice by lia.
Qed.

(** The buffer an append writes. *)
Definition padded (stride : Z) (frame : list byte) : list byte := put (zeros stride) 0 frame.

Section frames.
Context {S : Type} (wal : WAL S).
Let stride := WALLayout.PrepareStride (WAL.layout wal).

Lemma padded_frame frame h body g m c :
  DecodeFrame frame g m c = (h, body, RejectNone) -> zlen frame <= stride ->
  physicalFrame wal (padded stride frame) = Some frame /\
  slice (padded stride frame) 0 HeaderSize = slice frame 0 HeaderSize /\ zlen (padded stride frame) = stride.
Proof.
  intros (_ & _ & Hl & Hs)%DecodeFrame_inv Hle. unfold physicalFrame, padded, HeaderSize. fold stride.
  assert (zlen (put (zeros stride) 0 frame) = stride) as E by (rewrite zlen_put; rewrite ?zlen_zeros; lia).
  assert (forall a b, 0 <= a -> b <= zlen frame -> slice (put (zeros stride) 0 frame) a b = slice frame a b) as Hin.
  { intros a b Ha Hb. unfold put. rewrite app_assoc, slice_app_l.
    - by rewrite take_0.
    - done.
    - by rewrite take_0. }
  rewrite E, Hin, Hs by lia.
  destruct (Z.ltb_spec stride 256); [lia|]. destruct (Z.ltb_spec (zlen frame) 256); [lia|].
  destruct (Z.ltb_spec stride (zlen frame)); [lia|]. cbn [orb].
  assert (slice (put (zeros stride) 0 frame) (zlen frame) stride = zeros (stride - zlen frame)) as ->.
  { rewrite slice_put_after by (rewrite ?zlen_zeros; lia). apply slice_zeros; lia. }
  rewrite allZero_zeros. cbn [negb]. rewrite !Hin by lia. split; [|done].
  f_equal. by apply slice_all.
Qed.

(** A prepare of [op] whose header is [encoded] sits in these bytes. *)
Definition prepared (physical encoded : list byte) (op : Z) : Prop :=
  exists frame h body, physicalFrame wal physical = Some frame /\
    DecodeFrame frame (WAL.group wal) (sizeMax wal) (WAL.memberCount wal) = (h, body, RejectNone) /\
    Command h = CommandPrepare /\ prepareOp h = op /\ encoded = slice frame 0 HeaderSize.
End frames.

(** ** The invariant *)

Section safety.
Context {S : Type} `{StorageLaws S}.
Implicit Types wal : WAL S.

Record wf_wal (wal : WAL S) : Prop := {
  wf_config : ClusterConfig.typed (WAL.config wal);
  wf_layout : DeriveWALLayout (WAL.config wal) = Some (WAL.layout wal);
  wf_journal : 0 < JournalSlotsOf wal;
  wf_slots : Z.of_nat (length (WAL.slots wal)) = JournalSlotsOf wal;
  wf_ring : zlen (WAL.headerRing wal) = WALLayout.HeaderSize (WAL.layout wal);
  wf_buffer : zlen (WAL.prepareBuffer wal) = WALLayout.PrepareStride (WAL.layout wal);
  wf_group : zlen (WAL.group wal) = 16;
  wf_members : 0 < WAL.memberCount wal;
  wf_size : HeaderSize <= sizeMax wal;
  wf_storage : WALLayout.ReplyBase (WAL.layout wal) <= zlen (contents (WAL.storage wal));
  wf_headers : Forall (fun s => zlen (WALSlot.Authoritative s) = HeaderSize) (WAL.slots wal);
}.

Definition prepareAt wal (slot : Z) : list byte :=
  let l := WAL.layout wal in
  slice (contents (WAL.storage wal)) (WALLayout.PrepareBase l + slot * WALLayout.PrepareStride l)
    (WALLayout.PrepareBase l + (slot + 1) * WALLayout.PrepareStride l).

Definition ringAt wal (slot : Z) : list byte :=
  slice (WAL.headerRing wal) (slot * HeaderSize) ((slot + 1) * HeaderSize).

Definition headerAt wal (slot : Z) : list byte :=
  let base := WALLayout.HeaderBase (WAL.layout wal) in
  slice (contents (WAL.storage wal)) (base + slot * HeaderSize) (base + (slot + 1) * HeaderSize).

(** A slot that is clean describes the prepare on storage. *)
Definition backed wal (slot : Z) : Prop :=
  let s := slotAt wal slot in
  WALSlot.Inhabited s = true -> WALSlot.Dirty s = false ->
  WALSlot.Op s mod JournalSlotsOf wal = slot /\
  prepared wal (prepareAt wal slot) (WALSlot.Authoritative s) (WALSlot.Op s).

(** Logs that differ in their volatile parts only. *)
Record same_log wal wal' : Prop := {
  sl_config : WAL.config wal' = WAL.config wal;
  sl_group : WAL.group wal' = WAL.group wal;
  sl_members : WAL.memberCount wal' = WAL.memberCount wal;
  sl_layout : WAL.layout wal' = WAL.layout wal;
}.

Lemma prepared_same wal wal' physical encoded op :
  same_log wal wal' -> prepared wal' physical encoded op <-> prepared wal physical encoded op.
Proof.
  intros [Hc Hg Hm Hl]. unfold prepared, physicalFrame, sizeMax. by rewrite Hc, Hg, Hm, Hl.
Qed.

(** Backing depends on the slot and the prepare only. *)
Lemma backed_same wal wal' slot :
  same_log wal wal' -> slotAt wal' slot = slotAt wal slot -> prepareAt wal' slot = prepareAt wal slot ->
  backed wal slot -> backed wal' slot.
Proof.
  intros Hs E1 E2 Hb. unfold backed. rewrite E1, E2. intros Hi Hd. destruct (Hb Hi Hd) as [Hm Hp].
  split; [|by apply (prepared_same wal)]. unfold JournalSlotsOf in *. by rewrite (sl_config _ _ Hs).
Qed.

Lemma slotAt_set wal i j slot :
  0 <= i -> 0 <= j -> (Z.to_nat i < length (WAL.slots wal))%nat ->
  slotAt (set_slot wal i slot) j = if decide (i = j) then slot else slotAt wal j.
Proof.
  intros Hi Hj Hlt. unfold slotAt, set_slot. cbn. destruct (decide (i = j)) as [->|Hne].
  - by rewrite list_lookup_insert_eq by lia.
  - by rewrite list_lookup_insert_ne by lia.
Qed.

Lemma wf_index wal slot :
  wf_wal wal -> 0 <= slot < JournalSlotsOf wal -> (Z.to_nat slot < length (WAL.slots wal))%nat.
Proof. intros Hwf Hs. pose proof (wf_slots _ Hwf). lia. Qed.

Lemma wf_layout_of wal : wf_wal wal -> layout_of (WAL.config wal) (WAL.layout wal).
Proof. intros Hwf. apply DeriveWALLayout_Some; apply Hwf. Qed.

Lemma wf_stride wal : wf_wal wal -> sizeMax wal <= WALLayout.PrepareStride (WAL.layout wal).
Proof.
  intros Hwf. pose proof (wf_layout_of _ Hwf) as Hl. destruct (zone_order _ _ Hl) as (_ & _ & _ & Hm & _).
  pose proof (lo_message _ _ Hl) as Hu. unfold sizeMax, uwrap.
  pose proof (Z.mod_le (ClusterConfig.MessageSizeMax (WAL.config wal)) (2 ^ 32)). unfold is_uint in Hu. lia.
Qed.

Lemma slotAt_authoritative wal slot :
  wf_wal wal -> 0 <= slot < JournalSlotsOf wal ->
  zlen (WALSlot.Authoritative (slotAt wal slot)) = HeaderSize.
Proof.
  intros Hwf Hs. pose proof (wf_index _ _ Hwf Hs) as Hlt. unfold slotAt.
  destruct (lookup_lt_is_Some_2 (WAL.slots wal) (Z.to_nat slot)) as [s E]; [lia|]. rewrite E.
  exact (Forall_lookup_1 _ _ _ _ (wf_headers _ Hwf) E).
Qed.

Lemma op_slot wal op : wf_wal wal -> 0 <= op mod JournalSlotsOf wal < JournalSlotsOf wal.
Proof. intros Hwf. apply Z.mod_pos_bound, Hwf. Qed.
Lemma wf_same wal wal' :
  wf_wal wal -> same_log wal wal' -> length (WAL.slots wal') = length (WAL.slots wal) ->
  zlen (WAL.headerRing wal') = zlen (WAL.headerRing wal) ->
  zlen (WAL.prepareBuffer wal') = zlen (WAL.prepareBuffer wal) ->
  zlen (contents (WAL.storage wal')) = zlen (contents (WAL.storage wal)) ->
  Forall (fun s => zlen (WALSlot.Authoritative s) = HeaderSize) (WAL.slots wal') -> wf_wal wal'.
Proof.
  intros [] [Hc Hg Hm Hl] Hs Hr Hb Hd Hf. unfold sizeMax, JournalSlotsOf in *.
  split; unfold sizeMax, JournalSlotsOf; rewrite ?Hc, ?Hg, ?Hm, ?Hl, ?Hs, ?Hr, ?Hb, ?Hd; done.
Qed.

Lemma wf_set_slot wal slot s :
  wf_wal wal -> zlen (WALSlot.Authoritative s) = HeaderSize -> wf_wal (set_slot wal slot s).
Proof.
  intros Hwf Hs. apply (wf_same wal); try done; [by cbn; rewrite length_insert|].
  apply Forall_insert; [apply Hwf|done].
Qed.

Lemma wf_set_ring wal slot header :
  wf_wal wal -> 0 <= slot < JournalSlotsOf wal -> zlen header = HeaderSize -> wf_wal (set_ring wal slot header).
Proof.
  intros Hwf Hs Hh. apply (wf_same wal); try done; [|apply Hwf]. cbn [WAL.headerRing set_ring WAL.with_headerRing].
  pose proof (header_sector _ _ (wf_layout_of _ Hwf) slot Hs) as Hsec. cbn zeta in Hsec.
  pose proof (wf_ring _ Hwf). unfold HeaderSize in *. rewrite zlen_put; lia.
Qed.

Lemma wf_with_storage wal s :
  wf_wal wal -> zlen (contents s) = zlen (contents (WAL.storage wal)) -> wf_wal (WAL.with_storage wal s).
Proof. intros Hwf Hs. apply (wf_same wal); try done. apply Hwf. Qed.

Lemma wf_with_ioActive wal active : wf_wal wal -> wf_wal (WAL.with_ioActive wal active).
Proof. intros Hwf. apply (wf_same wal); try done. apply Hwf. Qed.

Lemma wf_with_prepareBuffer wal buffer :
  wf_wal wal -> zlen buffer = zlen (WAL.prepareBuffer wal) -> wf_wal (WAL.with_prepareBuffer wal buffer).
Proof. intros Hwf Hb. apply (wf_same wal); try done. apply Hwf. Qed.

(** A write to the prepare of one slot, or to the header zone, leaves the
    other prepares alone. *)
Lemma prepare_write wal slot bytes s r :
  wf_wal wal -> 0 <= slot < JournalSlotsOf wal -> zlen bytes = WALLayout.PrepareStride (WAL.layout wal) ->
  WriteAt (WAL.storage wal) bytes
    (WALLayout.PrepareBase (WAL.layout wal) + slot * WALLayout.PrepareStride (WAL.layout wal)) = (s, r) ->
  zlen (contents s) = zlen (contents (WAL.storage wal)) /\
  (forall j, 0 <= j < JournalSlotsOf wal -> j <> slot ->
     prepareAt (WAL.with_storage wal s) j = prepareAt wal j) /\
  (r = Ok tt -> prepareAt (WAL.with_storage wal s) slot = bytes).
Proof.
  intros Hwf Hs Hb Hw. pose proof (wf_layout_of _ Hwf) as Hl.
  pose proof (zone_order _ _ Hl). pose proof (prepare_zone _ _ Hl slot Hs). pose proof (lo_prepares _ _ Hl).
  pose proof (wf_storage _ Hwf). set (o := WALLayout.PrepareBase _ + _) in Hw.
  set (stride := WALLayout.PrepareStride _) in *.
  assert (0 <= o /\ o + zlen bytes = WALLayout.PrepareBase (WAL.layout wal) + (slot + 1) * stride) as [Ho Hend]
    by (unfold o; nia).
  pose proof (write_length (WAL.storage wal) bytes o ltac:(lia) ltac:(lia)) as Hlen. rewrite Hw in Hlen.
  split; [done|]. unfold prepareAt. cbn [WAL.layout WAL.storage WAL.with_storage]. fold stride. split.
  - intros j Hj Hne. pose proof (prepare_zone _ _ Hl j Hj).
    pose proof (prepare_apart _ _ Hl slot j ltac:(done)) as Hap. fold stride o in Hap. rewrite <- Hend in Hap.
    pose proof (write_outside (WAL.storage wal) bytes o
      (WALLayout.PrepareBase (WAL.layout wal) + j * stride)
      (WALLayout.PrepareBase (WAL.layout wal) + (j + 1) * stride)
      ltac:(lia) ltac:(lia) ltac:(lia) Hap) as E.
    by rewrite Hw in E.
  - intros ->. fold o. rewrite <- Hend.
    pose proof (write_ok (WAL.storage wal) bytes o ltac:(lia) ltac:(lia)) as E. rewrite Hw in E. by apply E.
Qed.

Lemma header_write wal bytes o s r :
  wf_wal wal -> WALLayout.HeaderBase (WAL.layout wal) <= o ->
  o + zlen bytes <= WALLayout.PrepareBase (WAL.layout wal) ->
  WriteAt (WAL.storage wal) bytes o = (s, r) ->
  zlen (contents s) = zlen (contents (WAL.storage wal)) /\
  forall j, 0 <= j < JournalSlotsOf wal -> prepareAt (WAL.with_storage wal s) j = prepareAt wal j.
Proof.
  intros Hwf Ho Hend Hw. pose proof (wf_layout_of _ Hwf) as Hl.
  pose proof (zone_order _ _ Hl). pose proof (wf_storage _ Hwf). pose proof (lo_prepares _ _ Hl).
  pose proof (prepare_zone _ _ Hl 0) as Hz. pose proof (wf_journal _ Hwf). unfold JournalSlotsOf in *.
  specialize (Hz ltac:(lia)). assert (0 <= o) as Ho' by lia.
  assert (o + zlen bytes <= zlen (contents (WAL.storage wal))) as Hin by lia.
  pose proof (write_length (WAL.storage wal) bytes o Ho' Hin) as Hlen. rewrite Hw in Hlen.
  split; [done|]. intros j Hj. pose proof (prepare_zone _ _ Hl j Hj). unfold prepareAt.
  cbn [WAL.layout WAL.storage WAL.with_storage].
  pose proof (write_outside (WAL.storage wal) bytes o
    (WALLayout.PrepareBase (WAL.layout wal) + j * WALLayout.PrepareStride (WAL.layout wal))
    (WALLayout.PrepareBase (WAL.layout wal) + (j + 1) * WALLayout.PrepareStride (WAL.layout wal))
    Ho' Hin ltac:(lia)) as E.
  rewrite Hw in E. apply E. right. cbn [fst snd]. lia.
Qed.
(** *** Appends *)

Definition sector_of (slot : Z) : Z := Z.ldiff (slot * HeaderSize) (SectorSize - 1).

Definition frame_of wal (slot : Z) (frame : list byte) : Prop :=
  prepareAt wal slot = padded (WALLayout.PrepareStride (WAL.layout wal)) frame.

(** The four phases of an append. *)
Inductive append_phase wal (seq : WALSequence) (frame : list byte) : Prop :=
| at_prepare :
    WALSequence.step seq = 0 -> WALSequence.phase seq = IOPhaseWrite ->
    WALSequence.buffer seq = PrepareBuffer ->
    WALSequence.offset seq = WALLayout.PrepareBase (WAL.layout wal)
      + WALSequence.index seq * WALLayout.PrepareStride (WAL.layout wal) ->
    WAL.prepareBuffer wal = padded (WALLayout.PrepareStride (WAL.layout wal)) frame ->
    append_phase wal seq frame
| at_prepare_sync :
    WALSequence.step seq = 1 -> WALSequence.phase seq = IOPhaseSync ->
    frame_of wal (WALSequence.index seq) frame -> append_phase wal seq frame
| at_header :
    WALSequence.step seq = 2 -> WALSequence.phase seq = IOPhaseWrite ->
    WALSequence.buffer seq = RingSector (sector_of (WALSequence.index seq)) ->
    WALSequence.offset seq = WALLayout.HeaderBase (WAL.layout wal) + sector_of (WALSequence.index seq) ->
    frame_of wal (WALSequence.index seq) frame ->
    ringAt wal (WALSequence.index seq) = slice frame 0 HeaderSize -> append_phase wal seq frame
| at_header_sync :
    WALSequence.step seq = 3 -> WALSequence.phase seq = IOPhaseSync ->
    frame_of wal (WALSequence.index seq) frame ->
    headerAt wal (WALSequence.index seq) = slice frame 0 HeaderSize -> append_phase wal seq frame.

(** What a completed append leaves on storage. *)
Definition durably_appended wal (slot : Z) (frame : list byte) : Prop :=
  frame_of wal slot frame /\ headerAt wal slot = slice frame 0 HeaderSize /\ unsynced (WAL.storage wal) = [].

(** The frame of an append and the slot it goes to. *)
Record append_frame wal (seq : WALSequence) (frame : list byte) (h : Header) (body : list byte) : Prop := {
  af_index : 0 <= WALSequence.index seq < JournalSlotsOf wal;
  af_decoded : DecodeFrame frame (WAL.group wal) (sizeMax wal) (WAL.memberCount wal) = (h, body, RejectNone);
  af_command : Command h = CommandPrepare;
  af_op : WALSlot.Op (slotAt wal (WALSequence.index seq)) = prepareOp h;
  af_slot : prepareOp h mod JournalSlotsOf wal = WALSequence.index seq;
  af_dirty : WALSlot.Dirty (slotAt wal (WALSequence.index seq)) = true;
}.

Definition all_backed wal : Prop := forall slot, 0 <= slot < JournalSlotsOf wal -> backed wal slot.

Lemma append_fits wal seq frame h body :
  wf_wal wal -> append_frame wal seq frame h body ->
  zlen frame <= WALLayout.PrepareStride (WAL.layout wal) /\ 256 <= zlen frame /\
  zlen (slice frame 0 HeaderSize) = HeaderSize.
Proof.
  intros Hwf Ha. pose proof (af_decoded _ _ _ _ _ Ha) as (_ & _ & Hl & _)%DecodeFrame_inv.
  pose proof (wf_stride _ Hwf). unfold HeaderSize. rewrite zlen_slice; lia.
Qed.

(** Changing one slot keeps the others backed. *)
Lemma backed_set_slot wal slot s :
  wf_wal wal -> 0 <= slot < JournalSlotsOf wal -> all_backed wal ->
  (WALSlot.Inhabited s = true -> WALSlot.Dirty s = false ->
   WALSlot.Op s mod JournalSlotsOf wal = slot /\
   prepared wal (prepareAt wal slot) (WALSlot.Authoritative s) (WALSlot.Op s)) ->
  all_backed (set_slot wal slot s).
Proof.
  intros Hwf Hs Hb Hnew j Hj. pose proof (wf_index _ _ Hwf Hs). change (JournalSlotsOf (set_slot wal slot s))
    with (JournalSlotsOf wal) in Hj.
  pose proof (slotAt_set wal slot j s ltac:(lia) ltac:(lia) ltac:(lia)) as E.
  destruct (decide (slot = j)) as [<-|Hne].
  - unfold backed. rewrite E. exact Hnew.
  - by apply (backed_same wal); [done|done|done|apply Hb].
Qed.

Lemma begin_append wal frame reusable wal' r :
  wf_wal wal -> all_backed wal -> beginAppend wal frame reusable = (wal', r) ->
  wf_wal wal' /\ all_backed wal' /\
  match r with
  | Ok seq => WAL.ioActive wal' = true /\ append_phase wal' seq frame /\
      exists h body, append_frame wal' seq frame h body
  | Err _ => WAL.ioActive wal' = WAL.ioActive wal /\ WAL.storage wal' = WAL.storage wal /\
      (WAL.ioActive wal = true -> wal' = wal)
  end.
Proof.
  intros Hwf Hb. unfold beginAppend. destruct (WAL.ioActive wal) eqn:Eio; [by intros [= <- <-]|].
  destruct (DecodeFrame _ _ _ _) as [[h body] []] eqn:Ed; try by intros [= <- <-].
  destruct (Z.eqb_spec (Command h) CommandPrepare) as [Ec|]; [|by intros [= <- <-]]. cbn [negb].
  change (getUint (slice (Fields h) 96 104)) with (prepareOp h).
  set (i := prepareOp h mod JournalSlotsOf wal). pose proof (op_slot wal (prepareOp h) Hwf) as Hi. fold i in Hi.
  destruct (_ && _ && _); [by intros [= <- <-]|]. set (slot := WALSlot.mk _ _ _ _ _ _ _ _).
  pose proof (DecodeFrame_inv _ _ _ _ _ _ Ed) as (_ & _ & Hl & _). pose proof (wf_stride _ Hwf) as Hst.
  pose proof (wf_buffer _ Hwf) as Hbuf.
  assert (put (zeros (zlen (WAL.prepareBuffer wal))) 0 (take (length (WAL.prepareBuffer wal)) frame)
    = padded (WALLayout.PrepareStride (WAL.layout wal)) frame) as ->.
  { unfold padded. rewrite Hbuf. f_equal. apply take_ge. unfold zlen in *. lia. }
  set (buffer := padded _ frame).
  assert (zlen (WALSlot.Authoritative slot) = HeaderSize) as Ha.
  { cbn [WALSlot.Authoritative slot]. pose proof (slotAt_authoritative _ _ Hwf Hi) as E. unfold HeaderSize in *.
    rewrite zlen_put; [done|lia|]. rewrite zlen_slice; lia. }
  assert (zlen buffer = WALLayout.PrepareStride (WAL.layout wal)) as Hbl.
  { by eapply (padded_frame wal); [exact Ed|lia]. }
  set (wal1 := WAL.with_prepareBuffer _ _).
  assert (wf_wal wal1) as Hwf1 by (apply wf_with_prepareBuffer; [by apply wf_set_slot|cbn; lia]).
  assert (all_backed wal1) as Hb1 by (apply (backed_set_slot wal i slot Hwf Hi Hb); done).
  rewrite (prepareOffset_Some _ _ (wf_layout_of _ Hwf1) wal1 i eq_refl Hi). intros [= <- <-].
  split; [by apply wf_with_ioActive|]. split; [exact Hb1|]. split; [done|]. split; [by apply at_prepare|].
  pose proof (slotAt_set wal i i slot ltac:(lia) ltac:(lia) (wf_index _ _ Hwf Hi)) as Es.
  rewrite decide_True in Es by done. exists h, body. split; try done; cbn [WALSequence.index];
    change (slotAt (WAL.with_ioActive wal1 true) i) with (slotAt (set_slot wal i slot) i); by rewrite Es.
Qed.

(** A write of a header's sector puts the ring's image of the header on
    storage. *)
Lemma sector_write wal s slot :
  wf_wal wal -> 0 <= slot < JournalSlotsOf wal ->
  WriteAt (WAL.storage wal) (bufferBytes wal (RingSector (sector_of slot)))
    (WALLayout.HeaderBase (WAL.layout wal) + sector_of slot) = (s, Ok tt) ->
  headerAt (WAL.with_storage wal s) slot = ringAt wal slot.
Proof.
  intros Hwf Hs Hw. pose proof (header_sector _ _ (wf_layout_of _ Hwf) _ Hs) as Hsec. cbn zeta in Hsec.
  fold (sector_of slot) in Hsec. set (sector := sector_of slot) in *.
  pose proof (zone_order _ _ (wf_layout_of _ Hwf)). pose proof (lo_prepares _ _ (wf_layout_of _ Hwf)).
  pose proof (prepare_zone _ _ (wf_layout_of _ Hwf) _ Hs). pose proof (wf_ring _ Hwf). pose proof (wf_storage _ Hwf).
  assert (zlen (bufferBytes wal (RingSector sector)) = SectorSize) as Hsl
    by (cbn [bufferBytes]; change SectorSize with 4096 in *; rewrite zlen_slice; lia).
  assert (0 <= WALLayout.HeaderBase (WAL.layout wal) + sector) as Ho by lia.
  assert (WALLayout.HeaderBase (WAL.layout wal) + sector + zlen (bufferBytes wal (RingSector sector))
    <= zlen (contents (WAL.storage wal))) as Hin by lia.
  pose proof (write_ok (WAL.storage wal) _ _ Ho Hin) as E. rewrite Hw in E. specialize (E eq_refl). cbn [fst] in E.
  rewrite Hsl in E. unfold headerAt, ringAt. cbn [WAL.layout WAL.storage WAL.with_storage].
  cbn [bufferBytes] in E. change SectorSize with 4096 in *. unfold HeaderSize in *.
  apply (f_equal (fun l => slice l (slot * 256 - sector) ((slot + 1) * 256 - sector))) in E.
  rewrite !slice_slice in E by lia. etransitivity; [|etransitivity; [exact E|]]; f_equal; lia.
Qed.

(** A physical operation of an append keeps every other prepare, and its own
    once it has been written. *)
Lemma append_physical wal seq frame h body wal' r :
  wf_wal wal -> append_phase wal seq frame -> append_frame wal seq frame h body ->
  physical wal seq = (wal', r) ->
  exists s, wal' = WAL.with_storage wal s /\ zlen (contents s) = zlen (contents (WAL.storage wal)) /\
    (forall j, 0 <= j < JournalSlotsOf wal -> j <> WALSequence.index seq -> prepareAt wal' j = prepareAt wal j) /\
    (r = Ok tt -> frame_of wal' (WALSequence.index seq) frame /\
       (WALSequence.step seq = 2 -> headerAt wal' (WALSequence.index seq) = slice frame 0 HeaderSize) /\
       (WALSequence.step seq = 3 -> durably_appended wal' (WALSequence.index seq) frame)).
Proof.
  intros Hwf Hp Ha. pose proof (append_fits _ _ _ _ _ Hwf Ha) as (Hfit & _).
  pose proof (af_index _ _ _ _ _ Ha) as Hi.
  destruct (padded_frame wal _ _ _ _ _ _ (af_decoded _ _ _ _ _ Ha) Hfit) as (_ & _ & Hpl).
  unfold physical, frame_of. destruct Hp as [E0 -> -> -> Eb|E1 -> Ef|E2 -> -> -> Ef Hr|E3 -> Ef Hh].
  - cbn [bufferBytes]. rewrite Eb. destruct (WriteAt _ _ _) as [s r'] eqn:Ew. intros [= <- <-].
    destruct (prepare_write wal _ _ _ _ Hwf Hi Hpl Ew) as (Hlen & Hj & Hok). exists s. split_and!; try done.
    intros Hr. split; [by apply Hok|]. rewrite E0. done.
  - destruct (Sync _) as [s r'] eqn:Es. intros [= <- <-]. pose proof (sync_contents (WAL.storage wal)) as E.
    rewrite Es in E. cbn in E. exists s. unfold prepareAt in *. cbn. rewrite E, E1. split_and!; done.
  - destruct (WriteAt _ _ _) as [s r'] eqn:Ew. intros [= <- <-].
    pose proof (header_sector _ _ (wf_layout_of _ Hwf) _ Hi) as Hsec. cbn zeta in Hsec.
    pose proof (lo_prepares _ _ (wf_layout_of _ Hwf)). pose proof (wf_ring _ Hwf).
    fold (sector_of (WALSequence.index seq)) in Hsec. set (sector := sector_of _) in *.
    assert (zlen (bufferBytes wal (RingSector sector)) = SectorSize) as Hsl
      by (cbn [bufferBytes]; change SectorSize with 4096 in *; rewrite zlen_slice; lia).
    destruct (header_write wal (bufferBytes wal (RingSector sector)) (WALLayout.HeaderBase (WAL.layout wal) + sector) _ _ Hwf
      ltac:(lia) ltac:(lia) Ew) as (Hlen & Hj).
    exists s. split; [done|]. split; [done|]. split; [by auto|]. intros ->. rewrite Hj, E2 by done.
    split; [done|]. split; [|done]. intros _. rewrite <- Hr.
    by apply (sector_write wal s (WALSequence.index seq) Hwf Hi Ew).
  - destruct (Sync _) as [s r'] eqn:Es. intros [= <- <-]. pose proof (sync_contents (WAL.storage wal)) as E.
    pose proof (sync_ok (WAL.storage wal)) as Hu. rewrite Es in E, Hu. cbn in E, Hu. exists s.
    unfold durably_appended, frame_of, headerAt, prepareAt in *. cbn. rewrite E, E3. split_and!; try done.
    intros ->. split; [done|]. split; [done|]. intros _. split_and!; [done|done|by apply Hu].
Qed.
Lemma append_frame_same wal wal' seq seq' frame h body :
  same_log wal wal' -> WALSequence.index seq' = WALSequence.index seq ->
  slotAt wal' (WALSequence.index seq) = slotAt wal (WALSequence.index seq) ->
  append_frame wal seq frame h body -> append_frame wal' seq' frame h body.
Proof.
  intros [Hc Hg Hm Hl] Hi Hs []. unfold sizeMax, JournalSlotsOf in *.
  split; unfold sizeMax, JournalSlotsOf; rewrite ?Hi, ?Hc, ?Hg, ?Hm, ?Hs; done.
Qed.

(** What the last phase of an append installs. *)
Lemma append_installs wal seq frame h body :
  wf_wal wal -> append_frame wal seq frame h body -> frame_of wal (WALSequence.index seq) frame ->
  prepared wal (prepareAt wal (WALSequence.index seq)) (slice frame 0 HeaderSize) (prepareOp h).
Proof.
  intros Hwf Ha Hf. pose proof (append_fits _ _ _ _ _ Hwf Ha) as (Hfit & _).
  destruct (padded_frame wal _ _ _ _ _ _ (af_decoded _ _ _ _ _ Ha) Hfit) as (Hp & _ & _).
  exists frame, h, body. rewrite Hf. split_and!; try done; apply Ha.
Qed.

Lemma ring_set wal slot header :
  wf_wal wal -> 0 <= slot < JournalSlotsOf wal -> zlen header = HeaderSize ->
  ringAt (set_ring wal slot header) slot = header.
Proof.
  intros Hwf Hs Hh. pose proof (header_sector _ _ (wf_layout_of _ Hwf) _ Hs) as Hsec. cbn zeta in Hsec.
  pose proof (wf_ring _ Hwf). unfold ringAt, set_ring. cbn. unfold HeaderSize in *. rewrite slice_put_same; lia || done.
Qed.

Lemma advance_append wal seq frame h body wal' r :
  wf_wal wal -> all_backed wal -> append_phase wal seq frame -> append_frame wal seq frame h body ->
  advanceAppend wal seq frame = (wal', r) ->
  wf_wal wal' /\ all_backed wal' /\ WAL.ioActive wal' = WAL.ioActive wal /\
  match r with
  | Ok seq' =>
      WALSequence.phase seq' = IOPhaseCompletion /\ durably_appended wal' (WALSequence.index seq) frame \/
      append_phase wal' seq' frame /\ append_frame wal' seq' frame h body
  | Err _ => True
  end.
Proof.
  intros Hwf Hb Hp Ha. unfold advanceAppend. destruct (physical wal seq) as [wal1 r1] eqn:Ep.
  pose proof (af_index _ _ _ _ _ Ha) as Hi.
  destruct (append_physical _ _ _ _ _ _ _ Hwf Hp Ha Ep) as (s & -> & Hlen & Hj & Hf).
  assert (wf_wal (WAL.with_storage wal s)) as Hwf1 by by apply wf_with_storage.
  assert (all_backed (WAL.with_storage wal s)) as Hb1.
  { intros j Hr. destruct (decide (j = WALSequence.index seq)) as [->|Hne].
    - unfold backed. cbn zeta. change (slotAt (WAL.with_storage wal s) ?i) with (slotAt wal i).
      rewrite (af_dirty _ _ _ _ _ Ha). done.
    - by apply (backed_same wal); [done|done|apply Hj|apply Hb]. }
  destruct r1 as [[]|e]; [|by intros [= <- <-]]. destruct (Hf eq_refl) as (Hf1 & Hf2 & Hf3). clear Hf.
  assert (append_frame (WAL.with_storage wal s) seq frame h body) as Ha1 by by apply (append_frame_same wal _ seq).
  set (wal1 := WAL.with_storage wal s) in *. change (WAL.ioActive wal) with (WAL.ioActive wal1).
  assert (JournalSlotsOf wal = JournalSlotsOf wal1) as EJ by done. rewrite EJ in Hi.
  clearbody wal1. clear Hwf Hb Hj Ha EJ Hlen Ep. unfold append_step.
  pose proof (append_fits _ _ _ _ _ Hwf1 Ha1) as (_ & _ & Hh).
  destruct Hp as [E _ _ _ _|E _ _|E _ _ _ _ _|E _ _ _]; rewrite !E; cbn [Z.eqb orb Pos.eqb].
  - intros [= <- <-]. split_and!; try done. right. split; [|by apply (append_frame_same wal1 _ seq)].
    apply at_prepare_sync; [cbn; by rewrite E|done..].
  - intros [= <- <-]. split_and!; [by apply wf_set_ring|done|done|]. right.
    split; [|by apply (append_frame_same wal1 _ seq)]. apply at_header; try done; [|by apply ring_set].
    cbn [WALSequence.next_step WALSequence.offset WALSequence.index WAL.layout set_ring WAL.with_headerRing].
    fold (sector_of (WALSequence.index seq)). apply uwrap_small.
    pose proof (header_sector _ _ (wf_layout_of _ Hwf1) _ Hi) as Hsec. cbn zeta in Hsec.
    fold (sector_of (WALSequence.index seq)) in Hsec.
    pose proof (zone_order _ _ (wf_layout_of _ Hwf1)). pose proof (lo_prepares _ _ (wf_layout_of _ Hwf1)).
    pose proof (prepare_zone _ _ (wf_layout_of _ Hwf1) _ Hi). change SectorSize with 4096 in *.
    unfold is_uint. lia.
  - intros [= <- <-]. split_and!; try done. right. split; [|by apply (append_frame_same wal1 _ seq)].
    apply at_header_sync; [cbn; by rewrite E|done|done|by apply Hf2].
  - destruct (_ || _) eqn:Eg; [by intros [= <- <-]|]. split_bool. intros [= <- <-].
    split_and!; [| |done|left; split; [done|by apply Hf3]].
    + apply wf_set_slot; [done|]. cbn. congruence.
    + apply backed_set_slot; try done. intros _ _. cbn [WALSlot.Op WALSlot.Authoritative].
      rewrite (af_op _ _ _ _ _ Ha1), (af_slot _ _ _ _ _ Ha1). split; [done|].
      match goal with E : WALSlot.Authoritative _ = _ |- _ => rewrite E end. by eapply append_installs.
Qed.
(** *** Recovery *)

Lemma reserved_header_wf group slot :
  zlen group = 16 ->
  wf_header (mkHeader (zeros 16) (zeros 16) group 0 0 0 0 ProtocolVersion CommandPrepare 0 (reserved_fields slot)).
Proof.
  intros Hg. by split.
Qed.

Lemma reserved_Ok wal slot :
  wf_wal wal -> exists reserved,
    ReservedPrepareHeader (WAL.group wal) slot (WAL.memberCount wal) (sizeMax wal) = Ok reserved /\
    zlen reserved = HeaderSize.
Proof.
  intros Hwf. pose proof (reserved_header_wf (WAL.group wal) slot (wf_group _ Hwf)) as Hh.
  unfold ReservedPrepareHeader. set (h := mkHeader _ _ _ _ _ _ _ _ _ _ _) in *.
  destruct (SealFrame (zeros HeaderSize) h) as [[encoded h']|e] eqn:Es.
  - destruct (SealFrame_inv _ _ _ _ Hh Es) as (enc & _ & Hl & -> & _ & _ & _ & He & Hwf1).
    rewrite zlen_zeros in He, Hwf1 by done. pose proof (wf_size _ Hwf). pose proof (wf_members _ Hwf).
    assert (put (zeros HeaderSize) 0 enc = enc) as ->.
    { unfold put. change (Z.to_nat 0) with 0%nat. rewrite drop_ge; [apply app_nil_r|].
      unfold zlen in Hl. unfold zeros, HeaderSize, zlen. rewrite length_replicate. lia. }
    assert (DecodeHeader enc (WAL.group wal) (sizeMax wal) (WAL.memberCount wal) = (h', RejectNone)) as ->.
    { apply (decode_encode_header _ (sizeMax wal) (WAL.memberCount wal) _ _ Hwf1 He); cbn; [done|lia]. }
    eauto.
  - exfalso. revert Es. unfold SealFrame. rewrite zlen_zeros by done.
    change (HeaderSize <? HeaderSize) with false. change (MaxUint32 <? HeaderSize) with false. cbn [orb].
    rewrite EncodeHeader_Ok by done. done.
Qed.

(** Logs that differ in their prepare buffer and their storage's hidden state. *)
Record same_data wal wal' : Prop := {
  sd_log : same_log wal wal';
  sd_slots : WAL.slots wal' = WAL.slots wal;
  sd_ring : WAL.headerRing wal' = WAL.headerRing wal;
  sd_buffer : zlen (WAL.prepareBuffer wal') = zlen (WAL.prepareBuffer wal);
  sd_contents : contents (WAL.storage wal') = contents (WAL.storage wal);
  sd_active : WAL.ioActive wal' = WAL.ioActive wal;
}.

Lemma same_data_trans wal1 wal2 wal3 : same_data wal1 wal2 -> same_data wal2 wal3 -> same_data wal1 wal3.
Proof. intros [[]] [[]]. split; [split|..]; congruence. Qed.

Lemma wf_same_data wal wal' : wf_wal wal -> same_data wal wal' -> wf_wal wal'.
Proof.
  intros Hwf [Hl Hs Hr Hb Hc _]. apply (wf_same wal); try done; rewrite ?Hs, ?Hr, ?Hc; try done. apply Hwf.
Qed.

Lemma decode_same wal wal' :
  same_log wal wal' ->
  (forall bytes slot, decodeRecoveryHeader wal' bytes slot = decodeRecoveryHeader wal bytes slot) /\
  (forall bytes slot, decodeRecoveryPrepare wal' bytes slot = decodeRecoveryPrepare wal bytes slot).
Proof.
  intros [Hc Hg Hm Hl]. unfold decodeRecoveryHeader, decodeRecoveryPrepare, physicalFrame, sizeMax.
  by rewrite Hc, Hg, Hm, Hl.
Qed.

Definition scan_of wal (slot : Z) (scan : scanned_slot) : Prop :=
  headerCandidate scan = decodeRecoveryHeader wal (ringAt wal slot) slot /\
  (prepareCandidate scan, prepareHeader scan) = decodeRecoveryPrepare wal (prepareAt wal slot) slot.

Lemma scan_of_same wal wal' slot scan : same_data wal wal' -> scan_of wal' slot scan <-> scan_of wal slot scan.
Proof.
  intros [Hl Hs Hr _ Hc _]. destruct (decode_same _ _ Hl) as [H1 H2]. unfold scan_of, ringAt, prepareAt.
  by rewrite H1, H2, Hr, Hc, (sl_layout _ _ Hl).
Qed.

Lemma maxCandidateOp_spec current c :
  current <= maxCandidateOp current c /\
  (WALCandidate.Kind c = WALCandidateOrdinary -> WALCandidate.Op c <= maxCandidateOp current c).
Proof.
  unfold maxCandidateOp, isKind. destruct (bool_decide _) eqn:E; split_bool; cbn [andb];
    destruct (Z.ltb_spec current (WALCandidate.Op c)); split; (lia || done).
Qed.

Lemma scan_slots_spec indices wal m wal' scans m' :
  wf_wal wal -> Forall (fun i => Z.of_nat i < JournalSlotsOf wal) indices ->
  scan_slots wal indices m = (wal', Ok (scans, m')) ->
  same_data wal wal' /\ Forall2 (fun i scan => scan_of wal (Z.of_nat i) scan) indices scans /\
  m <= m' /\ Forall (fun scan => WALCandidate.Kind (prepareCandidate scan) = WALCandidateOrdinary ->
    WALCandidate.Op (prepareCandidate scan) <= m') scans.
Proof.
  revert wal m scans. induction indices as [|i indices IH]; intros wal m scans Hwf Hi.
  { intros [= <- <- <-]. done. }
  apply Forall_cons in Hi as [Hi Hrest]. cbn [scan_slots].
  assert (0 <= Z.of_nat i < JournalSlotsOf wal) as Hr by lia. pose proof (wf_layout_of _ Hwf) as Hl.
  rewrite (prepareOffset_Some _ _ Hl wal _ eq_refl Hr). set (o := _ + _).
  destruct (ReadAt (WAL.storage wal) (zlen (WAL.prepareBuffer wal)) o) as [s [bytes|e]] eqn:Er; [|done].
  pose proof (zone_order _ _ Hl). pose proof (prepare_zone _ _ Hl _ Hr). pose proof (lo_prepares _ _ Hl).
  pose proof (wf_buffer _ Hwf) as Hbuf. rewrite Hbuf in Er.
  pose proof (read_contents (WAL.storage wal) (WALLayout.PrepareStride (WAL.layout wal)) o) as Hc.
  assert (0 <= o) as Ho by (unfold o; lia). assert (0 <= WALLayout.PrepareStride (WAL.layout wal)) as Hst by lia.
  pose proof (read_ok (WAL.storage wal) (WALLayout.PrepareStride (WAL.layout wal)) o bytes Ho Hst) as Hok.
  rewrite Er in Hc, Hok. destruct (Hok eq_refl) as [Hend Hbytes]. cbn in Hc.
  set (wal1 := WAL.with_prepareBuffer (WAL.with_storage wal s) bytes).
  assert (bytes = prepareAt wal (Z.of_nat i)) as Hb.
  { rewrite Hbytes. unfold prepareAt, o. f_equal. lia. }
  assert (same_data wal wal1) as Hsd.
  { split; try done. cbn. rewrite Hbytes, zlen_slice; lia. }
  destruct (decodeRecoveryPrepare wal1 bytes (Z.of_nat i)) as [candidate encoded] eqn:Ed.
  destruct (scan_slots wal1 indices _) as [wal2 [[rest m2]|e]] eqn:Es; [|done]. intros [= <- <- <-].
  apply IH in Es as (Hsd2 & HF & Hm & Hmax); [|by eapply wf_same_data|by unfold JournalSlotsOf].
  pose proof (maxCandidateOp_spec (maxCandidateOp m (decodeRecoveryHeader wal (ringAt wal (Z.of_nat i)) (Z.of_nat i)))
    candidate) as [Hm1 Hm2].
  pose proof (maxCandidateOp_spec m (decodeRecoveryHeader wal (ringAt wal (Z.of_nat i)) (Z.of_nat i))) as [Hm3 _].
  unfold ringAt in Hm1, Hm2, Hm3. split; [by eapply same_data_trans|]. split; [|split; [lia|]].
  - constructor.
    + split; [done|]. cbn. rewrite <- Hb, <- Ed. symmetry. apply (decode_same wal wal1), Hsd.
    + eapply Forall2_impl; [exact HF|]. intros j sc Hsc. by apply (scan_of_same wal wal1).
  - constructor; [|done]. cbn. intros Hk. specialize (Hm2 Hk). lia.
Qed.
Definition decision (scan : scanned_slot) (ctx : WALRecoveryContext) : WALRecoveryDecision :=
  ClassifyWALSlot (headerCandidate scan) (prepareCandidate scan) ctx.

(** What recovery makes of a slot. *)
Definition resolved (scan : scanned_slot) (ctx : WALRecoveryContext) (s : WALSlot) : Prop :=
  match decision scan ctx with
  | WALRecoveryClean | WALRecoveryLocalRepair =>
      WALSlot.Authoritative s = prepareHeader scan /\ WALSlot.Op s = WALCandidate.Op (prepareCandidate scan) /\
      WALSlot.Inhabited s = true /\ WALSlot.Dirty s = false /\ WALSlot.Faulty s = false
  | WALRecoveryCleanEmpty | WALRecoveryTruncate => WALSlot.Inhabited s = false /\ WALSlot.Faulty s = false
  | WALRecoveryRemoteRepair => WALSlot.Inhabited s = false /\ WALSlot.Faulty s = true
  | WALRecoveryFail => False
  end.

(** Logs with the same storage that differ in slots and header ring. *)
Record same_storage wal wal' : Prop := {
  ss_log : same_log wal wal';
  ss_storage : WAL.storage wal' = WAL.storage wal;
  ss_active : WAL.ioActive wal' = WAL.ioActive wal;
}.

Lemma same_storage_trans wal1 wal2 wal3 :
  same_storage wal1 wal2 -> same_storage wal2 wal3 -> same_storage wal1 wal3.
Proof. intros [[]] [[]]. split; [split|..]; congruence. Qed.

Lemma prepareAt_same wal wal' slot : same_storage wal wal' -> prepareAt wal' slot = prepareAt wal slot.
Proof. intros [Hl Hs _]. unfold prepareAt. by rewrite Hs, (sl_layout _ _ Hl). Qed.

Lemma slotAt_set_eq wal slot s :
  wf_wal wal -> 0 <= slot < JournalSlotsOf wal -> slotAt (set_slot wal slot s) slot = s.
Proof.
  intros Hwf Hs. pose proof (wf_index _ _ Hwf Hs). rewrite slotAt_set by lia. by rewrite decide_True.
Qed.

Lemma slotAt_set_ne wal slot s j :
  0 <= slot -> 0 <= j -> j <> slot -> slotAt (set_slot wal slot s) j = slotAt wal j.
Proof. intros Hs Hj Hne. unfold slotAt, set_slot. cbn. by rewrite list_lookup_insert_ne by lia. Qed.

Lemma install_reserved wal slot :
  wf_wal wal -> 0 <= slot < JournalSlotsOf wal ->
  exists s, installReservedSlot wal slot = set_slot wal slot s /\ zlen (WALSlot.Authoritative s) = HeaderSize /\
    WALSlot.Inhabited s = false /\ WALSlot.Faulty s = false.
Proof.
  intros Hwf Hs. destruct (reserved_Ok wal slot Hwf) as (reserved & Hr & Hl).
  unfold installReservedSlot. rewrite Hr. clear Hr. eexists. split; [reflexivity|]. done.
Qed.

Lemma resolve_slot_spec wal slot scan ctx wal' changed faulty :
  wf_wal wal -> 0 <= slot < JournalSlotsOf wal -> zlen (prepareHeader scan) = HeaderSize ->
  resolve_slot wal slot scan ctx = Ok (wal', changed, faulty) ->
  wf_wal wal' /\ same_storage wal wal' /\ resolved scan ctx (slotAt wal' slot) /\
  (forall j, 0 <= j -> j <> slot -> slotAt wal' j = slotAt wal j) /\
  faulty = bool_decide (decision scan ctx = WALRecoveryRemoteRepair).
Proof.
  intros Hwf Hs Hh. unfold resolve_slot, resolved, decision.
  destruct (install_reserved wal slot Hwf Hs) as (rs & -> & Hrl & Hri & Hrf).
  assert (forall s, zlen (WALSlot.Authoritative s) = HeaderSize -> wf_wal (set_slot wal slot s)) as Hwfs
    by (intros; by apply wf_set_slot).
  assert (forall s j, 0 <= j -> j <> slot -> slotAt (set_slot wal slot s) j = slotAt wal j) as Hne
    by (intros; apply slotAt_set_ne; lia).
  assert (forall s, slotAt (set_slot wal slot s) slot = s) as Heq by (intros; by apply slotAt_set_eq).
  unfold installRecoveredSlot.
  destruct (ClassifyWALSlot _ _ _); intros E; try discriminate E; injection E as <- <- <-.
  - rewrite Heq. split_and!; try done; [by apply Hwfs|by apply Hne].
  - rewrite Heq. split_and!; try done; [by apply Hwfs|by apply Hne].
  - split; [apply wf_set_ring; [by apply Hwfs|done|done]|]. split; [done|].
    change (slotAt (set_ring ?w _ _) ?j) with (slotAt w j). rewrite Heq. split_and!; try done.
    intros j Hj Hj'. change (slotAt (set_ring ?w _ _) ?j) with (slotAt w j). by apply Hne.
  - rewrite !Heq. set (s' := WALSlot.mk _ _ _ _ _ _ _ _).
    assert (wf_wal (set_slot wal slot rs)) as Hwf1 by by apply Hwfs.
    split; [by apply wf_set_slot|]. split; [done|]. rewrite slotAt_set_eq by done.
    split; [done|]. split; [|done]. intros j Hj Hj'. rewrite slotAt_set_ne by lia. by apply Hne.
  - rewrite Heq. split; [apply wf_set_ring; [by apply Hwfs|done|done]|]. split; [done|].
    change (slotAt (set_ring ?w _ _) ?j) with (slotAt w j). rewrite Heq. split_and!; try done.
    intros j Hj Hj'. change (slotAt (set_ring ?w _ _) ?j) with (slotAt w j). by apply Hne.
Qed.

(** The slots that need a remote repair. *)
Fixpoint faulty_count (ctx : Z -> WALRecoveryContext) (k : nat) (scans : list scanned_slot) : Z :=
  match scans with
  | [] => 0
  | scan :: scans =>
      let count := faulty_count ctx (Datatypes.S k) scans in
      if bool_decide (decision scan (ctx (Z.of_nat k)) = WALRecoveryRemoteRepair) then count + 1 else count
  end.

Lemma faulty_count_spec ctx k scans :
  0 <= faulty_count ctx k scans <= zlen scans /\
  (faulty_count ctx k scans = 0 -> forall j scan, scans !! j = Some scan ->
     decision scan (ctx (Z.of_nat (k + j))) <> WALRecoveryRemoteRepair).
Proof.
  revert k. induction scans as [|scan scans IH]; intros k; [done|]. cbn [faulty_count].
  destruct (IH (Datatypes.S k)) as [Hc Hn]. rewrite zlen_cons.
  destruct (bool_decide _) eqn:Ed; split_bool; (split; [lia|]); intros E; [lia|].
  intros [|j] sc Hsc; cbn in Hsc.
  - injection Hsc as <-. by rewrite Nat.add_0_r.
  - rewrite Nat.add_succ_r. by apply Hn.
Qed.

Lemma resolve_slots_spec scans wal k ctx wal' changed faulty :
  wf_wal wal -> Z.of_nat (k + length scans) <= JournalSlotsOf wal ->
  Forall (fun scan => zlen (prepareHeader scan) = HeaderSize) scans ->
  resolve_slots wal k scans ctx = Ok (wal', changed, faulty) ->
  wf_wal wal' /\ same_storage wal wal' /\ faulty = u32 (faulty_count ctx k scans) /\
  (forall j, 0 <= j < Z.of_nat k -> slotAt wal' j = slotAt wal j) /\
  (forall j scan, scans !! j = Some scan ->
     resolved scan (ctx (Z.of_nat (k + j))) (slotAt wal' (Z.of_nat (k + j)))).
Proof.
  revert wal k wal' changed faulty. induction scans as [|scan scans IH];
    intros wal k wal' changed faulty Hwf Hk HF E; cbn [resolve_slots] in E.
  { injection E as <- <- <-. split_and!; try done. }
  apply Forall_cons in HF as [Hh HF]. cbn [length] in Hk.
  apply result_bind_Ok in E as ([[wal1 c1] f1] & E1 & E). apply result_bind_Ok in E as ([[wal2 c2] f2] & E2 & E).
  injection E as <- <- <-.
  destruct (resolve_slot_spec wal (Z.of_nat k) scan _ _ _ _ Hwf ltac:(lia) Hh E1)
    as (Hwf1 & Hss1 & Hres & Hother & ->).
  assert (JournalSlotsOf wal1 = JournalSlotsOf wal) as EJ
    by (unfold JournalSlotsOf; by rewrite (sl_config _ _ (ss_log _ _ Hss1))).
  destruct (IH wal1 (Datatypes.S k) wal2 c2 f2 Hwf1 ltac:(rewrite EJ; lia) HF E2)
    as (Hwf2 & Hss2 & Hf & Hlow & Hall).
  split; [done|]. split; [by eapply same_storage_trans|].
  split; [|split].
  - cbn [faulty_count]. rewrite Hf. destruct (bool_decide _); [|done].
    unfold uwrap. by rewrite Zplus_mod_idemp_l.
  - intros j Hj. rewrite Hlow by lia. apply Hother; lia.
  - intros [|j] sc Hsc; cbn in Hsc.
    + injection Hsc as <-. rewrite Nat.add_0_r. by rewrite Hlow by lia.
    + rewrite Nat.add_succ_r. by apply Hall.
Qed.
(** What storage holds for a slot, as recovery reads it. *)
Definition stored_scan wal (slot : Z) (scan : scanned_slot) : Prop :=
  headerCandidate scan = decodeRecoveryHeader wal (headerAt wal slot) slot /\
  (prepareCandidate scan, prepareHeader scan) = decodeRecoveryPrepare wal (prepareAt wal slot) slot.

Lemma prepare_candidate wal physical slot c encoded :
  wf_wal wal -> decodeRecoveryPrepare wal physical slot = (c, encoded) ->
  zlen encoded = HeaderSize /\
  (WALCandidate.Kind c = WALCandidateOrdinary -> prepared wal physical encoded (WALCandidate.Op c)).
Proof.
  intros Hwf. unfold decodeRecoveryPrepare. destruct (reserved_Ok wal slot Hwf) as (reserved & -> & Hrl).
  destruct (allZero physical); [intros E; injection E as <- <-; split; [exact Hrl|discriminate]|].
  assert (forall c', (bareCandidate WALCandidateInvalid 0, zeros HeaderSize) = (c', encoded) ->
    zlen encoded = HeaderSize /\ (WALCandidate.Kind c' = WALCandidateOrdinary ->
      prepared wal physical encoded (WALCandidate.Op c'))) as Hinv.
  { intros c' E. injection E as <- <-. split; [reflexivity|discriminate]. }
  destruct (physicalFrame wal physical) as [frame|] eqn:Ef; [|apply Hinv].
  destruct (DecodeFrame frame _ _ _) as [[h body] []] eqn:Ed; try apply Hinv.
  destruct (Z.eqb_spec (Command h) CommandPrepare) as [Ec|]; [|apply Hinv]. cbn [negb].
  intros E. injection E as <- <-. pose proof (DecodeFrame_inv _ _ _ _ _ _ Ed) as (_ & _ & Hl & _).
  assert (slice frame 0 HeaderSize = slice physical 0 HeaderSize) as Eh.
  { unfold physicalFrame in Ef. step_guards Ef. injection Ef as <-. split_bool. by rewrite slice_slice, !Z.add_0_l by lia. }
  rewrite <- Eh. split; [unfold HeaderSize; rewrite zlen_slice; lia|].
  intros Hk. exists frame, h, body. split_and!; try done.
  unfold recoveryCandidate in *. repeat case_match; done.
Qed.

Lemma decision_installs scan ctx :
  decision scan ctx = WALRecoveryClean \/ decision scan ctx = WALRecoveryLocalRepair ->
  WALCandidate.Kind (prepareCandidate scan) = WALCandidateOrdinary /\
  WALCandidate.Op (prepareCandidate scan) mod WALRecoveryContext.JournalSlots ctx
    = WALRecoveryContext.PhysicalSlot ctx /\
  WALCandidate.Op (prepareCandidate scan) <= WALRecoveryContext.PrepareMax ctx /\
  obsoleteWALCandidate (prepareCandidate scan) (WALRecoveryContext.Installed ctx) = false.
Proof.
  intros Hd. unfold decision, ClassifyWALSlot in Hd.
  set (p := prepareCandidate scan) in *. set (h := headerCandidate scan) in *.
  destruct (impossibleWALCandidate h ctx || impossibleWALCandidate p ctx) eqn:Ei; [by destruct Hd|].
  destruct (futureWALCandidate h ctx || futureWALCandidate p ctx) eqn:Ef; [by destruct Hd|].
  apply orb_false_iff in Ei as [_ Ei], Ef as [_ Ef].
  assert (WALCandidate.Kind p = WALCandidateOrdinary /\
    obsoleteWALCandidate p (WALRecoveryContext.Installed ctx) = false) as [Hk Ho].
  { unfold retainedOrdinary, isKind in Hd.
    destruct (obsoleteWALCandidate p _) eqn:Eo.
    - rewrite orb_true_r, andb_false_r in Hd. cbn [negb] in Hd. rewrite andb_true_r in Hd.
      repeat case_match; split_bool; try (by destruct Hd); simplify_eq;
        destruct (obsoleteWALCandidate h _) eqn:?; split_bool; try done; destruct Hd; congruence.
    - repeat case_match; split_bool; try (by destruct Hd); done. }
  unfold impossibleWALCandidate, futureWALCandidate, isKind in Ei, Ef.
  rewrite bool_decide_true in Ei, Ef by done. cbn [andb] in Ei, Ef. split_bool. done.
Qed.

Lemma resolved_backed wal wal' slot scan ctx :
  wf_wal wal -> same_log wal wal' -> prepareAt wal' slot = prepareAt wal slot ->
  (prepareCandidate scan, prepareHeader scan) = decodeRecoveryPrepare wal (prepareAt wal slot) slot ->
  WALRecoveryContext.JournalSlots ctx = JournalSlotsOf wal -> WALRecoveryContext.PhysicalSlot ctx = slot ->
  resolved scan ctx (slotAt wal' slot) -> backed wal' slot.
Proof.
  intros Hwf Hl Hp Hd HJ Hs Hr Hi Hdirty. symmetry in Hd.
  assert (decision scan ctx = WALRecoveryClean \/ decision scan ctx = WALRecoveryLocalRepair) as Hdec.
  { unfold resolved in Hr. destruct (decision scan ctx); auto; destruct Hr as [E _] || destruct Hr; congruence. }
  destruct (decision_installs _ _ Hdec) as (Hk & Hm & _ & _).
  destruct (prepare_candidate _ _ _ _ _ Hwf Hd) as [_ Hprep].
  assert (WALSlot.Authoritative (slotAt wal' slot) = prepareHeader scan /\
    WALSlot.Op (slotAt wal' slot) = WALCandidate.Op (prepareCandidate scan)) as [Ea Eo].
  { unfold resolved in Hr. destruct Hdec as [E|E]; rewrite E in Hr; by destruct Hr as (? & ? & _). }
  rewrite Ea, Eo. split.
  - unfold JournalSlotsOf in *. by rewrite (sl_config _ _ Hl), <- HJ, Hm.
  - apply (prepared_same wal); [done|]. rewrite Hp. by apply Hprep.
Qed.
(** Reading the header zone makes the ring an image of it. *)
Lemma ring_read wal ring :
  wf_wal wal ->
  ring = slice (contents (WAL.storage wal)) (WALLayout.HeaderBase (WAL.layout wal))
    (WALLayout.HeaderBase (WAL.layout wal) + zlen (WAL.headerRing wal)) ->
  zlen ring = zlen (WAL.headerRing wal) /\
  forall slot, 0 <= slot < JournalSlotsOf wal ->
    slice ring (slot * HeaderSize) ((slot + 1) * HeaderSize) = headerAt wal slot.
Proof.
  intros Hwf ->. pose proof (wf_layout_of _ Hwf) as Hl. pose proof (zone_order _ _ Hl).
  pose proof (lo_prepares _ _ Hl). pose proof (wf_storage _ Hwf). pose proof (wf_ring _ Hwf) as Hr.
  pose proof (wf_journal _ Hwf) as HJ.
  pose proof (prepare_zone _ _ Hl 0 ltac:(unfold JournalSlotsOf in HJ; lia)).
  split; [rewrite Hr, zlen_slice; lia|]. intros slot Hs.
  pose proof (header_sector _ _ Hl slot Hs) as Hsec. cbn zeta in Hsec. change SectorSize with 4096 in *.
  unfold headerAt. unfold HeaderSize in *. by rewrite slice_slice by lia.
Qed.

(** Everything a successful recovery has established. *)
Record recovery wal (checkpoint : CheckpointState) (commitMax : Z) (installed : WALRecoveryView)
    wal' (report : WALRecoveryReport) (prepareMax : Z) (faulty : Z) (root : Header) : Prop := {
  rc_wf : wf_wal wal';
  rc_log : same_log wal wal';
  rc_active : WAL.ioActive wal' = WAL.ioActive wal;
  rc_prepares : forall slot, 0 <= slot < JournalSlotsOf wal -> prepareAt wal' slot = prepareAt wal slot;
  rc_max : prepareMaximum wal (CheckpointCheck.PrepareOp checkpoint) = Some prepareMax;
  rc_slots : forall slot, 0 <= slot < JournalSlotsOf wal ->
    exists scan, stored_scan wal slot scan /\
      let ctx := context_of wal (CheckpointCheck.PrepareOp checkpoint) prepareMax
        (WALRecoveryReport.UntrustedMax report) installed slot in
      resolved scan ctx (slotAt wal' slot) /\
      (faulty = 0 -> decision scan ctx <> WALRecoveryRemoteRepair) /\
      (WALCandidate.Kind (prepareCandidate scan) = WALCandidateOrdinary ->
       WALCandidate.Op (prepareCandidate scan) <= WALRecoveryReport.UntrustedMax report);
  rc_faulty : 0 <= faulty <= JournalSlotsOf wal /\ WALRecoveryReport.FaultySlots report = u32 faulty;
  rc_root : DecodeHeader (CheckpointState.Header checkpoint) (WAL.group wal) (sizeMax wal)
    (WAL.memberCount wal) = (root, RejectNone) /\ Command root = CommandPrepare;
  rc_head : find_head (length (WAL.slots wal)) wal' (WALRecoveryReport.UntrustedMax report) root
    (CheckpointCheck.PrepareOp checkpoint)
    = (WALRecoveryReport.HeadHeader report, WALRecoveryReport.HeadOp report);
  rc_commit : commitMax <= WALRecoveryReport.HeadOp report \/ WALRecoveryReport.FaultySlots report <> 0;
}.

(** The write of the repaired header ring. *)
Lemma repair_write wal (repair : bool) wal' :
  wf_wal wal ->
  (if repair then
     match WriteAt (WAL.storage wal) (WAL.headerRing wal) (WALLayout.HeaderBase (WAL.layout wal)) with
     | (_, Err err) => Err (Joined ErrWALRecovery err)
     | (s, Ok _) => match Sync s with
                    | (_, Err err) => Err (Joined ErrWALRecovery err)
                    | (s, Ok _) => Ok (WAL.with_storage wal s)
                    end
     end
   else Ok wal) = Ok wal' ->
  wf_wal wal' /\ same_log wal wal' /\ WAL.ioActive wal' = WAL.ioActive wal /\ WAL.slots wal' = WAL.slots wal /\
  forall slot, 0 <= slot < JournalSlotsOf wal -> prepareAt wal' slot = prepareAt wal slot.
Proof.
  intros Hwf. destruct repair; [|by intros [= <-]].
  destruct (WriteAt _ _ _) as [s [[]|e]] eqn:Ew; [|done]. destruct (Sync s) as [s' [[]|e]] eqn:Es; [|done].
  intros [= <-]. pose proof (lo_prepares _ _ (wf_layout_of _ Hwf)). pose proof (wf_ring _ Hwf).
  destruct (header_write wal (WAL.headerRing wal) (WALLayout.HeaderBase (WAL.layout wal)) _ _ Hwf ltac:(lia) ltac:(lia) Ew)
    as [Hlen Hp].
  pose proof (sync_contents s) as Hc. rewrite Es in Hc. cbn in Hc.
  split; [apply wf_with_storage; [done|by rewrite Hc]|]. split; [done|]. split; [done|]. split; [done|].
  intros slot Hs. rewrite <- (Hp slot Hs). unfold prepareAt. cbn. by rewrite Hc.
Qed.

Lemma Recover_inv wal checkpoint commitMax installed wal' report :
  wf_wal wal -> Recover wal checkpoint commitMax installed = Ok (wal', report) ->
  exists prepareMax faulty root, recovery wal checkpoint commitMax installed wal' report prepareMax faulty root.
Proof.
  intros Hwf. unfold Recover. pose proof (wf_layout_of _ Hwf) as Hl.
  destruct (ReadAt _ _ _) as [s [ring|e]] eqn:Er; [|done].
  assert (0 <= WALLayout.HeaderBase (WAL.layout wal)) as Hb0 by (pose proof (zone_order _ _ Hl); lia).
  pose proof (read_contents (WAL.storage wal) (zlen (WAL.headerRing wal)) (WALLayout.HeaderBase (WAL.layout wal))) as Hc.
  pose proof (read_ok (WAL.storage wal) _ _ ring Hb0 (zlen_nonneg (WAL.headerRing wal))) as Hok.
  rewrite Er in Hc, Hok. cbn in Hc. destruct (Hok eq_refl) as [_ Hring]. clear Hok.
  destruct (ring_read wal ring Hwf Hring) as [Hrl Hra].
  set (wal0 := WAL.with_headerRing (WAL.with_storage wal s) ring).
  assert (wf_wal wal0) as Hwf0 by (apply (wf_same wal); try done; [cbn; by rewrite Hc|apply Hwf]).
  destruct (scan_slots wal0 _ _) as [wal1 [[scans untrusted]|e]] eqn:Es; [|done].
  apply scan_slots_spec in Es as (Hsd & HF & _ & Hmax); [|done|].
  2:{ apply Forall_forall. intros i Hi%elem_of_seq. pose proof (wf_slots _ Hwf0). cbn in *. lia. }
  pose proof (wf_same_data _ _ Hwf0 Hsd) as Hwf1. pose proof (sd_log _ _ Hsd) as Hl1.
  destruct (prepareMaximum wal1 _) as [prepareMax|] eqn:Epm; [|done]. intros E.
  apply result_bind_Ok in E as ([[wal2 repair] faulty] & Eres & E).
  assert (length scans = length (WAL.slots wal)) as Hls.
  { apply Forall2_length in HF. rewrite length_seq in HF. by rewrite <- HF. }
  apply resolve_slots_spec in Eres as (Hwf2 & Hss & Hf & _ & Hres); [|done| |].
  2:{ rewrite Hls. pose proof (wf_slots _ Hwf). unfold JournalSlotsOf in *. rewrite (sl_config _ _ Hl1). cbn. lia. }
  2:{ apply Forall_forall. intros sc [j Hj]%list_elem_of_lookup.
      destruct (Forall2_lookup_r _ _ _ _ _ HF Hj) as (i & _ & _ & Hd). symmetry in Hd.
      by apply prepare_candidate in Hd as [? _]. }
  destruct (_ && _) in E; [done|]. apply result_bind_Ok in E as (wal3 & Ew & E).
  destruct (repair_write wal2 repair wal3 Hwf2 Ew) as (Hwf3 & Hl3 & Ha3 & Hs3 & Hp3).
  pose proof (ss_log _ _ Hss) as Hl2.
  assert (same_log wal wal3) as Hlog.
  { destruct Hl1, Hl2, Hl3. split; cbn in *; congruence. }
  unfold sizeMax in E. rewrite (sl_config _ _ Hlog), (sl_group _ _ Hlog), (sl_members _ _ Hlog) in E.
  destruct (DecodeHeader _ _ _ _) as [root []] eqn:Eroot in E; try done.
  destruct (Z.eqb_spec (Command root) CommandPrepare) as [Ecmd|]; [|done]. cbn [negb] in E.
  destruct (find_head _ _ _ _ _) as [head headOp] eqn:Eh. destruct (_ && _) eqn:Ecm in E; [done|].
  injection E as <- <-.
  set (ctx := context_of wal1 _ _ _ _) in *. destruct (faulty_count_spec ctx 0 scans) as [Hf0 Hf1].
  exists prepareMax, (faulty_count ctx 0 scans), root. split; try done; cbn.
  - rewrite Ha3, (ss_active _ _ Hss), (sd_active _ _ Hsd). done.
  - intros slot Hs. rewrite Hp3.
    + rewrite (prepareAt_same wal1 wal2) by done. unfold prepareAt.
      rewrite (sd_contents _ _ Hsd), (sl_layout _ _ Hl1). cbn. by rewrite Hc.
    + unfold JournalSlotsOf in *. rewrite (sl_config _ _ Hl2), (sl_config _ _ Hl1). done.
  - unfold prepareMaximum in *. by rewrite (sl_config _ _ Hl1) in Epm.
  - intros slot Hs. pose proof (wf_slots _ Hwf) as Hn.
    destruct (lookup_lt_is_Some_2 scans (Z.to_nat slot) ltac:(lia)) as [scan Hscan].
    destruct (Forall2_lookup_r _ _ _ _ _ HF Hscan) as (i & Hi & Hh & Hd). apply lookup_seq in Hi as [-> _].
    cbn [Nat.add] in Hh, Hd. rewrite Z2Nat.id in Hh, Hd by lia. exists scan.
    pose proof (Hres _ _ Hscan) as Hr1. pose proof (fun E => Hf1 E _ _ Hscan) as Hr2.
    cbn [Nat.add] in Hr1, Hr2. rewrite Z2Nat.id in Hr1, Hr2 by lia.
    pose proof (Forall_lookup_1 _ _ _ _ Hmax Hscan) as Hr3. split.
    + split; [rewrite Hh; unfold ringAt; cbn; by rewrite Hra|]. rewrite Hd. unfold prepareAt. cbn. by rewrite Hc.
    + unfold slotAt in *. rewrite Hs3.
      assert (context_of wal1 (CheckpointCheck.PrepareOp checkpoint) prepareMax untrusted installed slot
        = context_of wal (CheckpointCheck.PrepareOp checkpoint) prepareMax untrusted installed slot) as <-
        by (unfold context_of, JournalSlotsOf; by rewrite (sl_config _ _ Hl1)). done.
  - split; [|done]. unfold zlen in Hf0. rewrite Hls in Hf0. pose proof (wf_slots _ Hwf). lia.
  - destruct (Z.ltb_spec headOp commitMax); [|by left]. right. cbn [andb] in Ecm. by apply Z.eqb_neq.
Qed.
(** *** Discards and new logs *)

Lemma discard_slot_spec head wal index :
  wf_wal wal -> all_backed wal -> Z.of_nat index < JournalSlotsOf wal ->
  let wal' := discard_slot head wal index in
  wf_wal wal' /\ all_backed wal' /\ same_storage wal wal'.
Proof.
  intros Hwf Hb Hi. unfold discard_slot. cbn zeta. destruct (_ || _); [done|].
  set (slot := WALSlot.mk _ _ _ _ _ _ _ _). set (wal1 := set_slot wal _ slot).
  assert (0 <= Z.of_nat index < JournalSlotsOf wal) as Hr by lia.
  assert (wf_wal wal1) as Hwf1 by (apply wf_set_slot; [done|by apply slotAt_authoritative]).
  destruct (install_reserved wal1 (Z.of_nat index) Hwf1 Hr) as (rs & -> & Hrl & Hri & _).
  assert (set_slot wal1 (Z.of_nat index) rs = set_slot wal (Z.of_nat index) rs) as ->.
  { unfold wal1, set_slot, WAL.with_slots. cbn. f_equal. apply list_insert_insert_eq. }
  assert (wf_wal (set_slot wal (Z.of_nat index) rs)) as Hwf2 by by apply wf_set_slot.
  rewrite slotAt_set_eq by done. split; [by apply wf_set_ring|]. split; [|done].
  apply (backed_set_slot wal (Z.of_nat index) rs); try done. by rewrite Hri.
Qed.

Lemma discard_after wal head :
  wf_wal wal -> all_backed wal ->
  wf_wal (DiscardAfter wal head) /\ all_backed (DiscardAfter wal head) /\
  same_storage wal (DiscardAfter wal head).
Proof.
  intros Hwf Hb. unfold DiscardAfter.
  assert (Forall (fun i => Z.of_nat i < JournalSlotsOf wal) (seq 0 (length (WAL.slots wal)))) as HF.
  { apply Forall_forall. intros i Hi%elem_of_seq. pose proof (wf_slots _ Hwf). lia. }
  revert HF. generalize (seq 0 (length (WAL.slots wal))) as indices. intros indices. revert wal Hwf Hb.
  induction indices as [|i indices IH]; intros wal Hwf Hb HF; [done|].
  apply Forall_cons in HF as [Hi HF]. cbn [fold_left].
  destruct (discard_slot_spec head wal i Hwf Hb Hi) as (Hwf1 & Hb1 & Hss).
  destruct (IH (discard_slot head wal i) Hwf1 Hb1) as (Hwf2 & Hb2 & Hss2).
  { unfold JournalSlotsOf in *. by rewrite (sl_config _ _ (ss_log _ _ Hss)). }
  split; [done|]. split; [done|]. by eapply same_storage_trans.
Qed.

Lemma new_slots_spec group memberCount m indices ring slots ring' :
  new_slots group memberCount m indices ring = Ok (slots, ring') ->
  Forall (fun i => (Z.of_nat i + 1) * HeaderSize <= zlen ring) indices ->
  length slots = length indices /\ zlen ring' = zlen ring /\
  Forall (fun s => zlen (WALSlot.Authoritative s) = HeaderSize /\ WALSlot.Inhabited s = false) slots /\
  (indices <> [] -> HeaderSize <= m).
Proof.
  revert ring slots. induction indices as [|i indices IH]; intros ring slots Hn HF; cbn [new_slots] in Hn.
  { injection Hn as <- <-. done. }
  apply Forall_cons in HF as [Hi HF].
  apply result_bind_Ok in Hn as (reserved & Hr & Hn). apply result_bind_Ok in Hn as ([rest ring1] & H1 & Hn).
  injection Hn as <- <-. unfold ReservedPrepareHeader in Hr.
  destruct (SealFrame _ _) as [[encoded h']|]; [|discriminate Hr].
  destruct (DecodeHeader encoded _ _ _) as [hd []] eqn:Ed; try discriminate Hr. injection Hr as <-.
  apply DecodeHeader_accepts in Ed as [Ha _]. pose proof (acc_length _ _ _ _ Ha) as Hl.
  pose proof (acc_size _ _ _ _ Ha).
  assert (zlen (put ring (Z.of_nat i * HeaderSize) encoded) = zlen ring) as Hz
    by (unfold HeaderSize in *; rewrite zlen_put; lia).
  apply IH in H1 as (Hlen & Hring & Hall & _); [|by rewrite Hz].
  cbn [length]. split_and!; [lia|lia|by constructor|unfold HeaderSize; lia].
Qed.

Lemma NewWAL_wf s cfg group memberCount wal base :
  ClusterConfig.typed cfg -> zlen group = 16 -> 0 <= memberCount ->
  BlockBase cfg = Some base -> base <= zlen (contents s) ->
  NewWAL s cfg group memberCount = Ok wal ->
  wf_wal wal /\ all_backed wal /\ WAL.ioActive wal = false /\ WAL.storage wal = s.
Proof.
  intros Ht Hg Hm Hbase Hc H'. unfold NewWAL in H'. rewrite <- layout_BlockBase in Hbase.
  destruct (DeriveWALLayout cfg) as [l|] eqn:El; [|done]. cbn in Hbase. injection Hbase as <-.
  pose proof (DeriveWALLayout_Some cfg l Ht El) as Hl. pose proof (zone_order cfg l Hl) as Hz.
  step_guards H'. split_bool.
  apply result_bind_Ok in H' as (ring & Hring & H'). apply result_bind_Ok in H' as (buffer & Hbuf & H').
  apply result_bind_Ok in H' as ([slots ring'] & Hslots & H'). injection H' as <-.
  unfold NewAlignedBuffer in Hring, Hbuf. step_guards Hring. step_guards Hbuf. injection Hring as <-.
  injection Hbuf as <-. split_bool. pose proof (lo_header_size _ _ Hl) as Hh.
  assert (0 < ClusterConfig.JournalSlots cfg) as HJ.
  { destruct (Z.eqb_spec (ClusterConfig.JournalSlots cfg) 0) as [E|]; [|pose proof (lo_slots _ _ Hl); unfold is_uint in *; lia].
    rewrite E in Hh. done. }
  destruct (round_up_spec (ClusterConfig.JournalSlots cfg * HeaderSize) SectorSize eq_refl) as [_ Hru].
  rewrite <- Hh in Hru.
  apply new_slots_spec in Hslots as (Hlen & Hrl & Hall & Hsize).
  2:{ apply Forall_forall. intros i Hi%elem_of_seq. rewrite zlen_zeros by lia. unfold HeaderSize in *. lia. }
  rewrite length_seq in Hlen. rewrite zlen_zeros in Hrl by lia.
  assert (forall slot, WALSlot.Inhabited (default zeroSlot (slots !! slot)) = false) as Hempty.
  { intros slot. destruct (slots !! slot) as [x|] eqn:Ex; [|done].
    exact (proj2 (Forall_lookup_1 _ _ _ _ Hall Ex)). }
  split_and!; try done.
  - split; cbn; try done; try lia.
    + rewrite Hlen. unfold JournalSlotsOf. cbn. lia.
    + by rewrite zlen_zeros by lia.
    + apply Hsize. intros E. apply (f_equal length) in E. rewrite length_seq in E. cbn in E. lia.
    + eapply Forall_impl; [exact Hall|]. by intros x [? _].
  - intros slot _ Hi. unfold slotAt in Hi. cbn in Hi. by rewrite Hempty in Hi.
Qed.
(** ** The log as a transition system *)

(** A log with the append it is in, if any. *)
Abbreviation log_state := (WAL S * option (WALSequence * list byte))%type.

Inductive log_step : log_state -> log_state -> Prop :=
| step_begin wal frame reusable wal' seq :
    beginAppend wal frame reusable = (wal', Ok seq) -> log_step (wal, None) (wal', Some (seq, frame))
| step_refuse wal pending frame reusable wal' err :
    beginAppend wal frame reusable = (wal', Err err) -> log_step (wal, pending) (wal', pending)
| step_advance wal seq frame wal' seq' :
    advanceAppend wal seq frame = (wal', Ok seq') -> WALSequence.phase seq' <> IOPhaseCompletion ->
    log_step (wal, Some (seq, frame)) (wal', Some (seq', frame))
| step_complete wal seq frame wal' seq' :
    advanceAppend wal seq frame = (wal', Ok seq') -> WALSequence.phase seq' = IOPhaseCompletion ->
    log_step (wal, Some (seq, frame)) (WAL.with_ioActive wal' false, None)
| step_fail wal seq frame wal' err :
    advanceAppend wal seq frame = (wal', Err err) ->
    log_step (wal, Some (seq, frame)) (WAL.with_ioActive wal' false, None)
| step_abandon wal seq frame : log_step (wal, Some (seq, frame)) (WAL.with_ioActive wal false, None)
| step_discard wal head : log_step (wal, None) (DiscardAfter wal head, None)
| step_recover wal checkpoint commitMax installed wal' report :
    Recover wal checkpoint commitMax installed = Ok (wal', report) -> log_step (wal, None) (wal', None)
| step_read wal pending op destination wal' r :
    ReadPrepare wal op destination = (wal', r) -> log_step (wal, pending) (wal', pending).

Inductive log_reachable : log_state -> Prop :=
| reachable_new s cfg group memberCount base wal :
    ClusterConfig.typed cfg -> zlen group = 16 -> 0 <= memberCount ->
    BlockBase cfg = Some base -> base <= zlen (contents s) ->
    NewWAL s cfg group memberCount = Ok wal -> log_reachable (wal, None)
| reachable_step st st' : log_reachable st -> log_step st st' -> log_reachable st'.

Definition log_inv (st : log_state) : Prop :=
  wf_wal st.1 /\ all_backed st.1 /\
  match st.2 with
  | None => WAL.ioActive st.1 = false
  | Some (seq, frame) => WAL.ioActive st.1 = true /\ append_phase st.1 seq frame /\
      exists h body, append_frame st.1 seq frame h body
  end.

Lemma ReadPrepare_storage wal op destination wal' r :
  ReadPrepare wal op destination = (wal', r) ->
  wal' = wal \/ exists n o, wal' = WAL.with_storage wal (ReadAt (WAL.storage wal) n o).1.
Proof.
  unfold ReadPrepare. destruct (_ <? _); [intros [= <- <-]; auto|].
  destruct (prepareOffset _ _) as [o|]; [|intros [= <- <-]; auto].
  destruct (ReadAt _ _ _) as [s [physical|e]] eqn:Er; intros E; right;
    exists (WALLayout.PrepareStride (WAL.layout wal)), o; rewrite Er; [|by injection E as <- _].
  repeat case_match; by injection E as <- _.
Qed.

(** Replacing the storage by one with the same contents keeps the invariant. *)
Lemma log_inv_storage wal pending s :
  contents s = contents (WAL.storage wal) -> log_inv (wal, pending) -> log_inv (WAL.with_storage wal s, pending).
Proof.
  intros Hc (Hwf & Hb & Hp). cbn [fst snd] in *.
  assert (forall slot, prepareAt (WAL.with_storage wal s) slot = prepareAt wal slot) as Hpa
    by (intros; unfold prepareAt; cbn; by rewrite Hc).
  split; [apply wf_with_storage; [done|by rewrite Hc]|]. split; cbn [fst snd].
  - intros slot Hs. by apply (backed_same wal); [done|done|done|apply Hb].
  - destruct pending as [[seq frame]|]; [|done]. destruct Hp as (Hio & Hph & h & body & Hf).
    split; [done|]. split; [|exists h, body; by apply (append_frame_same wal _ seq)].
    destruct Hph; [by apply at_prepare|apply at_prepare_sync|apply at_header|apply at_header_sync]; try done;
      unfold frame_of, headerAt in *; cbn; by rewrite ?Hpa, ?Hc.
Qed.

Lemma log_inv_step st st' : log_inv st -> log_step st st' -> log_inv st'.
Proof.
  intros Hinv Hstep. destruct Hstep as [wal frame r wal' seq E|wal pending frame r wal' err E
    |wal seq frame wal' seq' E Hph|wal seq frame wal' seq' E Hph|wal seq frame wal' err E|wal seq frame
    |wal head|wal cp cm inst wal' report E|wal pending op n wal' r E].
  - destruct Hinv as (Hwf & Hb & _). destruct (begin_append _ _ _ _ _ Hwf Hb E) as (? & ? & ? & ? & ?).
    by split_and!.
  - destruct Hinv as (Hwf & Hb & Hp). cbn [fst snd] in *.
    destruct (begin_append _ _ _ _ _ Hwf Hb E) as (Hwf' & Hb' & Hio & _ & Hact).
    destruct pending as [[seq f]|]; [|split_and!; cbn in *; [done|done|congruence]].
    destruct Hp as [Ha Hp]. rewrite (Hact Ha). by split_and!.
  - destruct Hinv as (Hwf & Hb & Hio & Hp & h & body & Hf).
    destruct (advance_append _ _ _ _ _ _ _ Hwf Hb Hp Hf E) as (Hwf' & Hb' & Hio' & [[Hc _]|[Hp' Hf']]); [done|].
    split; [done|]. split; [done|]. cbn in *. split; [congruence|]. split; [done|eauto].
  - destruct Hinv as (Hwf & Hb & Hio & Hp & h & body & Hf).
    destruct (advance_append _ _ _ _ _ _ _ Hwf Hb Hp Hf E) as (Hwf' & Hb' & _).
    split_and!; [by apply wf_with_ioActive|exact Hb'|done].
  - destruct Hinv as (Hwf & Hb & Hio & Hp & h & body & Hf).
    destruct (advance_append _ _ _ _ _ _ _ Hwf Hb Hp Hf E) as (Hwf' & Hb' & _).
    split_and!; [by apply wf_with_ioActive|exact Hb'|done].
  - destruct Hinv as (Hwf & Hb & _). split_and!; [by apply wf_with_ioActive|exact Hb|done].
  - destruct Hinv as (Hwf & Hb & Hio). destruct (discard_after wal head Hwf Hb) as (Hwf' & Hb' & Hss).
    split_and!; cbn in *; try done. by rewrite (ss_active _ _ Hss).
  - destruct Hinv as (Hwf & Hb & Hio). destruct (Recover_inv _ _ _ _ _ _ Hwf E) as (pm & faulty & root & Hrc).
    split_and!; cbn in *; [apply Hrc| |by rewrite (rc_active _ _ _ _ _ _ _ _ _ Hrc)].
    intros slot Hs. pose proof (rc_log _ _ _ _ _ _ _ _ _ Hrc) as Hlog.
    assert (0 <= slot < JournalSlotsOf wal) as Hs'
      by (unfold JournalSlotsOf in *; by rewrite (sl_config _ _ Hlog) in Hs).
    destruct (rc_slots _ _ _ _ _ _ _ _ _ Hrc slot Hs') as (scan & [_ Hd] & Hres & _).
    pose proof (rc_prepares _ _ _ _ _ _ _ _ _ Hrc slot Hs') as Hpa.
    refine (resolved_backed wal wal' slot scan _ Hwf Hlog Hpa Hd _ _ Hres); reflexivity.
  - destruct (ReadPrepare_storage _ _ _ _ _ E) as [->|(n' & o & ->)]; [done|].
    apply log_inv_storage; [apply read_contents|done].
Qed.

Lemma reachable_log_inv st : log_reachable st -> log_inv st.
Proof.
  induction 1 as [s cfg group mc base wal Ht Hg Hm Hb Hc Hn|st st' _ IH Hst]; [|by eapply log_inv_step].
  destruct (NewWAL_wf _ _ _ _ _ _ Ht Hg Hm Hb Hc Hn) as (? & ? & ? & _). by split_and!.
Qed.

(** C6: the log never reports a prepare it does not hold.  However appends have
    started, completed, failed in any phase or been abandoned, and whatever has
    been discarded, recovered or read: when the header of an operation is
    reported from a clean slot, reading the operation back gives the frame with
    exactly that header, or the storage fails to read. *)
Theorem wal_backed wal pending op h destination wal' r :
  log_reachable (wal, pending) -> RecoveredHeader wal op = Some h ->
  WALSlot.Dirty (slotOf wal op) = false ->
  WALLayout.PrepareStride (WAL.layout wal) <= destination ->
  ReadPrepare wal op destination = (wal', r) ->
  match r with
  | Ok frame => exists body,
      DecodeFrame frame (WAL.group wal) (sizeMax wal) (WAL.memberCount wal) = (h, body, RejectNone) /\
      prepareOp h = op /\ Command h = CommandPrepare
  | Err err => exists cause, err = Joined ErrStorage cause
  end.
Proof.
  intros (Hwf & Hb & _)%reachable_log_inv Hrh Hd Hdst. cbn [fst] in *.
  pose proof (op_slot wal op Hwf) as Hi. unfold RecoveredHeader in Hrh.
  destruct (_ || _ || _) eqn:Eg in Hrh; [done|]. split_bool.
  destruct (DecodeHeader _ _ _ _) as [h' []] eqn:Eh; try done. injection Hrh as ->.
  unfold slotOf in *. set (i := op mod JournalSlotsOf wal) in *.
  destruct (Hb i Hi) as [_ (frame & fh & body & Hpf & Hdec & Hcmd & Hop & Ha)]; [done|done|].
  unfold ReadPrepare. fold i. destruct (Z.ltb_spec destination (WALLayout.PrepareStride (WAL.layout wal))); [lia|].
  pose proof (wf_layout_of _ Hwf) as Hl. rewrite (prepareOffset_Some _ _ Hl wal i eq_refl Hi).
  destruct (ReadAt _ _ _) as [s [physical|e]] eqn:Er; [|intros [= <- <-]; eauto].
  pose proof (zone_order _ _ Hl). pose proof (prepare_zone _ _ Hl i Hi). pose proof (lo_prepares _ _ Hl).
  set (o := _ + _) in Er. assert (0 <= o) as Ho by (unfold o; lia).
  assert (0 <= WALLayout.PrepareStride (WAL.layout wal)) as Hst by lia.
  pose proof (read_ok (WAL.storage wal) _ o physical Ho Hst) as Hok. rewrite Er in Hok.
  destruct (Hok eq_refl) as [_ Hphys].
  assert (physical = prepareAt wal i) as -> by (rewrite Hphys; unfold prepareAt, o; f_equal; lia).
  change (physicalFrame (WAL.with_storage wal s) ?p) with (physicalFrame wal p).
  change (sizeMax (WAL.with_storage wal s)) with (sizeMax wal).
  cbn [WAL.group WAL.memberCount WAL.with_storage]. rewrite Hpf, Hdec.
  pose proof (DecodeFrame_inv _ _ _ _ _ _ Hdec) as (_ & Efh & _).
  apply DecodeHeader_accepts in Eh as [_ Eh]. rewrite Ha in Eh. change HeaderSize with 256 in Eh.
  assert (fh = h) as -> by congruence.
  rewrite Hcmd, Hop. cbn [Z.eqb Pos.eqb negb orb CommandPrepare].
  destruct (Z.eqb_spec (WALSlot.Op (slotAt wal i)) op) as [Eop|]; [|done].
  intros [= <- <-]. exists body. by split_and!.
Qed.
End safety.
