(* ===== verification/WalDurability.v ===== *)
(** * What recovery finds

    The head that recovery reports is the end of the longest hash chain of
    recovered prepares after the checkpoint; a completed append survives a
    crash, and is not denied after any damage that the checksums detect. *)

From S2P Require Import Prelude Bytes Arith Checksum Header Config Storage Checkpoint Wal WalRecovery WalSafety.

Section durability.
Context {S : Type} `{StorageLaws S}.
Implicit Types wal : WAL S.

(** ** The head *)

(** The recovered prepare after [op] has [head] as its parent. *)
Definition extends wal (head : Header) (op : Z) (next : Header) : Prop :=
  let s := slotOf wal (u64 (op + 1)) in
  WALSlot.Inhabited s = true /\ WALSlot.Op s = u64 (op + 1) /\
  DecodeHeader (WALSlot.Authoritative s) (WAL.group wal) (sizeMax wal) (WAL.memberCount wal) = (next, RejectNone) /\
  prepareParent next = HeaderChecksum head.

(** A chain of [n] recovered prepares. *)
Inductive hash_chain wal : Header -> Z -> nat -> Header -> Z -> Prop :=
| chain_nil head op : hash_chain wal head op 0 head op
| chain_cons head op next n head' op' :
    extends wal head op next -> hash_chain wal next (u64 (op + 1)) n head' op' ->
    hash_chain wal head op (Datatypes.S n) head' op'.

Lemma find_head_chain fuel wal m head op head' op' :
  find_head fuel wal m head op = (head', op') ->
  exists n, (n <= fuel)%nat /\ hash_chain wal head op n head' op' /\
    (n = fuel \/ m < u64 (op' + 1) \/ forall next, ~ extends wal head' op' next).
Proof.
  revert head op. induction fuel as [|fuel IH]; intros head op; cbn [find_head].
  { intros [= <- <-]. exists 0%nat. split; [done|]. split; [constructor|by left]. }
  destruct (Z.ltb_spec m (u64 (op + 1))).
  { intros [= <- <-]. exists 0%nat. split; [lia|]. split; [constructor|by right; left]. }
  assert (forall P, (P -> False) -> (head, op) = (head', op') -> (forall next, extends wal head op next -> P) ->
    exists n, (n <= Datatypes.S fuel)%nat /\ hash_chain wal head op n head' op' /\
    (n = Datatypes.S fuel \/ m < u64 (op' + 1) \/ forall next, ~ extends wal head' op' next)) as Hstop.
  { intros P HP [= <- <-] Hex. exists 0%nat. split; [lia|]. split; [constructor|]. right. right.
    intros next Hn. by apply HP, (Hex next). }
  fold (slotOf wal (u64 (op + 1))). set (s := slotOf wal (u64 (op + 1))).
  destruct (_ || _) eqn:Eg.
  { intros E. apply (Hstop False); [done|done|]. intros next (Hi & Ho & _). fold s in Hi, Ho.
    rewrite Hi, Ho, Z.eqb_refl in Eg. done. }
  split_bool. destruct (DecodeHeader _ _ _ _) as [candidate reason] eqn:Ed.
  assert (reason <> RejectNone -> (head, op) = (head', op') ->
    exists n, (n <= Datatypes.S fuel)%nat /\ hash_chain wal head op n head' op' /\
    (n = Datatypes.S fuel \/ m < u64 (op' + 1) \/ forall next, ~ extends wal head' op' next)) as Hrej.
  { intros Hr E. apply (Hstop False); [done|done|]. intros next (_ & _ & Hd & _). fold s in Hd. congruence. }
  destruct reason; try (by apply Hrej). destruct (bool_decide _) eqn:Eb; split_bool; cbn [negb].
  - intros E. destruct (IH _ _ E) as (n & Hn & Hc & Hend). exists (Datatypes.S n). split; [lia|]. split.
    + econstructor; [|exact Hc]. by split_and!.
    + destruct Hend as [->|Hend]; auto.
  - intros E. apply (Hstop False); [done|done|]. intros next (_ & _ & Hd & Hp). fold s in Hd. congruence.
Qed.

(** The operations of a chain are consecutive and each in its slot. *)
Lemma chain_ops wal head op n head' op' :
  hash_chain wal head op n head' op' -> 0 <= op -> op + Z.of_nat n < 2 ^ 64 ->
  op' = op + Z.of_nat n /\
  forall k, 1 <= k <= Z.of_nat n ->
    WALSlot.Inhabited (slotOf wal (op + k)) = true /\ WALSlot.Op (slotOf wal (op + k)) = op + k.
Proof.
  induction 1 as [head op|head op next n head' op' (Hi & Ho & _) _ IH]; intros Hop Hlt.
  { split; [lia|]. intros k Hk. lia. }
  rewrite uwrap_small in * by (unfold is_uint; lia). destruct IH as [-> IH]; [lia|lia|]. split; [lia|].
  intros k Hk. destruct (decide (k = 1)) as [->|Hne]; [done|].
  replace (op + k) with (op + 1 + (k - 1)) by lia. apply IH. lia.
Qed.

(** Every slot that recovery inhabits holds an operation it has seen. *)
Lemma recovered_op wal cp cm inst wal' report pm faulty root slot :
  recovery wal cp cm inst wal' report pm faulty root -> 0 <= slot < JournalSlotsOf wal ->
  WALSlot.Inhabited (slotAt wal' slot) = true ->
  WALSlot.Op (slotAt wal' slot) <= WALRecoveryReport.UntrustedMax report.
Proof.
  intros Hrc Hs Hi. destruct (rc_slots _ _ _ _ _ _ _ _ _ Hrc slot Hs) as (scan & _ & Hres & _ & Hmax).
  set (ctx := context_of _ _ _ _ _ _) in Hres.
  assert (decision scan ctx = WALRecoveryClean \/ decision scan ctx = WALRecoveryLocalRepair) as Hdec.
  { unfold resolved in Hres. destruct (decision scan ctx); auto; destruct Hres as [E _] || destruct Hres; congruence. }
  destruct (decision_installs _ _ Hdec) as (Hk & _). specialize (Hmax Hk).
  assert (WALSlot.Op (slotAt wal' slot) = WALCandidate.Op (prepareCandidate scan)) as -> by
    (unfold resolved in Hres; destruct Hdec as [E|E]; rewrite E in Hres; by destruct Hres as (_ & ? & _)).
  done.
Qed.

(** C25: recovery reports the right head.  Its operations follow the checkpoint
    without gap, each recovered in its slot, each the hash parent of the next;
    the chain cannot be extended by any prepare the log holds; and unless a
    slot needs a remote repair, it reaches the operations known committed. *)
Theorem recover_head wal cp cm inst wal' report :
  log_reachable (wal, None) -> CheckpointCheck.PrepareOp cp + JournalSlotsOf wal + 1 < 2 ^ 64 ->
  Recover wal cp cm inst = Ok (wal', report) ->
  exists root n,
    DecodeHeader (CheckpointState.Header cp) (WAL.group wal) (sizeMax wal) (WAL.memberCount wal)
      = (root, RejectNone) /\
    hash_chain wal' root (CheckpointCheck.PrepareOp cp) n
      (WALRecoveryReport.HeadHeader report) (WALRecoveryReport.HeadOp report) /\
    WALRecoveryReport.HeadOp report = CheckpointCheck.PrepareOp cp + Z.of_nat n /\
    (forall next, ~ extends wal' (WALRecoveryReport.HeadHeader report) (WALRecoveryReport.HeadOp report) next) /\
    (WALRecoveryReport.FaultySlots report = 0 -> cm <= WALRecoveryReport.HeadOp report).
Proof.
  intros (Hwf & _)%reachable_log_inv Hlt Hr. cbn [fst] in Hwf.
  destruct (Recover_inv _ _ _ _ _ _ Hwf Hr) as (pm & faulty & root & Hrc).
  pose proof (rc_head _ _ _ _ _ _ _ _ _ Hrc) as Hh. pose proof (rc_log _ _ _ _ _ _ _ _ _ Hrc) as Hlog.
  set (op0 := CheckpointCheck.PrepareOp cp) in *. set (op' := WALRecoveryReport.HeadOp report) in *.
  destruct (find_head_chain _ _ _ _ _ _ _ Hh) as (n & Hn & Hc & Hend).
  assert (0 <= op0) as Hop by apply getUint_range. pose proof (wf_slots _ Hwf) as Hslots.
  destruct (chain_ops _ _ _ _ _ _ Hc Hop ltac:(lia)) as [Eop Hk].
  pose proof (rc_root _ _ _ _ _ _ _ _ _ Hrc) as [Hroot _].
  exists root, n. split; [done|]. split; [done|]. split; [done|]. split.
  - assert (JournalSlotsOf wal' = JournalSlotsOf wal) as EJ
      by (unfold JournalSlotsOf; by rewrite (sl_config _ _ Hlog)).
    intros next Hex. destruct Hend as [En|[Hm|Hno]]; [| |by apply (Hno next)].
    + destruct Hex as (_ & Ho & _). rewrite uwrap_small in Ho by (unfold is_uint; lia).
      pose proof (wf_journal _ Hwf) as HJ. destruct (Hk 1 ltac:(lia)) as [_ H1].
      assert (slotOf wal' (op' + 1) = slotOf wal' (op0 + 1)) as E.
      { unfold slotOf. rewrite EJ, Eop, En, Hslots. f_equal.
        replace (op0 + JournalSlotsOf wal + 1) with (op0 + 1 + 1 * JournalSlotsOf wal) by lia.
        apply Z_mod_plus_full. }
      rewrite E in Ho. lia.
    + destruct Hex as (Hi & Ho & _). unfold slotOf in Hi, Ho. rewrite EJ in Hi, Ho.
      pose proof (recovered_op _ _ _ _ _ _ _ _ _ _ Hrc (op_slot wal _ Hwf) Hi). lia.
  - intros Hf. by destruct (rc_commit _ _ _ _ _ _ _ _ _ Hrc).
Qed.
(** ** What the operations leave alone *)

Lemma begin_keeps wal frame reusable wal' r :
  beginAppend wal frame reusable = (wal', r) ->
  same_log wal wal' /\ forall seq, r = Ok seq -> WALSequence.step seq = 0.
Proof. unfold beginAppend. repeat case_match; intros [= <- <-]; (split; [done|]); intros seq E; by simplify_eq. Qed.

Lemma advance_keeps wal seq frame wal' seq' :
  advanceAppend wal seq frame = (wal', Ok seq') ->
  same_log wal wal' /\ WALSequence.index seq' = WALSequence.index seq /\
  WALSequence.step seq' = WALSequence.step seq + 1.
Proof.
  unfold advanceAppend, physical, append_step. repeat case_match; intros E; simplify_eq; done.
Qed.

Lemma NewWAL_fields s cfg group memberCount wal :
  NewWAL s cfg group memberCount = Ok wal ->
  WAL.config wal = cfg /\ WAL.group wal = group /\ WAL.memberCount wal = memberCount /\ WAL.storage wal = s.
Proof.
  unfold NewWAL. destruct (DeriveWALLayout cfg); [|done]. intros E. step_guards E.
  apply result_bind_Ok in E as (ring & _ & E). apply result_bind_Ok in E as (buffer & _ & E).
  apply result_bind_Ok in E as ([slots ring'] & _ & E). by injection E as <-.
Qed.

(** With nothing left to sync a crash keeps headers and prepares. *)
Lemma crash_keeps wal s :
  wf_wal wal -> unsynced (WAL.storage wal) = [] -> crashes (WAL.storage wal) s ->
  forall slot, 0 <= slot < JournalSlotsOf wal ->
    headerAt (WAL.with_storage wal s) slot = headerAt wal slot /\
    prepareAt (WAL.with_storage wal s) slot = prepareAt wal slot.
Proof.
  intros Hwf Hu Hc slot Hs. pose proof (wf_layout_of _ Hwf) as Hl.
  pose proof (zone_order _ _ Hl). pose proof (prepare_zone _ _ Hl slot Hs). pose proof (lo_prepares _ _ Hl).
  assert (forall a b, 0 <= a -> slice (contents s) a b = slice (contents (WAL.storage wal)) a b) as Hsame.
  { intros a b Ha. apply crash_outside; [done|done|]. rewrite Hu. by intros range ?%not_elem_of_nil. }
  unfold headerAt, prepareAt, HeaderSize. cbn. split; apply Hsame; lia.
Qed.

(** ** Completed appends *)

Lemma append_loop_durable fuel wal seq frame h body wal' :
  wf_wal wal -> all_backed wal -> append_phase wal seq frame -> append_frame wal seq frame h body ->
  WALSequence.step seq + Z.of_nat fuel = 4 -> append_loop fuel wal seq frame = (wal', Ok tt) ->
  durably_appended wal' (WALSequence.index seq) frame /\ same_log wal wal' /\ wf_wal wal'.
Proof.
  revert wal seq. induction fuel as [|fuel IH]; intros wal seq Hwf Hb Hp Ha Hstep E; cbn [append_loop] in E.
  { exfalso. destruct Hp; lia. }
  rewrite bool_decide_false in E by (destruct Hp; congruence).
  destruct (advanceAppend wal seq frame) as [wal1 [seq1|e]] eqn:Eadv; [|done].
  destruct (advance_keeps _ _ _ _ _ Eadv) as (Hlog & Hidx & Hst).
  destruct (advance_append _ _ _ _ _ _ _ Hwf Hb Hp Ha Eadv) as (Hwf1 & Hb1 & _ & [[Hc Hd]|[Hp1 Ha1]]).
  - destruct fuel; cbn [append_loop] in E; rewrite bool_decide_true in E by done; by injection E as <-.
  - rewrite <- Hidx. destruct (IH wal1 seq1 Hwf1 Hb1 Hp1 Ha1 ltac:(lia) E) as (Hd & Hl & Hw).
    split; [done|]. split; [|done]. destruct Hlog, Hl. split; congruence.
Qed.

(** A completed append is on storage: the prepare in its slot, its header in
    the header ring, nothing left to sync. *)
Lemma append_durable wal frame reusable wal' :
  log_reachable (wal, None) -> Append wal frame reusable = (wal', Ok tt) ->
  exists h body,
    DecodeFrame frame (WAL.group wal) (sizeMax wal) (WAL.memberCount wal) = (h, body, RejectNone) /\
    Command h = CommandPrepare /\ durably_appended wal' (prepareOp h mod JournalSlotsOf wal) frame /\
    same_log wal wal' /\ wf_wal wal'.
Proof.
  intros (Hwf & Hb & Hio)%reachable_log_inv E. cbn [fst snd] in *. unfold Append in E.
  destruct (beginAppend wal frame reusable) as [wal1 [seq|e]] eqn:Eb; [|done].
  destruct (append_loop 4 wal1 seq frame) as [wal2 r] eqn:El. injection E as <- ->.
  destruct (begin_append _ _ _ _ _ Hwf Hb Eb) as (Hwf1 & Hb1 & _ & Hp & h & body & Ha).
  pose proof (begin_keeps _ _ _ _ _ Eb) as [Hlog Hst].
  specialize (Hst seq eq_refl).
  destruct (append_loop_durable 4 _ _ _ _ _ _ Hwf1 Hb1 Hp Ha ltac:(lia) El) as (Hd & Hl & Hw).
  pose proof (af_decoded _ _ _ _ _ Ha) as Hdec. pose proof (af_slot _ _ _ _ _ Ha) as Hslot.
  unfold sizeMax, JournalSlotsOf in *. rewrite (sl_config _ _ Hlog), (sl_group _ _ Hlog), (sl_members _ _ Hlog) in Hdec.
  rewrite (sl_config _ _ Hlog) in Hslot. exists h, body. split; [done|]. split; [apply Ha|].
  split; [by rewrite Hslot|]. split; [|by apply wf_with_ioActive]. destruct Hlog, Hl. split; cbn; congruence.
Qed.

(** ** After a crash *)

(** How the candidates of an appended frame read back. *)
Lemma appended_candidates wal slot frame h body :
  wf_wal wal ->
  DecodeFrame frame (WAL.group wal) (sizeMax wal) (WAL.memberCount wal) = (h, body, RejectNone) ->
  Command h = CommandPrepare ->
  decodeRecoveryHeader wal (slice frame 0 HeaderSize) slot = recoveryCandidate h slot /\
  decodeRecoveryPrepare wal (padded (WALLayout.PrepareStride (WAL.layout wal)) frame) slot
  = (recoveryCandidate h slot, slice frame 0 HeaderSize).
Proof.
  intros Hwf Hd Hc. pose proof (DecodeFrame_inv _ _ _ _ _ _ Hd) as (Hacc & Eh & Hl & Hsize).
  pose proof (wf_stride _ Hwf) as Hst.
  destruct (padded_frame wal _ _ _ _ _ _ Hd ltac:(lia)) as (Hpf & Hps & Hpl).
  assert (DecodeHeader (slice frame 0 HeaderSize) (WAL.group wal) (sizeMax wal) (WAL.memberCount wal)
    = (h, RejectNone)) as Hdh by by apply DecodeHeader_accepts.
  split.
  - unfold decodeRecoveryHeader. by rewrite Hdh, Hc.
  - unfold decodeRecoveryPrepare. set (physical := padded _ _) in *. destruct (allZero physical) eqn:Ez.
    + exfalso. unfold physicalFrame in Hpf. step_guards Hpf. split_bool.
      apply allZero_true in Ez. rewrite Hpl in Ez. rewrite Ez in *. unfold HeaderSize in *.
      rewrite slice_zeros in * by lia. rewrite getUint_zeros in *. lia.
    + rewrite Hpf, Hd, Hc. cbn [Z.eqb Pos.eqb negb CommandPrepare]. by rewrite Hps.
Qed.

(** A candidate that is one prepare's or undecodable, for header and prepare. *)
Lemma classify_damaged header prepare c ctx :
  WALCandidate.Kind c = WALCandidateOrdinary ->
  (header = c \/ WALCandidate.Kind header = WALCandidateInvalid) ->
  (prepare = c \/ WALCandidate.Kind prepare = WALCandidateInvalid) ->
  impossibleWALCandidate c ctx = false -> futureWALCandidate c ctx = false ->
  obsoleteWALCandidate c (WALRecoveryContext.Installed ctx) = false ->
  ClassifyWALSlot header prepare ctx = WALRecoveryRemoteRepair \/
  (prepare = c /\ (ClassifyWALSlot header prepare ctx = WALRecoveryClean \/
                   ClassifyWALSlot header prepare ctx = WALRecoveryLocalRepair)).
Proof.
  intros Hk Hh Hp Hi Hf Ho. unfold ClassifyWALSlot.
  assert (forall x, x = c \/ WALCandidate.Kind x = WALCandidateInvalid ->
    impossibleWALCandidate x ctx = false /\ futureWALCandidate x ctx = false /\
    obsoleteWALCandidate x (WALRecoveryContext.Installed ctx) = false) as Hx.
  { intros x [->|Hx]; [done|]. unfold impossibleWALCandidate, futureWALCandidate, obsoleteWALCandidate, isKind.
    by rewrite Hx. }
  destruct (Hx header Hh) as (-> & -> & ->), (Hx prepare Hp) as (-> & -> & ->). cbn [orb].
  unfold isKind. destruct Hp as [->|Hp].
  - rewrite Hk. destruct Hh as [->|Hh].
    + rewrite Hk. right. split; [done|]. left. unfold candidatesEqual.
      by rewrite !Z.eqb_refl, !bool_decide_true by done.
    + rewrite Hh. unfold retainedOrdinary, isKind. repeat case_match; auto; discriminate.
  - left. unfold retainedOrdinary, isKind. rewrite Hp. destruct Hh as [->|Hh]; [by rewrite Hk|by rewrite Hh].
Qed.

(** What a recovered log says of an operation whose header and prepare are
    each intact or undecodable. *)
Lemma recovered_evidence wal cp cm inst wal' report pm faulty root slot frame h body :
  recovery wal cp cm inst wal' report pm faulty root -> wf_wal wal ->
  DecodeFrame frame (WAL.group wal) (sizeMax wal) (WAL.memberCount wal) = (h, body, RejectNone) ->
  prepareOperation h <> OperationReserved -> prepareOp h <= pm ->
  prepareOp h <= WALRecoveryView.HeadOp inst \/ WALRecoveryView.LogView inst <= View h ->
  slot = prepareOp h mod JournalSlotsOf wal ->
  let c := recoveryCandidate h slot in
  decodeRecoveryHeader wal (headerAt wal slot) slot = c \/
  WALCandidate.Kind (decodeRecoveryHeader wal (headerAt wal slot) slot) = WALCandidateInvalid ->
  decodeRecoveryPrepare wal (prepareAt wal slot) slot = (c, slice frame 0 HeaderSize) \/
  WALCandidate.Kind (decodeRecoveryPrepare wal (prepareAt wal slot) slot).1 = WALCandidateInvalid ->
  JoinEvidence wal' (prepareOp h) = (Some h, false) \/ JoinEvidence wal' (prepareOp h) = (None, false).
Proof.
  intros Hrc Hwf Hd Hop Hpm Hview -> c Hheader Hprepare. pose proof (op_slot wal (prepareOp h) Hwf) as Hs.
  pose proof (rc_log _ _ _ _ _ _ _ _ _ Hrc) as Hlog. set (slot := prepareOp h mod _) in *.
  destruct (rc_slots _ _ _ _ _ _ _ _ _ Hrc slot Hs) as (scan & [Hsh Hsp] & Hres & _).
  rewrite <- Hsh in Hheader. rewrite <- Hsp in Hprepare. cbn [fst] in Hprepare.
  set (ctx := context_of _ _ _ _ _ _) in Hres.
  assert (c = WALCandidate.mk WALCandidateOrdinary (prepareOp h) (View h) (HeaderChecksum h) (BodyChecksum h)) as Ec
    by (unfold c, recoveryCandidate; by rewrite (proj2 (Z.eqb_neq _ _) Hop)).
  assert (prepareCandidate scan = c \/ WALCandidate.Kind (prepareCandidate scan) = WALCandidateInvalid) as Hp
    by (destruct Hprepare as [E|]; [injection E; auto|auto]).
  assert (slotOf wal' (prepareOp h) = slotAt wal' slot) as Eslot
    by (unfold slotOf, slot, JournalSlotsOf; by rewrite (sl_config _ _ Hlog)).
  unfold JoinEvidence. rewrite Eslot. unfold resolved, decision in Hres.
  assert (impossibleWALCandidate c ctx = false) as Hi.
  { rewrite Ec. unfold impossibleWALCandidate, isKind, ctx, context_of. cbn -[Z.eqb Z.modulo]. fold slot.
    rewrite Z.eqb_refl. pose proof (wf_journal _ Hwf). destruct (Z.eqb_spec (JournalSlotsOf wal) 0); [lia|done]. }
  assert (futureWALCandidate c ctx = false) as Hf.
  { rewrite Ec. unfold futureWALCandidate, isKind, ctx, context_of. cbn -[Z.ltb].
    destruct (Z.ltb_spec pm (prepareOp h)); [lia|done]. }
  assert (obsoleteWALCandidate c (WALRecoveryContext.Installed ctx) = false) as Ho.
  { rewrite Ec. unfold obsoleteWALCandidate, isKind, ctx, context_of. cbn -[Z.ltb].
    destruct (Z.ltb_spec (WALRecoveryView.HeadOp inst) (prepareOp h)); [|done].
    destruct (Z.ltb_spec (View h) (WALRecoveryView.LogView inst)); [lia|done]. }
  destruct (classify_damaged (headerCandidate scan) (prepareCandidate scan) c ctx ltac:(by rewrite Ec) Hheader Hp
    Hi Hf Ho) as [E|[E1 E2]].
  - rewrite E in Hres. destruct Hres as [_ ->]. by right.
  - left. assert (prepareHeader scan = slice frame 0 HeaderSize) as Eh.
    { destruct Hprepare as [E|E]; [by injection E|]. rewrite E1, Ec in E. done. }
    assert (WALSlot.Authoritative (slotAt wal' slot) = slice frame 0 HeaderSize /\
      WALSlot.Op (slotAt wal' slot) = prepareOp h /\ WALSlot.Inhabited (slotAt wal' slot) = true /\
      WALSlot.Dirty (slotAt wal' slot) = false /\ WALSlot.Faulty (slotAt wal' slot) = false)
      as (-> & -> & -> & -> & ->)
      by (rewrite E1, Eh, Ec in Hres; destruct E2 as [E|E]; rewrite E1, Ec in E; rewrite E in Hres; exact Hres).
    rewrite Z.eqb_refl. cbn [negb orb]. pose proof (DecodeFrame_inv _ _ _ _ _ _ Hd) as (Hacc & Eh' & _).
    pose proof (proj2 (DecodeHeader_accepts (slice frame 0 256) (WAL.group wal) (sizeMax wal) (WAL.memberCount wal) h)
      (conj Hacc Eh')) as Hdh.
    unfold sizeMax in *. change HeaderSize with 256.
    by rewrite (sl_config _ _ Hlog), (sl_group _ _ Hlog), (sl_members _ _ Hlog), Hdh.
Qed.

Section crash.
Context (wal wal' : WAL S) (frame : list byte) (reusable : Z) (h : Header) (body : list byte).
Hypothesis Hreach : log_reachable (wal, None).
Hypothesis Happend : Append wal frame reusable = (wal', Ok tt).
Hypothesis Hdecode : DecodeFrame frame (WAL.group wal) (sizeMax wal) (WAL.memberCount wal) = (h, body, RejectNone).
Hypothesis Hordinary : prepareOperation h <> OperationReserved.

(** C5: a prepare the log has made durable is not denied.  After an append has
    completed, let the machine crash and let the copies of the prepare and of
    its header be damaged in any way the checksums detect, both of them even;
    then a log opened and recovered on that storage, with the operation within
    the log and not superseded by the installed view, either still presents the
    prepare's header, as one it may not deny, or has the slot marked faulty and
    denies nothing. *)
Theorem durable_prepare_not_denied s2 s3 wal2 base cp cm inst wal3 report pm :
  crashes (WAL.storage wal') s2 ->
  let slot := prepareOp h mod JournalSlotsOf wal in
  BlockBase (WAL.config wal) = Some base -> base <= zlen (contents s3) ->
  NewWAL s3 (WAL.config wal) (WAL.group wal) (WAL.memberCount wal) = Ok wal2 ->
  (headerAt wal2 slot = headerAt (WAL.with_storage wal' s2) slot \/
   WALCandidate.Kind (decodeRecoveryHeader wal2 (headerAt wal2 slot) slot) = WALCandidateInvalid) ->
  (prepareAt wal2 slot = prepareAt (WAL.with_storage wal' s2) slot \/
   WALCandidate.Kind (decodeRecoveryPrepare wal2 (prepareAt wal2 slot) slot).1 = WALCandidateInvalid) ->
  Recover wal2 cp cm inst = Ok (wal3, report) ->
  prepareMaximum wal2 (CheckpointCheck.PrepareOp cp) = Some pm -> prepareOp h <= pm ->
  prepareOp h <= WALRecoveryView.HeadOp inst \/ WALRecoveryView.LogView inst <= View h ->
  JoinEvidence wal3 (prepareOp h) = (Some h, false) \/ JoinEvidence wal3 (prepareOp h) = (None, false).
Proof.
  intros Hcrash slot Hbase Hlen Hnew Hheader Hprepare Hrec Hpm Hle Hview.
  destruct (append_durable _ _ _ _ Hreach Happend) as (h' & body' & Hd' & Hcmd & (Hf & Hh & Hu) & Hlog & Hwf').
  rewrite Hdecode in Hd'. injection Hd' as <- <-. fold slot in Hf, Hh.
  destruct (reachable_log_inv _ Hreach) as (Hwf & _). cbn [fst] in Hwf.
  destruct (crash_keeps wal' s2 Hwf' Hu Hcrash slot) as [Eh Ep].
  { pose proof (op_slot wal (prepareOp h) Hwf). unfold JournalSlotsOf in *. by rewrite (sl_config _ _ Hlog). }
  assert (0 <= WAL.memberCount wal) as Hmc by (pose proof (wf_members _ Hwf); lia).
  destruct (NewWAL_wf _ _ _ _ _ _ (wf_config _ Hwf) (wf_group _ Hwf) Hmc Hbase Hlen Hnew) as (Hwf2 & _).
  pose proof (NewWAL_fields _ _ _ _ _ Hnew) as (Ec & Eg & Em & _).
  assert (same_log wal wal2) as Hl2.
  { split; try done. pose proof (wf_layout _ Hwf2) as E2. rewrite Ec, (wf_layout _ Hwf) in E2. by injection E2. }
  assert (DecodeFrame frame (WAL.group wal2) (sizeMax wal2) (WAL.memberCount wal2) = (h, body, RejectNone)) as Hd2
    by (unfold sizeMax; by rewrite Ec, Eg, Em).
  destruct (appended_candidates wal2 slot frame h body Hwf2 Hd2 Hcmd) as [Hc1 Hc2].
  unfold frame_of in Hf. rewrite Eh, Hh in Hheader. rewrite Ep, Hf, (sl_layout _ _ Hlog), <- (sl_layout _ _ Hl2) in Hprepare.
  destruct (Recover_inv _ _ _ _ _ _ Hwf2 Hrec) as (pm' & faulty & root & Hrc).
  pose proof (rc_max _ _ _ _ _ _ _ _ _ Hrc) as Epm. rewrite Hpm in Epm. injection Epm as <-.
  apply (recovered_evidence wal2 cp cm inst wal3 report pm faulty root slot frame h body); try done.
  - unfold slot, JournalSlotsOf. by rewrite Ec.
  - destruct Hheader as [->|?]; [left|by right]. done.
  - destruct Hprepare as [->|?]; [left|by right]. done.
Qed.
End crash.
End durability.

(** ** A small log on a file *)

(** A log with a whole append behind it is reachable. *)
Lemma append_loop_reachable {S} `{StorageLaws S} fuel (wal : WAL S) seq frame wal' r :
  log_reachable (wal, Some (seq, frame)) -> WALSequence.step seq + Z.of_nat fuel = 4 ->
  append_loop fuel wal seq frame = (wal', r) -> log_reachable (WAL.with_ioActive wal' false, None).
Proof.
  revert wal seq. induction fuel as [|fuel IH]; intros wal seq Hr Hs E;
    pose proof (reachable_log_inv _ Hr) as (_ & _ & Hp); cbn [fst snd] in Hp;
    destruct Hp as (_ & Hp & _); cbn [append_loop] in E.
  { exfalso. destruct Hp; lia. }
  rewrite bool_decide_false in E by (destruct Hp; congruence).
  destruct (advanceAppend wal seq frame) as [wal1 [seq1|e]] eqn:Eadv.
  - destruct (advance_keeps _ _ _ _ _ Eadv) as (_ & _ & Hstep).
    destruct (decide (WALSequence.phase seq1 = IOPhaseCompletion)) as [Hc|Hc].
    + assert (append_loop fuel wal1 seq1 frame = (wal1, Ok tt)) as E1
        by (destruct fuel; cbn [append_loop]; by rewrite bool_decide_true).
      rewrite E1 in E. injection E as <- <-. eapply reachable_step; [exact Hr|by eapply step_complete].
    + apply (IH wal1 seq1); [|lia|exact E]. eapply reachable_step; [exact Hr|by eapply step_advance].
  - injection E as <- <-. eapply reachable_step; [exact Hr|by eapply step_fail].
Qed.

Lemma append_reachable {S} `{StorageLaws S} (wal : WAL S) frame reusable wal' :
  log_reachable (wal, None) -> Append wal frame reusable = (wal', Ok tt) -> log_reachable (wal', None).
Proof.
  intros Hr E. unfold Append in E. destruct (beginAppend wal frame reusable) as [wal1 [seq|e]] eqn:Eb; [|done].
  destruct (append_loop 4 wal1 seq frame) as [wal2 r] eqn:El. injection E as <- ->.
  destruct (begin_keeps _ _ _ _ _ Eb) as [_ Hs]. specialize (Hs seq eq_refl).
  apply (append_loop_reachable 4 wal1 seq frame wal2 (Ok tt)); [|lia|exact El]. eapply reachable_step; [exact Hr|by eapply step_begin].
Qed.

Definition small_cluster : ClusterConfig :=
  ClusterConfig.mk 64 0 0 1 1 2 4096 0 0 0 4096 1 1 1 0 0 0 1 1.

Definition small_file : FileStorage := FileStorage.mk true true (zeros 12288) [] [].

Definition small_header : Header :=
  mkHeader (zeros 16) (zeros 16) (zeros 16) 0 0 0 0 ProtocolVersion CommandPrepare 0
    (put (put (put (zeros 128) 0 (slice sample_prepare_bytes 0 16)) 96 (putUint 8 1)) 124 (putUint 1 128)).

Definition small_frame : list byte := Eval vm_compute in
  match SealFrame (zeros 256) small_header with Ok (frame, _) => frame | Err _ => [] end.

Definition small_decoded : Header := Eval vm_compute in
  (DecodeFrame small_frame (zeros 16) 4096 3).1.1.

Definition forced {E A} (d : A) (r : result E A) : A := match r with Ok a => a | Err _ => d end.

Lemma forced_Ok {E A} (d : A) (r : result E A) : is_Ok r = true -> r = Ok (forced d r).
Proof. by destruct r. Qed.

Definition no_log : WAL FileStorage :=
  WAL.mk _ small_file small_cluster [] 0 (WALLayout.mk 0 0 0 0 0 0 0 0 0) [] [] [] false.

Definition small_log : WAL FileStorage := Eval vm_compute in forced no_log (NewWAL small_file small_cluster (zeros 16) 3).

Definition small_appended : WAL FileStorage := Eval vm_compute in (Append small_log small_frame 0).1.

Lemma small_new : NewWAL small_file small_cluster (zeros 16) 3 = Ok small_log.
Proof. vm_compute. reflexivity. Qed.

Lemma small_reachable : log_reachable (small_log, None).
Proof.
  apply (reachable_new small_file small_cluster (zeros 16) 3 12288).
  - repeat (constructor; [split; [discriminate|reflexivity]|]). constructor.
  - reflexivity.
  - discriminate.
  - vm_compute. reflexivity.
  - vm_compute. discriminate.
  - exact small_new.
Qed.

Lemma small_append : Append small_log small_frame 0 = (small_appended, Ok tt).
Proof. vm_compute. reflexivity. Qed.

#[local] Opaque small_log small_appended.

Definition small_read : WAL FileStorage * result durable_error (list byte) := ReadPrepare small_appended 1 4096.

Lemma small_read_eq : ReadPrepare small_appended 1 4096 = (small_read.1, small_read.2).
Proof. unfold small_read. destruct (ReadPrepare small_appended 1 4096). reflexivity. Qed.

Lemma small_appended_reachable : log_reachable (small_appended, None).
Proof. exact (append_reachable small_log small_frame 0 small_appended small_reachable small_append). Qed.

#[local] Opaque small_read.

Lemma wal_backed_witness :
  exists frame body, small_read.2 = Ok frame /\
    DecodeFrame frame (WAL.group small_appended) (sizeMax small_appended) (WAL.memberCount small_appended)
      = (small_decoded, body, RejectNone).
Proof.
  assert (RecoveredHeader small_appended 1 = Some small_decoded) as Hr by (vm_compute; reflexivity).
  assert (WALSlot.Dirty (slotOf small_appended 1) = false) as Hd by (vm_compute; reflexivity).
  assert (WALLayout.PrepareStride (WAL.layout small_appended) <= 4096) as Hs by (vm_compute; discriminate).
  assert (is_Ok small_read.2 = true) as Hok by (vm_compute; reflexivity).
  pose proof (wal_backed small_appended None 1 small_decoded 4096 small_read.1 small_read.2
    small_appended_reachable Hr Hd Hs small_read_eq) as H.
  destruct small_read.2 as [frame|e]; [|discriminate Hok].
  destruct H as (body & Hdec & _). exact (ex_intro _ frame (ex_intro _ body (conj eq_refl Hdec))).
Defined.

Definition small_view : WALRecoveryView := WALRecoveryView.mk 0 0.

Definition small_report : WALRecoveryReport := WALRecoveryReport.mk 0 zeroHeader 0 0.

Lemma zones_same {S} `{StorageLaws S} (wal wal' : WAL S) s :
  WAL.layout wal = WAL.layout wal' -> WAL.storage wal = s ->
  forall slot, headerAt wal slot = headerAt (WAL.with_storage wal' s) slot /\
    prepareAt wal slot = prepareAt (WAL.with_storage wal' s) slot.
Proof. intros Hl <- slot. unfold headerAt, prepareAt. cbn. by rewrite Hl. Qed.

(** A file whose writes are all synced, after a crash. *)
Definition reopened_file (s : FileStorage) : FileStorage :=
  FileStorage.mk true true (FileStorage.durable s) [] [].

Lemma reopened_crash s : FileStorage.cached s = [] -> crashes s (reopened_file s).
Proof. intros E. split; [done|]. rewrite E. constructor. Qed.

Definition small_crashed : FileStorage := reopened_file (WAL.storage small_appended).

Definition small_reopened : WAL FileStorage := Eval vm_compute in forced no_log (NewWAL small_crashed small_cluster (zeros 16) 3).

Definition small_again : WAL FileStorage * WALRecoveryReport :=
  forced (no_log, small_report) (Recover small_reopened (sample_checkpoint 0) 1 small_view).

Lemma small_crash : crashes (WAL.storage small_appended) small_crashed.
Proof. apply reopened_crash. vm_compute. reflexivity. Qed.

Lemma small_reopens : NewWAL small_crashed small_cluster (zeros 16) 3 = Ok small_reopened.
Proof. vm_compute. reflexivity. Qed.

#[local] Opaque small_reopened.

Lemma small_recovers_again :
  Recover small_reopened (sample_checkpoint 0) 1 small_view = Ok (small_again.1, small_again.2).
Proof.
  assert (is_Ok (Recover small_reopened (sample_checkpoint 0) 1 small_view) = true) as E by (vm_compute; reflexivity).
  unfold small_again. destruct (Recover small_reopened (sample_checkpoint 0) 1 small_view) as [[w r]|e];
    [reflexivity|discriminate E].
Qed.

#[local] Opaque small_crashed small_again.

Lemma small_reopened_reachable : log_reachable (small_reopened, None).
Proof.
  apply (reachable_new small_crashed small_cluster (zeros 16) 3 12288).
  - repeat (constructor; [split; [discriminate|reflexivity]|]). constructor.
  - reflexivity.
  - discriminate.
  - vm_compute. reflexivity.
  - vm_compute. discriminate.
  - exact small_reopens.
Qed.

Lemma recover_head_witness :
  exists root n, hash_chain small_again.1 root 0 n
    (WALRecoveryReport.HeadHeader small_again.2) (WALRecoveryReport.HeadOp small_again.2).
Proof.
  assert (CheckpointCheck.PrepareOp (sample_checkpoint 0) + JournalSlotsOf small_reopened + 1 < 2 ^ 64) as Hlt
    by (vm_compute; reflexivity).
  destruct (recover_head small_reopened (sample_checkpoint 0) 1 small_view small_again.1 small_again.2
    small_reopened_reachable Hlt small_recovers_again) as (root & n & _ & Hc & _).
  exact (ex_intro _ root (ex_intro _ n Hc)).
Defined.

Lemma durable_prepare_not_denied_witness :
  JoinEvidence small_again.1 (prepareOp small_decoded) = (Some small_decoded, false) \/
  JoinEvidence small_again.1 (prepareOp small_decoded) = (None, false).
Proof.
  assert (DecodeFrame small_frame (WAL.group small_log) (sizeMax small_log) (WAL.memberCount small_log)
    = (small_decoded, [], RejectNone)) as Hdec by (vm_compute; reflexivity).
  assert (BlockBase (WAL.config small_log) = Some 12288) as Hbase by (vm_compute; reflexivity).
  assert (12288 <= zlen (contents small_crashed)) as Hlen by (vm_compute; discriminate).
  assert (NewWAL small_crashed (WAL.config small_log) (WAL.group small_log) (WAL.memberCount small_log)
    = Ok small_reopened) as Hnew'.
  { destruct (NewWAL_fields _ _ _ _ _ small_new) as (-> & -> & -> & _). exact small_reopens. }
  assert (WAL.layout small_reopened = WAL.layout small_appended) as Hl by (vm_compute; reflexivity).
  pose proof (NewWAL_fields _ _ _ _ _ small_reopens) as (_ & _ & _ & Hs).
  pose proof (zones_same small_reopened small_appended small_crashed Hl Hs) as Hsame.
  assert (prepareOperation small_decoded <> OperationReserved) as Hop by (vm_compute; discriminate).
  assert (prepareMaximum small_reopened (CheckpointCheck.PrepareOp (sample_checkpoint 0)) = Some 1) as Hpm
    by (vm_compute; reflexivity).
  assert (prepareOp small_decoded <= 1) as Hle by (vm_compute; discriminate).
  assert (WALRecoveryView.LogView small_view <= View small_decoded) as Hv by (vm_compute; discriminate).
  exact (durable_prepare_not_denied small_log small_appended small_frame 0 small_decoded []
    small_reachable small_append Hdec Hop small_crashed small_crashed small_reopened 12288 (sample_checkpoint 0) 1
    small_view small_again.1 small_again.2 1 small_crash Hbase Hlen Hnew' (or_introl (proj1 (Hsame _)))
    (or_introl (proj2 (Hsame _))) small_recovers_again Hpm Hle (or_intror Hv)).
Defined.

Lemma wal_layout_witness :
  WALLayout.BlockBase <$> DeriveWALLayout (WAL.config small_log) = BlockBase (WAL.config small_log).
Proof.
  refine (proj1 (wal_layout small_log _)).
  rewrite (proj1 (NewWAL_fields _ _ _ _ _ small_new)).
  repeat (constructor; [split; [discriminate|reflexivity]|]). constructor.
Defined.
