(* ===== verification/Records.v ===== *)
(** * Updating records

    [r {{ f := v; g ::= h }}] is the record [r] with field [f] set to [v] and
    field [g] mapped by [h].  The function that updates a field is found from
    its projection, by type class resolution. *)

From coqutil Require Import Tactics.RecordEta.
From S2P Require Import Prelude.

Class Setter {R E : Type} (getter : R -> E) := modify : (E -> E) -> R -> R.

(** Abstract the projection in the expanded record. *)
Ltac setter R getter :=
  let etaR := eta R in
  lazymatch etaR with context [getter] => idtac end;
  lazymatch eval pattern getter in etaR with
  | ?update _ => let u := eval cbv beta in (fun f => update (fun r => f (getter r))) in exact u
  end.

#[export] Hint Extern 1 (@Setter ?R ?E ?getter) => setter R getter : typeclass_instances.

Definition updated {R E : Type} (getter : R -> E) {update : Setter getter} (f : E -> E) (r : R) : R := update f r.

Declare Custom Entry update.
Notation "field := v" := (updated field (fun _ => v))
  (in custom update at level 1, field constr at level 1, v constr at level 99, only parsing).
Notation "field ::= f" := (updated field f)
  (in custom update at level 1, field constr at level 1, f constr at level 99, only parsing).
Notation "r {{ u }}" := (u r) (at level 8, left associativity, u custom update at level 1, only parsing).
Notation "r {{ u ; .. ; v ; w }}" := (w (v .. (u r) ..))
  (at level 8, left associativity, u custom update at level 1, v custom update at level 1, w custom update at level 1, only parsing).
