(* ===== verification/Reconfiguration.v ===== *)
(** * Reconfiguration requests

    [src/replication/reconfiguration.go]: a client proposes a new order of the
    members; the primary classifies the proposal and prepares it with the
    result in its last field. *)

From S2P Require Import Prelude Bytes Config.

Inductive ReconfigurationResult :=
| ReconfigurationReserved
| ReconfigurationOK
| ReconfigurationReplicaCountZero
| ReconfigurationReplicaCountMaxExceeded
| ReconfigurationStandbyCountMaxExceeded
| ReconfigurationMembersInvalid
| ReconfigurationMembersCountInvalid
| ReconfigurationReservedField
| ReconfigurationResultMustBeReserved
| ReconfigurationEpochInPast
| ReconfigurationEpochInFuture
| ReconfigurationDifferentReplicaCount
| ReconfigurationDifferentStandbyCount
| ReconfigurationDifferentMemberSet
| ReconfigurationApplied
| ReconfigurationConflict
| ReconfigurationIsNoOp.

(** The value of the constant. *)
Definition result_number (result : ReconfigurationResult) : Z :=
  match result with
  | ReconfigurationReserved => 0
  | ReconfigurationOK => 1
  | ReconfigurationReplicaCountZero => 2
  | ReconfigurationReplicaCountMaxExceeded => 3
  | ReconfigurationStandbyCountMaxExceeded => 4
  | ReconfigurationMembersInvalid => 5
  | ReconfigurationMembersCountInvalid => 6
  | ReconfigurationReservedField => 7
  | ReconfigurationResultMustBeReserved => 8
  | ReconfigurationEpochInPast => 9
  | ReconfigurationEpochInFuture => 10
  | ReconfigurationDifferentReplicaCount => 11
  | ReconfigurationDifferentStandbyCount => 12
  | ReconfigurationDifferentMemberSet => 13
  | ReconfigurationApplied => 14
  | ReconfigurationConflict => 15
  | ReconfigurationIsNoOp => 16
  end.

Definition zeroBytes (value : list byte) : bool := forallb (fun octet => byte.unsigned octet =? 0) value.

(** The loop over the member slots from [index] on, [n] to go, with the members
    decoded so far; [None] is an invalid list. *)
Fixpoint members_loop (encoded : list byte) (n : nat) (index : Z) (members : list (list byte)) (nonzero : Z) (zeroSeen : bool)
    : option (list (list byte) * Z) :=
  match n with
  | O => Some (members, nonzero)
  | S n =>
      let member := slice encoded (index * 16) ((index + 1) * 16) in
      if Membership.IsZero member then members_loop encoded n (index + 1) (members ++ [member]) nonzero true else
      if zeroSeen then None else
      if existsb (fun previous => bool_decide (member = previous)) members then None else
      members_loop encoded n (index + 1) (members ++ [member]) (nonzero + 1) zeroSeen
  end.

Definition decodeReconfigurationMembers (encoded : list byte) : option (list (list byte) * Z) :=
  members_loop encoded (Z.to_nat MembersMax) 0 [] 0 false.

Definition sameMemberSet (proposed current : list (list byte)) (count : Z) : bool :=
  let n := Z.to_nat count in
  forallb (fun member => existsb (fun candidate => bool_decide (member = candidate)) (take n current)) (take n proposed).

Definition ValidateReconfiguration (body : list byte) (current : Membership) (currentEpoch : Z) : ReconfigurationResult :=
  if negb (zlen body =? 256) then ReconfigurationReservedField else
  let active := byteAt body 196 in
  let standby := byteAt body 197 in
  if active =? 0 then ReconfigurationReplicaCountZero else
  if ActiveMax <? active then ReconfigurationReplicaCountMaxExceeded else
  if (StandbyMax <? standby) || (MembersMax <? active + standby) then ReconfigurationStandbyCountMaxExceeded else
  match decodeReconfigurationMembers (slice body 0 192) with
  | None => ReconfigurationMembersInvalid
  | Some (members, nonzero) =>
      if negb (nonzero =? active + standby) then ReconfigurationMembersCountInvalid else
      if negb (zeroBytes (slice body 198 252)) then ReconfigurationReservedField else
      if negb (getUint (slice body 252 256) =? 0) then ReconfigurationResultMustBeReserved else
      if negb (active =? Membership.ActiveCount current) then ReconfigurationDifferentReplicaCount else
      if negb (standby =? Membership.StandbyCount current) then ReconfigurationDifferentStandbyCount else
      let epoch := getUint (slice body 192 196) in
      if epoch <? currentEpoch then ReconfigurationEpochInPast else
      if currentEpoch + 1 <? epoch then ReconfigurationEpochInFuture else
      if negb (sameMemberSet members (Membership.Members current) nonzero) then ReconfigurationDifferentMemberSet else
      let identical := bool_decide (members = Membership.Members current) in
      if epoch =? currentEpoch then if identical then ReconfigurationApplied else ReconfigurationConflict else
      if identical then ReconfigurationIsNoOp else ReconfigurationOK
  end.

(** ** What is accepted *)

Lemma zeroBytes_true value : zeroBytes value = true <-> value = zeros (zlen value).
Proof.
  unfold zeroBytes. rewrite <- allZero_true. induction value as [|b value IH]; [done|].
  rewrite allZero_true in *. simpl. rewrite andb_true_iff, IH, Z.eqb_eq, zlen_cons.
  replace (zeros (1 + zlen value)) with (Byte.x00 :: zeros (zlen value))
    by (unfold zeros; replace (Z.to_nat (1 + zlen value)) with (S (Z.to_nat (zlen value))) by (unfold zlen; lia); done).
  split.
  - intros [Hb Hv]. f_equal; [|exact Hv]. apply byte.unsigned_inj. by rewrite Hb.
  - intros [= Hb Hv]. by rewrite Hb.
Qed.

(** The members in the slots of a proposal. *)
Definition proposed (body : list byte) : list (list byte) :=
  (fun index => slice body (index * 16) ((index + 1) * 16)) <$> seqZ 0 MembersMax.

Record distinct_prefix (members : list (list byte)) (count : Z) : Prop := {
  dp_range : 0 <= count <= zlen members;
  dp_nodup : NoDup (take (Z.to_nat count) members);
  dp_nonzero : Forall (fun member => member <> Membership.zeroID) (take (Z.to_nat count) members);
  dp_padding : Forall (fun member => member = Membership.zeroID) (drop (Z.to_nat count) members);
}.

Definition slots (encoded : list byte) (index : Z) (n : nat) : list (list byte) :=
  (fun index => slice encoded (index * 16) ((index + 1) * 16)) <$> seqZ index (Z.of_nat n).

Lemma slots_cons encoded index n :
  slots encoded index (S n) = slice encoded (index * 16) ((index + 1) * 16) :: slots encoded (index + 1) n.
Proof.
  unfold slots. rewrite seqZ_cons by lia. rewrite fmap_cons. f_equal. f_equal. f_equal; lia.
Qed.

Lemma members_loop_sound encoded n index members nonzero zeroSeen out k :
  distinct_prefix members nonzero -> zeroSeen = (nonzero <? zlen members) ->
  members_loop encoded n index members nonzero zeroSeen = Some (out, k) ->
  out = members ++ slots encoded index n /\ distinct_prefix out k.
Proof.
  revert index members nonzero zeroSeen. induction n as [|n IH]; intros index members nonzero zeroSeen Hd Hz H; simpl in H.
  { injection H as <- <-. by rewrite app_nil_r. }
  destruct Hd as [Hr Hn Hnz Hp]. rewrite slots_cons, cons_middle, app_assoc. unfold Membership.IsZero in H.
  case_bool_decide as Ez.
  - apply IH in H; [done| |rewrite zlen_snoc; lia].
    split; [rewrite zlen_snoc; lia|..]; unfold zlen in *; rewrite ?take_app_le, ?drop_app_le by lia; [done|done|].
    apply Forall_app. by split; [|constructor].
  - destruct zeroSeen; [done|]. destruct (existsb _ _) eqn:Ee; [done|].
    assert (nonzero = zlen members) as -> by lia. unfold zlen in *. rewrite Nat2Z.id in *.
    rewrite take_ge in Hn, Hnz by lia.
    apply IH in H; [done| |symmetry; apply Z.ltb_ge; rewrite length_app; cbn [length]; lia].
    split; [unfold zlen; rewrite length_app; cbn [length]; lia|rewrite take_ge by (rewrite length_app; cbn [length]; lia)..|
            rewrite drop_ge by (rewrite length_app; cbn [length]; lia); constructor].
    + apply NoDup_app. split; [done|]. split; [|apply NoDup_singleton].
      intros member Hin ->%list_elem_of_singleton. apply not_true_iff_false in Ee. apply Ee, existsb_exists.
      eexists. split; [by apply list_elem_of_In|by apply bool_decide_eq_true].
    + apply Forall_app. by split; [|constructor].
Qed.

Lemma members_loop_complete encoded n index members k :
  distinct_prefix (members ++ slots encoded index n) k ->
  members_loop encoded n index members (Z.min k (zlen members)) (k <? zlen members)
    = Some (members ++ slots encoded index n, k).
Proof.
  revert index members. induction n as [|n IH]; intros index members Hd.
  { simpl. rewrite app_nil_r in *. do 2 f_equal. destruct Hd as [Hr _ _ _]. lia. }
  rewrite slots_cons, cons_middle, app_assoc in *. specialize (IH _ _ Hd).
  rewrite zlen_snoc in IH. destruct Hd as [Hr Hn Hnz Hp]. cbn [members_loop]. unfold Membership.IsZero.
  assert (((members ++ [slice encoded (index * 16) ((index + 1) * 16)]) ++ slots encoded (index + 1) n) !! length members
    = Some (slice encoded (index * 16) ((index + 1) * 16))) as Hl.
  { rewrite lookup_app_l by (rewrite length_app; cbn [length]; lia). rewrite lookup_app_r, Nat.sub_diag by lia. done. }
  set (all := (members ++ _) ++ _) in *. set (member := slice _ _ _) in *.
  destruct (decide (zlen members < k)) as [Hlt|Hge].
  - rewrite bool_decide_eq_false_2; cycle 1.
    { rewrite Forall_lookup in Hnz. apply (Hnz (length members)). rewrite lookup_take_lt; [done|unfold zlen in Hlt; lia]. }
    replace (k <? zlen members) with false by lia.
    assert (existsb (fun previous => bool_decide (member = previous)) members = false) as ->.
    { apply not_true_iff_false. intros (previous & Hin & Heq)%existsb_exists. apply bool_decide_eq_true in Heq as <-.
      apply list_elem_of_In, list_elem_of_lookup_1 in Hin as [i Hi]. pose proof (lookup_lt_Some _ _ _ Hi).
      enough (i = length members) by lia. eapply NoDup_lookup; [exact Hn|..]; unfold zlen in Hlt; rewrite lookup_take_lt by lia; [|done].
      unfold all. by rewrite <- app_assoc, lookup_app_l. }
    rewrite <- IH. f_equal; lia.
  - rewrite bool_decide_eq_true_2; cycle 1.
    { rewrite Forall_lookup in Hp. apply (Hp (length members - Z.to_nat k)%nat). rewrite lookup_drop.
      rewrite <- Hl. f_equal. unfold zlen in Hge. lia. }
    rewrite <- IH. f_equal; lia.
Qed.

Lemma members_loop_all encoded n count :
  distinct_prefix (slots encoded 0 n) count ->
  members_loop encoded n 0 [] 0 false = Some (slots encoded 0 n, count).
Proof.
  intros Hd. pose proof (dp_range _ _ Hd) as Hr. apply (members_loop_complete encoded n 0 []) in Hd.
  etransitivity; [|exact Hd]. f_equal; unfold zlen; cbn [length Z.of_nat]; first [lia | symmetry; apply Z.ltb_ge; lia].
Qed.

Lemma decode_members_spec body members count :
  zlen body = 256 ->
  decodeReconfigurationMembers (slice body 0 192) = Some (members, count) <->
  members = proposed body /\ distinct_prefix (proposed body) count.
Proof.
  intros Hb.
  assert (slots (slice body 0 192) 0 12 = proposed body) as Hs.
  { unfold slots, proposed. apply list_fmap_ext. intros i index Hi%lookup_seqZ.
    rewrite slice_slice by (unfold MembersMax, ActiveMax, StandbyMax in *; lia). f_equal; lia. }
  unfold decodeReconfigurationMembers. change (Z.to_nat MembersMax) with 12%nat. split.
  - intros H. apply members_loop_sound in H as [-> Hd]; [|split; [done|constructor..]|done].
    rewrite app_nil_l, Hs in *. done.
  - intros [-> Hd]. rewrite <- Hs in Hd |- *. by apply members_loop_all.
Qed.

Lemma zlen_proposed body : zlen (proposed body) = MembersMax.
Proof. reflexivity. Qed.

Lemma valid_membership_prefix m :
  valid_membership m -> length (Membership.Members m) = 12%nat -> 0 <= Membership.StandbyCount m ->
  Membership.ActiveCount m + Membership.StandbyCount m <= 12 ->
  distinct_prefix (Membership.Members m) (Membership.ActiveCount m + Membership.StandbyCount m).
Proof.
  intros [Ha Hs Hnz Hd Hpad _ _] Hlen H0 Htotal. set (total := Membership.ActiveCount m + _) in *.
  assert (forall i x, Membership.Members m !! i = Some x -> Membership.member m i = x) as Hm.
  { intros i x E. unfold Membership.member. by rewrite E. }
  split; [unfold zlen; lia|..].
  - apply NoDup_alt. intros i j x [Hi Li]%lookup_take_Some [Hj Lj]%lookup_take_Some.
    apply Hm in Hi, Hj. destruct (lt_eq_lt_dec i j) as [[Hlt| ->]|Hlt]; [|done|].
    + destruct (Hd j i Hlt ltac:(lia)). congruence.
    + destruct (Hd i j Hlt ltac:(lia)). congruence.
  - apply Forall_lookup. intros i x [Hi Li]%lookup_take_Some. apply Hm in Hi as <-. apply Hnz. lia.
  - apply Forall_lookup. intros i x Hi. rewrite lookup_drop in Hi. pose proof (lookup_lt_Some _ _ _ Hi).
    apply Hm in Hi as <-. apply Hpad; lia.
Qed.

Lemma sameMemberSet_permutation (members current : list (list byte)) count :
  distinct_prefix members count -> distinct_prefix current count ->
  sameMemberSet members current count = true <->
  take (Z.to_nat count) members ≡ₚ take (Z.to_nat count) current.
Proof.
  intros [Hr Hn _ _] [Hr' Hn' _ _]. unfold sameMemberSet. rewrite forallb_forall. split.
  - intros H. apply submseteq_length_Permutation.
    + apply NoDup_submseteq; [done|]. intros member Hin.
      apply list_elem_of_In, H, existsb_exists in Hin as (candidate & Hin & <-%bool_decide_eq_true).
      by apply list_elem_of_In.
    + unfold zlen in *. rewrite !length_take. lia.
  - intros Hp member Hin. apply existsb_exists. exists member.
    split; [|by apply bool_decide_eq_true]. by rewrite <- Hp.
Qed.

(** A proposal is accepted exactly when it puts the current members in another
    order for the next epoch. *)
Definition reorders (body : list byte) (current : Membership) (currentEpoch : Z) : Prop :=
  let total := Z.to_nat (Membership.ActiveCount current + Membership.StandbyCount current) in
  byteAt body 196 = Membership.ActiveCount current /\
  byteAt body 197 = Membership.StandbyCount current /\
  take total (proposed body) ≡ₚ take total (Membership.Members current) /\
  Forall (fun member => member = Membership.zeroID) (drop total (proposed body)) /\
  proposed body <> Membership.Members current /\
  getUint (slice body 192 196) = currentEpoch + 1 /\
  zeroBytes (slice body 198 252) = true /\
  getUint (slice body 252 256) = 0.

Lemma reorders_prefix body current currentEpoch :
  reorders body current currentEpoch ->
  let total := Membership.ActiveCount current + Membership.StandbyCount current in
  distinct_prefix (Membership.Members current) total -> zlen (Membership.Members current) = 12 ->
  distinct_prefix (proposed body) total.
Proof.
  intros (_ & _ & Hp & Hz & _) total [Hr Hn Hnz _] H12. fold total in Hp, Hz.
  split; [rewrite zlen_proposed; unfold MembersMax, ActiveMax, StandbyMax; lia|by rewrite Hp..|done].
Qed.

(** Every result but the last is a guard that did not apply. *)
Ltac rejections H :=
  repeat match type of H with
  | (if ?b then _ else _) = _ => let E := fresh "G" in destruct b eqn:E; [discriminate H|]
  end.

(** Of the proposals of 256 bytes, exactly those that list the current
    members, each once and in another order, with the current counts, for the
    next epoch and with the reserved fields blank, are accepted; the proposal
    can then never change who is a member or how large the quorums are. *)
Theorem reconfiguration_accepted body current currentEpoch :
  zlen body = 256 -> is_u8 (Membership.ActiveCount current) -> is_u8 (Membership.StandbyCount current) ->
  length (Membership.Members current) = 12%nat -> Membership.Validate current = Ok tt ->
  ValidateReconfiguration body current currentEpoch = ReconfigurationOK <-> reorders body current currentEpoch.
Proof.
  intros Hb Ha Hs Hlen Hv.
  assert (Membership.ActiveCount current + Membership.StandbyCount current <= 12) as Htotal.
  { unfold Membership.Validate in Hv. step_guards Hv. unfold MembersMax, ActiveMax, StandbyMax in *. lia. }
  apply membership_Validate_sound in Hv as Hvm; [|done].
  pose proof (valid_membership_prefix _ Hvm Hlen ltac:(width_lia) Htotal) as Hd.
  assert (zlen (Membership.Members current) = 12) as H12 by (unfold zlen; lia).
  unfold ValidateReconfiguration. rewrite Hb. cbn [negb Z.eqb Pos.eqb].
  split.
  - intros H. rejections H. destruct (decodeReconfigurationMembers _) as [[members nonzero]|] eqn:Em; [|done].
    apply decode_members_spec in Em as [-> Hd']; [|done]. rejections H. split_bool.
    destruct (_ =? currentEpoch) eqn:Ee; [by case_bool_decide|]. case_bool_decide as Ei; [done|].
    assert (nonzero = Membership.ActiveCount current + Membership.StandbyCount current) as -> by lia.
    unfold reorders. repeat (split; [first [lia | done]|]).
    split; [by apply sameMemberSet_permutation|]. split; [by apply Hd'|]. repeat (split; [first [lia | done]|]). lia.
  - intros Hre. pose proof (reorders_prefix _ _ _ Hre Hd H12) as Hd'.
    destruct Hre as (E1 & E2 & Hp & _ & Hne & Ee & Ez & Er). rewrite E1, E2.
    pose proof (vm_active _ Hvm). pose proof (vm_standby _ Hvm).
    replace (Membership.ActiveCount current =? 0) with false by lia.
    replace (ActiveMax <? Membership.ActiveCount current) with false by (unfold ActiveMax; lia).
    replace (_ || _) with false by (unfold MembersMax, ActiveMax, StandbyMax; lia).
    rewrite (proj2 (decode_members_spec body (proposed body) _ Hb) (conj eq_refl Hd')).
    rewrite !Z.eqb_refl, Ez, Er, Ee. cbn [negb Z.eqb].
    replace (currentEpoch + 1 <? currentEpoch) with false by lia.
    replace (currentEpoch + 1 <? currentEpoch + 1) with false by lia.
    replace (currentEpoch + 1 =? currentEpoch) with false by lia.
    rewrite (proj2 (sameMemberSet_permutation _ _ _ Hd' Hd) Hp). cbn [negb]. by rewrite bool_decide_eq_false_2.
Qed.

(** The proposal that swaps the first two of three members. *)
Definition swap_body : list byte :=
  (byte.of_Z 2 :: zeros 15) ++ (byte.of_Z 1 :: zeros 15) ++ (byte.of_Z 3 :: zeros 15) ++ zeros 144
  ++ putUint 4 1 ++ [Byte.x03; Byte.x00] ++ zeros 58.

Lemma reconfiguration_accepted_witness :
  ValidateReconfiguration swap_body sample_membership 0 = ReconfigurationOK /\ reorders swap_body sample_membership 0.
Proof.
  assert (ValidateReconfiguration swap_body sample_membership 0 = ReconfigurationOK) as H by (vm_compute; reflexivity).
  split; [exact H|]. apply (reconfiguration_accepted swap_body sample_membership 0); [..|exact H]; try reflexivity;
    split; (discriminate || reflexivity).
Defined.
