(* ===== verification/Replica.v ===== *)
(** * The replica

    The state of a replica, [src/replication/replica.go], with the snapshot and
    the invariants of [src/replication/status.go]: what the view change, normal
    operation and the release upgrade read and write of it.

    The frame pool, the I/O engine and the clock answer from lists the state
    carries: [pool] says whether the next acquisitions succeed, [handles] what
    the next submissions return and [samples] the next readings.  What the
    replica sends is appended to [sent], what it submits to [submitted].
    Metrics and logging are left out, and frames are not counted: a message is
    the header and body it carries. *)

From S2P Require Import Prelude Records Bytes Arith Checksum Header Config Ewah Clock Random Timers RepairBudget.
From S2P Require Import Sessions Storage Checkpoint Superblock Wal WalRecovery.

(** ** Data *)

Inductive Status := StatusNormal | StatusViewChange | StatusRecovering | StatusRecoveringHead.

#[export] Instance Status_eq_dec : EqDecision Status.
Proof. solve_decision. Defined.

Inductive TransitionCause :=
| CauseRecoveredBackup
| CauseRecoveredUncertainHead
| CauseRecoveredViewChange
| CauseCanonicalViewInstalled
| CauseLocalTimeout
| CauseHigherView
| CauseNewerViewChange.

Inductive CommitStage :=
| CommitStageIdle
| CommitStageStart
| CommitStageCheckPrepare
| CommitStagePrefetch
| CommitStageStall
| CommitStageReplySetup
| CommitStageExecute
| CommitStageCheckpointDurable
| CommitStageCompact
| CommitStageCheckpointData
| CommitStageCheckpointSuperblock.

#[export] Instance CommitStage_eq_dec : EqDecision CommitStage.
Proof. solve_decision. Defined.

(** The value of the constant. *)
Definition stage_number (stage : CommitStage) : Z :=
  match stage with
  | CommitStageIdle => 0
  | CommitStageStart => 1
  | CommitStageCheckPrepare => 2
  | CommitStagePrefetch => 3
  | CommitStageStall => 4
  | CommitStageReplySetup => 5
  | CommitStageExecute => 6
  | CommitStageCheckpointDurable => 7
  | CommitStageCompact => 8
  | CommitStageCheckpointData => 9
  | CommitStageCheckpointSuperblock => 10
  end.

Inductive replica_error :=
| ErrUnrecoverableConsensusState
| ErrReplicaInvariant
| UnrecoverableInvariant
| ErrReplicaBackpressure
| ErrFramePoolEmpty
| ErrIO
| ErrStorage
| ErrEncoding
| InvalidCheckpoint
| ErrStateMachine
| ErrSession
| ErrTimer.

(** The index and the generation of an operation in flight. *)
Definition IOHandle : Type := Z * Z.
Definition noHandle : IOHandle := (0, 0).

Inductive IOKind := IORead | IOWrite | IOSync | IOResize | IOWALAppend | IOReplyWrite | IOReplyRead | IOSuperblockPersist.

#[export] Instance IOKind_eq_dec : EqDecision IOKind.
Proof. solve_decision. Defined.

(** The operations a replica submits here. *)
Inductive IOOperation :=
| AppendPrepare (frame : list byte) (reusableThrough : Z)
| PersistSuperblock (next : Superblock.t)
| WriteReply (slot : Z) (frame : list byte)
| ReadReply (slot : Z) (expected : Header).

Inductive outgoing :=
| SendReplica (to : Z) (header : Header) (body : list byte)
| BroadcastReplicas (header : Header) (body : list byte)
| SendClient (client : list byte) (header : Header) (body : list byte).

(** [prepare] and [reply] are frames, [ioKind] is absent when nothing is in
    flight. *)
Module pipelineEntry.
Record t := mk {
  prepare : list byte;
  header : Header;
  acks : Z;
  durable : bool;
  quorum : bool;
  io : IOHandle;
  ioKind : option IOKind;
  stage : CommitStage;
  token : Z;
  reply : option (list byte);
  replyHeader : Header;
  replyPlan : SessionCommitPlan;
}.
End pipelineEntry.
Abbreviation pipelineEntry := pipelineEntry.t.

(** The read of a reply for a client that asked again; [None] is a free one. *)
Module duplicateRead.
Record t := mk { handle : IOHandle; header : Header; client : list byte }.
End duplicateRead.
Abbreviation duplicateRead := duplicateRead.t.

Module joinRecord.
Record t := mk {
  valid : bool;
  present : Z;
  nack : Z;
  head : Z;
  commit : Z;
  checkpoint : Z;
  logView : Z;
  count : Z;
}.

Definition zero : t := mk false 0 0 0 0 0 0 0.
End joinRecord.
Abbreviation joinRecord := joinRecord.t.

(** The [repairView] fields: a view being installed. *)
Module recoveringView.
Record t := mk {
  valid : bool;
  view : Z;
  commit : Z;
  head : Z;
  ancestor : Z;
  rebuilt : bool;
  window : bool;
  count : Z;
}.
End recoveringView.
Abbreviation recoveringView := recoveringView.t.

Module releaseReport.
Record t := mk { valid : bool; view : Z; count : Z; releases : list Z }.
End releaseReport.
Abbreviation releaseReport := releaseReport.t.

Module upgradeWindow.
Record t := mk { checkpoint : Z; target : Z; valid : bool; started : bool }.

Definition zero : t := mk 0 0 false false.
End upgradeWindow.
Abbreviation upgradeWindow := upgradeWindow.t.

(** [pipeline] holds the occupied entries, oldest first, of the
    [pipelineCapacity] there are; [requestQueue] holds the frames of the queued
    requests with their times; [joinHeaders] the slice of every sender;
    [superblock] is what the superblock store has as current,
    [awaitingOpen], [replyRepairing] what [stateSyncAwaitingOpen] and
    [replyRepairBlocksCommit] return, and [syncIdle] says that no state sync is
    going on. *)
Module Replica.
Record t {S : Type} := mk {
  config : Config.t;
  quorums : Quorums;
  local : Z;
  status : Status;
  view : Z;
  durableView : Z;
  logView : Z;
  headOp : Z;
  commitMin : Z;
  commitMax : Z;
  checkpoint : CheckpointState;
  checkpointID : list byte;
  headChecksum : list byte;
  lastPrepareTimestamp : Z;
  lastCommitTimestamp : Z;
  lastPrimaryCommit : Z;
  failureDetector : FailureDetector;
  timers : replicaTimers;
  random : DeterministicRandom;
  checkpointSession : list byte;
  checkpointSessionOp : Z;
  checkpointTarget : Z;
  checkpointTargetRelease : Z;
  pendingCheckpoint : CheckpointState;
  checkpointRepairDrain : bool;
  wal : WAL S;
  sessions : SessionTable;
  duplicateReads : list (option duplicateRead);
  superblock : Superblock.t;
  pipelineCapacity : Z;
  pipeline : list pipelineEntry;
  requestCapacity : Z;
  requestQueue : list (list byte * TimeSample);
  exitViewBits : Z;
  joinViewBits : Z;
  joins : list joinRecord;
  joinHeaders : list (list Header);
  canonicalHeaders : list Header;
  viewIO : IOHandle;
  viewInstall : bool;
  pendingView : Z;
  viewCommit : Z;
  viewHead : Z;
  repairBudget : journalRepairBudget;
  repairHeader : option Header;
  repairWriteBusy : bool;
  repairView : recoveringView;
  repairHeadersLast : Z;
  repairFrames : list (option (list byte));
  peerCheckpointOps : list Z;
  getViewNonce : list byte;
  getViewLast : Z;
  getViewTarget : Z;
  releaseHistory : list Z;
  releaseReports : list releaseReport;
  upgradeTarget : Z;
  upgradeWindow : upgradeWindow.t;
  releaseActivation : Z;
  releaseResetDone : bool;
  syncRangeRepaired : bool;
  syncIdle : bool;
  awaitingOpen : bool;
  replyRepairing : bool;
  fatalErr : option replica_error;
  pool : list bool;
  handles : list (option IOHandle);
  samples : list TimeSample;
  sent : list outgoing;
  submitted : list IOOperation;
}.
Arguments t : clear implicits.
End Replica.
Abbreviation Replica := Replica.t.

Section replica.
Context {S : Type}.
Implicit Types r : Replica S.
Import Replica.

(** Only the first failure is kept. *)
Definition fail r (err : replica_error) : Replica S :=
  match fatalErr r with Some _ => r | None => r {{ fatalErr := Some err }} end.

(** ** The environment *)

Definition acquire r : Replica S * bool :=
  (r {{ pool := tail (pool r) }}, default false (head (pool r))).

Definition submit r (operation : IOOperation) : Replica S * option IOHandle :=
  match default None (head (handles r)) with
  | None => (r {{ handles := tail (handles r) }}, None)
  | Some handle => (r {{ handles := tail (handles r); submitted := submitted r ++ [operation] }}, Some handle)
  end.

Definition clockNow r : Replica S * TimeSample :=
  (r {{ samples := tail (samples r) }}, default (TimeSample.mk 0 0 false) (head (samples r))).

Definition send r (message : outgoing) : Replica S := r {{ sent := sent r ++ [message] }}.

(** The header a frame with [body] is sealed with. *)
Definition sealed (header : Header) (body : list byte) : option (list byte * Header) :=
  match SealFrame (zeros HeaderSize ++ body) header with Ok sealed => Some sealed | Err _ => None end.

(** ** Reading the state *)

Definition cluster r : ClusterConfig := Config.Cluster (config r).
Definition membership r : Membership := Config.Membership (config r).
Definition activeCount r : Z := Membership.ActiveCount (membership r).
Definition memberCount r : Z := u8 (activeCount r + Membership.StandbyCount (membership r)).
Definition checkpointOp r : Z := CheckpointCheck.PrepareOp (checkpoint r).
Definition primaryOf r (view : Z) : Z := default 0 (Membership.Primary (membership r) view).
Definition isPrimary r : bool := primaryOf r (view r) =? local r.
Definition busy (handle : IOHandle) : bool := negb (bool_decide (handle = noHandle)).

Definition countAckBits (value : Z) : Z := u8 (populationCount value).

(** A header in a message or on storage, [None] when it is rejected. *)
Definition decoded r (bytes : list byte) : option Header :=
  match DecodeHeader bytes (Config.Group (config r)) (u32 (ClusterConfig.MessageSizeMax (cluster r))) (memberCount r) with
  | (header, RejectNone) => Some header
  | _ => None
  end.

Definition commitInFlight r : bool :=
  existsb (fun entry => negb (bool_decide (pipelineEntry.stage entry = CommitStageIdle))) (pipeline r).

(** The header of [op] when there is one, and whether the replica may say it
    does not have the prepare. *)
Definition localHeaderEvidence r (op : Z) : option Header * bool :=
  match list_find (fun entry => prepareOp (pipelineEntry.header entry) = op) (pipeline r) with
  | Some (_, entry) => (Some (pipelineEntry.header entry), negb (pipelineEntry.durable entry))
  | None =>
      if op =? checkpointOp r then (decoded r (CheckpointState.Header (checkpoint r)), false)
      else JoinEvidence (wal r) op
  end.

Definition DurableChecksum r (op : Z) : option (list byte) :=
  if (op <? checkpointOp r) || (headOp r <? op) then None else
  match localHeaderEvidence r op with
  | (Some header, false) => Some (HeaderChecksum header)
  | _ => None
  end.

(** ** The pipeline *)

Definition noPlan : SessionCommitPlan := SessionCommitPlan.mk 0 0 (zeros 16) 0 (zeros 16).

Definition newEntry (frame : list byte) (header : Header) : pipelineEntry :=
  pipelineEntry.mk frame header 0 false false noHandle None CommitStageIdle 0 None zeroHeader noPlan.

Definition pushPipeline r (frame : list byte) (header : Header) : option (Replica S) :=
  if zlen (pipeline r) =? pipelineCapacity r then None else
  Some (r {{ pipeline := pipeline r ++ [newEntry frame header];
             headOp := prepareOp header;
             headChecksum := HeaderChecksum header }}).

Definition popPipeline r : Replica S := r {{ pipeline := tail (pipeline r) }}.

Definition setEntry r (offset : nat) (entry : pipelineEntry) : Replica S :=
  r {{ pipeline := <[offset := entry]> (pipeline r) }}.

Definition releaseQueuedRequests r : Replica S := r {{ requestQueue := [] }}.
End replica.

(** ** Status and invariants *)

Definition validStatusTransition (from to : Status) (cause : TransitionCause) : bool :=
  match from, to, cause with
  | StatusRecovering, StatusNormal, CauseRecoveredBackup => true
  | StatusRecovering, StatusRecoveringHead, CauseRecoveredUncertainHead => true
  | StatusRecovering, StatusViewChange, CauseRecoveredViewChange => true
  | StatusRecoveringHead, StatusNormal, CauseCanonicalViewInstalled => true
  | StatusNormal, StatusViewChange, (CauseLocalTimeout | CauseHigherView) => true
  | StatusViewChange, StatusViewChange, CauseNewerViewChange => true
  | StatusViewChange, StatusNormal, CauseCanonicalViewInstalled => true
  | _, _, _ => false
  end.

Module ReplicaSnapshot.
Record t := mk {
  Status : Status;
  View : Z;
  DurableView : Z;
  LogView : Z;
  HeadOp : Z;
  CommitMin : Z;
  CommitMax : Z;
  Checkpoint : CheckpointState;
  PipelineLen : Z;
  CommitStage : CommitStage;
  PrepareWritePending : bool;
  Committing : bool;
  Primary : Z;
}.
End ReplicaSnapshot.
Abbreviation ReplicaSnapshot := ReplicaSnapshot.t.

Definition Snapshot {S} (r : Replica S) : ReplicaSnapshot :=
  let '(commitStage, pending, committing) :=
    match Replica.pipeline r with
    | [] => (CommitStageIdle, false, false)
    | entry :: _ =>
        (pipelineEntry.stage entry, bool_decide (pipelineEntry.ioKind entry = Some IOWALAppend),
         (stage_number CommitStageCheckpointDurable <=? stage_number (pipelineEntry.stage entry))
         && (prepareOp (pipelineEntry.header entry) =? Replica.commitMin r))
    end in
  ReplicaSnapshot.mk (Replica.status r) (Replica.view r) (Replica.durableView r) (Replica.logView r) (Replica.headOp r)
    (Replica.commitMin r) (Replica.commitMax r) (Replica.checkpoint r) (u32 (zlen (Replica.pipeline r))) commitStage pending
    committing (primaryOf r (Replica.view r)).

Inductive snapshot_error :=
| DurableViewExceeds
| LogViewExceeds
| NormalViewNotInstalled
| CheckpointCommitHeadOrder
| ExecutedExceedsLearned
| LearnedOutsidePipeline
| PrimaryCommitBounds
| CommittingNoEntry
| PrimaryPipelineLength.

Definition validateReplicaSnapshot (snapshot : ReplicaSnapshot) (config : ClusterConfig) (local : Z) : result snapshot_error unit :=
  let normal := bool_decide (ReplicaSnapshot.Status snapshot = StatusNormal) in
  let view := ReplicaSnapshot.View snapshot in
  let head := ReplicaSnapshot.HeadOp snapshot in
  let commitMin := ReplicaSnapshot.CommitMin snapshot in
  let commitMax := ReplicaSnapshot.CommitMax snapshot in
  if view <? ReplicaSnapshot.DurableView snapshot then Err DurableViewExceeds else
  if view <? ReplicaSnapshot.LogView snapshot then Err LogViewExceeds else
  if normal && (negb (view =? ReplicaSnapshot.LogView snapshot) || negb (view =? ReplicaSnapshot.DurableView snapshot))
  then Err NormalViewNotInstalled else
  let checkpointOp := CheckpointCheck.PrepareOp (ReplicaSnapshot.Checkpoint snapshot) in
  if (commitMin <? checkpointOp) || (head <? commitMin) then Err CheckpointCommitHeadOrder else
  if commitMax <? commitMin then Err ExecutedExceedsLearned else
  let minimumCommit := if ClusterConfig.PipelineMax config <? head then u64 (head - ClusterConfig.PipelineMax config) else 0 in
  if commitMax <? minimumCommit then Err LearnedOutsidePipeline else
  if normal && (ReplicaSnapshot.Primary snapshot =? local) then
    if negb (commitMin =? commitMax) then Err PrimaryCommitBounds else
    let pending := ReplicaSnapshot.PipelineLen snapshot in
    if ReplicaSnapshot.Committing snapshot && (pending =? 0) then Err CommittingNoEntry else
    let pending := if ReplicaSnapshot.Committing snapshot then u32 (pending - 1) else pending in
    if negb (u64 (head - commitMin) =? pending) then Err PrimaryPipelineLength else Ok tt
  else Ok tt.

Inductive transition_error := ErrStatusTransition | TransitionInvariant (cause : snapshot_error).

Definition checkInvariants {S} (r : Replica S) : result snapshot_error unit :=
  validateReplicaSnapshot (Snapshot r) (cluster r) (Replica.local r).

Definition Transition {S} (r : Replica S) (to : Status) (cause : TransitionCause) : Replica S * result transition_error unit :=
  if negb (validStatusTransition (Replica.status r) to cause) then (r, Err ErrStatusTransition) else
  let r := r {{ Replica.status := to }} in
  (r, match checkInvariants r with Ok _ => Ok tt | Err cause => Err (TransitionInvariant cause) end).
