(* ===== verification/Release.v ===== *)
(** * Releases

    Choosing and activating a new release, [src/replication/release.go], and
    the schedule of checkpoints of [src/replication/replica_checkpoint.go].
    The primary selects a release every active replica reports it can execute;
    the prepares between a checkpoint and its trigger then have to be upgrades
    to it for the checkpoint to be taken with it.  A replica that restarts finds
    the same window by reading its log. *)

From S2P Require Import Prelude Records Bytes Arith Checksum Header Config Ewah Clock Random Timers RepairBudget.
From S2P Require Import Storage Checkpoint Superblock Wal WalRecovery Replica.

(** ** Checkpoints *)

Definition checkpointAfter (cluster : ClusterConfig) (current : Z) : option Z :=
  interval ← CheckpointInterval cluster;
  if interval =? 0 then None else
  if current =? 0 then Some (u64 (interval - 1)) else checkedAdd current interval.

Definition checkpointTrigger (cluster : ClusterConfig) (checkpoint : Z) : option Z :=
  checkedAdd checkpoint (ClusterConfig.CompactionOps cluster).

(** ** The releases of a process *)

Definition containsRelease (releases : list Z) (target : Z) : bool := existsb (fun release => release =? target) releases.

(** The loop over the releases: positive and increasing. *)
Fixpoint increasing_from (previous : Z) (releases : list Z) : bool :=
  match releases with
  | [] => true
  | release :: releases => negb ((release =? 0) || (release <=? previous)) && increasing_from release releases
  end.

(** [executor] is what the release executor lists, when there is one. *)
Definition executableReleases (config : Config.t) (executor : option (list Z)) : option (list Z) :=
  match executor with
  | None => Some [Config.CurrentRelease config]
  | Some source =>
      if (zlen source =? 0) || (i64 (ClusterConfig.ReleaseHistoryMax (Config.Cluster config)) <? zlen source) then None else
      if negb (increasing_from 0 source) then None else
      if negb (containsRelease source (Config.CurrentRelease config)) then None else Some source
  end.

Section release.
Context {S : Type}.
Implicit Types r : Replica S.
Import Replica.

(** ** Reports *)

(** A report's buffer after it is cleared and [releases] is copied into it. *)
Definition filled (report : releaseReport) (releases : list Z) : list Z :=
  let n := length (releaseReport.releases report) in take n (releases ++ replicate n 0).

Definition noReport : releaseReport := releaseReport.mk false 0 0 [].
Definition reportOf r (member : Z) : releaseReport := default noReport (releaseReports r !! Z.to_nat member).
Definition setReport r (member : Z) (report : releaseReport) : Replica S :=
  r {{ releaseReports := <[Z.to_nat member := report]> (releaseReports r) }}.

Definition refreshLocalReleaseReport r : Replica S :=
  if activeCount r <=? local r then r else
  setReport r (local r) (releaseReport.mk true (view r) (u16 (zlen (releaseHistory r)))
    (filled (reportOf r (local r)) (releaseHistory r))).

Definition invalidateReleaseReports r : Replica S :=
  r {{ releaseReports := (fun report => releaseReport.mk false 0 0 (filled report [])) <$> releaseReports r }}.

(** The target is the newest release, newer than the current one, that every
    active replica reports in this view. *)
Definition reported r (target member : Z) : bool :=
  let report := reportOf r member in
  releaseReport.valid report && (releaseReport.view report =? view r)
  && containsRelease (take (Z.to_nat (releaseReport.count report)) (releaseReport.releases report)) target.

Definition maybeSelectUpgrade r : Replica S :=
  if negb (isPrimary r) || negb (bool_decide (status r = StatusNormal)) || negb (upgradeTarget r =? 0) then r else
  let r := refreshLocalReleaseReport r in
  let eligible target := negb (target <=? Config.CurrentRelease (config r)) && forallb (reported r target) (seqZ 0 (activeCount r)) in
  match list_find (fun target => eligible target = true) (reverse (releaseHistory r)) with
  | Some (_, target) => r {{ upgradeTarget := target }}
  | None => r
  end.

Definition observeReleaseReport r (header : Header) (body : list byte) : Replica S :=
  if (activeCount r <=? Author header) || negb (View header =? view r) || negb (bool_decide (status r = StatusNormal)) then r else
  let count := getUint (slice (Fields header) 32 34) in
  let releases := (fun index => getUint (slice body (index * 4) (index * 4 + 4))) <$> seqZ 0 count in
  maybeSelectUpgrade
    (setReport r (Author header) (releaseReport.mk true (View header) count (filled (reportOf r (Author header)) releases))).

(** ** The upgrade window *)

(** The target an upgrade's body names. *)
Definition upgradeBody (body : list byte) : Z := getUint (slice body 0 4).

Definition executeUpgrade r (entry : pipelineEntry) : Replica S * bool :=
  let target := upgradeBody (slice (pipelineEntry.prepare entry) HeaderSize (HeaderSize + 4)) in
  if (target =? CheckpointState.Release (checkpoint r)) || (target =? Config.CurrentRelease (config r)) then (r, true) else
  if (target <? Config.CurrentRelease (config r)) || negb (containsRelease (releaseHistory r) target) then (r, false) else
  if negb (upgradeTarget r =? 0) && negb (upgradeTarget r =? target) then (r, false) else
  (r {{ upgradeTarget := target }}, true).

(** What one committed prepare does to the window, [target] being the one its
    body names when it is an upgrade. *)
Definition windowStep (window : upgradeWindow.t) (upgrade : bool) (target : Z) : upgradeWindow.t :=
  let invalid := upgradeWindow.mk (upgradeWindow.checkpoint window) (upgradeWindow.target window) false (upgradeWindow.started window) in
  if negb (upgradeWindow.valid window) || negb upgrade then invalid else
  let chosen := if upgradeWindow.target window =? 0 then target else upgradeWindow.target window in
  upgradeWindow.mk (upgradeWindow.checkpoint window) chosen
    (upgradeWindow.valid window && negb ((target =? 0) || negb (target =? chosen))) (upgradeWindow.started window).

Definition trackUpgradeWindow r (entry : pipelineEntry) : Replica S :=
  match checkpointAfter (cluster r) (checkpointOp r) with
  | None => fail r ErrReplicaInvariant
  | Some next =>
  match checkpointTrigger (cluster r) next with
  | None => fail r ErrReplicaInvariant
  | Some trigger =>
      let op := prepareOp (pipelineEntry.header entry) in
      if (op <=? next) || (trigger <? op) then r else
      let window := upgradeWindow r in
      let window :=
        if negb (upgradeWindow.started window) || negb (upgradeWindow.checkpoint window =? next)
        then upgradeWindow.mk next 0 (op =? u64 (next + 1)) true else window in
      r {{ upgradeWindow := windowStep window (prepareOperation (pipelineEntry.header entry) =? OperationUpgrade)
             (upgradeBody (slice (pipelineEntry.prepare entry) HeaderSize (HeaderSize + 4))) }}
  end end.

Definition checkpointRelease r (target : Z) : Z :=
  let window := upgradeWindow r in
  if upgradeWindow.started window && upgradeWindow.valid window && (upgradeWindow.checkpoint window =? target)
     && (upgradeWindow.target window =? upgradeTarget r)
  then upgradeWindow.target window else Config.CurrentRelease (config r).
End release.

(** ** Reading the window from the log *)

Module recoveredUpgradeState.
Record t := mk { target : Z; window : upgradeWindow.t }.

Definition zero : t := mk 0 upgradeWindow.zero.

(** [None] is [ErrWALRecovery]. *)
Definition observeTarget (state : t) (checkpointRelease : Z) (header : Header) (body : list byte) : option t :=
  if negb (prepareOperation header =? OperationUpgrade) then Some state else
  if negb (zlen body =? 16) then None else
  let requested := upgradeBody body in
  if requested =? checkpointRelease then Some state else
  if (requested <? checkpointRelease) || (requested <=? Release header) then None else
  if negb (target state =? 0) && negb (target state =? requested) then None else
  Some (mk requested (window state)).

Definition observe (state : t) (config : ClusterConfig) (checkpoint checkpointRelease : Z) (header : Header) (body : list byte)
    : option t :=
  state ← observeTarget state checkpointRelease header body;
  next ← checkpointAfter config checkpoint;
  trigger ← checkpointTrigger config next;
  let op := prepareOp header in
  if (op <=? next) || (trigger <? op) then Some state else
  let window := window state in
  let window := if upgradeWindow.started window then window else upgradeWindow.mk next 0 (op =? u64 (next + 1)) true in
  Some (mk (target state) (windowStep window (prepareOperation header =? OperationUpgrade) (upgradeBody body))).
End recoveredUpgradeState.
Abbreviation recoveredUpgradeState := recoveredUpgradeState.t.
