(* ===== verification/ViewChange.v ===== *)
(** * View change

    The part of [src/replication/view_change.go] that starts a change of view
    and decides which operations survive it.  A replica that gives up on a view
    persists the next one with its uncommitted suffix, and then reports the
    suffix in a join-view message; the new primary records the messages, and
    once it has a view-change quorum chooses the commit point, the head and the
    headers between them. *)

From S2P Require Import Prelude Records Bytes Arith Checksum Header Config Ewah Clock Random Timers RepairBudget.
From S2P Require Import Storage Checkpoint Superblock Wal WalRecovery Replica Release.

Section view_change.
Context {S : Type}.
Implicit Types r : Replica S.
Import Replica.

(** ** Asking for a view *)

(** A fresh nonce when there is none: two draws, never zero. *)
Definition drawNonce r : Replica S :=
  if negb (bool_decide (getViewNonce r = zeros 16)) then r else
  let '(random, low) := Next (random r) in
  let '(random, high) := Next random in
  let nonce := putUint 8 low ++ putUint 8 high in
  r {{ Replica.random := random; getViewNonce := if bool_decide (nonce = zeros 16) then put nonce 0 (putUint 1 1) else nonce }}.

Definition sendGetView r (now : Z) : Replica S :=
  let target := Z.max (view r) (getViewTarget r) in
  let primary := primaryOf r target in
  if primary =? local r then r else
  if negb (getViewLast r =? 0) && (elapsedSince (getViewLast r) now <? u64 (ProcessConfig.InitialRTT (Config.Process (config r))))
  then r else
  let r := drawNonce r in
  let '(r, acquired) := acquire r in
  if negb acquired then r else
  let header := mkHeader (zeros 16) (zeros 16) (Config.Group (config r)) 0 0 target 0 ProtocolVersion CommandGetView (local r)
    (write_fields (zeros CommandFieldsSize) [(0, getViewNonce r)]) in
  match sealed header [] with
  | Some (_, header) => (send r (SendReplica primary header [])) {{ getViewLast := now }}
  | None => r
  end.

Definition requestView r (target now : Z) : Replica S :=
  let r := if getViewTarget r <? target
    then r {{ getViewTarget := target; getViewNonce := zeros 16; getViewLast := 0 }} else r in
  sendGetView r now.

(** ** Starting a view change *)

Fixpoint collectLocalSuffix (maximum : nat) r (op : Z) : list Header :=
  match maximum with
  | O => []
  | Datatypes.S maximum =>
      default zeroHeader (localHeaderEvidence r op).1 ::
      (if (op =? checkpointOp r) || (op =? 0) then [] else collectLocalSuffix maximum r (u64 (op - 1)))
  end.

(** The suffix from the head down, as [beginViewChangeNow] collects it. *)
Definition localSuffix r : list Header :=
  collectLocalSuffix (Nat.min (length (canonicalHeaders r)) (Z.to_nat (u64 (ClusterConfig.PipelineMax (cluster r) + 1)))) r (headOp r).

(** A header as the superblock stores it: a blank header leaves its slot blank;
    [None]: it does not encode. *)
Definition storedHeader (header : Header) : option (list byte) :=
  if Command header =? CommandReserved then Some (zeros HeaderSize)
  else match EncodeHeader HeaderSize header with Ok (bytes, _) => Some bytes | Err _ => None end.

(** The superblock with the view and the headers: a blank header leaves its
    slot blank. *)
Definition viewSuperblock r (install : bool) (commit : Z) (encoded : list (list byte)) : Superblock.t :=
  let current := superblock r in
  let state := Superblock.State current in
  let state := DurableReplicaState.mk (DurableReplicaState.Checkpoint state) (DurableReplicaState.LocalMember state)
    (DurableReplicaState.Members state) (Z.max (DurableReplicaState.CommitMax state) commit)
    (DurableReplicaState.SyncMin state) (DurableReplicaState.SyncMax state)
    (if install then view r else DurableReplicaState.LogView state) (view r)
    (DurableReplicaState.ActiveCount state) (DurableReplicaState.StandbyCount state) in
  Superblock.mk (Superblock.Checksum current) (Superblock.FormatVersion current) (Superblock.Release current)
    (u64 (Superblock.Sequence current + 1)) (Superblock.Group current) (Superblock.Checksum current) state
    (u32 (zlen encoded)) (Superblock.ConfigurationChecksum current) (Superblock.ProtocolVersion current)
    (encoded ++ replicate (Z.to_nat (SuperblockHeadersMax - zlen encoded)) (zeros HeaderSize)).

Definition persistView r (install : bool) (commit head : Z) (headers : list Header) : Replica S * option replica_error :=
  if busy (viewIO r) || (zlen headers =? 0) || (i64 (u64 (ClusterConfig.PipelineMax (cluster r) + 1)) <? zlen headers)
  then (r, Some ErrReplicaBackpressure) else
  match mapM storedHeader headers with
  | None => (r, Some ErrEncoding)
  | Some encoded =>
      match submit r (PersistSuperblock (viewSuperblock r install commit encoded)) with
      | (r, None) => (r, Some ErrIO)
      | (r, Some handle) => (r {{ viewIO := handle; viewInstall := install; viewCommit := commit; viewHead := head }}, None)
      end
  end.

(** No acknowledgement of an earlier view counts. *)
Definition forgetAcks (entry : pipelineEntry) : pipelineEntry :=
  entry {{ pipelineEntry.acks := 0; pipelineEntry.quorum := false }}.

Definition beginViewChangeNow r (target : Z) : Replica S :=
  let r := r {{ status := StatusViewChange; view := target; exitViewBits := 0 }} in
  let r := invalidateReleaseReports r in
  let r := r {{ joinViewBits := 0;
                joins := replicate (length (joins r)) joinRecord.zero;
                timers ::= fun timers => timers {{ replicaTimers.join ::= Timeout.Reset }};
                pipeline := forgetAcks <$> pipeline r }} in
  let r := releaseQueuedRequests r in
  let suffix := localSuffix r in
  let r := r {{ canonicalHeaders := suffix ++ drop (length suffix) (canonicalHeaders r) }} in
  match persistView r false (commitMax r) (headOp r) suffix with
  | (r, Some err) => fail r err
  | (r, None) => r
  end.

Definition beginViewChange r (target : Z) : Replica S :=
  if (target <=? view r) || bool_decide (status r = StatusRecoveringHead) then r else
  if busy (viewIO r) || commitInFlight r then r {{ pendingView := Z.max (pendingView r) target }}
  else beginViewChangeNow r target.

Definition resumePendingViewChange r : Replica S * bool :=
  if pendingView r <=? view r then (r {{ pendingView := 0 }}, false) else
  let target := pendingView r in
  (beginViewChangeNow (r {{ pendingView := 0 }}) target, true).

Definition handleExitView r (header : Header) : Replica S :=
  if view r <? View header then beginViewChange r (View header) else
  if negb (bool_decide (status r = StatusNormal)) || negb (View header =? view r) || (activeCount r <=? Author header) then r else
  let bit := u16 (Z.shiftl 1 (Author header)) in
  if negb (Z.land (exitViewBits r) bit =? 0) then r else
  let r := r {{ exitViewBits := Z.lor (exitViewBits r) bit }} in
  if countAckBits (exitViewBits r) <? Quorums.ViewChange (quorums r) then r else
  if view r =? MaxView then fail r ErrReplicaInvariant else beginViewChange r (view r + 1).

(** Whether the message has been dealt with. *)
Definition handleHigherViewEvidence r (header : Header) : Replica S * bool :=
  if (View header <? view r) || (activeCount r <=? Author header) then (r, false) else
  let command := Command header in
  let prepareOrCommit := (command =? CommandPrepare) || (command =? CommandCommit) in
  let exitOrJoin := (command =? CommandExitView) || (command =? CommandJoinView) in
  let pings := (command =? CommandPing) || (command =? CommandPong) in
  let ask r := let '(r, now) := clockNow r in requestView r (View header) (TimeSample.Monotonic now) in
  if awaitingOpen r && (prepareOrCommit || exitOrJoin) then (ask r, true) else
  if awaitingOpen r && pings then (if view r <? View header then ask r else r, false) else
  if prepareOrCommit then
    if (command =? CommandPrepare)
       && match repairHeader r with Some repair => bool_decide (HeaderChecksum header = HeaderChecksum repair) | None => false end
    then (r, false) else
    if (view r <? View header) || bool_decide (status r = StatusViewChange) || bool_decide (status r = StatusRecoveringHead)
    then (ask r, true) else (r, false)
  else if exitOrJoin || pings then
    if bool_decide (status r = StatusRecoveringHead) then (ask r, true) else
    if (view r <? View header) && (local r <? activeCount r) then (beginViewChange r (View header), true) else (r, false)
  else (r, false).

(** ** The join-view message *)

(** One entry of the body with the bits it sets: [None] when the header does
    not encode. *)
Definition joinEntry r (index : Z) : option (list byte * Z * Z) :=
  let op := u64 (headOp r - index) in
  let '(header, negative) := localHeaderEvidence r op in
  encoded ← (match header with
             | None => Some (zeros HeaderSize)
             | Some header => match EncodeHeader HeaderSize header with Ok (bytes, _) => Some bytes | Err _ => None end
             end);
  let bit := u16 (Z.shiftl 1 index) in
  Some (encoded, (match header with Some _ => bit | None => 0 end), (if negative then bit else 0)).

Fixpoint joinEntries r (indices : list Z) : option (list byte * Z * Z) :=
  match indices with
  | [] => Some ([], 0, 0)
  | index :: indices =>
      '(encoded, available, negative) ← joinEntry r index;
      '(body, present, nack) ← joinEntries r indices;
      Some (encoded ++ body, Z.lor available present, Z.lor negative nack)
  end.

Definition joinCount r : Z :=
  let count := Z.min (i64 (u64 (headOp r - checkpointOp r + 1))) (i64 (u64 (ClusterConfig.PipelineMax (cluster r) + 1))) in
  if count <=? 0 then 1 else count.

(** The header, before it is sealed, and the body [sendJoinView] builds. *)
Definition joinView r : option (Header * list byte) :=
  '(body, present, nack) ← joinEntries r (seqZ 0 (joinCount r));
  let fields := write_fields (zeros CommandFieldsSize)
    [(0, putUint 2 present); (16, putUint 2 nack); (32, putUint 8 (headOp r)); (40, putUint 8 (commitMin r));
     (48, putUint 8 (checkpointOp r)); (56, putUint 4 (logView r))] in
  Some (mkHeader (zeros 16) (zeros 16) (Config.Group (config r)) 0 0 (view r) 0 ProtocolVersion CommandJoinView (local r) fields,
        body).

(** ** Choosing the canonical suffix *)

Definition joinOf r (sender : Z) : joinRecord := default joinRecord.zero (joins r !! Z.to_nat sender).

Definition joinHeaderSlice r (sender : Z) : list Header := default [] (joinHeaders r !! Z.to_nat sender).

Definition joinHeaderAt r (sender op : Z) : option Header :=
  let record := joinOf r sender in
  if negb (joinRecord.valid record) || (joinRecord.head record <? op) then None else
  let index := u64 (joinRecord.head record - op) in
  if joinRecord.count record <=? index then None else
  let header := default zeroHeader (joinHeaderSlice r sender !! Z.to_nat index) in
  if Command header =? CommandReserved then None else Some header.

Definition senders r : list Z := seqZ 0 (zlen (joins r)).

Definition joinCommittedBound r (sender : Z) : Z :=
  let record := joinOf r sender in
  let pipeline := ClusterConfig.PipelineMax (cluster r) in
  let head := joinRecord.head record in
  let bound := Z.max (Z.max (joinRecord.commit record) (joinRecord.checkpoint record))
    (u64 (head - u8 (joinRecord.count record - 1))) in
  let bound := if pipeline <? head then Z.max bound (u64 (head - pipeline)) else bound in
  match joinHeaderAt r sender head with
  | Some header => Z.max bound (prepareCommit header)
  | None => bound
  end.

Definition canonicalLogView r : Z :=
  fold_left (fun latest record => if joinRecord.valid record then Z.max latest (joinRecord.logView record) else latest)
    (joins r) 0.

(** The commit point: what the replica and every join prove committed. *)
Definition committedBound r : Z :=
  fold_left (fun bound sender => if joinRecord.valid (joinOf r sender) then Z.max bound (joinCommittedBound r sender) else bound)
    (senders r) (Z.max (Z.max (commitMin r) (commitMax r)) (checkpointOp r)).

(** Two joins of the latest log view that disagree on [op]. *)
Definition conflicting r (latest op : Z) (header : Header) (other : Z) : bool :=
  match joinHeaderAt r other op with
  | Some prior => (joinRecord.logView (joinOf r other) =? latest) && (View prior =? View header)
                  && negb (bool_decide (HeaderChecksum prior = HeaderChecksum header))
  | None => false
  end.

(** The loop of [canonicalCandidate]; [selected] carries the log view the
    header comes from and [None] is a conflict. *)
Fixpoint candidate_loop r (latest bound op : Z) (rest : list Z) (selected : option (Header * Z))
    : option (option (Header * Z)) :=
  match rest with
  | [] => Some selected
  | sender :: rest =>
      let logView := joinRecord.logView (joinOf r sender) in
      match joinHeaderAt r sender op with
      | None => candidate_loop r latest bound op rest selected
      | Some header =>
          if negb (logView =? latest) && (bound <? op) then candidate_loop r latest bound op rest selected else
          if (logView =? latest) && existsb (conflicting r latest op header) (seqZ 0 sender) then None else
          match selected with
          | None => candidate_loop r latest bound op rest (Some (header, logView))
          | Some (chosen, selectedLog) =>
              if (selectedLog <? logView) || ((logView =? selectedLog) && (View chosen <? View header))
              then candidate_loop r latest bound op rest (Some (header, logView)) else
              if (logView =? selectedLog) && (View header =? View chosen)
                 && negb (bool_decide (HeaderChecksum header = HeaderChecksum chosen))
              then None
              else candidate_loop r latest bound op rest selected
          end
      end
  end.

Definition canonicalCandidate r (op : Z) : option (option Header) :=
  option_map (option_map fst) (candidate_loop r (canonicalLogView r) (committedBound r) op (senders r) None).

Definition sameHeader (candidate : option Header) (header : Header) : bool :=
  match candidate with
  | Some candidate => bool_decide (HeaderChecksum header = HeaderChecksum candidate)
  | None => false
  end.

(** What one join says about [op]: whether it counts against it, and whether
    it is a copy of the candidate. *)
Definition joinEvidence r (latest op : Z) (candidate : option Header) (sender : Z) : bool * bool :=
  let record := joinOf r sender in
  if negb (joinRecord.valid record) then (false, false) else
  if joinRecord.head record <? op then (true, false) else
  let index := u64 (joinRecord.head record - op) in
  if joinRecord.count record <=? index then (true, false) else
  let bit := u16 (Z.shiftl 1 index) in
  let header := joinHeaderAt r sender op in
  let copy := match header with
    | Some header => sameHeader candidate header && negb (Z.land (joinRecord.present record) bit =? 0)
    | None => false
    end in
  if negb (Z.land (joinRecord.nack record) bit =? 0) then (true, copy) else
  match header with
  | None => (false, copy)
  | Some header =>
      if latest <=? joinRecord.logView record then (false, copy) else
      let differentCandidate := match candidate with Some _ => negb (sameHeader candidate header) | None => false end in
      let absentFromLatest := match candidate with Some _ => false | None => View header <? latest end in
      (differentCandidate || absentFromLatest, copy)
  end.

Definition canonicalEvidence r (op : Z) (candidate : option Header) : Z * Z :=
  let evidence := joinEvidence r (canonicalLogView r) op candidate <$> senders r in
  (u8 (zlen (filter (fun e : bool * bool => e.1 = true) evidence)),
   u8 (zlen (filter (fun e : bool * bool => e.2 = true) evidence))).

Inductive selection := Unresolved | Conflict | Selected (head count : Z).

(** The loop of [selectCanonicalSuffix] over the operations; [count] headers
    have been stored.  [None]: it has not ended within [fuel] iterations. *)
Fixpoint select_loop (fuel : nat) r (committed maximumHead op count : Z) (canonical : list Header) (previous : Header)
    : option (list Header * selection) :=
  match fuel with
  | O => None
  | Datatypes.S fuel =>
      if maximumHead <? op then Some (canonical, Selected maximumHead count) else
      match canonicalCandidate r op with
      | None => Some (canonical, Conflict)
      | Some candidate =>
          let '(negatives, copies) := canonicalEvidence r op candidate in
          if (Quorums.Negative (quorums r) <=? negatives) && (committed <? op)
          then Some (canonical, Selected (u64 (op - 1)) count) else
          match candidate with
          | None => Some (canonical, Unresolved)
          | Some header =>
              if copies =? 0 then Some (canonical, Unresolved) else
              if negb (count =? 0) && negb (bool_decide (prepareParent header = HeaderChecksum previous))
              then Some (canonical, Unresolved)
              else select_loop fuel r committed maximumHead (u64 (op + 1)) (count + 1)
                     (<[Z.to_nat count := header]> canonical) header
          end
      end
  end.

Definition maximumHead r : Z :=
  fold_left (fun head record => if joinRecord.valid record then Z.max head (joinRecord.head record) else head)
    (joins r) (checkpointOp r).

Definition malformedJoin (record : joinRecord) : bool :=
  joinRecord.valid record
  && ((joinRecord.count record =? 0) || (joinRecord.head record <? u8 (joinRecord.count record - 1))).

(** The commit point, the head and the number of headers, which are in
    [canonicalHeaders] from the head down. *)
Definition selectCanonicalSuffix (fuel : nat) r : option (Replica S * option (Z * Z * Z)) :=
  if existsb malformedJoin (joins r) then Some (r, None) else
  let committed := committedBound r in
  let maximum := maximumHead r in
  if (maximum <? committed) || (zlen (canonicalHeaders r) <=? u64 (maximum - committed)) then Some (r, None) else
  '(canonical, outcome) ← select_loop fuel r committed maximum committed 0 (canonicalHeaders r) zeroHeader;
  match outcome with
  | Unresolved => Some (r {{ canonicalHeaders := canonical }}, None)
  | Conflict => Some (fail (r {{ canonicalHeaders := canonical }}) UnrecoverableInvariant, None)
  | Selected head count =>
      let n := Z.to_nat count in
      Some (r {{ canonicalHeaders := reverse (take n canonical) ++ drop n canonical }}, Some (committed, head, count))
  end.

(** ** Installing the view *)

(** The newest canonical header the replica holds durably, or the parent of the
    oldest one. *)
Fixpoint common_loop r (headers : list Header) : option (option Z) :=
  match headers with
  | [] => None
  | canonical :: headers =>
      let op := prepareOp canonical in
      if headOp r <? op then common_loop r headers else
      match localHeaderEvidence r op with
      | (Some header, dirty) =>
          if negb dirty && bool_decide (HeaderChecksum header = HeaderChecksum canonical) then Some (Some op) else
          if op <=? commitMin r then Some None else common_loop r headers
      | (None, _) => common_loop r headers
      end
  end.

Definition recoveringCommonAncestor r (count : Z) : option Z :=
  let headers := take (Z.to_nat count) (canonicalHeaders r) in
  match common_loop r headers with
  | Some outcome => outcome
  | None =>
      oldest ← last headers;
      let oldestOp := prepareOp oldest in
      if (0 <? oldestOp) && (u64 (oldestOp - 1) <=? headOp r) then
        match localHeaderEvidence r (u64 (oldestOp - 1)) with
        | (Some parent, false) =>
            if bool_decide (prepareParent oldest = HeaderChecksum parent) then Some (u64 (oldestOp - 1)) else None
        | _ => None
        end
      else None
  end.

Definition headerAt r (index : Z) : Header := default zeroHeader (canonicalHeaders r !! Z.to_nat index).

(** The headers but the one of the checkpoint. *)
Definition proofCount r (count : Z) : Z :=
  if (1 <? count) && (prepareOp (headerAt r (count - 1)) =? checkpointOp r) then count - 1 else count.

Definition validRecoveringView r (view commit head count : Z) : bool :=
  negb (commitInFlight r || (count =? 0) || (head <? commitMin r))
  && negb (repairWriteBusy r || busy (viewIO r))
  && negb ((view <? Replica.view r) || (commit <? commitMax r) || (head <? commit))
  && negb (pipelineCapacity r <? u64 (head - commitMin r))
  && (let proof := proofCount r count in
      forallb (fun index =>
        let header := headerAt r index in
        (prepareOp header =? u64 (head - index)) && (View header <=? view)
        && ((index =? 0) || bool_decide (prepareParent (headerAt r (index - 1)) = HeaderChecksum header)))
        (seqZ 0 proof)
      && match recoveringCommonAncestor r proof with
         | Some ancestor => (commitMin r <=? ancestor) && (prepareOp (headerAt r (proof - 1)) <=? u64 (ancestor + 1))
         | None => false
         end).

(** [None]: an assertion of the repair budget fails. *)
Definition recordRecoveringView r (view commit head count : Z) : option (Replica S) :=
  budget ← journalRepairBudget.Reset (repairBudget r);
  let ancestor := default 0 (recoveringCommonAncestor r (proofCount r count)) in
  Some (r {{ commitMax := Z.max (commitMax r) commit;
             repairFrames := (fun _ => None) <$> repairFrames r;
             repairHeader := None;
             repairBudget := budget;
             repairView := recoveringView.mk true view commit head ancestor false false count }}).

Definition tryInstallCanonicalView (fuel : nat) r : option (Replica S) :=
  '(r, selected) ← selectCanonicalSuffix fuel r;
  let unresolved :=
    if countAckBits (joinViewBits r) =? activeCount r then fail r ErrUnrecoverableConsensusState else r in
  match selected with
  | None => Some unresolved
  | Some (commit, head, count) =>
      if commit <? commitMin r then Some unresolved else
      if busy (viewIO r) then Some r else
      if negb (validRecoveringView r (view r) commit head count) then Some r else
      recordRecoveringView (r {{ status := StatusRecoveringHead }}) (view r) commit head count
  end.

(** ** Recording a join *)

Definition observePeerCheckpoint r (peer checkpoint : Z) : Replica S :=
  if u8 (zlen (peerCheckpointOps r)) <=? peer then r else
  let i := Z.to_nat peer in
  r {{ peerCheckpointOps := <[i := Z.max (default 0 (peerCheckpointOps r !! i)) checkpoint]> (peerCheckpointOps r) }}.

Definition joinFrom (header : Header) (count : Z) : joinRecord :=
  let fields := Fields header in
  joinRecord.mk true (getUint (slice fields 0 2)) (getUint (slice fields 16 18)) (getUint (slice fields 32 40))
    (getUint (slice fields 40 48)) (getUint (slice fields 48 56)) (getUint (slice fields 56 60)) (u8 count).

(** The headers of the body up to one that is rejected or not the prepare of
    its place; blank entries stay blank. *)
Fixpoint joinBody r (head : Z) (body : list byte) (indices : list Z) : list Header * bool :=
  match indices with
  | [] => ([], true)
  | index :: indices =>
      let encoded := slice body (index * HeaderSize) ((index + 1) * HeaderSize) in
      let header := if allZero encoded then Some zeroHeader else
        header ← decoded r encoded; if prepareOp header =? u64 (head - index) then Some header else None in
      match header with
      | None => ([], false)
      | Some header => let '(headers, ok) := joinBody r head body indices in (header :: headers, ok)
      end
  end.

Definition recordJoinView (fuel : nat) r (header : Header) (body : list byte) : option (Replica S) :=
  let sender := Author header in
  let i := Z.to_nat sender in
  let bit := u16 (Z.shiftl 1 sender) in
  if negb (Z.land (joinViewBits r) bit =? 0) then Some r else
  let count := zlen body / HeaderSize in
  let stride := u64 (ClusterConfig.PipelineMax (cluster r) + 1) in
  if (count =? 0) || (stride <? count) then Some r else
  let record := joinFrom header count in
  let head := joinRecord.head record in
  if (head <? count - 1) || (View header <? joinRecord.logView record) || (head <? joinRecord.commit record)
     || (joinRecord.commit record <? joinRecord.checkpoint record)
  then Some (r {{ joins := <[i := joinRecord.zero]> (joins r) }}) else
  let r := observePeerCheckpoint r sender (joinRecord.checkpoint record) in
  let blank := replicate (Z.to_nat stride) zeroHeader in
  let '(headers, ok) := joinBody r head body (seqZ 0 count) in
  let r := r {{ joinHeaders := <[i := headers ++ drop (length headers) blank]> (joinHeaders r) }} in
  if negb ok then Some (r {{ joins := <[i := joinRecord.zero]> (joins r) }}) else
  let r := r {{ joins := <[i := record]> (joins r); joinViewBits := Z.lor (joinViewBits r) bit }} in
  if Quorums.ViewChange (quorums r) <=? countAckBits (joinViewBits r) then tryInstallCanonicalView fuel r else Some r.

(** ** Messages *)

(** The join is recorded at once by the primary of the view. *)
Definition sendJoinView (fuel : nat) r : option (Replica S) :=
  if negb (bool_decide (status r = StatusViewChange)) || negb (durableView r =? view r) then Some r else
  let '(r, acquired) := acquire r in
  if negb acquired then Some (fail r ErrFramePoolEmpty) else
  match joinView r with
  | None => Some (fail r ErrEncoding)
  | Some (header, body) =>
      match sealed header body with
      | None => Some (fail r ErrEncoding)
      | Some (_, header) =>
          if isPrimary r then recordJoinView fuel r header body
          else Some (send r (SendReplica (primaryOf r (view r)) header body))
      end
  end.

(** The suffix a view message carries, which ends with the header of the
    checkpoint; [None]: that header does not decode. *)
Definition viewSuffix r : option (list Header) :=
  let suffix := localSuffix r in
  if existsb (fun header => prepareOp header =? checkpointOp r) suffix then Some suffix else
  last ← decoded r (CheckpointState.Header (checkpoint r));
  let count := if (length suffix =? length (canonicalHeaders r))%nat then pred (length suffix) else length suffix in
  Some (take count suffix ++ [last]).

Definition messageHeader (header : Header) : option (list byte) :=
  match EncodeHeader HeaderSize header with Ok (bytes, _) => Some bytes | Err _ => None end.

Definition buildView r (nonce : list byte) : Replica S * result replica_error (Header * list byte) :=
  let suffix := localSuffix r in
  let collected := viewSuffix r in
  let written := default suffix collected in
  let r := r {{ canonicalHeaders := written ++ drop (length written) (canonicalHeaders r) }} in
  match collected with
  | None => (r, Err InvalidCheckpoint)
  | Some headers =>
      let '(r, acquired) := acquire r in
      if negb acquired then (r, Err ErrFramePoolEmpty) else
      match CheckpointCodec.Encode (checkpoint r) CheckpointStateSize, mapM messageHeader headers with
      | Err _, _ | _, None => (r, Err ErrEncoding)
      | Ok state, Some encoded =>
          let body := state ++ concat encoded in
          let header := mkHeader (zeros 16) (zeros 16) (Config.Group (config r)) 0 0 (view r) 0 ProtocolVersion CommandView (local r)
            (write_fields (zeros CommandFieldsSize)
               [(0, nonce); (16, putUint 8 (headOp r)); (24, putUint 8 (commitMax r)); (32, putUint 8 (checkpointOp r))]) in
          match sealed header body with
          | None => (r, Err ErrEncoding)
          | Some (_, header) => (r, Ok (header, body))
          end
      end
  end.

Definition broadcastView r : Replica S :=
  match buildView r (zeros 16) with
  | (r, Err err) => fail r err
  | (r, Ok (header, body)) => send r (BroadcastReplicas header body)
  end.

Definition handleGetView r (request : Header) : Replica S :=
  if negb (isPrimary r) || negb (durableView r =? view r) || negb (bool_decide (status r = StatusNormal)) then r else
  match buildView r (slice (Fields request) 0 16) with
  | (r, Err _) => r
  | (r, Ok (header, body)) => send r (SendReplica (Author request) header body)
  end.

(** [None]: an assertion fails, or the selection runs out of [fuel]. *)
Definition handleJoinView (fuel : nat) r (header : Header) (body : list byte) : option (Replica S) :=
  if view r <? View header then Some (beginViewChange r (View header)) else
  if bool_decide (status r = StatusNormal) && (View header =? view r) && isPrimary r && (durableView r =? view r)
     && (logView r =? view r)
  then Some (broadcastView r) else
  if negb (bool_decide (status r = StatusViewChange)) || negb (View header =? view r) || negb (isPrimary r)
     || negb (durableView r =? view r) || (activeCount r <=? Author header)
  then Some r
  else recordJoinView fuel r header body.
End view_change.
