(* ===== verification/ViewSelection.v ===== *)
(** * Which operations survive a change of view

    The joins a new primary has collected, what the loops of the selection
    compute from them, and the theorems about the canonical suffix: it is a
    hash chain every element of which some replica holds, and no operation a
    replication quorum has acknowledged is cut off. *)

From S2P Require Import Prelude Records Bytes Arith Checksum Header Config Ewah Clock Random Timers RepairBudget.
From S2P Require Import Storage Checkpoint Superblock Wal WalRecovery Replica Release ViewChange.

Section selection.
Context {S : Type}.
Implicit Types r : Replica S.
Import Replica.

(** ** The joins collected *)

(** A header of a join is blank or the prepare of its place. *)
Definition placed (head : Z) (headers : list Header) (count : Z) : Prop :=
  forall index h, 0 <= index < count -> headers !! Z.to_nat index = Some h ->
    Command h <> CommandReserved -> prepareOp h = head - index.

Record wf_join r (record : joinRecord) (headers : list Header) : Prop := {
  wj_count : 1 <= joinRecord.count record <= ClusterConfig.PipelineMax (cluster r) + 1;
  wj_head : joinRecord.count record - 1 <= joinRecord.head record < MaxUint64;
  wj_commit : 0 <= joinRecord.checkpoint record <= joinRecord.commit record;
  wj_commit_head : joinRecord.commit record <= joinRecord.head record;
  wj_log : 0 <= joinRecord.logView record <= view r;
  wj_headers : placed (joinRecord.head record) headers (joinRecord.count record);
}.

(** No log reaches the last operation number, so heads are below it. *)
Record wf_joins r : Prop := {
  wr_pipeline : 1 <= ClusterConfig.PipelineMax (cluster r) <= 15;
  wr_active : 1 <= activeCount r <= ActiveMax;
  wr_joins : zlen (joins r) = activeCount r;
  wr_slices : zlen (joinHeaders r) = activeCount r;
  wr_canonical : zlen (canonicalHeaders r) = ClusterConfig.PipelineMax (cluster r) + 1;
  wr_checkpoint : 0 <= checkpointOp r < MaxUint64;
  wr_progress : 0 <= commitMin r /\ 0 <= commitMax r;
  wr_each : forall sender, 0 <= sender -> joinRecord.valid (joinOf r sender) = true ->
    sender < activeCount r /\ wf_join r (joinOf r sender) (joinHeaderSlice r sender);
}.

Lemma elem_senders r sender : wf_joins r -> sender ∈ senders r <-> 0 <= sender < activeCount r.
Proof. intros Hw. unfold senders. rewrite elem_of_seqZ, (wr_joins _ Hw). lia. Qed.

(** The place of [op] in a join, if it covers it. *)
Definition covers r (sender op : Z) : Prop :=
  joinRecord.valid (joinOf r sender) = true /\
  joinRecord.head (joinOf r sender) - joinRecord.count (joinOf r sender) < op <= joinRecord.head (joinOf r sender).

Lemma joinHeaderAt_Some r sender op h :
  wf_joins r -> 0 <= sender -> 0 <= op -> joinHeaderAt r sender op = Some h ->
  covers r sender op /\ prepareOp h = op /\ Command h <> CommandReserved.
Proof.
  intros Hw Hs Hop. unfold joinHeaderAt, covers. destruct (joinRecord.valid (joinOf r sender)) eqn:Ev; [|done]. cbn [negb orb].
  destruct (wr_each _ Hw sender Hs Ev) as [_ Hj]. pose proof (wj_head _ _ _ Hj). pose proof (wj_count _ _ _ Hj).
  destruct (Z.ltb_spec (joinRecord.head (joinOf r sender)) op); [done|].
  rewrite (uwrap_small 64) by (unfold MaxUint64 in *; width_lia).
  destruct (Z.leb_spec (joinRecord.count (joinOf r sender)) (joinRecord.head (joinOf r sender) - op)); [done|].
  set (index := joinRecord.head (joinOf r sender) - op) in *.
  destruct (joinHeaderSlice r sender !! Z.to_nat index) as [x|] eqn:Ex; [|by intros ?]. cbn [default id].
  destruct (Z.eqb_spec (Command x) CommandReserved) as [|Hc]; [done|]. intros [= <-].
  split; [split; [done|lia]|]. split; [|done]. rewrite (wj_headers _ _ _ Hj index x) by (done || lia). lia.
Qed.

(** ** The bounds the loops compute *)

Lemma fold_max_valid {A} (valid : A -> bool) (value : A -> Z) (l : list A) start :
  let out := fold_left (fun acc x => if valid x then Z.max acc (value x) else acc) l start in
  start <= out /\ (forall x, x ∈ l -> valid x = true -> value x <= out) /\
  (out = start \/ exists x, x ∈ l /\ valid x = true /\ out = value x).
Proof.
  revert start. induction l as [|x l IH]; intros start; cbn [fold_left].
  { split_and!; [lia|by intros x ?%not_elem_of_nil|by left]. }
  destruct (valid x) eqn:Ev.
  - destruct (IH (Z.max start (value x))) as (Hge & Hall & Hone). split_and!; [lia| |].
    + intros y [->|Hy]%elem_of_cons Hv; [lia|by apply Hall].
    + destruct Hone as [E|(y & Hy & Hv & E)]; [|right; exists y; split_and!; try done; by right].
      destruct (Z.le_gt_cases (value x) start); [left; lia|right]. exists x. split_and!; [by left|done|lia].
  - destruct (IH start) as (Hge & Hall & Hone). split_and!; [lia| |].
    + intros y [->|Hy]%elem_of_cons Hv; [congruence|by apply Hall].
    + destruct Hone as [E|(y & Hy & Hv & E)]; [by left|right; exists y; split_and!; try done; by right].
Qed.

Lemma joinOf_elem r sender : joinRecord.valid (joinOf r sender) = true -> joinOf r sender ∈ joins r.
Proof.
  unfold joinOf. destruct (joins r !! Z.to_nat sender) as [record|] eqn:E; cbn [default]; [|done].
  intros _. by eapply list_elem_of_lookup_2.
Qed.

Lemma elem_joinOf r record : record ∈ joins r -> exists sender, 0 <= sender < zlen (joins r) /\ joinOf r sender = record.
Proof.
  intros (i & Hi)%list_elem_of_lookup. exists (Z.of_nat i). unfold joinOf, zlen. rewrite Nat2Z.id, Hi. split; [|done].
  apply lookup_lt_Some in Hi. lia.
Qed.

Lemma latest_spec r :
  (forall sender, joinRecord.valid (joinOf r sender) = true -> joinRecord.logView (joinOf r sender) <= canonicalLogView r).
Proof.
  intros sender Hv. destruct (fold_max_valid joinRecord.valid joinRecord.logView (joins r) 0) as (_ & Hall & _).
  apply Hall; [by apply joinOf_elem|done].
Qed.

Lemma maximum_spec r :
  wf_joins r ->
  checkpointOp r <= maximumHead r < MaxUint64 /\
  (forall sender, joinRecord.valid (joinOf r sender) = true -> joinRecord.head (joinOf r sender) <= maximumHead r).
Proof.
  intros Hw. destruct (fold_max_valid joinRecord.valid joinRecord.head (joins r) (checkpointOp r)) as (Hge & Hall & Hone).
  fold (maximumHead r) in *. split; [split; [done|]|].
  - destruct Hone as [->|(record & Hin & Hv & ->)]; [apply Hw|]. apply elem_joinOf in Hin as (sender & Hs & <-).
    destruct (wr_each _ Hw sender) as [_ Hj]; [lia|done|]. apply (wj_head _ _ _ Hj).
  - intros sender Hv. apply Hall; [by apply joinOf_elem|done].
Qed.

Lemma committed_nonneg r : wf_joins r -> 0 <= committedBound r.
Proof.
  intros Hw. destruct (fold_max_valid (fun s => joinRecord.valid (joinOf r s)) (joinCommittedBound r) (senders r)
    (Z.max (Z.max (commitMin r) (commitMax r)) (checkpointOp r))) as (Hge & _).
  fold (committedBound r) in Hge. destruct (wr_progress _ Hw). lia.
Qed.

(** ** The candidate for an operation *)

Lemma candidate_loop_from r latest bound op rest selected out :
  (forall s, s ∈ rest -> 0 <= s) ->
  (forall x lv, selected = Some (x, lv) -> exists s, 0 <= s /\ joinHeaderAt r s op = Some x) ->
  candidate_loop r latest bound op rest selected = Some out ->
  forall x lv, out = Some (x, lv) -> exists s, 0 <= s /\ joinHeaderAt r s op = Some x.
Proof.
  intros Hr Hsel. revert selected Hsel. induction rest as [|s rest IH]; intros selected Hsel E; cbn [candidate_loop] in E.
  { by injection E as <-. }
  assert (forall s, s ∈ rest -> 0 <= s) as Hr' by (intros; apply Hr; by right). specialize (IH Hr').
  assert (0 <= s) as Hs by (apply Hr; by left).
  destruct (joinHeaderAt r s op) as [header|] eqn:Eh; [|by eapply IH].
  assert (forall lv', candidate_loop r latest bound op rest (Some (header, lv')) = Some out ->
    forall x lv, out = Some (x, lv) -> exists s, 0 <= s /\ joinHeaderAt r s op = Some x) as Hnew.
  { intros lv'. apply IH. intros x lv [= <- <-]. by exists s. }
  destruct (negb _ && _) in E; [by eapply IH|]. destruct (_ && existsb _ _) in E; [done|].
  destruct selected as [[chosen selectedLog]|]; [|by eapply Hnew].
  destruct (_ || _) in E; [by eapply Hnew|]. destruct (_ && _) in E; [done|]. by eapply IH.
Qed.

Lemma candidate_from r op h :
  canonicalCandidate r op = Some (Some h) -> exists s, 0 <= s /\ joinHeaderAt r s op = Some h.
Proof.
  unfold canonicalCandidate. destruct (candidate_loop _ _ _ _ _ _) as [[[x lv]|]|] eqn:E; [|done|done]. intros [= <-].
  eapply candidate_loop_from; [| |exact E|done]; [|done]. intros s Hs. unfold senders in Hs. apply elem_of_seqZ in Hs. lia.
Qed.

(** The join of [sender] is of the latest log view and has [h] for [op]. *)
Definition offers r (op sender : Z) (h : Header) : Prop :=
  0 <= sender /\ joinRecord.logView (joinOf r sender) = canonicalLogView r /\ joinHeaderAt r sender op = Some h.

(** [h] is the header of the latest log view's joins with the newest view, and
    theirs all. *)
Definition chosen r (op : Z) (h : Header) : Prop :=
  (exists sender, offers r op sender h) /\
  forall sender h', offers r op sender h' ->
    View h' <= View h /\ (View h' = View h -> HeaderChecksum h' = HeaderChecksum h).

(** The candidate above the commit point: the chosen header, if the joins of
    the latest log view have any. *)
Definition candidate_of r (op : Z) (candidate : option Header) : Prop :=
  match candidate with
  | Some h => chosen r op h
  | None => forall sender h, ~ offers r op sender h
  end.

(** [x] is at least as new as [y], and the same if as old. *)
Definition supersedes (x y : Header) : Prop :=
  View y <= View x /\ (View y = View x -> HeaderChecksum y = HeaderChecksum x).

Lemma supersedes_trans x y z : supersedes x y -> supersedes y z -> supersedes x z.
Proof. intros [H1 E1] [H2 E2]. split; [lia|]. intros E. rewrite E2 by lia. apply E1. lia. Qed.

(** What the loop makes of the joins of [rest] after it has [selected]. *)
Definition newest r (op : Z) (rest : list Z) (selected out : option (Header * Z)) : Prop :=
  match out with
  | None => selected = None /\ forall s h, s ∈ rest -> ~ offers r op s h
  | Some (x, lv) => lv = canonicalLogView r /\
      (selected = Some (x, lv) \/ exists s, s ∈ rest /\ offers r op s x) /\
      (forall y lv', selected = Some (y, lv') -> supersedes x y) /\
      forall s h, s ∈ rest -> offers r op s h -> supersedes x h
  end.

(** A join that offers nothing new changes nothing. *)
Lemma newest_skip r op s rest selected out :
  (forall h, offers r op s h -> exists y lv, selected = Some (y, lv) /\ supersedes y h) ->
  newest r op rest selected out -> newest r op (s :: rest) selected out.
Proof.
  intros Hno H. destruct out as [[x lv]|]; cbn [newest] in *.
  - destruct H as (Elv & Hfrom & Hy & Hall). split_and!; [exact Elv| |exact Hy|].
    + destruct Hfrom as [?|(s' & ? & ?)]; [by left|right]. exists s'. split; [by right|done].
    + intros s' h [->|Hs']%elem_of_cons Ho; [|by eapply Hall]. destruct (Hno h Ho) as (y & lv' & E & Hs).
      eapply supersedes_trans; [by eapply Hy|exact Hs].
  - destruct H as [-> H]. split; [done|]. intros s' h [->|Hs']%elem_of_cons; [|by apply H].
    intros Ho. by destruct (Hno h Ho) as (? & ? & ? & _).
Qed.

(** A join whose header is newer takes its place. *)
Lemma newest_take r op s header rest selected out :
  offers r op s header -> (forall y lv, selected = Some (y, lv) -> supersedes header y) ->
  newest r op rest (Some (header, canonicalLogView r)) out -> newest r op (s :: rest) selected out.
Proof.
  intros Hoff Hold H. destruct out as [[x lv]|]; cbn [newest] in *; [|by destruct H].
  destruct H as (Elv & Hfrom & Hy & Hall). split_and!; [exact Elv| | |].
  - right. destruct Hfrom as [[= <- _]|(s' & ? & ?)]; [exists s; split; [by left|done]|exists s'; split; [by right|done]].
  - intros y lv' Ey. eapply supersedes_trans; [by eapply Hy|by eapply Hold].
  - intros s' h [->|Hs']%elem_of_cons Ho; [|by eapply Hall].
    assert (h = header) as -> by (destruct Ho as (_ & _ & ?), Hoff as (_ & _ & ?); congruence). by eapply Hy.
Qed.

Lemma candidate_loop_newest r bound op rest selected out :
  bound < op -> (forall s, s ∈ rest -> 0 <= s) ->
  (forall x lv, selected = Some (x, lv) -> lv = canonicalLogView r) ->
  candidate_loop r (canonicalLogView r) bound op rest selected = Some out -> newest r op rest selected out.
Proof.
  intros Hop. revert selected. induction rest as [|s rest IH]; intros selected Hr Hsel E; cbn [candidate_loop] in E.
  { injection E as <-. destruct selected as [[x lv]|]; cbn [newest].
    - split_and!; [by eapply Hsel|by left|by intros y lv' [= <- <-]|by intros ? ? ?%not_elem_of_nil].
    - split; [done|]. by intros ? ? ?%not_elem_of_nil. }
  assert (forall s, s ∈ rest -> 0 <= s) as Hr' by (intros; apply Hr; by right).
  assert (0 <= s) as Hs by (apply Hr; by left).
  destruct (joinHeaderAt r s op) as [header|] eqn:Eh.
  2:{ apply newest_skip; [intros h (_ & _ & E'); congruence|by apply IH]. }
  rewrite (proj2 (Z.ltb_lt _ _) Hop), andb_true_r in E.
  destruct (Z.eqb_spec (joinRecord.logView (joinOf r s)) (canonicalLogView r)) as [El|El]; cbn [negb andb] in E.
  2:{ apply newest_skip; [by intros h (_ & E' & _)|by apply IH]. }
  destruct (existsb _ _) in E; [done|]. rewrite El in E.
  assert (offers r op s header) as Hoff by done.
  destruct selected as [[old selectedLog]|].
  2:{ apply (newest_take _ _ _ header); [done|done|]. apply IH; [done|by intros x lv [= <- <-]|done]. }
  rewrite (Hsel _ _ eq_refl), Z.ltb_irrefl, Z.eqb_refl in E. cbn [orb andb] in E.
  destruct (Z.ltb_spec (View old) (View header)).
  { apply (newest_take _ _ _ header); [done|intros y lv' [= <- <-]; split; lia|].
    apply IH; [done|by intros x lv [= <- <-]|done]. }
  destruct ((View header =? View old) && _) eqn:Ec in E; [done|].
  apply newest_skip; [|rewrite (Hsel _ _ eq_refl); apply IH; [done|by intros x lv [= <- <-]|done]].
  intros h (_ & _ & E'). rewrite Eh in E'. injection E' as <-. eexists _, _. split; [reflexivity|].
  split; [done|]. intros Ev. rewrite Ev, Z.eqb_refl in Ec. cbn [andb] in Ec.
  by apply negb_false_iff, bool_decide_eq_true in Ec.
Qed.

Lemma candidate_newest r op candidate :
  wf_joins r -> committedBound r < op -> canonicalCandidate r op = Some candidate -> candidate_of r op candidate.
Proof.
  intros Hw Hop. unfold canonicalCandidate. destruct (candidate_loop _ _ _ _ _ _) as [out|] eqn:E; [|done].
  pose proof (committed_nonneg r Hw) as Hb. intros [= <-].
  assert (forall s h, offers r op s h -> s ∈ senders r) as Hin.
  { intros s h (Hs & _ & Hh). apply (elem_senders r s Hw). split; [done|].
    destruct (joinHeaderAt_Some r s op h Hw Hs ltac:(lia) Hh) as [[Hv _] _]. by apply (wr_each _ Hw). }
  apply candidate_loop_newest in E; [|done| |done].
  2:{ intros s Hs. apply (elem_senders r s Hw) in Hs. lia. }
  destruct out as [[x lv]|]; cbn [option_map fst candidate_of newest] in *.
  - destruct E as (_ & [?|(s & _ & Ho)] & _ & Hall); [done|]. split; [by exists s|]. intros s' h' Ho'.
    apply (Hall s' h'); [by eapply Hin|done].
  - destruct E as [_ E]. intros s h Ho. by eapply E; [eapply Hin|].
Qed.

(** ** The headers stored *)

(** A join holds a copy of [h] for [op]. *)
Definition copied r (op : Z) (h : Header) : Prop :=
  exists sender h', 0 <= sender /\ joinHeaderAt r sender op = Some h' /\ HeaderChecksum h' = HeaderChecksum h /\
    Z.land (joinRecord.present (joinOf r sender)) (u16 (Z.shiftl 1 (joinRecord.head (joinOf r sender) - op))) <> 0.

(** [canonical] starts with the chosen headers of [count] operations from
    [committed] on. *)
Definition stored r (committed count : Z) (canonical : list Header) : Prop :=
  forall i, 0 <= i < count -> exists h, canonical !! Z.to_nat i = Some h /\
    canonicalCandidate r (committed + i) = Some (Some h) /\ copied r (committed + i) h /\
    (0 < i -> exists previous, canonical !! Z.to_nat (i - 1) = Some previous /\ prepareParent h = HeaderChecksum previous).

(** The join of [sender] is evidence against [op]: it ends before the operation
    or starts after it, denies it, or is of an older log view and has a header
    that is not the candidate's (or, without a candidate, is of an older view). *)
Definition against r (op : Z) (candidate : option Header) (sender : Z) : Prop :=
  let record := joinOf r sender in
  joinRecord.valid record = true /\
  (joinRecord.head record < op \/ op <= joinRecord.head record - joinRecord.count record \/
   Z.land (joinRecord.nack record) (u16 (Z.shiftl 1 (joinRecord.head record - op))) <> 0 \/
   exists header, joinHeaderAt r sender op = Some header /\ joinRecord.logView record < canonicalLogView r /\
     match candidate with
     | Some h => HeaderChecksum header <> HeaderChecksum h
     | None => View header < canonicalLogView r
     end).

(** A negative quorum of the joins denies [op]. *)
Definition denied r (op : Z) : Prop :=
  exists candidate quorum, candidate_of r op candidate /\ NoDup quorum /\
    Quorums.Negative (quorums r) <= zlen quorum /\
    forall sender, sender ∈ quorum -> 0 <= sender < activeCount r /\ against r op candidate sender.

Lemma evidence_against r op candidate s :
  wf_joins r -> 0 <= s -> 0 <= op ->
  (joinEvidence r (canonicalLogView r) op candidate s).1 = true -> against r op candidate s.
Proof.
  intros Hw Hs Hop. unfold joinEvidence, against. destruct (joinRecord.valid (joinOf r s)) eqn:Ev; [|done]. cbn [negb].
  destruct (wr_each _ Hw s Hs Ev) as [_ Hj]. pose proof (wj_head _ _ _ Hj).
  destruct (Z.ltb_spec (joinRecord.head (joinOf r s)) op); [by auto|].
  rewrite (uwrap_small 64) by (unfold MaxUint64 in *; width_lia).
  destruct (Z.leb_spec (joinRecord.count (joinOf r s)) (joinRecord.head (joinOf r s) - op)); [intros; split; [done|right; left; lia]|].
  destruct (Z.eqb_spec (Z.land (joinRecord.nack (joinOf r s)) (u16 (Z.shiftl 1 (joinRecord.head (joinOf r s) - op)))) 0);
    cbn [negb]; [|by auto].
  destruct (joinHeaderAt r s op) as [header|]; [|done].
  destruct (Z.leb_spec (canonicalLogView r) (joinRecord.logView (joinOf r s))); [done|]. cbn [fst].
  intros E. split; [done|]. right; right; right. exists header. split_and!; [done|done|].
  destruct candidate as [h|]; rewrite ?orb_false_r in E; cbn [orb sameHeader] in E.
  - by apply negb_true_iff, bool_decide_eq_false in E.
  - by apply Z.ltb_lt in E.
Qed.

Lemma negatives_count r op candidate :
  wf_joins r -> (canonicalEvidence r op candidate).1
    = zlen (filter (fun s => (joinEvidence r (canonicalLogView r) op candidate s).1 = true) (senders r)).
Proof.
  intros Hw. unfold canonicalEvidence. cbn [fst].
  set (against := filter (fun s => (joinEvidence _ _ _ _ s).1 = true) (senders r)).
  assert (zlen (filter (fun e : bool * bool => e.1 = true) (joinEvidence r (canonicalLogView r) op candidate <$> senders r))
    = zlen against) as ->.
  { unfold against, zlen. clear. induction (senders r) as [|s l IH]; [done|]. rewrite fmap_cons, !filter_cons.
    case_decide; cbn [length]; lia. }
  apply uwrap_small. assert (zlen against <= zlen (senders r)) as Hle
    by (unfold against, zlen; apply inj_le, length_filter).
  unfold senders in Hle. unfold zlen at 2 in Hle. rewrite length_seqZ in Hle.
  pose proof (wr_joins _ Hw). pose proof (wr_active _ Hw). change ActiveMax with 6 in *. pose proof (zlen_nonneg against). width_lia.
Qed.

Lemma evidence_denied r op candidate :
  wf_joins r -> committedBound r < op -> canonicalCandidate r op = Some candidate ->
  Quorums.Negative (quorums r) <= (canonicalEvidence r op candidate).1 -> denied r op.
Proof.
  intros Hw Hop Hc Hn. pose proof (committed_nonneg r Hw). rewrite negatives_count in Hn by done.
  exists candidate, (filter (fun s => (joinEvidence r (canonicalLogView r) op candidate s).1 = true) (senders r)).
  split; [by apply candidate_newest|]. split; [apply NoDup_filter, NoDup_seqZ|]. split; [exact Hn|].
  intros s [He Hs%(elem_senders r s Hw)]%list_elem_of_filter. split; [done|]. apply evidence_against; (done || lia).
Qed.

Lemma candidate_copied r op h :
  wf_joins r -> 0 <= op -> (canonicalEvidence r op (Some h)).2 <> 0 -> copied r op h.
Proof.
  intros Hw Hop. unfold canonicalEvidence. cbn [snd]. intros Hc.
  assert (exists e, e ∈ filter (fun e : bool * bool => e.2 = true) (joinEvidence r (canonicalLogView r) op (Some h) <$> senders r)) as (e & He).
  { destruct (filter _ _) as [|e l]; [done|]. exists e. by left. }
  apply list_elem_of_filter in He as [E2 (s & -> & Hs)%list_elem_of_fmap]. apply (elem_senders r s Hw) in Hs as Hs'.
  unfold joinEvidence in E2. destruct (joinRecord.valid (joinOf r s)) eqn:Ev; [|done]. cbn [negb] in E2.
  destruct (Z.ltb_spec (joinRecord.head (joinOf r s)) op); [done|].
  destruct (wr_each _ Hw s) as [_ Hj]; [lia|done|]. pose proof (wj_head _ _ _ Hj).
  rewrite (uwrap_small 64) in E2 by (unfold MaxUint64 in *; width_lia).
  destruct (_ <=? _) in E2; [done|]. set (bit := u16 _) in E2.
  assert (exists h', joinHeaderAt r s op = Some h' /\ sameHeader (Some h) h' && negb (Z.land (joinRecord.present (joinOf r s)) bit =? 0) = true) as (h' & Eh & E).
  { destruct (joinHeaderAt r s op) as [h'|]; [|by destruct (negb _) in E2]. exists h'. split; [done|].
    destruct (negb (Z.land (joinRecord.nack _) bit =? 0)) in E2; [done|]. by destruct (_ <=? _) in E2. }
  apply andb_prop in E as [Es%bool_decide_eq_true Ep%negb_true_iff%Z.eqb_neq]. exists s, h'. split_and!; [lia|done..].
Qed.

Section loop.
Variable r : Replica S.
Hypothesis Hw : wf_joins r.
Variables committed maximum : Z.
Hypothesis Hcommitted : 0 <= committed.
Hypothesis Hbound : committed = committedBound r.
Hypothesis Hmaximum : maximum < MaxUint64.
Hypothesis Hfits : maximum - committed < ClusterConfig.PipelineMax (cluster r) + 1.

Lemma stored_snoc count canonical h previous :
  0 <= count < zlen canonical -> stored r committed count canonical ->
  canonicalCandidate r (committed + count) = Some (Some h) -> copied r (committed + count) h ->
  (0 < count -> canonical !! Z.to_nat (count - 1) = Some previous /\ prepareParent h = HeaderChecksum previous) ->
  stored r committed (count + 1) (<[Z.to_nat count := h]> canonical).
Proof.
  intros Hc Hst Hcand Hcopy Hp i Hi. unfold zlen in Hc. destruct (decide (i = count)) as [->|].
  - exists h. rewrite list_lookup_insert_eq by lia. split_and!; try done. intros Hpos. destruct (Hp Hpos) as [Hl Hpar].
    exists previous. rewrite list_lookup_insert_ne by lia. done.
  - destruct (Hst i) as (h' & Hl & Hc' & Hcp & Hpar); [lia|]. exists h'. rewrite list_lookup_insert_ne by lia. split_and!; try done.
    intros Hpos. destruct (Hpar Hpos) as (p & Hp' & Hparent). exists p. by rewrite list_lookup_insert_ne by lia.
Qed.

Lemma select_loop_spec fuel count canonical previous canonical' outcome :
  0 <= count -> committed + count <= maximum + 1 -> zlen canonical = ClusterConfig.PipelineMax (cluster r) + 1 ->
  stored r committed count canonical -> (0 < count -> canonical !! Z.to_nat (count - 1) = Some previous) ->
  select_loop fuel r committed maximum (committed + count) count canonical previous = Some (canonical', outcome) ->
  zlen canonical' = zlen canonical /\
  match outcome with
  | Selected head count' => head = committed + count' - 1 /\ count <= count' /\ (committed <= maximum -> 1 <= count') /\
      head <= maximum /\ stored r committed count' canonical' /\ (head = maximum \/ denied r (head + 1))
  | _ => True
  end.
Proof.
  revert count canonical previous. induction fuel as [|fuel IH]; intros count canonical previous Hc Hop Hlen Hst Hprev E; [done|].
  cbn [select_loop] in E. destruct (Z.ltb_spec maximum (committed + count)).
  { injection E as <- <-. split; [done|]. split_and!; lia || done. }
  destruct (canonicalCandidate r (committed + count)) as [candidate|] eqn:Ec; [|by injection E as <- <-].
  destruct (canonicalEvidence r (committed + count) candidate) as [negatives copies] eqn:Ee.
  destruct ((Quorums.Negative (quorums r) <=? negatives) && (committed <? committed + count)) eqn:En.
  { injection E as <- <-. apply andb_prop in En as [Hn%Z.leb_le Hpos%Z.ltb_lt].
    rewrite (uwrap_small 64) by (unfold MaxUint64 in *; width_lia). split; [done|]. split_and!; try lia; [done|right].
    replace (committed + count - 1 + 1) with (committed + count) by lia.
    apply (evidence_denied r _ candidate); [done|lia|done|by rewrite Ee]. }
  destruct candidate as [header|]; [|by injection E as <- <-].
  destruct (Z.eqb_spec copies 0); [by injection E as <- <-|].
  destruct (negb (count =? 0) && _) eqn:Ep in E; [by injection E as <- <-|].
  rewrite (uwrap_small 64) in E by (unfold MaxUint64 in *; width_lia).
  replace (committed + count + 1) with (committed + (count + 1)) in E by lia.
  assert (zlen (<[Z.to_nat count:=header]> canonical) = zlen canonical) as Hl by (unfold zlen; by rewrite length_insert).
  apply IH in E; [|lia|lia|by rewrite Hl| |].
  - destruct E as [E1 E2]. split; [congruence|]. destruct outcome; [done|done|]. destruct_and! E2. split_and!; try done; lia.
  - eapply stored_snoc; [lia|done|done| |].
    + apply candidate_copied; [done|lia|]. by rewrite Ee.
    + intros Hpos. split; [by apply Hprev|]. rewrite (proj2 (Z.eqb_neq count 0)) in Ep by lia. cbn [negb andb] in Ep.
      by apply negb_false_iff, bool_decide_eq_true in Ep.
  - intros _. replace (count + 1 - 1) with count by lia. unfold zlen in Hlen. by rewrite list_lookup_insert_eq by lia.
Qed.

Lemma select_loop_ends fuel count canonical previous :
  0 <= count -> committed + count <= maximum + 1 -> maximum - committed - count + 1 < Z.of_nat fuel ->
  exists out, select_loop fuel r committed maximum (committed + count) count canonical previous = Some out.
Proof.
  revert count canonical previous. induction fuel as [|fuel IH]; intros count canonical previous Hc Hop Hf; [lia|].
  cbn [select_loop]. destruct (Z.ltb_spec maximum (committed + count)); [by eexists|].
  destruct (canonicalCandidate r (committed + count)) as [candidate|]; [|by eexists].
  destruct (canonicalEvidence r (committed + count) candidate) as [negatives copies].
  destruct (_ && _); [by eexists|]. destruct candidate as [header|]; [|by eexists].
  destruct (copies =? 0); [by eexists|]. destruct (_ && _); [by eexists|].
  rewrite (uwrap_small 64) by (unfold MaxUint64 in *; width_lia).
  replace (committed + count + 1) with (committed + (count + 1)) by lia. apply IH; lia.
Qed.
End loop.

(** The outcome of the selection, with enough fuel. *)
Lemma select_spec r fuel :
  wf_joins r -> (length (canonicalHeaders r) + 1 < fuel)%nat ->
  exists r' selected, selectCanonicalSuffix fuel r = Some (r', selected) /\
  match selected with
  | None => True
  | Some (commit, head, count) => commit = committedBound r /\ commit <= head <= maximumHead r /\ count = head - commit + 1 /\
      (head = maximumHead r \/ denied r (head + 1)) /\
      forall op, commit <= op <= head -> exists h, canonicalHeaders r' !! Z.to_nat (head - op) = Some h /\
        canonicalCandidate r op = Some (Some h) /\ copied r op h /\
        (commit < op -> exists previous, canonicalHeaders r' !! Z.to_nat (head - op + 1) = Some previous /\
           prepareParent h = HeaderChecksum previous)
  end.
Proof.
  intros Hw Hf. unfold selectCanonicalSuffix. destruct (existsb malformedJoin (joins r)); [by eexists _, None|].
  pose proof (committed_nonneg r Hw) as Hc. destruct (maximum_spec r Hw) as [[_ Hm] _].
  destruct (Z.ltb_spec (maximumHead r) (committedBound r)); [by eexists _, None|]. cbn [orb].
  rewrite (uwrap_small 64) by (unfold MaxUint64 in *; width_lia). pose proof (wr_canonical _ Hw) as Hlen.
  destruct (Z.leb_spec (zlen (canonicalHeaders r)) (maximumHead r - committedBound r)); [by eexists _, None|].
  destruct (select_loop_ends r (committedBound r) (maximumHead r) Hc Hm fuel 0 (canonicalHeaders r) zeroHeader)
    as [[canonical outcome] E]; [lia|lia|unfold zlen in *; lia|]. rewrite Z.add_0_r in E. rewrite E. cbn [mbind option_bind].
  rewrite <- (Z.add_0_r (committedBound r)) in E at 2.
  apply (select_loop_spec r Hw (committedBound r) (maximumHead r) Hc eq_refl Hm) in E as [El Ho]; [|lia..|done| |];
    [|by intros i Hi; lia|lia].
  destruct outcome as [| |head count]; [by eexists _, None..|]. destruct Ho as (-> & _ & Hpos & Hle & Hst & Hd).
  specialize (Hpos ltac:(lia)). eexists _, (Some (committedBound r, committedBound r + count - 1, count)).
  split; [reflexivity|]. split; [done|]. split; [lia|]. split; [lia|]. split; [done|].
  assert (zlen (take (Z.to_nat count) canonical) = count) as Ht by (unfold zlen in *; rewrite length_take; lia).
  assert (forall j, 0 <= j < count -> (reverse (take (Z.to_nat count) canonical) ++ drop (Z.to_nat count) canonical) !! Z.to_nat j =
    canonical !! Z.to_nat (count - 1 - j)) as Hlook.
  { intros j Hj. unfold zlen in Ht. rewrite lookup_app_l by (rewrite length_reverse; lia). rewrite reverse_lookup by lia.
    rewrite lookup_take_lt by lia. f_equal. lia. }
  intros op Hop. destruct (Hst (op - committedBound r)) as (h & Hl & Hcand & Hcopy & Hpar); [lia|].
  replace (committedBound r + (op - committedBound r)) with op in Hcand, Hcopy by lia. exists h. cbn [canonicalHeaders updated].
  rewrite Hlook by lia. split_and!; [rewrite <- Hl; f_equal; lia|done|done|]. intros Hlt. destruct Hpar as (p & Hp & Hpp); [lia|].
  exists p. rewrite Hlook by lia. split; [rewrite <- Hp; f_equal; lia|done].
Qed.

(** ** Operations a quorum has acknowledged *)

(** The join recorded from [sender] is what a replica in the state [from] knows:
    its progress, and for each operation it covers the header and whether it
    denies it. *)
Record says r (sender : Z) (from : Replica S) : Prop := {
  sy_valid : joinRecord.valid (joinOf r sender) = true;
  sy_head : joinRecord.head (joinOf r sender) = headOp from;
  sy_progress : joinRecord.commit (joinOf r sender) = commitMin from /\ joinRecord.checkpoint (joinOf r sender) = checkpointOp from;
  sy_log : joinRecord.logView (joinOf r sender) = logView from;
  sy_evidence : forall op, covers r sender op ->
    joinHeaderAt r sender op = (localHeaderEvidence from op).1 /\
    (Z.land (joinRecord.nack (joinOf r sender)) (u16 (Z.shiftl 1 (joinRecord.head (joinOf r sender) - op))) = 0 <->
     (localHeaderEvidence from op).2 = false);
}.

(** A replication quorum has the prepare [h] of [op]: each of its members whose
    join has been recorded had reached [op] and either had [h], or did not know
    what it had, its log being damaged. *)
Definition quorum_holds r (op : Z) (h : Header) : Prop :=
  exists quorum, NoDup quorum /\ (forall s, s ∈ quorum -> 0 <= s < activeCount r) /\
    Quorums.Replication (quorums r) <= zlen quorum /\
    forall s, s ∈ quorum -> joinRecord.valid (joinOf r s) = true ->
      exists from, says r s from /\ op <= headOp from /\
        (localHeaderEvidence from op = (Some h, false) \/ localHeaderEvidence from op = (None, false)).

(** What the protocol keeps true of the logs of the latest log view: one of the
    joins has [h], and what any other has instead is of an older view. *)
Definition latest_log_has r (op : Z) (h : Header) : Prop :=
  (exists s, offers r op s h) /\ forall s h', offers r op s h' -> h' = h \/ View h' < View h.

(** Operations above the commit point are within the joins. *)
Lemma above_covered r s op :
  wf_joins r -> 0 <= s -> joinRecord.valid (joinOf r s) = true -> committedBound r < op <= joinRecord.head (joinOf r s) -> covers r s op.
Proof.
  intros Hw Hs Hv Hop. destruct (wr_each _ Hw s Hs Hv) as [Ha Hj]. pose proof (wj_count _ _ _ Hj). pose proof (wj_head _ _ _ Hj).
  pose proof (wr_pipeline _ Hw). split; [done|]. split; [|lia].
  destruct (fold_max_valid (fun s => joinRecord.valid (joinOf r s)) (joinCommittedBound r) (senders r)
    (Z.max (Z.max (commitMin r) (commitMax r)) (checkpointOp r))) as (_ & Hall & _). fold (committedBound r) in Hall.
  specialize (Hall s (proj2 (elem_senders r s Hw) ltac:(lia)) Hv). unfold joinCommittedBound in Hall.
  rewrite (uwrap_small 8), (uwrap_small 64 (joinRecord.head (joinOf r s) - _)) in Hall by (unfold MaxUint64 in *; width_lia).
  destruct (ClusterConfig.PipelineMax (cluster r) <? joinRecord.head (joinOf r s)), (joinHeaderAt r s _); lia.
Qed.

Lemma held_undenied r op h s from :
  wf_joins r -> 0 <= s -> committedBound r < op -> says r s from -> op <= headOp from ->
  (localHeaderEvidence from op = (Some h, false) \/ localHeaderEvidence from op = (None, false)) ->
  ~ against r op (Some h) s.
Proof.
  intros Hw Hs Hb [Hv Eh _ _ He] Hop Hev [_ Hag]. assert (covers r s op) as Hc by (apply above_covered; (done || lia)).
  destruct (He op Hc) as [E1 E2]. pose proof (proj2 Hc). destruct Hag as [?|[?|[Hn|(x & Hx & _ & Hd)]]]; [lia|lia| |].
  - apply Hn, E2. by destruct Hev as [->| ->].
  - rewrite Hx in E1. destruct Hev as [E|E]; rewrite E in E1; cbn [fst] in E1; [|done]. by injection E1 as ->.
Qed.

(** The newest view decides. *)
Lemma latest_candidate r op h candidate :
  latest_log_has r op h -> candidate_of r op candidate -> candidate = Some h.
Proof.
  intros [(s & Hs) Hother] Hc. destruct candidate as [x|]; cbn [candidate_of] in Hc; [|by destruct (Hc s h)].
  destruct Hc as [(s' & Hx) Hnew]. destruct (Hother s' x Hx) as [->|Hlt]; [done|].
  destruct (Hnew s h Hs). lia.
Qed.

(** A replication and a negative quorum have a member in common. *)
Lemma quorums_meet (n replication negative : Z) (p q : list Z) :
  0 <= n -> replication + negative = n + 1 -> NoDup p -> NoDup q -> replication <= zlen p -> negative <= zlen q ->
  (forall s, s ∈ p -> 0 <= s < n) -> (forall s, s ∈ q -> 0 <= s < n) -> exists s, s ∈ p /\ s ∈ q.
Proof.
  intros Hn Hsum Hp Hq Hlp Hlq Hinp Hinq.
  destruct (decide (Exists (fun s => s ∈ q) p)) as [(s & ? & ?)%Exists_exists|Hno]; [by exists s|]. exfalso.
  rewrite Exists_exists in Hno.
  assert (zlen p + zlen q <= zlen (seqZ 0 n)) as Hle.
  { unfold zlen. rewrite <- Nat2Z.inj_add, <- length_app. apply inj_le, submseteq_length, NoDup_submseteq.
    - apply NoDup_app. split; [done|]. split; [|done]. intros s Hs Hs'. apply Hno. by exists s.
    - intros s [Hs|Hs]%elem_of_app; apply elem_of_seqZ; [apply Hinp in Hs|apply Hinq in Hs]; lia. }
  unfold zlen at 3 in Hle. rewrite length_seqZ in Hle. lia.
Qed.

Lemma held_not_denied r op h :
  wf_joins r -> committedBound r < op -> quorum_holds r op h -> latest_log_has r op h ->
  Quorums.Negative (quorums r) = activeCount r - Quorums.Replication (quorums r) + 1 -> ~ denied r op.
Proof.
  intros Hw Hop (p & Hp & Hinp & Hsize & Hall) Hlatest Hq (candidate & q & Hc & Hnd & Hlen & Hinq).
  apply (latest_candidate r op h) in Hc as ->; [|done]. pose proof (wr_active _ Hw).
  destruct (quorums_meet (activeCount r) (Quorums.Replication (quorums r)) (Quorums.Negative (quorums r)) p q)
    as (s & Hs & Hs'); try done; try lia; [by intros s Hs; apply Hinq|].
  destruct (Hinq s Hs') as [Hr Hag]. destruct (Hall s Hs (proj1 Hag)) as (from & Hsay & Hle & Hev).
  by apply (held_undenied r op h s from Hw (proj1 Hr) Hop Hsay Hle Hev).
Qed.
End selection.
