(* ===== verification/ViewReports.v ===== *)
(** * What a join-view message says

    The body of the message [sendJoinView] builds, entry by entry: the encoded
    headers the replica has, blanks for the others, and the bits of its fields
    that say which headers are present and which the replica denies. *)

From S2P Require Import Prelude Records Bytes Arith Checksum Header Config Ewah Clock Random Timers RepairBudget.
From S2P Require Import Storage Checkpoint Superblock Wal WalRecovery Replica Release ViewChange.

(** ** Bits *)

Lemma join_bit index : 0 <= index <= 15 -> u16 (Z.shiftl 1 index) = 2 ^ index.
Proof. intros Hi. rewrite Z.shiftl_1_l. apply uwrap_small. split; [lia|]. apply Z.pow_lt_mono_r; lia. Qed.

Lemma land_join_bit w index : 0 <= index <= 15 -> Z.land w (u16 (Z.shiftl 1 index)) = 0 <-> Z.testbit w index = false.
Proof.
  intros Hi. rewrite join_bit by done. pose proof (land_pow2_testbit w index ltac:(lia)) as E.
  destruct (Z.testbit w index), (Z.eqb_spec (Z.land w (2 ^ index)) 0); naive_solver.
Qed.

Lemma lor_u16 a b : is_u16 a -> is_u16 b -> is_u16 (Z.lor a b).
Proof.
  intros [Ha La] [Hb Lb]. split; [by apply Z.lor_nonneg|].
  destruct (Z.eq_dec a 0) as [->|]; [by rewrite Z.lor_0_l|]. destruct (Z.eq_dec b 0) as [->|]; [by rewrite Z.lor_0_r|].
  assert (0 < Z.lor a b) by (assert (0 <= Z.lor a b) by (by apply Z.lor_nonneg); assert (Z.lor a b <> 0) by (rewrite Z.lor_eq_0_iff; lia); lia).
  apply Z.log2_lt_pow2; [done|]. rewrite Z.log2_lor by done. apply Z.max_lub_lt; apply Z.log2_lt_pow2; lia.
Qed.

Section reports.
Context {S : Type}.
Implicit Types r : Replica S.
Import Replica.

(** ** Sealing *)

Lemma sealed_same header body frame header' :
  sealed header body = Some (frame, header') ->
  Author header' = Author header /\ View header' = View header /\ Fields header' = Fields header.
Proof.
  unfold sealed, SealFrame. destruct (_ || _); [done|]. set (h := with_body _ _ _).
  destruct (EncodeHeader HeaderSize h) as [[encoded h']|] eqn:E; [|done]. cbn. intros [= <- <-].
  apply EncodeHeader_inv in E as (_ & _ & _ & _ & _ & _ & ->). done.
Qed.

Lemma sealed_some header body :
  zlen body <= MaxUint32 - HeaderSize -> Protocol header = ProtocolVersion -> Epoch header = 0 -> IsDefined (Command header) = true ->
  exists frame header', sealed header body = Some (frame, header').
Proof.
  intros Hl Hp He Hc. unfold sealed, SealFrame. pose proof (zlen_nonneg body).
  assert (zlen (zeros HeaderSize ++ body) = HeaderSize + zlen body) as Ez by (rewrite zlen_app, zlen_zeros; done).
  assert (HeaderSize = 256) as E256 by done. rewrite Ez. unfold MaxUint32 in *.
  rewrite (proj2 (Z.ltb_ge _ _)), (proj2 (Z.ltb_ge _ _)) by lia. cbn [orb].
  rewrite (uwrap_small 32) by width_lia. set (h := with_body _ _ _).
  rewrite (EncodeHeader_Ok h) by (done || (unfold h; cbn [Size with_body]; lia)). cbn. by eexists _, _.
Qed.

(** ** A replica that can report *)

(** The prepares of the pipeline have been decoded from messages, the log has
    the replica's configuration and its slots describe their operations. *)
Record reporting r : Prop := {
  rp_pipeline : 1 <= ClusterConfig.PipelineMax (cluster r) <= 15;
  rp_log : is_u32 (logView r) /\ logView r <= view r;
  rp_ops : 0 <= checkpointOp r <= commitMin r /\ commitMin r <= headOp r < MaxUint64;
  rp_entries : Forall (fun entry => exists source, decoded r source = Some (pipelineEntry.header entry)) (pipeline r);
  rp_wal : WAL.group (wal r) = Config.Group (config r) /\ WAL.config (wal r) = cluster r /\ WAL.memberCount (wal r) = memberCount r;
  rp_slots : forall op h negative, JoinEvidence (wal r) op = (Some h, negative) -> prepareOp h = op;
}.

Lemma decoded_op r source h : decoded r source = Some h -> prepareOp h = uint64At source 224.
Proof.
  unfold decoded. destruct (DecodeHeader _ _ _ _) as [x []] eqn:E; try done. intros [= <-].
  apply DecodeHeader_accepts in E as [Hacc ->]. unfold prepareOp, parse_header. cbn [Fields].
  rewrite slice_slice by lia. done.
Qed.

Lemma decoded_encoded r source h :
  decoded r source = Some h ->
  EncodeHeader HeaderSize h = Ok (source, h) /\ zlen source = HeaderSize /\ allZero source = false /\ Command h <> CommandReserved.
Proof.
  unfold decoded. destruct (DecodeHeader _ _ _ _) as [x []] eqn:E; try done. intros [= <-].
  pose proof (encode_decode_header _ _ _ _ _ E) as [_ Henc]. apply DecodeHeader_accepts in E as [Hacc ->].
  assert (byteAt source 114 <> 0) as Hne by (intros E0; pose proof (acc_command _ _ _ _ Hacc) as Hc; unfold parse_header in Hc; cbn in Hc; by rewrite E0 in Hc).
  pose proof (acc_length _ _ _ _ Hacc) as Hl. split_and!; [done|done| |done].
  destruct (allZero source) eqn:Ez; [|done]. exfalso. apply Hne. apply allZero_true in Ez. rewrite Ez, Hl, byteAt_slice by lia.
  rewrite slice_zeros by lia. apply getUint_zeros.
Qed.

Lemma evidence_decoded r op h negative :
  reporting r -> localHeaderEvidence r op = (Some h, negative) ->
  (exists source, decoded r source = Some h) /\ prepareOp h = op.
Proof.
  intros Hr. unfold localHeaderEvidence. destruct (list_find _ _) as [[i entry]|] eqn:Ef.
  { apply list_find_Some in Ef as (Hi & Ho & _). intros [= <- _]. split; [|done].
    pose proof (rp_entries _ Hr) as Hf. rewrite Forall_forall in Hf. apply Hf. by eapply list_elem_of_lookup_2. }
  destruct (Z.eqb_spec op (checkpointOp r)) as [->|]; intros E.
  { injection E as E <-. split; [by eexists|]. by apply decoded_op in E. }
  split; [|by eapply rp_slots]. destruct (rp_wal _ Hr) as (Eg & Ec & Em). unfold JoinEvidence, sizeMax in E. rewrite Eg, Ec, Em in E.
  destruct (WALSlot.Faulty _); [done|]. destruct (_ || _); [done|].
  destruct (DecodeHeader _ _ _ _) as [x reason] eqn:Ed. destruct reason; try done. injection E as <- _.
  eexists. unfold decoded. by rewrite Ed.
Qed.

Lemma swrap_le z : 0 <= z -> i64 z <= z.
Proof. intros Hz. unfold swrap. pose proof (Z.mod_le (z + 2 ^ (64 - 1)) (2 ^ 64)). lia. Qed.

Lemma joinCount_bounds r :
  reporting r -> 1 <= joinCount r <= ClusterConfig.PipelineMax (cluster r) + 1 /\ joinCount r - 1 <= headOp r - checkpointOp r.
Proof.
  intros Hr. destruct (rp_ops _ Hr). pose proof (rp_pipeline _ Hr). unfold joinCount, MaxUint64 in *.
  rewrite (uwrap_small 64 (ClusterConfig.PipelineMax (cluster r) + 1)), (uwrap_small 64 (headOp r - checkpointOp r + 1)) by width_lia.
  rewrite (swrap_small 64 (ClusterConfig.PipelineMax (cluster r) + 1)) by width_lia.
  pose proof (swrap_le (headOp r - checkpointOp r + 1)). destruct (Z.leb_spec (Z.min (i64 (headOp r - checkpointOp r + 1)) (ClusterConfig.PipelineMax (cluster r) + 1)) 0); lia.
Qed.

(** ** The entries of the body *)

(** What the replica knows of the operation [index] places below its head. *)
Definition evidenceAt r (index : Z) : option Header * bool := localHeaderEvidence r (headOp r - index).

(** [encoded] is the entry for what [evidence] says. *)
Definition entry_bytes r (index : Z) (encoded : list byte) : Prop :=
  zlen encoded = HeaderSize /\
  match (evidenceAt r index).1 with
  | Some h => decoded r encoded = Some h /\ allZero encoded = false /\ Command h <> CommandReserved /\ prepareOp h = headOp r - index
  | None => encoded = zeros HeaderSize
  end.

Definition present_bit r (index : Z) : bool := bool_decide (is_Some (evidenceAt r index).1).

Lemma joinEntry_spec r index :
  reporting r -> 0 <= index < joinCount r ->
  exists encoded, entry_bytes r index encoded /\
    joinEntry r index = Some (encoded, if present_bit r index then 2 ^ index else 0, if (evidenceAt r index).2 then 2 ^ index else 0).
Proof.
  intros Hr Hi. destruct (joinCount_bounds r Hr) as [Hc Hh]. pose proof (rp_pipeline _ Hr). destruct (rp_ops _ Hr).
  unfold joinEntry, entry_bytes, present_bit, evidenceAt. rewrite (uwrap_small 64) by (unfold MaxUint64 in *; width_lia).
  rewrite join_bit by lia. destruct (localHeaderEvidence r (headOp r - index)) as [[h|] negative] eqn:Ee; cbn [fst snd].
  - destruct (evidence_decoded r _ h negative Hr Ee) as [[source Hd] Ho].
    destruct (decoded_encoded r source h Hd) as (Henc & Hl & Hz & Hne). exists source.
    rewrite Henc. cbn [mbind option_bind]. rewrite bool_decide_true by done. done.
  - eexists. split; [split; [|reflexivity]|]; [by rewrite zlen_zeros|]. cbn [mbind option_bind]. by rewrite bool_decide_false by (by intros []).
Qed.

Lemma testbit_choice (b : bool) i j : 0 <= i -> 0 <= j -> Z.testbit (if b then 2 ^ i else 0) j = b && (i =? j).
Proof. intros Hi Hj. destruct b; [by rewrite testbit_pow2|]. by rewrite Z.bits_0. Qed.

Lemma u16_choice (b : bool) i : 0 <= i <= 15 -> is_u16 (if b then 2 ^ i else 0).
Proof. intros Hi. destruct b; [|done]. split; [lia|]. apply Z.pow_lt_mono_r; lia. Qed.

Lemma joinEntries_spec r indices :
  reporting r -> (forall i, i ∈ indices -> 0 <= i < joinCount r) ->
  exists body present nack, joinEntries r indices = Some (body, present, nack) /\
    zlen body = HeaderSize * zlen indices /\ is_u16 present /\ is_u16 nack /\
    (forall k i, indices !! k = Some i -> entry_bytes r i (slice body (Z.of_nat k * HeaderSize) ((Z.of_nat k + 1) * HeaderSize))) /\
    forall j, 0 <= j -> Z.testbit present j = existsb (fun i => present_bit r i && (i =? j)) indices /\
      Z.testbit nack j = existsb (fun i => (evidenceAt r i).2 && (i =? j)) indices.
Proof.
  intros Hr. destruct (joinCount_bounds r Hr) as [Hc _]. pose proof (rp_pipeline _ Hr).
  induction indices as [|i indices IH]; intros Hall.
  { exists [], 0, 0. split_and!; try done. intros j Hj. by rewrite Z.bits_0. }
  destruct IH as (body & present & nack & E & Hl & Hp & Hn & Hb & Ht); [intros; apply Hall; by right|].
  assert (0 <= i < joinCount r) as Hi by (apply Hall; by left).
  destruct (joinEntry_spec r i Hr Hi) as (encoded & Henc & Ei). cbn [joinEntries]. rewrite Ei. cbn [mbind option_bind]. rewrite E. cbn [mbind option_bind].
  eexists _, _, _. split; [reflexivity|]. pose proof (proj1 Henc) as Hz. unfold HeaderSize in *.
  split; [rewrite zlen_app, zlen_cons; lia|]. split; [apply lor_u16; [apply u16_choice; lia|done]|].
  split; [apply lor_u16; [apply u16_choice; lia|done]|]. split.
  - intros [|k] i' Hk; cbn in Hk.
    + injection Hk as <-. rewrite slice_app_l, slice_all by lia. done.
    + specialize (Hb k i' Hk). rewrite slice_app_r by lia. rewrite Hz.
      replace (Z.of_nat (Datatypes.S k) * 256 - 256) with (Z.of_nat k * 256) by lia.
      replace ((Z.of_nat (Datatypes.S k) + 1) * 256 - 256) with ((Z.of_nat k + 1) * 256) by lia. done.
  - intros j Hj. cbn [existsb]. rewrite !Z.lor_spec, !testbit_choice by lia. by destruct (Ht j Hj) as [-> ->].
Qed.

(** The bits of a message name the operations they are about. *)
Lemma existsb_index (f : Z -> bool) n j : 0 <= j < n -> existsb (fun i => f i && (i =? j)) (seqZ 0 n) = f j.
Proof.
  intros Hj. destruct (f j) eqn:E.
  - apply existsb_exists. exists j. split; [apply list_elem_of_In, elem_of_seqZ; lia|]. by rewrite E, Z.eqb_refl.
  - apply not_true_iff_false. intros (i & _ & Hi)%existsb_exists. apply andb_prop in Hi as [Hf ->%Z.eqb_eq]. congruence.
Qed.

(** The fields of the message. *)
Definition join_fields r (present nack : Z) : list (Z * list byte) :=
  [(0, putUint 2 present); (16, putUint 2 nack); (32, putUint 8 (headOp r)); (40, putUint 8 (commitMin r));
   (48, putUint 8 (checkpointOp r)); (56, putUint 4 (logView r))].

(** The message as a whole. *)
Record reports r (header : Header) (body : list byte) : Prop := {
  rs_author : Author header = local r;
  rs_view : View header = view r;
  rs_length : zlen body = HeaderSize * joinCount r;
  rs_record : exists present nack, (forall n, joinFrom header n = joinRecord.mk true present nack (headOp r) (commitMin r) (checkpointOp r) (logView r) (u8 n)) /\
    forall j, 0 <= j < joinCount r -> Z.testbit present j = present_bit r j /\ Z.testbit nack j = (evidenceAt r j).2;
  rs_entries : forall i, 0 <= i < joinCount r -> entry_bytes r i (slice body (i * HeaderSize) ((i + 1) * HeaderSize));
}.

Lemma joinView_reports r :
  reporting r -> exists header body frame header', joinView r = Some (header, body) /\ sealed header body = Some (frame, header') /\ reports r header' body.
Proof.
  intros Hr. destruct (joinCount_bounds r Hr) as [Hc Hh]. pose proof (rp_pipeline _ Hr) as Hp. destruct (rp_ops _ Hr) as [Ho1 Ho2].
  destruct (joinEntries_spec r (seqZ 0 (joinCount r)) Hr) as (body & present & nack & E & Hl & Hp16 & Hn16 & Hb & Ht).
  { intros i Hi%elem_of_seqZ. lia. }
  unfold zlen in Hl at 2. rewrite length_seqZ, Z2Nat.id in Hl by lia.
  unfold joinView. rewrite E. cbn [mbind option_bind]. set (fields := write_fields _ _). set (header := mkHeader _ _ _ _ _ _ _ _ _ _ _).
  destruct (sealed_some header body) as (frame & header' & Es); [unfold HeaderSize, MaxUint32 in *; lia|done..|].
  exists header, body, frame, header'. split; [done|]. split; [done|]. apply sealed_same in Es as (Ea & Ev & Ef).
  split; [done..| |].
  - exists present, nack. split.
    + intros n. unfold joinFrom. rewrite Ef. change (Fields header) with fields.
      destruct (rp_log _ Hr). unfold MaxUint64 in *.
      assert (layout_ok 128 (field_sizes (join_fields r present nack)) = true) as Hok by reflexivity.
      unfold fields. fold (join_fields r present nack).
      rewrite (field_index 128 (zeros CommandFieldsSize) (join_fields r present nack) 0 0 (putUint 2 present) 2 eq_refl Hok eq_refl eq_refl),
        (field_index 128 (zeros CommandFieldsSize) (join_fields r present nack) 1 16 (putUint 2 nack) 18 eq_refl Hok eq_refl eq_refl),
        (field_index 128 (zeros CommandFieldsSize) (join_fields r present nack) 2 32 (putUint 8 (headOp r)) 40 eq_refl Hok eq_refl eq_refl),
        (field_index 128 (zeros CommandFieldsSize) (join_fields r present nack) 3 40 (putUint 8 (commitMin r)) 48 eq_refl Hok eq_refl eq_refl),
        (field_index 128 (zeros CommandFieldsSize) (join_fields r present nack) 4 48 (putUint 8 (checkpointOp r)) 56 eq_refl Hok eq_refl eq_refl),
        (field_index 128 (zeros CommandFieldsSize) (join_fields r present nack) 5 56 (putUint 4 (logView r)) 60 eq_refl Hok eq_refl eq_refl).
      rewrite !getUint_putUint by (done || width_lia). done.
    + intros j Hj. destruct (Ht j ltac:(lia)) as [-> ->]. by rewrite !existsb_index.
  - intros i Hi. specialize (Hb (Z.to_nat i) i). rewrite lookup_seqZ, Z2Nat.id in Hb by lia. apply Hb. lia.
Qed.
End reports.
