(* ===== verification/ViewJoins.v ===== *)
(** * Collecting joins

    What a new primary has after recording any join-view messages, that a
    message carries exactly what its sender knows, and the theorems about the
    selection stated of such states. *)

From S2P Require Import Prelude Records Bytes Arith Checksum Header Config Ewah Clock Random Timers RepairBudget.
From S2P Require Import Storage Checkpoint Superblock Wal WalRecovery Replica Release ViewChange ViewSelection ViewReports.

Section joins.
Context {S : Type}.
Implicit Types r : Replica S.
Import Replica.

(** ** Recording keeps the joins well formed *)

(** The fields the collection of joins leaves alone, and what it may raise. *)
Record same_collection r r' : Prop := {
  sc_config : config r' = config r /\ quorums r' = quorums r /\ view r' = view r;
  sc_progress : commitMin r' = commitMin r /\ checkpoint r' = checkpoint r /\ commitMax r <= commitMax r';
  sc_canonical : zlen (canonicalHeaders r') = zlen (canonicalHeaders r);
}.

Lemma same_collection_refl r : same_collection r r.
Proof. by split. Qed.

Lemma same_collection_trans r1 r2 r3 : same_collection r1 r2 -> same_collection r2 r3 -> same_collection r1 r3.
Proof.
  intros [(? & ? & ?) (? & ? & ?) ?] [(? & ? & ?) (? & ? & ?) ?].
  split; [split_and!; congruence|split_and!; [congruence|congruence|lia]|congruence].
Qed.

Definition same_joins r r' : Prop :=
  joins r' = joins r /\ joinHeaders r' = joinHeaders r /\ joinViewBits r' = joinViewBits r.

Lemma fail_same r err : same_collection r (fail r err) /\ same_joins r (fail r err) /\ viewIO (fail r err) = viewIO r.
Proof. unfold fail. by destruct (fatalErr r). Qed.

Lemma select_loop_length fuel r committed maximum op count canonical previous canonical' outcome :
  select_loop fuel r committed maximum op count canonical previous = Some (canonical', outcome) ->
  zlen canonical' = zlen canonical.
Proof.
  revert maximum op count canonical previous. induction fuel as [|fuel IH]; intros maximum op count canonical previous E; [done|].
  cbn [select_loop] in E. repeat (case_match; try (by injection E as <- <-)).
  apply IH in E. rewrite E. unfold zlen. by rewrite length_insert.
Qed.

Lemma select_keeps fuel r r' selected :
  selectCanonicalSuffix fuel r = Some (r', selected) -> same_collection r r' /\ same_joins r r' /\ viewIO r' = viewIO r.
Proof.
  unfold selectCanonicalSuffix. intros E. destruct (existsb _ _); [by injection E as <- <-|].
  destruct (_ || _); [by injection E as <- <-|].
  destruct (select_loop _ _ _ _ _ _ _ _) as [[canonical outcome]|] eqn:El; [|done]. apply select_loop_length in El.
  cbn [mbind option_bind] in E. assert (same_collection r (r {{ canonicalHeaders := canonical }})) as Hs by by split.
  destruct outcome as [| |head count]; injection E as <- <-; [done| |].
  - destruct (fail_same (r {{ canonicalHeaders := canonical }}) UnrecoverableInvariant) as (Hf & (? & ? & ?) & Hv).
    split; [by eapply same_collection_trans|done].
  - split; [|done]. split; [done..|]. cbn [canonicalHeaders updated]. rewrite <- El. unfold zlen. rewrite length_app, length_reverse, length_drop, length_take. lia.
Qed.

Lemma tryInstall_keeps fuel r r' :
  tryInstallCanonicalView fuel r = Some r' -> same_collection r r' /\ same_joins r r'.
Proof.
  unfold tryInstallCanonicalView. intros E. destruct (selectCanonicalSuffix fuel r) as [[r1 selected]|] eqn:Es; [|done].
  cbn [mbind option_bind] in E. apply select_keeps in Es as (Hc & (Ej & Eh & Eb) & _).
  assert (same_collection r r1 /\ same_joins r r1) as Hsame by done.
  set (u := if countAckBits (joinViewBits r1) =? activeCount r1 then _ else _) in E.
  assert (same_collection r u /\ same_joins r u) as Hu.
  { unfold u. destruct (_ =? _); [|exact Hsame]. destruct (fail_same r1 ErrUnrecoverableConsensusState) as (Hf & (? & ? & ?) & _).
    split; [by eapply same_collection_trans|]. unfold same_joins. split_and!; congruence. }
  destruct selected as [[[commit head] count]|]; [|by injection E as <-].
  destruct (commit <? commitMin r1); [by injection E as <-|]. destruct (busy (viewIO r1)); [by injection E as <-|].
  destruct (negb _); [by injection E as <-|]. unfold recordRecoveringView in E.
  destruct (journalRepairBudget.Reset _) as [budget|]; [|done]. injection E as <-. split; [|done].
  eapply same_collection_trans; [exact Hc|]. split; cbn; [done|split_and!; [done|done|lia]|done].
Qed.

Lemma joinBody_spec r head body indices headers :
  joinBody r head body indices = (headers, true) ->
  length headers = length indices /\
  forall k index x, indices !! k = Some index -> headers !! k = Some x ->
    (if allZero (slice body (index * HeaderSize) ((index + 1) * HeaderSize)) then x = zeroHeader
     else decoded r (slice body (index * HeaderSize) ((index + 1) * HeaderSize)) = Some x /\ prepareOp x = u64 (head - index)).
Proof.
  revert headers. induction indices as [|index indices IH]; intros headers E; cbn [joinBody] in E.
  { injection E as <-. done. }
  destruct (allZero _) eqn:Ez; [|destruct (decoded r _) as [x|] eqn:Ed; cbn [mbind option_bind] in E; [|done];
    destruct (Z.eqb_spec (prepareOp x) (u64 (head - index))) as [Eo|]; [|done]];
  destruct (joinBody r head body indices) as [hs ok]; injection E as <- ->; destruct (IH hs eq_refl) as [El Hall];
  (split; [cbn; lia|]); intros [|k] i y Hi Hy; try (by apply (Hall k)); injection Hi as <-; injection Hy as <-.
  - by rewrite Ez.
  - rewrite Ez. done.
Qed.

Lemma joins_wf_same r r' : same_collection r r' -> same_joins r r' -> wf_joins r -> wf_joins r'.
Proof.
  intros [(Ec & _ & Ev) (Emin & Ecp & Emax) El] (Ej & Eh & _) Hw. destruct (wr_progress _ Hw).
  assert (forall s, joinOf r' s = joinOf r s) as Hj by (intros s; unfold joinOf; by rewrite Ej).
  assert (forall s, joinHeaderSlice r' s = joinHeaderSlice r s) as Hs by (intros s; unfold joinHeaderSlice; by rewrite Eh).
  split; unfold cluster, activeCount, membership, checkpointOp in *; rewrite ?Ec, ?Ej, ?Eh, ?El, ?Ecp; try apply Hw; [lia|].
  intros s Hs0. rewrite Hj, Hs. intros Hv. destruct (wr_each _ Hw s Hs0 Hv) as [Ha []]. split; [done|].
  split; unfold cluster in *; rewrite ?Ec, ?Ev; done.
Qed.

Lemma insert_wf r r' s record slice :
  wf_joins r -> 0 <= s < activeCount r -> (joinRecord.valid record = true -> wf_join r record slice) ->
  same_collection r r' -> joins r' = <[Z.to_nat s := record]> (joins r) ->
  joinHeaders r' = <[Z.to_nat s := slice]> (joinHeaders r) -> wf_joins r'.
Proof.
  intros Hw Hs Hj Hc Ej Eh. apply (joins_wf_same (r {{ joins := joins r'; joinHeaders := joinHeaders r'; joinViewBits := joinViewBits r' }}));
    [by destruct Hc|done|]. pose proof (wr_joins _ Hw) as Hl1. pose proof (wr_slices _ Hw) as Hl2. rewrite Ej, Eh.
  split; try apply Hw; cbn [joins joinHeaders updated].
  - unfold zlen in *. rewrite length_insert. exact Hl1.
  - unfold zlen in *. rewrite length_insert. exact Hl2.
  - intros q Hq. unfold joinOf, joinHeaderSlice. cbn [joins joinHeaders updated]. unfold zlen in *. destruct (decide (q = s)) as [->|Hne].
    + rewrite !list_lookup_insert_eq by lia. cbn [default id]. intros Hv. split; [apply Hs|]. by destruct (Hj Hv).
    + rewrite !list_lookup_insert_ne by lia. intros Hv. destruct (wr_each _ Hw q Hq Hv) as [? []]. done.
Qed.

Lemma observe_keeps r peer op : same_collection r (observePeerCheckpoint r peer op) /\ same_joins r (observePeerCheckpoint r peer op).
Proof. unfold observePeerCheckpoint. by case_match. Qed.

Lemma joinFrom_wf r header body headers :
  wf_joins r -> View header = view r -> joinRecord.head (joinFrom header 0) < MaxUint64 ->
  let count := zlen body / HeaderSize in let record := joinFrom header count in
  1 <= count <= ClusterConfig.PipelineMax (cluster r) + 1 -> count - 1 <= joinRecord.head record ->
  joinRecord.logView record <= View header -> joinRecord.commit record <= joinRecord.head record ->
  joinRecord.checkpoint record <= joinRecord.commit record ->
  joinBody r (joinRecord.head record) body (seqZ 0 count) = (headers, true) ->
  wf_join r record (headers ++ drop (length headers) (replicate (Z.to_nat (u64 (ClusterConfig.PipelineMax (cluster r) + 1))) zeroHeader)).
Proof.
  intros Hw Hv Hm count record Hc Hh Hl Hcm Hcp Hb. pose proof (wr_pipeline _ Hw).
  assert (joinRecord.count record = count) as Ec by (cbn; rewrite uwrap_small by width_lia; done).
  apply joinBody_spec in Hb as [Elen Hall]. rewrite length_seqZ in Elen.
  split; rewrite ?Ec; [done|split; done| | | |].
  - split; [apply getUint_range|done].
  - done.
  - split; [apply getUint_range|]. by rewrite <- Hv.
  - intros index x Hi Hx Hne. rewrite lookup_app_l in Hx by lia.
    specialize (Hall (Z.to_nat index) index x). rewrite lookup_seqZ in Hall. specialize (Hall ltac:(lia) Hx).
    destruct (allZero _); [by subst x|]. destruct Hall as [_ ->]. rewrite uwrap_small; [done|].
    change (joinRecord.head (joinFrom header 0)) with (joinRecord.head record) in Hm. unfold MaxUint64 in *. width_lia.
Qed.

Lemma record_wf fuel r header body r' :
  wf_joins r -> 0 <= Author header < activeCount r -> View header = view r ->
  joinRecord.head (joinFrom header 0) < MaxUint64 ->
  recordJoinView fuel r header body = Some r' -> wf_joins r'.
Proof.
  intros Hw Ha Hv Hm E. unfold recordJoinView in E. destruct (negb _) in E; [by injection E as <-|].
  pose proof (wr_pipeline _ Hw) as Hp. set (count := zlen body / HeaderSize) in *.
  rewrite (uwrap_small 64 (_ + 1)) in E by width_lia.
  destruct ((count =? 0) || _) eqn:Ec in E; [by injection E as <-|].
  assert (joinRecord.valid joinRecord.zero = true -> forall slice, wf_join r joinRecord.zero slice) as Hzero by done.
  destruct (_ || _ || _ || _) eqn:Eg in E.
  { injection E as <-. apply (insert_wf r _ (Author header) joinRecord.zero (joinHeaderSlice r (Author header))); try done.
    cbn [joinHeaders updated]. rewrite list_insert_id; [done|]. unfold joinHeaderSlice. destruct (joinHeaders r !! _) as [slice|] eqn:El; [done|]. apply lookup_ge_None in El.
      pose proof (wr_slices _ Hw). unfold zlen in *. lia. }
  split_bool. destruct (observe_keeps r (Author header) (joinRecord.checkpoint (joinFrom header count))) as [Hsc Hsj].
  set (r1 := observePeerCheckpoint r _ _) in *. pose proof (joins_wf_same r r1 Hsc Hsj Hw) as Hw1.
  assert (activeCount r1 = activeCount r /\ cluster r1 = cluster r /\ view r1 = view r) as (Ea1 & Ec1 & Ev1).
  { destruct (sc_config _ _ Hsc) as (E1 & _ & E3). unfold activeCount, membership, cluster. by rewrite E1. }
  destruct (joinBody r1 _ body (seqZ 0 count)) as [headers ok] eqn:Eb. destruct ok; cbn [negb] in E.
  2:{ injection E as <-. by eapply (insert_wf r1 _ (Author header) joinRecord.zero); [|rewrite Ea1|..]. }
  assert (0 <= count) by (apply Z.div_pos; [apply zlen_nonneg|done]).
  set (r2 := updated joinViewBits _ _) in *. assert (wf_joins r2) as Hw2.
  { eapply (insert_wf r1 r2 (Author header)); [done|by rewrite Ea1| |done..]. intros _. rewrite <- Ec1. rewrite <- (uwrap_small 64 (ClusterConfig.PipelineMax (cluster r1) + 1)) by (rewrite Ec1; width_lia).
    apply joinFrom_wf; rewrite ?Ec1, ?Ev1; try done; lia. }
  destruct (_ <=? _) in E; [|by injection E as <-]. apply tryInstall_keeps in E as [Hsc' Hsj']. by eapply joins_wf_same.
Qed.

(** ** Recording a report *)

Definition reported_headers r : list Header := (fun i => default zeroHeader (evidenceAt r i).1) <$> seqZ 0 (joinCount r).

Lemma joinBody_reports r r2 body indices :
  config r2 = config r -> reporting r -> (forall i, i ∈ indices -> 0 <= i < joinCount r) ->
  (forall i, i ∈ indices -> entry_bytes r i (slice body (i * HeaderSize) ((i + 1) * HeaderSize))) ->
  joinBody r2 (headOp r) body indices = ((fun i => default zeroHeader (evidenceAt r i).1) <$> indices, true).
Proof.
  intros Ec Hr. destruct (joinCount_bounds r Hr) as [_ Hh]. destruct (rp_ops _ Hr).
  assert (forall source, decoded r2 source = decoded r source) as Ed
    by (intros; unfold decoded, memberCount, activeCount, membership, cluster; by rewrite Ec).
  induction indices as [|i indices IH]; intros Hin Hall; [done|]. cbn [joinBody fmap list_fmap].
  assert (0 <= i < joinCount r) as Hi by (apply Hin; by left).
  destruct (Hall i ltac:(by left)) as [Hl Hm]. set (encoded := slice body _ _) in *.
  rewrite IH by (intros; (apply Hin || apply Hall); by right). destruct (evidenceAt r i).1 as [h|]; cbn [default id].
  - destruct Hm as (Hd & -> & _ & Ho). rewrite Ed, Hd. cbn [mbind option_bind].
    rewrite Ho, uwrap_small, Z.eqb_refl by (unfold MaxUint64 in *; width_lia). done.
  - rewrite Hm, allZero_zeros. done.
Qed.

Lemma record_reports fuel r r2 header body r2' :
  reporting r -> reports r header body -> wf_joins r2 -> config r2 = config r -> view r2 = view r -> 0 <= local r < activeCount r ->
  Z.land (joinViewBits r2) (u16 (Z.shiftl 1 (local r))) = 0 -> recordJoinView fuel r2 header body = Some r2' ->
  joinOf r2' (local r) = joinFrom header (joinCount r) /\
  exists blanks, joinHeaderSlice r2' (local r) = reported_headers r ++ blanks.
Proof.
  intros Hr [Ea Ev El (present & nack & Ej & _) He] Hw Ec Evw Hl Hbit E.
  destruct (joinCount_bounds r Hr) as [Hc Hh]. pose proof (rp_pipeline _ Hr) as Hp. destruct (rp_ops _ Hr), (rp_log _ Hr).
  unfold recordJoinView in E. rewrite Ea, Hbit in E. cbn [negb Z.eqb] in E.
  assert (zlen body / HeaderSize = joinCount r) as Ed by (rewrite El, Z.mul_comm; apply Z.div_mul; done). rewrite Ed in E.
  assert (cluster r2 = cluster r) as Ecl by (unfold cluster; by rewrite Ec). rewrite Ecl, (uwrap_small 64) in E by width_lia.
  rewrite (proj2 (Z.eqb_neq _ _)), (proj2 (Z.ltb_ge _ _)) in E by lia. cbn [orb] in E.
  rewrite !Ej in E. cbn [joinRecord.head joinRecord.logView joinRecord.commit joinRecord.checkpoint] in E. rewrite Ev in E.
  rewrite !(proj2 (Z.ltb_ge _ _)) in E by lia. cbn [orb] in E.
  destruct (observe_keeps r2 (local r) (checkpointOp r)) as [Hsc (Esj & Esh & _)]. set (r3 := observePeerCheckpoint r2 _ _) in *.
  destruct (sc_config _ _ Hsc) as (Ec3 & _ & _).
  rewrite (joinBody_reports r r3) in E; [|congruence|done|intros i Hi%elem_of_seqZ; lia|intros i Hi%elem_of_seqZ; apply He; lia].
  fold (reported_headers r) in E. cbn [negb] in E. set (blanks := drop _ _) in E. set (r4 := updated joinViewBits _ _) in E.
  assert (same_joins r4 r2') as (Fj & Fh & _).
  { destruct (_ <=? _) in E; [|by injection E as <-]. by apply tryInstall_keeps in E as [_ ?]. }
  pose proof (wr_joins _ Hw) as Hn1. pose proof (wr_slices _ Hw) as Hn2.
  assert (activeCount r2 = activeCount r) as Eac by (unfold activeCount, membership; by rewrite Ec). unfold zlen in *.
  unfold joinOf, joinHeaderSlice. rewrite Fj, Fh. cbn [r4 joins joinHeaders updated]. rewrite Esj, Esh.
  rewrite !list_lookup_insert_eq by lia. cbn [default id]. split; [by rewrite Ej|]. by exists blanks.
Qed.

Lemma reported_at fuel r r2 header body r2' op :
  reporting r -> reports r header body -> wf_joins r2 -> config r2 = config r -> view r2 = view r -> 0 <= local r < activeCount r ->
  Z.land (joinViewBits r2) (u16 (Z.shiftl 1 (local r))) = 0 -> recordJoinView fuel r2 header body = Some r2' ->
  headOp r - joinCount r < op <= headOp r ->
  joinHeaderAt r2' (local r) op = (localHeaderEvidence r op).1.
Proof.
  intros Hr Hrs Hw Ec Ev Hl Hb E Hop.
  destruct (record_reports fuel r r2 header body r2' Hr Hrs Hw Ec Ev Hl Hb E) as (Ej & blanks & Es).
  destruct Hrs as [_ _ _ (present & nack & Ef & _) He]. destruct (joinCount_bounds r Hr) as [Hc Hh]. pose proof (rp_pipeline _ Hr) as Hp.
  destruct (rp_ops _ Hr). unfold joinHeaderAt. rewrite Ej, Ef, Es. cbn [joinRecord.valid joinRecord.head joinRecord.count negb orb].
  rewrite (proj2 (Z.ltb_ge _ _)), (uwrap_small 8), (uwrap_small 64) by (unfold MaxUint64 in *; width_lia || lia).
  rewrite (proj2 (Z.leb_gt _ _)) by lia. set (index := headOp r - op).
  assert ((reported_headers r ++ blanks) !! Z.to_nat index = Some (default zeroHeader (evidenceAt r index).1)) as ->.
  { apply lookup_app_l_Some. unfold reported_headers. rewrite list_lookup_fmap.
    rewrite (proj2 (lookup_seqZ 0 (joinCount r) (Z.to_nat index) index)) by lia. done. }
  cbn [default id]. destruct (He index ltac:(lia)) as [_ Hm]. unfold evidenceAt in *.
  replace (headOp r - index) with op in * by lia. destruct (localHeaderEvidence r op).1 as [h|]; cbn [default id]; [|done].
  destruct Hm as (_ & _ & Hne & _). by rewrite (proj2 (Z.eqb_neq _ _)).
Qed.

(** ** The states of a new primary *)

(** A replica as [newReplica] allocates it. *)
Record viewable r : Prop := {
  vw_pipeline : 1 <= ClusterConfig.PipelineMax (cluster r) <= 15;
  vw_active : 1 <= activeCount r <= ActiveMax;
  vw_joins : zlen (joins r) = activeCount r;
  vw_slices : zlen (joinHeaders r) = activeCount r;
  vw_canonical : zlen (canonicalHeaders r) = ClusterConfig.PipelineMax (cluster r) + 1;
  vw_checkpoint : 0 <= checkpointOp r < MaxUint64;
  vw_progress : 0 <= commitMin r /\ 0 <= commitMax r;
}.

Lemma collect_length maximum r op : (length (collectLocalSuffix maximum r op) <= maximum)%nat.
Proof. revert op. induction maximum as [|n IH]; intros op; cbn; [done|]. case_match; cbn; [lia|]. specialize (IH (u64 (op - 1))). lia. Qed.

Lemma persist_keeps r install commit head headers r' err :
  persistView r install commit head headers = (r', err) -> same_collection r r' /\ same_joins r r'.
Proof.
  unfold persistView, submit. intros E. destruct (_ || _ || _) in E; [by injection E as <- <-|].
  destruct (mapM storedHeader headers) in E; [|by injection E as <- <-]. destruct (default None _) in E; by injection E as <- <-.
Qed.

Lemma blank_wf r : viewable r -> (forall s, joinRecord.valid (joinOf r s) = false) -> wf_joins r.
Proof. intros [] Hb. split; try done. intros s _ Hv. by rewrite Hb in Hv. Qed.

Lemma begin_wf r target : viewable r -> wf_joins (beginViewChangeNow r target).
Proof.
  intros Hv. unfold beginViewChangeNow. set (r0 := releaseQueuedRequests _). set (r1 := updated canonicalHeaders _ _).
  assert (wf_joins r1) as Hw1.
  { apply blank_wf.
    - destruct Hv. split; try done; unfold r1; cbn [canonicalHeaders updated].
      + change (zlen (replicate (length (joins r)) joinRecord.zero) = activeCount r). unfold zlen in *. by rewrite length_replicate.
      + pose proof (collect_length (Nat.min (length (canonicalHeaders r0)) (Z.to_nat (u64 (ClusterConfig.PipelineMax (cluster r0) + 1)))) r0 (headOp r0)).
        fold (localSuffix r0) in *. change (canonicalHeaders r0) with (canonicalHeaders r) in *.
        change (zlen (localSuffix r0 ++ drop (length (localSuffix r0)) (canonicalHeaders r)) = ClusterConfig.PipelineMax (cluster r) + 1).
        unfold zlen in *. rewrite length_app, length_drop. lia.
    - intros s. unfold joinOf. cbn [r1 r0 joins updated releaseQueuedRequests invalidateReleaseReports].
      destruct (replicate _ _ !! Z.to_nat s) as [x|] eqn:E; [|done]. by apply lookup_replicate in E as [-> _]. }
  destruct (persistView r1 _ _ _ _) as [r2 [err|]] eqn:Ep; apply persist_keeps in Ep as [Hc Hj]; [|by eapply joins_wf_same].
  destruct (fail_same r2 err) as (Hf & Hfj & _). eapply joins_wf_same; [exact Hf|done|by eapply joins_wf_same].
Qed.

(** The view is on storage. *)
Definition viewDurable r : Replica S := r {{ viewIO := noHandle; durableView := view r }}.

(** A replica that has started the change to its view and has recorded join-view
    messages of it, its own perhaps among them. *)
Inductive collected : Replica S -> Prop :=
| collected_begin r target : viewable r -> collected (beginViewChangeNow r target)
| collected_durable r : collected r -> collected (viewDurable r)
| collected_join fuel r header body r' :
    collected r -> status r = StatusViewChange -> View header = view r -> 0 <= Author header ->
    joinRecord.head (joinFrom header 0) < MaxUint64 ->
    handleJoinView fuel r header body = Some r' -> collected r'
| collected_own fuel r r' :
    collected r -> reporting r -> 0 <= local r < activeCount r -> sendJoinView fuel r = Some r' -> collected r'.

Lemma own_wf fuel r r' :
  wf_joins r -> reporting r -> 0 <= local r < activeCount r -> sendJoinView fuel r = Some r' -> wf_joins r'.
Proof.
  intros Hw Hr Hl E. unfold sendJoinView in E. destruct (_ || _) in E; [by injection E as <-|].
  unfold acquire in E. set (r1 := updated pool _ _) in E.
  assert (wf_joins r1) as Hw1 by (by eapply (joins_wf_same r)). assert (reporting r1) as Hr1 by (destruct Hr; by split).
  assert (forall err, wf_joins (fail r1 err)) as Hfail.
  { intros err. destruct (fail_same r1 err) as (Hf & Hfj & _). by eapply joins_wf_same. }
  destruct (negb _) in E; [by injection E as <-|].
  destruct (joinView_reports r1 Hr1) as (header & body & frame & header' & Ej & Es & Hrs). rewrite Ej, Es in E.
  destruct (isPrimary r1); [|injection E as <-; by eapply (joins_wf_same r1)].
  destruct Hrs as [Ea Ev _ (present & nack & Ef & _) _]. eapply record_wf; [exact Hw1| | | |exact E].
  - by rewrite Ea.
  - done.
  - rewrite Ef. destruct (rp_ops _ Hr1). cbn [joinRecord.head]. lia.
Qed.

Lemma collected_wf r : collected r -> wf_joins r.
Proof.
  induction 1 as [r target Hv|r _ IH|fuel r header body r' _ IH Hs Hv Ha Hm E|fuel r r' _ IH Hr Hl E].
  - by apply begin_wf.
  - by eapply (joins_wf_same r).
  - unfold handleJoinView in E. rewrite Hs, Hv, Z.ltb_irrefl in E. cbn [bool_decide] in E.
    rewrite bool_decide_false in E by done. cbn [andb] in E. destruct (_ || _) eqn:Eg in E; [by injection E as <-|].
    split_bool. eapply record_wf; [exact IH| |exact Hv|exact Hm|exact E]. lia.
  - by eapply own_wf.
Qed.
End joins.
