(* ===== verification/ReplicaSample.v ===== *)
(** * A small group

    Three replicas with the default configuration, an empty log and the root
    prepare as checkpoint: the concrete states the theorems about replicas are
    instantiated at. *)

From S2P Require Import Prelude Records Bytes Arith Checksum Header Config Ewah Clock Random Timers RepairBudget.
From S2P Require Import Sessions Storage Checkpoint Superblock Wal WalRecovery Replica.

Definition group_config : Config.t :=
  Config.mk (zeros 16) sample_membership DefaultClusterConfig DefaultProcessConfig 1 1.

Definition group_quorums : Quorums := Quorums.mk 2 2 2 2 3.

Definition root_header : Header := Eval vm_compute in
  (DecodeHeader sample_prepare_bytes (zeros 16) 1048576 3).1.

(** The prepare of operation 1, in view 0. *)
Definition first_frame : list byte := Eval vm_compute in
  match SealFrame (zeros 256)
    (mkHeader (zeros 16) (zeros 16) (zeros 16) 0 0 0 1 ProtocolVersion CommandPrepare 0
       (write_fields (zeros 128) [(0, HeaderChecksum root_header); (96, putUint 8 1); (112, putUint 8 1); (124, putUint 1 OperationPulse)]))
  with Ok (frame, _) => frame | Err _ => [] end.

Definition first_header : Header := Eval vm_compute in (DecodeHeader (slice first_frame 0 256) (zeros 16) 1048576 3).1.

Definition empty_wal : WAL unit :=
  WAL.mk unit tt DefaultClusterConfig (zeros 16) 3 (WALLayout.mk 0 0 0 0 0 0 0 0 0) [] [] [] false.

Definition sample_sessions : SessionTable :=
  mkTable (SessionTableConfig.mk 4 (zeros 16) 3 1048576 65536) (replicate 4 zeroRecord) (replicate 4 false) (replicate 4 0) 0.

Definition stopped : Timeout := Timeout.mk true 0 50 50 0 0 0.

(** Replica [local] in view [view], with [pipeline]. *)
Definition replica_at (local view : Z) (status : Status) (head : Z) (checksum : list byte) (pipeline : list pipelineEntry) : Replica unit :=
  Replica.mk unit group_config group_quorums local status view view 0 head 0 0 (sample_checkpoint 8192) (zeros 16) checksum
    0 0 0 (FailureDetector.mk 0 failureIntervalMax)
    (replicaTimers.mk stopped stopped stopped stopped stopped stopped stopped stopped) (DeterministicRandom.mk 1)
    (zeros 1056) 0 0 0 (sample_checkpoint 8192) false empty_wal sample_sessions [None; None] (sample_superblock 4 1 0 (zeros 16)) 8 pipeline 32 [] 0 0
    (replicate 3 joinRecord.zero) (replicate 3 (replicate 9 zeroHeader)) (replicate 9 zeroHeader)
    noHandle false 0 0 0 (journalRepairBudget.mk 3 local 4 0 [Millisecond; Millisecond; Millisecond; 0; 0; 0] (replicate 12 journalRepairEntry.zero))
    None false (recoveringView.mk false 0 0 0 0 false false 0) 0 (replicate 9 None) [0; 0; 0] (zeros 16) 0 0 [1]
    (replicate 3 (releaseReport.mk false 0 0 (replicate 64 0))) 0 upgradeWindow.zero 0 false false true false false None
    [true; true; true; true] [Some (1, 1); Some (2, 1); Some (3, 1)] [TimeSample.mk 1 1 true; TimeSample.mk 2 2 true] [] [].

Definition durable_first : pipelineEntry := pipelineEntry.mk first_frame first_header 0 true false noHandle None CommitStageIdle 0 None zeroHeader noPlan.
