(* ===== verification/ViewSafety.v ===== *)
(** * Safety of the view change

    The theorems about a new primary that has collected joins: what it has
    recorded is what the senders know, the suffix it selects is a hash chain
    some replica holds every element of, and it contains every operation a
    replication quorum holds. *)

From S2P Require Import Prelude Records Bytes Arith Checksum Header Config Ewah Clock Random Timers RepairBudget.
From S2P Require Import Storage Checkpoint Superblock Wal WalRecovery Replica Release ViewChange ViewSelection ViewReports ViewJoins ReplicaSample.

Section safety.
Context {S : Type}.
Implicit Types r : Replica S.
Import Replica.

Lemma recorded_says fuel r r2 header body r2' :
  reporting r -> reports r header body -> wf_joins r2 -> config r2 = config r -> view r2 = view r -> 0 <= local r < activeCount r ->
  Z.land (joinViewBits r2) (u16 (Z.shiftl 1 (local r))) = 0 -> recordJoinView fuel r2 header body = Some r2' ->
  says r2' (local r) r /\ joinRecord.count (joinOf r2' (local r)) = joinCount r.
Proof.
  intros Hr Hrs Hw Ec Ev Hl Hb E.
  destruct (record_reports fuel r r2 header body r2' Hr Hrs Hw Ec Ev Hl Hb E) as (Ej & _).
  pose proof (fun op => reported_at fuel r r2 header body r2' op Hr Hrs Hw Ec Ev Hl Hb E) as Hat.
  destruct (rs_record _ _ _ Hrs) as (present & nack & Ef & Hbits). destruct (joinCount_bounds r Hr) as [Hc _].
  pose proof (rp_pipeline _ Hr). rewrite Ef, (uwrap_small 8) in Ej by width_lia. split; [|by rewrite Ej].
  split; rewrite Ej; try done. intros op [_ Hop]. rewrite Ej in Hop. cbn [joinRecord.head joinRecord.count joinRecord.nack] in *.
  split; [by apply Hat|]. rewrite land_join_bit by lia. destruct (Hbits (headOp r - op) ltac:(lia)) as [_ ->].
  unfold evidenceAt. by replace (headOp r - (headOp r - op)) with op by lia.
Qed.

(** C12: a join-view message conveys exactly what its sender knows.  A replica in
    a view change, its view durable, sends one message to the primary of the
    view; and when the primary, which has started the same view and has no join
    of that sender, handles it, the join it records has the sender's head,
    commit point, checkpoint and log view, and for every operation it covers the
    header the sender has, if any, and whether the sender denies the operation. *)
Theorem join_roundtrip fuel r rest :
  reporting r -> 0 <= local r < activeCount r -> status r = StatusViewChange -> durableView r = view r -> isPrimary r = false ->
  pool r = true :: rest ->
  exists header body,
    sendJoinView fuel r = Some (send (r {{ pool := rest }}) (SendReplica (primaryOf r (view r)) header body)) /\
    forall fuel2 r2 r2', collected r2 -> config r2 = config r -> view r2 = view r -> status r2 = StatusViewChange ->
      durableView r2 = view r2 -> isPrimary r2 = true -> Z.land (joinViewBits r2) (u16 (Z.shiftl 1 (local r))) = 0 ->
      handleJoinView fuel2 r2 header body = Some r2' ->
      says r2' (local r) r /\ joinRecord.count (joinOf r2' (local r)) = joinCount r.
Proof.
  intros Hr Hl Hs Hd Hp Hpool. set (r1 := r {{ pool := rest }}).
  destruct (joinView_reports r1) as (h0 & body & frame & header & Ej & Es & Hrs1); [by destruct Hr|].
  assert (reports r header body) as Hrs by (destruct Hrs1; by split). exists header, body. split.
  - unfold sendJoinView. rewrite Hs, Hd, bool_decide_true, Z.eqb_refl by done. cbn [negb orb].
    unfold acquire. rewrite Hpool. cbn [head tail default id negb]. fold r1.
    change (isPrimary r1) with (isPrimary r). by rewrite Ej, Es, Hp.
  - intros fuel2 r2 r2' Hc Ec Ev Hs2 Hd2 Hp2 Hb E. pose proof (rs_author _ _ _ Hrs) as Eau. pose proof (rs_view _ _ _ Hrs) as Evw.
    unfold handleJoinView in E. rewrite Hs2, Hd2, Hp2, Ev, Evw, Z.ltb_irrefl, Z.eqb_refl in E.
    rewrite bool_decide_false, bool_decide_true in E by done. cbn [negb orb andb] in E.
    assert (activeCount r2 = activeCount r) as Ea by (unfold activeCount, membership; by rewrite Ec).
    rewrite (proj2 (Z.leb_gt _ _)) in E by lia. apply (recorded_says fuel2 r r2 header body r2'); try done. by apply collected_wf.
Qed.


(** C1: the selection loses no operation a replication quorum holds.  Let a
    replication quorum hold, for every operation above the commit point up to
    [op], the prepare [log op'], as their joins tell when they have been
    recorded; and let the logs of the latest log view contain it, as the
    protocol keeps them: one of their joins has [log op'], and what another has
    in its place is of an older view.  Then a suffix the primary selects reaches
    [op] and has exactly those prepares. *)
Theorem canonical_keeps_acknowledged fuel r rmax (log : Z -> Header) op r' commit head count :
  collected r -> (length (canonicalHeaders r) + 1 < fuel)%nat ->
  is_u8 rmax -> QuorumsFor (activeCount r) rmax = Some (quorums r) ->
  (forall op', committedBound r < op' <= op -> quorum_holds r op' (log op')) ->
  (forall op', committedBound r < op' <= op -> latest_log_has r op' (log op')) ->
  selectCanonicalSuffix fuel r = Some (r', Some (commit, head, count)) ->
  commit = committedBound r /\ (commit < op -> op <= head) /\
  forall op', commit < op' <= op -> canonicalHeaders r' !! Z.to_nat (head - op') = Some (log op').
Proof.
  intros Hc Hf Hrm Hq Hack Hlog E. apply collected_wf in Hc as Hw. pose proof (wr_active _ Hw). change ActiveMax with 6 in *.
  assert (Quorums.Negative (quorums r) = activeCount r - Quorums.Replication (quorums r) + 1) as Hneg.
  { apply QuorumsFor_spec in Hq; [naive_solver|split; lia|done]. }
  destruct (select_spec r fuel Hw Hf) as (r1 & selected & E1 & Hs). rewrite E in E1. injection E1 as <- <-.
  destruct Hs as (-> & Hh & _ & Hd & Hall). pose proof (committed_nonneg r Hw). split; [done|].
  assert (committedBound r < op -> op <= head) as Hreach.
  { intros Hlt. destruct (Z.le_gt_cases op head) as [|Hgt]; [done|]. exfalso. destruct Hd as [->|Hd].
    - destruct (Hlog (maximumHead r + 1) ltac:(lia)) as [(s & Hs & _ & Hat) _].
      destruct (joinHeaderAt_Some r s (maximumHead r + 1) _ Hw Hs ltac:(lia) Hat) as [[Hv Hcov] _].
      pose proof (proj2 (maximum_spec r Hw) s Hv). lia.
    - by apply (held_not_denied r (head + 1) _ Hw ltac:(lia) (Hack (head + 1) ltac:(lia)) (Hlog (head + 1) ltac:(lia))). }
  split; [done|]. intros op' Hop'. destruct (Hall op' ltac:(lia)) as (h & Hl & Hcand & _).
  apply candidate_newest in Hcand; [|done|lia].
  apply (latest_candidate r op' (log op')) in Hcand; [|apply Hlog; lia]. by injection Hcand as ->.
Qed.

(** ** Blank headers *)

Lemma blank_not_prepare v : SuperblockCheck.prepareHeader v (zeros HeaderSize) = false.
Proof.
  unfold SuperblockCheck.prepareHeader. destruct (DecodeHeader _ _ _ _) as [h reason] eqn:E. destruct reason; try reflexivity.
  exfalso. apply DecodeHeader_accepts in E as [Hacc _]. pose proof (acc_command _ _ _ _ Hacc) as Hc. clear -Hc.
  vm_compute in Hc. discriminate Hc.
Qed.

(** The superblock submitted for a view whose suffix has a gap is one the
    superblock store refuses to persist, whatever it validates against. *)
Theorem blank_view_header_rejected r install commit head headers r' k h v :
  persistView r install commit head headers = (r', None) -> zlen headers < 2 ^ 32 ->
  headers !! k = Some h -> Command h = CommandReserved ->
  exists next, submitted r' = submitted r ++ [PersistSuperblock next] /\ SuperblockCheck.Validate next v <> Ok tt.
Proof.
  intros E Hlen Hk Hc. unfold persistView in E. destruct (_ || _ || _) in E; [done|].
  destruct (mapM storedHeader headers) as [encoded|] eqn:Ee; [|done]. unfold submit in E.
  destruct (default None _) in E; [|done]. injection E as <-. eexists. split; [reflexivity|].
  apply mapM_Some in Ee. destruct (Forall2_lookup_l _ _ _ _ _ Ee Hk) as (bytes & Hb & Hs).
  unfold storedHeader in Hs. rewrite Hc, Z.eqb_refl in Hs. injection Hs as <-.
  unfold SuperblockCheck.Validate. intros Hv. step_guards Hv. destruct (CheckpointCheck.Validate _ _) in Hv; [|done].
  cbn [mbind result_bind] in Hv. step_guards Hv. clear Hv G G0 G1 G2. apply negb_false_iff in G3. rewrite forallb_forall in G3.
  assert (zlen encoded = zlen headers) as Hl by (unfold zlen; by rewrite (Forall2_length _ _ _ Ee)).
  specialize (G3 (zeros HeaderSize)). rewrite blank_not_prepare in G3. discriminate G3. apply list_elem_of_In.
  cbn [viewSuperblock Superblock.ViewHeaderCount Superblock.ViewHeaders]. pose proof (zlen_nonneg encoded).
  rewrite uwrap_small by width_lia. unfold zlen. rewrite Nat2Z.id, take_app_length. by eapply list_elem_of_lookup_2.
Qed.
End safety.

(** ** A change to view 3

    Replica 1 has prepared operation 1; replica 0, the primary of view 3, has
    not. *)

Definition backup : Replica unit := replica_at 1 3 StatusViewChange 1 (HeaderChecksum first_header) [durable_first].

Definition starting : Replica unit := Eval vm_compute in
  viewDurable (beginViewChangeNow (replica_at 0 0 StatusNormal 0 (HeaderChecksum root_header) []) 3).

Definition message_of (message : outgoing) : Header * list byte :=
  match message with
  | SendReplica _ header body | BroadcastReplicas header body | SendClient _ header body => (header, body)
  end.

Definition backup_join : Header * list byte := Eval vm_compute in
  default (zeroHeader, []) (message_of <$> head (default [] (Replica.sent <$> sendJoinView 0 backup))).

Definition collecting : Replica unit := Eval vm_compute in default starting (handleJoinView 20 starting backup_join.1 backup_join.2).

Definition selecting : Replica unit := Eval vm_compute in (default (collecting, None) (selectCanonicalSuffix 20 collecting)).1.

Lemma Some_pair_inj {A B} (a a' : A) (b b' : B) : Some (a, b) = Some (a', b') -> a = a' /\ b = b'.
Proof. by intros [= <- <-]. Qed.

Lemma starting_collected : collected starting.
Proof.
  assert (starting = viewDurable (beginViewChangeNow (replica_at 0 0 StatusNormal 0 (HeaderChecksum root_header) []) 3)) as ->
    by (vm_compute; reflexivity).
  apply collected_durable, collected_begin. split; vm_compute; by repeat split.
Qed.

Lemma starting_joins : handleJoinView 20 starting backup_join.1 backup_join.2 = Some collecting.
Proof. vm_compute. reflexivity. Qed.

Lemma collecting_collected : collected collecting.
Proof.
  eapply (collected_join 20); [exact starting_collected|vm_compute; reflexivity| | | |exact starting_joins]; vm_compute; done.
Qed.

Lemma backup_reporting : reporting backup.
Proof.
  split; [vm_compute; by repeat split..| | |].
  - constructor; [|constructor]. exists (slice first_frame 0 256). vm_compute. reflexivity.
  - by repeat split.
  - intros op h negative. unfold JoinEvidence, slotOf, slotAt. cbn. by case_match.
Qed.

Lemma backup_sends : Replica.sent <$> sendJoinView 0 backup = Some [SendReplica 0 backup_join.1 backup_join.2].
Proof. vm_compute. reflexivity. Qed.

Lemma collecting_selects : selectCanonicalSuffix 20 collecting = Some (selecting, Some (0, 1, 2)).
Proof. vm_compute. reflexivity. Qed.

Lemma join_roundtrip_witness :
  exists r2, handleJoinView 20 starting backup_join.1 backup_join.2 = Some r2 /\ says r2 1 backup.
Proof.
  destruct (join_roundtrip 0 backup [true; true; true] backup_reporting) as (header & body & E & H);
    [vm_compute; by split|reflexivity|reflexivity|vm_compute; reflexivity|reflexivity|].
  pose proof backup_sends as Es. rewrite E in Es. injection Es as -> ->.
  exists collecting. split; [exact starting_joins|].
  refine (proj1 (H 20%nat starting collecting starting_collected eq_refl _ _ _ _ _ starting_joins)); vm_compute; reflexivity.
Defined.


Lemma backup_reports : reports backup backup_join.1 backup_join.2.
Proof.
  destruct (joinView_reports backup backup_reporting) as (h0 & body & frame & header & Ej & Es & Hrs).
  assert (option_map snd (joinView backup) = Some backup_join.2) as E2 by (vm_compute; reflexivity).
  assert (match joinView backup with Some (h, b) => option_map snd (sealed h b) | None => None end = Some backup_join.1) as E1
    by (vm_compute; reflexivity).
  rewrite Ej in E1, E2. rewrite Es in E1. cbn [option_map snd] in E1, E2.
  apply (inj Some) in E1. apply (inj Some) in E2. rewrite <- E1, <- E2. exact Hrs.
Qed.

Lemma starting_records : recordJoinView 20 starting backup_join.1 backup_join.2 = Some collecting.
Proof. vm_compute. reflexivity. Qed.

Lemma collecting_says : says collecting 1 backup.
Proof.
  refine (proj1 (recorded_says 20 backup starting _ _ collecting backup_reporting backup_reports
    (collected_wf _ starting_collected) eq_refl _ _ _ starting_records)); vm_compute; by repeat split.
Qed.

(** Replica 2 has not been heard of; replica 1 has the prepare. *)
Lemma collecting_holds : quorum_holds collecting 1 first_header.
Proof.
  exists [1; 2]. split; [by repeat constructor; set_solver|]. split; [|split; [vm_compute; done|]].
  - change (activeCount collecting) with 3. intros s Hs. set_unfold in Hs. lia.
  - intros s Hs Hv. assert (s = 1 \/ s = 2) as [->| ->] by set_solver; [|vm_compute in Hv; discriminate Hv].
    exists backup. split; [exact collecting_says|]. split; [vm_compute; discriminate|]. left. vm_compute. reflexivity.
Qed.

Lemma collecting_latest : latest_log_has collecting 1 first_header.
Proof.
  pose proof (collected_wf _ collecting_collected) as Hw. split.
  - exists 1. split; [done|]. split; vm_compute; reflexivity.
  - intros s h' (Hs & _ & Hat). left.
    destruct (joinHeaderAt_Some collecting s 1 h' Hw Hs ltac:(lia) Hat) as [[Hv _] _].
    destruct (wr_each _ Hw s Hs Hv) as [Ha _]. change (activeCount collecting) with 3 in Ha.
    assert (s = 0 \/ s = 1 \/ s = 2) as [->|[->| ->]] by lia; [vm_compute in Hv; discriminate Hv| |vm_compute in Hv; discriminate Hv].
    assert (joinHeaderAt collecting 1 1 = Some first_header) as E by (vm_compute; reflexivity). rewrite E in Hat. by apply (inj Some) in Hat.
Qed.

Lemma canonical_keeps_acknowledged_witness : Replica.canonicalHeaders selecting !! 0%nat = Some first_header.
Proof.
  assert (forall op, committedBound collecting < op <= 1 -> op = 1) as H1.
  { intros op Hop. assert (committedBound collecting = 0) as E by (vm_compute; reflexivity). rewrite E in Hop. lia. }
  refine (proj2 (proj2 (canonical_keeps_acknowledged 20 collecting 3 (fun _ => first_header) 1 selecting 0 1 2
    collecting_collected _ _ _ _ _ collecting_selects)) 1 _); [vm_compute; lia|vm_compute; by split|vm_compute; reflexivity| | |lia].
  - intros op Hop. rewrite (H1 op Hop). exact collecting_holds.
  - intros op Hop. rewrite (H1 op Hop). exact collecting_latest.
Defined.
