(* ===== verification/StateMachine.v ===== *)
(** * The replicated state machine

    The interface of [src/replication/sm.go] as far as committing uses it.  An
    implementation is a type of states with the operations the replica calls;
    a completion that arrives later is an event of its own. *)

From S2P Require Import Prelude Bytes.

Inductive ValidationResult :=
| ValidationOK
| ValidationInvalidOperation
| ValidationInvalidBody
| ValidationInvalidBodySize.

#[export] Instance ValidationResult_eq_dec : EqDecision ValidationResult.
Proof. solve_decision. Defined.

(** [PrefetchInput] and [CommitInput], which have the same fields. *)
Module CommitInput.
Record t := mk {
  Operation : Z;
  Body : list byte;
  Timestamp : Z;
  Op : Z;
  Release : Z;
}.
End CommitInput.
Abbreviation CommitInput := CommitInput.t.

(** [Ready value] or [Pending]. *)
Inductive StartResult (T : Type) := Ready (value : T) | Pending.
Arguments Ready {T} _.
Arguments Pending {T}.

(** An error of the state machine; the replica stops whichever it is. *)
Inductive machine_error := StateMachineError.

Class StateMachine (M : Type) := {
  Validate : M -> Z -> list byte -> ValidationResult;
  PulseNeeded : M -> Z -> bool;
  StartPrefetch : M -> CommitInput -> M * result machine_error (StartResult Z);
  MachineCommit : M -> CommitInput -> Z -> M * result machine_error (list byte);
  StartCompact : M -> Z -> Z -> M * result machine_error (StartResult Z);
  StartReset : M -> M * result machine_error (StartResult unit);
}.
