(* ===== verification/Normal.v ===== *)
(** * Normal operation

    The replication of prepares, [src/replication/replica_normal.go] with the
    prepares the timer handlers and the upgrade create.  The primary turns a
    request into a prepare that extends its chain, appends it to its log and
    broadcasts it; a backup appends it if it extends the backup's chain.  Once
    its append is durable a replica acknowledges the prepare, unless its slot
    in the log may still be needed, and the primary counts the
    acknowledgements. *)

From S2P Require Import Prelude Records Bytes Arith Checksum Header Config Ewah Clock Random Timers RepairBudget.
From S2P Require Import Storage Checkpoint Superblock Wal WalRecovery Reconfiguration Replica Release ViewChange.

(** ** Fields *)

Definition requestClient (header : Header) : list byte := slice (Fields header) 32 48.
Definition requestParent (header : Header) : list byte := slice (Fields header) 0 16.
Definition requestOperation (header : Header) : Z := byteAt (Fields header) 68.
Definition requestSession (header : Header) : Z := getUint (slice (Fields header) 48 56).
Definition requestNumber (header : Header) : Z := getUint (slice (Fields header) 64 68).

Definition equal16 (left right : list byte) : bool :=
  if negb (zlen left =? 16) || negb (zlen right =? 16) then false else
  fold_left (fun difference pair => Z.lor difference (Z.lxor (byte.unsigned pair.1) (byte.unsigned pair.2))) (zip left right) 0 =? 0.

Definition prepareOKMatches (ack prepare : Header) : bool :=
  if negb (getUint (slice (Fields ack) 96 104) =? prepareOp prepare)
     || negb (getUint (slice (Fields ack) 112 120) =? prepareTimestamp prepare)
     || negb (getUint (slice (Fields ack) 120 124) =? prepareRequest prepare)
     || negb (byteAt (Fields ack) 124 =? prepareOperation prepare)
  then false else
  equal16 (slice (Fields ack) 0 16) (slice (Fields prepare) 0 16)
  && equal16 (slice (Fields ack) 32 48) (HeaderChecksum prepare)
  && equal16 (slice (Fields ack) 64 80) (slice (Fields prepare) 64 80)
  && equal16 (slice (Fields ack) 80 96) (slice (Fields prepare) 80 96).

(** The backup that answers the client too, by a hash of the operation. *)
Definition replyBackup (op primary activeCount : Z) : Z :=
  if activeCount <=? 1 then primary else
  let x := u64 (op + 0x9e3779b97f4a7c15) in
  let x := u64 (Z.lxor x (Z.shiftr x 30) * 0xbf58476d1ce4e5b9) in
  let x := u64 (Z.lxor x (Z.shiftr x 27) * 0x94d049bb133111eb) in
  let x := Z.lxor x (Z.shiftr x 31) in
  u8 (u64 (u64 (primary + 1) + x mod (u8 (activeCount - 1))) mod activeCount).

Section normal.
Context {S : Type}.
Implicit Types r : Replica S.
Import Replica.

Definition replicaBit (index : Z) : Z := u16 (Z.shiftl 1 index).

Definition normalView r : bool :=
  bool_decide (status r = StatusNormal) && (view r =? durableView r) && (logView r =? view r).

(** ** Acknowledging *)

(** The last operation a replica with its checkpoint at [checkpoint] may
    acknowledge: the pipeline after the trigger of the checkpoint [next]. *)
Definition acknowledgeBound r (next : Z) : option Z :=
  trigger ← checkpointTrigger (cluster r) next; checkedAdd trigger (ClusterConfig.PipelineMax (cluster r)).

Definition canAcknowledge r (entry : pipelineEntry) : bool :=
  if negb (pipelineEntry.durable entry) || negb (normalView r) || busy (viewIO r) || (activeCount r <=? local r) then false else
  let checkpoint := checkpointOp r in
  match checkpointAfter (cluster r) checkpoint with
  | None => false
  | Some next =>
      let acceptable next :=
        match acknowledgeBound r next with
        | Some bound => prepareOp (pipelineEntry.header entry) <=? bound
        | None => false
        end in
      if negb (DurableReplicaState.SyncMin (Superblock.State (superblock r)) =? 0) && negb (syncRangeRepaired r) then
        match acknowledgeBound r checkpoint with
        | None => false
        | Some bound => acceptable (if negb (checkpoint =? 0) && (commitMax r <=? bound) then checkpoint else next)
        end
      else acceptable next
  end.

(** The acknowledgement of an entry, before it is sealed. *)
Definition prepareOK r (entry : pipelineEntry) : Header :=
  let prepare := pipelineEntry.header entry in
  let fields := Fields prepare in
  mkHeader (zeros 16) (zeros 16) (Config.Group (config r)) 0 0 (view r) 0 ProtocolVersion CommandPrepareOK (local r)
    (write_fields (zeros CommandFieldsSize)
       [(0, slice fields 0 16); (32, HeaderChecksum prepare); (64, slice fields 64 96); (96, slice fields 96 104);
        (104, putUint 8 (commitMin r)); (112, slice fields 112 125)]).

(** The entry is the one the pointer leads to after the call. *)
Definition sendPrepareOK r (entry : pipelineEntry) : Replica S * pipelineEntry :=
  if negb (canAcknowledge r entry) then (r, entry) else
  let '(r, acquired) := acquire r in
  if negb acquired then (fail r ErrFramePoolEmpty, entry) else
  match sealed (prepareOK r entry) [] with
  | None => (fail r ErrEncoding, entry)
  | Some (_, header) =>
      (send r (SendReplica (primaryOf r (view r)) header []),
       entry {{ pipelineEntry.acks := Z.lor (pipelineEntry.acks entry) (replicaBit (local r)) }})
  end.

Definition countPrepareAck r (entry : pipelineEntry) (author : Z) : pipelineEntry :=
  let bit := replicaBit author in
  if negb (Z.land (pipelineEntry.acks entry) bit =? 0) then entry else
  let acks := Z.lor (pipelineEntry.acks entry) bit in
  entry {{ pipelineEntry.acks := acks;
           pipelineEntry.quorum := if Quorums.Replication (quorums r) <=? countAckBits acks then true else pipelineEntry.quorum entry }}.

(** What a replica does with an entry it may acknowledge. *)
Definition acknowledge r (entry : pipelineEntry) : Replica S * pipelineEntry :=
  if isPrimary r then (r, countPrepareAck r entry (local r)) else sendPrepareOK r entry.

Definition acknowledgeAt (skip : pipelineEntry -> bool) r (offset : nat) : Replica S :=
  match pipeline r !! offset with
  | None => r
  | Some entry =>
      if skip entry || negb (canAcknowledge r entry) then r else
      let '(r, entry) := acknowledge r entry in setEntry r offset entry
  end.

(** The loop over the pipeline. *)
Definition acknowledgeAll (skip : pipelineEntry -> bool) r : Replica S :=
  fold_left (acknowledgeAt skip) (seq 0 (length (pipeline r))) r.

Definition acknowledgeDurablePrepares r : Replica S :=
  if negb (bool_decide (status r = StatusNormal)) then r else
  acknowledgeAll (fun entry => negb (Z.land (pipelineEntry.acks entry) (replicaBit (local r)) =? 0)) r.

(** The append of the entry at [offset] has completed. *)
Definition appendCompleted r (offset : nat) (entry : pipelineEntry) : Replica S :=
  let entry := entry {{ pipelineEntry.io := noHandle; pipelineEntry.ioKind := None; pipelineEntry.durable := true }} in
  if negb (canAcknowledge r entry) then setEntry r offset entry else
  let '(r, entry) := acknowledge r entry in setEntry r offset entry.

Definition handlePrepareOK r (ack : Header) : Replica S :=
  if negb (bool_decide (status r = StatusNormal)) || negb (durableView r =? view r) || negb (isPrimary r)
     || negb (View ack =? view r) || (activeCount r <=? Author ack) then r else
  let op := getUint (slice (Fields ack) 96 104) in
  match list_find (fun entry => prepareOp (pipelineEntry.header entry) = op) (pipeline r) with
  | None => r
  | Some (offset, entry) =>
      if negb (prepareOKMatches ack (pipelineEntry.header entry)) then r else
      setEntry r offset (countPrepareAck r entry (Author ack))
  end.

(** ** Accepting prepares *)

(** A submission without a free slot and one that is refused fail alike. *)
Definition acceptPrepare r (frame : list byte) (header : Header) : Replica S * bool :=
  if (zlen (pipeline r) =? pipelineCapacity r)
     || negb (prepareOp header =? u64 (headOp r + 1)) || negb (bool_decide (prepareParent header = headChecksum r))
     || (commitMin r <? prepareCommit header) || (prepareTimestamp header <=? lastPrepareTimestamp r)
  then (r, false) else
  match submit r (AppendPrepare frame (checkpointOp r)) with
  | (r, None) => (r, false)
  | (r, Some handle) =>
      let offset := length (pipeline r) in
      match pushPipeline r frame header with
      | None => (r, false)
      | Some r =>
          ((setEntry r offset ((newEntry frame header) {{ pipelineEntry.io := handle; pipelineEntry.ioKind := Some IOWALAppend }}))
             {{ lastPrepareTimestamp := prepareTimestamp header }}, true)
      end
  end.

Definition nextTimestamp r (sample : TimeSample) : Z :=
  Z.max (Z.max (Z.max 1 (TimeSample.Wall sample)) (u64 (lastPrepareTimestamp r + 1))) (u64 (lastCommitTimestamp r + 1)).

(** The end of [createPrepare], [createUpgrade] and [createPulse]: seal, accept
    and broadcast. *)
Definition propose r (header : Header) (body : list byte) : Replica S * option replica_error :=
  match sealed header body with
  | None => (r, Some ErrEncoding)
  | Some (frame, header) =>
      match acceptPrepare r frame header with
      | (r, false) => (r, Some ErrReplicaBackpressure)
      | (r, true) => (send r (BroadcastReplicas header body), None)
      end
  end.

Definition prepareBody r (operation : Z) (requestBody : list byte) : list byte :=
  if operation =? OperationRegister
  then put (zeros 256) 0 (putUint 4 (u32 (ClusterConfig.ApplicationBatchSizeMax (cluster r)))) else
  if operation =? OperationReconfigure
  then put requestBody 252 (putUint 4 (result_number (ValidateReconfiguration requestBody (membership r) 0)))
  else requestBody.

Definition createPrepare r (request : Header) (requestBody : list byte) (sample : TimeSample) : Replica S * option replica_error :=
  let operation := requestOperation request in
  let '(r, acquired) := acquire r in
  if negb acquired then (r, Some ErrFramePoolEmpty) else
  propose r
    (mkHeader (zeros 16) (zeros 16) (Config.Group (config r)) 0 0 (view r) (Header.Release request) ProtocolVersion CommandPrepare
       (primaryOf r (view r))
       (write_fields (zeros CommandFieldsSize)
          [(0, headChecksum r); (32, HeaderChecksum request); (64, checkpointID r); (80, slice (Fields request) 32 48);
           (96, putUint 8 (u64 (headOp r + 1))); (104, putUint 8 (commitMin r)); (112, putUint 8 (nextTimestamp r sample));
           (120, slice (Fields request) 64 68); (124, putUint 1 operation)]))
    (prepareBody r operation requestBody).

(** The prepare of an operation the replica itself starts. *)
Definition controlPrepare r (operation : Z) (sample : TimeSample) : Header :=
  mkHeader (zeros 16) (zeros 16) (Config.Group (config r)) 0 0 (view r) (Config.CurrentRelease (config r)) ProtocolVersion
    CommandPrepare (local r)
    (write_fields (zeros CommandFieldsSize)
       [(0, headChecksum r); (64, checkpointID r); (96, putUint 8 (u64 (headOp r + 1))); (104, putUint 8 (commitMin r));
        (112, putUint 8 (nextTimestamp r sample)); (124, putUint 1 operation)]).

Definition createUpgrade r (sample : TimeSample) : Replica S * option replica_error :=
  if (upgradeTarget r =? 0) || negb (bool_decide (status r = StatusNormal)) || negb (isPrimary r) || negb (durableView r =? view r)
  then (r, Some ErrReplicaInvariant) else
  let '(r, acquired) := acquire r in
  if negb acquired then (r, Some ErrFramePoolEmpty) else
  propose r (controlPrepare r OperationUpgrade sample) (put (zeros 16) 0 (putUint 4 (upgradeTarget r))).

Definition createPulse r (sample : TimeSample) : Replica S * option replica_error :=
  let '(r, acquired) := acquire r in
  if negb acquired then (r, Some ErrFramePoolEmpty) else
  propose r (controlPrepare r OperationPulse sample) [].

(** Whether the frame is kept. *)
Definition handlePrepare r (frame : list byte) (header : Header) (sample : TimeSample) : Replica S * bool :=
  if negb (bool_decide (status r = StatusNormal)) || negb (durableView r =? view r) || (view r <? View header)
     || negb (Author header =? primaryOf r (View header)) then (r, false) else
  let r := if View header =? view r
    then r {{ failureDetector ::= fun detector => FailureDetector.Signal detector (TimeSample.Monotonic sample) }} else r in
  let op := prepareOp header in
  match list_find (fun entry => prepareOp (pipelineEntry.header entry) = op) (pipeline r) with
  | Some (offset, entry) =>
      if bool_decide (HeaderChecksum (pipelineEntry.header entry) = HeaderChecksum header) && pipelineEntry.durable entry
      then let '(r, entry) := sendPrepareOK r entry in (setEntry r offset entry, false)
      else (r, false)
  | None =>
      if op <=? commitMin r then
        match localHeaderEvidence r op with
        | (Some known, false) =>
            if bool_decide (HeaderChecksum known = HeaderChecksum header)
            then ((sendPrepareOK r ((newEntry [] known) {{ pipelineEntry.durable := true }})).1, false)
            else (r, false)
        | _ => (r, false)
        end else
      if negb (View header =? view r) then (r, false) else
      if negb (op =? u64 (headOp r + 1)) || negb (bool_decide (prepareParent header = headChecksum r))
         || (commitMin r <? prepareCommit header)
      then (requestView r (View header) (TimeSample.Monotonic sample), false)
      else acceptPrepare r frame header
  end.

(** ** Learning commits *)

(** The replica cannot follow the primary and asks it for the view. *)
Definition loseHead r (view : Z) (sample : TimeSample) : Replica S :=
  requestView (releaseQueuedRequests (r {{ status := StatusRecoveringHead }})) view (TimeSample.Monotonic sample).

Definition handleCommit r (header : Header) (sample : TimeSample) : Replica S :=
  if negb (bool_decide (status r = StatusNormal)) || isPrimary r || negb (View header =? view r)
     || negb (Author header =? primaryOf r (view r)) then r else
  let monotonic := getUint (slice (Fields header) 64 72) in
  if monotonic <=? lastPrimaryCommit r then r else
  let commit := getUint (slice (Fields header) 56 64) in
  let differs := match (localHeaderEvidence r commit).1 with
    | Some known => negb (bool_decide (HeaderChecksum known = slice (Fields header) 0 16))
    | None => false
    end in
  if differs then if commitMin r <? commit then loseHead r (View header) sample else r else
  let r := r {{ lastPrimaryCommit := monotonic;
                failureDetector ::= fun detector => FailureDetector.Signal detector (TimeSample.Monotonic sample) }} in
  let r := if commitMax r <? commit then r {{ commitMax := commit }} else r in
  if (headOp r <? commit) && negb (commitInFlight r) then loseHead r (View header) sample else r.
End normal.
