(* ===== verification/NormalSafety.v ===== *)
(** * Acknowledgements and the pipeline

    What normal operation keeps true of the pipeline of a replica: the prepares
    form a hash chain that ends in the head, and the acknowledgements counted
    for a prepare are the replica's own, made once its append is durable, and
    those of distinct replicas that have said so in this view. *)

From S2P Require Import Prelude Records Bytes Arith Checksum Header Config Ewah Clock Random Timers RepairBudget.
From S2P Require Import Storage Checkpoint Superblock Wal WalRecovery Reconfiguration Replica Release ViewChange ViewReports Normal.

(** ** Sets of replicas as bits *)

Lemma replicaBit_testbit index j : 0 <= index <= 15 -> 0 <= j -> Z.testbit (replicaBit index) j = (index =? j).
Proof.
  intros Hi Hj. unfold replicaBit. rewrite join_bit by done. destruct (Z.eqb_spec index j) as [->|Hne].
  - apply Z.pow2_bits_true. lia.
  - apply Z.pow2_bits_false. done.
Qed.

Lemma replicaBit_u16 index : is_u16 (replicaBit index).
Proof. by apply uwrap_range. Qed.

(** The members of a set given by bits. *)
Definition members (bits : Z) : list Z := filter (fun i => Z.testbit bits i = true) (seqZ 0 64).

Lemma members_count bits : is_u64 bits -> zlen (members bits) = populationCount bits.
Proof.
  intros Hb. rewrite populationCount_spec, bits_count, count_bits_size by (done || apply Hb). unfold members, zlen.
  rewrite size_list_to_set; [done|]. apply NoDup_filter, NoDup_seqZ.
Qed.

Lemma elem_of_members bits i : i ∈ members bits <-> Z.testbit bits i = true /\ 0 <= i < 64.
Proof. unfold members. by rewrite list_elem_of_filter, elem_of_seqZ. Qed.

Lemma countAckBits_count bits : is_u16 bits -> countAckBits bits = zlen (members bits).
Proof.
  intros Hb. assert (is_u64 bits) as Hb' by width_lia. rewrite members_count by done. unfold countAckBits.
  pose proof (popcount_range bits Hb'). apply uwrap_small. width_lia.
Qed.

(** ** Acknowledgements *)

Lemma equal16_true left right : equal16 left right = true <-> zlen left = 16 /\ left = right.
Proof.
  unfold equal16. destruct (Z.eqb_spec (zlen left) 16) as [El|]; cbn [negb orb]; [|naive_solver].
  destruct (Z.eqb_spec (zlen right) 16) as [Er|]; cbn [negb]; [|split; [done|intros [_ ->]; done]].
  rewrite Z.eqb_eq. transitivity (left = right); [|naive_solver].
  assert (forall accumulated (l k : list byte), length l = length k -> 0 <= accumulated ->
    fold_left (fun difference pair => Z.lor difference (Z.lxor (byte.unsigned pair.1) (byte.unsigned pair.2))) (zip l k) accumulated = 0
    <-> accumulated = 0 /\ l = k) as H.
  { intros accumulated l. revert accumulated. induction l as [|b l IH]; intros accumulated [|c k] Hl Ha; try done.
    - cbn. naive_solver.
    - cbn [zip zip_with fold_left fst snd]. pose proof (byte.unsigned_range b). pose proof (byte.unsigned_range c).
      rewrite IH by (cbn in Hl; lia || (apply Z.lor_nonneg; split; [done|]; apply Z.lxor_nonneg; lia)).
      rewrite Z.lor_eq_0_iff, Z.lxor_eq_0_iff. split; [|naive_solver].
      intros [[-> Hbc] ->]. apply byte.unsigned_inj in Hbc as ->. done. }
  rewrite H by (unfold zlen in *; lia || done). naive_solver.
Qed.

Lemma slice_eq_split {A} (l k : list A) a b c :
  0 <= a <= b -> b <= c -> c <= zlen l -> c <= zlen k ->
  slice l a c = slice k a c <-> slice l a b = slice k a b /\ slice l b c = slice k b c.
Proof.
  intros Hab Hbc Hl Hk. rewrite !(slice_split _ a b c) by lia. split; [|by intros [-> ->]].
  intros H. apply app_inj_1 in H; [done|].
  enough (zlen (slice l a b) = zlen (slice k a b)) by (unfold zlen in *; lia). rewrite !zlen_slice by lia. done.
Qed.

Lemma getUint_eq l k : zlen l = zlen k -> getUint l = getUint k <-> l = k.
Proof.
  intros E. split; [|by intros ->]. intros H. rewrite <- (putUint_getUint (length l) l) by done.
  rewrite <- (putUint_getUint (length l) k) by done. by rewrite H.
Qed.

(** What two headers agree on when one acknowledges the other. *)
Definition sameAcknowledged (checksum : list byte) (fields : list byte) (prepare : Header) : Prop :=
  checksum = HeaderChecksum prepare /\ slice fields 0 16 = slice (Fields prepare) 0 16 /\
  slice fields 64 104 = slice (Fields prepare) 64 104 /\ slice fields 112 125 = slice (Fields prepare) 112 125.

Lemma prepareOKMatches_spec ack prepare :
  zlen (Fields ack) = 128 -> wf_header prepare ->
  prepareOKMatches ack prepare = true <-> sameAcknowledged (slice (Fields ack) 32 48) (Fields ack) prepare.
Proof.
  intros Ha Hp. pose proof (wf_Fields _ Hp) as Hf. unfold prepareOKMatches, sameAcknowledged.
  unfold prepareOp, prepareTimestamp, prepareRequest, prepareOperation.
  rewrite !(byteAt_lit _ 124 125) by lia.
  rewrite (slice_eq_split _ _ 64 80 104), (slice_eq_split _ _ 80 96 104), (slice_eq_split _ _ 112 120 125),
    (slice_eq_split _ _ 120 124 125) by lia.
  rewrite <- (getUint_eq (slice _ 96 104)), <- (getUint_eq (slice _ 112 120)), <- (getUint_eq (slice _ 120 124)),
    <- (getUint_eq (slice _ 124 125)) by (rewrite !zlen_slice by lia; done).
  set (a := getUint (slice (Fields ack) 96 104)). set (b := getUint (slice (Fields ack) 112 120)).
  set (c := getUint (slice (Fields ack) 120 124)). set (d := getUint (slice (Fields ack) 124 125)).
  destruct (_ || _) eqn:E.
  - split; [done|]. intros (_ & _ & (_ & _ & H1) & H2 & H3 & H4). rewrite !orb_true_iff, !negb_true_iff, !Z.eqb_neq in E. naive_solver.
  - rewrite !orb_false_iff, !negb_false_iff, !Z.eqb_eq in E. destruct E as [[[? ?] ?] ?].
    rewrite !andb_true_iff, !equal16_true, !zlen_slice by lia. naive_solver.
Qed.

Lemma prepareOK_fields {S} (r : Replica S) entry :
  wf_header (pipelineEntry.header entry) ->
  zlen (Fields (prepareOK r entry)) = 128 /\
  (forall prepare, sameAcknowledged (slice (Fields (prepareOK r entry)) 32 48) (Fields (prepareOK r entry)) prepare <->
     sameAcknowledged (HeaderChecksum (pipelineEntry.header entry)) (Fields (pipelineEntry.header entry)) prepare).
Proof.
  intros Hw. pose proof (wf_Fields _ Hw) as Hf. pose proof (wf_HeaderChecksum _ Hw) as Hc. cbn [prepareOK Fields].
  set (h := pipelineEntry.header entry) in *. set (fields := [_; _; _; _; _; _]).
  assert (layout_ok 128 (field_sizes fields) = true) as Hok.
  { unfold fields, field_sizes. cbn [fmap list_fmap]. rewrite Hc, !zlen_slice, zlen_putUint by lia. done. }
  assert (zlen (zeros CommandFieldsSize) = 128) as Hz by done.
  assert (forall k o bs b, fields !! k = Some (o, bs) -> b = o + zlen bs -> slice (write_fields (zeros CommandFieldsSize) fields) o b = bs)
    as Hr by (intros; by eapply field_index).
  split; [by apply zlen_write_fields|]. intros prepare. unfold sameAcknowledged.
  rewrite (Hr 0%nat 0 (slice (Fields h) 0 16) 16 eq_refl), (Hr 1%nat 32 (HeaderChecksum h) 48 eq_refl),
    (Hr 5%nat 112 (slice (Fields h) 112 125) 125 eq_refl), (slice_split _ 64 96 104),
    (Hr 2%nat 64 (slice (Fields h) 64 96) 96 eq_refl), (Hr 3%nat 96 (slice (Fields h) 96 104) 104 eq_refl),
    (slice_split (Fields h) 64 96 104) by (rewrite ?zlen_slice, ?Hc by lia; lia). done.
Qed.

Section invariant.
Context {S : Type}.
Implicit Types r : Replica S.
Import Replica.

(** ** What the pipeline is *)

(** Replica [i] has the prepare: it is this one and its append is durable, or
    it has acknowledged the prepare in the current view. *)
Definition holds r (heard : list Header) (entry : pipelineEntry) (i : Z) : Prop :=
  (i = local r /\ pipelineEntry.durable entry = true) \/
  (exists ack, ack ∈ heard /\ Author ack = i /\ View ack = view r /\ prepareOKMatches ack (pipelineEntry.header entry) = true).

Record justified r (heard : list Header) (entry : pipelineEntry) : Prop := {
  ju_width : is_u16 (pipelineEntry.acks entry);
  ju_acks : forall i, 0 <= i -> Z.testbit (pipelineEntry.acks entry) i = true -> i < activeCount r /\ holds r heard entry i;
  ju_quorum : pipelineEntry.quorum entry = true -> Quorums.Replication (quorums r) <= zlen (members (pipelineEntry.acks entry));
}.

(** [next] follows [previous] in the hash chain. *)
Definition follows (previous next : Header) : Prop :=
  prepareOp next = u64 (prepareOp previous + 1) /\ prepareParent next = HeaderChecksum previous /\
  prepareTimestamp previous < prepareTimestamp next.

Definition headers_of (pipeline : list pipelineEntry) : list Header := pipelineEntry.header <$> pipeline.

Definition chained (headers : list Header) : Prop :=
  forall k previous next, headers !! k = Some previous -> headers !! Datatypes.S k = Some next -> follows previous next.

Record pipeline_inv r (heard : list Header) : Prop := {
  pi_chain : chained (headers_of (pipeline r));
  pi_head : forall header, last (headers_of (pipeline r)) = Some header ->
    prepareOp header = headOp r /\ HeaderChecksum header = headChecksum r /\ prepareTimestamp header = lastPrepareTimestamp r;
  pi_room : zlen (pipeline r) <= pipelineCapacity r;
  pi_acks : Forall (justified r heard) (pipeline r);
}.

(** The replica is a member of a group of at most sixteen. *)
Definition placed r : Prop := 0 <= local r /\ activeCount r <= 16.

(** The fields the invariant is about, and those with the commit point and the
    repair budget. *)
Definition base r :=
  (config r, quorums r, local r, view r, headOp r, headChecksum r, lastPrepareTimestamp r, pipelineCapacity r, pipeline r).
Definition core r := (base r, commitMin r, repairBudget r).

Lemma base_inv r r' heard : base r' = base r -> placed r /\ pipeline_inv r heard -> placed r' /\ pipeline_inv r' heard.
Proof.
  destruct r, r'. cbn. intros [= -> -> -> -> -> -> -> -> ->] [Hp [Hc Hh Hr Ha]]. split; [exact Hp|].
  split; [exact Hc|exact Hh|exact Hr|]. eapply Forall_impl; [exact Ha|]. intros entry [Hw Hk Hq]. by split.
Qed.

Lemma core_inv r r' heard : core r' = core r -> placed r /\ pipeline_inv r heard -> placed r' /\ pipeline_inv r' heard.
Proof. intros E. apply base_inv. exact (f_equal (fun fields => fields.1.1) E). Qed.

(** ** Functions that leave it alone *)

Lemma fail_core r err : core (fail r err) = core r.
Proof. unfold fail. by destruct (fatalErr r). Qed.

Lemma acquire_core r : core (acquire r).1 = core r.
Proof. done. Qed.

Lemma send_core r message : core (send r message) = core r.
Proof. done. Qed.

Lemma submit_core r operation : core (submit r operation).1 = core r.
Proof. unfold submit. by destruct (default None _). Qed.

Lemma drawNonce_core r : core (drawNonce r) = core r.
Proof. unfold drawNonce. by repeat case_match. Qed.

Lemma sendGetView_core r now : core (sendGetView r now) = core r.
Proof.
  unfold sendGetView. destruct (_ =? _); [done|]. destruct (_ && _); [done|]. rewrite <- (drawNonce_core r).
  cbn [acquire]. destruct (negb _); [done|]. by repeat case_match.
Qed.

Lemma requestView_core r target now : core (requestView r target now) = core r.
Proof. unfold requestView. rewrite sendGetView_core. by case_match. Qed.

Lemma loseHead_core r v sample : core (loseHead r v sample) = core r.
Proof. unfold loseHead. by rewrite requestView_core. Qed.

Lemma handleCommit_core r header sample : core (handleCommit r header sample) = core r.
Proof.
  unfold handleCommit. destruct (_ || _); [done|]. destruct (_ <=? _); [done|].
  destruct (match _ with Some _ => _ | None => _ end); [case_match; [apply loseHead_core|done]|].
  case_match; [rewrite loseHead_core|]; by case_match.
Qed.

(** ** Acknowledging *)

Lemma justified_place r r' heard entry :
  (config r', quorums r', local r', view r') = (config r, quorums r, local r, view r) -> justified r heard entry -> justified r' heard entry.
Proof.
  intros [= Ec Eq El Ev] [Hw Ha Hq]. split; [done| |by rewrite Eq]. unfold activeCount, membership, holds in *. by rewrite Ec, El, Ev.
Qed.

Lemma members_lor a b : zlen (members a) <= zlen (members (Z.lor a b)).
Proof.
  unfold zlen. apply inj_le, submseteq_length, NoDup_submseteq; [apply NoDup_filter, NoDup_seqZ|].
  intros i [Hi Hr]%elem_of_members. apply elem_of_members. by rewrite Z.lor_spec, Hi.
Qed.

(** One more bit, for a replica that has the prepare. *)
Lemma justified_bit r heard entry i quorum :
  placed r -> justified r heard entry -> 0 <= i < activeCount r -> holds r heard entry i ->
  (quorum = true -> pipelineEntry.quorum entry = true \/
     Quorums.Replication (quorums r) <= zlen (members (Z.lor (pipelineEntry.acks entry) (replicaBit i)))) ->
  justified r heard (entry {{ pipelineEntry.acks := Z.lor (pipelineEntry.acks entry) (replicaBit i); pipelineEntry.quorum := quorum }}).
Proof.
  intros [Hl Hn] [Hw Ha Hq] Hi Hh Hquorum. split; cbn [pipelineEntry.acks pipelineEntry.quorum updated].
  - apply lor_u16; [done|]. apply replicaBit_u16.
  - intros j Hj. rewrite Z.lor_spec, replicaBit_testbit by lia. intros [Hb|E%Z.eqb_eq]%orb_true_iff; [by apply Ha|].
    subst j. split; [lia|]. by destruct Hh as [?|?]; [left|right].
  - intros [Hold|Hnew]%Hquorum; [|done]. etrans; [by apply Hq|apply members_lor].
Qed.

Lemma canAcknowledge_spec r entry :
  canAcknowledge r entry = true ->
  pipelineEntry.durable entry = true /\ normalView r = true /\ busy (viewIO r) = false /\ local r < activeCount r.
Proof.
  unfold canAcknowledge. intros H. destruct (_ || _) eqn:E; [done|].
  rewrite !orb_false_iff, !negb_false_iff, Z.leb_gt in E. naive_solver.
Qed.

Lemma sendPrepareOK_core r entry : core (sendPrepareOK r entry).1 = core r.
Proof.
  unfold sendPrepareOK. destruct (negb _); [done|]. cbn [acquire]. destruct (negb _); [by cbn [fst]; rewrite fail_core|].
  destruct (sealed _ _) as [[frame header]|]; cbn [fst]; [reflexivity|by rewrite fail_core].
Qed.

Lemma sendPrepareOK_entry r heard entry :
  placed r -> justified r heard entry ->
  pipelineEntry.header (sendPrepareOK r entry).2 = pipelineEntry.header entry /\ justified r heard (sendPrepareOK r entry).2.
Proof.
  intros Hp Hj. unfold sendPrepareOK. destruct (canAcknowledge r entry) eqn:Ec; cbn [negb]; [|done].
  apply canAcknowledge_spec in Ec as (Hd & _ & _ & Hl). cbn [acquire]. destruct (negb _); [done|].
  destruct (sealed _ _) as [[frame header]|]; cbn [snd]; [|done]. split; [done|].
  apply (justified_bit _ _ _ _ (pipelineEntry.quorum entry)); [done..| |by left|by left]. destruct Hp. cbn. lia.
Qed.

Lemma countPrepareAck_entry r heard entry author :
  placed r -> justified r heard entry -> 0 <= author < activeCount r -> holds r heard entry author ->
  pipelineEntry.header (countPrepareAck r entry author) = pipelineEntry.header entry /\
  justified r heard (countPrepareAck r entry author).
Proof.
  intros Hp Hj Ha Hh. unfold countPrepareAck. destruct (negb _); [done|]. split; [done|].
  apply justified_bit; [done..|]. intros Hq. destruct (_ <=? _) eqn:E in Hq; [|by left]. right.
  apply Z.leb_le in E. rewrite countAckBits_count in E; [done|]. apply lor_u16; [apply Hj|apply replicaBit_u16].
Qed.

Lemma acknowledge_core r entry : core (acknowledge r entry).1 = core r.
Proof. unfold acknowledge. case_match; [done|apply sendPrepareOK_core]. Qed.

Lemma acknowledge_entry r heard entry :
  placed r -> justified r heard entry -> canAcknowledge r entry = true ->
  pipelineEntry.header (acknowledge r entry).2 = pipelineEntry.header entry /\ justified r heard (acknowledge r entry).2.
Proof.
  intros Hp Hj Hc. unfold acknowledge. case_match; [|by apply sendPrepareOK_entry].
  apply canAcknowledge_spec in Hc as (Hd & _ & _ & Hl). destruct Hp. apply countPrepareAck_entry; [done..|lia|by left].
Qed.

(** An entry of the pipeline is replaced by one with the same prepare. *)
Lemma setEntry_inv r heard offset entry entry' :
  placed r /\ pipeline_inv r heard -> pipeline r !! offset = Some entry ->
  pipelineEntry.header entry' = pipelineEntry.header entry -> justified r heard entry' ->
  placed (setEntry r offset entry') /\ pipeline_inv (setEntry r offset entry') heard.
Proof.
  intros [Hp [Hc Hh Hr Ha]] Ho Eh Hj. split; [done|].
  assert (headers_of (<[offset := entry']> (pipeline r)) = headers_of (pipeline r)) as E.
  { unfold headers_of. rewrite list_fmap_insert, Eh. apply list_insert_id. by rewrite list_lookup_fmap, Ho. }
  split; cbn [setEntry pipeline updated]; [by rewrite E|by rewrite E| |].
  - unfold zlen. rewrite length_insert. done.
  - apply Forall_insert; [|by apply (justified_place r)]. eapply Forall_impl; [exact Ha|]. intros e. by apply justified_place.
Qed.

Lemma entry_justified r heard offset entry : pipeline_inv r heard -> pipeline r !! offset = Some entry -> justified r heard entry.
Proof. intros [_ _ _ Ha] Ho. rewrite Forall_lookup in Ha. by eapply Ha. Qed.

(** The entry a call returns is put back where it was. *)
Lemma put_back r r' heard offset entry entry' :
  placed r /\ pipeline_inv r heard -> core r' = core r -> pipeline r !! offset = Some entry ->
  pipelineEntry.header entry' = pipelineEntry.header entry -> justified r heard entry' ->
  placed (setEntry r' offset entry') /\ pipeline_inv (setEntry r' offset entry') heard.
Proof.
  intros Hi Ec Ho Eh Hj. eapply (core_inv r r') in Hi; [|done].
  apply (setEntry_inv r' heard offset entry); [done| |done|].
  - injection Ec. intros. congruence.
  - apply (justified_place r); [|done]. injection Ec. intros. congruence.
Qed.

Lemma acknowledgeAt_inv skip r heard offset :
  placed r /\ pipeline_inv r heard -> placed (acknowledgeAt skip r offset) /\ pipeline_inv (acknowledgeAt skip r offset) heard.
Proof.
  intros Hi. unfold acknowledgeAt. destruct (pipeline r !! offset) as [entry|] eqn:Ho; [|done].
  destruct (skip entry); [done|]. destruct (canAcknowledge r entry) eqn:Hc; [|done]. cbn [orb negb].
  pose proof (acknowledge_core r entry) as Ec. destruct Hi as [Hp Hi]. pose proof (entry_justified _ _ _ _ Hi Ho) as Hj.
  destruct (acknowledge_entry r heard entry Hp Hj Hc) as [Eh Hj']. destruct (acknowledge r entry) as [r' entry'].
  by eapply put_back.
Qed.

Lemma acknowledgeAll_inv skip r heard :
  placed r /\ pipeline_inv r heard -> placed (acknowledgeAll skip r) /\ pipeline_inv (acknowledgeAll skip r) heard.
Proof.
  unfold acknowledgeAll. generalize (seq 0 (length (pipeline r))). intros offsets. revert r.
  induction offsets as [|offset offsets IH]; intros r Hi; [done|]. cbn [fold_left]. apply IH. by apply acknowledgeAt_inv.
Qed.

Lemma acknowledgeDurablePrepares_inv r heard :
  placed r /\ pipeline_inv r heard ->
  placed (acknowledgeDurablePrepares r) /\ pipeline_inv (acknowledgeDurablePrepares r) heard.
Proof. intros Hi. unfold acknowledgeDurablePrepares. case_match; [done|by apply acknowledgeAll_inv]. Qed.

Lemma justified_durable r heard entry io kind :
  justified r heard entry ->
  justified r heard (entry {{ pipelineEntry.io := io; pipelineEntry.ioKind := kind; pipelineEntry.durable := true }}).
Proof.
  intros [Hw Ha Hq]. split; [done| |done]. intros i H0 Hi. destruct (Ha i H0 Hi) as [? [[-> _]|?]]; split; [done|by left|done|by right].
Qed.

Lemma appendCompleted_inv r heard offset entry :
  placed r /\ pipeline_inv r heard -> pipeline r !! offset = Some entry ->
  placed (appendCompleted r offset entry) /\ pipeline_inv (appendCompleted r offset entry) heard.
Proof.
  intros Hi Ho. unfold appendCompleted. destruct Hi as [Hp Hi]. pose proof (entry_justified _ _ _ _ Hi Ho) as Hj.
  apply (justified_durable _ _ _ noHandle None) in Hj. destruct (canAcknowledge _ _) eqn:Hc; cbn [negb].
  - match goal with |- context [acknowledge r ?e] => pose proof (acknowledge_core r e) as Ec;
      destruct (acknowledge_entry r heard e Hp Hj Hc) as [Eh Hj']; destruct (acknowledge r e) as [r' entry'] end.
    by eapply (put_back r).
  - by eapply (setEntry_inv r).
Qed.

Lemma handlePrepareOK_inv r heard ack :
  placed r /\ pipeline_inv r heard -> 0 <= Author ack ->
  placed (handlePrepareOK r ack) /\ pipeline_inv (handlePrepareOK r ack) (ack :: heard).
Proof.
  intros [Hp Hi] Ha.
  assert (pipeline_inv r (ack :: heard)) as Hi'.
  { destruct Hi as [Hc Hh Hr Hj]. split; try done. eapply Forall_impl; [exact Hj|]. intros entry [Hw Hk Hq]. split; [done| |done].
    intros i H0 Hb. destruct (Hk i H0 Hb) as [? [?|(ack' & Hin & ?)]]; split; [done|by left|done|right].
    exists ack'. split; [by apply list_elem_of_further|done]. }
  unfold handlePrepareOK. destruct (_ || _) eqn:Eg; [done|].
  rewrite !orb_false_iff, !negb_false_iff, !Z.eqb_eq, Z.leb_gt in Eg.
  destruct (list_find _ _) as [[offset entry]|] eqn:Ef; [|done]. apply list_find_Some in Ef as (Ho & _ & _).
  destruct (prepareOKMatches ack _) eqn:Em; cbn [negb]; [|done].
  destruct (countPrepareAck_entry r (ack :: heard) entry (Author ack)) as [Eh Hj];
    [done|by eapply entry_justified|lia| |by eapply setEntry_inv].
  right. exists ack. split; [by apply list_elem_of_here|]. naive_solver.
Qed.

(** ** New prepares *)

Lemma chained_snoc headers header :
  chained headers -> (forall previous, last headers = Some previous -> follows previous header) -> chained (headers ++ [header]).
Proof.
  intros Hc Hl k previous next Hp Hn. apply lookup_app_Some in Hp as [Hp|[Hk Hp]].
  - apply lookup_app_Some in Hn as [Hn|[Hk Hn]]; [by eapply Hc|]. apply lookup_lt_Some in Hp as Hlt.
    apply list_lookup_singleton_Some in Hn as [E <-]. apply Hl. rewrite last_lookup. by replace (pred (length headers)) with k by lia.
  - apply list_lookup_singleton_Some in Hp as [E _]. apply lookup_lt_Some in Hn. rewrite length_app in Hn. cbn in Hn. lia.
Qed.

Lemma new_justified r heard frame header io kind :
  justified r heard ((newEntry frame header) {{ pipelineEntry.io := io; pipelineEntry.ioKind := kind }}).
Proof. split; [by split|by intros i H0; rewrite Z.bits_0|done]. Qed.

(** The entry of a prepare whose append has been submitted. *)
Definition appending (frame : list byte) (header : Header) (handle : IOHandle) : pipelineEntry :=
  (newEntry frame header) {{ pipelineEntry.io := handle; pipelineEntry.ioKind := Some IOWALAppend }}.

(** Nothing has happened to the core, or a prepare that follows the head has
    been added to the pipeline. *)
Inductive extends r r' : Prop :=
| extends_same : core r' = core r -> extends r r'
| extends_push frame header handle :
    prepareOp header = u64 (headOp r + 1) -> prepareParent header = headChecksum r -> lastPrepareTimestamp r < prepareTimestamp header ->
    zlen (pipeline r) <> pipelineCapacity r ->
    core r' = (config r, quorums r, local r, view r, prepareOp header, HeaderChecksum header, prepareTimestamp header, pipelineCapacity r,
               pipeline r ++ [appending frame header handle], commitMin r, repairBudget r) ->
    extends r r'.

Lemma extends_core r r1 r2 : extends r r1 -> core r2 = core r1 -> extends r r2.
Proof.
  intros [E|frame header handle Ho Hp Ht Hc E] E2; [apply extends_same; by rewrite E2|].
  eapply extends_push; [done..|]. by rewrite E2.
Qed.

Lemma extends_from r0 r r' : core r0 = core r -> extends r0 r' -> extends r r'.
Proof.
  intros E0 [E|frame header handle Ho Hp Ht Hc E]; [apply extends_same; congruence|]. injection E0 as E1 E2 E3 E4 E5 E6 E7 E8 E9 E10 E11.
  rewrite E1, E2, E3, E4, E8, E9, E10, E11 in E. apply (extends_push _ _ frame header handle); [congruence..|exact E].
Qed.

Lemma extends_inv r r' heard :
  extends r r' -> placed r /\ pipeline_inv r heard -> placed r' /\ pipeline_inv r' heard.
Proof.
  intros [E|frame header handle Ho Hp Ht Hcap E] Hi; [by eapply core_inv|]. destruct Hi as [Hpl [Hc Hh Hr Ha]].
  destruct r' as []. injection E as -> -> -> -> -> -> -> -> -> -> ->. split; [exact Hpl|].
  split; cbn [pipeline headOp headChecksum lastPrepareTimestamp pipelineCapacity].
  - unfold headers_of. rewrite fmap_app. apply chained_snoc; [done|]. intros previous Hl.
    destruct (Hh previous Hl) as (O & C & T). unfold follows. cbn. by rewrite O, C, T.
  - intros new. unfold headers_of. rewrite fmap_app, last_app. by intros [= <-].
  - rewrite zlen_snoc. lia.
  - apply Forall_app. split; [|apply Forall_singleton, new_justified].
    eapply Forall_impl; [exact Ha|]. intros e. by apply justified_place.
Qed.

Lemma acceptPrepare_extends r frame header : extends r (acceptPrepare r frame header).1.
Proof.
  unfold acceptPrepare. destruct (_ || _) eqn:Eg; [by apply extends_same|].
  rewrite !orb_false_iff, !negb_false_iff, !Z.eqb_eq, Z.eqb_neq, bool_decide_eq_true, Z.ltb_ge, Z.leb_gt in Eg.
  destruct Eg as [[[[Hroom Hop] Hparent] _] Htime].
  pose proof (submit_core r (AppendPrepare frame (checkpointOp r))) as Ec. destruct (submit _ _) as [r1 handle]. cbn [fst] in Ec.
  apply (extends_from r1); [done|]. destruct handle as [handle|]; [|by apply extends_same].
  injection Ec as E1 E2 E3 E4 E5 E6 E7 E8 E9 E10 E11. unfold pushPipeline. rewrite (proj2 (Z.eqb_neq _ _)) by congruence. cbn [fst].
  apply (extends_push _ _ frame header handle); [congruence..|]. unfold core, setEntry.
  cbn [config quorums local view headOp headChecksum lastPrepareTimestamp pipelineCapacity pipeline commitMin repairBudget updated].
  by rewrite insert_app_r_alt, Nat.sub_diag by lia.
Qed.

Lemma propose_extends r header body : extends r (propose r header body).1.
Proof.
  unfold propose. destruct (sealed header body) as [[frame h]|]; [|by apply extends_same].
  pose proof (acceptPrepare_extends r frame h) as Ha. by destruct (acceptPrepare r frame h) as [r1 []]; [eapply extends_core|].
Qed.

Lemma createPrepare_extends r request body sample : extends r (createPrepare r request body sample).1.
Proof.
  unfold createPrepare. cbn [acquire]. destruct (negb _); [by apply extends_same|]. by eapply extends_from, propose_extends.
Qed.

Lemma createPulse_extends r sample : extends r (createPulse r sample).1.
Proof.
  unfold createPulse. cbn [acquire]. destruct (negb _); [by apply extends_same|]. by eapply extends_from, propose_extends.
Qed.

Lemma createUpgrade_extends r sample : extends r (createUpgrade r sample).1.
Proof.
  unfold createUpgrade. destruct (_ || _); [by apply extends_same|]. cbn [acquire].
  destruct (negb _); [by apply extends_same|]. by eapply extends_from, propose_extends.
Qed.

Lemma handlePrepare_inv r heard frame header sample :
  placed r /\ pipeline_inv r heard ->
  placed (handlePrepare r frame header sample).1 /\ pipeline_inv (handlePrepare r frame header sample).1 heard.
Proof.
  intros Hi. unfold handlePrepare. destruct (_ || _); [done|].
  match goal with |- context [pipeline ?x] => assert (core x = core r) as Ec by (by case_match);
    apply (core_inv _ _ heard Ec) in Hi; clear Ec; generalize dependent x end. clear r. intros r Hi.
  destruct (list_find _ _) as [[offset entry]|] eqn:Ef.
  - apply list_find_Some in Ef as (Ho & _ & _). destruct (_ && _); [|done].
    destruct Hi as [Hp Hi]. pose proof (entry_justified _ _ _ _ Hi Ho) as Hj. pose proof (sendPrepareOK_core r entry) as Ec.
    destruct (sendPrepareOK_entry r heard entry Hp Hj) as [Eh Hj']. destruct (sendPrepareOK r entry) as [r' entry'].
    by eapply (put_back r).
  - destruct (_ <=? _).
    + destruct (localHeaderEvidence r _) as [[known|] []]; try done. destruct (bool_decide _); [|done].
      cbn [fst]. by apply (core_inv r); [apply sendPrepareOK_core|].
    + destruct (negb _); [done|]. destruct (_ || _); [by apply (core_inv r); [apply requestView_core|]|].
      by eapply extends_inv; [apply acceptPrepare_extends|].
Qed.

(** ** Leaving a view *)

Lemma forgotten_justified r heard entry : justified r heard (forgetAcks entry).
Proof. split; [by split|by intros i H0; cbn; rewrite Z.bits_0|done]. Qed.

Lemma persistView_core r install commit head headers : core (persistView r install commit head headers).1 = core r.
Proof.
  unfold persistView. destruct (_ || _); [done|]. destruct (mapM _ _); [|done].
  match goal with |- context [submit r ?o] => pose proof (submit_core r o) as Es; destruct (submit r o) as [r1 []] end; done.
Qed.

Lemma beginViewChangeNow_inv r heard target :
  placed r /\ pipeline_inv r heard -> placed (beginViewChangeNow r target) /\ pipeline_inv (beginViewChangeNow r target) heard.
Proof.
  intros [Hp [Hc Hh Hr Ha]]. unfold beginViewChangeNow.
  match goal with |- context [persistView ?x false ?c ?h ?l] =>
    pose proof (persistView_core x false c h l) as Ec; destruct (persistView x false c h l) as [r1 failed]; set (r0 := x) in * end.
  assert (placed r0 /\ pipeline_inv r0 heard) as Hi.
  { split; [done|]. assert (headers_of (forgetAcks <$> pipeline r) = headers_of (pipeline r)) as E.
    { unfold headers_of. rewrite <- list_fmap_compose. by apply list_fmap_ext. }
    split; change (pipeline r0) with (forgetAcks <$> pipeline r); [by rewrite E|by rewrite E|unfold zlen; rewrite length_fmap; done|].
    apply Forall_fmap, Forall_true. intros entry. apply forgotten_justified. }
  apply (core_inv _ _ heard Ec) in Hi. destruct failed; [|done]. by apply (core_inv r1); [apply fail_core|].
Qed.

Lemma beginViewChange_inv r heard target :
  placed r /\ pipeline_inv r heard -> placed (beginViewChange r target) /\ pipeline_inv (beginViewChange r target) heard.
Proof.
  intros Hi. unfold beginViewChange. destruct (_ || _); [done|]. destruct (_ || _); [by apply (core_inv r)|].
  by apply beginViewChangeNow_inv.
Qed.

(** ** Removing the oldest prepare *)

Lemma popPipeline_inv r heard : placed r /\ pipeline_inv r heard -> placed (popPipeline r) /\ pipeline_inv (popPipeline r) heard.
Proof.
  intros [Hp [Hc Hh Hr Ha]]. split; [done|]. unfold popPipeline. destruct (pipeline r) as [|entry rest] eqn:E.
  - split; cbn [pipeline updated tail]; [done|done|unfold zlen in *; cbn in *; lia|done].
  - split; cbn [pipeline updated tail].
    + intros k previous next. apply (Hc (Datatypes.S k)).
    + intros header Hl. apply Hh. unfold headers_of in *. cbn. destruct (pipelineEntry.header <$> rest) eqn:Er; [done|]. exact Hl.
    + rewrite zlen_cons in Hr. cbn. lia.
    + apply Forall_cons in Ha as [_ Ha]. eapply Forall_impl; [exact Ha|]. intros e. by apply justified_place.
Qed.
End invariant.
