(* ===== verification/Acknowledgements.v ===== *)
(** * What an acknowledgement promises

    A replica acknowledges a prepare only when its log holds it durably and the
    prepare's slot cannot be needed by another operation that is still wanted;
    and the primary that receives the acknowledgement counts it for exactly the
    prepare it was made for. *)

From S2P Require Import Prelude Records Bytes Arith Checksum Header Config Ewah Clock Random Timers RepairBudget.
From S2P Require Import Storage Checkpoint Superblock Wal WalRecovery Reconfiguration Replica Release ViewChange ViewReports Normal NormalSafety ReplicaSample.

Lemma getUint_u64 l a : is_u64 (uint64At l a).
Proof.
  pose proof (getUint_range (slice l a (a + 8))) as Hr.
  assert (zlen (slice l a (a + 8)) <= 8) as Hl by (unfold zlen, slice; rewrite length_take; lia).
  pose proof (zlen_nonneg (slice l a (a + 8))). split; [lia|].
  eapply Z.lt_le_trans; [apply Hr|]. apply Z.pow_le_mono_r; lia.
Qed.

Lemma sealed_command header body frame header' : sealed header body = Some (frame, header') -> Command header' = Command header.
Proof.
  unfold sealed, SealFrame. destruct (_ || _); [done|]. set (h := with_body _ _ _).
  destruct (EncodeHeader HeaderSize h) as [[encoded h']|] eqn:E; [|done]. cbn. intros [= <- <-].
  apply EncodeHeader_inv in E as (_ & _ & _ & _ & _ & _ & ->). done.
Qed.

Section acknowledgements.
Context {S : Type}.
Implicit Types r : Replica S.
Import Replica.

(** ** The window of operations *)

Definition configured r : Prop :=
  ClusterConfig.typed (cluster r) /\ exists active standby, valid_cluster (cluster r) active standby.

Lemma canAcknowledge_window r entry :
  configured r -> canAcknowledge r entry = true ->
  prepareOp (pipelineEntry.header entry) < checkpointOp r + ClusterConfig.JournalSlots (cluster r).
Proof.
  intros (Ht & active & standby & Hv) H. unfold canAcknowledge in H. destruct (_ || _); [done|].
  destruct (vc_interval _ _ _ Hv) as (interval & Ei & Hpos & _ & Hfit). destruct (vc_pipeline _ _ _ Hv) as [Hp _].
  assert (is_u64 (checkpointOp r)) as Hc by apply getUint_u64.
  assert (is_u64 (ClusterConfig.CompactionOps (cluster r))) as To by (eapply (ClusterConfig_typed _ 13); done || reflexivity).
  assert (is_u64 (ClusterConfig.PipelineMax (cluster r))) as Tp by (eapply (ClusterConfig_typed _ 2); done || reflexivity).
  assert (is_u64 interval) as Tn.
  { assert (is_u64 (ClusterConfig.JournalSlots (cluster r))) as Tj by (eapply (ClusterConfig_typed _ 5); done || reflexivity). width_lia. }
  assert (forall next bound, is_u64 next -> acknowledgeBound r next = Some bound ->
    bound = next + ClusterConfig.CompactionOps (cluster r) + ClusterConfig.PipelineMax (cluster r)) as Hb.
  { intros next bound Hn E. unfold acknowledgeBound, checkpointTrigger in E. checked_step E. by apply checkedAdd_step in E as [-> _]. }
  destruct (checkpointAfter _ _) as [next|] eqn:En; [|done].
  assert (is_u64 next /\ next <= checkpointOp r + interval) as [Hn Hle].
  { unfold checkpointAfter in En. rewrite Ei in En. cbn [mbind option_bind] in En.
    rewrite (proj2 (Z.eqb_neq interval 0)) in En by lia. destruct (Z.eqb_spec (checkpointOp r) 0) as [E0|].
    - injection En as <-. rewrite uwrap_small by width_lia. width_lia.
    - apply checkedAdd_step in En as [-> ?]; [|done..]. by split. }
  assert (forall target, is_u64 target -> target <= checkpointOp r + interval ->
    match acknowledgeBound r target with Some bound => prepareOp (pipelineEntry.header entry) <=? bound | None => false end = true ->
    prepareOp (pipelineEntry.header entry) < checkpointOp r + ClusterConfig.JournalSlots (cluster r)) as Hw.
  { intros target Htarget Hbelow E. destruct (acknowledgeBound r target) as [bound|] eqn:Eb; [|done].
    apply Hb in Eb as ->; [|done]. lia. }
  destruct (_ && _); [|by apply (Hw next)]. destruct (acknowledgeBound r (checkpointOp r)); [|done].
  destruct (_ && _); [|by apply (Hw next)]. apply (Hw (checkpointOp r)); [done|lia|exact H].
Qed.

(** ** What the replica knows of a prepare of its pipeline *)

Lemma chained_ops headers k first header :
  chained headers -> headers !! 0%nat = Some first -> is_u64 (prepareOp first) -> headers !! k = Some header ->
  prepareOp header = u64 (prepareOp first + Z.of_nat k).
Proof.
  intros Hc H0 Hu. revert header. induction k as [|k IH]; intros header Hk.
  - rewrite H0 in Hk. injection Hk as <-. rewrite uwrap_small by (by rewrite Z.add_0_r). lia.
  - destruct (headers !! k) as [previous|] eqn:Ep; [|apply lookup_ge_None in Ep; apply lookup_lt_Some in Hk; lia].
    destruct (Hc k previous header Ep Hk) as [-> _]. rewrite (IH previous eq_refl). unfold uwrap.
    rewrite Zplus_mod_idemp_l. f_equal. lia.
Qed.

Lemma chained_distinct headers i j a b :
  chained headers -> zlen headers < 2 ^ 32 -> headers !! i = Some a -> headers !! j = Some b -> prepareOp a = prepareOp b -> i = j.
Proof.
  intros Hc Hl Ha Hb E. destruct (headers !! 0%nat) as [first|] eqn:E0.
  - assert (is_u64 (prepareOp first)) as Hu by apply getUint_u64.
    rewrite (chained_ops _ i first a), (chained_ops _ j first b) in E by done.
    apply lookup_lt_Some in Ha, Hb. unfold uwrap, zlen in *. apply Nat2Z.inj.
    assert ((Z.of_nat i - Z.of_nat j) mod 2 ^ 64 = 0) as Hm.
    { replace (Z.of_nat i - Z.of_nat j) with (prepareOp first + Z.of_nat i - (prepareOp first + Z.of_nat j)) by lia.
      rewrite Zminus_mod, E, Z.sub_diag. done. }
    apply Z.mod_divide in Hm as [k Hk]; [|done]. nia.
  - apply lookup_ge_None in E0. apply lookup_lt_Some in Ha. lia.
Qed.

(** What is known of the pipeline and of the rest of the log. *)
Definition known r :=
  (config r, local r, view r, logView r, durableView r, checkpoint r, wal r,
   (fun entry => (pipelineEntry.header entry, pipelineEntry.durable entry)) <$> pipeline r).

Lemma known_evidence r r' op : known r' = known r -> localHeaderEvidence r' op = localHeaderEvidence r op.
Proof.
  intros [= Ec _ _ _ _ Ek Ew Ep]. unfold localHeaderEvidence, checkpointOp, decoded, memberCount, activeCount, membership, cluster.
  rewrite Ec, Ek, Ew.
  assert (forall p : list pipelineEntry, match list_find (fun entry => prepareOp (pipelineEntry.header entry) = op) p with
    | Some (_, entry) => Some (pipelineEntry.header entry, pipelineEntry.durable entry) | None => None end
    = snd <$> list_find (fun pair : Header * bool => prepareOp pair.1 = op)
        ((fun entry => (pipelineEntry.header entry, pipelineEntry.durable entry)) <$> p)) as H.
  { intros p. rewrite list_find_fmap. unfold compose. cbn. destruct (list_find _ p) as [[i entry]|]; done. }
  pose proof (H (pipeline r)) as H1. pose proof (H (pipeline r')) as H2. rewrite Ep, <- H1 in H2.
  destruct (list_find _ (pipeline r')) as [[i' e']|], (list_find _ (pipeline r)) as [[i e]|]; try done.
  injection H2 as -> ->. done.
Qed.

Lemma entry_evidence r heard k entry :
  pipeline_inv r heard -> pipelineCapacity r < 2 ^ 32 -> pipeline r !! k = Some entry ->
  localHeaderEvidence r (prepareOp (pipelineEntry.header entry)) = (Some (pipelineEntry.header entry), negb (pipelineEntry.durable entry)).
Proof.
  intros [Hc _ Hr _] Hcap Hk. unfold localHeaderEvidence.
  assert (forall j e, pipeline r !! j = Some e -> headers_of (pipeline r) !! j = Some (pipelineEntry.header e)) as Hh.
  { intros j e E. unfold headers_of. by rewrite list_lookup_fmap, E. }
  destruct (list_find _ _) as [[j e]|] eqn:Ef.
  - apply list_find_Some in Ef as (Hj & Ho & _).
    assert (j = k) as -> by (eapply chained_distinct; [exact Hc|unfold zlen, headers_of in *; rewrite length_fmap; lia|by apply Hh|by apply Hh|done]).
    rewrite Hk in Hj. by injection Hj as ->.
  - apply list_find_None in Ef. rewrite Forall_lookup in Ef. by destruct (Ef k entry Hk).
Qed.

(** ** Sending acknowledgements *)

(** What an acknowledgement the replica has just sent says of it. *)
Definition promise r (message : outgoing) : Prop :=
  forall to ack body, message = SendReplica to ack body -> Command ack = CommandPrepareOK ->
    to = primaryOf r (view r) /\ Author ack = local r /\ View ack = view r /\ logView r = view r /\ durableView r = view r /\
    exists prepare, prepareOKMatches ack prepare = true /\
      localHeaderEvidence r (prepareOp prepare) = (Some prepare, false) /\
      prepareOp prepare < checkpointOp r + ClusterConfig.JournalSlots (cluster r).

Lemma known_promise r r' message : known r' = known r -> promise r message -> promise r' message.
Proof.
  intros E Hp to ack body Hm Hc. destruct (Hp to ack body Hm Hc) as (Ht & Ha & Hv & Hl & Hd & prepare & Hok & Hev & Hw).
  pose proof (known_evidence r r' (prepareOp prepare) E) as Ee. injection E as Ec El Ev Elog Ed Ek _ _.
  unfold primaryOf, membership, checkpointOp, cluster in *. rewrite Ec, El, Ev, Elog, Ed, Ek. split_and!; try done.
  exists prepare. by rewrite Ee.
Qed.

Lemma sendPrepareOK_known r entry : known (sendPrepareOK r entry).1 = known r /\
  pipelineEntry.header (sendPrepareOK r entry).2 = pipelineEntry.header entry /\
  pipelineEntry.durable (sendPrepareOK r entry).2 = pipelineEntry.durable entry /\
  pipeline (sendPrepareOK r entry).1 = pipeline r.
Proof.
  unfold sendPrepareOK. destruct (negb _); [done|]. cbn [acquire].
  destruct (negb _); [unfold fail; by destruct (fatalErr _)|].
  destruct (sealed _ _) as [[frame header]|]; [done|]. unfold fail. by destruct (fatalErr _).
Qed.

(** The acknowledgement is of the entry it is sent for; [after] is a state in
    which the replica has the prepare. *)
Lemma sendPrepareOK_sent r after entry :
  configured r -> wf_header (pipelineEntry.header entry) ->
  (config after, local after, view after, logView after, durableView after, checkpoint after) =
  (config r, local r, view r, logView r, durableView r, checkpoint r) ->
  (canAcknowledge r entry = true ->
   localHeaderEvidence after (prepareOp (pipelineEntry.header entry)) = (Some (pipelineEntry.header entry), false)) ->
  exists new, sent (sendPrepareOK r entry).1 = sent r ++ new /\ Forall (promise after) new.
Proof.
  intros Hc Hw [= Ec El Ev Elog Ed Ek] Hev. unfold sendPrepareOK.
  destruct (canAcknowledge r entry) eqn:Ea; cbn [negb]; [|by exists []; rewrite app_nil_r].
  cbn [acquire]. assert (forall r0 err, sent (fail r0 err) = sent r0) as Hf by (intros r0 err; unfold fail; by destruct (fatalErr r0)).
  destruct (negb _); [exists []; cbn [fst]; by rewrite Hf, app_nil_r|].
  destruct (sealed _ _) as [[frame header]|] eqn:Es; [|exists []; cbn [fst]; by rewrite Hf, app_nil_r].
  eexists [_]. split; [reflexivity|]. apply Forall_singleton. intros to ack body [= <- <- <-] Hcmd.
  apply sealed_same in Es as (Eau & Evw & Ef). cbn [prepareOK Author View] in Eau, Evw.
  destruct (canAcknowledge_spec _ _ Ea) as (_ & Hn & _ & _). unfold normalView in Hn.
  rewrite !andb_true_iff, !Z.eqb_eq in Hn. unfold primaryOf, membership, checkpointOp, cluster. rewrite Ec, El, Ev, Elog, Ed, Ek.
  split_and!; [done..|naive_solver|naive_solver|].
  exists (pipelineEntry.header entry). split; [|split; [by apply Hev|by apply canAcknowledge_window]].
  destruct (prepareOK_fields (r {{ pool := tail (pool r) }}) entry Hw) as [Hl Hs].
  apply prepareOKMatches_spec; [by rewrite Ef|done|]. rewrite Ef. by apply Hs.
Qed.

(** A replica whose pipeline is as normal operation keeps it. *)
Record ready r (heard : list Header) : Prop := {
  rd_inv : placed r /\ pipeline_inv r heard;
  rd_config : configured r;
  rd_capacity : pipelineCapacity r < 2 ^ 32;
  rd_headers : Forall (fun entry => wf_header (pipelineEntry.header entry)) (pipeline r);
}.

Lemma ready_wf r heard k entry : ready r heard -> pipeline r !! k = Some entry -> wf_header (pipelineEntry.header entry).
Proof. intros Hr Hk. pose proof (rd_headers _ _ Hr) as H. rewrite Forall_lookup in H. by eapply H. Qed.

Lemma known_setEntry r r1 offset entry entry' :
  known r1 = known r -> pipeline r1 = pipeline r -> pipeline r !! offset = Some entry ->
  pipelineEntry.header entry' = pipelineEntry.header entry -> pipelineEntry.durable entry' = pipelineEntry.durable entry ->
  known (setEntry r1 offset entry') = known r.
Proof.
  intros E Ep Ho Eh Ed. injection E as Ec El Ev Elog Edv Ek Ew Epl. unfold known, setEntry.
  cbn [config local view logView durableView checkpoint wal pipeline updated]. rewrite Ec, El, Ev, Elog, Edv, Ek, Ew, Ep. f_equal.
  rewrite list_fmap_insert, Eh, Ed. apply list_insert_id. by rewrite list_lookup_fmap, Ho.
Qed.

Lemma acknowledge_known r entry : known (acknowledge r entry).1 = known r /\
  pipelineEntry.header (acknowledge r entry).2 = pipelineEntry.header entry /\
  pipelineEntry.durable (acknowledge r entry).2 = pipelineEntry.durable entry /\
  pipeline (acknowledge r entry).1 = pipeline r.
Proof.
  unfold acknowledge. destruct (isPrimary r); [|apply sendPrepareOK_known]. unfold countPrepareAck. by destruct (negb _).
Qed.

Lemma acknowledge_sent r after entry :
  configured r -> wf_header (pipelineEntry.header entry) ->
  (config after, local after, view after, logView after, durableView after, checkpoint after) =
  (config r, local r, view r, logView r, durableView r, checkpoint r) ->
  (canAcknowledge r entry = true ->
   localHeaderEvidence after (prepareOp (pipelineEntry.header entry)) = (Some (pipelineEntry.header entry), false)) ->
  exists new, sent (acknowledge r entry).1 = sent r ++ new /\ Forall (promise after) new.
Proof.
  unfold acknowledge. destruct (isPrimary r); [by exists []; rewrite app_nil_r|apply sendPrepareOK_sent].
Qed.

Lemma durable_evidence r heard k entry :
  ready r heard -> pipeline r !! k = Some entry -> canAcknowledge r entry = true ->
  localHeaderEvidence r (prepareOp (pipelineEntry.header entry)) = (Some (pipelineEntry.header entry), false).
Proof.
  intros [[_ Hi] _ Hcap _] Hk Hc. rewrite (entry_evidence r heard k entry Hi Hcap Hk).
  by destruct (canAcknowledge_spec _ _ Hc) as [-> _].
Qed.

Lemma acknowledgeAt_sent skip r heard offset :
  ready r heard ->
  let r' := acknowledgeAt skip r offset in
  ready r' heard /\ known r' = known r /\ exists new, sent r' = sent r ++ new /\ Forall (promise r) new.
Proof.
  intros Hr. cbn zeta. pose proof (acknowledgeAt_inv skip r heard offset (rd_inv _ _ Hr)) as Hi. revert Hi. unfold acknowledgeAt.
  assert (ready r heard /\ known r = known r /\ exists new, sent r = sent r ++ new /\ Forall (promise r) new) as Hsame
    by (split_and!; [done|done|by exists []; rewrite app_nil_r]).
  destruct (pipeline r !! offset) as [entry|] eqn:Ho; [|done]. destruct (skip entry); [done|].
  destruct (canAcknowledge r entry) eqn:Hc; [|done]. cbn [orb negb].
  destruct (acknowledge_sent r r entry (rd_config _ _ Hr) (ready_wf _ _ _ _ Hr Ho) eq_refl) as (new & Es & Hn).
  { by eapply durable_evidence. }
  destruct (acknowledge_known r entry) as (Ek & Eh & Ed & Ep). pose proof (acknowledge_core r entry) as Ec.
  destruct (acknowledge r entry) as [r1 entry1]. cbn [fst snd] in *. intros Hi.
  assert (known (setEntry r1 offset entry1) = known r) as Ek' by by eapply known_setEntry.
  split; [|split; [done|by exists new]]. injection Ek as E1 _ _ _ _ _ _ _. injection Ec as _ _ _ _ _ _ _ E2 _ _ _. split; [done|..].
  - destruct Hr as [_ Hcfg _ _]. unfold configured, cluster in *. cbn [config setEntry updated]. by rewrite E1.
  - cbn [pipelineCapacity setEntry updated]. destruct Hr. lia.
  - cbn [pipeline setEntry updated]. rewrite Ep. apply Forall_insert; [apply Hr|]. rewrite Eh. by eapply ready_wf.
Qed.

Lemma acknowledgeAll_sent skip r heard :
  ready r heard -> exists new, sent (acknowledgeAll skip r) = sent r ++ new /\ Forall (promise (acknowledgeAll skip r)) new.
Proof.
  intros Hr. unfold acknowledgeAll. generalize (seq 0 (length (pipeline r))). intros offsets.
  enough (forall new0 base, sent r = base ++ new0 -> Forall (promise r) new0 ->
    exists new, sent (fold_left (acknowledgeAt skip) offsets r) = base ++ new /\
                Forall (promise (fold_left (acknowledgeAt skip) offsets r)) new) as H.
  { apply (H [] (sent r)); [by rewrite app_nil_r|constructor]. }
  revert r Hr. induction offsets as [|offset offsets IH]; intros r Hr new0 base E Hn; [by exists new0|]. cbn [fold_left].
  destruct (acknowledgeAt_sent skip r heard offset Hr) as (Hr' & Ek & new & Es & Hnew).
  apply (IH _ Hr' (new0 ++ new)); [by rewrite Es, E, app_assoc|]. apply Forall_app.
  split; (eapply Forall_impl; [eassumption|]; intros message; by apply known_promise).
Qed.

(** The state after the append of [entry]. *)
Lemma appended_ready r heard offset entry :
  ready r heard -> pipeline r !! offset = Some entry ->
  ready (setEntry r offset (entry {{ pipelineEntry.io := noHandle; pipelineEntry.ioKind := None; pipelineEntry.durable := true }})) heard.
Proof.
  intros [Hi Hcfg Hcap Hh] Ho. split; [|done|done|].
  - eapply setEntry_inv; [done|done|done|]. apply justified_durable. eapply entry_justified; [apply Hi|done].
  - cbn [pipeline setEntry updated]. apply Forall_insert; [done|]. rewrite Forall_lookup in Hh. by apply (Hh offset entry).
Qed.

Lemma appendCompleted_sent r heard offset entry :
  ready r heard -> pipeline r !! offset = Some entry ->
  exists new, sent (appendCompleted r offset entry) = sent r ++ new /\ Forall (promise (appendCompleted r offset entry)) new.
Proof.
  intros Hr Ho. pose proof (appended_ready _ _ _ _ Hr Ho) as Hr1. unfold appendCompleted.
  set (entry1 := entry {{ pipelineEntry.io := noHandle; pipelineEntry.ioKind := None; pipelineEntry.durable := true }}) in *.
  set (r1 := setEntry r offset entry1) in *. destruct (canAcknowledge r entry1) eqn:Hc; cbn [negb]; [|by exists []; rewrite app_nil_r].
  assert (pipeline r1 !! offset = Some entry1) as Ho1.
  { unfold r1. cbn [pipeline setEntry updated]. apply list_lookup_insert_eq. by eapply lookup_lt_Some. }
  destruct (acknowledge_sent r r1 entry1 (rd_config _ _ Hr) (ready_wf _ _ _ _ Hr Ho) eq_refl) as (new & Es & Hn).
  { intros Ha. by eapply durable_evidence. }
  destruct (acknowledge_known r entry1) as (Ek & Eh & Ed & Ep). destruct (acknowledge r entry1) as [r2 entry2]. cbn [fst snd] in *.
  exists new. split; [done|]. eapply Forall_impl; [exact Hn|]. intros message. apply known_promise.
  injection Ek as E1 E2 E3 E4 E5 E6 E7 _. unfold known, r1, setEntry.
  cbn [config local view logView durableView checkpoint wal pipeline updated]. rewrite E1, E2, E3, E4, E5, E6, E7, Ep.
  by rewrite !list_fmap_insert, Eh, Ed.
Qed.

(** ** Receiving a prepare *)

(** Messages that acknowledge nothing promise nothing. *)
Definition silent r r' : Prop :=
  exists new, sent r' = sent r ++ new /\ Forall (fun message => forall to ack body, message = SendReplica to ack body ->
    Command ack <> CommandPrepareOK) new.

Lemma silent_promises r r' after : silent r r' -> exists new, sent r' = sent r ++ new /\ Forall (promise after) new.
Proof.
  intros (new & E & Hn). exists new. split; [done|]. eapply Forall_impl; [exact Hn|]. intros message Hm to ack body Em Hc.
  by destruct (Hm to ack body Em).
Qed.

Lemma silent_same r r' : sent r' = sent r -> silent r r'.
Proof. intros E. exists []. by rewrite E, app_nil_r. Qed.

Lemma sendGetView_silent r now : silent r (sendGetView r now).
Proof.
  unfold sendGetView. destruct (_ =? _); [by apply silent_same|]. destruct (_ && _); [by apply silent_same|].
  assert (sent (drawNonce r) = sent r) as En by (unfold drawNonce; by repeat case_match).
  cbn [acquire]. destruct (negb _); [by apply silent_same|]. destruct (sealed _ _) as [[frame header]|] eqn:Es; [|by apply silent_same].
  eexists [_]. split; [cbn [sent send updated]; rewrite En; reflexivity|]. apply Forall_singleton. intros to ack body [= <- <- <-].
  apply sealed_command in Es as ->. done.
Qed.

Lemma requestView_silent r target now : silent r (requestView r target now).
Proof.
  unfold requestView. destruct (_ <? _); [|apply sendGetView_silent].
  destruct (sendGetView_silent (r {{ getViewTarget := target; getViewNonce := zeros 16; getViewLast := 0 }}) now) as (new & E & Hn).
  by exists new.
Qed.

Lemma acceptPrepare_silent r frame header : sent (acceptPrepare r frame header).1 = sent r.
Proof.
  unfold acceptPrepare. destruct (_ || _); [done|]. unfold submit. destruct (default None _); [|done].
  unfold pushPipeline. destruct (_ =? _); done.
Qed.

Lemma committed_wf r op prepare negative :
  reporting r -> localHeaderEvidence r op = (Some prepare, negative) -> wf_header prepare.
Proof.
  intros Hr He. apply evidence_decoded in He as [[source Hd] _]; [|done]. unfold decoded in Hd.
  destruct (DecodeHeader _ _ _ _) as [h reason] eqn:E. destruct reason; try done. injection Hd as <-.
  apply DecodeHeader_accepts in E as [Ha ->]. apply wf_parse_header, Ha.
Qed.

Lemma reporting_signal r f : reporting r -> reporting (r {{ failureDetector ::= f }}).
Proof. intros []. by split. Qed.

Lemma ready_signal r heard f : ready r heard -> ready (r {{ failureDetector ::= f }}) heard.
Proof. intros [Hi Hc Hcap Hh]. split; [|done|done|done]. by apply (core_inv r). Qed.

Lemma handlePrepare_sent r heard frame header sample :
  ready r heard -> reporting r ->
  exists new, sent (handlePrepare r frame header sample).1 = sent r ++ new /\
    Forall (promise (handlePrepare r frame header sample).1) new.
Proof.
  intros Hr Hp. unfold handlePrepare. destruct (_ || _); [by exists []; rewrite app_nil_r|].
  match goal with |- context [pipeline ?x] => set (r0 := x) end.
  assert (ready r0 heard /\ reporting r0 /\ sent r0 = sent r) as (Hr0 & Hp0 & <-).
  { unfold r0. destruct (_ =? _); [|done]. split_and!; [by apply ready_signal|by apply reporting_signal|done]. }
  clearbody r0. destruct (list_find _ _) as [[offset entry]|] eqn:Ef.
  - apply list_find_Some in Ef as (Ho & _ & _). destruct (_ && _); [|by exists []; rewrite app_nil_r].
    destruct (sendPrepareOK_sent r0 r0 entry (rd_config _ _ Hr0) (ready_wf _ _ _ _ Hr0 Ho) eq_refl) as (new & Es & Hn).
    { by eapply durable_evidence. }
    destruct (sendPrepareOK_known r0 entry) as (Ek & Eh & Ed & Ep). destruct (sendPrepareOK r0 entry) as [r1 entry1]. cbn [fst snd] in *.
    exists new. split; [done|]. eapply Forall_impl; [exact Hn|]. intros message. apply known_promise. by eapply known_setEntry.
  - destruct (_ <=? _).
    + destruct (localHeaderEvidence r0 _) as [[known0|] []] eqn:Ee; try by exists []; rewrite app_nil_r.
      destruct (bool_decide _); [|by exists []; rewrite app_nil_r]. cbn [fst].
      destruct (evidence_decoded _ _ _ _ Hp0 Ee) as [_ Eo].
      destruct (sendPrepareOK_sent r0 r0 ((newEntry [] known0) {{ pipelineEntry.durable := true }}) (rd_config _ _ Hr0)) as (new & Es & Hn);
        [by eapply committed_wf|done|intros _; cbn; by rewrite Eo|].
      exists new. split; [done|]. eapply Forall_impl; [exact Hn|]. intros message. apply known_promise. apply sendPrepareOK_known.
    + destruct (negb _); [by exists []; rewrite app_nil_r|]. destruct (_ || _).
      * by apply silent_promises, requestView_silent.
      * exists []. by rewrite app_nil_r, acceptPrepare_silent.
Qed.

(** The calls that acknowledge prepares: the completion of an append, the scan
    of the event loop, the scan when a view is installed and a prepare that
    arrives again. *)
Inductive acknowledges r : Replica S -> Prop :=
| ack_append offset entry : pipeline r !! offset = Some entry -> acknowledges r (appendCompleted r offset entry)
| ack_durable : acknowledges r (acknowledgeDurablePrepares r)
| ack_installed : acknowledges r (acknowledgeAll (fun _ => false) r)
| ack_again frame header sample : acknowledges r (handlePrepare r frame header sample).1.


(** ** Counting acknowledgements *)

Lemma find_entry r heard k e op :
  ready r heard -> pipeline r !! k = Some e -> op = prepareOp (pipelineEntry.header e) ->
  list_find (fun entry => prepareOp (pipelineEntry.header entry) = op) (pipeline r) = Some (k, e).
Proof.
  intros Hr Hk ->. destruct (rd_inv _ _ Hr) as [_ [Hch _ Hroom _]]. pose proof (rd_capacity _ _ Hr).
  destruct (list_find _ _) as [[j e1]|] eqn:El.
  - apply list_find_Some in El as (Hj & Ho & _).
    assert (j = k) as ->; [|by rewrite Hk in Hj; injection Hj as <-].
    eapply (chained_distinct (headers_of (pipeline r))); [exact Hch|unfold zlen, headers_of in *; rewrite length_fmap; lia| | |done];
      unfold headers_of; rewrite list_lookup_fmap, ?Hj, ?Hk; reflexivity.
  - apply list_find_None in El. rewrite Forall_lookup in El. by destruct (El k e Hk).
Qed.

Lemma matches_op ack prepare : prepareOKMatches ack prepare = true -> getUint (slice (Fields ack) 96 104) = prepareOp prepare.
Proof.
  unfold prepareOKMatches. destruct (_ || _) eqn:Eg; [done|]. rewrite !orb_false_iff, !negb_false_iff, !Z.eqb_eq in Eg. naive_solver.
Qed.

(** A new acknowledgement sets its bit, and the quorum when it is reached. *)
Lemma countPrepareAck_new r heard e author :
  justified r heard e -> 0 <= author <= 15 -> Z.testbit (pipelineEntry.acks e) author = false ->
  let e' := countPrepareAck r e author in
  (forall i, 0 <= i -> Z.testbit (pipelineEntry.acks e') i = Z.testbit (pipelineEntry.acks e) i || (i =? author)) /\
  (pipelineEntry.quorum e' = true <->
   pipelineEntry.quorum e = true \/ Quorums.Replication (quorums r) <= zlen (members (pipelineEntry.acks e'))).
Proof.
  intros Hj Ha Hbit. cbn zeta. unfold countPrepareAck.
  assert (Z.land (pipelineEntry.acks e) (replicaBit author) = 0) as -> by (by apply land_join_bit).
  cbn [Z.eqb negb pipelineEntry.acks pipelineEntry.quorum updated]. split.
  - intros i Hi. rewrite Z.lor_spec, replicaBit_testbit by lia. f_equal. lia.
  - rewrite countAckBits_count by (apply lor_u16; [apply Hj|apply replicaBit_u16]). destruct (Z.leb_spec (Quorums.Replication (quorums r))
      (zlen (members (Z.lor (pipelineEntry.acks e) (replicaBit author))))); naive_solver lia.
Qed.

(** C14: an acknowledgement reaches the entry it was made for.  A backup that may
    acknowledge a prepare and has a frame sends one PrepareOK to the primary; a
    primary of the same view that has the prepare in its pipeline then counts
    the backup among those that hold it, and takes the prepare to have a quorum
    when the replication quorum is reached. *)
Theorem acknowledgement_counted r entry rest p heard k e :
  canAcknowledge r entry = true -> isPrimary r = false -> pool r = true :: rest -> wf_header (pipelineEntry.header entry) -> placed r ->
  ready p heard -> config p = config r -> view p = view r -> status p = StatusNormal -> durableView p = view p -> isPrimary p = true ->
  pipeline p !! k = Some e -> pipelineEntry.header e = pipelineEntry.header entry ->
  Z.testbit (pipelineEntry.acks e) (local r) = false ->
  exists ack e',
    sent (acknowledge r entry).1 = sent r ++ [SendReplica (primaryOf r (view r)) ack []] /\
    pipeline (handlePrepareOK p ack) = <[k := e']> (pipeline p) /\
    (forall i, 0 <= i -> Z.testbit (pipelineEntry.acks e') i = Z.testbit (pipelineEntry.acks e) i || (i =? local r)) /\
    (pipelineEntry.quorum e' = true <->
     pipelineEntry.quorum e = true \/ Quorums.Replication (quorums p) <= zlen (members (pipelineEntry.acks e'))).
Proof.
  intros Hc Hpr Hpool Hw [Hl0 Hl16] Hr Ecfg Ev Hs Hd Hpp Hk Eh Hbit.
  destruct (canAcknowledge_spec _ _ Hc) as (_ & _ & _ & Hlocal).
  destruct (sealed_some (prepareOK (r {{ pool := tail (pool r) }}) entry) []) as (frame & ack & Es); [done..|].
  unfold acknowledge, sendPrepareOK. rewrite Hpr, Hc. cbn [negb acquire]. rewrite Hpool in *. cbn [head default id negb tail] in *.
  rewrite Es. cbn [fst].
  destruct (prepareOK_fields (r {{ pool := rest }}) entry Hw) as [Hf Hsame].
  apply sealed_same in Es as (Eau & Evw & Ef). cbn [prepareOK Author View] in Eau, Evw.
  assert (prepareOKMatches ack (pipelineEntry.header e) = true) as Hm.
  { rewrite Eh. apply prepareOKMatches_spec; [by rewrite Ef|done|]. rewrite Ef. by apply Hsame. }
  exists ack, (countPrepareAck p e (local r)). split; [done|].
  split; [|eapply countPrepareAck_new; [eapply entry_justified; [apply (rd_inv _ _ Hr)|done]|lia|done]].
  unfold handlePrepareOK. rewrite Hs, Hd, Hpp, bool_decide_true, Evw, Ev, !Z.eqb_refl, Eau by done. cbn [negb orb view updated].
  assert (activeCount p = activeCount r) as Ea by (unfold activeCount, membership; by rewrite Ecfg).
  rewrite (proj2 (Z.leb_gt _ _)) by (cbn; lia). rewrite (find_entry p heard k e) by (done || by apply matches_op).
  rewrite Hm. cbn [negb setEntry pipeline updated]. done.
Qed.
End acknowledgements.

(** ** Witnesses *)

(** A replica that has appended operation 1 in view 0; replica 0 is the primary. *)
Definition appended (local : Z) : Replica unit :=
  (replica_at local 0 StatusNormal 1 (HeaderChecksum first_header) [durable_first]) {{ Replica.lastPrepareTimestamp := 1 }}.

Lemma appended_configured local : configured (appended local).
Proof.
  split; [exact DefaultClusterConfig_typed|]. exists 3, 0. apply cluster_Validate_sound; [exact DefaultClusterConfig_typed|by split..|].
  vm_compute. reflexivity.
Qed.

Lemma wf_first_header : wf_header first_header.
Proof. split; vm_compute; try split; reflexivity || discriminate. Qed.

Lemma appended_placed local : 0 <= local -> placed (appended local).
Proof. by split. Qed.

Lemma appended_ready_first local : 0 <= local -> ready (appended local) [].
Proof.
  intros Hl. split; [|apply appended_configured|done|by constructor; [exact wf_first_header|constructor]].
  split; [by apply appended_placed|]. split.
  - intros k previous next _ Hn. by destruct k.
  - intros header. cbn. intros [= <-]. vm_compute. done.
  - done.
  - constructor; [|constructor]. split; [by split|by intros i Hi; rewrite Z.bits_0|done].
Qed.

Lemma appended_reporting local : reporting (appended local).
Proof.
  split; [vm_compute; by repeat split..| | |].
  - constructor; [|constructor]. exists (slice first_frame 0 256). vm_compute. reflexivity.
  - by repeat split.
  - intros op h negative. unfold JoinEvidence, slotOf, slotAt. cbn. by case_match.
Qed.


Lemma acknowledgement_counted_witness :
  exists ack e', Replica.pipeline (handlePrepareOK (appended 0) ack) = [e'] /\ Z.testbit (pipelineEntry.acks e') 1 = true.
Proof.
  destruct (acknowledgement_counted (appended 1) durable_first [true; true; true] (appended 0) [] 0 durable_first)
    as (ack & e' & _ & Ep & Hb & _); [vm_compute; reflexivity|vm_compute; reflexivity|reflexivity|exact wf_first_header|
      by apply appended_placed|by apply appended_ready_first|reflexivity|reflexivity|reflexivity|reflexivity|vm_compute; reflexivity|
      reflexivity|reflexivity|reflexivity|].
  exists ack, e'. split; [exact Ep|]. rewrite Hb by lia. reflexivity.
Defined.
