(* ===== verification/Requests.v ===== *)
(** * Client requests

    What a replica does with a request, [src/replication/replica_normal.go]:
    the session table decides whether it is new; the reply to a request that
    has been executed is sent again, a client without a session or with an
    unsupported release is evicted, and a new request becomes a prepare or
    waits in the queue. *)

From S2P Require Import Prelude Records Bytes Arith Checksum Header Config Ewah Clock Random Timers RepairBudget Reconfiguration.
From S2P Require Import Sessions Storage Checkpoint Superblock Wal WalRecovery Replica Release ViewChange StateMachine Normal.

Definition validClientOperation (operation : Z) : bool :=
  (operation =? OperationRegister) || (operation =? OperationNoop) || (operation =? OperationReconfigure)
  || (OperationApplicationMin <=? operation).

Definition validClientBody (operation : Z) (body : list byte) : bool :=
  if operation =? OperationRegister then ((zlen body =? 0) || (zlen body =? 256)) && zeroBytes body else
  if operation =? OperationNoop then zlen body =? 0 else
  if operation =? OperationReconfigure then (zlen body =? 256) && (getUint (slice body 252 256) =? 0) else
  OperationApplicationMin <=? operation.

(** The eviction a refused body leads to. *)
Definition validationEviction (result : ValidationResult) : option Z :=
  match result with
  | ValidationOK => None
  | ValidationInvalidOperation => Some EvictionInvalidOperation
  | ValidationInvalidBody => Some EvictionInvalidBody
  | ValidationInvalidBodySize => Some EvictionInvalidBodySize
  end.

Section requests.
Context {S M : Type} `{StateMachine M}.
Implicit Types r : Replica S.
Import Replica.

(** ** Answers *)

(** A header-only message of this replica, unsealed. *)
Definition answerHeader r (command : Z) (fields : list (Z * list byte)) : Header :=
  mkHeader (zeros 16) (zeros 16) (Config.Group (config r)) 0 0 (logView r) (Config.CurrentRelease (config r)) ProtocolVersion
    command (local r) (write_fields (zeros CommandFieldsSize) fields).

Definition answer r (client : list byte) (header : Header) : Replica S :=
  let '(r, acquired) := acquire r in
  if negb acquired then r else
  match sealed header [] with
  | Some (_, header) => send r (SendClient client header [])
  | None => r
  end.

Definition sendEviction r (client : list byte) (reason : Z) : Replica S :=
  answer r client (answerHeader r CommandEviction [(0, client); (127, putUint 1 reason)]).

Definition handleClientPing r (ping : Header) : Replica S :=
  answer r (slice (Fields ping) 0 16) (answerHeader r CommandClientPong [(0, slice (Fields ping) 16 24)]).

(** The reply is sent as of the view in which the log was last normal. *)
Definition currentReply r (header : Header) : Header :=
  mkHeader (HeaderChecksum header) (BodyChecksum header) (Group header) (Size header) (Epoch header) (logView r)
    (Header.Release header) (Protocol header) (Command header) (primaryOf r (logView r)) (Fields header).

Definition sendHeaderOnlyCachedReply r (client : list byte) (header : Header) : Replica S :=
  answer r client (currentReply r header).

(** A reply with a body is read from storage first, if a read is free. *)
Definition sendCachedReply r (client : list byte) (session request : Z) : Replica S :=
  match ReplyOf (sessions r) client session request with
  | None => r
  | Some (header, slot) =>
      if Size header =? HeaderSize then sendHeaderOnlyCachedReply r client header else
      match list_find (fun read => read = None) (duplicateReads r) with
      | None => r
      | Some (index, _) =>
          match submit r (ReadReply slot header) with
          | (r, None) => r
          | (r, Some handle) => r {{ duplicateReads := <[index := Some (duplicateRead.mk handle header client)]> (duplicateReads r) }}
          end
      end
  end.

(** ** Admission *)

(** A request that is refused before it is looked at, and whether the client is
    told. *)
Definition invalidRequestEviction r (header : Header) (body : list byte) : Replica S * option Z :=
  if negb (Command header =? CommandRequest) || negb (Author header =? 0) || (view r <? View header) then (r, None) else
  if negb (bool_decide (status r = StatusNormal)) || negb (durableView r =? view r) then (r, None) else
  let '(r, unsynchronized) :=
    if 1 <? activeCount r then let '(r, now) := clockNow r in (r, negb (TimeSample.Synchronized now)) else (r, false) in
  if unsynchronized then (r, None) else
  let fields := Fields header in
  if negb (zeroBytes (slice fields 16 32)) || negb (zeroBytes (slice fields 69 72)) || negb (zeroBytes (slice fields 76 128))
     || isZeroID (requestClient header) then (r, None) else
  let operation := requestOperation header in
  let session := requestSession header in
  let request := requestNumber header in
  let malformed :=
    if operation =? OperationRegister
    then negb (zeroBytes (slice fields 0 16)) || negb (session =? 0) || negb (request =? 0)
    else (session =? 0) || (request =? 0) in
  if malformed then (r, None) else
  (r, if Header.Release header <? Config.ClientReleaseMin (config r) then Some EvictionClientReleaseTooLow else
      if Config.CurrentRelease (config r) <? Header.Release header then Some EvictionClientReleaseTooHigh else
      if negb (validClientOperation operation) then Some EvictionInvalidOperation else
      if u32 (ClusterConfig.ApplicationBatchSizeMax (cluster r)) <? u32 (zlen body) then Some EvictionInvalidBodySize else
      if negb (validClientBody operation body) then Some EvictionInvalidBody else None).

Definition queueRequest r (frame : list byte) (sample : TimeSample) : Replica S * bool :=
  if zlen (requestQueue r) =? requestCapacity r then (r, false)
  else (r {{ requestQueue := requestQueue r ++ [(frame, sample)] }}, true).

Definition decodedFrame r (frame : list byte) : option (Header * list byte) :=
  match DecodeFrame frame (Config.Group (config r)) (u32 (ClusterConfig.MessageSizeMax (cluster r))) (memberCount r) with
  | (header, body, RejectNone) => Some (header, body)
  | _ => None
  end.

(** A request of the client with that number is in the pipeline or queued. *)
Definition pipelineConflict r (client : list byte) (request : Z) : bool :=
  existsb (fun entry => let header := pipelineEntry.header entry in
    bool_decide (prepareClient header = client) && (prepareRequest header =? request)) (pipeline r)
  || existsb (fun queued : list byte * TimeSample =>
       match decodedFrame r queued.1 with
       | Some (header, _) => bool_decide (requestClient header = client) && (requestNumber header =? request)
       | None => false
       end) (requestQueue r).

(** What the session table says of the request: [inr tt] admits it, [inl] is
    the state after it has been answered or dropped. *)
Definition admitSession r (header : Header) : Replica S + unit :=
  let client := requestClient header in
  let session := requestSession header in
  let request := requestNumber header in
  if requestOperation header =? OperationRegister then
    match SessionOf (sessions r) client with
    | None => inr tt
    | Some session =>
        match ReplyOf (sessions r) client session 0 with
        | Some (cached, _) =>
            inl (if bool_decide (replyRequestChecksum cached = HeaderChecksum header) then sendCachedReply r client session 0 else r)
        | None => inl r
        end
    end
  else
    match Decide (sessions r)
            (SessionRequest.mk client session request (Header.Release header) (HeaderChecksum header) (requestParent header)) with
    | SessionDuplicate => inl (sendCachedReply r client session request)
    | SessionClientFork => inl r
    | SessionNoSession => inl (if commitMin r <? session then r else sendEviction r client EvictionNoSession)
    | SessionTooLow => inl (sendEviction r client EvictionSessionTooLow)
    | SessionReleaseMismatch => inl (sendEviction r client EvictionSessionReleaseMismatch)
    | SessionAdmit => inr tt
    | SessionDrop | SessionBehind => inl r
    end.

(** An admitted request becomes a prepare, or waits: registrations may evict
    sessions, so nothing is prepared while one is in the pipeline. *)
Definition prepareRequestNow r (frame : list byte) (header : Header) (body : list byte) (sample : TimeSample) : Replica S * bool :=
  if negb (isPrimary r) then (r, false) else
  if pipelineConflict r (requestClient header) (requestNumber header) then (r, false) else
  if negb (requestOperation header =? OperationRegister)
     && existsb (fun entry => prepareOperation (pipelineEntry.header entry) =? OperationRegister) (pipeline r)
  then queueRequest r frame sample else
  if zlen (pipeline r) =? pipelineCapacity r then queueRequest r frame sample else
  match createPrepare r header body sample with
  | (r, None) => (r, false)
  | (r, Some ErrFramePoolEmpty) => queueRequest r frame sample
  | (r, Some err) => (fail r err, false)
  end.

(** Whether the frame is kept. *)
Definition handleRequest r (m : M) (frame : list byte) (header : Header) (body : list byte) (sample : TimeSample) : Replica S * bool :=
  if negb (bool_decide (status r = StatusNormal)) || negb (durableView r =? view r) then (r, false) else
  if view r <? View header then (r, false) else
  if (1 <? activeCount r) && negb (TimeSample.Synchronized sample) then (r, false) else
  if Header.Release header <? Config.ClientReleaseMin (config r)
  then (sendEviction r (requestClient header) EvictionClientReleaseTooLow, false) else
  match admitSession r header with
  | inl r => (r, false)
  | inr _ =>
      if negb (upgradeTarget r =? 0) then (r, false) else
      let operation := requestOperation header in
      let refused := if OperationApplicationMin <=? operation then validationEviction (Validate m operation body) else None in
      match refused with
      | Some reason => (sendEviction r (requestClient header) reason, false)
      | None => prepareRequestNow r frame header body sample
      end
  end.

Definition dequeueRequest r (m : M) : Replica S :=
  match requestQueue r with
  | [] => r
  | (frame, sample) :: rest =>
      if zlen (pipeline r) =? pipelineCapacity r then r else
      let r := r {{ requestQueue := rest }} in
      match decodedFrame r frame with
      | Some (header, body) => (handleRequest r m frame header body sample).1
      | None => r
      end
  end.
End requests.
