(* ===== verification/ReplicaCheckpoint.v ===== *)
(** * The checkpoint of a replica

    What [src/replication/replica_checkpoint.go] makes of the blocks a
    checkpoint has written: the checkpoint state that refers to them, which
    follows the current one, and the superblock that makes it durable. *)

From S2P Require Import Prelude Records Bytes Arith Checksum Header Config Ewah Clock Random Timers RepairBudget.
From S2P Require Import Storage Checkpoint Superblock Wal WalRecovery BlockAllocator Replica Release.

Module BlockReference.
Record t := mk { Checksum : list byte; Address : Z }.

Definition zero : t := mk (zeros 16) 0.
End BlockReference.
Abbreviation BlockReference := BlockReference.t.

#[export] Instance BlockReference_eq_dec : EqDecision BlockReference.
Proof. solve_decision. Defined.

Module CheckpointManifest.
Record t := mk {
  Oldest : BlockReference;
  Newest : BlockReference;
  Root : BlockReference;
  BlockCount : Z;
}.
End CheckpointManifest.
Abbreviation CheckpointManifest := CheckpointManifest.t.

(** The fields a checkpoint takes from a trailer. *)
Module TrailerReference.
Record t := mk { Last : BlockReference; Aggregate : list byte; EncodedSize : Z }.
End TrailerReference.
Abbreviation TrailerReference := TrailerReference.t.

(** The blocks of a checkpoint: its candidate and the trailers written. *)
Module checkpointBlocks.
Record t {B : Type} := mk {
  allocator : BlockAllocator B;
  candidate : BlockCheckpointCandidate;
  acquired : TrailerReference;
  released : TrailerReference;
  sessions : TrailerReference;
}.
Arguments t : clear implicits.
End checkpointBlocks.
Abbreviation checkpointBlocks := checkpointBlocks.t.

Section checkpoint.
Context {S B : Type}.
Implicit Types r : Replica S.
Implicit Types blocks : checkpointBlocks B.
Import Replica.

Definition checkpointReferenceValid blocks (reference : BlockReference) : bool :=
  match index (checkpointBlocks.allocator blocks) (BlockReference.Address reference) with
  | None => false
  | Some index =>
      let candidate := checkpointBlocks.candidate blocks in
      negb (IsZero16 (BlockReference.Checksum reference)) && (index <? BlockCheckpointCandidate.blockCount candidate)
      && Test (BlockCheckpointCandidate.reachable candidate) index
  end.

Definition manifestValid blocks (manifest : CheckpointManifest) : bool :=
  (if CheckpointManifest.BlockCount manifest =? 0
   then bool_decide (CheckpointManifest.Oldest manifest = BlockReference.zero)
        && bool_decide (CheckpointManifest.Newest manifest = BlockReference.zero)
   else checkpointReferenceValid blocks (CheckpointManifest.Oldest manifest)
        && checkpointReferenceValid blocks (CheckpointManifest.Newest manifest))
  && (bool_decide (CheckpointManifest.Root manifest = BlockReference.zero)
      || checkpointReferenceValid blocks (CheckpointManifest.Root manifest)).

Definition checkpointValidation r : CheckpointValidation :=
  CheckpointValidation.mk (Config.Group (config r)) (u32 (ClusterConfig.MessageSizeMax (cluster r))) (memberCount r)
    (default 0 (BlockBase (cluster r))) (ClusterConfig.BlockSize (cluster r)) (ClusterConfig.ClientsMax (cluster r)).

(** [None] is any of the errors. *)
Definition buildCheckpointState r blocks (manifest : CheckpointManifest) : option CheckpointState :=
  header ← RecoveredHeader (wal r) (checkpointTarget r);
  encodedHeader ← match EncodeHeader HeaderSize header with Ok (bytes, _) => Some bytes | Err _ => None end;
  if negb (manifestValid blocks manifest) then None else
  size ← checkedMul (BlockCheckpointCandidate.blockCount (checkpointBlocks.candidate blocks)) (ClusterConfig.BlockSize (cluster r));
  base ← BlockBase (cluster r);
  logical ← checkedAdd base size;
  let acquired := checkpointBlocks.acquired blocks in
  let released := checkpointBlocks.released blocks in
  let sessions := checkpointBlocks.sessions blocks in
  let checksum trailer := BlockReference.Checksum (TrailerReference.Last trailer) in
  let address trailer := BlockReference.Address (TrailerReference.Last trailer) in
  let oldest := CheckpointManifest.Oldest manifest in
  let newest := CheckpointManifest.Newest manifest in
  let root := CheckpointManifest.Root manifest in
  let state := CheckpointState.mk encodedHeader (checksum acquired) (checksum released) (checksum sessions)
    (BlockReference.Checksum oldest) (BlockReference.Checksum newest) (BlockReference.Checksum root)
    (TrailerReference.Aggregate acquired) (TrailerReference.Aggregate released) (TrailerReference.Aggregate sessions)
    (checkpointID r) (CheckpointState.ParentID (checkpoint r))
    (address acquired) (address released) (address sessions)
    (BlockReference.Address oldest) (BlockReference.Address newest) (BlockReference.Address root) logical
    (TrailerReference.EncodedSize acquired) (TrailerReference.EncodedSize released) (TrailerReference.EncodedSize sessions)
    (CheckpointManifest.BlockCount manifest) (checkpointTargetRelease r) in
  match CheckpointCheck.Validate state (checkpointValidation r) with Ok _ => Some state | Err _ => None end.

(** The superblock with the checkpoint. *)
Definition checkpointSuperblock r (checkpoint : CheckpointState) : Superblock.t :=
  let current := superblock r in
  let state := Superblock.State current in
  let state := DurableReplicaState.mk checkpoint (DurableReplicaState.LocalMember state) (DurableReplicaState.Members state)
    (commitMax r) (if syncRangeRepaired r then 0 else DurableReplicaState.SyncMin state)
    (if syncRangeRepaired r then 0 else DurableReplicaState.SyncMax state) (DurableReplicaState.LogView state)
    (DurableReplicaState.View state) (DurableReplicaState.ActiveCount state) (DurableReplicaState.StandbyCount state) in
  Superblock.mk (Superblock.Checksum current) (Superblock.FormatVersion current) (Superblock.Release current)
    (u64 (Superblock.Sequence current + 1)) (Superblock.Group current) (Superblock.Checksum current) state
    (Superblock.ViewHeaderCount current) (Superblock.ConfigurationChecksum current) (Superblock.ProtocolVersion current)
    (Superblock.ViewHeaders current).

Definition checkpointTransitionActive r : bool :=
  existsb (fun entry => let stage := stage_number (pipelineEntry.stage entry) in
    (stage_number CommitStageCompact <=? stage) && (stage <=? stage_number CommitStageCheckpointSuperblock)) (pipeline r).
End checkpoint.
