(* ===== verification/Commit.v ===== *)
(** * Committing

    The commit of the oldest prepare of the pipeline,
    [src/replication/replica_normal.go] and the stages between execution and
    the checkpoint of [src/replication/replica_checkpoint.go].  A prepare that
    is durable and has a quorum is prefetched and executed by the state machine,
    its reply is stored and recorded in the session table and sent, and then
    the state machine compacts; at the operation of the next checkpoint the
    sessions are encoded, and at its trigger the checkpoint is begun.  The next
    prepare follows within the same call when nothing has to be waited for, so
    the functions here call each other; [advanceCommit] bounds the depth by
    fuel and [None] is a call that has run out of it, or a failed assertion of
    the repair budget.

    Whether the calls that change the blocks of a checkpoint succeed is taken
    from the list [answers] of the state.  A checkpoint that the state machine
    has taken at once, and one it reports later, are both a later event. *)

From S2P Require Import Prelude Records Bytes Arith Checksum Header Config Ewah Clock Random Timers RepairBudget Reconfiguration.
From S2P Require Import Sessions Storage Checkpoint Superblock Wal WalRecovery BlockAllocator Replica ReplicaCheckpoint Release ViewChange StateMachine Normal Requests.

(** The replica with its state machine. *)
Module node.
Record t {S M : Type} := mk { replica : Replica S; machine : M; answers : list bool }.
Arguments t : clear implicits.
Arguments mk {S M} _ _ _.
End node.
Abbreviation node := node.t.

Section commit.
Context {S M B : Type} `{StateMachine M}.
Implicit Types r : Replica S.
Implicit Types n : node S M.
Import Replica.

(** ** Access *)

Definition failing n (err : replica_error) : node S M := n {{ node.replica ::= fun r => fail r err }}.

(** The entry being committed is the oldest of the pipeline. *)
Definition setFirst n (entry : pipelineEntry) : node S M := n {{ node.replica ::= fun r => setEntry r 0 entry }}.

Definition answered n : node S M * bool := (n {{ node.answers ::= tail }}, default false (head (node.answers n))).

Definition atStage (entry : pipelineEntry) (stage : CommitStage) : pipelineEntry := entry {{ pipelineEntry.stage := stage }}.

(** ** The repair window *)

Definition sendGetHeadersRange r (peer from to : Z) : Replica S :=
  let '(r, acquired) := acquire r in
  if negb acquired then r else
  let header := mkHeader (zeros 16) (zeros 16) (Config.Group (config r)) 0 0 0 0 ProtocolVersion CommandGetHeaders (local r)
    (write_fields (zeros CommandFieldsSize) [(0, putUint 8 from); (8, putUint 8 to)]) in
  match sealed header [] with
  | Some (_, header) => send r (SendReplica peer header [])
  | None => r
  end.

Definition requestRepairWindowHeaders r (now : Z) : Replica S :=
  if negb (repairHeadersLast r =? 0)
     && (elapsedSince (repairHeadersLast r) now <? u64 (ProcessConfig.InitialRTT (Config.Process (config r)))) then r else
  let r := sendGetHeadersRange r (primaryOf r (recoveringView.view (repairView r))) (u64 (commitMin r + 1))
    (recoveringView.head (repairView r)) in
  r {{ repairHeadersLast := now }}.

(** The replica has learnt commits it has no prepares for and asks for the
    headers of the next ones; [None]: an assertion of the repair budget fails. *)
Definition beginRepairWindow r (view commit : Z) : option (Replica S * bool) :=
  match checkedAdd (commitMin r) (pipelineCapacity r) with
  | None => Some (fail r ErrReplicaInvariant, false)
  | Some limit =>
      let windowHead := Z.min commit limit in
      if windowHead <=? commitMin r then Some (r, false) else
      budget ← journalRepairBudget.Reset (repairBudget r);
      let r := r {{ repairFrames := (fun _ => None) <$> repairFrames r;
                    canonicalHeaders := (fun _ => zeroHeader) <$> canonicalHeaders r;
                    repairBudget := budget;
                    repairHeader := None;
                    status := StatusRecoveringHead;
                    repairView := recoveringView.mk true view windowHead windowHead (commitMin r) false true 0;
                    commitMax := Z.max (commitMax r) commit;
                    repairHeadersLast := 0 }} in
      let '(r, now) := clockNow r in
      Some (requestRepairWindowHeaders r (TimeSample.Monotonic now), true)
  end.

(** ** After execution *)

Definition completeCommitEntry (advance : node S M -> option (node S M)) n : option (node S M) :=
  let n := n {{ node.replica ::= popPipeline }} in
  let r := node.replica n in
  if syncIdle r && (zlen (pipeline r) =? 0) && bool_decide (status r = StatusNormal) && (commitMin r <? commitMax r) then
    '(r, began) ← beginRepairWindow r (view r) (commitMax r);
    let n := n {{ node.replica := r }} in
    Some (if negb began then failing n ErrReplicaInvariant else n)
  else if syncIdle r then advance (n {{ node.replica := dequeueRequest r (node.machine n) }})
  else Some n.

Definition zeroCheckpoint : CheckpointState :=
  CheckpointState.mk (zeros HeaderSize) (zeros 16) (zeros 16) (zeros 16) (zeros 16) (zeros 16) (zeros 16) (zeros 16) (zeros 16) (zeros 16)
    (zeros 16) (zeros 16) 0 0 0 0 0 0 0 0 0 0 0 0.

(** The replica gives the checkpoint up for the view change that waits.  Its
    candidate, of which there is none before the state machine has taken the
    checkpoint, is not part of this state. *)
Definition yieldCheckpointToView (advance : node S M -> option (node S M)) n (entry : pipelineEntry) : option (node S M) :=
  let target := pendingView (node.replica n) in
  let n := n {{ node.replica ::= fun r => r {{ pendingView := 0 }} }} in
  let '(n, aborted) := answered n in
  if negb aborted then Some (failing n InvalidCheckpoint) else
  let n := n {{ node.replica ::= fun r => r {{ checkpointTarget := 0; checkpointTargetRelease := 0; pendingCheckpoint := zeroCheckpoint }} }} in
  let n := setFirst n (atStage entry CommitStageIdle) in
  completeCommitEntry advance (n {{ node.replica ::= fun r => beginViewChangeNow r target }}).

(** The sessions as of the operation just committed. *)
Definition captureSessions r (target : Z) : option (Replica S) :=
  match EncodeTrailer (sessions r) (checkpointSession r) with
  | Err _ => None
  | Ok (encoded, _) => Some (r {{ checkpointSession := encoded; checkpointSessionOp := target }})
  end.

(** The first answer is whether the transaction of the checkpoint's blocks has
    begun, the second whether the state machine has started the checkpoint and
    the transaction is sealed. *)
Definition afterCompact (advance : node S M -> option (node S M)) n (entry : pipelineEntry) : option (node S M) :=
  let r := node.replica n in
  if view r <? pendingView r then yieldCheckpointToView advance n entry else
  let op := prepareOp (pipelineEntry.header entry) in
  match checkpointAfter (cluster r) (checkpointOp r) with
  | None => Some (failing n ErrReplicaInvariant)
  | Some target =>
      match (if op =? target then captureSessions r target else Some r) with
      | None => Some (failing n ErrSession)
      | Some r =>
          let n := n {{ node.replica := r }} in
          match checkpointTrigger (cluster r) target with
          | None => Some (failing n ErrReplicaInvariant)
          | Some trigger =>
              if negb (op =? trigger) then completeCommitEntry advance n else
              if negb (checkpointSessionOp r =? target) then Some (failing n ErrReplicaInvariant) else
              let n := n {{ node.replica := r {{ checkpointTarget := target; checkpointTargetRelease := checkpointRelease r target }} }} in
              let '(n, begun) := answered n in
              if negb begun then Some (failing n InvalidCheckpoint) else
              let '(n, started) := answered (setFirst n (atStage entry CommitStageCheckpointData)) in
              Some (if started then n else failing n ErrStateMachine)
          end
      end
  end.

Definition applyCompact (advance : node S M -> option (node S M)) n (entry : pipelineEntry) : option (node S M) :=
  if negb (bool_decide (pipelineEntry.stage entry = CommitStageCompact)) then Some (failing n ErrReplicaInvariant)
  else afterCompact advance n entry.

(** [blocks] is what committing, resolving and writing the blocks of the
    checkpoint leaves, when all of it succeeds. *)
Definition applyCheckpoint (advance : node S M -> option (node S M)) n (entry : pipelineEntry) (manifest : CheckpointManifest)
    (blocks : option (checkpointBlocks B)) : option (node S M) :=
  let r := node.replica n in
  if view r <? pendingView r then yieldCheckpointToView advance n entry else
  if negb (bool_decide (pipelineEntry.stage entry = CommitStageCheckpointData)) || (checkpointTarget r =? 0)
  then Some (failing n ErrReplicaInvariant) else
  match blocks with
  | None => Some (failing n InvalidCheckpoint)
  | Some blocks =>
      match buildCheckpointState r blocks manifest with
      | None => Some (failing n InvalidCheckpoint)
      | Some checkpoint =>
          match submit r (PersistSuperblock (checkpointSuperblock r checkpoint)) with
          | (r, None) => Some (failing (n {{ node.replica := r }}) ErrIO)
          | (r, Some handle) =>
              Some (setFirst (n {{ node.replica := r {{ pendingCheckpoint := checkpoint }} }})
                ((atStage entry CommitStageCheckpointSuperblock)
                   {{ pipelineEntry.io := handle; pipelineEntry.ioKind := Some IOSuperblockPersist }}))
          end
      end
  end.

Definition beginReleaseActivation n (target : Z) : node S M :=
  let r := node.replica n in
  if negb (releaseActivation r =? 0) || (target =? Config.CurrentRelease (config r)) then failing n ErrReplicaInvariant else
  let '(machine, result) := StartReset (node.machine n) in
  let n := n {{ node.replica := r {{ releaseActivation := target }}; node.machine := machine }} in
  match result with
  | Err _ => failing n ErrStateMachine
  | Ok (Ready _) => n {{ node.replica ::= fun r => r {{ releaseResetDone := true }} }}
  | Ok Pending => n
  end.

(** The first answer is whether a repair still writes blocks, the second
    whether the allocator accepts the checkpoint and the third whether its
    trailers are catalogued. *)
Definition finishCheckpointPersistence (advance : node S M -> option (node S M)) n (entry : pipelineEntry) : option (node S M) :=
  if negb (bool_decide (pipelineEntry.stage entry = CommitStageCheckpointSuperblock)) then Some (failing n ErrReplicaInvariant) else
  let '(n, repairing) := answered n in
  let n := n {{ node.replica ::= fun r => r {{ checkpointRepairDrain := repairing }} }} in
  if repairing then Some n else
  let '(n, accepted) := answered n in
  if negb accepted then Some (failing n InvalidCheckpoint) else
  let r := node.replica n in
  let n := n {{ node.replica := r {{ checkpoint := pendingCheckpoint r }} }} in
  let targetRelease := CheckpointState.Release (pendingCheckpoint r) in
  match CheckpointCheck.ID (pendingCheckpoint r) with
  | Err _ => Some (failing n ErrEncoding)
  | Ok id =>
      let n := n {{ node.replica ::= fun r => r {{ checkpointID := id }} }} in
      let '(n, catalogued) := answered n in
      if negb catalogued then Some (failing n InvalidCheckpoint) else
      let r := (node.replica n) {{ checkpointSessionOp := 0 }} in
      let n := n {{ node.replica := r }} in
      match checkpointAfter (cluster r) (checkpointOp r) with
      | None => Some (failing n ErrReplicaInvariant)
      | Some next =>
          match (if prepareOp (pipelineEntry.header entry) =? next then captureSessions r next else Some r) with
          | None => Some (failing n ErrSession)
          | Some r =>
              let r := r {{ checkpointTarget := 0; checkpointTargetRelease := 0; pendingCheckpoint := zeroCheckpoint;
                            upgradeWindow := upgradeWindow.zero; syncRangeRepaired := false }} in
              let n := n {{ node.replica := r }} in
              if negb (targetRelease =? Config.CurrentRelease (config r))
              then Some (beginReleaseActivation (n {{ node.replica ::= popPipeline }}) targetRelease) else
              let n := if view r <? pendingView r
                then n {{ node.replica := beginViewChangeNow (r {{ pendingView := 0 }}) (pendingView r) }} else n in
              completeCommitEntry advance n
          end
      end
  end.

(** A checkpoint that waited for the repairs to end. *)
Definition finishCheckpointRepairDrain (advance : node S M -> option (node S M)) n : option (node S M) :=
  if negb (checkpointRepairDrain (node.replica n)) then Some n else
  let '(n, repairing) := answered n in
  if repairing || bool_decide (is_Some (fatalErr (node.replica n))) then Some n else
  match pipeline (node.replica n) with
  | [] => Some (failing n ErrReplicaInvariant)
  | entry :: _ => finishCheckpointPersistence advance n entry
  end.

Definition continueCommitMaintenance (advance : node S M -> option (node S M)) n (entry : pipelineEntry) : option (node S M) :=
  let op := prepareOp (pipelineEntry.header entry) in
  let entry := atStage entry CommitStageCheckpointDurable in
  let n := setFirst n entry in
  if negb (u64 (op + 1) mod ClusterConfig.CompactionOps (cluster (node.replica n)) =? 0) then afterCompact advance n entry else
  let entry := atStage entry CommitStageCompact in
  let n := setFirst n entry in
  let '(machine, result) := StartCompact (node.machine n) op (prepareTimestamp (pipelineEntry.header entry)) in
  let n := n {{ node.machine := machine }} in
  match result with
  | Err _ => Some (failing n ErrStateMachine)
  | Ok (Ready _) => applyCompact advance n entry
  | Ok Pending => Some n
  end.

(** ** Replies *)

Definition sendReply r (entry : pipelineEntry) (body : list byte) : Replica S :=
  let header := pipelineEntry.header entry in
  let primary := primaryOf r (View header) in
  if (local r =? primary)
     || ((1 <? activeCount r) && (local r =? replyBackup (prepareOp header) primary (activeCount r)))
  then send r (SendClient (prepareClient header) (pipelineEntry.replyHeader entry) body) else r.

(** The reply's frame and header. *)
Definition buildReplyHeader r (entry : pipelineEntry) (body : list byte) : option (list byte * Header) :=
  let header := pipelineEntry.header entry in
  let fields := Fields header in
  let replyFields := write_fields (zeros CommandFieldsSize)
    [(0, slice fields 32 48); (64, slice fields 80 96); (80, slice fields 96 104); (88, slice fields 96 104);
     (96, slice fields 112 120); (104, slice fields 120 125)] in
  let reply fields := mkHeader (zeros 16) (ChecksumBytes body) (Config.Group (config r)) (u32 (HeaderSize + zlen body)) 0
    (View header) (Header.Release header) ProtocolVersion CommandReply (primaryOf r (View header)) fields in
  match EncodeHeader HeaderSize (reply replyFields) with
  | Err _ => None
  | Ok (encoded, _) =>
      sealed (reply (put replyFields 32 (ChecksumBytes (slice encoded HeaderChecksumFrom HeaderSize)))) body
  end.

(** The body of a reply is what follows the header in its frame. *)
Definition finishCommit (advance : node S M -> option (node S M)) n (entry : pipelineEntry) : option (node S M) :=
  let r := node.replica n in
  let header := pipelineEntry.header entry in
  let op := prepareOp header in
  let recorded :=
    match pipelineEntry.reply entry with
    | None => Some r
    | Some frame =>
        let plan := pipelineEntry.replyPlan entry in
        match CommitAt (sessions r) plan (pipelineEntry.replyHeader entry) (SessionCommitPlan.Session plan) with
        | (_, Err _) => None
        | (table, Ok _) => Some (sendReply (r {{ sessions := table }}) entry (drop (Z.to_nat HeaderSize) frame))
        end
    end in
  match recorded with
  | None => Some (failing (n {{ node.replica := r {{ sessions := Abort (sessions r) (pipelineEntry.replyPlan entry) }} }}) ErrSession)
  | Some r =>
      let r := r {{ commitMin := op; commitMax := Z.max (commitMax r) op; lastCommitTimestamp := prepareTimestamp header }} in
      continueCommitMaintenance advance (n {{ node.replica := trackUpgradeWindow r entry }}) entry
  end.

(** ** Execution *)

Definition commitInput (entry : pipelineEntry) : CommitInput :=
  let header := pipelineEntry.header entry in
  CommitInput.mk (prepareOperation header) (drop (Z.to_nat HeaderSize) (pipelineEntry.prepare entry)) (prepareTimestamp header)
    (prepareOp header) (Header.Release header).

Definition commitApplication (m : M) (entry : pipelineEntry) : M * result machine_error (list byte) :=
  MachineCommit m (commitInput entry) (pipelineEntry.token entry).

(** The body of the reply to a client's operation. *)
Definition replyBody r (m : M) (entry : pipelineEntry) : M * option (list byte) :=
  let operation := prepareOperation (pipelineEntry.header entry) in
  if operation =? OperationRegister
  then (m, Some (put (zeros 64) 0 (putUint 4 (u32 (ClusterConfig.ApplicationBatchSizeMax (cluster r)))))) else
  if operation =? OperationNoop then (m, Some []) else
  if operation =? OperationReconfigure
  then (m, Some (slice (pipelineEntry.prepare entry) (HeaderSize + 252) (HeaderSize + 256))) else
  if OperationApplicationMin <=? operation then
    match commitApplication m entry with (m, Ok body) => (m, Some body) | (m, Err _) => (m, None) end
  else (m, None).

(** The reply is planned, and stored unless it has no body. *)
Definition storeReply (advance : node S M -> option (node S M)) n (entry : pipelineEntry) (body : list byte) : option (node S M) :=
  let r := node.replica n in
  let header := pipelineEntry.header entry in
  match buildReplyHeader r entry body with
  | None => Some (failing n ErrEncoding)
  | Some (frame, replyHeader) =>
      let session := if prepareOperation header =? OperationRegister then Some (prepareOp header)
        else SessionOf (sessions r) (prepareClient header) in
      match session with
      | None => Some (failing n ErrReplicaInvariant)
      | Some session =>
          match PlanCommit (sessions r) replyHeader session with
          | (table, Err _) => Some (failing (n {{ node.replica := r {{ sessions := table }} }}) ErrSession)
          | (table, Ok plan) =>
              let r := r {{ sessions := table }} in
              let entry := entry {{ pipelineEntry.reply := Some frame; pipelineEntry.replyHeader := replyHeader;
                                    pipelineEntry.replyPlan := plan }} in
              let n := setFirst (n {{ node.replica := r }}) entry in
              if zlen body =? 0 then finishCommit advance n entry else
              match submit (node.replica n) (WriteReply (SessionCommitPlan.Slot plan) frame) with
              | (r, None) => Some (failing (n {{ node.replica := r {{ sessions := Abort (sessions r) plan }} }}) ErrIO)
              | (r, Some handle) =>
                  Some (setFirst (n {{ node.replica := r }})
                          (entry {{ pipelineEntry.io := handle; pipelineEntry.ioKind := Some IOReplyWrite }}))
              end
          end
      end
  end.

Definition executeEntry (advance : node S M -> option (node S M)) n (entry : pipelineEntry) : option (node S M) :=
  let r := node.replica n in
  let operation := prepareOperation (pipelineEntry.header entry) in
  if isZeroID (prepareClient (pipelineEntry.header entry)) then
    if operation =? OperationPulse then
      match commitApplication (node.machine n) entry with
      | (machine, Err _) => Some (failing (n {{ node.machine := machine }}) ErrStateMachine)
      | (machine, Ok _) => finishCommit advance (n {{ node.machine := machine }}) entry
      end
    else if operation =? OperationUpgrade then
      match executeUpgrade r entry with
      | (_, false) => Some (failing n ErrReplicaInvariant)
      | (r, true) => finishCommit advance (n {{ node.replica := r }}) entry
      end
    else finishCommit advance n entry
  else
    let '(r, acquired) := acquire r in
    let n := n {{ node.replica := r }} in
    if negb acquired then Some (failing n ErrFramePoolEmpty) else
    let '(machine, body) := replyBody r (node.machine n) entry in
    let n := n {{ node.machine := machine }} in
    match body with
    | None => Some (failing n ErrStateMachine)
    | Some body =>
        if ClusterConfig.ApplicationReplySizeMax (cluster r) <? zlen body then Some (failing n ErrStateMachine)
        else storeReply advance n entry body
    end.

Definition startPrefetch (advance : node S M -> option (node S M)) n (entry : pipelineEntry) : option (node S M) :=
  let operation := prepareOperation (pipelineEntry.header entry) in
  if (operation <? OperationApplicationMin) && negb (operation =? OperationPulse)
  then advance (setFirst n (atStage entry CommitStageStall)) else
  let entry := atStage entry CommitStagePrefetch in
  let n := setFirst n entry in
  let '(machine, result) := StartPrefetch (node.machine n) (commitInput entry) in
  let n := n {{ node.machine := machine }} in
  match result with
  | Err _ => Some (failing n ErrStateMachine)
  | Ok (Ready token) => advance (setFirst n ((atStage entry CommitStageStall) {{ pipelineEntry.token := token }}))
  | Ok Pending => Some n
  end.

(** The oldest entry may be committed. *)
Definition commitReady r : option pipelineEntry :=
  if awaitingOpen r then None else
  let recoveringCommit := bool_decide (status r = StatusRecoveringHead) && recoveringView.valid (repairView r)
    && recoveringView.rebuilt (repairView r) in
  if negb (bool_decide (status r = StatusNormal)) && negb recoveringCommit then None else
  match pipeline r with
  | [] => None
  | entry :: _ =>
      if bool_decide (is_Some (fatalErr r)) || replyRepairing r then None else
      let op := prepareOp (pipelineEntry.header entry) in
      if pipelineEntry.durable entry
         && ((isPrimary r && pipelineEntry.quorum entry) || (negb (isPrimary r) && (op <=? commitMax r)))
      then Some entry else None
  end.

Fixpoint advanceCommit (fuel : nat) n : option (node S M) :=
  match fuel with
  | O => None
  | Datatypes.S fuel =>
      match commitReady (node.replica n) with
      | None => Some n
      | Some entry =>
          match pipelineEntry.stage entry with
          | CommitStageIdle | CommitStageStart | CommitStageCheckPrepare =>
              let entry := atStage entry CommitStageCheckPrepare in
              startPrefetch (advanceCommit fuel) (setFirst n entry) entry
          | CommitStageStall | CommitStageReplySetup =>
              let entry := atStage entry CommitStageExecute in
              executeEntry (advanceCommit fuel) (setFirst n entry) entry
          | _ => Some n
          end
      end
  end.

(** ** Completions *)

(** A prefetch, compaction or storage operation of the entry at [offset] has
    completed; a failed one stops the replica. *)
Definition prefetchCompleted n (offset : nat) (entry : pipelineEntry) (token : Z) : node S M :=
  if negb (bool_decide (pipelineEntry.stage entry = CommitStagePrefetch)) then failing n ErrReplicaInvariant else
  n {{ node.replica ::= fun r => setEntry r offset ((atStage entry CommitStageStall) {{ pipelineEntry.token := token }}) }}.

(** The loop of [handleIOCompletion] over the pipeline, and the operations of
    an entry it finishes. *)
Definition pipelineCompletion (fuel : nat) n (handle : IOHandle) (kind : IOKind) (failed : bool) : option (node S M) :=
  let r := node.replica n in
  match list_find (fun entry => pipelineEntry.io entry = handle /\ pipelineEntry.ioKind entry = Some kind) (pipeline r) with
  | None => Some n
  | Some (offset, entry) =>
      let entry := entry {{ pipelineEntry.io := noHandle; pipelineEntry.ioKind := None }} in
      let n := n {{ node.replica := setEntry r offset entry }} in
      if failed then
        let n := if bool_decide (kind = IOReplyWrite)
          then n {{ node.replica ::= fun r => r {{ sessions := Abort (sessions r) (pipelineEntry.replyPlan entry) }} }} else n in
        Some (failing n ErrStorage)
      else
        match kind with
        | IOWALAppend => Some (n {{ node.replica ::= fun r => appendCompleted r offset entry }})
        | IOReplyWrite => finishCommit (advanceCommit fuel) n entry
        | IOSuperblockPersist => finishCheckpointPersistence (advanceCommit fuel) n entry
        | _ => Some (failing n ErrReplicaInvariant)
        end
  end.

(** The view has been persisted; whether the completion was of that write. *)
Definition handleViewPersistence (fuel : nat) n (handle : IOHandle) (kind : IOKind) (failed : bool) : option (node S M * bool) :=
  let r := node.replica n in
  if negb (bool_decide (kind = IOSuperblockPersist)) || negb (bool_decide (handle = viewIO r)) then Some (n, false) else
  let r := r {{ viewIO := noHandle }} in
  if failed then Some (failing (n {{ node.replica := r }}) ErrStorage, true) else
  let r := r {{ durableView := view r }} in
  if negb (viewInstall r) then
    match resumePendingViewChange r with
    | (r, true) => Some (n {{ node.replica := r }}, true)
    | (r, false) => r ← sendJoinView fuel r; Some (n {{ node.replica := r }}, true)
    end
  else
    let r := r {{ wal := DiscardAfter (wal r) (viewHead r); lastPrimaryCommit := 0 }} in
    let '(r, now) := clockNow r in
    let r := r {{ failureDetector ::= fun detector => FailureDetector.Signal detector (TimeSample.Monotonic now);
                  logView := view r; commitMax := Z.max (commitMax r) (viewCommit r); status := StatusNormal }} in
    let r := maybeSelectUpgrade (refreshLocalReleaseReport r) in
    let r := acknowledgeAll (fun _ => false) (r {{ viewInstall := false }}) in
    match resumePendingViewChange r with
    | (r, true) => Some (n {{ node.replica := r }}, true)
    | (r, false) =>
        let r := if isPrimary r then broadcastView r else r in
        n ← advanceCommit fuel (n {{ node.replica := r }});
        Some (n, true)
    end.
End commit.
