(* ===== verification/CommitSafety.v ===== *)
(** * The order of commits

    The prepares a replica commits form a hash chain, and the state machine is
    asked to commit exactly the operations of that chain that are its own, each
    once and in the order of the chain.  Advancing the commit ends: every call
    of it that leads to another has moved an entry on or removed one that was
    durable. *)

From S2P Require Import Prelude Records Bytes Arith Checksum Header Config Ewah Clock Random Timers RepairBudget Reconfiguration.
From S2P Require Import Sessions Storage Checkpoint Superblock Wal WalRecovery BlockAllocator Replica ReplicaCheckpoint Release.
From S2P Require Import ViewChange ViewReports StateMachine Normal NormalSafety Requests Commit.

(** A state machine that remembers what it was asked to commit. *)
Class Recording (M : Type) `{StateMachine M} := {
  trace : M -> list CommitInput;
  trace_prefetch m i : trace (StartPrefetch m i).1 = trace m;
  trace_commit m i token : trace (MachineCommit m i token).1 = trace m ++ [i];
  trace_compact m op time : trace (StartCompact m op time).1 = trace m;
  trace_reset m : trace (StartReset m).1 = trace m;
}.

(** Any state machine can be made to remember. *)
#[export] Instance recorded_machine {M} `{StateMachine M} : StateMachine (M * list CommitInput) := {
  Validate m := Validate m.1;
  PulseNeeded m := PulseNeeded m.1;
  StartPrefetch m i := let '(m', result) := StartPrefetch m.1 i in ((m', m.2), result);
  MachineCommit m i token := let '(m', result) := MachineCommit m.1 i token in ((m', m.2 ++ [i]), result);
  StartCompact m op time := let '(m', result) := StartCompact m.1 op time in ((m', m.2), result);
  StartReset m := let '(m', result) := StartReset m.1 in ((m', m.2), result);
}.

#[export] Program Instance recorded_recording {M} `{StateMachine M} : Recording (M * list CommitInput) := { trace := snd }.
Next Obligation. intros M ? [m t] i. cbn. by destruct (StartPrefetch m i). Qed.
Next Obligation. intros M ? [m t] i token. cbn. by destruct (MachineCommit m i token). Qed.
Next Obligation. intros M ? [m t] op time. cbn. by destruct (StartCompact m op time). Qed.
Next Obligation. intros M ? [m t]. cbn. by destruct (StartReset m). Qed.

(** ** Items *)

(** A prepare: its header and its frame. *)
Definition item : Type := Header * list byte.
Definition itemOf (entry : pipelineEntry) : item := (pipelineEntry.header entry, pipelineEntry.prepare entry).

Definition inputOf (i : item) : CommitInput :=
  CommitInput.mk (prepareOperation i.1) (drop (Z.to_nat HeaderSize) i.2) (prepareTimestamp i.1) (prepareOp i.1) (Header.Release i.1).

(** The operations of the state machine. *)
Definition executes (i : item) : bool :=
  if isZeroID (prepareClient i.1) then prepareOperation i.1 =? OperationPulse else OperationApplicationMin <=? prepareOperation i.1.

Definition executed (items : list item) : list CommitInput := inputOf <$> filter (fun i => executes i = true) items.

Lemma executed_app a b : executed (a ++ b) = executed a ++ executed b.
Proof. unfold executed. by rewrite filter_app, fmap_app. Qed.

Definition replying (entry : pipelineEntry) : bool := bool_decide (pipelineEntry.ioKind entry = Some IOReplyWrite).

(** The entry's operation counts as committed. *)
Definition committing (entry : pipelineEntry) : bool :=
  stage_number CommitStageCheckpointDurable <=? stage_number (pipelineEntry.stage entry).

Definition idle (entry : pipelineEntry) : Prop := pipelineEntry.stage entry = CommitStageIdle /\ replying entry = false.

(** What of the pipeline is not committed. *)
Definition pendingItems (pipeline : list pipelineEntry) : list item :=
  match pipeline with
  | [] => []
  | entry :: rest => if committing entry then itemOf <$> rest else itemOf <$> pipeline
  end.

Section order.
Context {S M : Type} `{Recording M}.
Implicit Types r : Replica S.
Implicit Types n : node S M.
Implicit Types C : list item.
Import Replica.

(** ** The invariant *)

(** [t] is what the state machine has committed: the chain so far, and the
    operation being executed if its reply is not stored yet. *)
Definition traced r (t : list CommitInput) C : Prop :=
  exists extra, t = executed (C ++ extra) /\
    match pipeline r with
    | [] => extra = []
    | entry :: _ =>
        if replying entry then pipelineEntry.stage entry = CommitStageExecute /\ extra = [itemOf entry]
        else extra = [] \/ pipelineEntry.stage entry = CommitStageExecute /\ extra = [itemOf entry]
    end.

Record order_inv r (t : list CommitInput) C : Prop := {
  oi_chain : chained (fst <$> C ++ pendingItems (pipeline r));
  oi_head : forall i, last (C ++ pendingItems (pipeline r)) = Some i ->
    prepareOp i.1 = headOp r /\ HeaderChecksum i.1 = headChecksum r /\ prepareTimestamp i.1 = lastPrepareTimestamp r;
  oi_commit : forall i, last C = Some i -> commitMin r = prepareOp i.1;
  oi_tail : Forall idle (tail (pipeline r));
  oi_trace : traced r t C;
}.

(** What the invariant depends on. *)
Definition face (entry : pipelineEntry) := (itemOf entry, pipelineEntry.stage entry, replying entry).
Definition order_core r := (commitMin r, headOp r, headChecksum r, lastPrepareTimestamp r, face <$> pipeline r).

Lemma face_pending p p' : face <$> p' = face <$> p -> pendingItems p' = pendingItems p.
Proof.
  intros E. assert (itemOf <$> p' = itemOf <$> p) as Ei.
  { pose proof (f_equal (fmap (fun f : item * CommitStage * bool => f.1.1)) E) as Ef. by rewrite <- !list_fmap_compose in Ef. }
  destruct p as [|e p], p' as [|e' p']; try done. cbn in E, Ei |- *. injection E as _ _ E2 _ _. injection Ei as E3 E3' E4.
  unfold committing. rewrite E2. case_match; [done|]. unfold itemOf at 1 3. by rewrite E3, E3', E4.
Qed.

Lemma face_idle p p' : face <$> p' = face <$> p -> Forall idle p -> Forall idle p'.
Proof.
  revert p. induction p' as [|e' p' IH]; intros [|e p] E Hp; try done. cbn in E. injection E as _ _ E2 E3 E4.
  apply Forall_cons in Hp as [[He1 He2] Hp]. constructor; [|by eapply IH]. unfold idle. by rewrite E2, E3.
Qed.

Lemma order_same r r' t C : order_core r' = order_core r -> order_inv r t C -> order_inv r' t C.
Proof.
  intros E [Hc Hh Hm Ht Htr]. injection E as E1 E2 E3 E4 E5. pose proof (face_pending _ _ E5) as Ep.
  split; rewrite ?Ep, ?E1, ?E2, ?E3, ?E4; try done.
  - destruct (pipeline r') as [|e' p'], (pipeline r) as [|e p]; try done. cbn in E5 |- *. injection E5 as _ _ _ _ E5. by eapply face_idle.
  - destruct Htr as (extra & Et & He). exists extra. split; [done|].
    destruct (pipeline r') as [|e' p'], (pipeline r) as [|e p]; try done. cbn in E5. unfold face in E5. injection E5 as Ei Ep' Es Er _.
    unfold itemOf. by rewrite Er, Es, Ei, Ep'.
Qed.

Lemma core_order r r' : core r' = core r -> order_core r' = order_core r.
Proof. intros E. injection E as E1 E2 E3 E4 E5 E6 E7 E8 E9 E10 E11. unfold order_core. by rewrite E5, E6, E7, E9, E10. Qed.

Lemma setEntry_order r r' offset entry entry' :
  core r' = core r -> pipeline r !! offset = Some entry -> face entry' = face entry -> order_core (setEntry r' offset entry') = order_core r.
Proof.
  intros Ec Ho Ef. apply core_order in Ec as E. injection Ec as E1 E2 E3 E4 E5 E6 E7 E8 E9 E10 E11. injection E as F1 F2 F3 F4 F5.
  unfold order_core, setEntry. cbn [commitMin headOp headChecksum lastPrepareTimestamp pipeline updated].
  rewrite E5, E6, E7, E9, E10, list_fmap_insert, Ef. do 2 f_equal. apply list_insert_id. by rewrite list_lookup_fmap, Ho.
Qed.

(** ** Normal operation *)

Lemma pendingItems_snoc p e : committing e = false -> pendingItems (p ++ [e]) = pendingItems p ++ [itemOf e].
Proof.
  intros He. destruct p as [|e0 p]; cbn [app pendingItems]; [by rewrite He|]. rewrite app_comm_cons, !fmap_app. by case_match.
Qed.

Lemma extends_order r r' t C : extends r r' -> order_inv r t C -> order_inv r' t C.
Proof.
  intros [E|frame header handle Ho Hp Ht Hcap E] Hi; [by apply (order_same r); [apply core_order|]|].
  destruct Hi as [Hc Hh Hm Htl Htr]. destruct r'. injection E as -> -> -> -> -> -> -> -> -> -> ->. set (e := appending frame header handle).
  assert (pendingItems (pipeline r ++ [e]) = pendingItems (pipeline r) ++ [itemOf e]) as Ep by by apply pendingItems_snoc.
  split; cbn [pipeline headOp headChecksum lastPrepareTimestamp commitMin]; rewrite ?Ep, ?app_assoc; [..|done| |].
  - rewrite fmap_app. apply chained_snoc; [done|]. intros previous Hl. rewrite fmap_last in Hl.
    destruct (last _) as [i|] eqn:El; [|done]. injection Hl as <-. destruct (Hh i eq_refl) as (O & K & T).
    unfold follows. cbn. by rewrite O, K, T.
  - intros i. rewrite last_snoc. by intros [= <-].
  - destruct (pipeline r) as [|e0 p]; [constructor|]. cbn [app tail] in *. apply Forall_app. split; [done|]. by constructor.
  - destruct Htr as (extra & Et & He). exists extra. split; [done|]. cbn [pipeline].
    destruct (pipeline r) as [|e0 p]; [|done]. cbn. by left.
Qed.

Lemma sendPrepareOK_face r entry : face (sendPrepareOK r entry).2 = face entry.
Proof.
  unfold sendPrepareOK. destruct (negb _); [done|]. cbn [acquire]. destruct (negb _); [done|].
  by destruct (sealed _ _) as [[frame header]|].
Qed.

Lemma countPrepareAck_face r entry author : face (countPrepareAck r entry author) = face entry.
Proof. unfold countPrepareAck. by destruct (negb _). Qed.

Lemma acknowledge_face r entry : face (acknowledge r entry).2 = face entry.
Proof. unfold acknowledge. destruct (isPrimary r); [apply countPrepareAck_face|apply sendPrepareOK_face]. Qed.

Lemma acknowledgeAt_order skip r offset : order_core (acknowledgeAt skip r offset) = order_core r.
Proof.
  unfold acknowledgeAt. destruct (pipeline r !! offset) as [entry|] eqn:Ho; [|done]. destruct (_ || _); [done|].
  pose proof (acknowledge_core r entry) as Ec. pose proof (acknowledge_face r entry) as Ef.
  destruct (acknowledge r entry) as [r' entry']. by eapply setEntry_order.
Qed.

Lemma acknowledgeAll_order skip r : order_core (acknowledgeAll skip r) = order_core r.
Proof.
  unfold acknowledgeAll. generalize (seq 0 (length (pipeline r))). intros offsets. revert r.
  induction offsets as [|offset offsets IH]; intros r; [done|]. cbn [fold_left]. rewrite IH. apply acknowledgeAt_order.
Qed.

Lemma appendCompleted_order r offset entry :
  pipeline r !! offset = Some entry -> replying entry = false -> order_core (appendCompleted r offset entry) = order_core r.
Proof.
  intros Ho Hr. unfold appendCompleted. set (entry1 := entry {{ pipelineEntry.io := _; pipelineEntry.ioKind := _; pipelineEntry.durable := _ }}).
  assert (face entry1 = face entry) as Ef by (unfold face; by rewrite Hr). destruct (negb _); [by eapply setEntry_order|].
  pose proof (acknowledge_core r entry1) as Ec. pose proof (acknowledge_face r entry1) as Ef'.
  destruct (acknowledge r entry1) as [r' entry']. cbn [fst snd] in *. by eapply setEntry_order; [| |rewrite Ef'].
Qed.

Lemma handlePrepareOK_order r ack : order_core (handlePrepareOK r ack) = order_core r.
Proof.
  unfold handlePrepareOK. destruct (_ || _); [done|]. destruct (list_find _ _) as [[offset entry]|] eqn:Ef; [|done].
  apply list_find_Some in Ef as (Ho & _ & _). destruct (negb _); [done|].
  by apply (setEntry_order r r _ entry); [| |apply countPrepareAck_face].
Qed.

Lemma handlePrepare_order r frame header sample t C :
  order_inv r t C -> order_inv (handlePrepare r frame header sample).1 t C.
Proof.
  intros Hi. unfold handlePrepare. destruct (_ || _); [done|].
  match goal with |- context [pipeline ?x] => assert (order_core x = order_core r) as Ec by (by case_match);
    apply (order_same _ _ _ _ Ec) in Hi; clear Ec; generalize dependent x end. clear r. intros r Hi.
  destruct (list_find _ _) as [[offset entry]|] eqn:Ef.
  - apply list_find_Some in Ef as (Ho & _ & _). destruct (_ && _); [|done].
    pose proof (sendPrepareOK_core r entry) as Ec. pose proof (sendPrepareOK_face r entry) as Ef.
    destruct (sendPrepareOK r entry) as [r' entry']. apply (order_same r); [|done]. by eapply setEntry_order.
  - destruct (_ <=? _).
    + destruct (localHeaderEvidence r _) as [[known|] []]; try done. destruct (bool_decide _); [|done].
      cbn [fst]. apply (order_same r); [|done]. apply core_order, sendPrepareOK_core.
    + destruct (negb _); [done|]. destruct (_ || _); [|by eapply extends_order; [apply acceptPrepare_extends|]].
      apply (order_same r); [|done]. apply core_order, requestView_core.
Qed.

Lemma beginViewChangeNow_order r target : order_core (beginViewChangeNow r target) = order_core r.
Proof.
  unfold beginViewChangeNow.
  match goal with |- context [persistView ?x false ?c ?h ?l] =>
    pose proof (persistView_core x false c h l) as Ec; destruct (persistView x false c h l) as [r1 failed]; set (r0 := x) in * end.
  assert (order_core r0 = order_core r) as E0.
  { transitivity (commitMin r, headOp r, headChecksum r, lastPrepareTimestamp r, face <$> (forgetAcks <$> pipeline r)); [reflexivity|].
    unfold order_core. f_equal. rewrite <- list_fmap_compose. by apply list_fmap_ext. }
  cbn [fst] in Ec. apply core_order in Ec. rewrite E0 in Ec. destruct failed; [|done]. rewrite <- Ec. apply core_order, fail_core.
Qed.

Lemma beginViewChange_order r target : order_core (beginViewChange r target) = order_core r.
Proof.
  unfold beginViewChange. destruct (_ || _); [done|]. destruct (_ || _); [done|]. apply beginViewChangeNow_order.
Qed.

(** ** Requests *)

Lemma answer_core r client header : core (answer r client header) = core r.
Proof. unfold answer. cbn [acquire]. destruct (negb _); [done|]. by destruct (sealed header []) as [[frame h]|]. Qed.

Lemma sendCachedReply_core r client session request : core (sendCachedReply r client session request) = core r.
Proof.
  unfold sendCachedReply. destruct (ReplyOf _ _ _ _) as [[header slot]|]; [|done]. destruct (_ =? _); [exact (answer_core r client (currentReply r header))|].
  destruct (list_find _ _) as [[index read]|]; [|done].
  pose proof (submit_core r (ReadReply slot header)) as Ec. destruct (submit r _) as [r1 []]; exact Ec.
Qed.

Lemma queueRequest_core r frame sample : core (queueRequest r frame sample).1 = core r.
Proof. unfold queueRequest. by destruct (_ =? _). Qed.

Lemma admitSession_core r header r' : admitSession r header = inl r' -> core r' = core r.
Proof.
  unfold admitSession. intros E. repeat case_match; simplify_eq; try done; apply sendCachedReply_core || apply answer_core.
Qed.

Lemma prepareRequestNow_extends r frame header body sample : extends r (prepareRequestNow r frame header body sample).1.
Proof.
  unfold prepareRequestNow. destruct (negb _); [by apply extends_same|]. destruct (pipelineConflict _ _ _); [by apply extends_same|].
  destruct (_ && _); [apply extends_same, queueRequest_core|]. destruct (_ =? _); [apply extends_same, queueRequest_core|].
  pose proof (createPrepare_extends r header body sample) as He. destruct (createPrepare r header body sample) as [r1 [err|]]; [|done].
  cbn [fst] in He. destruct err; (eapply extends_core; [exact He|]); first [apply queueRequest_core | apply fail_core].
Qed.

Lemma handleRequest_extends r (m : M) frame header body sample : extends r (handleRequest r m frame header body sample).1.
Proof.
  unfold handleRequest. destruct (_ || _); [by apply extends_same|]. destruct (_ <? _); [by apply extends_same|].
  destruct (_ && _); [by apply extends_same|]. destruct (_ <? _); [apply extends_same, answer_core|].
  destruct (admitSession r header) as [r1|] eqn:Ea; [by apply extends_same, (admitSession_core _ header)|].
  destruct (negb _); [by apply extends_same|].
  match goal with |- extends _ (match ?x with Some _ => _ | None => _ end).1 => destruct x as [reason|] end; [apply extends_same, answer_core|apply prepareRequestNow_extends].
Qed.

Lemma dequeueRequest_extends r (m : M) : extends r (dequeueRequest r m).
Proof.
  unfold dequeueRequest. destruct (requestQueue r) as [|[frame sample] rest]; [by apply extends_same|].
  destruct (_ =? _); [by apply extends_same|]. destruct (decodedFrame _ _) as [[header body]|]; [|by apply extends_same].
  eapply extends_from; [|apply handleRequest_extends]. done.
Qed.

(** ** Committing *)

Definition safe r (heard : list Header) : Prop := (placed r /\ pipeline_inv r heard) /\ wf_budget (repairBudget r).

Definition good n (heard : list Header) C : Prop :=
  safe (node.replica n) heard /\ order_inv (node.replica n) (trace (node.machine n)) C.

(** How many calls of [advanceCommit] the pipeline can lead to: two for every
    durable entry, one less once the oldest has been prefetched. *)
Definition durables (p : list pipelineEntry) : nat := length (filter (fun entry => pipelineEntry.durable entry = true) p).

Definition prefetched (entry : pipelineEntry) : bool :=
  match pipelineEntry.stage entry with CommitStageStall | CommitStageReplySetup => true | _ => false end.

Definition need r : nat :=
  match pipeline r with
  | [] => 0
  | entry :: _ => 2 * durables (pipeline r) - (if prefetched entry then 1 else 0)
  end.

(** A call either ends, or ends in a call of [advance] that needs less than
    [bound]; the chain is extended by what has been committed. *)
Definition leads (advance : node S M -> option (node S M)) (bound : nat) (heard : list Header) C (o : option (node S M)) : Prop :=
  exists more n', good n' heard (C ++ more) /\ (o = Some n' \/ o = advance n' /\ (need (node.replica n') < bound)%nat).

Lemma leads_some advance bound heard C n : good n heard C -> leads advance bound heard C (Some n).
Proof. intros Hg. exists [], n. rewrite app_nil_r. auto. Qed.

Lemma leads_more advance bound heard C more o : leads advance bound heard (C ++ more) o -> leads advance bound heard C o.
Proof. intros (more' & n' & Hg & Ho). exists (more ++ more'), n'. by rewrite app_assoc. Qed.

Lemma good_core n n' heard C :
  core (node.replica n') = core (node.replica n) -> trace (node.machine n') = trace (node.machine n) -> good n heard C -> good n' heard C.
Proof.
  intros Ec Et [[Hi Hb] Ho]. split; [split|].
  - by eapply core_inv.
  - injection Ec as _ _ _ _ _ _ _ _ _ _ Er. by rewrite Er.
  - rewrite Et. eapply order_same; [by apply core_order|done].
Qed.

Lemma good_failing n err heard C : good n heard C -> good (failing n err) heard C.
Proof. apply good_core; [apply fail_core|done]. Qed.

Lemma need_bound r entry rest : pipeline r = entry :: rest -> (2 * durables rest <= 2 * durables (pipeline r))%nat.
Proof.
  intros ->. unfold durables. rewrite filter_cons. case_decide; cbn [length]; lia.
Qed.

Lemma need_le r : (need r <= 2 * durables (pipeline r))%nat.
Proof. unfold need. destruct (pipeline r); lia. Qed.

(** *** The end of a commit *)

Lemma tail_pending p : Forall idle (tail p) -> pendingItems (tail p) = itemOf <$> tail p.
Proof.
  intros Ht. destruct (tail p) as [|e q]; [done|]. apply Forall_cons in Ht as [[Hs _] _]. cbn [pendingItems]. unfold committing. by rewrite Hs.
Qed.

Lemma popped_order r t C entry rest :
  order_inv r t C -> pipeline r = entry :: rest -> committing entry = true -> order_inv (popPipeline r) t C.
Proof.
  intros [Hc Hh Hm Ht Htr] Ep Hcm. pose proof (tail_pending _ Ht) as Er. rewrite Ep in *. cbn [pendingItems tail] in *. rewrite Hcm in *.
  unfold popPipeline. rewrite Ep. split; cbn [pipeline commitMin headOp headChecksum lastPrepareTimestamp updated tail]; rewrite ?Er; try done.
  - destruct rest; [constructor|]. by apply Forall_cons in Ht as [_ Ht].
  - destruct Htr as (extra & Et & He). exists extra. cbn [pipeline updated]. rewrite Ep in He.
    assert (pipelineEntry.stage entry <> CommitStageExecute) as Hne by (intros E; unfold committing in Hcm; by rewrite E in Hcm).
    assert (extra = []) as -> by (destruct (replying entry); naive_solver). split; [done|].
    destruct rest as [|e1 rest]; [done|]. apply Forall_cons in Ht as [[_ ->] _]. by left.
Qed.

(** Replacing the oldest entry makes no difference once it is removed. *)
Lemma popped_same r r' :
  (commitMin r', headOp r', headChecksum r', lastPrepareTimestamp r', tail (face <$> pipeline r')) =
  (commitMin r, headOp r, headChecksum r, lastPrepareTimestamp r, tail (face <$> pipeline r)) ->
  order_core (popPipeline r') = order_core (popPipeline r).
Proof.
  intros [= E1 E2 E3 E4 E5]. unfold order_core, popPipeline.
  cbn [pipeline commitMin headOp headChecksum lastPrepareTimestamp updated]. rewrite E1, E2, E3, E4. f_equal.
  rewrite <- !fmap_tail in E5. exact E5.
Qed.

Lemma extends_need r r' : extends r r' -> (need r' <= need r)%nat.
Proof.
  intros [E|frame header handle _ _ _ _ E].
  - injection E as E1 E2 E3 E4 E5 E6 E7 E8 E9 E10 E11. unfold need. by rewrite E9.
  - injection E as E1 E2 E3 E4 E5 E6 E7 E8 E9 E10 E11.
    assert (durables (pipeline r') = durables (pipeline r)) as Ed.
    { rewrite E9. unfold durables. rewrite filter_app, length_app, filter_cons_False by done. cbn. lia. }
    unfold need. rewrite Ed, E9. destruct (pipeline r) as [|e p]; cbn [app]; [|done]. change (durables []) with 0%nat. lia.
Qed.

Lemma extends_good n r' heard C : extends (node.replica n) r' -> good n heard C -> good (n {{ node.replica := r' }}) heard C.
Proof.
  intros He [[Hi Hb] Ho]. split; [split|]; cbn [node.replica node.machine updated].
  - by eapply extends_inv.
  - destruct He as [E|frame header handle _ _ _ _ E]; injection E as _ _ _ _ _ _ _ _ _ _ Er; by rewrite Er.
  - by eapply extends_order.
Qed.

Lemma sendGetHeadersRange_core r peer from to : core (sendGetHeadersRange r peer from to) = core r.
Proof. unfold sendGetHeadersRange. cbn [acquire]. destruct (negb _); [done|]. by destruct (sealed _ _) as [[frame header]|]. Qed.

Lemma requestRepairWindowHeaders_core r now : core (requestRepairWindowHeaders r now) = core r.
Proof. unfold requestRepairWindowHeaders. destruct (_ && _); [done|]. exact (sendGetHeadersRange_core r _ _ _). Qed.

Lemma beginRepairWindow_ok r view commit :
  wf_budget (repairBudget r) -> exists r' began budget, beginRepairWindow r view commit = Some (r', began) /\
    core r' = (base r, commitMin r, budget) /\ wf_budget budget.
Proof.
  intros Hb. unfold beginRepairWindow. destruct (checkedAdd _ _) as [limit|].
  - destruct (_ <=? _); [by exists r, false, (repairBudget r)|]. destruct (Reset_ok _ Hb) as (budget & -> & Hw & _).
    cbn [mbind option_bind clockNow]. eexists _, _, budget. split; [reflexivity|]. split; [|exact Hw].
    rewrite requestRepairWindowHeaders_core. reflexivity.
  - eexists _, _, (repairBudget r). split; [reflexivity|]. split; [apply fail_core|exact Hb].
Qed.

(** Only the repair budget has changed. *)
Lemma good_budget n n' budget heard C :
  good n heard C -> core (node.replica n') = (base (node.replica n), commitMin (node.replica n), budget) -> wf_budget budget ->
  trace (node.machine n') = trace (node.machine n) -> good n' heard C.
Proof.
  intros [[Hi Hb] Ho] Ec Hw Et.
  assert (base (node.replica n') = base (node.replica n)) as Eb by exact (f_equal (fun fields => fields.1.1) Ec). injection Ec as E1 E2 E3 E4 E5 E6 E7 E8 E9 E10 E11.
  split; [split; [by eapply (base_inv (node.replica n))|by rewrite E11]|]. rewrite Et. apply (order_same (node.replica n)); [|done].
  unfold order_core. by rewrite E5, E6, E7, E9, E10.
Qed.

Lemma completeCommitEntry_leads advance bound n heard C :
  good (n {{ node.replica ::= popPipeline }}) heard C -> (need (popPipeline (node.replica n)) < bound)%nat ->
  leads advance bound heard C (completeCommitEntry advance n).
Proof.
  intros Hg Hn. unfold completeCommitEntry. set (n1 := n {{ node.replica ::= popPipeline }}) in *.
  change (popPipeline (node.replica n)) with (node.replica n1) in Hn. destruct (_ && _).
  - destruct Hg as [[Hi Hb] Ho]. destruct (beginRepairWindow_ok (node.replica n1) (view (node.replica n1)) (commitMax (node.replica n1)) Hb)
      as (r' & began & budget & -> & Ec & Hw). cbn [mbind option_bind]. apply leads_some.
    assert (good (n1 {{ node.replica := r' }}) heard C) as Hg' by by eapply good_budget.
    destruct (negb began); [by apply good_failing|done].
  - destruct (syncIdle _); [|by apply leads_some]. exists [], (n1 {{ node.replica := dequeueRequest (node.replica n1) (node.machine n1) }}).
    pose proof (dequeueRequest_extends (node.replica n1) (node.machine n1)) as He. rewrite app_nil_r. split; [by apply extends_good|].
    right. split; [done|]. cbn [node.replica updated]. pose proof (extends_need _ _ He). lia.
Qed.

(** *** Entries that are committed *)

Record settled n (entry : pipelineEntry) (rest : list pipelineEntry) (heard : list Header) C : Prop := {
  st_good : good n heard C;
  st_first : pipeline (node.replica n) = entry :: rest;
  st_committing : committing entry = true;
}.

Lemma settled_core n n' entry rest heard C :
  core (node.replica n') = core (node.replica n) -> trace (node.machine n') = trace (node.machine n) ->
  settled n entry rest heard C -> settled n' entry rest heard C.
Proof.
  intros Ec Et [Hg Hf Hc]. split; [by eapply good_core| |done]. injection Ec as _ _ _ _ _ _ _ _ Ep _ _. by rewrite Ep.
Qed.

Lemma settled_fails advance bound n n' entry rest heard C err :
  settled n entry rest heard C -> core (node.replica n') = core (node.replica n) -> trace (node.machine n') = trace (node.machine n) ->
  leads advance bound heard C (Some (failing n' err)).
Proof. intros Hs Ec Et. eapply leads_some, good_failing, good_core; [exact Ec|exact Et|apply Hs]. Qed.

(** The entry is replaced by one that is the same but for its stage. *)
Definition restaged (entry entry' : pipelineEntry) : Prop :=
  itemOf entry' = itemOf entry /\ pipelineEntry.acks entry' = pipelineEntry.acks entry /\
  pipelineEntry.quorum entry' = pipelineEntry.quorum entry /\ pipelineEntry.durable entry' = pipelineEntry.durable entry.

Lemma restaged_safe r entry rest entry' heard :
  safe r heard -> pipeline r = entry :: rest -> restaged entry entry' -> safe (setEntry r 0 entry') heard.
Proof.
  intros [Hi Hb] Ep (Ei & Ea & Eq & Ed). split; [|done]. assert (pipeline r !! 0%nat = Some entry) as Ho by by rewrite Ep.
  injection Ei as Eh _. eapply setEntry_inv; [done|done|done|].
  destruct Hi as [_ Hi]. destruct (entry_justified _ _ _ _ Hi Ho) as [Hw Hk Hq]. split; [by rewrite Ea| |by rewrite Eq, Ea].
  intros i Hpos. rewrite Ea. intros Hbit. destruct (Hk i Hpos Hbit) as [? Hh]. split; [done|]. unfold holds in *. by rewrite Ed, Eh.
Qed.

Lemma setFirst_pipeline n e entry rest :
  pipeline (node.replica n) = entry :: rest -> pipeline (node.replica (setFirst n e)) = e :: rest.
Proof. intros Ep. unfold setFirst. cbn [node.replica updated setEntry pipeline]. unfold setEntry. cbn [pipeline updated]. by rewrite Ep. Qed.

Lemma settled_stage n entry rest heard C entry' :
  settled n entry rest heard C -> restaged entry entry' -> committing entry' = true -> replying entry' = false ->
  settled (setFirst n entry') entry' rest heard C.
Proof.
  intros [[Hs Ho] Ep Hc] Hr Hc' Hrp. split; [|by eapply setFirst_pipeline|done]. split; [by eapply restaged_safe|].
  destruct Ho as [Hch Hh Hm Ht (extra & Et & He)]. destruct Hr as [Ei _]. rewrite Ep in *. cbn [pendingItems tail] in *. rewrite Hc in *.
  pose proof (setFirst_pipeline n entry' entry rest Ep) as Ep'.
  assert (extra = []) as ->.
  { assert (pipelineEntry.stage entry <> CommitStageExecute) as Hne by (intros E; unfold committing in Hc; by rewrite E in Hc).
    destruct (replying entry); naive_solver. }
  split; rewrite ?Ep'; cbn [pendingItems tail]; rewrite ?Hc'; try done.
  exists []. split; [done|]. rewrite Ep', Hrp. by left.
Qed.

Lemma committing_not_replying n entry rest heard C : settled n entry rest heard C -> replying entry = false.
Proof.
  intros [[_ Ho] Ep Hc]. destruct (oi_trace _ _ _ Ho) as (extra & _ & He). rewrite Ep in He. destruct (replying entry); [|done].
  destruct He as [Es _]. unfold committing in Hc. by rewrite Es in Hc.
Qed.

Lemma settled_staged advance bound n n' entry entry' rest heard C :
  settled n entry rest heard C -> core (node.replica n') = core (node.replica n) -> trace (node.machine n') = trace (node.machine n) ->
  restaged entry entry' -> committing entry' = true -> (replying entry = false -> replying entry' = false) ->
  leads advance bound heard C (Some (setFirst n' entry')).
Proof.
  intros Hs Ec Et Hre Hc Hr. specialize (Hr (committing_not_replying _ _ _ _ _ Hs)).
  eapply leads_some, st_good, settled_stage; [|exact Hre|exact Hc|exact Hr]. by eapply settled_core.
Qed.

Lemma settled_pop n entry rest heard C :
  settled n entry rest heard C -> good (n {{ node.replica ::= popPipeline }}) heard C /\ (need (popPipeline (node.replica n)) <= 2 * durables rest)%nat.
Proof.
  intros [[[Hi Hb] Ho] Ep Hc]. split.
  - split; [split; [by apply popPipeline_inv|done]|]. by eapply popped_order.
  - etrans; [apply need_le|]. cbn [popPipeline pipeline updated]. unfold popPipeline. cbn [pipeline updated]. by rewrite Ep.
Qed.

Lemma settled_complete advance bound n entry rest heard C :
  settled n entry rest heard C -> (2 * durables rest < bound)%nat -> leads advance bound heard C (completeCommitEntry advance n).
Proof. intros Hs Hb. destruct (settled_pop _ _ _ _ _ Hs) as [Hg Hn]. apply completeCommitEntry_leads; [done|lia]. Qed.

Lemma beginViewChangeNow_keeps r target :
  repairBudget (beginViewChangeNow r target) = repairBudget r /\ pipeline (beginViewChangeNow r target) = forgetAcks <$> pipeline r.
Proof.
  unfold beginViewChangeNow.
  match goal with |- context [persistView ?x false ?c ?h ?l] =>
    pose proof (persistView_core x false c h l) as Ec; destruct (persistView x false c h l) as [r1 failed]; set (r0 := x) in * end.
  cbn [fst] in Ec. injection Ec as _ _ _ _ _ _ _ _ Ep _ Er. destruct failed as [err|]; [|by rewrite Ep, Er].
  pose proof (fail_core r1 err) as Ef. injection Ef as _ _ _ _ _ _ _ _ Ep' _ Er'. by rewrite Ep', Er', Ep, Er.
Qed.

Lemma durables_forget p : durables (forgetAcks <$> p) = durables p.
Proof.
  unfold durables. induction p as [|e p IH]; [done|]. rewrite fmap_cons, !filter_cons. cbn. repeat case_decide; cbn; congruence.
Qed.

(** A view change in between: the oldest entry may have any stage, as it is
    removed next. *)
Lemma viewed_complete advance bound n entry rest target heard C :
  safe (node.replica n) heard -> order_inv (popPipeline (node.replica n)) (trace (node.machine n)) C ->
  pipeline (node.replica n) = entry :: rest -> (2 * durables rest < bound)%nat ->
  leads advance bound heard C (completeCommitEntry advance (n {{ node.replica ::= fun r => beginViewChangeNow r target }})).
Proof.
  intros [Hi Hw] Hpop Ep Hb.
  destruct (beginViewChangeNow_keeps (node.replica n) target) as [Eb Ev]. pose proof (beginViewChangeNow_order (node.replica n) target) as Eo.
  pose proof (beginViewChangeNow_inv _ heard target Hi) as Hiv.
  apply completeCommitEntry_leads; [split; [split|]|]; cbn [node.replica node.machine updated];
    generalize dependent (beginViewChangeNow (node.replica n) target); intros rv Eb Ev Eo Hiv.
  - apply popPipeline_inv. exact Hiv.
  - unfold popPipeline. cbn [repairBudget updated]. by rewrite Eb.
  - apply (order_same (popPipeline (node.replica n))); [|exact Hpop]. apply popped_same.
    unfold order_core in Eo. injection Eo as -> -> -> -> ->. done.
  - eapply Nat.le_lt_trans; [apply need_le|]. unfold popPipeline. cbn [pipeline updated].
    rewrite Ev, Ep. cbn [fmap list_fmap tail]. by rewrite durables_forget.
Qed.

Lemma settled_viewed advance bound n entry rest target heard C :
  settled n entry rest heard C -> (2 * durables rest < bound)%nat ->
  leads advance bound heard C (completeCommitEntry advance (n {{ node.replica ::= fun r => beginViewChangeNow r target }})).
Proof.
  intros Hs Hb. destruct (settled_pop _ _ _ _ _ Hs) as [[_ Hpop] _]. destruct Hs as [[Hsafe Ho] Ep Hc].
  by eapply viewed_complete.
Qed.

Lemma restaged_viewed advance bound n entry rest entry' target heard C :
  settled n entry rest heard C -> restaged entry entry' -> (2 * durables rest < bound)%nat ->
  leads advance bound heard C
    (completeCommitEntry advance ((setFirst n entry') {{ node.replica ::= fun r => beginViewChangeNow r target }})).
Proof.
  intros Hs Hr Hb. destruct (settled_pop _ _ _ _ _ Hs) as [[_ Hpop] _]. destruct Hs as [[Hsafe Ho] Ep Hc].
  pose proof (setFirst_pipeline n entry' entry rest Ep) as Ep1.
  eapply viewed_complete; [exact (restaged_safe _ _ _ _ _ Hsafe Ep Hr)| |exact Ep1|exact Hb].
  apply (order_same (popPipeline (node.replica n))); [|exact Hpop]. apply popped_same. rewrite Ep1, Ep. done.
Qed.

Lemma yieldCheckpointToView_leads advance bound n entry rest heard C :
  settled n entry rest heard C -> (2 * durables rest < bound)%nat -> leads advance bound heard C (yieldCheckpointToView advance n entry).
Proof.
  intros Hs Hb. unfold yieldCheckpointToView. cbn [answered]. destruct (negb _).
  - by eapply (settled_fails _ _ n).
  - eapply (restaged_viewed _ _ _ entry); [|by split_and!|exact Hb]. eapply settled_core; [| |exact Hs]; done.
Qed.

Lemma captureSessions_core r target r' : captureSessions r target = Some r' -> core r' = core r.
Proof. unfold captureSessions. destruct (EncodeTrailer _ _) as [[encoded sum]|]; [|done]. by intros [= <-]. Qed.

Lemma afterCompact_leads advance bound n entry rest heard C :
  settled n entry rest heard C -> (2 * durables rest < bound)%nat -> leads advance bound heard C (afterCompact advance n entry).
Proof.
  intros Hs Hb. unfold afterCompact. destruct (_ <? _); [by eapply yieldCheckpointToView_leads|].
  destruct (checkpointAfter _ _) as [target|]; [|by eapply (settled_fails _ _ n)].
  match goal with |- leads _ _ _ _ (match ?x with Some _ => _ | None => _ end) => destruct x as [r1|] eqn:Er end; [|by eapply (settled_fails _ _ n)].
  assert (core r1 = core (node.replica n)) as Ec by (destruct (_ =? target); [by eapply captureSessions_core|by injection Er as ->]).
  assert (settled (n {{ node.replica := r1 }}) entry rest heard C) as Hs1 by (eapply settled_core; [| |exact Hs]; done).
  destruct (checkpointTrigger _ _) as [trigger|]; [|by eapply settled_fails].
  destruct (negb _); [by eapply settled_complete|]. destruct (negb _); [by eapply settled_fails|].
  cbn [answered]. destruct (negb _).
  - by eapply settled_fails.
  - match goal with |- context [setFirst ?x (atStage entry CommitStageCheckpointData)] => set (n2 := x) end.
    assert (settled n2 entry rest heard C) as Hs2 by (eapply settled_core; [| |exact Hs1]; done).
    assert (good (setFirst n2 (atStage entry CommitStageCheckpointData)) heard C) as Hg
      by (eapply st_good, settled_stage; [exact Hs2|by split_and!|done|exact (committing_not_replying _ _ _ _ _ Hs2)]).
    apply leads_some. destruct (default _ _); [|apply good_failing]; by eapply good_core; [| |exact Hg].
Qed.

Lemma applyCompact_leads advance bound n entry rest heard C :
  settled n entry rest heard C -> (2 * durables rest < bound)%nat -> leads advance bound heard C (applyCompact advance n entry).
Proof.
  intros Hs Hb. unfold applyCompact. destruct (negb _); [by eapply (settled_fails _ _ n)|by eapply afterCompact_leads].
Qed.

Lemma applyCheckpoint_leads {B} advance bound n entry rest manifest (blocks : option (checkpointBlocks B)) heard C :
  settled n entry rest heard C -> (2 * durables rest < bound)%nat ->
  leads advance bound heard C (applyCheckpoint advance n entry manifest blocks).
Proof.
  intros Hs Hb. unfold applyCheckpoint. destruct (_ <? _); [by eapply yieldCheckpointToView_leads|].
  destruct (_ || _); [by eapply (settled_fails _ _ n)|].
  destruct blocks as [blocks|]; [|by eapply (settled_fails _ _ n)].
  destruct (buildCheckpointState _ _ _) as [checkpoint|]; [|by eapply (settled_fails _ _ n)].
  match goal with |- context [submit ?r ?o] => pose proof (submit_core r o) as Ec; destruct (submit r o) as [r1 [handle|]] end;
    cbn [fst] in Ec.
  - eapply (settled_staged _ _ _ _ entry); [exact Hs|done|done|by split_and!|done|done].
  - by eapply (settled_fails _ _ n).
Qed.

Lemma beginReleaseActivation_good n target heard C : good n heard C -> good (beginReleaseActivation n target) heard C.
Proof.
  intros Hg. unfold beginReleaseActivation. destruct (_ || _); [by apply good_failing|].
  pose proof (trace_reset (node.machine n)) as Et. destruct (StartReset (node.machine n)) as [m [result|]]; cbn [fst] in Et.
  - destruct result; eapply good_core; [| |exact Hg| | |exact Hg]; done.
  - apply good_failing. eapply good_core; [| |exact Hg]; done.
Qed.

(** What follows the adoption of the checkpoint. *)
Lemma adopted_leads advance bound n entry rest target (other : bool) heard C :
  settled n entry rest heard C -> (2 * durables rest < bound)%nat ->
  leads advance bound heard C
    (if other then Some (beginReleaseActivation (n {{ node.replica ::= popPipeline }}) target)
     else completeCommitEntry advance
       (if view (node.replica n) <? pendingView (node.replica n)
        then n {{ node.replica := beginViewChangeNow ((node.replica n) {{ pendingView := 0 }}) (pendingView (node.replica n)) }} else n)).
Proof.
  intros Hs Hb. destruct other; [by apply leads_some, beginReleaseActivation_good, (settled_pop _ _ _ _ _ Hs)|].
  destruct (_ <? _); [|by eapply settled_complete].
  assert (settled (n {{ node.replica ::= fun r : Replica S => r {{ pendingView := 0 }} }}) entry rest heard C) as Hs' by (eapply settled_core; [| |exact Hs]; done).
  exact (settled_viewed advance bound _ entry rest (pendingView (node.replica n)) heard C Hs' Hb).
Qed.

Lemma finishCheckpointPersistence_leads advance bound n entry rest heard C :
  settled n entry rest heard C -> (2 * durables rest < bound)%nat -> leads advance bound heard C (finishCheckpointPersistence advance n entry).
Proof.
  intros Hs Hb. unfold finishCheckpointPersistence. destruct (negb _); [by eapply (settled_fails _ _ n)|].
  cbn [answered]. case_match; [apply leads_some; eapply good_core; [| |exact (st_good _ _ _ _ _ Hs)]; done|].
  destruct (negb _); [by eapply (settled_fails _ _ n)|].
  destruct (CheckpointCheck.ID _) as [id|]; [|by eapply (settled_fails _ _ n)].
  destruct (negb _); [by eapply (settled_fails _ _ n)|].
  destruct (checkpointAfter _ _) as [next|]; [|by eapply (settled_fails _ _ n)].
  match goal with |- leads _ _ _ _ (match ?x with Some _ => _ | None => _ end) => destruct x as [r1|] eqn:Er end; [|by eapply (settled_fails _ _ n)].
  assert (core r1 = core (node.replica n)) as Ec.
  { destruct (_ =? next); [by apply captureSessions_core in Er|]. injection Er as <-. done. }
  match goal with |- context [negb (?a =? Config.CurrentRelease (config ?x))] => set (r2 := x) end.
  assert (core r2 = core (node.replica n)) as Ec2 by exact Ec. clearbody r2.
  match goal with |- context [beginReleaseActivation (updated node.replica _ ?x)] => apply (adopted_leads advance bound x entry rest) end; [|done].
  eapply settled_core; [exact Ec2| |exact Hs]; done.
Qed.

(** *** Execution *)

(** The oldest entry is being executed, and the state machine has committed it
    if it is one of its operations. *)
Record finishing n (entry : pipelineEntry) (rest : list pipelineEntry) (heard : list Header) C : Prop := {
  fi_good : good n heard C;
  fi_first : pipeline (node.replica n) = entry :: rest;
  fi_stage : pipelineEntry.stage entry = CommitStageExecute;
  fi_replying : replying entry = false;
  fi_trace : trace (node.machine n) = executed (C ++ [itemOf entry]);
}.

Lemma finishing_core n n' entry rest heard C :
  core (node.replica n') = core (node.replica n) -> trace (node.machine n') = trace (node.machine n) ->
  finishing n entry rest heard C -> finishing n' entry rest heard C.
Proof.
  intros Ec Et [Hg Hf Hs Hr Ht]. split; [by eapply good_core| |done|done|by rewrite Et].
  injection Ec as _ _ _ _ _ _ _ _ Ep _ _. by rewrite Ep.
Qed.

(** The commit point moves to the entry. *)
Lemma finishing_settled n n' entry rest heard C :
  finishing n entry rest heard C ->
  core (node.replica n') = (base (node.replica n), prepareOp (pipelineEntry.header entry), repairBudget (node.replica n)) ->
  trace (node.machine n') = trace (node.machine n) ->
  settled (setFirst n' (atStage entry CommitStageCheckpointDurable)) (atStage entry CommitStageCheckpointDurable) rest heard (C ++ [itemOf entry]).
Proof.
  intros [[[Hi Hb] Ho] Ep Es Hr Ht] Ec Et. injection Ec as E1 E2 E3 E4 E5 E6 E7 E8 E9 E10 E11.
  assert (base (node.replica n') = base (node.replica n)) as Eb by (unfold base; congruence).
  assert (pipeline (node.replica n') = entry :: rest) as Ep' by congruence.
  pose proof (setFirst_pipeline n' (atStage entry CommitStageCheckpointDurable) entry rest Ep') as Ef.
  split; [|done|done]. split.
  - eapply (restaged_safe _ entry rest); [|done|by split_and!]. split; [by eapply base_inv|by rewrite E11].
  - destruct Ho as [Hc Hh Hm Htl _]. rewrite Ep in Hc, Hh, Htl. cbn [pendingItems tail] in Hc, Hh, Htl.
    assert (committing entry = false) as Hcm by (unfold committing; by rewrite Es). rewrite Hcm in Hc, Hh. cbn [fmap list_fmap] in Hc, Hh.
    split; rewrite ?Ef; cbn [pendingItems tail committing].
    + rewrite <- app_assoc. exact Hc.
    + rewrite <- app_assoc. cbn [setFirst node.replica updated setEntry]. unfold setEntry. cbn [headOp headChecksum lastPrepareTimestamp updated].
      rewrite E5, E6, E7. exact Hh.
    + intros i. rewrite last_snoc. intros [= <-]. exact E10.
    + exact Htl.
    + exists []. rewrite app_nil_r. split; [by rewrite <- Ht, <- Et|]. rewrite Ef. change (replying (atStage entry CommitStageCheckpointDurable)) with (replying entry).
      rewrite Hr. by left.
Qed.

Lemma finishing_fails advance bound n n' entry rest heard C err :
  finishing n entry rest heard C -> core (node.replica n') = core (node.replica n) -> trace (node.machine n') = trace (node.machine n) ->
  leads advance bound heard C (Some (failing n' err)).
Proof. intros Hs Ec Et. eapply leads_some, good_failing, good_core; [exact Ec|exact Et|apply Hs]. Qed.

Lemma continueCommitMaintenance_leads advance bound n n' entry rest heard C :
  finishing n entry rest heard C ->
  core (node.replica n') = (base (node.replica n), prepareOp (pipelineEntry.header entry), repairBudget (node.replica n)) ->
  trace (node.machine n') = trace (node.machine n) -> (2 * durables rest < bound)%nat ->
  leads advance bound heard C (continueCommitMaintenance advance n' entry).
Proof.
  intros Hf Ec Et Hb. apply leads_more with [itemOf entry]. pose proof (finishing_settled _ _ _ _ _ _ Hf Ec Et) as Hs.
  unfold continueCommitMaintenance. destruct (negb _); [by eapply afterCompact_leads|].
  assert (settled (setFirst (setFirst n' (atStage entry CommitStageCheckpointDurable)) (atStage (atStage entry CommitStageCheckpointDurable) CommitStageCompact))
    (atStage (atStage entry CommitStageCheckpointDurable) CommitStageCompact) rest heard (C ++ [itemOf entry])) as Hs2.
  { eapply settled_stage; [exact Hs|by split_and!|done|exact (fi_replying _ _ _ _ _ Hf)]. }
  match goal with |- context [StartCompact ?m ?o ?t] => pose proof (trace_compact m o t) as Ec2; destruct (StartCompact m o t) as [m' [result|]] end;
    cbn [fst] in Ec2.
  - destruct result.
    + eapply applyCompact_leads; [|exact Hb]. eapply settled_core; [| |exact Hs2]; done.
    + eapply leads_some, good_core; [| |apply Hs2]; done.
  - by eapply settled_fails.
Qed.

Lemma sendReply_core r entry body : core (sendReply r entry body) = core r.
Proof. unfold sendReply. by destruct (_ || _). Qed.

Lemma trackUpgradeWindow_core r entry : core (trackUpgradeWindow r entry) = core r.
Proof.
  unfold trackUpgradeWindow. destruct (checkpointAfter _ _); [|apply fail_core]. destruct (checkpointTrigger _ _); [|apply fail_core].
  by destruct (_ || _).
Qed.

Lemma finishCommit_leads advance bound n entry rest heard C :
  finishing n entry rest heard C -> (2 * durables rest < bound)%nat -> leads advance bound heard C (finishCommit advance n entry).
Proof.
  intros Hf Hb. unfold finishCommit.
  match goal with |- leads _ _ _ _ (match ?x with Some _ => _ | None => _ end) => destruct x as [r1|] eqn:Er end; [|by eapply (finishing_fails _ _ n)].
  assert (core r1 = core (node.replica n)) as Ec.
  { destruct (pipelineEntry.reply entry) as [frame|]; [|by injection Er as <-].
    destruct (CommitAt _ _ _ _) as [table [[]|]]; [|done]. injection Er as <-. by rewrite sendReply_core. }
  eapply (continueCommitMaintenance_leads _ _ n); [exact Hf| |done|exact Hb]. cbn [node.replica updated].
  rewrite trackUpgradeWindow_core. injection Ec as E1 E2 E3 E4 E5 E6 E7 E8 E9 E10 E11. unfold core, base.
  cbn [config quorums local view headOp headChecksum lastPrepareTimestamp pipelineCapacity pipeline commitMin repairBudget updated].
  by rewrite E1, E2, E3, E4, E5, E6, E7, E8, E9, E11.
Qed.

Lemma finishing_entry n entry rest entry' heard C :
  finishing n entry rest heard C -> restaged entry entry' -> pipelineEntry.stage entry' = CommitStageExecute -> replying entry' = false ->
  finishing (setFirst n entry') entry' rest heard C.
Proof.
  intros [[Hsafe Ho] Ep Es Hr Ht] Hre Es' Hr'. pose proof (setFirst_pipeline n entry' entry rest Ep) as Ep1. destruct Hre as [Ei Hre].
  split; [split; [by eapply restaged_safe|]|done|done|done|by rewrite Ei].
  eapply order_same; [|exact Ho]. unfold order_core. rewrite Ep1, Ep, !fmap_cons. unfold face. by rewrite Ei, Es, Es', Hr, Hr'.
Qed.

(** The reply of the executed entry is being written. *)
Lemma finishing_replies n entry rest entry' heard C :
  finishing n entry rest heard C -> restaged entry entry' -> pipelineEntry.stage entry' = CommitStageExecute -> replying entry' = true ->
  good (setFirst n entry') heard C.
Proof.
  intros [[Hsafe Ho] Ep Es Hr Ht] Hre Es' Hr'. pose proof (setFirst_pipeline n entry' entry rest Ep) as Ef.
  split; [by eapply restaged_safe|]. destruct Hre as [Ei Hre].
  destruct Ho as [Hc Hh Hm Htl _]. rewrite Ep in Hc, Hh, Htl. cbn [pendingItems tail] in Hc, Hh, Htl.
  assert (committing entry = false) as Hcm by (unfold committing; by rewrite Es). rewrite Hcm in Hc, Hh.
  assert (committing entry' = false) as Hcm' by (unfold committing; by rewrite Es').
  split; rewrite ?Ef; cbn [pendingItems tail]; rewrite ?Hcm', ?fmap_cons, ?Ei; try done.
  exists [itemOf entry']. rewrite Ei. split; [done|]. by rewrite Ef, Hr', Ei.
Qed.

Lemma storeReply_leads advance bound n entry rest heard C body :
  finishing n entry rest heard C -> (2 * durables rest < bound)%nat -> leads advance bound heard C (storeReply advance n entry body).
Proof.
  intros Hf Hb. unfold storeReply. destruct (buildReplyHeader _ _ _) as [[frame header]|]; [|by eapply (finishing_fails _ _ n)].
  match goal with |- leads _ _ _ _ (match ?x with Some _ => _ | None => _ end) => destruct x as [session|] end; [|by eapply (finishing_fails _ _ n)].
  destruct (PlanCommit _ _ _) as [table [plan|]]; [|by eapply (finishing_fails _ _ n)].
  set (entry1 := entry {{ pipelineEntry.reply := _; pipelineEntry.replyHeader := _; pipelineEntry.replyPlan := _ }}).
  set (n1 := setFirst _ entry1).
  assert (finishing n1 entry1 rest heard C) as Hf1.
  { eapply (finishing_entry _ entry); [|by split_and!|apply Hf|apply Hf]. eapply finishing_core; [| |exact Hf]; done. }
  destruct (_ =? _); [by eapply finishCommit_leads|].
  match goal with |- context [submit ?r ?o] => pose proof (submit_core r o) as Ec; destruct (submit r o) as [r2 [handle|]] end; cbn [fst] in Ec.
  - apply leads_some, (finishing_replies _ entry1 rest); [|by split_and!|apply Hf|done].
    eapply finishing_core; [| |exact Hf1]; done.
  - by eapply (finishing_fails _ _ n1).
Qed.

(** The oldest entry has not reached the state machine. *)
Record waiting n (entry : pipelineEntry) (rest : list pipelineEntry) (heard : list Header) C : Prop := {
  wa_good : good n heard C;
  wa_first : pipeline (node.replica n) = entry :: rest;
  wa_committing : committing entry = false;
  wa_replying : replying entry = false;
  wa_trace : trace (node.machine n) = executed C;
}.

Lemma waiting_core n n' entry rest heard C :
  core (node.replica n') = core (node.replica n) -> trace (node.machine n') = trace (node.machine n) ->
  waiting n entry rest heard C -> waiting n' entry rest heard C.
Proof.
  intros Ec Et [Hg Hf Hs Hr Ht]. split; [by eapply good_core| |done|done|by rewrite Et].
  injection Ec as _ _ _ _ _ _ _ _ Ep _ _. by rewrite Ep.
Qed.

Lemma waiting_stage n entry rest heard C entry' :
  waiting n entry rest heard C -> restaged entry entry' -> committing entry' = false -> replying entry' = false ->
  waiting (setFirst n entry') entry' rest heard C.
Proof.
  intros [[Hs Ho] Ep Hc Hr Ht] Hre Hc' Hr'. pose proof (setFirst_pipeline n entry' entry rest Ep) as Ef.
  split; [|done|done|done|done]. split; [by eapply restaged_safe|]. destruct Ho as [Hch Hh Hm Htl _]. destruct Hre as [Ei _].
  rewrite Ep in Hch, Hh, Htl. cbn [pendingItems tail] in Hch, Hh, Htl. rewrite Hc in Hch, Hh.
  assert (pendingItems (entry' :: rest) = itemOf <$> entry :: rest) as Epd by (cbn [pendingItems]; rewrite Hc'; cbn [fmap list_fmap]; by rewrite Ei).
  split; rewrite ?Ef, ?Epd; try done. exists []. rewrite app_nil_r. split; [done|]. rewrite Ef, Hr'. by left.
Qed.

Lemma waiting_fails advance bound n n' entry rest heard C err :
  waiting n entry rest heard C -> core (node.replica n') = core (node.replica n) -> trace (node.machine n') = trace (node.machine n) ->
  leads advance bound heard C (Some (failing n' err)).
Proof. intros Hs Ec Et. eapply leads_some, good_failing, good_core; [exact Ec|exact Et|apply Hs]. Qed.

(** The state machine has committed the entry, or has nothing to do with it. *)
Lemma waiting_called n m entry rest heard C :
  waiting n entry rest heard C -> pipelineEntry.stage entry = CommitStageExecute -> executes (itemOf entry) = true ->
  trace m = trace (node.machine n) ++ [commitInput entry] -> finishing (n {{ node.machine := m }}) entry rest heard C.
Proof.
  intros [[Hs Ho] Ep Hc Hr Ht] Es Hx Em.
  assert (trace m = executed (C ++ [itemOf entry])) as Et.
  { rewrite Em, Ht, executed_app. f_equal. unfold executed. rewrite filter_cons_True by done. done. }
  split; [|done|done|done|done]. split; [done|]. destruct Ho as [Hch Hh Hm Htl _]. split; try done.
  exists [itemOf entry]. split; [done|]. cbn [node.replica updated]. rewrite Ep, Hr. by right.
Qed.

Lemma waiting_skipped n entry rest heard C :
  waiting n entry rest heard C -> pipelineEntry.stage entry = CommitStageExecute -> executes (itemOf entry) = false ->
  finishing n entry rest heard C.
Proof.
  intros [Hg Ep Hc Hr Ht] Es Hx. split; [done..|]. rewrite Ht, executed_app. unfold executed at 3. rewrite filter_cons_False by congruence.
  cbn. by rewrite app_nil_r.
Qed.

Lemma replyBody_leads r m entry :
  isZeroID (prepareClient (pipelineEntry.header entry)) = false ->
  executes (itemOf entry) = true /\ trace (replyBody r m entry).1 = trace m ++ [commitInput entry] \/
  executes (itemOf entry) = false /\ trace (replyBody r m entry).1 = trace m.
Proof.
  intros Hz. unfold executes, replyBody. cbn [itemOf fst]. rewrite Hz. set (op := prepareOperation _).
  destruct (Z.eqb_spec op OperationRegister) as [->|]; [by right|]. destruct (Z.eqb_spec op OperationNoop) as [->|]; [by right|].
  destruct (Z.eqb_spec op OperationReconfigure) as [->|]; [by right|]. destruct (OperationApplicationMin <=? op); [|by right].
  left. unfold commitApplication. pose proof (trace_commit m (commitInput entry) (pipelineEntry.token entry)) as Et.
  by destruct (MachineCommit _ _ _) as [m' []].
Qed.

Lemma executeUpgrade_core r entry : core (executeUpgrade r entry).1 = core r.
Proof. unfold executeUpgrade. by repeat destruct (_ || _); repeat destruct (_ && _). Qed.

Lemma executeEntry_leads advance bound n entry rest heard C :
  waiting n entry rest heard C -> pipelineEntry.stage entry = CommitStageExecute -> (2 * durables rest < bound)%nat ->
  leads advance bound heard C (executeEntry advance n entry).
Proof.
  intros Hw Es Hb. unfold executeEntry. destruct (isZeroID _) eqn:Hz.
  - assert (executes (itemOf entry) = (prepareOperation (pipelineEntry.header entry) =? OperationPulse)) as Hx by (unfold executes; cbn; by rewrite Hz).
    destruct (_ =? OperationPulse) eqn:Hp; rewrite ?Hp in Hx.
    + unfold commitApplication. pose proof (trace_commit (node.machine n) (commitInput entry) (pipelineEntry.token entry)) as Et.
      destruct (MachineCommit _ _ _) as [m result]. cbn [fst] in Et. pose proof (waiting_called n m entry rest heard C Hw Es Hx Et) as Hf.
      destruct result; [by eapply finishCommit_leads|by eapply finishing_fails].
    + pose proof (waiting_skipped n entry rest heard C Hw Es Hx) as Hf. destruct (_ =? OperationUpgrade); [|by eapply finishCommit_leads].
      pose proof (executeUpgrade_core (node.replica n) entry) as Ec. destruct (executeUpgrade _ _) as [r1 []]; cbn [fst] in Ec.
      * eapply finishCommit_leads; [|exact Hb]. eapply finishing_core; [| |exact Hf]; done.
      * by eapply (finishing_fails _ _ n).
  - cbn [acquire]. destruct (negb _); [by eapply (waiting_fails _ _ n)|]. set (r1 := updated pool _ _).
    assert (waiting (n {{ node.replica := r1 }}) entry rest heard C) as Hw1 by (eapply waiting_core; [| |exact Hw]; done).
    cbn [node.machine updated]. pose proof (replyBody_leads r1 (node.machine n) entry Hz) as Hr.
    destruct (replyBody r1 (node.machine n) entry) as [m body]. cbn [fst] in Hr.
    assert (finishing (n {{ node.replica := r1; node.machine := m }}) entry rest heard C) as Hf.
    { destruct Hr as [[Hx Et]|[Hx Et]]; [by apply (waiting_called (n {{ node.replica := r1 }}))|].
      eapply finishing_core; [| |by eapply (waiting_skipped _ _ _ _ _ Hw1)]; done. }
    destruct body as [body|]; [|by eapply finishing_fails]. destruct (_ <? _); [by eapply finishing_fails|by eapply storeReply_leads].
Qed.

Lemma startPrefetch_leads advance n entry rest heard C :
  waiting n entry rest heard C -> prefetched entry = false -> pipelineEntry.durable entry = true ->
  leads advance (2 * durables (pipeline (node.replica n))) heard C (startPrefetch advance n entry).
Proof.
  intros Hw Hp Hd.
  assert (forall n' entry', waiting n' entry' rest heard C -> prefetched entry' = true -> pipelineEntry.durable entry' = true ->
    leads advance (2 * durables (pipeline (node.replica n))) heard C (advance n')) as Hgo.
  { intros n' entry' Hw' Hp' Hd'. exists [], n'. rewrite app_nil_r. split; [apply Hw'|]. right. split; [done|]. unfold need.
    rewrite (wa_first _ _ _ _ _ Hw), (wa_first _ _ _ _ _ Hw'), Hp'. unfold durables. rewrite !filter_cons_True by done. cbn [length]. lia. }
  pose proof (wa_replying _ _ _ _ _ Hw) as Hr. unfold startPrefetch. destruct (_ && _).
  - eapply Hgo; [eapply waiting_stage; [exact Hw|by split_and!|done|exact Hr]|done|done].
  - set (entry1 := atStage entry CommitStagePrefetch).
    assert (waiting (setFirst n entry1) entry1 rest heard C) as Hw1 by (eapply waiting_stage; [exact Hw|by split_and!|done|exact Hr]).
    match goal with |- context [StartPrefetch ?m ?i] => pose proof (trace_prefetch m i) as Et; destruct (StartPrefetch m i) as [m' [result|]] end;
      cbn [fst] in Et; [|by eapply (waiting_fails _ _ (setFirst n entry1))].
    assert (waiting ((setFirst n entry1) {{ node.machine := m' }}) entry1 rest heard C) as Hw2 by (eapply waiting_core; [| |exact Hw1]; done).
    destruct result; [|by apply leads_some, Hw2].
    eapply Hgo; [eapply waiting_stage; [exact Hw2|by split_and!|done|exact Hr]|done|done].
Qed.

Lemma commitReady_spec r entry :
  commitReady r = Some entry -> exists rest, pipeline r = entry :: rest /\ pipelineEntry.durable entry = true /\
    (isPrimary r = true -> pipelineEntry.quorum entry = true) /\ (isPrimary r = false -> prepareOp (pipelineEntry.header entry) <= commitMax r).
Proof.
  unfold commitReady. destruct (awaitingOpen r); [done|]. destruct (_ && _); [done|]. destruct (pipeline r) as [|e rest]; [done|].
  destruct (_ || _); [done|]. destruct (pipelineEntry.durable e) eqn:Hd; cbn [andb]; [|done].
  destruct (isPrimary r); cbn [andb orb negb]; destruct (_ || _) eqn:Eq || destruct (_ <=? _) eqn:Eq; try done; intros [= <-]; exists rest;
    split_and!; try done; rewrite ?orb_false_r in Eq; try done; lia.
Qed.

Lemma good_waiting n entry rest heard C :
  good n heard C -> pipeline (node.replica n) = entry :: rest -> committing entry = false -> pipelineEntry.stage entry <> CommitStageExecute ->
  waiting n entry rest heard C.
Proof.
  intros Hg Ep Hc Hs. destruct (oi_trace _ _ _ (proj2 Hg)) as (extra & Et & He). rewrite Ep in He.
  destruct (replying entry) eqn:Hr; [by destruct He|]. assert (extra = []) as -> by naive_solver. rewrite app_nil_r in Et. by split.
Qed.

Lemma advanceCommit_leads fuel n heard C :
  good n heard C ->
  leads (advanceCommit fuel) (need (node.replica n)) heard C (advanceCommit (Datatypes.S fuel) n).
Proof.
  intros Hg. cbn [advanceCommit]. destruct (commitReady (node.replica n)) as [entry|] eqn:Ec; [|by apply leads_some].
  destruct (commitReady_spec _ _ Ec) as (rest & Ep & Hd & _).
  assert (durables (pipeline (node.replica n)) = Datatypes.S (durables rest)) as Hdr by (rewrite Ep; unfold durables; by rewrite filter_cons_True).
  assert (forall stage, committing (atStage entry stage) = false -> committing entry = false -> pipelineEntry.stage entry <> CommitStageExecute ->
    waiting (setFirst n (atStage entry stage)) (atStage entry stage) rest heard C) as Hst.
  { intros stage Hc' Hc Hs. pose proof (good_waiting n entry rest heard C Hg Ep Hc Hs) as Hw.
    eapply waiting_stage; [exact Hw|by split_and!|done|apply Hw]. }
  assert (durables (pipeline (node.replica (setFirst n (atStage entry CommitStageCheckPrepare)))) = durables (pipeline (node.replica n))) as Hdr'.
  { rewrite (setFirst_pipeline n _ entry rest Ep), Ep. unfold durables. by rewrite !filter_cons_True. }
  unfold need, prefetched. rewrite Ep in Hdr, Hdr' |- *.
  destruct (pipelineEntry.stage entry) eqn:Es; try by apply leads_some.
  1-3: rewrite Nat.sub_0_r, <- Hdr'; apply (startPrefetch_leads _ _ _ rest); [apply Hst|done|done]; unfold committing; rewrite ?Es; done.
  1-2: apply (executeEntry_leads _ _ _ _ rest); [apply Hst; unfold committing; rewrite ?Es; done|done|rewrite Hdr; lia].
Qed.

(** Enough fuel is one more than the pipeline needs. *)
Lemma advanceCommit_total fuel n heard C :
  good n heard C -> (need (node.replica n) < fuel)%nat -> exists more n', advanceCommit fuel n = Some n' /\ good n' heard (C ++ more).
Proof.
  revert n C. induction fuel as [|fuel IH]; intros n C Hg Hn; [lia|].
  destruct (advanceCommit_leads fuel n heard C Hg) as (more & n' & Hg' & [->|[-> Hlt]]); [by exists more, n'|].
  destruct (IH n' (C ++ more) Hg' ltac:(lia)) as (more' & n'' & E & Hg''). exists (more ++ more'), n''. by rewrite app_assoc.
Qed.

Lemma advanceCommit_good fuel n n' heard C :
  good n heard C -> advanceCommit fuel n = Some n' -> exists more, good n' heard (C ++ more).
Proof.
  revert n C. induction fuel as [|fuel IH]; intros n C Hg E; [done|].
  destruct (advanceCommit_leads fuel n heard C Hg) as (more & n1 & Hg1 & [E1|[E1 _]]); rewrite E1 in E.
  - injection E as <-. by exists more.
  - destruct (IH n1 (C ++ more) Hg1 E) as (more' & Hg'). exists (more ++ more'). by rewrite app_assoc.
Qed.

(** What the stages reach is reached by the whole. *)
Lemma leads_good fuel bound n' heard C o :
  leads (advanceCommit fuel) bound heard C o -> o = Some n' -> exists more, good n' heard (C ++ more).
Proof.
  intros (more & n1 & Hg1 & [E1|[E1 _]]) E; rewrite E1 in E.
  - injection E as <-. by exists more.
  - destruct (advanceCommit_good fuel n1 n' heard (C ++ more) Hg1 E) as (more' & Hg'). exists (more ++ more'). by rewrite app_assoc.
Qed.

Lemma leads_total fuel bound heard C o :
  leads (advanceCommit fuel) bound heard C o -> (bound <= fuel)%nat -> exists more n', o = Some n' /\ good n' heard (C ++ more).
Proof.
  intros (more & n1 & Hg1 & [E1|[E1 Hlt]]) Hb; [by exists more, n1|]. rewrite E1.
  destruct (advanceCommit_total fuel n1 heard (C ++ more) Hg1 ltac:(lia)) as (more' & n' & E & Hg'). exists (more ++ more'), n'. by rewrite app_assoc.
Qed.
End order.
