(* ===== verification/ReplicaSafety.v ===== *)
(** * The safety of a replica

    The handlers of normal operation and of the commit as the steps of one
    replica, and what holds of every run: the commits are the prefix of one hash
    chain and reach the state machine in its order, the primary commits only
    what a replication quorum holds, and two replicas whose chains meet have the
    same history.  A view that is entered by installing a log starts a new run. *)

From stdpp Require Import relations.
From S2P Require Import Prelude Records Bytes Arith Checksum Header Config Ewah Clock Random Timers RepairBudget Reconfiguration.
From S2P Require Import Sessions Storage Checkpoint Superblock Wal WalRecovery BlockAllocator Replica ReplicaCheckpoint Release.
From S2P Require Import ViewChange ViewReports ReplicaSample StateMachine Normal NormalSafety Acknowledgements Requests Commit CommitSafety.

Section safety.
Context {S M B : Type} `{Recording M}.
Implicit Types r : Replica S.
Implicit Types n : node S M.
Implicit Types C : list item.
Import Replica.

(** ** Steps *)

(** What the other handlers may do: anything but change the pipeline, the head,
    the view, the configuration and the commit point. *)
Definition aside r r' : Prop := base r' = base r /\ commitMin r' = commitMin r /\ wf_budget (repairBudget r').

(** [heard] are the acknowledgements the replica has received. *)
Inductive node_step : node S M * list Header -> node S M * list Header -> Prop :=
| step_request n heard frame header body sample :
    node_step (n, heard) (n {{ node.replica ::= fun r => (handleRequest r (node.machine n) frame header body sample).1 }}, heard)
| step_pulse n heard sample : node_step (n, heard) (n {{ node.replica ::= fun r => (createPulse r sample).1 }}, heard)
| step_upgrade n heard sample : node_step (n, heard) (n {{ node.replica ::= fun r => (createUpgrade r sample).1 }}, heard)
| step_prepare n heard frame header sample :
    node_step (n, heard) (n {{ node.replica ::= fun r => (handlePrepare r frame header sample).1 }}, heard)
| step_prepare_ok n heard ack :
    0 <= Author ack -> node_step (n, heard) (n {{ node.replica ::= fun r => handlePrepareOK r ack }}, ack :: heard)
| step_acknowledge n heard : node_step (n, heard) (n {{ node.replica ::= acknowledgeDurablePrepares }}, heard)
| step_commit n heard header sample : node_step (n, heard) (n {{ node.replica ::= fun r => handleCommit r header sample }}, heard)
| step_view n heard target : node_step (n, heard) (n {{ node.replica ::= fun r => beginViewChange r target }}, heard)
| step_advance n heard fuel n' : advanceCommit fuel n = Some n' -> node_step (n, heard) (n', heard)
| step_io n heard fuel handle kind failed n' : pipelineCompletion fuel n handle kind failed = Some n' -> node_step (n, heard) (n', heard)
| step_prefetch n heard offset entry token :
    pipeline (node.replica n) !! offset = Some entry -> node_step (n, heard) (prefetchCompleted n offset entry token, heard)
| step_compact n heard fuel entry rest n' :
    pipeline (node.replica n) = entry :: rest -> pipelineEntry.stage entry = CommitStageCompact ->
    applyCompact (advanceCommit fuel) n entry = Some n' -> node_step (n, heard) (n', heard)
| step_checkpoint n heard fuel entry rest manifest (blocks : option (checkpointBlocks B)) n' :
    pipeline (node.replica n) = entry :: rest -> pipelineEntry.stage entry = CommitStageCheckpointData ->
    applyCheckpoint (advanceCommit fuel) n entry manifest blocks = Some n' -> node_step (n, heard) (n', heard)
| step_drain n heard fuel n' : finishCheckpointRepairDrain (advanceCommit fuel) n = Some n' -> node_step (n, heard) (n', heard)
| step_aside n heard r' answers :
    aside (node.replica n) r' -> node_step (n, heard) (n {{ node.replica := r'; node.answers := answers }}, heard).

(** ** The invariant is kept *)

Lemma acknowledgeAt_budget skip r offset : repairBudget (acknowledgeAt skip r offset) = repairBudget r.
Proof.
  unfold acknowledgeAt. destruct (pipeline r !! offset) as [entry|]; [|done]. destruct (_ || _); [done|].
  pose proof (acknowledge_core r entry) as E. destruct (acknowledge r entry) as [r' entry']. exact (f_equal snd E).
Qed.

Lemma acknowledgeAll_budget skip r : repairBudget (acknowledgeAll skip r) = repairBudget r.
Proof.
  unfold acknowledgeAll. generalize (seq 0 (length (pipeline r))). intros offsets. revert r.
  induction offsets as [|offset offsets IH]; intros r; [done|]. cbn [fold_left]. rewrite IH. apply acknowledgeAt_budget.
Qed.

Lemma appendCompleted_budget r offset entry : repairBudget (appendCompleted r offset entry) = repairBudget r.
Proof.
  unfold appendCompleted. destruct (negb _); [done|].
  match goal with |- context [acknowledge r ?e] => pose proof (acknowledge_core r e) as E; destruct (acknowledge r e) as [r' entry'] end.
  exact (f_equal snd E).
Qed.

Lemma handlePrepareOK_budget r ack : repairBudget (handlePrepareOK r ack) = repairBudget r.
Proof.
  unfold handlePrepareOK. destruct (_ || _); [done|]. destruct (list_find _ _) as [[offset entry]|]; [|done]. by destruct (negb _).
Qed.

Lemma extends_budget r r' : extends r r' -> repairBudget r' = repairBudget r.
Proof. intros [E|frame header handle _ _ _ _ E]; exact (f_equal snd E). Qed.

Lemma handlePrepare_budget r frame header sample : repairBudget (handlePrepare r frame header sample).1 = repairBudget r.
Proof.
  unfold handlePrepare. destruct (_ || _); [done|].
  match goal with |- context [pipeline ?x] => transitivity (repairBudget x); [|by case_match]; generalize x end. clear r. intros r.
  destruct (list_find _ _) as [[offset entry]|] eqn:Ef.
  - destruct (_ && _); [|done]. pose proof (sendPrepareOK_core r entry) as E. destruct (sendPrepareOK r entry) as [r' entry'].
    exact (f_equal snd E).
  - destruct (_ <=? _).
    + destruct (localHeaderEvidence r _) as [[known|] []]; try done. destruct (bool_decide _); [|done].
      exact (f_equal snd (sendPrepareOK_core r _)).
    + destruct (negb _); [done|]. destruct (_ || _); [exact (f_equal snd (requestView_core r _ _))|]. apply extends_budget, acceptPrepare_extends.
Qed.

Lemma beginViewChange_budget r target : repairBudget (beginViewChange r target) = repairBudget r.
Proof.
  unfold beginViewChange. destruct (_ || _); [done|]. destruct (_ || _); [done|]. apply beginViewChangeNow_keeps.
Qed.

(** Only the order and the budget are left to show. *)
Lemma good_replica n r' heard heard' C :
  good n heard C -> placed r' /\ pipeline_inv r' heard' -> repairBudget r' = repairBudget (node.replica n) ->
  order_inv r' (trace (node.machine n)) C -> good (n {{ node.replica := r' }}) heard' C.
Proof. intros [[_ Hb] _] Hi Eb Ho. split; [split|]; cbn [node.replica node.machine updated]; [done|by rewrite Eb|done]. Qed.

Lemma aside_good n r' answers heard C :
  aside (node.replica n) r' -> good n heard C -> good (n {{ node.replica := r'; node.answers := answers }}) heard C.
Proof.
  intros (Eb & Em & Hw) Hg. eapply (good_budget n _ (repairBudget r')); [exact Hg| |exact Hw|done].
  cbn [node.replica updated]. unfold core. by rewrite Eb, Em.
Qed.

(** An entry whose operation of the storage has completed. *)
Definition cleared (entry : pipelineEntry) : pipelineEntry := entry {{ pipelineEntry.io := noHandle; pipelineEntry.ioKind := None }}.

Lemma pipeline_cases p offset (entry : pipelineEntry) :
  p !! offset = Some entry -> Forall idle (tail p) -> (exists rest, p = entry :: rest /\ offset = 0%nat) \/ idle entry.
Proof.
  intros Ho Ht. destruct p as [|e rest]; [done|]. destruct offset as [|offset]; [injection Ho as ->; left; eauto|].
  right. by eapply Forall_lookup_1 in Ht.
Qed.

Lemma cleared_order r t C offset entry :
  order_inv r t C -> pipeline r !! offset = Some entry -> order_inv (setEntry r offset (cleared entry)) t C.
Proof.
  intros Hi Ho. destruct (replying entry) eqn:Hr.
  - destruct (pipeline_cases _ _ _ Ho (oi_tail _ _ _ Hi)) as [(rest & Ep & ->)|[_ Hf]]; [|congruence].
    destruct Hi as [Hc Hh Hm Htl (extra & Et & He)]. rewrite Ep in *. rewrite Hr in He.
    assert (pipeline (setEntry r 0 (cleared entry)) = cleared entry :: rest) as Ep'
      by (unfold setEntry; cbn [pipeline updated]; by rewrite Ep).
    split; rewrite ?Ep'; try done. exists extra. split; [done|]. rewrite Ep'. right. exact He.
  - apply (order_same r); [|done]. eapply setEntry_order; [done|exact Ho|]. unfold face. by rewrite Hr.
Qed.

Lemma cleared_good n offset entry heard C :
  good n heard C -> pipeline (node.replica n) !! offset = Some entry ->
  good (n {{ node.replica := setEntry (node.replica n) offset (cleared entry) }}) heard C.
Proof.
  intros Hg Ho. destruct Hg as [[Hi Hb] Hor] eqn:Eg. eapply (good_replica n); [exact Hg| |done|by eapply cleared_order].
  eapply setEntry_inv; [exact Hi|exact Ho|done|]. pose proof (entry_justified _ _ _ _ (proj2 Hi) Ho) as [Hw Ha Hq]. by split.
Qed.

(** An entry at a committing stage is the oldest. *)
Lemma settled_entry n offset entry heard C :
  good n heard C -> pipeline (node.replica n) !! offset = Some entry -> committing entry = true ->
  exists rest, settled n entry rest heard C.
Proof.
  intros Hg Ho Hc. destruct (pipeline_cases _ _ _ Ho (oi_tail _ _ _ (proj2 Hg))) as [(rest & Ep & _)|[Hs _]]; [by exists rest|].
  unfold committing in Hc. by rewrite Hs in Hc.
Qed.

Lemma finishCheckpointPersistence_good fuel n offset entry n' heard C :
  good n heard C -> pipeline (node.replica n) !! offset = Some entry ->
  finishCheckpointPersistence (advanceCommit fuel) n entry = Some n' -> exists more, good n' heard (C ++ more).
Proof.
  intros Hg Ho E. destruct (bool_decide (pipelineEntry.stage entry = CommitStageCheckpointSuperblock)) eqn:Es.
  - apply bool_decide_eq_true in Es. destruct (settled_entry _ _ _ _ _ Hg Ho) as [rest Hs]; [unfold committing; by rewrite Es|].
    eapply leads_good; [|exact E]. eapply finishCheckpointPersistence_leads; [exact Hs|apply Nat.lt_succ_diag_r].
  - unfold finishCheckpointPersistence in E. rewrite Es in E. cbn [negb] in E. injection E as <-. exists []. rewrite app_nil_r. by apply good_failing.
Qed.

(** The oldest entry has been executed and its reply is stored. *)
Lemma replied_finishing n offset entry heard C :
  good n heard C -> pipeline (node.replica n) !! offset = Some entry -> replying entry = true ->
  exists rest, finishing (n {{ node.replica := setEntry (node.replica n) offset (cleared entry) }}) (cleared entry) rest heard C.
Proof.
  intros Hg Ho Hr. pose proof (cleared_good _ _ _ _ _ Hg Ho) as Hg'. destruct Hg as [_ [_ _ _ Ht (extra & Et & He)]].
  destruct (pipeline_cases _ _ _ Ho Ht) as [(rest & Ep & ->)|[_ Hf]]; [|congruence]. rewrite Ep, Hr in He. destruct He as [Es ->].
  exists rest. split; [exact Hg'| |exact Es|done|exact Et].
  cbn [node.replica updated]. unfold setEntry. cbn [pipeline updated]. by rewrite Ep.
Qed.

Lemma pipelineCompletion_good fuel n handle kind failed n' heard C :
  good n heard C -> pipelineCompletion fuel n handle kind failed = Some n' -> exists more, good n' heard (C ++ more).
Proof.
  intros Hg E. unfold pipelineCompletion in E. destruct (list_find _ _) as [[offset entry]|] eqn:Ef.
  2:{ injection E as <-. exists []. by rewrite app_nil_r. }
  apply list_find_Some in Ef as (Ho & [_ Hk] & _). pose proof (cleared_good _ _ _ _ _ Hg Ho) as Hg'. fold (cleared entry) in E.
  set (n1 := n {{ node.replica := setEntry _ _ _ }}) in *.
  assert (pipeline (node.replica n1) !! offset = Some (cleared entry)) as Ho1.
  { unfold n1. cbn [node.replica updated]. unfold setEntry. cbn [pipeline updated]. apply list_lookup_insert_eq. by eapply lookup_lt_Some. }
  destruct failed.
  - injection E as <-. exists []. rewrite app_nil_r. apply good_failing. destruct (bool_decide _); [|exact Hg'].
    eapply good_core; [| |exact Hg']; done.
  - destruct kind; try (injection E as <-; exists []; rewrite app_nil_r; by apply good_failing).
    + injection E as <-. exists []. rewrite app_nil_r. destruct Hg' as [[Hi Hb] Hor] eqn:Eg.
      eapply (good_replica n1); [exact Hg'|by apply appendCompleted_inv|apply appendCompleted_budget|].
      eapply order_same; [|exact Hor]. by apply appendCompleted_order.
    + destruct (replied_finishing n offset entry heard C Hg Ho) as [rest Hf]; [unfold replying; by rewrite Hk|].
      eapply leads_good; [|exact E]. eapply finishCommit_leads; [exact Hf|apply Nat.lt_succ_diag_r].
    + by eapply finishCheckpointPersistence_good.
Qed.

Lemma prefetchCompleted_good n offset entry token heard C :
  good n heard C -> pipeline (node.replica n) !! offset = Some entry -> good (prefetchCompleted n offset entry token) heard C.
Proof.
  intros Hg Ho. unfold prefetchCompleted. destruct (bool_decide _) eqn:Es; cbn [negb]; [|by apply good_failing].
  apply bool_decide_eq_true in Es.
  destruct (pipeline_cases _ _ _ Ho (oi_tail _ _ _ (proj2 Hg))) as [(rest & Ep & ->)|[Hs _]]; [|by rewrite Hs in Es].
  assert (waiting n entry rest heard C) as Hw by (apply good_waiting; [done|done|unfold committing; by rewrite Es|by rewrite Es]).
  eapply wa_good. eapply (waiting_stage n entry rest heard C); [exact Hw|by split_and!|done|exact (wa_replying _ _ _ _ _ Hw)].
Qed.

Lemma drain_good fuel n n' heard C :
  good n heard C -> finishCheckpointRepairDrain (advanceCommit fuel) n = Some n' -> exists more, good n' heard (C ++ more).
Proof.
  intros Hg E. assert (forall n1, good n1 heard C -> Some n1 = Some n' -> exists more, good n' heard (C ++ more)) as Hs.
  { intros n1 Hg1 [= <-]. exists []. by rewrite app_nil_r. }
  unfold finishCheckpointRepairDrain in E. destruct (negb _); [by eapply Hs|]. cbn [answered] in E.
  set (n1 := n {{ node.answers ::= tail }}) in *. assert (good n1 heard C) as Hg1 by (eapply good_core; [| |exact Hg]; done).
  destruct (_ || _); [by eapply Hs|]. destruct (pipeline (node.replica n1)) as [|entry rest] eqn:Ep.
  - eapply Hs; [|exact E]. by apply good_failing.
  - eapply (finishCheckpointPersistence_good _ _ 0); [exact Hg1| |exact E]. by rewrite Ep.
Qed.

Lemma step_good n heard n' heard' C :
  node_step (n, heard) (n', heard') -> good n heard C -> exists more, good n' heard' (C ++ more).
Proof.
  intros Hs Hg. assert (forall n1 heard1, good n1 heard1 C -> exists more, good n1 heard1 (C ++ more)) as Hstay.
  { intros n1 heard1 Hg1. exists []. by rewrite app_nil_r. }
  pose proof Hg as [[Hi Hb] Ho].
  inversion Hs as [? ? frame header body sample|? ? sample|? ? sample|? ? frame header sample|? ? ack Ha|?|? ? header sample|? ? target|
    ? ? fuel ? E|? ? fuel handle kind failed ? E|? ? offset entry token Ho1|? ? fuel entry rest ? Ep Es E|
    ? ? fuel entry rest manifest blocks ? Ep Es E|? ? fuel ? E|? ? r' answers Ha]; subst.
  - apply Hstay, (extends_good n); [apply handleRequest_extends|done].
  - apply Hstay, (extends_good n); [apply createPulse_extends|done].
  - apply Hstay, (extends_good n); [apply createUpgrade_extends|done].
  - apply Hstay, (good_replica n _ heard'); [done|by apply handlePrepare_inv|apply handlePrepare_budget|by apply handlePrepare_order].
  - apply Hstay, (good_replica n _ heard); [done|by apply handlePrepareOK_inv|apply handlePrepareOK_budget|].
    eapply order_same; [apply handlePrepareOK_order|done].
  - apply Hstay, (good_replica n _ heard'); [done|by apply acknowledgeDurablePrepares_inv| |];
      unfold acknowledgeDurablePrepares; destruct (negb _); try done; [apply acknowledgeAll_budget|].
    eapply order_same; [apply acknowledgeAll_order|done].
  - apply Hstay, (good_core n); [apply handleCommit_core|done..].
  - apply Hstay, (good_replica n _ heard'); [done|by apply beginViewChange_inv|apply beginViewChange_budget|].
    eapply order_same; [apply beginViewChange_order|done].
  - by eapply advanceCommit_good.
  - by eapply pipelineCompletion_good.
  - by apply Hstay, prefetchCompleted_good.
  - eapply leads_good; [|exact E]. eapply applyCompact_leads; [|apply Nat.lt_succ_diag_r]. split; [done|exact Ep|]. unfold committing. by rewrite Es.
  - eapply leads_good; [|exact E]. eapply applyCheckpoint_leads; [|apply Nat.lt_succ_diag_r]. split; [done|exact Ep|]. unfold committing. by rewrite Es.
  - by eapply drain_good.
  - by apply Hstay, aside_good.
Qed.

Lemma run_good n heard n' heard' C :
  rtc node_step (n, heard) (n', heard') -> good n heard C -> exists more, good n' heard' (C ++ more).
Proof.
  remember (n, heard) as s eqn:E1. remember (n', heard') as s' eqn:E2. intros Hr. revert n heard C E1.
  induction Hr as [s|s [n1 heard1] s' Hs Hr IH]; intros n heard C E1 Hg; subst.
  - injection E1 as -> ->. exists []. by rewrite app_nil_r.
  - destruct (step_good _ _ _ _ _ Hs Hg) as [more Hg1]. destruct (IH eq_refl _ _ _ eq_refl Hg1) as [more' Hg'].
    exists (more ++ more'). by rewrite app_assoc.
Qed.

(** ** What holds of every run *)

(** The replica has committed the chain [C]: the prepares of the pipeline that
    are not committed continue it, the last operation is the commit point, and
    the state machine has been asked for the operations of the chain that are
    its own, and for none but the one being executed besides. *)
Record history n C : Prop := {
  hi_chain : chained (fst <$> C ++ pendingItems (pipeline (node.replica n)));
  hi_commit : forall i, last C = Some i -> commitMin (node.replica n) = prepareOp i.1;
  hi_trace : exists extra, trace (node.machine n) = executed (C ++ extra) /\
    (extra = [] \/ exists entry, head (pipeline (node.replica n)) = Some entry /\
       pipelineEntry.stage entry = CommitStageExecute /\ extra = [itemOf entry]);
}.

Lemma good_history n heard C : good n heard C -> history n C.
Proof.
  intros [_ [Hc Hh Hm Ht (extra & Et & He)]]. split; [done|done|]. exists extra. split; [done|].
  destruct (pipeline (node.replica n)) as [|entry rest]; [by left|]. destruct (replying entry); naive_solver.
Qed.

(** C3: commits happen in the order of one hash chain.  Whatever requests,
    prepares, acknowledgements and commit messages a replica handles, whatever
    completes, and whenever it leaves its view (installing another one starts a
    new run), what it has committed only grows, by
    prepares each of which names the one before by its checksum and has the next
    operation number and a later timestamp; the commit point is the last of
    them; and the state machine is asked to commit exactly those of them that
    are its own, in that order and each once, with at most the operation being
    executed in addition. *)
Theorem commit_in_order n heard n' heard' C :
  good n heard C -> rtc node_step (n, heard) (n', heard') -> exists more, history n' (C ++ more).
Proof. intros Hg Hr. destruct (run_good _ _ _ _ _ Hr Hg) as [more Hg']. exists more. by eapply good_history. Qed.

(** C2: the primary commits only what a quorum holds.  When the oldest prepare
    of the primary may be committed, there are at least as many distinct active
    replicas as the replication quorum of which each either is the primary
    itself, whose append of the prepare is durable, or is the author of an
    acknowledgement of this very prepare in this view that the primary has
    received.  This holds along every run of the steps above. *)
Theorem commit_has_quorum n heard n' heard' C entry :
  good n heard C -> rtc node_step (n, heard) (n', heard') ->
  commitReady (node.replica n') = Some entry -> isPrimary (node.replica n') = true ->
  pipelineEntry.durable entry = true /\
  exists voters, NoDup voters /\ Quorums.Replication (quorums (node.replica n')) <= zlen voters /\
    Forall (fun i => 0 <= i < activeCount (node.replica n') /\ holds (node.replica n') heard' entry i) voters.
Proof.
  intros Hg Hr Ec Hp. destruct (run_good _ _ _ _ _ Hr Hg) as [more [[[_ Hi] _] _]].
  destruct (commitReady_spec _ _ Ec) as (rest & Ep & Hd & Hq & _). split; [done|].
  assert (justified (node.replica n') heard' entry) as [Hw Ha Hqu] by (apply (entry_justified _ _ 0); [done|by rewrite Ep]).
  exists (members (pipelineEntry.acks entry)). split; [apply NoDup_filter, NoDup_seqZ|]. split; [by apply Hqu, Hq|].
  apply Forall_forall. intros i Hin. apply elem_of_members in Hin as [Hbit Hrange]. destruct (Ha i ltac:(lia) Hbit) as [Hlt Hh].
  split; [lia|done].
Qed.

(** ** Every call ends *)

Lemma durables_length p : (durables p <= length p)%nat.
Proof. apply length_filter. Qed.

Lemma pipelineCompletion_total fuel n handle kind failed heard C :
  good n heard C -> (2 * length (pipeline (node.replica n)) < fuel)%nat -> exists n', pipelineCompletion fuel n handle kind failed = Some n'.
Proof.
  intros Hg Hf. unfold pipelineCompletion. destruct (list_find _ _) as [[offset entry]|] eqn:Ef; [|by eexists].
  apply list_find_Some in Ef as (Ho & [_ Hk] & _). pose proof (cleared_good _ _ _ _ _ Hg Ho) as Hg'. fold (cleared entry).
  set (n1 := n {{ node.replica := setEntry _ _ _ }}) in *.
  assert (pipeline (node.replica n1) !! offset = Some (cleared entry)) as Ho1.
  { unfold n1. cbn [node.replica updated]. unfold setEntry. cbn [pipeline updated]. apply list_lookup_insert_eq. by eapply lookup_lt_Some. }
  assert (length (pipeline (node.replica n1)) = length (pipeline (node.replica n))) as El by (apply length_insert).
  destruct failed; [by eexists|]. destruct kind; try by eexists.
  - destruct (replied_finishing n offset entry heard C Hg Ho) as [rest Hfi]; [unfold replying; by rewrite Hk|].
    pose proof (durables_length rest). pose proof (f_equal length (fi_first _ _ _ _ _ Hfi)) as Er. fold n1 in Er. cbn [length] in Er.
    destruct (leads_total fuel fuel heard C (finishCommit (advanceCommit fuel) n1 (cleared entry))) as (more & n' & -> & _); [|lia|by eexists].
    eapply finishCommit_leads; [exact Hfi|lia].
  - destruct (bool_decide (pipelineEntry.stage (cleared entry) = CommitStageCheckpointSuperblock)) eqn:Es.
    + apply bool_decide_eq_true in Es. destruct (settled_entry _ _ _ _ _ Hg' Ho1) as [rest Hs]; [unfold committing; by rewrite Es|].
      pose proof (durables_length rest). pose proof (f_equal length (st_first _ _ _ _ _ Hs)) as Er. cbn [length] in Er.
      destruct (leads_total fuel fuel heard C (finishCheckpointPersistence (advanceCommit fuel) n1 (cleared entry))) as (more & n' & -> & _);
        [|lia|by eexists]. eapply finishCheckpointPersistence_leads; [exact Hs|lia].
    + unfold finishCheckpointPersistence. rewrite Es. by eexists.
Qed.

(** C16: advancing the commit ends.  The stages of a commit call each other, but
    a call that advances the commit, and one that completes an operation of the
    storage and then advances it, returns within twice as many nested calls as
    the pipeline has entries, and one more, in every state of a run: each moves the oldest entry on or
    removes one that was durable, and what is added to the pipeline meanwhile is
    not. *)
Theorem commit_terminates n heard n' heard' C fuel :
  good n heard C -> rtc node_step (n, heard) (n', heard') -> (2 * length (pipeline (node.replica n')) < fuel)%nat ->
  (exists n'', advanceCommit fuel n' = Some n'') /\
  (forall handle kind failed, exists n'', pipelineCompletion fuel n' handle kind failed = Some n'').
Proof.
  intros Hg Hr Hf. destruct (run_good _ _ _ _ _ Hr Hg) as [more Hg']. split; [|intros handle kind failed; by eapply pipelineCompletion_total].
  pose proof (need_le (node.replica n')). pose proof (durables_length (pipeline (node.replica n'))).
  destruct (advanceCommit_total fuel n' heard' _ Hg' ltac:(lia)) as (more' & n'' & E & _). by exists n''.
Qed.

(** ** Agreement *)

Definition distinguished (A C : list item) : Prop :=
  forall i j : item, i ∈ A -> j ∈ C -> HeaderChecksum i.1 = HeaderChecksum j.1 -> i = j.

Lemma chained_items (items : list item) k (i j : item) :
  chained (fst <$> items) -> items !! k = Some i -> items !! Datatypes.S k = Some j -> follows i.1 j.1.
Proof.
  unfold item in *. intros Hc Hi Hj.
  pose proof (list_lookup_fmap fst items k) as Ei. pose proof (list_lookup_fmap fst items (Datatypes.S k)) as Ej.
  rewrite Hi in Ei. rewrite Hj in Ej. exact (Hc k _ _ Ei Ej).
Qed.

Lemma chained_times (items : list item) j k (a b : item) :
  chained (fst <$> items) -> items !! j = Some a -> items !! k = Some b -> (j < k)%nat -> prepareTimestamp a.1 < prepareTimestamp b.1.
Proof.
  intros Hc Ha. revert b. induction k as [|k IH]; intros b Hb Hlt; [lia|].
  destruct (items !! k) as [c|] eqn:Ek; [|apply lookup_ge_None in Ek; apply lookup_lt_Some in Hb; lia].
  destruct (chained_items _ _ _ _ Hc Ek Hb) as (_ & _ & Ht). destruct (decide (j = k)) as [->|]; [congruence|].
  specialize (IH c eq_refl ltac:(lia)). lia.
Qed.

(** Chains that start together and meet are the same up to there. *)
Lemma chains_meet root (A C : list item) j k (i i' : item) :
  chained (fst <$> root :: A) -> chained (fst <$> root :: C) -> distinguished (root :: A) (root :: C) ->
  (root :: A) !! j = Some i -> (root :: C) !! k = Some i' -> HeaderChecksum i.1 = HeaderChecksum i'.1 ->
  j = k /\ take (Datatypes.S j) (root :: A) = take (Datatypes.S k) (root :: C).
Proof.
  intros Ha Hc Hd. revert k i i'. induction j as [|j IH]; intros k i i' Hj Hk E;
    pose proof (Hd i i' (list_elem_of_lookup_2 _ _ _ Hj) (list_elem_of_lookup_2 _ _ _ Hk) E) as <-.
  - injection Hj as <-. destruct k as [|k]; [done|].
    pose proof (chained_times _ 0 _ root _ Hc eq_refl Hk ltac:(lia)). lia.
  - destruct k as [|k].
    { injection Hk as <-. pose proof (chained_times _ 0 _ root _ Ha eq_refl Hj ltac:(lia)). lia. }
    destruct (lookup_lt_is_Some_2 (root :: A) j) as [p Ep]; [apply lookup_lt_Some in Hj; exact (Nat.lt_succ_l _ _ Hj)|].
    destruct (lookup_lt_is_Some_2 (root :: C) k) as [q Eq]; [apply lookup_lt_Some in Hk; exact (Nat.lt_succ_l _ _ Hk)|].
    destruct (chained_items _ _ _ _ Ha Ep Hj) as (_ & Pa & _). destruct (chained_items _ _ _ _ Hc Eq Hk) as (_ & Pc & _).
    destruct (IH k p q Ep Eq ltac:(congruence)) as [-> Et]. split; [done|].
    rewrite (take_S_r _ _ _ Hj), (take_S_r _ _ _ Hk). by rewrite Et.
Qed.

Lemma chained_prefix (A C : list item) : chained (fst <$> A ++ C) -> chained (fst <$> A).
Proof.
  intros Hc k previous next Hp Hn. apply (Hc k); rewrite fmap_app; by apply lookup_app_l_Some.
Qed.

End safety.

(** ** Witnesses *)

(** A state machine without state, whose every call succeeds at once. *)
#[local] Instance still_machine : StateMachine unit := {
  Validate _ _ _ := ValidationOK;
  PulseNeeded _ _ := false;
  StartPrefetch _ _ := (tt, Ok (Ready 0));
  MachineCommit _ _ _ := (tt, Ok []);
  StartCompact _ _ _ := (tt, Ok (Ready 0));
  StartReset _ := (tt, Ok (Ready tt));
}.

Definition root_item : item := (root_header, sample_prepare_bytes).

(** A replica that has appended operation 1, a pulse, and knows that it is
    committed. *)
Definition following (local : Z) : node unit (unit * list CommitInput) :=
  node.mk ((appended local) {{ Replica.commitMax := 1 }}) (tt, []) [].

Lemma following_good local : local = 0 \/ local = 1 \/ local = 2 -> good (following local) [] [root_item].
Proof.
  intros Hl. assert (0 <= local) as Hl0 by lia. destruct (rd_inv _ _ (appended_ready_first local Hl0)) as [Hp Hi]. split; [split|].
  - by apply (base_inv (appended local)).
  - eapply (new_budget 3 local); [done|by destruct Hl as [->|[->| ->]]|]. by destruct Hl as [->|[->| ->]].
  - split.
    + intros k previous next Hk Hn. destruct k as [|k]; [|by destruct k]. injection Hk as <-. injection Hn as <-.
      vm_compute. done.
    + intros i [= <-]. vm_compute. done.
    + intros i [= <-]. vm_compute. done.
    + constructor.
    + exists []. split; [vm_compute; reflexivity|by left].
Qed.

Definition advanced (local : Z) : node unit (unit * list CommitInput) :=
  default (following local) (advanceCommit 4 (following local)).

Lemma advanced_run local : local = 1 \/ local = 2 -> rtc (node_step (B := unit)) (following local, []) (advanced local, []).
Proof.
  intros Hl. apply rtc_once, (step_advance _ _ 4). unfold advanced.
  destruct (advanceCommit 4 (following local)) eqn:E; [done|]. exfalso.
  destruct Hl as [->| ->]; vm_compute in E; discriminate E.
Qed.

Lemma commit_in_order_witness :
  exists more, history (advanced 1) ([root_item] ++ more) /\ trace (node.machine (advanced 1)) = [inputOf (itemOf durable_first)].
Proof.
  destruct (commit_in_order (B := unit) (following 1) [] (advanced 1) [] [root_item]) as [more Hm];
    [apply following_good; lia|apply advanced_run; by left|].
  exists more. split; [exact Hm|]. vm_compute. reflexivity.
Defined.

Lemma commit_terminates_witness :
  exists n, advanceCommit 3 (following 1) = Some n.
Proof.
  destruct (commit_terminates (B := unit) (following 1) [] (following 1) [] [root_item] 3) as [Ha _];
    [apply following_good; lia|apply rtc_refl|vm_compute; lia|exact Ha].
Defined.

(** The acknowledgement of replica 1. *)
Definition first_ack : Header := Eval vm_compute in
  match Replica.sent (acknowledgeDurablePrepares (appended 1)) with SendReplica _ header _ :: _ => header | _ => zeroHeader end.

Definition counted : node unit (unit * list CommitInput) :=
  ((following 0) {{ node.replica ::= acknowledgeDurablePrepares }}) {{ node.replica ::= fun r => handlePrepareOK r first_ack }}.

Lemma commit_has_quorum_witness :
  exists entry voters, commitReady (node.replica counted) = Some entry /\ NoDup voters /\ 2 <= zlen voters /\
    Forall (fun i => 0 <= i < 3 /\ holds (node.replica counted) [first_ack] entry i) voters.
Proof.
  destruct (commitReady (node.replica counted)) as [entry|] eqn:E; [|exfalso; vm_compute in E; discriminate E].
  destruct (commit_has_quorum (B := unit) (following 0) [] counted [first_ack] [root_item] entry) as (_ & voters & Hn & Hq & Hf).
  - apply following_good. lia.
  - eapply rtc_l; [apply step_acknowledge|]. apply rtc_once, step_prepare_ok. vm_compute. discriminate.
  - exact E.
  - vm_compute. reflexivity.
  - exists entry, voters. split; [reflexivity|]. split; [exact Hn|]. split; [exact Hq|exact Hf].
Defined.

(** Replicas 1 and 2 have both committed and executed the first operation. *)
Lemma advanced_executed m C :
  m = 1 \/ m = 2 -> history (advanced m) C -> executed C = [inputOf (itemOf durable_first)].
Proof.
  intros Hm [_ _ (extra & Et & He)].
  assert (trace (node.machine (advanced m)) = [inputOf (itemOf durable_first)] /\
    Replica.pipeline (node.replica (advanced m)) = []) as [E Ep]
    by (destruct Hm as [->| ->]; vm_compute; by split).
  destruct He as [->|(entry & Hh & _)]; [by rewrite app_nil_r, E in Et|]. by rewrite Ep in Hh.
Qed.

