(* ===== verification/TimerHandlers.v ===== *)
(** * The timers of a replica

    What a replica does when a timer fires,
    [src/replication/replica_timer_handlers.go]: it pings, sends prepares again
    that have no quorum, heartbeats its commit point, and gives up the view when
    the primary is silent or has no quorum.  [handleRepairTimeout], which
    belongs to the repair of the log, is an argument of [tickTimers]. *)

From S2P Require Import Prelude Records Bytes Arith Checksum Header Config Ewah Clock Random Timers RepairBudget Reconfiguration.
From S2P Require Import Sessions Storage Checkpoint Superblock Wal WalRecovery BlockAllocator Replica Release.
From S2P Require Import ViewChange ViewReports ReplicaSample StateMachine Normal NormalSafety Acknowledgements Requests ReplicaCheckpoint Commit.

Section handlers.
Context {S M : Type} `{StateMachine M}.
Implicit Types r : Replica S.
Import Replica.

(** ** Messages *)

(** The header of a message of the replica itself. *)
Definition ownHeader r (view release command : Z) (fields : list (Z * list byte)) : Header :=
  mkHeader (zeros 16) (zeros 16) (Config.Group (config r)) 0 0 view release ProtocolVersion command (local r)
    (write_fields (zeros CommandFieldsSize) fields).

Definition sendPing r (sample : TimeSample) : Replica S :=
  let '(r, acquired) := acquire r in
  if negb acquired then r else
  let body := write_fields (zeros (u32 (u64 (ClusterConfig.ReleaseHistoryMax (cluster r) * 4))))
    (imap (fun index release => (Z.of_nat index * 4, putUint 4 release)) (releaseHistory r)) in
  let header := ownHeader r (durableView r) (Config.CurrentRelease (config r)) CommandPing
    [(0, checkpointID r); (16, putUint 8 (checkpointOp r)); (24, putUint 8 (Z.max 1 (TimeSample.Monotonic sample)));
     (32, putUint 2 (u16 (zlen (releaseHistory r))))] in
  match sealed header body with
  | None => r
  | Some (_, header) => send r (BroadcastReplicas header body)
  end.

Definition handlePing r (header : Header) (body : list byte) : Replica S :=
  let r := observePeerCheckpoint r (Author header) (getUint (slice (Fields header) 16 24)) in
  let r := observeReleaseReport r header body in
  let '(r, acquired) := acquire r in
  if negb acquired then r else
  let '(r, now) := clockNow r in
  let response := ownHeader r (durableView r) (Config.CurrentRelease (config r)) CommandPong
    [(0, slice (Fields header) 24 32); (8, putUint 8 (Z.max 1 (TimeSample.Wall now)))] in
  match sealed response [] with
  | None => r
  | Some (_, response) => send r (SendReplica (Author header) response [])
  end.

(** The clock of the replica learns from the answer; [wall] is its own time. *)
Definition handlePong (clock : ClockSynchronizer) (header : Header) (sample : TimeSample) (wall : Z) : ClockSynchronizer :=
  (Clock.Observe clock (Author header) (getUint (slice (Fields header) 0 8)) (getUint (slice (Fields header) 8 16))
     (TimeSample.Monotonic sample) wall).1.

Definition sendCommit r (sample : TimeSample) : Replica S :=
  match (localHeaderEvidence r (commitMin r)).1 with
  | None => fail r ErrReplicaInvariant
  | Some headerAtCommit =>
      let '(r, acquired) := acquire r in
      if negb acquired then r else
      let header := ownHeader r (view r) 0 CommandCommit
        [(0, HeaderChecksum headerAtCommit); (32, checkpointID r); (48, putUint 8 (checkpointOp r));
         (56, putUint 8 (commitMin r)); (64, putUint 8 (Z.max 1 (TimeSample.Monotonic sample)))] in
      match sealed header [] with
      | None => r
      | Some (_, header) => send r (BroadcastReplicas header [])
      end
  end.

Definition sendExitView r : Replica S :=
  let '(r, acquired) := acquire r in
  if negb acquired then r else
  match sealed (ownHeader r (view r) 0 CommandExitView []) [] with
  | None => r
  | Some (_, header) => send (handleExitView r header) (BroadcastReplicas header [])
  end.

(** ** Timeouts *)

Definition setTimer r (update : replicaTimers -> replicaTimers) : Replica S := r {{ timers ::= update }}.

(** [Backoff] of a timer, which draws from the generator of the replica. *)
Definition backoffTimer (fuel : nat) r (timer : Timeout) (store : Timeout -> replicaTimers -> replicaTimers) : option (Replica S) :=
  '(timer, generator, outcome) ←
    Timeout.Backoff fuel timer (Config.Process (config r)) (ProcessConfig.InitialRTT (Config.Process (config r))) (Some (random r));
  let r := (setTimer r (store timer)) {{ random := default (random r) generator }} in
  Some (match outcome with Err _ => fail r ErrTimer | Ok _ => r end).

(** The members an entry is sent to again. *)
Definition missing r (entry : pipelineEntry) : list Z :=
  filter (fun member => Z.land (pipelineEntry.acks entry) (replicaBit member) = 0 /\ member <> local r) (seqZ 0 (activeCount r)).

Definition resent r (entry : pipelineEntry) : list outgoing :=
  if pipelineEntry.quorum entry then []
  else (fun member => SendReplica member (pipelineEntry.header entry) (drop (Z.to_nat HeaderSize) (pipelineEntry.prepare entry))) <$> missing r entry.

Definition handlePrepareTimeout (fuel : nat) r : option (Replica S) :=
  if negb (bool_decide (status r = StatusNormal)) || negb (isPrimary r) || (zlen (pipeline r) =? 0)
  then Some (setTimer r (fun t => t {{ replicaTimers.prepare ::= Timeout.Reset }})) else
  let r := r {{ sent := sent r ++ mjoin (resent r <$> pipeline r) }} in
  backoffTimer fuel r (replicaTimers.prepare (timers r)) (fun timer t => t {{ replicaTimers.prepare := timer }}).

Definition handleAbdicationTimeout r : Replica S :=
  match pipeline r with
  | entry :: _ =>
      if bool_decide (status r = StatusNormal) && isPrimary r && negb (pipelineEntry.quorum entry) then sendExitView r else r
  | [] => r
  end.

Definition handleJoinTimeout (fuel : nat) r : option (Replica S) :=
  if negb (bool_decide (status r = StatusViewChange)) || negb (durableView r =? view r)
  then Some (setTimer r (fun t => t {{ replicaTimers.join ::= Timeout.Reset }})) else
  if Timeout.Attempts (replicaTimers.join (timers r)) =? 0 then
    r ← sendJoinView fuel r;
    backoffTimer fuel r (replicaTimers.join (timers r)) (fun timer t => t {{ replicaTimers.join := timer }})
  else
    if view r =? MaxView then Some (fail r ErrReplicaInvariant) else
    let r := setTimer r (fun t => t {{ replicaTimers.join ::= Timeout.Reset }}) in
    Some (beginViewChange r (view r + 1)).

Definition handleExitTimeout r (sample : TimeSample) : Replica S :=
  if negb (bool_decide (status r = StatusNormal)) || isPrimary r then r else
  match FailureDetector.Level (failureDetector r) (TimeSample.Monotonic sample) with
  | FailureRed => sendExitView r
  | _ => r
  end.

(** [ErrIOBackpressure] is not among the errors of the functions here. *)
Definition transientControlAdmission (err : replica_error) : bool :=
  match err with ErrReplicaBackpressure | ErrFramePoolEmpty => true | _ => false end.

(** A prepare the replica starts itself: an error that passes is ignored. *)
Definition admitted (attempt : Replica S * option replica_error) : Replica S :=
  match attempt with
  | (r, Some err) => if transientControlAdmission err then r else fail r err
  | (r, None) => r
  end.

Definition handlePulseTimeout r (m : M) (sample : TimeSample) : Replica S :=
  if negb (bool_decide (status r = StatusNormal)) || negb (isPrimary r) || negb (durableView r =? view r) then r else
  if (1 <? activeCount r) && negb (TimeSample.Synchronized sample) then r else
  if negb (upgradeTarget r =? 0) then admitted (createUpgrade r sample) else
  if (zlen (pipeline r) =? pipelineCapacity r) || negb (PulseNeeded m (lastPrepareTimestamp r)) then r else
  if existsb (fun entry => prepareOperation (pipelineEntry.header entry) =? OperationPulse) (pipeline r) then r else
  admitted (createPulse r sample).

(** ** A tick *)

(** One timer: [get] and [store] are its place among the timers. *)
Definition tickTimer r (get : replicaTimers -> Timeout) (store : Timeout -> replicaTimers -> replicaTimers) : Replica S * bool :=
  let '(timer, outcome) := Timeout.Tick (get (timers r)) in
  let r := setTimer r (store timer) in
  match outcome with
  | Err _ => (fail r ErrTimer, false)
  | Ok fired => (r, fired)
  end.

(** One timer and its handler. *)
Definition onTimer r (get : replicaTimers -> Timeout) (store : Timeout -> replicaTimers -> replicaTimers)
    (handler : Replica S -> option (Replica S)) (reset : bool) : option (Replica S) :=
  let '(r, fired) := tickTimer r get store in
  if negb fired then Some r else
  r ← handler r;
  Some (if reset then setTimer r (fun t => store (Timeout.Reset (get t)) t) else r).

Definition tickTimers (fuel : nat) (handleRepairTimeout : Replica S -> TimeSample -> option (Replica S)) r (m : M) (sample : TimeSample)
    : option (Replica S) :=
  r ← onTimer r replicaTimers.ping (fun timer t => t {{ replicaTimers.ping := timer }}) (fun r => Some (sendPing r sample)) true;
  r ← onTimer r replicaTimers.prepare (fun timer t => t {{ replicaTimers.prepare := timer }}) (handlePrepareTimeout fuel) false;
  r ← onTimer r replicaTimers.abdication (fun timer t => t {{ replicaTimers.abdication := timer }})
        (fun r => Some (handleAbdicationTimeout r)) true;
  r ← onTimer r replicaTimers.commit (fun timer t => t {{ replicaTimers.commit := timer }})
        (fun r => Some (if bool_decide (status r = StatusNormal) && isPrimary r then sendCommit r sample else r)) true;
  r ← onTimer r replicaTimers.exit (fun timer t => t {{ replicaTimers.exit := timer }}) (fun r => Some (handleExitTimeout r sample)) true;
  r ← onTimer r replicaTimers.join (fun timer t => t {{ replicaTimers.join := timer }}) (handleJoinTimeout fuel) false;
  r ← onTimer r replicaTimers.pulse (fun timer t => t {{ replicaTimers.pulse := timer }}) (fun r => Some (handlePulseTimeout r m sample)) true;
  onTimer r replicaTimers.repair (fun timer t => t {{ replicaTimers.repair := timer }}) (fun r => handleRepairTimeout r sample) true.

(** ** Retransmission *)

Lemma backoffTimer_sent fuel r timer store r' : backoffTimer fuel r timer store = Some r' -> sent r' = sent r.
Proof.
  unfold backoffTimer. destruct (Timeout.Backoff _ _ _ _ _) as [[[timer' generator] outcome]|]; [|done]. cbn [mbind option_bind].
  intros [= <-]. destruct outcome; [done|]. unfold fail. by case_match.
Qed.

(** A prepare without a quorum is sent again to exactly those that may lack
    it.  When the timer fires at a primary, the messages sent are, for every
    prepare of the pipeline without a quorum and every other active replica from
    which no acknowledgement of it is counted, the prepare to that replica. *)
Theorem prepare_resent fuel r heard r' :
  placed r /\ pipeline_inv r heard -> status r = StatusNormal -> isPrimary r = true -> handlePrepareTimeout fuel r = Some r' ->
  exists new, sent r' = sent r ++ new /\
    forall message, message ∈ new <-> exists entry member,
      entry ∈ pipeline r /\ pipelineEntry.quorum entry = false /\ 0 <= member < activeCount r /\ member <> local r /\
      Z.testbit (pipelineEntry.acks entry) member = false /\
      message = SendReplica member (pipelineEntry.header entry) (drop (Z.to_nat HeaderSize) (pipelineEntry.prepare entry)).
Proof.
  intros [Hp _] Hs Hpr E. exists (mjoin (resent r <$> pipeline r)). split.
  - unfold handlePrepareTimeout in E. rewrite Hs, bool_decide_true, Hpr in E by done. cbn [negb orb] in E.
    destruct (pipeline r) as [|entry rest] eqn:Ep.
    + injection E as <-. cbn. by rewrite app_nil_r.
    + apply backoffTimer_sent in E. by rewrite <- Ep in *.
  - intros message. rewrite list_elem_of_join. setoid_rewrite list_elem_of_fmap. unfold resent, missing. split.
    + intros (messages & Hin & entry & -> & He). destruct (pipelineEntry.quorum entry) eqn:Hq; [by apply elem_of_nil in Hin|].
      apply list_elem_of_fmap in Hin as (member & -> & Hm). apply list_elem_of_filter in Hm as [[Hbit Hne] Hm]. apply elem_of_seqZ in Hm.
      exists entry, member. split_and!; try done; [lia|lia|]. apply land_join_bit; [|done]. destruct Hp. lia.
    + intros (entry & member & He & Hq & Hm & Hne & Hbit & ->). eexists. split; [|exists entry; split; [reflexivity|done]]. rewrite Hq.
      apply list_elem_of_fmap. exists member. split; [done|]. apply list_elem_of_filter. split; [|apply elem_of_seqZ; lia]. split; [|done].
      apply land_join_bit; [|done]. destruct Hp. lia.
Qed.

(** ** Heartbeats *)

(** What a commit message says. *)
Lemma sendCommit_sent r sample known rest :
  wf_header known -> zlen (checkpointID r) = 16 -> is_u64 (commitMin r) -> is_u64 (TimeSample.Monotonic sample) ->
  (localHeaderEvidence r (commitMin r)).1 = Some known -> pool r = true :: rest ->
  exists header, sent (sendCommit r sample) = sent r ++ [BroadcastReplicas header []] /\
    View header = view r /\ Author header = local r /\ slice (Fields header) 0 16 = HeaderChecksum known /\
    getUint (slice (Fields header) 56 64) = commitMin r /\ getUint (slice (Fields header) 64 72) = Z.max 1 (TimeSample.Monotonic sample).
Proof.
  intros Hw Hid Hc Hm El Hp. unfold sendCommit. rewrite El. cbn [acquire]. rewrite Hp. cbn [head default id negb tail].
  match goal with |- context [sealed ?h []] => destruct (sealed_some h []) as (frame & header & Es); [done..|];
    pose proof (sealed_same _ _ _ _ Es) as (Ea & Ev & Ef) end.
  rewrite Es. exists header. cbn [ownHeader Author View Fields local view updated] in Ea, Ev, Ef. rewrite Ea, Ev, Ef.
  split; [done|]. split; [done|]. split; [done|]. set (fields := [_; _; _; _; _]).
  pose proof (wf_HeaderChecksum _ Hw) as Hk.
  assert (layout_ok 128 (field_sizes fields) = true) as Hok.
  { unfold fields, field_sizes. cbn [fmap list_fmap checkpointID updated]. rewrite Hk, Hid, !zlen_putUint by lia. done. }
  assert (forall k o bs b, fields !! k = Some (o, bs) -> b = o + zlen bs -> slice (write_fields (zeros CommandFieldsSize) fields) o b = bs)
    as Hr by (intros; by eapply field_index).
  rewrite (Hr 0%nat 0 (HeaderChecksum known) 16 eq_refl), (Hr 3%nat 56 (putUint 8 (commitMin r)) 64 eq_refl),
    (Hr 4%nat 64 (putUint 8 (Z.max 1 (TimeSample.Monotonic sample))) 72 eq_refl) by (rewrite ?Hk, ?zlen_putUint by lia; lia).
  rewrite (getUint_putUint 8 (commitMin r) Hc).
  assert (is_u64 (Z.max 1 (TimeSample.Monotonic sample))) as Hmax by width_lia. rewrite (getUint_putUint 8 _ Hmax). split; [exact eq_refl|]. split; exact eq_refl.
Qed.

(** C18: a heartbeat lets a backup commit.  The commit message a primary sends
    tells a backup of its view that has the prepare at the primary's commit
    point how far it may commit: the backup stays in the view, its commit bound
    reaches that point, and a durable prepare at the front of its pipeline up to
    there is ready to be committed. *)
Theorem commit_learned p r known known' rest sample sample' :
  wf_header known -> zlen (checkpointID p) = 16 -> is_u64 (commitMin p) -> is_u64 (TimeSample.Monotonic sample) ->
  (localHeaderEvidence p (commitMin p)).1 = Some known -> pool p = true :: rest -> isPrimary p = true ->
  config r = config p -> view r = view p -> status r = StatusNormal -> isPrimary r = false ->
  (localHeaderEvidence r (commitMin p)).1 = Some known' -> HeaderChecksum known' = HeaderChecksum known ->
  lastPrimaryCommit r < TimeSample.Monotonic sample -> commitMin p <= headOp r ->
  exists header, sent (sendCommit p sample) = sent p ++ [BroadcastReplicas header []] /\
    let r' := handleCommit r header sample' in
    status r' = StatusNormal /\ view r' = view r /\ commitMin p <= commitMax r' /\
    (forall entry others, pipeline r = entry :: others -> pipelineEntry.durable entry = true ->
       prepareOp (pipelineEntry.header entry) <= commitMin p -> awaitingOpen r = false -> fatalErr r = None -> replyRepairing r = false ->
       commitReady r' = Some entry).
Proof.
  intros Hw Hid Hc Hm El Hp Hprim Ecfg Ev Hs Hback Er Ek Hlast Hhead.
  destruct (sendCommit_sent p sample known rest Hw Hid Hc Hm El Hp) as (header & Esent & Hv & Ha & Hk & Hcommit & Hmono).
  exists header. split; [exact Esent|].
  assert (primaryOf r (view r) = local p) as Eprim.
  { unfold isPrimary in Hprim. apply Z.eqb_eq in Hprim. unfold primaryOf, membership in *. by rewrite Ecfg, Ev. }
  unfold handleCommit. rewrite Hs, bool_decide_true, Hback, Hv, Ev, Z.eqb_refl, Ha by done. rewrite <- Ev, Eprim, Z.eqb_refl. cbn [negb orb].
  rewrite Hmono, Hcommit, Hk, (proj2 (Z.leb_gt _ _)) by lia. rewrite Er, Ek, bool_decide_true by done. cbn [negb].
  set (r1 := r {{ lastPrimaryCommit := _; failureDetector ::= _ }}).
  set (r2 := if commitMax r1 <? commitMin p then r1 {{ commitMax := commitMin p }} else r1).
  assert (headOp r2 = headOp r /\ commitMax r2 = Z.max (commitMax r) (commitMin p)) as [Eh Em].
  { unfold r2. destruct (Z.ltb_spec (commitMax r1) (commitMin p)); split; try done; cbn in *; lia. }
  rewrite Eh, (proj2 (Z.ltb_ge _ _)) by lia. cbn [andb]. rewrite Em.
  split; [unfold r2; by case_match|]. split; [unfold r2; by case_match|]. split; [lia|].
  intros entry others Ep Hd Hop Hopen Hfatal Hrep.
  assert (commitReady r2 = (if pipelineEntry.durable entry && (prepareOp (pipelineEntry.header entry) <=? commitMax r2) then Some entry else None)) as ->.
  { unfold commitReady. assert (isPrimary r2 = false) as -> by (unfold r2; by case_match).
    assert (awaitingOpen r2 = false /\ status r2 = StatusNormal /\ pipeline r2 = entry :: others /\ fatalErr r2 = None /\ replyRepairing r2 = false)
      as (-> & -> & -> & -> & ->) by (unfold r2; by case_match).
    cbn [negb andb orb]. done. }
  rewrite Hd, Em, (proj2 (Z.leb_le _ _)) by lia. done.
Qed.

(** ** Leaving a view *)

Lemma persistView_view r install commit head headers :
  view (persistView r install commit head headers).1 = view r /\ status (persistView r install commit head headers).1 = status r.
Proof.
  unfold persistView. destruct (_ || _); [done|]. destruct (mapM _ _); [|done]. unfold submit. by destruct (default _ _).
Qed.

Lemma beginViewChangeNow_view r target : view (beginViewChangeNow r target) = target /\ status (beginViewChangeNow r target) = StatusViewChange.
Proof.
  unfold beginViewChangeNow.
  match goal with |- context [persistView ?x false ?c ?h ?l] => destruct (persistView_view x false c h l) as [Ev Es];
    destruct (persistView x false c h l) as [r1 [err|]] end; cbn [fst] in *; [|by rewrite Ev, Es].
  unfold fail. case_match; cbn [view status updated]; by rewrite Ev, Es.
Qed.

(** The replica is leaving view [v]: it has, or will when what it waits for
    has completed. *)
Definition leaves (v : Z) r : Prop := (view r = v + 1 /\ status r = StatusViewChange) \/ (view r = v /\ v < pendingView r).

Lemma beginViewChange_leaves r v : view r = v -> status r = StatusNormal -> leaves v (beginViewChange r (v + 1)).
Proof.
  intros Ev Hs. unfold beginViewChange. rewrite Ev, (proj2 (Z.leb_gt _ _)), Hs by lia. cbn [orb]. rewrite bool_decide_false by done.
  destruct (_ || _); [right|left; apply beginViewChangeNow_view]. cbn [view pendingView updated]. split; [done|lia].
Qed.

Lemma handleExitView_leaves r v header : v <> MaxView -> View header = v -> leaves v r -> leaves v (handleExitView r header).
Proof.
  intros Hmax Ev [[Hv Hs]|[Hv Hp]]; unfold handleExitView; rewrite Ev, Hv, (proj2 (Z.ltb_ge _ _)) by lia.
  - rewrite Hs. rewrite bool_decide_false by done. by left.
  - destruct (bool_decide (status r = StatusNormal)) eqn:Es; [|by right]. apply bool_decide_eq_true in Es. cbn [negb orb].
    destruct (_ || _); [by right|]. destruct (negb _); [by right|]. destruct (_ <? _); [by right|]. cbn [view updated]. rewrite Hv.
    rewrite (proj2 (Z.eqb_neq _ _)) by done. by apply beginViewChange_leaves.
Qed.

(** The exits the replica has counted in its view. *)
Record counting (v : Z) (authors : list Z) (quorum count : Z) r : Prop := {
  ct_view : view r = v /\ status r = StatusNormal;
  ct_group : Quorums.ViewChange (quorums r) = quorum /\ activeCount r = count;
  ct_width : is_u16 (exitViewBits r);
  ct_bits : forall i, i ∈ authors -> Z.testbit (exitViewBits r) i = true;
  ct_short : zlen (members (exitViewBits r)) < quorum;
}.

Lemma handleExitView_counts r v authors quorum count header :
  v <> MaxView -> count <= 16 -> counting v authors quorum count r -> View header = v -> 0 <= Author header < count ->
  counting v (Author header :: authors) quorum count (handleExitView r header) \/ leaves v (handleExitView r header).
Proof.
  intros Hmax Hc [[Hv Hs] [Hq Hac] Hw Hb Hsh] Ev Ha. unfold handleExitView. rewrite Ev, Hv, Hs, Hac, Z.ltb_irrefl, Z.eqb_refl, bool_decide_true by done.
  cbn [negb orb]. rewrite (proj2 (Z.leb_gt _ _)) by lia. fold (replicaBit (Author header)).
  destruct (Z.eqb_spec (Z.land (exitViewBits r) (replicaBit (Author header))) 0) as [Ez|Ez]; cbn [negb].
  - cbn [exitViewBits quorums view updated]. rewrite Hq, countAckBits_count by (apply lor_u16; [done|apply replicaBit_u16]).
    destruct (Z.ltb_spec (zlen (members (Z.lor (exitViewBits r) (replicaBit (Author header))))) quorum).
    + left. split; [done|done| |intros i Hi|done]; cbn [exitViewBits updated].
      * apply lor_u16; [done|apply replicaBit_u16].
      * rewrite Z.lor_spec. apply elem_of_cons in Hi as [->|Hi]; [|by rewrite Hb].
        rewrite replicaBit_testbit, Z.eqb_refl by lia. apply orb_true_r.
    + right. rewrite Hv, (proj2 (Z.eqb_neq _ _)) by done. by apply beginViewChange_leaves.
  - left. split; [done|done|done| |done]. intros i Hi. apply elem_of_cons in Hi as [->|Hi]; [|by apply Hb].
    destruct (Z.testbit (exitViewBits r) (Author header)) eqn:Eb; [done|]. exfalso. apply Ez, land_join_bit; [lia|done].
Qed.

Lemma exits_counted v quorum count headers : forall r authors,
  v <> MaxView -> count <= 16 -> Forall (fun header => View header = v /\ 0 <= Author header < count) headers ->
  counting v authors quorum count r \/ leaves v r ->
  (exists authors', counting v authors' quorum count (fold_left handleExitView headers r) /\ (Author <$> headers) ⊆ authors') \/
  leaves v (fold_left handleExitView headers r).
Proof.
  induction headers as [|header headers IH] using rev_ind; intros r authors Hmax Hc Hf Hr.
  - destruct Hr as [Hr|Hr]; [left|by right]. exists authors. split; [done|]. apply list_subseteq_nil.
  - apply Forall_app in Hf as [Hf Hh]. apply Forall_inv in Hh as [Ev Ha]. rewrite fold_left_app. cbn [fold_left].
    destruct (IH r authors Hmax Hc Hf Hr) as [(authors' & Hct & Hsub)|Hl]; [|right; by apply handleExitView_leaves].
    destruct (handleExitView_counts _ v authors' quorum count header Hmax Hc Hct Ev Ha) as [Hct'|Hl']; [left|by right].
    exists (Author header :: authors'). split; [done|]. rewrite fmap_app. set_solver.
Qed.

Lemma sendExitView_sent r rest :
  pool r = true :: rest -> exists header, sent (sendExitView r) = sent (handleExitView (r {{ pool := rest }}) header) ++ [BroadcastReplicas header []] /\
    View header = view r /\ Author header = local r.
Proof.
  intros Hp. unfold sendExitView. cbn [acquire]. rewrite Hp. cbn [head default id negb tail].
  match goal with |- context [sealed ?h []] => destruct (sealed_some h []) as (frame & header & Es); [done..|];
    pose proof (sealed_same _ _ _ _ Es) as (Ea & Ev & _) end.
  rewrite Es. exists header. split; [done|]. split; [exact Ev|exact Ea].
Qed.

(** A backup of view [v] that takes the primary for failed. *)
Record suspects (v count : Z) r (sample : TimeSample) : Prop := {
  su_view : view r = v /\ status r = StatusNormal /\ isPrimary r = false;
  su_local : 0 <= local r < count;
  su_red : FailureDetector.Level (failureDetector r) (TimeSample.Monotonic sample) = FailureRed;
  su_pool : exists rest, pool r = true :: rest;
}.

Lemma handleExitTimeout_sent v count r sample :
  suspects v count r sample -> exists header, last (sent (handleExitTimeout r sample)) = Some (BroadcastReplicas header []) /\
    View header = v /\ Author header = local r.
Proof.
  intros [(Hv & Hs & Hp) _ Hred [rest Hpool]]. unfold handleExitTimeout. rewrite Hs, bool_decide_true, Hp, Hred by done. cbn [negb orb].
  destruct (sendExitView_sent r rest Hpool) as (header & -> & Ev & Ea). exists header. rewrite last_snoc. split; [done|]. by rewrite <- Hv.
Qed.

Lemma exits_sent v count backups :
  Forall (fun b : Replica S * TimeSample => suspects v count b.1 b.2) backups ->
  exists headers, Forall2 (fun b header => last (sent (handleExitTimeout b.1 b.2)) = Some (BroadcastReplicas header [])) backups headers /\
    Forall (fun header => View header = v /\ 0 <= Author header < count) headers /\ Author <$> headers = (fun b => local b.1) <$> backups.
Proof.
  induction 1 as [|[s sample] backups Hs _ (headers & H2 & Hf & El)]; [by exists []|].
  destruct (handleExitTimeout_sent _ _ _ _ Hs) as (header & Eh & Ev & Ea). exists (header :: headers).
  split; [by constructor|]. split; [constructor; [split; [done|]; rewrite Ea; apply Hs|done]|]. cbn. by rewrite Ea, El.
Qed.

End handlers.

(** ** Witnesses *)

Definition late : TimeSample := TimeSample.mk 1 100000000000 true.

Lemma prepare_resent_witness :
  exists r', handlePrepareTimeout 10 (appended 0) = Some r' /\ SendReplica 1 first_header [] ∈ Replica.sent r'.
Proof.
  destruct (handlePrepareTimeout 10 (appended 0)) as [r'|] eqn:E; [|exfalso; vm_compute in E; discriminate E].
  assert (isPrimary (appended 0) = true) as Hp by (vm_compute; reflexivity).
  destruct (prepare_resent 10 (appended 0) [] r' (rd_inv _ _ (appended_ready_first 0 ltac:(lia))) eq_refl Hp E) as (new & Es & Hm).
  exists r'. split; [reflexivity|]. rewrite Es. apply elem_of_app. right. apply Hm. exists durable_first, 1.
  split; [apply list_elem_of_here|]. split; [reflexivity|]. split; [vm_compute; split; [discriminate|reflexivity]|].
  split; [discriminate|]. split; [reflexivity|]. vm_compute. reflexivity.
Defined.

Definition leading : Replica unit := (appended 0) {{ Replica.commitMin := 1 }}.

Lemma commit_learned_witness :
  exists header, last (Replica.sent (sendCommit leading late)) = Some (BroadcastReplicas header []) /\
    commitReady (handleCommit (appended 1) header late) = Some durable_first.
Proof.
  assert (is_u64 (Replica.commitMin leading)) as Hc by (split; vm_compute; [discriminate|reflexivity]).
  assert (is_u64 (TimeSample.Monotonic late)) as Hm by (split; vm_compute; [discriminate|reflexivity]).
  assert ((localHeaderEvidence leading (Replica.commitMin leading)).1 = Some first_header) as He by (vm_compute; reflexivity).
  assert ((localHeaderEvidence (appended 1) (Replica.commitMin leading)).1 = Some first_header) as He' by (vm_compute; reflexivity).
  assert (isPrimary leading = true) as Hp by (vm_compute; reflexivity).
  assert (isPrimary (appended 1) = false) as Hb by (vm_compute; reflexivity).
  assert (Replica.lastPrimaryCommit (appended 1) < TimeSample.Monotonic late) as Hl by (vm_compute; reflexivity).
  assert (Replica.commitMin leading <= Replica.headOp (appended 1)) as Hh by (vm_compute; discriminate).
  destruct (commit_learned leading (appended 1) first_header first_header [true; true; true] late late wf_first_header eq_refl Hc Hm He eq_refl Hp
    eq_refl eq_refl eq_refl Hb He' eq_refl Hl Hh) as (header & Es & _ & _ & _ & Hr).
  exists header. rewrite Es, last_snoc. split; [reflexivity|].
  apply (Hr durable_first []); [reflexivity|reflexivity|vm_compute; discriminate|reflexivity|reflexivity|reflexivity].
Defined.

Lemma appended_suspects local : local = 1 \/ local = 2 -> suspects 0 3 (appended local) late.
Proof.
  intros Hl. split; [split_and!; try reflexivity; by destruct Hl as [->| ->]|cbn; lia|vm_compute; reflexivity|by eexists].
Qed.

