(* ===== verification/Client.v ===== *)
(** * Clients

    A client of the group, [src/replication/client.go]: it registers a session,
    has at most one request in flight, sends it to the primary and a random
    backup and again when its timer fires, accepts the reply that answers it,
    and gives up when it is evicted.  The frame pool and the clock are answers
    of the environment, the messages and the events a log. *)

From S2P Require Import Prelude Records Bytes Arith Checksum Header Validation Config Ewah Clock Random Timers RepairBudget Reconfiguration.
From S2P Require Import Sessions Storage Checkpoint Superblock Wal WalRecovery Replica.

Inductive client_error :=
| ErrClientState
| ErrRequestInFlight
| ErrClientBodyTooLarge
| ClientInvalidConfiguration
| ClientFramePoolEmpty
| ClientFrameTooLarge
| ClientFrameEncoding
| ClientTimeout
| ClientEntropy.

Inductive ClientState := ClientUnregistered | ClientRegistered | ClientEvicted | ClientClosed.

#[export] Instance ClientState_eq_dec : EqDecision ClientState.
Proof. solve_decision. Defined.

(** The calls of [ClientEvents]. *)
Inductive ClientEvent :=
| ReplyEvent (operation request : Z) (body : list byte)
| EvictedEvent (reason : Z).

Module ClientConfig.
Record t := mk {
  Group : list byte;
  ID : list byte;
  Release : Z;
  ActiveCount : Z;
  MessageSizeMax : Z;
  Process : ProcessConfig;
}.
End ClientConfig.
Abbreviation ClientConfig := ClientConfig.t.

Module clientInflight.
Record t := mk { frame : list byte; header : Header; checksum : list byte; request : Z; operation : Z }.
End clientInflight.
Abbreviation clientInflight := clientInflight.t.

(** [inflight] is absent when there is no frame; [pool] and [samples] are what
    the frame pool and the clock will answer. *)
Module Client.
Record t := mk {
  config : ClientConfig;
  random : DeterministicRandom;
  state : ClientState;
  view : Z;
  session : Z;
  next : Z;
  parent : list byte;
  batchLimit : Z;
  inflight : option clientInflight;
  request : Timeout;
  ping : Timeout;
  lastPing : Z;
  rtt : list Z;
  rttValid : Z;
  pool : list bool;
  samples : list TimeSample;
  sent : list (Z * list byte);
  events : list ClientEvent;
}.
End Client.
Abbreviation Client := Client.t.
Import Client.

(** ** Construction *)

Definition validateClientProcess (process : ProcessConfig) : bool :=
  negb ((ProcessConfig.Tick process <=? 0) || (50 * Millisecond <=? ProcessConfig.Tick process))
  && negb ((ProcessConfig.InitialRTT process <? ProcessConfig.Tick process)
           || (ProcessConfig.MaximumRTT process <? ProcessConfig.InitialRTT process) || (ProcessConfig.RTTMultiplier process =? 0))
  && negb ((ProcessConfig.BackoffMin process <=? 0) || (ProcessConfig.BackoffMax process <? ProcessConfig.BackoffMin process))
  && negb (Z.quot (2 ^ 63 - 1) (ProcessConfig.RTTMultiplier process) <? ProcessConfig.InitialRTT process).

(** [entropy] is what the source delivers, [None] when it fails. *)
Definition NewClient (config : ClientConfig) (entropy : option (list byte)) (pool : list bool) (samples : list TimeSample)
    : result client_error Client :=
  if isZeroID (ClientConfig.Group config) || isZeroID (ClientConfig.ID config) || (ClientConfig.Release config =? 0)
     || (ClientConfig.ActiveCount config =? 0) || (ActiveMax <? ClientConfig.ActiveCount config)
  then Err ClientInvalidConfiguration else
  if ClientConfig.MessageSizeMax config <? HeaderSize + 256 then Err ClientInvalidConfiguration else
  let process := ClientConfig.Process config in
  if negb (validateClientProcess process) then Err ClientInvalidConfiguration else
  match entropy with
  | None => Err ClientEntropy
  | Some seed =>
      match Timeout.NewTimeout (i64 (ProcessConfig.RTTMultiplier process * ProcessConfig.InitialRTT process)) (ProcessConfig.Tick process) 0,
            Timeout.NewTimeout (30 * Second) (ProcessConfig.Tick process) 0 with
      | Ok request, Ok ping =>
          Ok (mk config (NewDeterministicRandom (getUint (slice seed 0 8))) ClientUnregistered 0 0 0 (zeros 16) 0 None request
                (Timeout.Start ping) 0 (replicate (Z.to_nat ActiveMax) 0) 0 pool samples [] [])
      | _, _ => Err ClientInvalidConfiguration
      end
  end.

(** ** Sending *)

Section client.
Implicit Types c : Client.

Definition takeFrame c : Client * bool := (c {{ pool := tail (pool c) }}, default false (head (pool c))).
Definition now c : Client * TimeSample := (c {{ samples := tail (samples c) }}, default (TimeSample.mk 0 0 false) (head (samples c))).
Definition sendTo c (replica : Z) (frame : list byte) : Client := c {{ sent := sent c ++ [(replica, frame)] }}.

(** The primary of the view the client knows and one of the backups; [fuel]
    bounds the numbers the generator may reject. *)
Definition routeRequest (fuel : nat) c (frame : list byte) : option Client :=
  let active := ClientConfig.ActiveCount (config c) in
  let primary := u32 (view c) mod active in
  let c := sendTo c primary frame in
  if active =? 1 then Some c else
  '(generator, choice) ← Uniform fuel (random c) (u8 (active - 1));
  let backup := u8 choice in
  let backup := if u8 primary <=? backup then u8 (backup + 1) else backup in
  Some (sendTo (c {{ random := generator }}) backup frame).

Definition requestHeader c (operation request : Z) : Header :=
  mkHeader (zeros 16) (zeros 16) (ClientConfig.Group (config c)) 0 0 (view c) (ClientConfig.Release (config c)) ProtocolVersion CommandRequest 0
    (write_fields (zeros CommandFieldsSize)
       [(0, parent c); (32, ClientConfig.ID (config c)); (48, putUint 8 (session c)); (64, putUint 4 request); (68, putUint 1 operation)]).

Definition send_ (fuel : nat) c (operation request : Z) (body : list byte) : option (Client * result client_error unit) :=
  if ClientConfig.MessageSizeMax (config c) <? zlen body + HeaderSize then Some (c, Err ClientFrameTooLarge) else
  let '(c, acquired) := takeFrame c in
  if negb acquired then Some (c, Err ClientFramePoolEmpty) else
  match sealed (requestHeader c operation request) body with
  | None => Some (c, Err ClientFrameEncoding)
  | Some (frame, header) =>
      let c := c {{ inflight := Some (clientInflight.mk frame header (HeaderChecksum header) request operation);
                    Client.request ::= Timeout.Start }} in
      c ← routeRequest fuel c frame;
      Some (c, Ok tt)
  end.

Definition Register (fuel : nat) c : option (Client * result client_error unit) :=
  if negb (bool_decide (state c = ClientUnregistered)) || bool_decide (is_Some (inflight c)) then Some (c, Err ErrClientState) else
  send_ fuel c OperationRegister 0 (zeros 256).

Definition Submit (fuel : nat) c (operation : Z) (body : list byte) : option (Client * result client_error unit) :=
  if negb (bool_decide (state c = ClientRegistered)) then Some (c, Err ErrClientState) else
  if bool_decide (is_Some (inflight c)) then Some (c, Err ErrRequestInFlight) else
  if batchLimit c <? zlen body then Some (c, Err ErrClientBodyTooLarge) else
  if (operation <? OperationApplicationMin) && negb (operation =? OperationNoop) && negb (operation =? OperationReconfigure)
  then Some (c, Err ErrClientState) else
  if next c =? MaxUint32 then Some (c, Err ErrClientState) else
  let c := c {{ next := u32 (next c + 1) }} in
  '(c, outcome) ← send_ fuel c operation (next c) body;
  Some (match outcome with Err _ => (c {{ next := u32 (next c - 1) }}, outcome) | Ok _ => (c, outcome) end).

(** ** Receiving *)

Definition clearInflight c : Client := c {{ Client.request ::= Timeout.Stop; inflight := None }}.

Definition notify c (event : ClientEvent) : Client := c {{ events := events c ++ [event] }}.

(** What a registration negotiates; [None] refuses the reply. *)
Definition negotiated c (body : list byte) : option Z :=
  if negb (zlen body =? 64) || negb (zeroBytes (drop 4 body)) then None else
  let limit := getUint (slice body 0 4) in
  if (limit =? 0) || (u32 (ClientConfig.MessageSizeMax (config c) - HeaderSize) <? limit) then None else Some limit.

Definition handleReply c (header : Header) (body : list byte) : Client :=
  match inflight c with
  | None => c
  | Some request =>
      if negb (Header.Release header =? ClientConfig.Release (config c)) then c else
      if negb (bool_decide (replyClient header = ClientConfig.ID (config c)))
         || negb (byteAt (Fields header) 108 =? clientInflight.operation request)
         || negb (replyRequest header =? clientInflight.request request) then c else
      if negb (bool_decide (replyRequestChecksum header = clientInflight.checksum request)) || negb (replyOp header =? replyCommit header)
      then c else
      let registered :=
        if clientInflight.operation request =? OperationRegister then
          limit ← negotiated c body;
          Some (c {{ session := replyCommit header; batchLimit := limit; state := ClientRegistered }})
        else Some c in
      match registered with
      | None => c
      | Some c =>
          let c := c {{ parent := replyContext header; view := Z.max (view c) (View header) }} in
          notify (clearInflight c) (ReplyEvent (clientInflight.operation request) (clientInflight.request request) body)
      end
  end.

Definition handleEviction c (header : Header) : Client :=
  if negb (bool_decide (slice (Fields header) 0 16 = ClientConfig.ID (config c))) || (View header <? view c) then c else
  notify (clearInflight (c {{ view := View header; state := ClientEvicted }})) (EvictedEvent (byteAt (Fields header) 127)).

Definition handleClientPong c (sender : Z) (header : Header) : Client :=
  let ping := getUint (slice (Fields header) 0 8) in
  let '(c, sample) := now c in
  if negb (ping =? lastPing c) || (TimeSample.Monotonic sample <? ping) then c else
  c {{ view := Z.max (view c) (View header);
       rtt ::= <[Z.to_nat sender := i64 (TimeSample.Monotonic sample - ping)]>;
       rttValid := Z.lor (rttValid c) (u8 (Z.shiftl 1 sender)) }}.

Definition clientContext c (sender : Z) : ValidationContext :=
  let config := config c in
  let limit := u32 (ClientConfig.MessageSizeMax config - HeaderSize) in
  ValidationContext.mk true true sender (ClientConfig.ActiveCount config) (ClientConfig.ActiveCount config) 15 1 limit limit 1 MaxUint32 1
    (ClientConfig.Group config) (ClientConfig.MessageSizeMax config).

Definition HandleFrame c (sender : Z) (frame : list byte) : Client :=
  let config := config c in
  if bool_decide (state c = ClientClosed) || (ClientConfig.ActiveCount config <=? sender) then c else
  match DecodeFrame frame (ClientConfig.Group config) (ClientConfig.MessageSizeMax config) (ClientConfig.ActiveCount config) with
  | (header, body, RejectNone) =>
      match ValidateSemantics header body (clientContext c sender) with
      | RejectNone =>
          if Command header =? CommandReply then handleReply c header body else
          if Command header =? CommandEviction then handleEviction c header else
          if Command header =? CommandClientPong then handleClientPong c sender header else c
      | _ => c
      end
  | _ => c
  end.

(** ** Time *)

Definition sendClientPing c : Client :=
  let '(c, acquired) := takeFrame c in
  if negb acquired then c else
  let '(c, sample) := now c in
  let c := c {{ lastPing := Z.max 1 (TimeSample.Monotonic sample) }} in
  let header := mkHeader (zeros 16) (zeros 16) (ClientConfig.Group (config c)) 0 0 (view c) (ClientConfig.Release (config c)) ProtocolVersion
    CommandClientPing 0
    (write_fields (zeros CommandFieldsSize) [(0, ClientConfig.ID (config c)); (16, putUint 8 (lastPing c)); (24, putUint 8 (session c))]) in
  match sealed header [] with
  | None => c
  | Some (frame, _) => fold_left (fun c member => sendTo c member frame) (seqZ 0 (ClientConfig.ActiveCount (config c))) c
  end.

(** The inner loop of the sort: [sorted] is the sorted prefix, largest first. *)
Fixpoint insertSample (value : Z) (sorted : list Z) : list Z :=
  match sorted with
  | x :: rest => if value <? x then x :: insertSample value rest else value :: sorted
  | [] => [value]
  end.

Definition rttSamples c : list Z :=
  (fun member => default 0 (rtt c !! Z.to_nat member)) <$>
    filter (fun member => Z.land (rttValid c) (u8 (Z.shiftl 1 member)) <> 0) (seqZ 0 (ClientConfig.ActiveCount (config c))).

Definition measuredRTT c : Z :=
  let samples := rttSamples c in
  if zlen samples =? 0 then ProcessConfig.InitialRTT (ClientConfig.Process (config c)) else
  default 0 (reverse (foldr insertSample [] (reverse samples)) !! Nat.div2 (length samples)).

Definition ClientTick (fuel : nat) c : option (Client * result client_error unit) :=
  if bool_decide (state c = ClientClosed) then Some (c, Err ErrClientState) else
  let '(timer, outcome) := Timeout.Tick (ping c) in
  let c := c {{ ping := timer }} in
  match outcome with
  | Err _ => Some (c, Err ClientTimeout)
  | Ok pingFired =>
      let c := if pingFired then (sendClientPing c) {{ ping ::= Timeout.Reset }} else c in
      match inflight c with
      | None => Some (c, Ok tt)
      | Some inflight =>
          let '(timer, outcome) := Timeout.Tick (Client.request c) in
          let c := c {{ Client.request := timer }} in
          match outcome with
          | Err _ => Some (c, Err ClientTimeout)
          | Ok false => Some (c, Ok tt)
          | Ok true =>
              c ← routeRequest fuel c (clientInflight.frame inflight);
              '(timer, generator, outcome) ←
                Timeout.Backoff fuel (Client.request c) (ClientConfig.Process (config c)) (measuredRTT c) (Some (random c));
              let c := c {{ Client.request := timer; random := default (random c) generator }} in
              Some (c, match outcome with Err _ => Err ClientTimeout | Ok _ => Ok tt end)
          end
      end
  end.

Definition CloseClient c : Client * result client_error unit :=
  if bool_decide (state c = ClientClosed) then (c, Ok tt) else
  if bool_decide (is_Some (inflight c)) then (c, Err ErrRequestInFlight) else
  (c {{ ping ::= Timeout.Stop; state := ClientClosed }}, Ok tt).
End client.
