(* ===== verification/ClientSafety.v ===== *)
(** * Sessions from end to end

    A client and the session table of the replicas, with requests that are
    repeated and replies that are late or repeated: every request is executed
    once, in the order of its number, and the client hears of each once and in
    that order. *)

From stdpp Require Import relations.
From S2P Require Import Prelude Records Bytes Arith Checksum Header Validation Config Ewah Clock Random Timers RepairBudget Reconfiguration.
From S2P Require Import Sessions Storage Checkpoint Superblock Wal WalRecovery Replica Release ViewChange ViewReports.
From S2P Require Import ReplicaCheckpoint ReplicaSample StateMachine Normal NormalSafety Acknowledgements Requests Commit Client.
Import Client.

(** ** What a client says *)

Lemma sealed_release header body frame header' :
  sealed header body = Some (frame, header') -> Header.Release header' = Header.Release header.
Proof.
  unfold sealed, SealFrame. destruct (_ || _); [done|]. set (h := with_body _ _ _).
  destruct (EncodeHeader HeaderSize h) as [[encoded h']|] eqn:E; [|done]. cbn. intros [= <- <-].
  apply EncodeHeader_inv in E as (_ & _ & _ & _ & _ & _ & ->). done.
Qed.

(** The widths of what a request carries. *)
Record wf_identity (c : Client) : Prop := {
  wc_parent : zlen (parent c) = 16;
  wc_id : zlen (ClientConfig.ID (config c)) = 16;
  wc_session : is_u64 (session c);
  wc_next : is_u32 (next c);
}.

Lemma requestHeader_fields c operation request body frame header :
  zlen (parent c) = 16 -> zlen (ClientConfig.ID (config c)) = 16 -> is_u64 (session c) -> is_u32 request ->
  sealed (requestHeader c operation request) body = Some (frame, header) ->
  requestClient header = ClientConfig.ID (config c) /\ requestSession header = session c /\ requestNumber header = request /\
  requestParent header = parent c /\ Header.Release header = ClientConfig.Release (config c).
Proof.
  intros Hp Hi Hs Hr E. pose proof (sealed_release _ _ _ _ E) as Er. pose proof (sealed_same _ _ _ _ E) as (_ & _ & Ef).
  unfold requestClient, requestSession, requestNumber, requestParent. rewrite Er, Ef. cbn [requestHeader Fields Header.Release].
  set (fields := [_; _; _; _; _]).
  assert (layout_ok 128 (field_sizes fields) = true) as Hok.
  { unfold fields, field_sizes. cbn [fmap list_fmap]. rewrite Hp, Hi, !zlen_putUint by lia. done. }
  assert (forall k o bs b, fields !! k = Some (o, bs) -> b = o + zlen bs -> slice (write_fields (zeros CommandFieldsSize) fields) o b = bs)
    as Hread by (intros; by eapply field_index).
  rewrite (Hread 0%nat 0 (parent c) 16 eq_refl), (Hread 1%nat 32 (ClientConfig.ID (config c)) 48 eq_refl),
    (Hread 2%nat 48 (putUint 8 (session c)) 56 eq_refl), (Hread 3%nat 64 (putUint 4 request) 68 eq_refl)
    by (rewrite ?Hp, ?Hi, ?zlen_putUint by lia; lia).
  rewrite (getUint_putUint 8 (session c) Hs), (getUint_putUint 4 request Hr). split_and!; exact eq_refl.
Qed.

(** ** What the operations leave alone *)

Definition kernel (c : Client) := (config c, state c, session c, next c, parent c, inflight c, events c).

Lemma routeRequest_kernel fuel c frame c' : routeRequest fuel c frame = Some c' -> kernel c' = kernel c.
Proof.
  unfold routeRequest. destruct (_ =? 1); [by intros [= <-]|]. destruct (Uniform _ _ _) as [[generator choice]|]; [|done].
  cbn [mbind option_bind]. by intros [= <-].
Qed.

Lemma sendClientPing_kernel c : kernel (sendClientPing c) = kernel c.
Proof.
  unfold sendClientPing. cbn [takeFrame]. destruct (negb _); [done|]. cbn [now].
  destruct (sealed _ _) as [[frame header]|]; [|done].
  match goal with |- kernel (fold_left _ ?l ?x) = _ => change (kernel c) with (kernel x); generalize x, l end.
  intros x members. revert x. induction members as [|member members IH]; intros x; [done|]. cbn [fold_left]. by rewrite IH.
Qed.

Lemma ClientTick_kernel fuel c c' outcome : ClientTick fuel c = Some (c', outcome) -> kernel c' = kernel c.
Proof.
  unfold ClientTick. destruct (bool_decide _); [by intros [= <- _]|]. destruct (Timeout.Tick (ping c)) as [timer [fired|]]; [|by intros [= <- _]].
  match goal with |- context [inflight ?x] => assert (kernel x = kernel c) as Ek; [|generalize dependent x] end.
  { destruct fired; [|done]. exact (sendClientPing_kernel _). }
  intros x <-. destruct (inflight x) as [request|]; [|by intros [= <- _]].
  destruct (Timeout.Tick (Client.request x)) as [timer' [[]|]]; try by intros [= <- _].
  match goal with |- context [routeRequest fuel ?y ?f] => destruct (routeRequest fuel y f) as [c1|] eqn:Er; [|done];
    apply routeRequest_kernel in Er end.
  cbn [mbind option_bind]. destruct (Timeout.Backoff _ _ _ _ _) as [[[t g] o]|]; [|done]. cbn [mbind option_bind]. intros [= <- _]. exact Er.
Qed.

(** A submitted request. *)
Record submitted c operation c' (request : clientInflight) : Prop := {
  sb_before : state c = ClientRegistered /\ inflight c = None /\ next c <> MaxUint32;
  sb_header : exists body frame pool', sealed (requestHeader (c {{ next := u32 (next c + 1); pool := pool' }}) operation (u32 (next c + 1))) body =
    Some (frame, clientInflight.header request);
  sb_operation : operation <> OperationRegister;
  sb_request : clientInflight.request request = u32 (next c + 1) /\
    clientInflight.checksum request = HeaderChecksum (clientInflight.header request) /\ clientInflight.operation request = operation;
  sb_after : kernel c' = (config c, state c, session c, u32 (next c + 1), parent c, Some request, events c);
}.

Lemma Submit_ok fuel c operation body c' :
  Submit fuel c operation body = Some (c', Ok tt) -> exists request, submitted c operation c' request.
Proof.
  unfold Submit. destruct (bool_decide (state c = ClientRegistered)) eqn:Hs; cbn [negb]; [|done]. apply bool_decide_eq_true in Hs.
  destruct (bool_decide _) eqn:Hi; [done|]. apply bool_decide_eq_false in Hi. destruct (_ <? _); [done|].
  destruct (_ && negb (operation =? OperationReconfigure)) eqn:Hop; [done|]. destruct (Z.eqb_spec (next c) MaxUint32); [done|].
  unfold send_. destruct (ClientConfig.MessageSizeMax _ <? _); [done|]. cbn [takeFrame].
  destruct (negb (default _ _)); [done|]. destruct (sealed _ body) as [[frame header]|] eqn:Es; [|done].
  match goal with |- context [routeRequest fuel ?y ?f] => destruct (routeRequest fuel y f) as [c1|] eqn:Er; [|done];
    apply routeRequest_kernel in Er end.
  cbn [mbind option_bind]. intros [= <-].
  exists (clientInflight.mk frame header (HeaderChecksum header) (u32 (next c + 1)) operation).
  split; [|exists body, frame, (tail (pool c)); exact Es| |done|].
  - split_and!; [done| |done]. destruct (inflight c); [|done]. destruct Hi. by eexists.
  - intros ->. done.
  - rewrite Er. done.
Qed.

Lemma Submit_err fuel c operation body c' err :
  is_u32 (next c) -> Submit fuel c operation body = Some (c', Err err) -> kernel c' = kernel c.
Proof.
  intros Hn. unfold Submit. destruct (negb _); [by intros [= <- _]|]. destruct (bool_decide _); [by intros [= <- _]|].
  destruct (_ <? _); [by intros [= <- _]|]. destruct (_ && _); [by intros [= <- _]|]. destruct (Z.eqb_spec (next c) MaxUint32); [by intros [= <- _]|].
  assert (u32 (u32 (next c + 1) - 1) = next c) as En.
  { rewrite (uwrap_small 32 (next c + 1)) by (unfold is_uint, MaxUint32 in *; lia). rewrite uwrap_small by (unfold is_uint in *; lia). lia. }
  unfold send_. destruct (_ <? _).
  - cbn [mbind option_bind]. intros [= <- _]. unfold kernel. cbn. by rewrite En.
  - cbn [takeFrame]. destruct (negb _).
    + cbn [mbind option_bind]. intros [= <- _]. unfold kernel. cbn. by rewrite En.
    + destruct (sealed _ body) as [[frame header]|].
      * destruct (routeRequest _ _ _); [|done]. by cbn [mbind option_bind].
      * cbn [mbind option_bind]. intros [= <- _]. unfold kernel. cbn. by rewrite En.
Qed.

(** ** A client and the session table *)

(** The request as the session table sees it. *)
Definition request_of (header : Header) : SessionRequest.t :=
  SessionRequest.mk (requestClient header) (requestSession header) (requestNumber header) (Header.Release header) (HeaderChecksum header)
    (requestParent header).

Record reply_to (request reply : Header) : Prop := {
  rt_wf : wf_header reply;
  rt_client : replyClient reply = requestClient request;
  rt_number : replyRequest reply = requestNumber request;
  rt_checksum : replyRequestChecksum reply = HeaderChecksum request;
  rt_release : Header.Release reply = Header.Release request;
  rt_operation : byteAt (Fields reply) 108 = requestOperation request;
  rt_commit : replyOp reply = replyCommit reply;
}.

(** [requests] are what the client has sent, [executed] what the group has
    executed and [replies] what it has answered. *)
Module exchange.
Record t := mk {
  client : Client;
  table : SessionTable;
  requests : list Header;
  executed : list Header;
  replies : list (Header * list byte);
}.
End exchange.
Abbreviation exchange := exchange.t.

Definition id_of (s : exchange) : list byte := ClientConfig.ID (config (exchange.client s)).

(** Any request that has been sent may reach the group, and any reply the
    client, at any time and any number of times; others may use the table. *)
Inductive exchange_step : exchange -> exchange -> Prop :=
| ex_submit s fuel operation body c' request :
    Submit fuel (exchange.client s) operation body = Some (c', Ok tt) -> inflight c' = Some request ->
    exchange_step s (s {{ exchange.client := c'; exchange.requests := exchange.requests s ++ [clientInflight.header request] }})
| ex_refused s fuel operation body c' err :
    Submit fuel (exchange.client s) operation body = Some (c', Err err) -> exchange_step s (s {{ exchange.client := c' }})
| ex_tick s fuel c' outcome : ClientTick fuel (exchange.client s) = Some (c', outcome) -> exchange_step s (s {{ exchange.client := c' }})
| ex_execute s request reply body slot t' :
    request ∈ exchange.requests s -> Decide (exchange.table s) (request_of request) = SessionAdmit -> reply_to request reply ->
    Sessions.Commit (exchange.table s) reply (requestSession request) = (t', Ok slot) ->
    exchange_step s (s {{ exchange.table := t'; exchange.executed := exchange.executed s ++ [request];
                          exchange.replies := exchange.replies s ++ [(reply, body)] }})
| ex_deliver s reply body :
    (reply, body) ∈ exchange.replies s -> exchange_step s (s {{ exchange.client ::= fun c => handleReply c reply body }})
| ex_others s t' :
    wf_table t' -> (forall r, Sessions.holds t' (id_of s) r <-> Sessions.holds (exchange.table s) (id_of s) r) ->
    exchange_step s (s {{ exchange.table := t' }}).

Definition event_number (event : ClientEvent) : option Z := match event with ReplyEvent _ number _ => Some number | EvictedEvent _ => None end.

(** The requests the client has heard of. *)
Definition completed c : Z := match inflight c with None => next c | Some _ => next c - 1 end.

Record own c (header : Header) : Prop := {
  ow_client : requestClient header = ClientConfig.ID (config c);
  ow_session : requestSession header = session c;
  ow_release : Header.Release header = ClientConfig.Release (config c);
}.

(** Where the request in flight is. *)
Definition progress s (record : SessionRecord) : Prop :=
  match inflight (exchange.client s) with
  | None => exchange.executed s = exchange.requests s /\ parent (exchange.client s) = replyContext (Reply record)
  | Some q =>
      clientInflight.request q = next (exchange.client s) /\ clientInflight.operation q <> OperationRegister /\
      clientInflight.checksum q = HeaderChecksum (clientInflight.header q) /\ last (exchange.requests s) = Some (clientInflight.header q) /\
      ((exchange.executed s = exchange.requests s /\ reply_to (clientInflight.header q) (Reply record)) \/
       (exchange.executed s ++ [clientInflight.header q] = exchange.requests s /\
        requestParent (clientInflight.header q) = replyContext (Reply record)))
  end.

Record linked (before : list ClientEvent) s (record : SessionRecord) : Prop := {
  lk_state : state (exchange.client s) = ClientRegistered;
  lk_wf : wf_identity (exchange.client s);
  lk_table : wf_table (exchange.table s) /\ Sessions.holds (exchange.table s) (id_of s) record;
  lk_record : Session record = session (exchange.client s) /\
    Header.Release (Reply record) = ClientConfig.Release (config (exchange.client s)) /\ replyRequest (Reply record) = zlen (exchange.executed s);
  lk_requests : requestNumber <$> exchange.requests s = seqZ 1 (next (exchange.client s));
  lk_own : Forall (own (exchange.client s)) (exchange.requests s);
  lk_progress : progress s record;
  lk_replies : Forall (fun reply => exists request, request ∈ exchange.executed s /\ reply_to request reply.1 /\
    (replyRequest reply.1 = zlen (exchange.executed s) -> reply.1 = Reply record)) (exchange.replies s);
  lk_events : exists heard, events (exchange.client s) = before ++ heard /\
    event_number <$> heard = Some <$> seqZ 1 (completed (exchange.client s));
}.

Lemma linked_next before s record : linked before s record -> zlen (exchange.requests s) = next (exchange.client s).
Proof.
  intros Hl. pose proof (f_equal zlen (lk_requests _ _ _ Hl)) as E. destruct (wc_next _ (lk_wf _ _ _ Hl)).
  unfold zlen in *. rewrite length_fmap, length_seqZ in E. lia.
Qed.

(** The request with a number. *)
Lemma linked_number before s record k request :
  linked before s record -> exchange.requests s !! k = Some request -> requestNumber request = Z.of_nat k + 1.
Proof.
  intros Hl Hk. pose proof (f_equal (fun l => l !! k) (lk_requests _ _ _ Hl)) as E. cbn in E.
  rewrite list_lookup_fmap, Hk in E. cbn in E. symmetry in E. apply lookup_seqZ in E as [E _]. lia.
Qed.

(** The executed requests are the first ones. *)
Lemma linked_executed before s record k request :
  linked before s record -> exchange.executed s !! k = Some request -> exchange.requests s !! k = Some request.
Proof.
  intros Hl Hk. pose proof (lk_progress _ _ _ Hl) as Hp. unfold progress in Hp. destruct (inflight _) as [q|].
  - destruct Hp as (_ & _ & _ & _ & [[E _]|[E _]]); rewrite <- E; [done|]. by apply lookup_app_l_Some.
  - destruct Hp as [E _]. by rewrite <- E.
Qed.

(** Only the client has changed, and not in what the table knows. *)
Lemma linked_kernel before s record c' :
  kernel c' = kernel (exchange.client s) -> linked before s record -> linked before (s {{ exchange.client := c' }}) record.
Proof.
  intros E [Hs [W1 W2 W3 W4] Ht Hr Hq Ho Hp Hre He]. injection E as E1 E2 E3 E4 E5 E6 E7.
  assert (completed c' = completed (exchange.client s)) as Ec by (unfold completed; by rewrite E4, E6).
  split; unfold id_of, progress in *; cbn [exchange.client exchange.table exchange.requests exchange.executed exchange.replies updated];
    rewrite ?E1, ?E2, ?E3, ?E4, ?E5, ?E6, ?E7, ?Ec; try done.
  - split; rewrite ?E1, ?E3, ?E4, ?E5; done.
  - eapply Forall_impl; [exact Ho|]. intros header [O1 O2 O3]. split; rewrite ?E1, ?E3; done.
Qed.

Lemma seqZ_snoc n : 0 <= n -> seqZ 1 (n + 1) = seqZ 1 n ++ [n + 1].
Proof. intros Hn. rewrite seqZ_app by lia. f_equal. replace (1 + n) with (n + 1) by lia. done. Qed.

Lemma linked_submit before s record operation c' request :
  linked before s record -> submitted (exchange.client s) operation c' request ->
  linked before (s {{ exchange.client := c'; exchange.requests := exchange.requests s ++ [clientInflight.header request] }}) record.
Proof.
  intros Hl [(_ & Hi & Hmax) (body & frame & pool' & Es) Hop (Eq & Eck & Eop) Ek].
  pose proof Hl as [Hs [W1 W2 W3 W4] Ht Hr Hq Ho Hp Hre (heard & He & En)]. pose proof (linked_next _ _ _ Hl) as Hn.
  set (c := exchange.client s) in *. injection Ek as K1 K2 K3 K4 K5 K6 K7.
  assert (u32 (next c + 1) = next c + 1) as Eu by (apply uwrap_small; unfold is_uint, MaxUint32 in *; lia).
  assert (is_u32 (next c + 1)) as Hu by (unfold is_uint, MaxUint32 in *; lia). rewrite Eu in *.
  destruct (requestHeader_fields _ _ _ _ _ _ W1 W2 W3 Hu Es) as (F1 & F2 & F3 & F4 & F5).
  cbn [config session parent updated] in F1, F2, F4, F5.
  unfold progress in Hp. fold c in Hp. rewrite Hi in Hp. destruct Hp as [Hp1 Hp2].
  split; unfold id_of, progress, completed in *; cbn [exchange.client exchange.table exchange.requests exchange.executed exchange.replies updated];
    rewrite ?K1, ?K2, ?K3, ?K4, ?K5, ?K6, ?K7; try done.
  - split; rewrite ?K1, ?K3, ?K4, ?K5; done.
  - rewrite fmap_app, Hq, seqZ_snoc by (destruct W4; lia). cbn. by rewrite F3.
  - apply Forall_app. split; [eapply Forall_impl; [exact Ho|]; intros header [O1 O2 O3]; split; rewrite ?K1, ?K3; done|].
    constructor; [split; rewrite ?K1, ?K3; done|constructor].
  - rewrite last_snoc, Eop. split_and!; try done. right. rewrite Hp1. split; [done|]. by rewrite F4.
  - exists heard. split; [done|]. rewrite En. unfold completed. fold c. rewrite Hi. f_equal. f_equal. lia.
Qed.

Lemma linked_execute before s record request reply body slot t' :
  linked before s record -> request ∈ exchange.requests s -> Decide (exchange.table s) (request_of request) = SessionAdmit ->
  reply_to request reply -> Sessions.Commit (exchange.table s) reply (requestSession request) = (t', Ok slot) ->
  linked before (s {{ exchange.table := t'; exchange.executed := exchange.executed s ++ [request];
                      exchange.replies := exchange.replies s ++ [(reply, body)] }}) (mkRecord reply (requestSession request)).
Proof.
  intros Hl Hin Hd Hrt Hc. pose proof Hl as [Hs Hw [Hwt Hh] (R1 & R2 & R3) Hq Ho Hp Hre He].
  apply list_elem_of_lookup in Hin as [k Hk]. pose proof (linked_number _ _ _ _ _ Hl Hk) as Ek.
  assert (own (exchange.client s) request) as [O1 O2 O3] by by eapply Forall_lookup_1.
  rewrite (Decide_holds _ (id_of s) record) in Hd; [|done|done|done|by cbn; congruence|by cbn; congruence].
  cbn [request_of SessionRequest.Request SessionRequest.RequestChecksum SessionRequest.Parent] in Hd. rewrite R3, Ek in Hd.
  destruct (_ || _) eqn:Eo; [done|]. destruct (Z.eqb_spec (Z.of_nat k + 1) (zlen (exchange.executed s))) as [|Hne]; [by destruct (bool_decide _)|].
  assert (k = length (exchange.executed s)) as ->.
  { apply orb_false_iff in Eo as [Eo1 Eo2]. apply Z.ltb_ge in Eo1, Eo2. 
    assert (u32 (zlen (exchange.executed s) + 1) <= zlen (exchange.executed s) + 1) by (apply Z.mod_le; unfold zlen; lia). unfold zlen in *. lia. }
  unfold progress in Hp. destruct (inflight (exchange.client s)) as [q|] eqn:Ei; [|destruct Hp as [Hp _]; rewrite Hp in Hk;
    apply lookup_lt_Some in Hk; lia].
  destruct Hp as (P1 & P2 & P3 & P4 & [[Hp _]|[Hp _]]); [rewrite Hp in Hk; apply lookup_lt_Some in Hk; lia|].
  assert (request = clientInflight.header q) as Erq.
  { rewrite <- Hp in Hk. rewrite lookup_app_r, Nat.sub_diag in Hk by lia. cbn in Hk. congruence. }
  pose proof (wc_session _ Hw) as Hses. rewrite <- O2 in Hses.
  destruct (Commit_result _ _ _ _ _ Hwt (rt_wf _ _ Hrt) Hses Hc) as (Hwt' & Hnew & _ & _).
  split; unfold id_of, progress in *; cbn [exchange.client exchange.table exchange.requests exchange.executed exchange.replies updated]; try done.
  - split; [done|]. rewrite (rt_client _ _ Hrt), O1 in Hnew. exact Hnew.
  - cbn [Session Reply]. split; [done|]. split; [by rewrite (rt_release _ _ Hrt)|]. rewrite (rt_number _ _ Hrt), Ek, zlen_snoc. done.
  - rewrite Ei. split_and!; try done. left. rewrite <- Hp, Erq. split; [done|]. by rewrite <- Erq.
  - apply Forall_app. split.
    + eapply Forall_impl; [exact Hre|]. intros [old b] (rq & Hrq & Hrt' & _). exists rq. cbn [fst] in *.
      split; [apply elem_of_app; by left|]. split; [done|]. intros E. exfalso.
      apply list_elem_of_lookup in Hrq as [j Hj]. pose proof (lookup_lt_Some _ _ _ Hj) as Hlt. apply (linked_executed _ _ _ _ _ Hl) in Hj.
      rewrite (rt_number _ _ Hrt'), (linked_number _ _ _ _ _ Hl Hj), zlen_snoc in E. unfold zlen in E. lia.
    + constructor; [|constructor]. exists request. cbn [fst]. split; [apply elem_of_app; right; by constructor|]. by split.
Qed.

Lemma handleReply_cases c reply body :
  handleReply c reply body = c \/
  exists q, inflight c = Some q /\ replyRequest reply = clientInflight.request q /\
    (clientInflight.operation q <> OperationRegister ->
     kernel (handleReply c reply body) = (config c, state c, session c, next c, replyContext reply, None,
       events c ++ [ReplyEvent (clientInflight.operation q) (clientInflight.request q) body])).
Proof.
  unfold handleReply. destruct (inflight c) as [q|]; [|by left]. destruct (negb _); [by left|]. destruct (_ || _) eqn:Eg; [by left|].
  apply orb_false_iff in Eg as [_ Eg]. apply negb_false_iff, Z.eqb_eq in Eg. destruct (_ || _); [by left|].
  destruct (Z.eqb_spec (clientInflight.operation q) OperationRegister) as [Er|Er].
  - destruct (negotiated c body) as [limit|]; [|by left]. right. exists q. split_and!; [done|done|]. by intros [].
  - right. exists q. by split_and!.
Qed.

Lemma linked_deliver before s record reply body :
  linked before s record -> (reply, body) ∈ exchange.replies s ->
  linked before (s {{ exchange.client ::= fun c => handleReply c reply body }}) record.
Proof.
  intros Hl Hin. pose proof (linked_next _ _ _ Hl) as Hn. pose proof Hl as [Hs [W1 W2 W3 W4] Ht Hr Hq Ho Hp Hre (heard & He & En)].
  rewrite Forall_forall in Hre. destruct (Hre _ Hin) as (request & Hex & Hrt & Hlast). cbn [fst] in *.
  set (c' := handleReply (exchange.client s) reply body). change (linked before (s {{ exchange.client := c' }}) record).
  destruct (handleReply_cases (exchange.client s) reply body) as [E|(q & Ei & Enum & Ek)].
  - apply linked_kernel; [unfold c'; by rewrite E|done].
  - fold c' in Ek. unfold progress in Hp. rewrite Ei in Hp. destruct Hp as (P1 & P2 & P3 & P4 & Hp). specialize (Ek P2). injection Ek as K1 K2 K3 K4 K5 K6 K7.
    apply list_elem_of_lookup in Hex as [j Hj]. pose proof (lookup_lt_Some _ _ _ Hj) as Hlt.
    pose proof (linked_number _ _ _ _ _ Hl (linked_executed _ _ _ _ _ Hl Hj)) as Ej. rewrite <- (rt_number _ _ Hrt), Enum, P1 in Ej.
    assert (exchange.executed s = exchange.requests s) as Eex.
    { destruct Hp as [[Hp _]|[Hp _]]; [done|]. rewrite <- Hp, zlen_snoc in Hn. unfold zlen in Hn. lia. }
    rewrite Eex, Hn, Enum, P1 in Hlast. specialize (Hlast eq_refl).
    split; unfold id_of, progress, completed in *; cbn [exchange.client exchange.table exchange.requests exchange.executed exchange.replies updated];
      rewrite ?K1, ?K2, ?K3, ?K4, ?K5, ?K6, ?K7; try done.
    + split; rewrite ?K1, ?K3, ?K4, ?K5; try done. unfold replyContext. rewrite zlen_slice by (pose proof (wf_Fields _ (rt_wf _ _ Hrt)); lia). done.
    + eapply Forall_impl; [exact Ho|]. intros header [O1 O2 O3]. split; rewrite ?K1, ?K3; done.
    + by rewrite Hlast.
    + by apply Forall_forall.
    + exists (heard ++ [ReplyEvent (clientInflight.operation q) (clientInflight.request q) body]). rewrite He, app_assoc. split; [done|].
      rewrite fmap_app, En, Ei. replace (next (exchange.client s)) with (next (exchange.client s) - 1 + 1) at 2 by lia.
      rewrite seqZ_snoc, fmap_app by (unfold zlen in *; lia). cbn. rewrite P1. do 3 f_equal. lia.
Qed.

Lemma linked_others before s record t' :
  linked before s record -> wf_table t' -> (forall r, Sessions.holds t' (id_of s) r <-> Sessions.holds (exchange.table s) (id_of s) r) ->
  linked before (s {{ exchange.table := t' }}) record.
Proof.
  intros [Hs Hw [_ Hh] Hr Hq Ho Hp Hre He] Hwt Hiff. split; try done. split; [done|]. by apply Hiff.
Qed.

Lemma linked_step before s record s' :
  linked before s record -> exchange_step s s' -> exists record', linked before s' record'.
Proof.
  intros Hl Hs. destruct Hs as [s fuel operation body c' request Es Ei|s fuel operation body c' err Es|s fuel c' outcome Es|
    s request reply body slot t' Hin Hd Hrt Hc|s reply body Hin|s t' Hwt Hiff].
  - exists record. destruct (Submit_ok _ _ _ _ _ Es) as [q Hq]. pose proof (sb_after _ _ _ _ Hq) as Ek. injection Ek as _ _ _ _ _ E6 _.
    rewrite Ei in E6. injection E6 as ->. by eapply linked_submit.
  - exists record. apply linked_kernel; [|done]. eapply Submit_err; [apply (lk_wf _ _ _ Hl)|exact Es].
  - exists record. apply linked_kernel; [|done]. by eapply ClientTick_kernel.
  - eexists. by eapply linked_execute.
  - exists record. by apply linked_deliver.
  - exists record. by apply linked_others.
Qed.

Lemma linked_run before s record s' : linked before s record -> rtc exchange_step s s' -> exists record', linked before s' record'.
Proof. intros Hl Hr. revert record Hl. induction Hr as [|s s1 s2 Hs _ IH]; intros record Hl; [by eexists|]. by destruct (linked_step _ _ _ _ Hl Hs) as [? ?]; eapply IH. Qed.

(** What the table decides about the request in flight. *)
Lemma linked_decision before s record q :
  linked before s record -> inflight (exchange.client s) = Some q -> next (exchange.client s) < MaxUint32 ->
  Decide (exchange.table s) (request_of (clientInflight.header q)) =
    if decide (exchange.executed s = exchange.requests s) then SessionDuplicate else SessionAdmit.
Proof.
  intros Hl Ei Hmax. pose proof (linked_next _ _ _ Hl) as Hn. pose proof Hl as [Hs Hw [Hwt Hh] (R1 & R2 & R3) Hq Ho Hp Hre He].
  unfold progress in Hp. rewrite Ei in Hp. destruct Hp as (P1 & P2 & P3 & P4 & Hp).
  assert (own (exchange.client s) (clientInflight.header q)) as [O1 O2 O3].
  { rewrite last_lookup in P4. by eapply Forall_lookup_1. }
  assert (requestNumber (clientInflight.header q) = next (exchange.client s)) as En.
  { rewrite last_lookup in P4. rewrite (linked_number _ _ _ _ _ Hl P4). unfold zlen in Hn. pose proof (lookup_lt_Some _ _ _ P4). lia. }
  rewrite (Decide_holds _ (id_of s) record); [|done|done|done|by cbn; congruence|by cbn; congruence].
  cbn [request_of SessionRequest.Request SessionRequest.RequestChecksum SessionRequest.Parent]. rewrite R3, En.
  destruct (wc_next _ Hw) as [Hlo _]. destruct Hp as [[Hp Hrt]|[Hp Hpar]].
  - rewrite decide_True by done. rewrite Hp, Hn, Z.ltb_irrefl, Z.eqb_refl, uwrap_small by (unfold is_uint, MaxUint32 in *; lia).
    rewrite (proj2 (Z.ltb_ge _ _)) by lia. cbn [orb]. by rewrite bool_decide_true by (symmetry; apply Hrt).
  - rewrite decide_False by (rewrite <- Hp; intros E; apply (f_equal length) in E; rewrite length_app in E; cbn in E; lia).
    assert (zlen (exchange.executed s) = next (exchange.client s) - 1) as Ez by (rewrite <- Hn, <- Hp, zlen_snoc; lia).
    rewrite Ez, uwrap_small by (unfold is_uint, MaxUint32 in *; pose proof (zlen_nonneg (exchange.executed s)); lia).
    rewrite !(proj2 (Z.ltb_ge _ _)) by lia. cbn [orb]. rewrite (proj2 (Z.eqb_neq _ _)) by lia. by rewrite Hpar, bool_decide_true.
Qed.


(** ** What the group answers *)

Section replies.
Context {S : Type}.
Implicit Types r : Replica S.

(** The prepare a request becomes says what the request said. *)
Record prepared (request prepare : Header) : Prop := {
  pr_checksum : slice (Fields prepare) 32 48 = HeaderChecksum request;
  pr_client : slice (Fields prepare) 80 96 = requestClient request;
  pr_number : slice (Fields prepare) 120 124 = slice (Fields request) 64 68;
  pr_operation : slice (Fields prepare) 124 125 = putUint 1 (requestOperation request);
  pr_release : Header.Release prepare = Header.Release request;
  pr_fields : zlen (Fields prepare) = 128;
}.

Lemma acceptPrepare_pushed r frame header r' :
  acceptPrepare r frame header = (r', true) -> exists entry, last (Replica.pipeline r') = Some entry /\ pipelineEntry.header entry = header.
Proof.
  unfold acceptPrepare. match goal with |- (if ?g then _ else _) = _ -> _ => destruct g; [done|] end.
  destruct (submit r _) as [r1 [handle|]]; [|done]. unfold pushPipeline.
  match goal with |- context [if ?g then None else _] => destruct g; [done|] end. intros E. injection E as <-.
  eexists. unfold setEntry. cbn [Replica.pipeline updated]. rewrite insert_app_r_alt, Nat.sub_diag by lia. cbn. rewrite last_snoc. by split.
Qed.

Lemma createPrepare_prepared r request body sample r' :
  wf_header request -> zlen (Replica.headChecksum r) = 16 -> zlen (Replica.checkpointID r) = 16 ->
  createPrepare r request body sample = (r', None) ->
  exists entry, last (Replica.pipeline r') = Some entry /\ prepared request (pipelineEntry.header entry) /\
    View (pipelineEntry.header entry) = Replica.view r.
Proof.
  intros Hw Hh Hc E. unfold createPrepare in E. cbn [acquire] in E. destruct (negb _); [done|]. unfold propose in E.
  match type of E with context [sealed ?h ?b] => destruct (sealed h b) as [[frame header]|] eqn:Es; [|done] end.
  pose proof (sealed_release _ _ _ _ Es) as Er. pose proof (sealed_same _ _ _ _ Es) as (_ & Ev & Ef). cbn [Header.Release View Fields] in Er, Ev, Ef.
  match type of E with context [acceptPrepare ?x frame header] => destruct (acceptPrepare x frame header) as [r1 []] eqn:Ea; [|done] end.
  injection E as <-. destruct (acceptPrepare_pushed _ _ _ _ Ea) as (entry & El & Eh). exists entry. split; [exact El|]. rewrite Eh.
  split; [|exact Ev]. cbn [Replica.headChecksum Replica.checkpointID updated] in Ef.
  match type of Ef with _ = write_fields _ ?l => set (fields := l) in Ef end.
  assert (layout_ok 128 (field_sizes fields) = true) as Hok.
  { unfold fields, field_sizes. cbn [fmap list_fmap].
    rewrite Hh, Hc, (wf_HeaderChecksum _ Hw), !zlen_slice, !zlen_putUint by (rewrite ?(wf_Fields _ Hw); lia). done. }
  assert (forall k o bs b, fields !! k = Some (o, bs) -> b = o + zlen bs -> slice (Fields header) o b = bs)
    as Hread by (intros; rewrite Ef; by eapply field_index).
  split.
  - apply (Hread 1%nat 32 (HeaderChecksum request) 48 eq_refl). by rewrite (wf_HeaderChecksum _ Hw).
  - apply (Hread 3%nat 80 (slice (Fields request) 32 48) 96 eq_refl). by rewrite zlen_slice by (rewrite ?(wf_Fields _ Hw); lia).
  - apply (Hread 7%nat 120 (slice (Fields request) 64 68) 124 eq_refl). by rewrite zlen_slice by (rewrite ?(wf_Fields _ Hw); lia).
  - apply (Hread 8%nat 124 (putUint 1 (requestOperation request)) 125 eq_refl). by rewrite zlen_putUint by lia.
  - exact Er.
  - rewrite Ef. by apply zlen_write_fields.
Qed.

Lemma buildReplyHeader_answers r entry body frame reply request :
  wf_header request -> prepared request (pipelineEntry.header entry) -> is_u32 (View (pipelineEntry.header entry)) ->
  zlen (Config.Group (Replica.config r)) = 16 -> is_u8 (primaryOf r (View (pipelineEntry.header entry))) ->
  buildReplyHeader r entry body = Some (frame, reply) -> reply_to request reply.
Proof.
  intros Hw [P1 P2 P3 P4 P5 P6] Hv Hg Ha E. unfold buildReplyHeader in E. set (p := pipelineEntry.header entry) in *.
  destruct (EncodeHeader _ _) as [[encoded h0]|]; [|done].
  set (tag := ChecksumBytes (slice _ _ _)) in E. assert (zlen tag = 16) as Hctx by apply zlen_ChecksumBytes.
  match type of E with context [write_fields ?z ?l] => change (put (write_fields z l) 32 tag) with (write_fields z (l ++ [(32, tag)])) in E end.
  cbn [app] in E. match type of E with context [write_fields _ ?l] => set (fields := l) in E end.
  assert (layout_ok 128 (field_sizes fields) = true) as Hok.
  { unfold fields, field_sizes. cbn [fmap list_fmap]. rewrite Hctx, !zlen_slice by lia. done. }
  pose proof (sealed_release _ _ _ _ E) as Er. pose proof (sealed_same _ _ _ _ E) as (_ & _ & Ef). cbn [Header.Release Fields] in Er, Ef.
  assert (forall k o bs b, fields !! k = Some (o, bs) -> b = o + zlen bs -> slice (Fields reply) o b = bs)
    as Hread
    by (intros k o bs b Hk Hb; rewrite Ef; exact (field_index 128 (zeros CommandFieldsSize) fields k o bs b eq_refl Hok Hk Hb)).
  assert (slice (Fields reply) 104 109 = slice (Fields p) 120 125) as E5 by (apply (Hread 5%nat 104 _ 109 eq_refl); by rewrite zlen_slice by lia).
  split.
  - assert (wf_header (mkHeader (zeros 16) (ChecksumBytes body) (Config.Group (Replica.config r)) (u32 (HeaderSize + zlen body)) 0 (View p)
      (Header.Release p) ProtocolVersion CommandReply (primaryOf r (View p)) (write_fields (zeros CommandFieldsSize) fields))) as Hwh.
    { split; cbn [HeaderChecksum BodyChecksum Group Size Epoch View Header.Release Protocol Command Author Fields]; try done;
        [apply zlen_ChecksumBytes|by apply uwrap_range|rewrite P5; apply Hw|exact (zlen_write_fields 128 (zeros CommandFieldsSize) fields eq_refl Hok)]. }
    unfold sealed in E. destruct (SealFrame _ _) as [[f h]|] eqn:Es; [|done]. injection E as -> ->.
    by destruct (SealFrame_inv _ _ _ _ Hwh Es) as (_ & _ & _ & _ & ? & _).
  - unfold replyClient. rewrite (Hread 1%nat 64 _ 80 eq_refl) by (by rewrite zlen_slice by lia). exact P2.
  - unfold replyRequest, requestNumber. f_equal. rewrite <- P3. pose proof (f_equal (fun l => slice l 0 4) E5) as E6. cbn beta in E6.
    rewrite !slice_slice in E6 by lia. exact E6.
  - unfold replyRequestChecksum. rewrite (Hread 0%nat 0 _ 16 eq_refl) by (by rewrite zlen_slice by lia). exact P1.
  - by rewrite Er.
  - rewrite (byteAt_lit _ 108 109) by lia. pose proof (f_equal (fun l => slice l 4 5) E5) as E6. cbn beta in E6.
    rewrite !slice_slice in E6 by lia. change (slice (Fields reply) 108 109 = slice (Fields p) 124 125) in E6. rewrite E6, P4.
    apply (getUint_putUint 1). apply byteAt_range.
  - unfold replyOp, replyCommit. by rewrite (Hread 2%nat 80 _ 88 eq_refl), (Hread 3%nat 88 _ 96 eq_refl) by (by rewrite zlen_slice by lia).
Qed.

(** C19: the reply answers the request it was made for.  When a primary makes a
    prepare of a request, the reply any replica builds for that prepare has the
    client, the number, the checksum, the operation and the release of the
    request, which is what the client and the session table look for. *)
Theorem reply_answers_request r request body sample r' :
  wf_header request -> zlen (Replica.headChecksum r) = 16 -> zlen (Replica.checkpointID r) = 16 -> is_u32 (Replica.view r) ->
  createPrepare r request body sample = (r', None) ->
  exists entry, last (Replica.pipeline r') = Some entry /\
    forall (executing : Replica S) replyBody frame reply,
      zlen (Config.Group (Replica.config executing)) = 16 -> is_u8 (primaryOf executing (Replica.view r)) ->
      buildReplyHeader executing entry replyBody = Some (frame, reply) -> reply_to request reply.
Proof.
  intros Hw Hh Hc Hv E. destruct (createPrepare_prepared _ _ _ _ _ Hw Hh Hc E) as (entry & El & Hp & Ev). exists entry. split; [done|].
  intros executing replyBody frame reply Hg Ha Eb. eapply buildReplyHeader_answers; [done|exact Hp|by rewrite Ev|exact Hg|by rewrite Ev|exact Eb].
Qed.
End replies.

(** ** Witnesses *)

(** A client that has registered with operation 5. *)
Definition sample_client : Client :=
  Client.mk (ClientConfig.mk (zeros 16) (replyClient sample_reply) 1 3 1024 DefaultProcessConfig) (DeterministicRandom.mk 1) ClientRegistered
    0 5 0 (replyContext sample_reply) 64 None (Timeout.Stop stopped) stopped 0 (replicate 6 0) 0 [true; true] [] [] [].

Definition sample_table : SessionTable := (Sessions.Commit empty_table sample_reply 5).1.
Definition sample_exchange : exchange := exchange.mk sample_client sample_table [] [] [].

Lemma sample_linked : linked [] sample_exchange (mkRecord sample_reply 5).
Proof.
  destruct (Sessions.Commit empty_table sample_reply 5) as [t' [slot|]] eqn:HC; [|vm_compute in HC; discriminate HC].
  assert (is_u64 5) as H5 by (split; [discriminate|reflexivity]).
  destruct (Commit_result empty_table sample_reply 5 t' slot wf_empty_table wf_sample_reply H5 HC) as (Hwf & Hh & _).
  assert (sample_table = t') as Et by (unfold sample_table; by rewrite HC). rewrite <- Et in *. clear HC Et.
  split; unfold id_of; cbn [exchange.client exchange.table exchange.requests exchange.executed exchange.replies sample_exchange].
  - reflexivity.
  - split; vm_compute; try reflexivity; (split; [discriminate|reflexivity]).
  - split; [exact Hwf|exact Hh].
  - vm_compute. done.
  - reflexivity.
  - constructor.
  - split; reflexivity.
  - constructor.
  - exists []. split; reflexivity.
Qed.


Definition sample_request : Header := Eval vm_compute in
  match sealed (requestHeader sample_client 128 1) [] with Some (_, header) => header | None => zeroHeader end.

Lemma reply_answers_request_witness :
  exists entry, last (Replica.pipeline (createPrepare (appended 0) sample_request [] (TimeSample.mk 10 10 true)).1) = Some entry /\
    forall frame reply, buildReplyHeader (appended 0) entry [] = Some (frame, reply) -> reply_to sample_request reply.
Proof.
  destruct (createPrepare (appended 0) sample_request [] (TimeSample.mk 10 10 true)) as [r' outcome] eqn:E.
  assert (outcome = None) as ->.
  { transitivity (createPrepare (appended 0) sample_request [] (TimeSample.mk 10 10 true)).2; [by rewrite E|]. vm_compute. reflexivity. }
  assert (wf_header sample_request) as Hw by (split; vm_compute; try reflexivity; (split; [discriminate|reflexivity])).
  destruct (reply_answers_request (appended 0) sample_request [] (TimeSample.mk 10 10 true) r' Hw eq_refl eq_refl
    ltac:(split; [discriminate|reflexivity]) E) as (entry & El & Hr).
  exists entry. split; [exact El|]. intros frame reply. apply Hr; [reflexivity|vm_compute; split; [discriminate|reflexivity]].
Defined.
